(* ===== verification/_CoqProject ===== *)
-Q . S2P
Prelude.v
GoNet.v
GoHash.v
GoFloat.v
NetUtil.v
Bitmap.v
GoJson.v
ApiTypes.v
DeepCopy.v
StatusCalc.v
MergePatch.v
Effects.v
InMemory.v
Metrics.v
Names.v
Select.v
Allocator.v
History.v
ClaimStatus.v
ClaimReconciler.v
Cluster.v
Refinement.v
Progress.v
Predicates.v
SubnetStatus.v
SubnetController.v
Pager.v
PoolStatus.v
PoolClaim.v
PoolClaimProgress.v
System.v
Collectors.v
Gauges.v
Watches.v
Config.v
Setup.v
Scheme.v
DebugScan.v
Events.v
StaleReads.v
EnvTest.v
