(* ===== verification/Prelude.v ===== *)
(** * Plexaubnet: a verified model of a Kubernetes address allocator

    The program hands out IPv4 blocks of SubnetPools.  A SubnetClaim asks for
    a block of a pool; its controller creates a Subnet object whose name
    encodes pool and CIDR, so that the API server's uniqueness of names settles
    races, and then marks the claim Bound.  A second controller keeps the phase
    of Subnets, a third keeps the status (counts, allocated CIDRs) of pools, and
    a fourth turns a SubnetPoolClaim into an internal SubnetClaim and, once that
    is bound, into a child pool.  All interaction is through the API server.

    ** Parts and files (paths under src/)

    - [Prelude]: errors and results, hint database, shared lemmas.
    - [GoNet], [GoHash], [GoFloat], [GoJson]: the parts of Go's standard library
      the code uses: [net.ParseCIDR] and [IPNet] on bytes, SHA-1 with
      hexadecimal output, binary64 arithmetic with [math.Pow], JSON decoding.
    - [NetUtil] (internal/netutil): [CIDROverlaps], [CalculateLastIP].
    - [Bitmap] (internal/controller/bitmap.go): the map of busy addresses; its
      state is [CIDRMap], with the [big.Int] as an unbounded integer.
    - [ApiTypes] (api/v1alpha1): the four resources.
    - [DeepCopy] (zz_generated.deepcopy.go): the generated copy functions over an
      explicit heap of structs, maps and slices.
    - [StatusCalc] (internal/controller/statuscalc): the numbers of a pool.
    - [MergePatch]: what the patches the code sends do to a stored object that
      has changed since the object they were computed from was read.
    - [Effects]: handlers as trees of calls ([prog]) with their traces, the
      total-correctness statement [wp] over all responses of an environment,
      execution [exec] against a concrete one, and the interfaces (classes) of
      the libraries: error classification, owner references, conditions, retry.
    - [InMemory]: a concrete API server, which applies merge patches and
      generates names, used to instantiate the interfaces.
    - [Metrics] (metrics.go, events.go): recording functions and events.
    - [Names], [Select], [Allocator] (allocator.go, [validateClaim] of
      reconciler.go): object names, choice of a CIDR, the allocation loop.
    - [History]: the states a server has gone through, the responses that are
      genuine with respect to them (some past state, or an error), and the
      programs that are left after a trace of calls.
    - [ClaimStatus], [ClaimReconciler] (reconciler.go, controller.go): status
      updates of claims and the claim controller.
    - [Cluster]: any number of claim reconciliations interleaved over one set
      of Subnets, with stale reads, lost answers, deletions and foreign status
      writes.
    - [Refinement]: a specification of address ownership (grants of free ranges,
      releases) and the simulation that the cluster implements it.
    - [Progress]: a servable claim is bound by one run of the claim controller.
    - [Predicates] (predicates.go, [childPoolPredicate]): event filters.
    - [SubnetStatus] (internal/controller/statusutil), [SubnetController]
      (subnet_controller.go): status patches and the Subnet controller.
    - [Pager] (pager.go), [PoolStatus] (poolstatus_controller.go): listing by
      pages and the pool status controller.
    - [PoolClaim] (poolclaim_controller.go): the pool claim controller.
    - [PoolClaimProgress]: the pool claim and the claim controller together,
      over a server that generates names, and over one whose lists lag behind.
    - [System]: the four controllers, any number of reconciliations each, and
      users that create, edit and delete objects, in one transition system over
      one store and its history; its invariant says where every Bound status,
      child pool and status entry comes from.
    - [Collectors] (metrics.go, statusutil/metrics.go): declaration and
      registration of the Prometheus collectors.
    - [Gauges] (metrics_static.go, pool_gauge_watcher.go, [recordPoolMetrics]):
      the registry of exported gauges.
    - [Watches] ([setupPoolStatusBuilder]): which events reconcile which pool.
    - [Config] (internal/config): the settings, their defaults and the file.
    - [Setup] (cmd/main.go, init_index.go, [RegisterControllers] and the
      [SetupWithManager] methods): start-up as a tree of library calls ([boot]),
      the field indexes, and the controllers as declarations.
    - [Scheme] (groupversion_info.go, the [init] functions of the types and of
      cmd/main.go, [NewTestScheme]): registration of the types; the scheme and
      its builder are a class with laws.
    - [DebugScan] (manual_scan_debug.go): the scan of the debug build.
    - [Events]: the declarations of [Setup] read as functions from watch events
      to requests, and what follows for controllers that wait for each other.
    - [StaleReads]: runs of [System] with a lagging cache or an edited spec that
      end in states nobody asked for.
    - [EnvTest] (internal/testutils): the set-up of the test binaries as a tree
      of calls of the operating system.

    ** Correspondence

    A Go function without effects is a Rocq function of the same name; an
    [error] result is [result] or [option error], two results a pair.  A handler
    is a [prog]; each call of the client, recorder, metrics, clock or random
    source is one [call] in the order of the code.  Ranging over a map asks the
    environment for an order of its keys.  Variables a closure captures are the
    state threaded through the retry.  A nil dereference or [rand.Intn] of a
    non-positive number is a [Panic]; [wp] excludes panics.  Log output and
    measured durations are left out.

    ** What the theorems show

    - Addresses: the overlap test is intersection of intervals; the bitmap
      operations are exact; first fit; free counts decide allocation.
    - Selection: the block chosen is the lowest one free of all used CIDRs, in
      any map order, when these are pairwise equal or disjoint; what happens
      otherwise is shown by an example.
    - Allocation: for every behaviour of the API server at most 50 Subnets are
      submitted, none overlaps an allocation that was read, and the CIDR
      reported was really obtained.
    - Concurrency: in every interleaving no two Subnets of a pool have the same
      CIDR, and none overlap when all claims of the pool take one block size;
      for different sizes an overlapping run is exhibited.  With one block size
      the cluster refines the specification of address ownership.
    - Provenance: in every interleaving of the four controllers and the users,
      with stale reads, lost answers and errors, a Bound claim reports the CIDR
      of a Subnet that existed for it; when specs are not edited, a Bound pool
      claim names a pool of its own whose block was allocated for it in the
      parent that the label names; each status entry of a pool is that of a
      Subnet of the pool; no reconciliation of a claim, a Subnet or a pool
      claim panics.  Runs are exhibited in which a stale object makes a
      pool's count and entries disagree, moves a time of allocation, and in
      which an edited spec leads to a wrong parent label.
    - Controllers: what each may write, how often, and when it may report
      success; a servable claim is bound and a pool's status converges in one
      run against a server that answers from its state, and a pool claim
      reaches its child pool in three, also when the report of a child pool
      already created was lost; the Subnet controller
      never alters a time of allocation that it has read; Bound is reported
      only with a block or a child pool in place.
    - Events and gauges: exactly which events reconcile a pool; the exported
      gauges are those of the registry's map in every interleaving; every
      metric operation fits a registered collector.
    - Interplay: status writes enqueue nothing, so a pool claim polls its
      internal claim; a deleted Subnet leaves its claim Bound, and the block is
      given away again (a run is exhibited); a lagging cache makes a pool claim
      request two internal claims (a run is exhibited).
    - Copies: a deep copy has the value of the original and shares nothing.
    - Start-up: the process exits at the first failure that is not tolerated,
      and the manager starts only with every index and controller in place.

    ** Bounds

    Loops of the code keep their own bounds: 50 allocation attempts, 65
    iterations of the claim loop, 4 times 5 status writes, 6 patches, 5 pool
    patches.  [pow_loop] has fuel 64 for exponents below 2^63; SHA-1 runs over
    the blocks of its padded input.  The pager's loop has no bound in the
    code: the model takes one, runs beyond it count as panics, and the theorems
    show that the number of pages is enough.  The JSON parser has fuel of twice
    the length of the text; [json_fuel] shows that more changes nothing.

    ** Not modelled

    Of start-up, parsing of the command line (the libraries add
    flags of their own), logging and signal handling; the model starts from the
    parsed flags.  Of the metrics, observed durations and the unused pool of
    label pairs.  The API server, controller-runtime, the scheme, the
    Prometheus library, the operating system
    and the metadata types of Kubernetes are environment: theorems assume of
    them only what the classes and hypotheses state.  Resource versions are not
    part of the stored objects: [History] lets a status update through only
    while metadata and spec are those that were read, and may refuse any.

    ** Plan

    Next: progress of the whole system (the queues of [Events] joined to the
    transition system of [System] under a fairness assumption), and reads that
    never go back in time, as a cache guarantees them for one object. *)

From Stdlib Require Export ZArith Lia Ascii String.
From stdpp Require Export base tactics numbers list strings pretty gmap.

#[global] Open Scope Z_scope.

(** * Errors and results

    A Go [error] value.  [EPlain] is an error made by [fmt.Errorf] without a
    [%w] verb (or a library error of which only the text matters), [EWrap] one
    made with [%w] (its text and the wrapped error), [EAllocator] the package's
    own [allocatorError], [EApi] an API status error (reason and message). *)
Inductive error : Type :=
| EPlain (msg : string)
| EWrap (msg : string) (inner : error)
| EAllocator (msg : string) (isExhausted isConflict : bool)
| EApi (reason msg : string).

#[export] Instance error_eq_dec : EqDecision error.
Proof. solve_decision. Defined.

(** The text of an error: Go's [err.Error()]. *)
Definition Error (e : error) : string :=
  match e with
  | EPlain m => m
  | EWrap m _ => m
  | EAllocator m _ _ => m
  | EApi _ m => m
  end.

(** A pair [(value, error)] of which exactly one half is meaningful. *)
Inductive result (A : Type) : Type :=
| Ok (a : A)
| Err (e : error).
Arguments Ok {_} _.
Arguments Err {_} _.

#[export] Instance result_eq_dec {A} `{EqDecision A} : EqDecision (result A).
Proof. solve_decision. Defined.

#[export] Instance result_ret : MRet result := λ A a, Ok a.
#[export] Instance result_bind : MBind result := λ A B f r,
  match r with Ok a => f a | Err e => Err e end.
#[export] Instance result_fmap : FMap result := λ A B f r,
  match r with Ok a => Ok (f a) | Err e => Err e end.

Definition is_ok {A} (r : result A) : bool :=
  match r with Ok _ => true | Err _ => false end.

(** * Machine integers *)

(** [int64(math.Pow(2, float64(e)))]: a negative exponent gives a fraction,
    which the conversion truncates to zero.  The exponents of this program are
    at most 32, far from the overflow of the conversion. *)
Definition pow2_int (e : Z) : Z := if e <? 0 then 0 else 2 ^ e.

Definition is_byte (b : Z) : Prop := 0 <= b < 256.

#[export] Instance is_byte_dec b : Decision (is_byte b).
Proof. unfold is_byte. apply _. Defined.

(** Wrap-around of the [byte] type. *)
Definition byte_wrap (z : Z) : Z := z mod 256.

(** * Generic lemmas *)

Section Pow2.
Lemma pow2_pos n : 0 < 2 ^ n \/ n < 0.
Proof. destruct (decide (0 <= n)); [left; apply Z.pow_pos_nonneg|right]; lia. Qed.

Lemma pow2_gt0 n : 0 <= n -> 0 < 2 ^ n.
Proof. intros; apply Z.pow_pos_nonneg; lia. Qed.

Lemma pow2_int_nonneg e : 0 <= pow2_int e.
Proof. unfold pow2_int. destruct (Z.ltb_spec e 0); [lia|]. apply Z.pow_nonneg; lia. Qed.

Lemma pow2_int_eq e : 0 <= e -> pow2_int e = 2 ^ e.
Proof. intros. unfold pow2_int. destruct (Z.ltb_spec e 0); lia. Qed.

Lemma pow2_int_neg e : e < 0 -> pow2_int e = 0.
Proof. intros. unfold pow2_int. destruct (Z.ltb_spec e 0); lia. Qed.

Lemma pow2_split a b : 0 <= b <= a -> 2 ^ a = 2 ^ (a - b) * 2 ^ b.
Proof. intros. rewrite <-Z.pow_add_r by lia. f_equal. lia. Qed.

Lemma pow2_divide a b : 0 <= b <= a -> (2 ^ b | 2 ^ a).
Proof. intros. exists (2 ^ (a - b)). by apply pow2_split. Qed.

(** Bits of a number written as a high part and a low part. *)
Lemma testbit_hi_lo k a r i :
  0 <= k -> 0 <= r < 2 ^ k -> 0 <= i ->
  Z.testbit (a * 2 ^ k + r) i = if i <? k then Z.testbit r i else Z.testbit a (i - k).
Proof.
  intros Hk Hr Hi. destruct (Z.ltb_spec i k).
  - rewrite <-(Z.mod_pow2_bits_low (a * 2 ^ k + r) k i) by lia.
    rewrite Z.add_comm, Z.mod_add by (pose proof (pow2_gt0 k); lia).
    by rewrite Z.mod_small.
  - replace i with ((i - k) + k) at 1 by lia.
    rewrite <-Z.div_pow2_bits by lia.
    rewrite Z.div_add_l by (pose proof (pow2_gt0 k); lia).
    rewrite Z.div_small by lia. by rewrite Z.add_0_r.
Qed.

Lemma land_small k r s : 0 <= k -> 0 <= r < 2 ^ k -> 0 <= s -> 0 <= Z.land r s < 2 ^ k.
Proof.
  intros Hk Hr Hs. assert (0 <= Z.land r s) by (apply Z.land_nonneg; lia).
  split; [done|]. destruct (decide (Z.land r s = 0)) as [->|Hne]; [by apply pow2_gt0|].
  apply Z.log2_lt_pow2; [lia|].
  eapply Z.le_lt_trans; [apply Z.log2_land; lia|].
  assert (r <> 0) by (intros ->; by rewrite Z.land_0_l in Hne).
  eapply Z.le_lt_trans; [apply Z.le_min_l|]. apply Z.log2_lt_pow2; lia.
Qed.

Lemma lor_small k r s : 0 <= k -> 0 <= r < 2 ^ k -> 0 <= s < 2 ^ k -> 0 <= Z.lor r s < 2 ^ k.
Proof.
  intros Hk Hr Hs. assert (0 <= Z.lor r s) by (apply Z.lor_nonneg; lia).
  split; [done|]. destruct (decide (Z.lor r s = 0)) as [->|Hne]; [by apply pow2_gt0|].
  apply Z.log2_lt_pow2; [lia|]. rewrite Z.log2_lor by lia.
  destruct (decide (k = 0)) as [->|].
  { assert (r = 0) as -> by lia. assert (s = 0) as -> by lia. done. }
  apply Z.max_lub_lt.
  - destruct (decide (r = 0)) as [->|]; [simpl; lia|]. apply Z.log2_lt_pow2; lia.
  - destruct (decide (s = 0)) as [->|]; [simpl; lia|]. apply Z.log2_lt_pow2; lia.
Qed.

Lemma land_hi_lo k a r b s :
  0 <= k -> 0 <= r < 2 ^ k -> 0 <= s < 2 ^ k ->
  Z.land (a * 2 ^ k + r) (b * 2 ^ k + s) = Z.land a b * 2 ^ k + Z.land r s.
Proof.
  intros Hk Hr Hs. apply Z.bits_inj'; intros i Hi.
  rewrite Z.land_spec, !testbit_hi_lo by (try apply land_small; lia).
  destruct (i <? k); by rewrite Z.land_spec.
Qed.

Lemma lor_hi_lo k a r b s :
  0 <= k -> 0 <= r < 2 ^ k -> 0 <= s < 2 ^ k ->
  Z.lor (a * 2 ^ k + r) (b * 2 ^ k + s) = Z.lor a b * 2 ^ k + Z.lor r s.
Proof.
  intros Hk Hr Hs. apply Z.bits_inj'; intros i Hi.
  rewrite Z.lor_spec, !testbit_hi_lo by (try apply lor_small; lia).
  destruct (i <? k); by rewrite Z.lor_spec.
Qed.

(** Masking with a run of one bits above bit [h] rounds down to a multiple of [2^h]. *)
Lemma land_high_mask b h x :
  0 <= h <= b -> 0 <= x < 2 ^ b -> Z.land x (2 ^ b - 2 ^ h) = x - x mod 2 ^ h.
Proof.
  intros Hh Hx.
  assert (Hp := pow2_gt0 h ltac:(lia)).
  replace (2 ^ b - 2 ^ h) with (Z.ones (b - h) * 2 ^ h + 0)
    by (rewrite Z.ones_equiv, (pow2_split b h) by lia; lia).
  replace (x - x mod 2 ^ h) with (x / 2 ^ h * 2 ^ h + 0)
    by (pose proof (Z.div_mod x (2 ^ h)); lia).
  rewrite (Z.div_mod x (2 ^ h)) at 1 by lia. rewrite (Z.mul_comm (2 ^ h)).
  rewrite land_hi_lo by (try apply Z.mod_pos_bound; lia).
  rewrite Z.land_0_r, Z.land_ones by lia.
  rewrite Z.mod_small; [done|]. split; [apply Z.div_pos; lia|].
  apply Z.div_lt_upper_bound; [lia|]. rewrite Z.mul_comm, <-pow2_split; lia.
Qed.

(** Setting the low [h] bits of a multiple of [2^h] adds [2^h - 1]. *)
Lemma lor_low_ones h x :
  0 <= h -> x mod 2 ^ h = 0 -> Z.lor x (2 ^ h - 1) = x + (2 ^ h - 1).
Proof.
  intros Hh Hx. assert (Hp := pow2_gt0 h Hh).
  apply Z.mod_divide in Hx as [q ->]; [|lia].
  rewrite <-(Z.add_0_r (q * 2 ^ h)) at 1.
  replace (2 ^ h - 1) with (0 * 2 ^ h + (2 ^ h - 1)) at 1 by lia.
  rewrite lor_hi_lo by lia. rewrite Z.lor_0_r, Z.lor_0_l. lia.
Qed.

Lemma aligned_round_down h lo v :
  0 <= h -> lo mod 2 ^ h = 0 ->
  (lo - lo mod 2 ^ h = v - v mod 2 ^ h <-> lo <= v <= lo + 2 ^ h - 1).
Proof.
  intros Hh Hlo. assert (Hp := pow2_gt0 h Hh). rewrite Hlo.
  pose proof (Z.mod_pos_bound v (2 ^ h) Hp). split; [lia|]. intros Hv.
  apply Z.mod_divide in Hlo as [q ->]; [|lia].
  assert (v mod 2 ^ h = v - q * 2 ^ h); [|lia].
  symmetry. apply (Z.mod_unique_pos v (2 ^ h) q); lia.
Qed.
End Pow2.

(** * Loops over index ranges

    [for i := 0; i < n; i++] over a total body is a fold or a search over
    [seqZ 0 n]; the lemmas below read such loops. *)
Section Loops.
Lemma existsb_seqZ (f : Z -> bool) m n :
  existsb f (seqZ m n) = true <-> exists i, m <= i < m + n /\ f i = true.
Proof.
  rewrite existsb_exists. setoid_rewrite <-list_elem_of_In. setoid_rewrite elem_of_seqZ. done.
Qed.

Lemma existsb_seqZ_false (f : Z -> bool) m n :
  existsb f (seqZ m n) = false <-> forall i, m <= i < m + n -> f i = false.
Proof.
  rewrite <-not_true_iff_false, existsb_seqZ. split.
  - intros H i Hi. apply not_true_iff_false. intros Hf. apply H; eauto.
  - intros H (i & Hi & Hf). rewrite H in Hf; [done|lia].
Qed.

Lemma seqZ_snoc m n : 0 <= n -> seqZ m (n + 1) = seqZ m n ++ [m + n].
Proof.
  intros Hn. rewrite seqZ_app by lia. f_equal.
Qed.

(** Induction on the bound of a counting loop. *)
Lemma loop_ind (P : Z -> Prop) :
  P 0 -> (forall n, 0 <= n -> P n -> P (n + 1)) -> forall n, 0 <= n -> P n.
Proof. intros H0 HS n Hn. apply natlike_ind; [done| |done]. intros. by apply HS. Qed.

(** [find] returns the first index that satisfies the test. *)
Lemma find_seqZ_some (f : Z -> bool) m n i :
  List.find f (seqZ m n) = Some i <->
  (m <= i < m + n /\ f i = true /\ forall j, m <= j < i -> f j = false).
Proof.
  destruct (decide (0 <= n)) as [Hn|Hn]; cycle 1.
  { rewrite seqZ_nil by lia. simpl. split; [done|lia]. }
  revert n Hn. refine (loop_ind _ _ _).
  - simpl. split; [done|lia].
  - intros n Hn IH. rewrite seqZ_snoc by done.
    assert (Happ : forall l1 l2 : list Z, List.find f (l1 ++ l2)
      = match List.find f l1 with Some x => Some x | None => List.find f l2 end).
    { intros l1 l2. induction l1 as [|x l1 IHl]; [done|]. simpl. by destruct (f x). }
    rewrite Happ. destruct (List.find f (seqZ m n)) as [k|] eqn:Hk.
    + assert (Hk' := proj1 (list_elem_of_In _ _) (proj2 (list_elem_of_In _ _) (proj1 (List.find_some _ _ Hk)))).
      apply list_elem_of_In, elem_of_seqZ in Hk'.
      pose proof (proj2 (List.find_some _ _ Hk)) as Hfk.
      split.
      * intros [= ->]. destruct (proj1 IH) as (?&?&?); [done|]. split_and!; auto; lia.
      * intros (Hi & Hfi & Hmin). destruct (decide (i < m + n)).
        -- apply IH. split_and!; auto; lia.
        -- assert (i = m + n) as -> by lia. rewrite Hmin in Hfk; [done|lia].
    + pose proof (List.find_none _ _ Hk) as Hnone.
      assert (Hno : forall j, m <= j < m + n -> f j = false).
      { intros j Hj. apply Hnone, list_elem_of_In, elem_of_seqZ. lia. }
      simpl. destruct (f (m + n)) eqn:Hf.
      * split.
        -- intros [= <-]. split_and!; auto; lia.
        -- intros (Hi & Hfi & Hmin). f_equal. destruct (decide (i = m + n)); [lia|].
           rewrite Hno in Hfi; [done|lia].
      * split; [done|]. intros (Hi & Hfi & _). destruct (decide (i = m + n)) as [->|]; [congruence|].
        rewrite Hno in Hfi; [done|lia].
Qed.

Lemma find_seqZ_none (f : Z -> bool) m n :
  List.find f (seqZ m n) = None <-> forall j, m <= j < m + n -> f j = false.
Proof.
  split.
  - intros H j Hj. apply (List.find_none _ _ H), list_elem_of_In, elem_of_seqZ. lia.
  - intros H. destruct (List.find f (seqZ m n)) as [i|] eqn:E; [|done].
    apply find_seqZ_some in E as (Hi & Hf & _). rewrite H in Hf; [done|lia].
Qed.

(** A counting loop. *)
Definition count_loop (f : Z -> bool) (n : Z) : Z :=
  foldl (λ k i, if f i then k + 1 else k) 0 (seqZ 0 n).

Lemma count_loop_succ f n : 0 <= n -> count_loop f (n + 1) = count_loop f n + if f n then 1 else 0.
Proof.
  intros Hn. unfold count_loop. rewrite seqZ_snoc, foldl_app by done. cbn [foldl].
  rewrite Z.add_0_l. destruct (f n); lia.
Qed.

Lemma count_loop_nonpos f n : n <= 0 -> count_loop f n = 0.
Proof. intros. unfold count_loop. by rewrite seqZ_nil. Qed.

Lemma count_loop_bound f n : 0 <= n -> 0 <= count_loop f n <= n.
Proof.
  revert n. refine (loop_ind _ _ _); [by rewrite count_loop_nonpos|]. intros n Hn IH.
  rewrite count_loop_succ by done. destruct (f n); lia.
Qed.

Lemma count_loop_ext f g n : (forall i, 0 <= i < n -> f i = g i) -> count_loop f n = count_loop g n.
Proof.
  destruct (decide (0 <= n)); [|intros; by rewrite !count_loop_nonpos by lia].
  revert n l. refine (loop_ind _ _ _); [done|]. intros n Hn IH Hfg.
  rewrite !count_loop_succ by done. rewrite IH by (intros; apply Hfg; lia).
  by rewrite (Hfg n) by lia.
Qed.

Lemma count_loop_all f n : 0 <= n -> (forall i, 0 <= i < n -> f i = true) -> count_loop f n = n.
Proof.
  revert n. refine (loop_ind _ _ _); [done|]. intros n Hn IH Hf.
  rewrite count_loop_succ, IH by (auto; intros; apply Hf; lia). rewrite (Hf n) by lia. lia.
Qed.

Lemma count_loop_pos f n : 0 < count_loop f n <-> exists i, 0 <= i < n /\ f i = true.
Proof.
  destruct (decide (0 <= n)) as [Hn|]; cycle 1.
  { rewrite count_loop_nonpos by lia. split; [lia|]. intros (i & ? & _). lia. }
  revert n Hn. refine (loop_ind _ _ _).
  { rewrite count_loop_nonpos by lia. split; [lia|]. intros (i & ? & _). lia. }
  intros n Hn IH. rewrite count_loop_succ by done. pose proof (count_loop_bound f n Hn).
  destruct (f n) eqn:E.
  - split; [|lia]. intros _. exists n. split; [lia|done].
  - rewrite Z.add_0_r, IH. split; intros (i & Hi & Hf); exists i; (split; [|done]); [lia|].
    assert (i <> n) by congruence. lia.
Qed.

(** Switching one index off decrements the count. *)
Lemma count_loop_off f g n i :
  0 <= i < n -> f i = true -> g i = false ->
  (forall j, 0 <= j < n -> j <> i -> g j = f j) -> count_loop g n = count_loop f n - 1.
Proof.
  intros Hi Hf Hg. assert (Hn : 0 <= n) by lia. revert n Hn Hi. refine (loop_ind _ _ _); [lia|].
  intros n Hn IH Hi Hext. rewrite !count_loop_succ by done.
  destruct (decide (i = n)) as [->|].
  - rewrite Hf, Hg. rewrite (count_loop_ext g f) by (intros; apply Hext; lia). lia.
  - rewrite IH by (lia || (intros; apply Hext; lia)). rewrite (Hext n) by lia. lia.
Qed.
End Loops.

(** * Automation *)
Create HintDb plex.
#[export] Hint Resolve pow2_gt0 pow2_int_nonneg : plex.

(** Split a boolean test of the source into its propositional reading. *)
Ltac bool_prop :=
  repeat match goal with
  | H : _ && _ = true |- _ => apply andb_true_iff in H as [? ?]
  | H : _ || _ = false |- _ => apply orb_false_iff in H as [? ?]
  | H : negb _ = true |- _ => apply negb_true_iff in H
  | H : negb _ = false |- _ => apply negb_false_iff in H
  | H : bool_decide _ = true |- _ => apply bool_decide_eq_true in H
  | H : bool_decide _ = false |- _ => apply bool_decide_eq_false in H
  | H : (_ =? _) = true |- _ => apply Z.eqb_eq in H
  | H : (_ =? _) = false |- _ => apply Z.eqb_neq in H
  | H : (_ <? _) = true |- _ => apply Z.ltb_lt in H
  | H : (_ <? _) = false |- _ => apply Z.ltb_ge in H
  | H : (_ <=? _) = true |- _ => apply Z.leb_le in H
  | H : (_ <=? _) = false |- _ => apply Z.leb_gt in H
  | H : (_ =? _)%nat = true |- _ => apply Nat.eqb_eq in H
  | H : (_ =? _)%nat = false |- _ => apply Nat.eqb_neq in H
  | H : (_ <? _)%nat = true |- _ => apply Nat.ltb_lt in H
  | H : (_ <? _)%nat = false |- _ => apply Nat.ltb_ge in H
  | H : (_ <=? _)%nat = true |- _ => apply Nat.leb_le in H
  | H : (_ <=? _)%nat = false |- _ => apply Nat.leb_gt in H
  end.

(** Case analysis on the tests of a definition that has been unfolded in [H]. *)
Ltac inv_result H :=
  repeat (case_match; try discriminate H; simplify_eq/=; bool_prop).

(** The length of a concatenation of strings. *)
Lemma length_append (s t : string) : String.length (s +:+ t) = (String.length s + String.length t)%nat.
Proof.
  induction s as [|c s IH]; [done|]. change (String c s +:+ t) with (String c (s +:+ t)). cbn. by rewrite IH.
Qed.
