(* ===== verification/GoNet.v ===== *)
(** The part of Go's [net] and [net/netip] packages the program calls:
    [ParseCIDR] (with the IPv4 and IPv6 address parsers), [CIDRMask],
    [IPMask.Size], [IP.To4], [IP.Mask], [IPNet.Contains] and the textual form
    of an IPv4 address.  An address is a list of bytes (4 or 16), as in Go.
    The lemmas relate the byte-wise operations to intervals of integers: a
    parsed network is the interval [net_lo .. net_hi]. *)

From S2P Require Import Prelude.

(** * Characters *)

Definition char_code (c : ascii) : Z := Z.of_N (N_of_ascii c).

Definition is_digit (c : ascii) : bool := (48 <=? char_code c) && (char_code c <=? 57).

Definition digit_val (c : ascii) : Z := char_code c - 48.

Definition hex_val (c : ascii) : option Z :=
  let n := char_code c in
  if (48 <=? n) && (n <=? 57) then Some (n - 48)
  else if (97 <=? n) && (n <=? 102) then Some (n - 97 + 10)
  else if (65 <=? n) && (n <=? 70) then Some (n - 65 + 10)
  else None.

(** [strings.Cut(s, sep)] for a one-byte separator: the text before and after
    its first occurrence. *)
Fixpoint str_cut (sep : ascii) (s : string) : option (string * string) :=
  match s with
  | EmptyString => None
  | String c s' =>
      if bool_decide (c = sep) then Some (EmptyString, s')
      else match str_cut sep s' with
           | Some (a, b) => Some (String c a, b)
           | None => None
           end
  end.

(** * net/netip address parsing *)

Inductive Addr : Type :=
| Addr4 (b : list Z)
| Addr6 (b : list Z) (zone : string).

(** The loop of [parseIPv4Fields]: [prevdot] is [i == 0 || s[i-1] == '.'],
    [fields] the octets completed so far. *)
Fixpoint parseIPv4Fields (s : string) (prevdot : bool) (fields : list Z)
    (val digLen : Z) : option (list Z) :=
  match s with
  | EmptyString => if (length fields <? 3)%nat then None else Some (fields ++ [val])
  | String c s' =>
      if is_digit c then
        if (digLen =? 1) && (val =? 0) then None
        else let val' := val * 10 + digit_val c in
             if 255 <? val' then None
             else parseIPv4Fields s' false fields val' (digLen + 1)
      else if bool_decide (c = "."%char) then
        if prevdot || bool_decide (s' = EmptyString) then None
        else if (length fields =? 3)%nat then None
        else parseIPv4Fields s' true (fields ++ [val]) 0 0
      else None
  end.

Definition parseIPv4 (s : string) : option Addr :=
  match parseIPv4Fields s true [] 0 0 with
  | Some b => Some (Addr4 b)
  | None => None
  end.

(** The inner loop of [parseIPv6]: one group of hexadecimal digits. *)
Fixpoint scanHex (s : string) (off : nat) (acc : Z) : option (Z * nat * string) :=
  match s with
  | EmptyString => Some (acc, off, EmptyString)
  | String c s' =>
      match hex_val c with
      | None => Some (acc, off, s)
      | Some d =>
          let acc' := acc * 16 + d in
          if (3 <? off)%nat then None
          else if 65535 <? acc' then None
          else scanHex s' (S off) acc'
      end
  end.

(** The outer loop of [parseIPv6].  [groups] counts the 16-bit groups still
    free in the address (the loop condition [i < 16]); [ip] holds the bytes
    stored so far and [ell] the position of the ellipsis.  The result is the
    rest of the input, the bytes and the ellipsis. *)
Fixpoint parseIPv6_loop (groups : nat) (s : string) (ip : list Z) (ell : option nat)
    : option (string * list Z * option nat) :=
  match groups with
  | O => Some (s, ip, ell)
  | S groups' =>
      match scanHex s 0 0 with
      | None => None
      | Some (acc, off, rest) =>
          if (off =? 0)%nat then None else
          match rest with
          | String "."%char _ =>
              if bool_decide (ell = None) && negb (length ip =? 12)%nat then None
              else if (16 <? length ip + 4)%nat then None
              else match parseIPv4Fields s true [] 0 0 with
                   | None => None
                   | Some b => Some (EmptyString, ip ++ b, ell)
                   end
          | EmptyString => Some (EmptyString, ip ++ [acc / 256; acc mod 256], ell)
          | String c rest' =>
              let ip' := ip ++ [acc / 256; acc mod 256] in
              if negb (bool_decide (c = ":"%char)) then None
              else match rest' with
                   | EmptyString => None
                   | String ":"%char rest'' =>
                       match ell with
                       | Some _ => None
                       | None =>
                           if bool_decide (rest'' = EmptyString)
                           then Some (EmptyString, ip', Some (length ip'))
                           else parseIPv6_loop groups' rest'' ip' (Some (length ip'))
                       end
                   | _ => parseIPv6_loop groups' rest' ip' ell
                   end
          end
      end
  end.

(** The tail of [parseIPv6]: the whole text must be used, and an ellipsis is
    expanded with zeros. *)
Definition parseIPv6_finish (r : string * list Z * option nat) : option (list Z) :=
  let '(s, ip, ell) := r in
  if negb (bool_decide (s = EmptyString)) then None
  else if (length ip <? 16)%nat then
    match ell with
    | None => None
    | Some e => Some (take e ip ++ replicate (16 - length ip) 0 ++ drop e ip)
    end
  else match ell with Some _ => None | None => Some ip end.

Definition parseIPv6_body (s : string) : option (list Z) :=
  match s with
  | String ":"%char (String ":"%char s') =>
      if bool_decide (s' = EmptyString) then Some (replicate 16 0)
      else parseIPv6_loop 8 s' [] (Some 0%nat) ≫= parseIPv6_finish
  | _ => parseIPv6_loop 8 s [] None ≫= parseIPv6_finish
  end.

Definition parseIPv6 (s : string) : option Addr :=
  match str_cut "%"%char s with
  | Some (a, z) =>
      if bool_decide (z = EmptyString) then None
      else match parseIPv6_body a with Some b => Some (Addr6 b z) | None => None end
  | None => match parseIPv6_body s with Some b => Some (Addr6 b EmptyString) | None => None end
  end.

(** [netip.ParseAddr]: the first of ['.'], [':'] and ['%'] decides the family. *)
Fixpoint ParseAddr_scan (t s : string) : option Addr :=
  match t with
  | EmptyString => None
  | String c t' =>
      if bool_decide (c = "."%char) then parseIPv4 s
      else if bool_decide (c = ":"%char) then parseIPv6 s
      else if bool_decide (c = "%"%char) then None
      else ParseAddr_scan t' s
  end.

Definition ParseAddr (s : string) : option Addr := ParseAddr_scan s s.

(** [net.dtoi]: decimal to integer, with the number of bytes read. *)
Fixpoint dtoi_loop (s : string) (n : Z) (i : nat) : Z * nat * bool :=
  match s with
  | EmptyString => if (i =? 0)%nat then (0, 0%nat, false) else (n, i, true)
  | String c s' =>
      if is_digit c then
        let n' := n * 10 + digit_val c in
        if 16777215 <=? n' then (16777215, i, false) else dtoi_loop s' n' (S i)
      else if (i =? 0)%nat then (0, 0%nat, false) else (n, i, true)
  end.

Definition dtoi (s : string) : Z * nat * bool := dtoi_loop s 0 0.

(** * Addresses, masks and networks *)

Definition BitLen (a : Addr) : Z := match a with Addr4 _ => 32 | Addr6 _ _ => 128 end.

Definition v4InV6Prefix : list Z := replicate 10 0 ++ [255; 255].

Definition As16 (a : Addr) : list Z :=
  match a with Addr4 b => v4InV6Prefix ++ b | Addr6 b _ => b end.

(** [net.CIDRMask(ones, bits)], for the two widths it accepts ([nil] otherwise). *)
Fixpoint CIDRMask_loop (l : nat) (n : Z) : list Z :=
  match l with
  | O => []
  | S l' =>
      if 8 <=? n then 255 :: CIDRMask_loop l' (n - 8)
      else (255 - Z.shiftr 255 n) :: CIDRMask_loop l' 0
  end.

Definition CIDRMask (ones bits : Z) : list Z :=
  if negb ((bits =? 32) || (bits =? 128)) then []
  else if (ones <? 0) || (bits <? ones) then []
  else CIDRMask_loop (Z.to_nat (bits / 8)) ones.

(** [simpleMaskLength]: the number of leading ones, [-1] if not contiguous. *)
Fixpoint leading_ones (fuel : nat) (v : Z) : Z * Z :=
  match fuel with
  | O => (0, v)
  | S f =>
      if Z.land v 128 =? 0 then (0, v)
      else let '(n, v') := leading_ones f (byte_wrap (v * 2)) in (n + 1, v')
  end.

Fixpoint simpleMaskLength (m : list Z) : Z :=
  match m with
  | [] => 0
  | v :: m' =>
      if v =? 255 then
        let n := simpleMaskLength m' in if n =? -1 then -1 else 8 + n
      else let '(n, v') := leading_ones 8 v in
           if negb (v' =? 0) then -1
           else if forallb (λ b, b =? 0) m' then n else -1
  end.

(** [IPMask.Size]: ones and total bits. *)
Definition Mask_Size (m : list Z) : Z * Z :=
  let ones := simpleMaskLength m in
  if ones =? -1 then (0, 0) else (ones, Z.of_nat (length m) * 8).

(** [IP.To4]: [None] is Go's [nil]. *)
Definition To4 (ip : list Z) : option (list Z) :=
  if (length ip =? 4)%nat then Some ip
  else if (length ip =? 16)%nat && bool_decide (take 12 ip = v4InV6Prefix) then Some (drop 12 ip)
  else None.

Record IPNet : Type := mkIPNet { IP : list Z; Mask : list Z }.

#[export] Instance IPNet_eq_dec : EqDecision IPNet.
Proof. solve_decision. Defined.

(** [IP.Mask(mask)]: [nil] is the empty list. *)
Definition IP_Mask (ip mask : list Z) : list Z :=
  let mask := if (length mask =? 16)%nat && (length ip =? 4)%nat
                 && forallb (λ b, b =? 255) (take 12 mask)
              then drop 12 mask else mask in
  let ip := if (length mask =? 4)%nat && (length ip =? 16)%nat
               && bool_decide (take 12 ip = v4InV6Prefix)
            then drop 12 ip else ip in
  if (length ip =? length mask)%nat then zip_with Z.land ip mask else [].

Definition ParseError (s : string) : error := EPlain ("invalid CIDR address: " +:+ s).

(** [net.ParseCIDR] *)
Definition ParseCIDR (s : string) : result (list Z * IPNet) :=
  match str_cut "/"%char s with
  | None => Err (ParseError s)
  | Some (addr, mask) =>
      match ParseAddr addr with
      | None => Err (ParseError s)
      | Some a =>
          if (match a with Addr6 _ z => negb (bool_decide (z = EmptyString)) | _ => false end)
          then Err (ParseError s)
          else
            let '(n, i, ok) := dtoi mask in
            if negb ok || negb (i =? String.length mask)%nat || (n <? 0) || (BitLen a <? n)
            then Err (ParseError s)
            else let m := CIDRMask n (BitLen a) in
                 let addr16 := As16 a in
                 Ok (addr16, mkIPNet (IP_Mask addr16 m) m)
      end
  end.

(** [networkNumberAndMask] *)
Definition networkNumberAndMask (n : IPNet) : list Z * list Z :=
  let ip := match To4 (IP n) with
            | Some ip => Some ip
            | None => if (length (IP n) =? 16)%nat then Some (IP n) else None
            end in
  match ip with
  | None => ([], [])
  | Some ip =>
      if (length (Mask n) =? 4)%nat then
        if negb (length ip =? 4)%nat then ([], []) else (ip, Mask n)
      else if (length (Mask n) =? 16)%nat then
        if (length ip =? 4)%nat then (ip, drop 12 (Mask n)) else (ip, Mask n)
      else ([], [])
  end.

(** The byte loop of [IPNet.Contains]. *)
Fixpoint masked_eq (nn m ip : list Z) : bool :=
  match nn, m, ip with
  | a :: nn', k :: m', b :: ip' => (Z.land a k =? Z.land b k) && masked_eq nn' m' ip'
  | _, _, _ => true
  end.

(** [IPNet.Contains] *)
Definition Contains (n : IPNet) (ip : list Z) : bool :=
  let '(nn, m) := networkNumberAndMask n in
  let ip := match To4 ip with Some x => x | None => ip end in
  if negb (length ip =? length nn)%nat then false else masked_eq nn m ip.

(** [IP.String] of a 4-byte address. *)
Definition IP_String4 (ip : list Z) : string :=
  match ip with
  | [a; b; c; d] => pretty a +:+ "." +:+ pretty b +:+ "." +:+ pretty c +:+ "." +:+ pretty d
  | _ => EmptyString
  end.

(** * Bytes as integers *)

(** Big-endian value of a byte list. *)
Fixpoint be_Z (l : list Z) : Z :=
  match l with
  | [] => 0
  | b :: l' => b * 2 ^ (8 * Z.of_nat (length l')) + be_Z l'
  end.

Definition bytes (l : list Z) : Prop := Forall is_byte l.

(** The form in which [Contains] compares addresses: [To4] when it applies. *)
Definition canon (ip : list Z) : list Z :=
  match To4 ip with Some x => x | None => ip end.

Definition net_ones (n : IPNet) : Z := fst (Mask_Size (Mask n)).
Definition net_bits (n : IPNet) : Z := snd (Mask_Size (Mask n)).
Definition net_host (n : IPNet) : Z := net_bits n - net_ones n.

(** A network as an interval of addresses of one family. *)
Definition net_fam (n : IPNet) : nat := length (canon (IP n)).
Definition net_lo (n : IPNet) : Z := be_Z (canon (IP n)).
Definition net_size (n : IPNet) : Z := 2 ^ net_host n.
Definition net_hi (n : IPNet) : Z := net_lo n + net_size n - 1.

(** What [ParseCIDR] guarantees of the network it returns. *)
Record wf_net (n : IPNet) : Prop := {
  wf_len : length (IP n) = 4%nat \/ length (IP n) = 16%nat;
  wf_bytes : bytes (IP n);
  wf_ones : 0 <= net_ones n <= net_bits n;
  wf_bits : net_bits n = 8 * Z.of_nat (length (IP n));
  wf_mask : Mask n = CIDRMask (net_ones n) (net_bits n);
  wf_aligned : be_Z (IP n) mod 2 ^ net_host n = 0
}.

Section BeZ.
Lemma be_Z_bound l : bytes l -> 0 <= be_Z l < 2 ^ (8 * Z.of_nat (length l)).
Proof.
  induction 1 as [|b l Hb Hl IH]; [simpl; lia|].
  cbn [be_Z length]. rewrite Nat2Z.inj_succ.
  replace (8 * Z.succ (Z.of_nat (length l))) with (8 + 8 * Z.of_nat (length l)) by lia.
  rewrite Z.pow_add_r by lia. unfold is_byte in Hb.
  set (P := 2 ^ (8 * Z.of_nat (length l))) in *. change (2 ^ 8) with 256. nia.
Qed.

Lemma be_Z_app l1 l2 : be_Z (l1 ++ l2) = be_Z l1 * 2 ^ (8 * Z.of_nat (length l2)) + be_Z l2.
Proof.
  induction l1 as [|b l1 IH]; cbn [be_Z app]; [lia|].
  rewrite IH, length_app, Nat2Z.inj_add.
  rewrite Z.mul_add_distr_l, Z.pow_add_r by lia. lia.
Qed.

Lemma be_Z_inj l1 l2 :
  bytes l1 -> bytes l2 -> length l1 = length l2 -> be_Z l1 = be_Z l2 -> l1 = l2.
Proof.
  intros H1. revert l2. induction H1 as [|a l1 Ha Hl1 IH]; intros [|b l2] H2 Hlen; try done.
  inversion H2 as [|? ? Hb Hl2]; subst. cbn [be_Z]. injection Hlen as Hlen.
  pose proof (be_Z_bound _ Hl1). pose proof (be_Z_bound _ Hl2). rewrite Hlen in *.
  intros Heq. assert (a = b) as -> by nia. f_equal. apply IH; auto; lia.
Qed.

Lemma be_Z_zip_land l1 l2 :
  bytes l1 -> bytes l2 -> length l1 = length l2 ->
  be_Z (zip_with Z.land l1 l2) = Z.land (be_Z l1) (be_Z l2).
Proof.
  intros H1. revert l2. induction H1 as [|a l1 Ha Hl1 IH]; intros [|b l2] H2 Hlen; try done.
  inversion H2 as [|? ? Hb Hl2]; subst. injection Hlen as Hlen.
  cbn [zip_with be_Z]. rewrite length_zip_with, Hlen, Nat.min_id, IH by done.
  pose proof (be_Z_bound _ Hl1). pose proof (be_Z_bound _ Hl2). rewrite Hlen in *.
  rewrite land_hi_lo by lia. done.
Qed.

Lemma land_byte a b : is_byte a -> is_byte b -> is_byte (Z.land a b).
Proof. unfold is_byte. intros. apply (land_small 8); lia. Qed.

Lemma bytes_zip_land l1 l2 : bytes l1 -> bytes l2 -> bytes (zip_with Z.land l1 l2).
Proof.
  intros H1. revert l2. induction H1; intros [|b l2] H2; [constructor..|].
  inversion H2; subst. cbn. constructor; auto using land_byte.
  by apply IHForall.
Qed.

Lemma masked_eq_spec nn m ip :
  bytes nn -> bytes m -> bytes ip -> length m = length nn -> length ip = length nn ->
  masked_eq nn m ip = true <-> Z.land (be_Z nn) (be_Z m) = Z.land (be_Z ip) (be_Z m).
Proof.
  intros Hnn Hm Hip Hl1 Hl2. rewrite <-!be_Z_zip_land by (done || congruence).
  trans (zip_with Z.land nn m = zip_with Z.land ip m); cycle 1.
  { split; [by intros ->|]. apply be_Z_inj; auto using bytes_zip_land.
    rewrite !length_zip_with. congruence. }
  clear Hnn Hm Hip. revert m ip Hl1 Hl2.
  induction nn as [|a nn IH]; intros [|k m] [|b ip]; try done. cbn. intros [= ?] [= ?].
  rewrite andb_true_iff, Z.eqb_eq, IH by done. split; [intros [-> ->]; done|].
  intros [= -> ->]. done.
Qed.
End BeZ.

(** * Masks *)
Section Masks.
(** Finite facts about the 33 + 129 contiguous masks, by evaluation. *)
Definition mask_ok (ones bits : Z) : bool :=
  bool_decide (Mask_Size (CIDRMask ones bits) = (ones, bits)) &&
  bool_decide (be_Z (CIDRMask ones bits) = 2 ^ bits - 2 ^ (bits - ones)) &&
  bool_decide (Forall is_byte (CIDRMask ones bits)) &&
  bool_decide (Z.of_nat (length (CIDRMask ones bits)) * 8 = bits).

Lemma mask_ok_all :
  forallb (λ o, mask_ok o 32) (seqZ 0 33) && forallb (λ o, mask_ok o 128) (seqZ 0 129) = true.
Proof. vm_compute. reflexivity. Qed.

Lemma CIDRMask_spec ones bits :
  bits = 32 \/ bits = 128 -> 0 <= ones <= bits ->
  Mask_Size (CIDRMask ones bits) = (ones, bits) /\
  be_Z (CIDRMask ones bits) = 2 ^ bits - 2 ^ (bits - ones) /\
  bytes (CIDRMask ones bits) /\ Z.of_nat (length (CIDRMask ones bits)) * 8 = bits.
Proof.
  intros Hb Ho. pose proof mask_ok_all as H. apply andb_true_iff in H as [H4 H6].
  rewrite !forallb_forall in H4, H6.
  assert (mask_ok ones bits = true) as Hok.
  { destruct Hb as [-> | ->]; [apply H4|apply H6]; apply list_elem_of_In, elem_of_seqZ; lia. }
  unfold mask_ok in Hok. bool_prop. done.
Qed.

(** Dropping the 12 prefix bytes of an IPv6 mask of at least 96 ones leaves
    the IPv4 mask of the same host part. *)
Lemma CIDRMask_drop12 ones :
  96 <= ones <= 128 -> drop 12 (CIDRMask ones 128) = CIDRMask (ones - 96) 32.
Proof.
  intros Ho.
  assert (H : forallb (λ o, bool_decide (drop 12 (CIDRMask o 128) = CIDRMask (o - 96) 32))
                (seqZ 96 33) = true) by (vm_compute; reflexivity).
  rewrite forallb_forall in H. specialize (H ones).
  eapply bool_decide_eq_true_1, H. apply list_elem_of_In, elem_of_seqZ. lia.
Qed.
End Masks.

(** * [Contains] as interval membership *)
Section Contains.
Lemma To4_mapped ip :
  length ip = 16%nat -> To4 ip = Some (drop 12 ip) \/ To4 ip = None.
Proof. intros H. unfold To4. rewrite H. cbn [Nat.eqb andb]. case_match; auto. Qed.

Lemma canon_len ip :
  length ip = 4%nat \/ length ip = 16%nat -> length (canon ip) = 4%nat \/ length (canon ip) = 16%nat.
Proof.
  intros [H|H]; unfold canon, To4; rewrite H; cbn [Nat.eqb andb]; [auto|].
  case_bool_decide; [rewrite length_drop|]; rewrite H; auto.
Qed.

Lemma canon_bytes ip : bytes ip -> bytes (canon ip).
Proof.
  intros H. unfold canon, To4. repeat case_match; auto; simplify_eq.
  all: try done. by apply Forall_drop.
Qed.

Lemma canon_4 ip : length ip = 4%nat -> canon ip = ip.
Proof. intros H. unfold canon, To4. by rewrite H. Qed.

(** An IPv4-mapped address is the prefix followed by its four bytes. *)
Lemma canon_mapped ip :
  length ip = 16%nat -> length (canon ip) = 4%nat -> ip = v4InV6Prefix ++ canon ip.
Proof.
  intros H16. unfold canon, To4. rewrite H16. cbn [Nat.eqb andb].
  case_bool_decide as E; [|rewrite H16; lia]. intros _.
  rewrite <-E. by rewrite take_drop.
Qed.

(** The two cases of a parsed network: compared as it is, or as IPv4. *)
Lemma wf_net_canon n :
  wf_net n ->
  0 <= net_host n <= 8 * Z.of_nat (net_fam n) /\
  be_Z (canon (IP n)) mod 2 ^ net_host n = 0 /\
  networkNumberAndMask n =
    (canon (IP n), CIDRMask (8 * Z.of_nat (net_fam n) - net_host n) (8 * Z.of_nat (net_fam n))).
Proof.
  intros [Hlen Hby Hones Hbits Hmask Hal]. unfold net_fam.
  assert (Hmlen : Z.of_nat (length (Mask n)) * 8 = net_bits n).
  { rewrite Hmask. apply CIDRMask_spec; lia. }
  assert (Hh : net_host n = net_bits n - net_ones n) by done.
  destruct (canon_len _ Hlen) as [H4|H16].
  - destruct Hlen as [Hlen|Hlen].
    + rewrite (canon_4 _ Hlen), Hlen. rewrite Hlen in Hbits. split_and!; [lia|lia|done|].
      unfold networkNumberAndMask, To4. rewrite Hlen. cbn.
      replace (length (Mask n)) with 4%nat by lia. cbn. rewrite Hlen. cbn. f_equal.
      rewrite Hmask at 1. f_equal; lia.
    + pose proof (canon_mapped _ Hlen H4) as Heq. rewrite Hlen in Hbits.
      assert (Hbe : be_Z (IP n) = 65535 * 2 ^ 32 + be_Z (canon (IP n))).
      { rewrite Heq at 1. rewrite be_Z_app, H4. done. }
      assert (Hh32 : net_host n <= 32).
      { destruct (decide (net_host n <= 32)); [done|]. exfalso.
        apply Z.mod_divide in Hal as [q Hq]; [|pose proof (pow2_gt0 (net_host n)); lia].
        rewrite Hbe in Hq. pose proof (be_Z_bound _ (canon_bytes _ Hby)) as Hb. rewrite H4 in Hb.
        change (8 * Z.of_nat 4) with 32 in Hb.
        rewrite (pow2_split (net_host n) 33) in Hq by lia.
        set (k := 2 ^ (net_host n - 33)) in *. change (2 ^ 33) with (2 * 2 ^ 32) in Hq.
        assert (be_Z (canon (IP n)) = 0 \/ be_Z (canon (IP n)) <> 0) as [E|E] by lia; nia. }
      rewrite H4. split_and!; [lia|lia| |].
      * apply Z.mod_divide; [pose proof (pow2_gt0 (net_host n)); lia|].
        apply Z.mod_divide in Hal; [|pose proof (pow2_gt0 (net_host n)); lia].
        replace (be_Z (canon (IP n))) with (be_Z (IP n) - 65535 * 2 ^ 32) by lia.
        apply Z.divide_sub_r; [done|]. apply Z.divide_mul_r, pow2_divide. lia.
      * assert (Hto : To4 (IP n) = Some (canon (IP n))).
        { unfold canon in *. destruct (To4_mapped _ Hlen) as [-> | E]; [done|].
          rewrite E in H4. lia. }
        unfold networkNumberAndMask. rewrite Hto.
        replace (length (Mask n)) with 16%nat by lia. cbn. rewrite H4. cbn. f_equal.
        rewrite Hmask, Hbits. change (8 * Z.of_nat 16) with 128.
        rewrite CIDRMask_drop12 by lia. f_equal; lia.
  - destruct Hlen as [Hlen|Hlen].
    { rewrite (canon_4 _ Hlen) in H16. congruence. }
    assert (Hto : To4 (IP n) = None).
    { unfold canon in H16. destruct (To4_mapped _ Hlen) as [E|E]; rewrite E in H16; [|done].
      rewrite length_drop in H16. lia. }
    assert (Hc : canon (IP n) = IP n) by (unfold canon; by rewrite Hto).
    rewrite Hc, Hlen. rewrite Hlen in Hbits. split_and!; [lia|lia|done|].
    unfold networkNumberAndMask. rewrite Hto, Hlen. cbn.
    replace (length (Mask n)) with 16%nat by lia. cbn. rewrite Hlen. cbn. f_equal.
    rewrite Hmask at 1. f_equal; lia.
Qed.

Lemma Contains_spec n ip :
  wf_net n -> bytes ip -> length ip = 4%nat \/ length ip = 16%nat ->
  Contains n ip = true <->
  length (canon ip) = net_fam n /\ net_lo n <= be_Z (canon ip) <= net_hi n.
Proof.
  intros Hwf Hby Hlen. destruct (wf_net_canon n Hwf) as (Hh & Hal & Hnm).
  unfold Contains. rewrite Hnm. fold (canon ip). fold (net_fam n).
  assert (Hfam : net_fam n = 4%nat \/ net_fam n = 16%nat) by apply canon_len, Hwf.
  destruct (Nat.eqb_spec (length (canon ip)) (net_fam n)) as [Hl|Hl]; cbn; [|split; [done|tauto]].
  set (B := 8 * Z.of_nat (net_fam n)) in *.
  destruct (CIDRMask_spec (B - net_host n) B) as (_ & Hbe & Hbm & Hlm); [lia|lia|].
  pose proof (canon_bytes _ (wf_bytes _ Hwf)) as Hbn. pose proof (canon_bytes _ Hby) as Hbi.
  rewrite masked_eq_spec; [|done|done|done| unfold net_fam in *; lia | done].
  rewrite Hbe. replace (B - (B - net_host n)) with (net_host n) by lia.
  pose proof (be_Z_bound _ Hbn) as B1. pose proof (be_Z_bound _ Hbi) as B2.
  rewrite Hl in B2. fold (net_fam n) in B1. fold B in B1, B2.
  rewrite !land_high_mask by lia.
  rewrite aligned_round_down by (lia || done).
  unfold net_hi, net_lo, net_size. tauto.
Qed.

Lemma net_hi_ge n : wf_net n -> net_lo n <= net_hi n.
Proof.
  intros Hwf. destruct (wf_net_canon n Hwf) as (Hh & _).
  pose proof (pow2_gt0 (net_host n)). unfold net_hi, net_size. lia.
Qed.

Lemma net_lo_bound n : wf_net n -> 0 <= net_lo n < 2 ^ (8 * Z.of_nat (net_fam n)).
Proof. intros Hwf. apply be_Z_bound, canon_bytes, Hwf. Qed.

(** Two aligned power-of-two blocks are nested or disjoint. *)
Lemma aligned_nested a h b k :
  0 <= h <= k -> a mod 2 ^ h = 0 -> b mod 2 ^ k = 0 ->
  a <= b + 2 ^ k - 1 -> b <= a + 2 ^ h - 1 -> b <= a /\ a + 2 ^ h <= b + 2 ^ k.
Proof.
  intros Hhk Ha Hb H1 H2. pose proof (pow2_gt0 h). pose proof (pow2_gt0 k).
  rewrite (pow2_split k h) in * by lia. pose proof (pow2_gt0 (k - h)).
  apply Z.mod_divide in Ha as [p ->]; [|lia]. apply Z.mod_divide in Hb as [q ->]; [|lia].
  set (P := 2 ^ h) in *. set (Q := 2 ^ (k - h)) in *.
  assert (q * Q <= p) by nia. assert (p < q * Q + Q) by nia. nia.
Qed.
End Contains.

(** * What the parsers guarantee *)
Section Parsing.
Lemma char_code_bound c : 0 <= char_code c < 256.
Proof. unfold char_code. pose proof (N_ascii_bounded c). lia. Qed.

Lemma digit_val_bound c : is_digit c = true -> 0 <= digit_val c <= 9.
Proof. unfold is_digit, digit_val. intros. bool_prop. lia. Qed.

Lemma hex_val_bound c d : hex_val c = Some d -> 0 <= d <= 15.
Proof. unfold hex_val. intros. repeat case_match; simplify_eq; bool_prop; lia. Qed.

Lemma parseIPv4Fields_wf s pd fields val dl r :
  parseIPv4Fields s pd fields val dl = Some r ->
  bytes fields -> is_byte val -> (length fields <= 3)%nat -> length r = 4%nat /\ bytes r.
Proof.
  revert pd fields val dl. induction s as [|c s IH]; cbn [parseIPv4Fields]; intros pd fields val dl H Hf Hv Hl.
  - case_match; [done|]. simplify_eq. rewrite length_app. cbn. bool_prop.
    split; [lia|]. apply Forall_app; auto.
  - case_match eqn:Hd.
    + apply digit_val_bound in Hd. repeat case_match; try done. bool_prop.
      eapply IH; eauto. unfold is_byte in *. lia.
    + repeat case_match; try done. bool_prop.
      eapply IH; eauto; [apply Forall_app; auto|unfold is_byte; lia|].
      rewrite length_app. cbn. lia.
Qed.

Lemma scanHex_wf s off acc a o rest :
  scanHex s off acc = Some (a, o, rest) -> 0 <= acc <= 65535 -> 0 <= a <= 65535.
Proof.
  revert off acc. induction s as [|c s IH]; cbn [scanHex]; intros off acc H Ha; [by simplify_eq|].
  case_match eqn:Hx; [|by simplify_eq]. apply hex_val_bound in Hx.
  repeat case_match; try done. bool_prop. eapply IH; eauto. lia.
Qed.

Lemma group_bytes a : 0 <= a <= 65535 -> bytes [a / 256; a mod 256].
Proof.
  intros Ha. unfold bytes. rewrite !Forall_cons, Forall_nil. unfold is_byte.
  pose proof (Z.mod_pos_bound a 256). pose proof (Z.div_pos a 256).
  pose proof (Z.div_lt_upper_bound a 256 256). lia.
Qed.

Definition ell_le (ell : option nat) (n : nat) : Prop :=
  match ell with Some e => (e <= n)%nat | None => True end.

Lemma ell_le_mono ell n m : (n <= m)%nat -> ell_le ell n -> ell_le ell m.
Proof. destruct ell; cbn; [lia|done]. Qed.

Lemma parseIPv6_loop_wf g s ip ell s' ip' ell' :
  parseIPv6_loop g s ip ell = Some (s', ip', ell') ->
  (length ip + 2 * g = 16)%nat -> bytes ip -> ell_le ell (length ip) ->
  (length ip' <= 16)%nat /\ bytes ip' /\ ell_le ell' (length ip').
Proof.
  revert s ip ell. induction g as [|g IH]; cbn [parseIPv6_loop]; intros s ip ell H Hl Hb He.
  { simplify_eq. split_and!; auto; lia. }
  destruct (scanHex s 0 0) as [[[acc off] rest]|] eqn:Hscan; [|done].
  apply scanHex_wf in Hscan; [|lia]. pose proof (group_bytes _ Hscan) as Hg.
  assert (Hb2 : bytes (ip ++ [acc / 256; acc mod 256])) by (apply Forall_app; auto).
  assert (He2 : ell_le ell (length (ip ++ [acc / 256; acc mod 256]))).
  { eapply ell_le_mono; [|done]. rewrite length_app. lia. }
  assert (Hl2 : length (ip ++ [acc / 256; acc mod 256]) = (length ip + 2)%nat)
    by (rewrite length_app; done).
  set (ip2 := ip ++ [acc / 256; acc mod 256]) in *. clearbody ip2.
  destruct (off =? 0)%nat; [done|]. destruct rest as [|c rest].
  { simplify_eq. split_and!; auto; lia. }
  destruct (decide (c = "."%char)) as [->|Hc].
  - cbv beta iota in H. repeat case_match; simplify_eq.
    match goal with E : parseIPv4Fields _ _ _ _ _ = _ |- _ => apply parseIPv4Fields_wf in E end;
      [|constructor|unfold is_byte; lia|cbn; lia]. destruct_and!. bool_prop.
    rewrite length_app. split_and!; [lia|by apply Forall_app|].
    eapply ell_le_mono; [|done]. lia.
  - assert (Hrest : (match rest with
        | EmptyString => None
        | String ":"%char rest'' =>
            match ell with
            | Some _ => None
            | None => if bool_decide (rest'' = EmptyString)
                      then Some (EmptyString, ip2, Some (length ip2))
                      else parseIPv6_loop g rest'' ip2 (Some (length ip2))
            end
        | _ => parseIPv6_loop g rest ip2 ell end) = Some (s', ip', ell')).
    { destruct c as [[] [] [] [] [] [] [] []]; cbn in H; try done. }
    clear H. destruct rest as [|d rest]; [done|].
    destruct (decide (d = ":"%char)) as [->|Hd].
    + destruct ell; [done|]. case_bool_decide; simplify_eq.
      * split_and!; auto; cbn; lia.
      * eapply IH; eauto; cbn; lia.
    + assert (parseIPv6_loop g (String d rest) ip2 ell = Some (s', ip', ell')) as H.
      { destruct d as [[] [] [] [] [] [] [] []]; cbn in Hrest; done. }
      eapply IH; eauto; lia.
Qed.

Lemma parseIPv6_finish_wf s ip ell r :
  parseIPv6_finish (s, ip, ell) = Some r ->
  (length ip <= 16)%nat -> bytes ip -> ell_le ell (length ip) -> length r = 16%nat /\ bytes r.
Proof.
  unfold parseIPv6_finish. intros H Hl Hb He. case_match; [done|].
  destruct (Nat.ltb_spec (length ip) 16).
  - case_match; [|done]. simplify_eq. cbn in He. split.
    + rewrite !length_app, length_take, length_replicate, length_drop. lia.
    + repeat apply Forall_app_2; [by apply Forall_take| |by apply Forall_drop].
      apply Forall_replicate. unfold is_byte; lia.
  - case_match; simplify_eq. split; [lia|done].
Qed.

Lemma parseIPv6_body_wf s r : parseIPv6_body s = Some r -> length r = 16%nat /\ bytes r.
Proof.
  assert (Hgo : forall t e r, ell_le e 0 ->
    parseIPv6_loop 8 t [] e ≫= parseIPv6_finish = Some r -> length r = 16%nat /\ bytes r).
  { intros t e r' He H. apply bind_Some in H as ([[s' ip'] ell'] & Hl & Hf).
    apply parseIPv6_loop_wf in Hl as (?&?&?); [|done|constructor|done].
    eapply parseIPv6_finish_wf; eauto. }
  unfold parseIPv6_body. intros H.
  assert (Hcases : (exists t, parseIPv6_loop 8 t [] (Some 0%nat) ≫= parseIPv6_finish = Some r)
    \/ (exists t, parseIPv6_loop 8 t [] None ≫= parseIPv6_finish = Some r)
    \/ r = replicate 16 0).
  { destruct s as [|c s]; [eauto|]. destruct (decide (c = ":"%char)) as [->|Hc].
    - destruct s as [|d s]; [eauto|]. destruct (decide (d = ":"%char)) as [->|Hd].
      + case_bool_decide; simplify_eq; eauto.
      + right; left. exists (String ":" (String d s)).
        destruct d as [[] [] [] [] [] [] [] []]; done.
    - right; left. exists (String c s). destruct c as [[] [] [] [] [] [] [] []]; done. }
  destruct Hcases as [[t Ht]|[[t Ht]| ->]].
  - eapply (Hgo t (Some 0%nat)); [cbn; lia|done].
  - by eapply (Hgo t None).
  - split; [done|]. apply Forall_replicate. unfold is_byte; lia.
Qed.

Definition addr_bytes (a : Addr) : list Z := match a with Addr4 b => b | Addr6 b _ => b end.

Lemma ParseAddr_wf s a :
  ParseAddr s = Some a ->
  bytes (addr_bytes a) /\ 8 * Z.of_nat (length (addr_bytes a)) = BitLen a.
Proof.
  unfold ParseAddr. generalize s at 1. intros t. revert a.
  induction t as [|c t IH]; cbn; intros a H; [done|].
  case_bool_decide; [|case_bool_decide; [|case_bool_decide; eauto; done]].
  - unfold parseIPv4 in H. case_match eqn:E; simplify_eq.
    apply parseIPv4Fields_wf in E as [El Eb]; [|constructor|unfold is_byte; lia|cbn; lia].
    cbn. rewrite El. done.
  - unfold parseIPv6 in H. repeat case_match; simplify_eq; cbn;
      match goal with E : parseIPv6_body _ = _ |- _ => apply parseIPv6_body_wf in E as [El Eb] end;
      rewrite El; done.
Qed.

(** The network part that [ParseCIDR] computes: the address masked. *)
Lemma IP_Mask_As16 a n :
  bytes (addr_bytes a) -> 8 * Z.of_nat (length (addr_bytes a)) = BitLen a -> 0 <= n <= BitLen a ->
  IP_Mask (As16 a) (CIDRMask n (BitLen a)) =
    zip_with Z.land (addr_bytes a) (CIDRMask n (BitLen a)).
Proof.
  intros Hb Hl Hn. assert (HB : BitLen a = 32 \/ BitLen a = 128) by (destruct a; auto).
  destruct (CIDRMask_spec n (BitLen a) HB Hn) as (_ & _ & _ & Hm).
  unfold IP_Mask. destruct a as [b|b z]; cbn [As16 addr_bytes BitLen] in *.
  - replace (length (CIDRMask n 32)) with 4%nat by lia.
    rewrite length_app. replace (length b) with 4%nat by lia.
    replace (length (v4InV6Prefix)) with 12%nat by done. cbn [Nat.add Nat.eqb andb].
    rewrite take_app_length' by done. rewrite drop_app_length' by done.
    rewrite bool_decide_eq_true_2 by done.
    replace (length (CIDRMask n 32)) with 4%nat by lia. cbn [Nat.eqb andb].
    replace (length b) with 4%nat by lia. done.
  - replace (length (CIDRMask n 128)) with 16%nat by lia.
    replace (length b) with 16%nat by lia. cbn [Nat.eqb andb].
    replace (length (CIDRMask n 128)) with 16%nat by lia. cbn [Nat.eqb andb].
    replace (length b) with 16%nat by lia. done.
Qed.

(** Everything an accepted CIDR text determines. *)
Lemma ParseCIDR_inv s ip net :
  ParseCIDR s = Ok (ip, net) ->
  exists a n, bytes (addr_bytes a) /\ 8 * Z.of_nat (length (addr_bytes a)) = BitLen a /\
    0 <= n <= BitLen a /\ ip = As16 a /\ Mask net = CIDRMask n (BitLen a) /\
    IP net = zip_with Z.land (addr_bytes a) (CIDRMask n (BitLen a)).
Proof.
  unfold ParseCIDR. intros H.
  destruct (str_cut _ s) as [[addr mask]|]; [|done].
  destruct (ParseAddr addr) as [a|] eqn:Ha; [|done].
  apply ParseAddr_wf in Ha as [Hb Hl].
  destruct (match a with Addr4 _ => false | Addr6 _ z => negb (bool_decide (z = "")) end); [done|].
  destruct (dtoi mask) as [[n i] ok]. case_match eqn:E; [done|]. simplify_eq. bool_prop.
  exists a, n. cbn. rewrite IP_Mask_As16 by (done || lia). split_and!; auto; lia.
Qed.

Lemma ParseCIDR_wf s ip net : ParseCIDR s = Ok (ip, net) -> wf_net net.
Proof.
  intros H. apply ParseCIDR_inv in H as (a & n & Hb & Hl & Hn & -> & Hm & HIP).
  assert (HB : BitLen a = 32 \/ BitLen a = 128) by (destruct a; auto).
  destruct (CIDRMask_spec n (BitLen a) HB Hn) as (Hsz & Hbe & Hbm & Hml).
  assert (Ho : net_ones net = n) by (unfold net_ones; by rewrite Hm, Hsz).
  assert (Hbt : net_bits net = BitLen a) by (unfold net_bits; by rewrite Hm, Hsz).
  assert (Hlen : length (IP net) = length (addr_bytes a)).
  { rewrite HIP, length_zip_with. lia. }
  constructor; rewrite ?Ho, ?Hbt.
  - lia.
  - rewrite HIP. by apply bytes_zip_land.
  - done.
  - lia.
  - done.
  - unfold net_host. rewrite Ho, Hbt, HIP, be_Z_zip_land, Hbe by (done || lia).
    pose proof (be_Z_bound _ Hb) as Hbd. rewrite Hl in Hbd.
    rewrite land_high_mask by lia.
    pose proof (pow2_gt0 (BitLen a - n) ltac:(lia)).
    rewrite Zminus_mod, Z.mod_mod, Z.sub_diag by lia. done.
Qed.
End Parsing.

(** * Printing an IPv4 network and parsing it back *)
Section RoundTrip.
Definition no_char (c : ascii) (s : string) : bool :=
  forallb (λ d, negb (bool_decide (d = c))) (String.list_ascii_of_string s).

Lemma append_cons c s t : String c s +:+ t = String c (s +:+ t).
Proof. done. Qed.

Lemma append_nil_l t : EmptyString +:+ t = t.
Proof. done. Qed.

Lemma append_nil_r s : s +:+ EmptyString = s.
Proof. induction s as [|c s IH]; [done|]. by rewrite append_cons, IH. Qed.

Lemma append_assoc (s t u : string) : (s +:+ t) +:+ u = s +:+ (t +:+ u).
Proof. induction s as [|c s IH]; [done|]. by rewrite !append_cons, IH. Qed.

Lemma append_nonempty (s t : string) :
  bool_decide (s = EmptyString) = false -> bool_decide (s +:+ t = EmptyString) = false.
Proof. by destruct s. Qed.

Lemma no_char_app c s t : no_char c (s +:+ t) = no_char c s && no_char c t.
Proof.
  induction s as [|d s IH]; [done|]. rewrite append_cons. unfold no_char in *. cbn.
  by rewrite IH, andb_assoc.
Qed.

Lemma str_cut_app c s t : no_char c s = true -> str_cut c (s +:+ String c t) = Some (s, t).
Proof.
  induction s as [|d s IH]; intros H.
  { rewrite append_nil_l. cbn. by rewrite bool_decide_eq_true_2. }
  unfold no_char in H. cbn in H. apply andb_true_iff in H as [Hd Hs].
  apply negb_true_iff in Hd. rewrite append_cons. cbn. rewrite Hd. by rewrite IH.
Qed.

Definition all_digits (s : string) : bool :=
  forallb is_digit (String.list_ascii_of_string s).

(** The digit branch of [parseIPv4Fields] on its own. *)
Fixpoint octet_loop (s : string) (val digLen : Z) : option Z :=
  match s with
  | EmptyString => Some val
  | String c s' =>
      if (digLen =? 1) && (val =? 0) then None
      else if 255 <? val * 10 + digit_val c then None
      else octet_loop s' (val * 10 + digit_val c) (digLen + 1)
  end.

(** Facts about the texts of the 256 bytes, by evaluation. *)
Definition byte_text_ok (b : Z) : bool :=
  all_digits (pretty b) && negb (bool_decide (pretty b = EmptyString))
  && bool_decide (octet_loop (pretty b) 0 0 = Some b)
  && bool_decide (dtoi (pretty b) = (b, String.length (pretty b), true)).

Lemma byte_text b : is_byte b -> byte_text_ok b = true.
Proof.
  intros H. assert (Hall : forallb byte_text_ok (seqZ 0 256) = true) by (vm_compute; reflexivity).
  rewrite forallb_forall in Hall. apply Hall, list_elem_of_In, elem_of_seqZ.
  unfold is_byte in H. lia.
Qed.

Lemma all_digits_no_char c s : is_digit c = false -> all_digits s = true -> no_char c s = true.
Proof.
  intros Hc. unfold all_digits, no_char. rewrite !forallb_forall. intros H d Hd.
  apply negb_true_iff, bool_decide_eq_false. intros ->. rewrite H in Hc; done.
Qed.

Lemma pretty_byte_no_slash b : is_byte b -> no_char "/"%char (pretty b) = true.
Proof.
  intros H%byte_text. unfold byte_text_ok in H. bool_prop. by apply all_digits_no_char.
Qed.

Lemma octet_loop_parse s rest pd fields val dl v :
  all_digits s = true -> octet_loop s val dl = Some v -> exists dl',
  parseIPv4Fields (s +:+ rest) pd fields val dl =
    parseIPv4Fields rest (pd && bool_decide (s = EmptyString)) fields v dl'.
Proof.
  revert pd val dl. induction s as [|c s IH]; intros pd val dl Hd Ho.
  { exists dl. cbn in Ho. simplify_eq. rewrite append_nil_l, bool_decide_eq_true_2 by done.
    by rewrite andb_true_r. }
  unfold all_digits in Hd. cbn in Hd. apply andb_true_iff in Hd as [Hc Hs].
  cbn [octet_loop] in Ho. rewrite append_cons. cbn [parseIPv4Fields]. rewrite Hc.
  repeat case_match; try done. destruct (IH false _ _ Hs Ho) as [dl' ->].
  exists dl'. rewrite (bool_decide_eq_false_2 (String c s = _)) by done. by rewrite andb_false_r.
Qed.

Lemma parse_octet b rest pd fields :
  is_byte b -> exists dl,
  parseIPv4Fields (pretty b +:+ rest) pd fields 0 0 = parseIPv4Fields rest false fields b dl.
Proof.
  intros H%byte_text. unfold byte_text_ok in H. bool_prop.
  destruct (octet_loop_parse (pretty b) rest pd fields 0 0 b) as [dl ->]; [done|done|].
  exists dl. rewrite bool_decide_eq_false_2 by done. by rewrite andb_false_r.
Qed.

Lemma scan_octet b rest s : is_byte b -> ParseAddr_scan (pretty b +:+ String "." rest) s = parseIPv4 s.
Proof.
  intros H%byte_text. unfold byte_text_ok in H. bool_prop.
  assert (Hgen : forall t, all_digits t = true ->
    ParseAddr_scan (t +:+ String "." rest) s = parseIPv4 s); [|auto].
  induction t as [|c t IH]; [done|]. unfold all_digits. cbn. intros [Hc Ht]%andb_true_iff.
  rewrite append_cons. cbn.
  rewrite !bool_decide_eq_false_2 by (intros ->; done). by apply IH.
Qed.

Lemma dtoi_pretty n : 0 <= n <= 128 -> dtoi (pretty n) = (n, String.length (pretty n), true).
Proof.
  intros Hn. assert (H : is_byte n) by (unfold is_byte; lia).
  apply byte_text in H. unfold byte_text_ok in H. bool_prop. done.
Qed.

Lemma pretty_byte_nonempty b : is_byte b -> bool_decide (pretty b = EmptyString) = false.
Proof.
  intros H%byte_text. unfold byte_text_ok in H. bool_prop. by apply bool_decide_eq_false_2.
Qed.

Lemma parseIPv4_print a b c d :
  is_byte a -> is_byte b -> is_byte c -> is_byte d ->
  parseIPv4 (IP_String4 [a; b; c; d]) = Some (Addr4 [a; b; c; d]).
Proof.
  intros Ha Hb Hc Hd. unfold parseIPv4, IP_String4.
  assert (Hdot : forall t fs v dl, bool_decide (t = EmptyString) = false -> (length fs < 3)%nat ->
    parseIPv4Fields ("." +:+ t) false fs v dl = parseIPv4Fields t true (fs ++ [v]) 0 0).
  { intros t fs v dl Ht Hfs. rewrite append_cons, append_nil_l. cbn [parseIPv4Fields].
    change (is_digit ".") with false. cbn [orb]. rewrite Ht.
    rewrite (proj2 (Nat.eqb_neq _ _)) by lia. done. }
  edestruct (parse_octet a) as [? ->]; [done|].
  rewrite Hdot by first [by apply append_nonempty, pretty_byte_nonempty
    | by apply pretty_byte_nonempty | cbn; lia].
  edestruct (parse_octet b) as [? ->]; [done|].
  rewrite Hdot by first [by apply append_nonempty, pretty_byte_nonempty
    | by apply pretty_byte_nonempty | cbn; lia].
  edestruct (parse_octet c) as [? ->]; [done|].
  rewrite Hdot by first [by apply append_nonempty, pretty_byte_nonempty
    | by apply pretty_byte_nonempty | cbn; lia].
  rewrite <-(append_nil_r (pretty d)).
  edestruct (parse_octet d) as [? ->]; done.
Qed.

(** Printing a 4-byte address with a prefix length and parsing the text
    gives the network of that address and length. *)
Lemma ParseCIDR_print ip n :
  bytes ip -> length ip = 4%nat -> 0 <= n <= 32 ->
  ParseCIDR (IP_String4 ip +:+ "/" +:+ pretty n) =
    Ok (v4InV6Prefix ++ ip, mkIPNet (zip_with Z.land ip (CIDRMask n 32)) (CIDRMask n 32)).
Proof.
  intros Hb Hl Hn. destruct ip as [|a [|b [|c [|d [|]]]]]; try done.
  unfold bytes in Hb. rewrite !Forall_cons in Hb. destruct Hb as (Ha & Hb & Hc & Hd & _).
  unfold ParseCIDR.
  assert (Hcut : str_cut "/" (IP_String4 [a; b; c; d] +:+ "/" +:+ pretty n)
    = Some (IP_String4 [a; b; c; d], pretty n)).
  { apply str_cut_app. unfold IP_String4. rewrite !no_char_app, !pretty_byte_no_slash by done. done. }
  rewrite Hcut. unfold ParseAddr. unfold IP_String4 at 1.
  rewrite (append_cons "." ""), (append_nil_l (pretty b +:+ _)), scan_octet by done.
  rewrite parseIPv4_print by done. rewrite dtoi_pretty by lia.
  rewrite Nat.eqb_refl. cbn [negb orb BitLen].
  destruct (Z.ltb_spec n 0); [lia|]. destruct (Z.ltb_spec 32 n); [lia|]. cbn [orb].
  f_equal. f_equal. f_equal. apply (IP_Mask_As16 (Addr4 [a; b; c; d]) n).
  - cbn; unfold bytes; by rewrite !Forall_cons.
  - done.
  - done.
Qed.
End RoundTrip.

(** * The characters of an accepted CIDR text *)
Section Characters.
(** Hexadecimal digits, dots, colons and the slash. *)
Definition cidr_char (c : ascii) : bool :=
  match hex_val c with Some _ => true | None => false end
  || bool_decide (c = "."%char) || bool_decide (c = ":"%char) || bool_decide (c = "/"%char).

Fixpoint all_chars (p : ascii -> bool) (s : string) : bool :=
  match s with EmptyString => true | String c s' => p c && all_chars p s' end.

Lemma digit_cidr_char c : is_digit c = true -> cidr_char c = true.
Proof. unfold is_digit, cidr_char, hex_val. intros ->. done. Qed.

Lemma str_cut_chars p c s a b :
  str_cut c s = Some (a, b) -> p c = true -> all_chars p a = true -> all_chars p b = true ->
  all_chars p s = true.
Proof.
  revert a. induction s as [|d s IH]; cbn; intros a H Hc Ha Hb; [done|].
  case_bool_decide; simplify_eq/=; [by rewrite Hc|].
  destruct (str_cut c s) as [[a' b']|]; simplify_eq/=. bool_prop.
  match goal with E : p d = true |- _ => rewrite E end. by eapply IH.
Qed.

Lemma parseIPv4Fields_chars s pd fields val dl r :
  parseIPv4Fields s pd fields val dl = Some r -> all_chars cidr_char s = true.
Proof.
  revert pd fields val dl. induction s as [|c s IH]; intros pd fields val dl; [done|].
  cbn [parseIPv4Fields all_chars]. destruct (is_digit c) eqn:Hd.
  - rewrite digit_cidr_char by done. intros H. repeat case_match; try done. by eapply IH.
  - case_bool_decide as Hc; [|done]. subst. intros H. repeat case_match; try done. by eapply IH.
Qed.

Lemma scanHex_chars s off acc a o rest :
  scanHex s off acc = Some (a, o, rest) -> all_chars cidr_char rest = true ->
  all_chars cidr_char s = true.
Proof.
  revert off acc. induction s as [|c s IH]; intros off acc; cbn [scanHex]; [done|].
  destruct (hex_val c) eqn:Hx; intros H Hr; [|by simplify_eq].
  repeat case_match; try done. cbn [all_chars]. unfold cidr_char at 1. rewrite Hx. by eapply IH.
Qed.

Lemma parseIPv6_loop_chars g s ip ell s' ip' ell' :
  parseIPv6_loop g s ip ell = Some (s', ip', ell') -> all_chars cidr_char s' = true ->
  all_chars cidr_char s = true.
Proof.
  revert s ip ell. induction g as [|g IH]; cbn [parseIPv6_loop]; intros s ip ell H Hs'; [by simplify_eq|].
  destruct (scanHex s 0 0) as [[[acc off] rest]|] eqn:Hscan; [|done].
  destruct (off =? 0)%nat; [done|]. destruct rest as [|c rest].
  { by eapply scanHex_chars. }
  destruct (decide (c = "."%char)) as [->|Hc].
  { cbv beta iota in H. repeat case_match; simplify_eq. by eapply parseIPv4Fields_chars. }
  destruct (decide (c = ":"%char)) as [->|Hcolon].
  - cbv beta iota in H. rewrite bool_decide_eq_true_2 in H by done. cbn [negb] in H.
    eapply scanHex_chars; [done|]. cbn [all_chars]. change (cidr_char ":") with true. cbn [andb].
    destruct rest as [|d rest]; [done|]. destruct (decide (d = ":"%char)) as [->|Hd].
    + destruct ell; [done|]. cbn [all_chars]. change (cidr_char ":") with true. cbn [andb].
      case_bool_decide; simplify_eq; [done|]. by eapply IH.
    + eapply (IH _ _ ell); [|done]. destruct d as [[] [] [] [] [] [] [] []]; cbn in H; done.
  - destruct c as [[] [] [] [] [] [] [] []]; cbn in H; done.
Qed.

Lemma parseIPv6_body_chars s r : parseIPv6_body s = Some r -> all_chars cidr_char s = true.
Proof.
  assert (Hgo : forall t e, parseIPv6_loop 8 t [] e ≫= parseIPv6_finish = Some r ->
    all_chars cidr_char t = true).
  { intros t e H. apply bind_Some in H as ([[s' ip'] ell'] & Hl & Hf).
    eapply parseIPv6_loop_chars; [done|]. unfold parseIPv6_finish in Hf.
    case_bool_decide; [by subst|done]. }
  unfold parseIPv6_body. intros H.
  destruct s as [|c s]; [done|]. destruct (decide (c = ":"%char)) as [->|Hc].
  - destruct s as [|d s]; [by eapply Hgo|]. destruct (decide (d = ":"%char)) as [->|Hd].
    + cbn [all_chars]. change (cidr_char ":") with true. cbn [andb].
      case_bool_decide; [by subst|by eapply Hgo].
    + eapply (Hgo _ None). destruct d as [[] [] [] [] [] [] [] []]; done.
  - eapply (Hgo _ None). destruct c as [[] [] [] [] [] [] [] []]; done.
Qed.

Lemma ParseAddr_chars s a :
  ParseAddr s = Some a -> (forall b z, a = Addr6 b z -> z = EmptyString) ->
  all_chars cidr_char s = true.
Proof.
  unfold ParseAddr. generalize s at 1. intros t. induction t as [|c t IH]; cbn; intros H Hz; [done|].
  case_bool_decide; [|case_bool_decide; [|case_bool_decide; eauto; done]].
  - unfold parseIPv4 in H. case_match eqn:E; simplify_eq. by eapply parseIPv4Fields_chars.
  - unfold parseIPv6 in H. destruct (str_cut "%" s) as [[x z]|].
    + case_bool_decide as Hne; [done|]. destruct (parseIPv6_body x); simplify_eq.
      destruct Hne. by eapply Hz.
    + destruct (parseIPv6_body s) eqn:E; simplify_eq. by eapply parseIPv6_body_chars.
Qed.

Lemma dtoi_chars s n i ok :
  dtoi s = (n, i, ok) -> ok = true -> i = String.length s -> all_chars cidr_char s = true.
Proof.
  unfold dtoi. assert (Hgo : forall m k, dtoi_loop s m k = (n, i, ok) -> ok = true ->
    i = (k + String.length s)%nat -> all_chars cidr_char s = true).
  { induction s as [|c s IH]; intros m k H Hok Hi; [done|].
    cbn [dtoi_loop all_chars] in *. destruct (is_digit c) eqn:Hd.
    - rewrite digit_cidr_char by done. case_match; [simplify_eq|].
      eapply IH; [done|done|]. cbn in Hi. lia.
    - destruct (k =? 0)%nat; injection H as <- <- <-; [done|]. cbn in Hi. lia. }
  intros H Hok Hi. by eapply Hgo.
Qed.

Lemma ParseCIDR_chars s r : ParseCIDR s = Ok r -> all_chars cidr_char s = true.
Proof.
  unfold ParseCIDR. intros H. destruct (str_cut "/" s) as [[addr mask]|] eqn:Hcut; [|done].
  destruct (ParseAddr addr) as [a|] eqn:Ha; [|done].
  destruct (match a with Addr4 _ => false | Addr6 _ z => negb (bool_decide (z = "")) end) eqn:Hz; [done|].
  destruct (dtoi mask) as [[n i] ok] eqn:Hd. case_match eqn:E; [done|]. bool_prop.
  eapply str_cut_chars; [done|done| |].
  - eapply ParseAddr_chars; [done|]. intros b z ->. by bool_prop.
  - by eapply dtoi_chars.
Qed.
End Characters.
