(* ===== verification/GoHash.v ===== *)
(** [crypto/sha1] of the Go standard library and the [%x] verb, as used to
    shorten resource names. *)

From S2P Require Import Prelude.

(** * SHA-1 *)

Definition word (z : Z) : Z := z mod 2 ^ 32.
Definition rotl (x n : Z) : Z := Z.lor (word (Z.shiftl x n)) (Z.shiftr x (32 - n)).

Definition be_word (l : list Z) : Z := foldl (λ acc b, acc * 256 + b) 0 l.

Definition word_bytes (w : Z) : list Z :=
  [Z.shiftr w 24 mod 256; Z.shiftr w 16 mod 256; Z.shiftr w 8 mod 256; w mod 256].

(** The message, a one bit, zeros up to 56 modulo 64, and the bit length. *)
Definition sha1_pad (m : list Z) : list Z :=
  let n := Z.of_nat (length m) in
  let zeros := Z.to_nat ((55 - n) mod 64) in
  let bits := 8 * n in
  m ++ [128] ++ replicate zeros 0 ++ word_bytes (Z.shiftr bits 32) ++ word_bytes (word bits).

Fixpoint chunks {A} (k fuel : nat) (l : list A) : list (list A) :=
  match fuel, l with
  | _, [] => []
  | O, _ => []
  | S fuel', _ => take k l :: chunks k fuel' (drop k l)
  end.

(** The message schedule, most recent word first. *)
Fixpoint sha1_schedule (fuel : nat) (w : list Z) : list Z :=
  match fuel with
  | O => w
  | S fuel' =>
      let x := Z.lxor (Z.lxor (w !!! 2%nat) (w !!! 7%nat)) (Z.lxor (w !!! 13%nat) (w !!! 15%nat)) in
      sha1_schedule fuel' (rotl x 1 :: w)
  end.

Definition not32 (x : Z) : Z := Z.lxor x (2 ^ 32 - 1).

Definition sha1_f (t b c d : Z) : Z :=
  if t <? 20 then Z.lor (Z.land b c) (Z.land (not32 b) d)
  else if t <? 40 then Z.lxor (Z.lxor b c) d
  else if t <? 60 then Z.lor (Z.lor (Z.land b c) (Z.land b d)) (Z.land c d)
  else Z.lxor (Z.lxor b c) d.

Definition sha1_k (t : Z) : Z :=
  if t <? 20 then 0x5A827999 else if t <? 40 then 0x6ED9EBA1
  else if t <? 60 then 0x8F1BBCDC else 0xCA62C1D6.

Definition sha1_state : Type := (Z * Z * Z * Z * Z)%type.

Definition sha1_round (st : Z * sha1_state) (w : Z) : Z * sha1_state :=
  let '(t, (a, b, c, d, e)) := st in
  let tmp := word (rotl a 5 + sha1_f t b c d + e + sha1_k t + w) in
  (t + 1, (tmp, a, rotl b 30, c, d)).

Definition sha1_block (h : sha1_state) (block : list Z) : sha1_state :=
  let w := rev (sha1_schedule 64 (rev (be_word <$> chunks 4 16 block))) in
  let '(_, (a, b, c, d, e)) := foldl sha1_round (0, h) w in
  let '(h0, h1, h2, h3, h4) := h in
  (word (h0 + a), word (h1 + b), word (h2 + c), word (h3 + d), word (h4 + e)).

(** [sha1.Sum] *)
Definition sha1_Sum (m : list Z) : list Z :=
  let p := sha1_pad m in
  let '(h0, h1, h2, h3, h4) :=
    foldl sha1_block (0x67452301, 0xEFCDAB89, 0x98BADCFE, 0x10325476, 0xC3D2E1F0)
      (chunks 64 (length p) p) in
  word_bytes h0 ++ word_bytes h1 ++ word_bytes h2 ++ word_bytes h3 ++ word_bytes h4.

(** * Hexadecimal text *)

Definition hex_digit (n : Z) : ascii :=
  if n <? 10 then ascii_of_nat (48 + Z.to_nat n) else ascii_of_nat (87 + Z.to_nat n).

(** [fmt.Sprintf("%x", b)] for a byte slice. *)
Fixpoint hex_text (l : list Z) : string :=
  match l with
  | [] => EmptyString
  | b :: l => String (hex_digit (b / 16)) (String (hex_digit (b mod 16)) (hex_text l))
  end.

(** [[]byte(s)] *)
Fixpoint string_bytes (s : string) : list Z :=
  match s with
  | EmptyString => []
  | String c s => Z.of_nat (nat_of_ascii c) :: string_bytes s
  end.

(** * Facts *)

Lemma hex_text_length l : String.length (hex_text l) = (2 * length l)%nat.
Proof. induction l as [|b l IH]; [done|]. cbn. rewrite IH. lia. Qed.

Lemma word_bytes_length w : length (word_bytes w) = 4%nat.
Proof. done. Qed.

Lemma sha1_Sum_length m : length (sha1_Sum m) = 20%nat.
Proof. unfold sha1_Sum. by destruct (foldl _ _ _) as [[[[]]]]. Qed.

(** The published digests of the empty message, of ["abc"] and of a message
    of two blocks. *)
Lemma sha1_test_vectors :
  hex_text (sha1_Sum []) = "da39a3ee5e6b4b0d3255bfef95601890afd80709" /\
  hex_text (sha1_Sum (string_bytes "abc")) = "a9993e364706816aba3e25717850c26c9cd0d89d" /\
  hex_text (sha1_Sum (string_bytes "abcdbcdecdefdefgefghfghighijhijkijkljklmklmnlmnomnopnopq"))
    = "84983e441c3bd26ebaae4aa1f95129e5e54670f1".
Proof. split; [|split]; vm_compute; reflexivity. Qed.
