(* ===== verification/GoFloat.v ===== *)
(** The part of Go's [float64] arithmetic and [math] package that the backoff
    computation uses, on the executable IEEE 754 model of the Standard Library
    (binary64: 53 bits of precision, exponents below 1024). *)

From Stdlib Require Import SpecFloat.
From S2P Require Import Prelude.

Definition float64 : Type := spec_float.

Definition fmul (x y : float64) : float64 := SFmul 53 1024 x y.
Definition fadd (x y : float64) : float64 := SFadd 53 1024 x y.

(** [float64(n)] for an integer. *)
Definition float_of_Z (n : Z) : float64 := binary_normalize 53 1024 n 0 false.

(** [int(f)]: truncation toward zero (of finite values in range). *)
Definition trunc (f : float64) : Z :=
  match f with
  | S754_finite s m e =>
      let a := if 0 <=? e then Z.pos m * 2 ^ e else Z.pos m / 2 ^ (- e) in
      if s then - a else a
  | _ => 0
  end.

(** The squaring loop of [math.Pow] over the bits of the exponent:
    the answer is [a1 * 2^ae], the running square [x1 * 2^xe]. *)
Fixpoint pow_loop (fuel : nat) (i : Z) (x1 a1 : float64) (xe ae : Z) : float64 * Z :=
  match fuel with
  | O => (a1, ae)
  | S fuel' =>
      if i =? 0 then (a1, ae)
      else if (xe <? - 2 ^ 12) || (2 ^ 12 <? xe) then (a1, ae + xe)
      else
        let '(a1, ae) := if Z.odd i then (fmul a1 x1, ae + xe) else (a1, ae) in
        let x1 := fmul x1 x1 in
        let xe := 2 * xe in
        let '(x1, xe) := if SFltb x1 (binary_normalize 53 1024 1 (-1) false)
                         then (fadd x1 x1, xe - 1) else (x1, xe) in
        pow_loop fuel' (i / 2) x1 a1 xe ae
  end.

(** [math.Pow(x, float64(y))] for a positive finite [x] and an integer
    [0 <= y < 2^63]: the general path of the Go implementation. *)
Definition Pow (x : float64) (y : Z) : float64 :=
  if y =? 0 then float_of_Z 1
  else if y =? 1 then x
  else
    let '(x1, xe) := SFfrexp 53 1024 x in
    let '(a1, ae) := pow_loop 64 y x1 (float_of_Z 1) xe 0 in
    SFldexp 53 1024 a1 ae.
