(* ===== verification/NetUtil.v ===== *)
(** [internal/netutil]: overlap of two CIDR texts and the last address of a
    network.  The main results: the overlap test is exactly intersection of
    the two address intervals (within one family), its final last-address
    comparison never changes the answer, and the byte loop that computes the
    last address yields the upper end of the interval. *)

From S2P Require Import Prelude GoNet.

(** The loop of [CalculateLastIP] over the bytes from the least significant
    one; the list is the address reversed. *)
Fixpoint set_host_bits (rev_ip : list Z) (hostBits : Z) : list Z :=
  match rev_ip with
  | [] => []
  | b :: rest =>
      let byteHostBits := if hostBits <? 8 then hostBits else 8 in
      let b' := if 0 <? byteHostBits
                then Z.lor b (byte_wrap (Z.shiftl 1 byteHostBits - 1)) else b in
      let hostBits' := hostBits - byteHostBits in
      if hostBits' <=? 0 then b' :: rest else b' :: set_host_bits rest hostBits'
  end.

Definition CalculateLastIP (network : IPNet) : list Z :=
  let '(ones, bits) := Mask_Size (Mask network) in
  let hostBits := bits - ones in
  let ip := IP network in
  let ip := if (length ip =? 16)%nat && bool_decide (To4 ip <> None)
            then default [] (To4 ip) else ip in
  rev (set_host_bits (rev ip) hostBits).

Definition CIDROverlaps (cidr1 cidr2 : string) : bool :=
  match ParseCIDR cidr1, ParseCIDR cidr2 with
  | Ok (_, ipNet1), Ok (_, ipNet2) =>
      let '(_, bits1) := Mask_Size (Mask ipNet1) in
      let '(_, bits2) := Mask_Size (Mask ipNet2) in
      if negb (bits1 =? bits2) then false
      else
        let ip1IsV4 := bool_decide (To4 (IP ipNet1) <> None) in
        let ip2IsV4 := bool_decide (To4 (IP ipNet2) <> None) in
        if negb (Bool.eqb ip1IsV4 ip2IsV4) then false
        else if Contains ipNet1 (IP ipNet2) || Contains ipNet2 (IP ipNet1) then true
        else
          let lastIP1 := CalculateLastIP ipNet1 in
          let lastIP2 := CalculateLastIP ipNet2 in
          Contains ipNet1 lastIP2 || Contains ipNet2 lastIP1
  | _, _ => false
  end.

(** * Specification *)

(** Two networks share an address: same width, same family, and intersecting
    intervals. *)
Definition nets_overlap (n1 n2 : IPNet) : Prop :=
  net_bits n1 = net_bits n2 /\ net_fam n1 = net_fam n2 /\
  exists a, net_lo n1 <= a <= net_hi n1 /\ net_lo n2 <= a <= net_hi n2.

Lemma nets_overlap_intervals n1 n2 :
  wf_net n1 -> wf_net n2 ->
  nets_overlap n1 n2 <->
  net_bits n1 = net_bits n2 /\ net_fam n1 = net_fam n2 /\
  net_lo n1 <= net_hi n2 /\ net_lo n2 <= net_hi n1.
Proof.
  intros H1 H2. pose proof (net_hi_ge _ H1). pose proof (net_hi_ge _ H2).
  unfold nets_overlap. split.
  - intros (? & ? & a & ? & ?). split_and!; lia.
  - intros (? & ? & ? & ?). split_and!; [done|done|].
    exists (Z.max (net_lo n1) (net_lo n2)). lia.
Qed.

Lemma To4_canon_fam n :
  wf_net n -> bool_decide (To4 (IP n) <> None) = (net_fam n =? 4)%nat.
Proof.
  intros Hwf. unfold net_fam, canon.
  destruct (wf_len _ Hwf) as [H|H].
  - unfold To4. rewrite H. cbn [Nat.eqb]. rewrite H. by rewrite bool_decide_eq_true_2.
  - destruct (To4_mapped _ H) as [E|E]; rewrite E.
    + rewrite length_drop, H. by rewrite bool_decide_eq_true_2.
    + rewrite H. rewrite bool_decide_eq_false_2; naive_solver.
Qed.

Lemma fam_4_or_16 n : wf_net n -> net_fam n = 4%nat \/ net_fam n = 16%nat.
Proof. intros Hwf. apply canon_len, Hwf. Qed.

Lemma Contains_net n1 n2 :
  wf_net n1 -> wf_net n2 ->
  Contains n1 (IP n2) = true <->
  net_fam n2 = net_fam n1 /\ net_lo n1 <= net_lo n2 <= net_hi n1.
Proof. intros H1 H2. apply Contains_spec; [done|apply H2..]. Qed.

(** * The last address *)
Section LastIP.
Lemma lor_byte_ones b k :
  is_byte b -> 0 <= k <= 8 -> is_byte (Z.lor b (byte_wrap (Z.shiftl 1 k - 1))).
Proof.
  intros Hb Hk. unfold is_byte, byte_wrap in *. apply (lor_small 8); [lia|lia|].
  apply Z.mod_pos_bound. lia.
Qed.

Lemma byte_ones k : 0 <= k <= 8 -> byte_wrap (Z.shiftl 1 k - 1) = 2 ^ k - 1.
Proof.
  intros Hk. unfold byte_wrap. rewrite Z.shiftl_1_l. apply Z.mod_small.
  pose proof (pow2_gt0 k). pose proof (Z.pow_le_mono_r 2 k 8). change (2 ^ 8) with 256 in *. lia.
Qed.

Lemma set_host_bits_bytes l h : bytes l -> 0 <= h -> bytes (set_host_bits l h).
Proof.
  intros Hl. revert h. induction Hl as [|b l Hb Hl IH]; intros h Hh; [constructor|].
  cbn [set_host_bits].
  assert (Hk : 0 <= (if h <? 8 then h else 8) <= 8) by (destruct (Z.ltb_spec h 8); lia).
  set (k := if h <? 8 then h else 8) in *.
  assert (is_byte (if 0 <? k then Z.lor b (byte_wrap (Z.shiftl 1 k - 1)) else b)).
  { case_match; [by apply lor_byte_ones|done]. }
  destruct (Z.leb_spec (h - k) 0); constructor; auto. apply IH. lia.
Qed.

Lemma set_host_bits_length l h : length (set_host_bits l h) = length l.
Proof.
  revert h. induction l as [|b l IH]; intros h; [done|]. cbn [set_host_bits].
  destruct (_ <=? 0); cbn; [done|]. by rewrite IH.
Qed.

(** Little-endian reading of the loop: it sets the low [h] bits. *)
Lemma set_host_bits_value l h :
  bytes l -> 0 <= h <= 8 * Z.of_nat (length l) ->
  be_Z (rev (set_host_bits l h)) = Z.lor (be_Z (rev l)) (2 ^ h - 1).
Proof.
  intros Hl. revert h. induction Hl as [|b l Hb Hl IH]; intros h Hh.
  { cbn in *. assert (h = 0) as -> by lia. done. }
  cbn [rev]. rewrite be_Z_app. cbn [length be_Z].
  change (2 ^ (8 * Z.of_nat 1)) with (2 ^ 8). rewrite Z.pow_0_r, Z.mul_1_r, Z.add_0_r.
  cbn [set_host_bits]. cbn [length] in Hh. rewrite Nat2Z.inj_succ in Hh.
  destruct (Z.ltb_spec h 8) as [Hlt|Hge].
  - rewrite Z.sub_diag. cbn [rev Z.leb Z.compare]. rewrite be_Z_app.
    cbn [length be_Z]. change (2 ^ (8 * Z.of_nat 1)) with (2 ^ 8).
    rewrite Z.pow_0_r, Z.mul_1_r, Z.add_0_r.
    pose proof (pow2_gt0 h ltac:(lia)). pose proof (Z.pow_lt_mono_r 2 h 8).
    replace (2 ^ h - 1) with (0 * 2 ^ 8 + (2 ^ h - 1)) by lia.
    unfold is_byte in Hb. change 256 with (2 ^ 8) in Hb.
    rewrite lor_hi_lo by lia. rewrite Z.lor_0_r. f_equal.
    destruct (Z.ltb_spec 0 h).
    + by rewrite byte_ones by lia.
    + assert (h = 0) as -> by lia. rewrite Z.lor_0_r. done.
  - cbn [Z.ltb Z.compare]. rewrite byte_ones by lia.
    assert (Hfull : Z.lor b (2 ^ 8 - 1) = 2 ^ 8 - 1).
    { apply Z.bits_inj'; intros i Hi. change (2 ^ 8 - 1) with (Z.ones 8).
      rewrite Z.lor_spec. destruct (decide (i < 8)).
      - rewrite Z.ones_spec_low by lia. by rewrite ?orb_true_r, ?orb_true_l.
      - rewrite Z.ones_spec_high by lia. rewrite ?orb_false_r, ?orb_false_l.
        rewrite <-(Z.mod_small b (2 ^ 8)) by (unfold is_byte in Hb; lia).
        apply Z.mod_pow2_bits_high. lia. }
    rewrite Hfull.
    assert (Hrhs : Z.lor (be_Z (rev l) * 2 ^ 8 + b) (2 ^ h - 1)
      = Z.lor (be_Z (rev l)) (2 ^ (h - 8) - 1) * 2 ^ 8 + (2 ^ 8 - 1)).
    { replace (2 ^ h - 1) with ((2 ^ (h - 8) - 1) * 2 ^ 8 + (2 ^ 8 - 1))
        by (rewrite (pow2_split h 8) by lia; lia).
      rewrite lor_hi_lo, Hfull by (unfold is_byte in Hb; lia). done. }
    destruct (Z.leb_spec (h - 8) 0).
    + assert (h = 8) as -> by lia. cbn [rev]. rewrite be_Z_app. cbn [length be_Z].
      rewrite Hrhs. rewrite Z.lor_0_r. lia.
    + cbn [rev]. rewrite be_Z_app, IH by lia. cbn [length be_Z]. rewrite Hrhs. lia.
Qed.

Lemma CalculateLastIP_canon n :
  wf_net n -> CalculateLastIP n = rev (set_host_bits (rev (canon (IP n))) (net_host n)).
Proof.
  intros Hwf. unfold CalculateLastIP, net_host, net_bits, net_ones, canon.
  destruct (Mask_Size (Mask n)) as [o b]. cbn [fst snd].
  destruct (wf_len _ Hwf) as [H|H]; rewrite H.
  - cbn [Nat.eqb andb]. unfold To4. rewrite H. done.
  - cbn [Nat.eqb andb]. destruct (To4 (IP n)); done.
Qed.

Lemma CalculateLastIP_wf n :
  wf_net n -> bytes (CalculateLastIP n) /\ length (CalculateLastIP n) = net_fam n.
Proof.
  intros Hwf. rewrite CalculateLastIP_canon by done.
  destruct (wf_net_canon n Hwf) as (Hh & _).
  pose proof (canon_bytes _ (wf_bytes _ Hwf)). split.
  - apply Forall_rev, set_host_bits_bytes; [by apply Forall_rev|lia].
  - by rewrite length_rev, set_host_bits_length, length_rev.
Qed.

Lemma CalculateLastIP_value n : wf_net n -> be_Z (CalculateLastIP n) = net_hi n.
Proof.
  intros Hwf. rewrite CalculateLastIP_canon by done.
  destruct (wf_net_canon n Hwf) as (Hh & Hal & _).
  pose proof (canon_bytes _ (wf_bytes _ Hwf)).
  rewrite set_host_bits_value; [|by apply Forall_rev|rewrite length_rev; done].
  rewrite rev_involutive, lor_low_ones by (lia || done).
  unfold net_hi, net_lo, net_size. lia.
Qed.
End LastIP.

(** * Overlap *)
Section Overlap.
(** The test without its last-address part. *)
Definition overlaps_by_first_address (n1 n2 : IPNet) : bool :=
  (net_bits n1 =? net_bits n2) && Bool.eqb (net_fam n1 =? 4)%nat (net_fam n2 =? 4)%nat
  && (Contains n1 (IP n2) || Contains n2 (IP n1)).

Lemma overlaps_by_first_address_spec n1 n2 :
  wf_net n1 -> wf_net n2 -> overlaps_by_first_address n1 n2 = true <-> nets_overlap n1 n2.
Proof.
  intros H1 H2. rewrite nets_overlap_intervals by done. unfold overlaps_by_first_address.
  rewrite !andb_true_iff, orb_true_iff, Z.eqb_eq, !Contains_net, eqb_true_iff by done.
  pose proof (net_hi_ge _ H1). pose proof (net_hi_ge _ H2).
  destruct (fam_4_or_16 _ H1) as [E1|E1], (fam_4_or_16 _ H2) as [E2|E2];
    rewrite E1, E2; cbn; intuition (try done; try lia).
Qed.

(** A last address that tests as contained witnesses an intersection. *)
Lemma Contains_last n1 n2 :
  wf_net n1 -> wf_net n2 -> net_fam n1 = net_fam n2 ->
  Contains n1 (CalculateLastIP n2) = true -> net_lo n1 <= net_hi n2 <= net_hi n1.
Proof.
  intros H1 H2 Hf HC. destruct (CalculateLastIP_wf n2 H2) as [Hb Hl].
  apply Contains_spec in HC as [Hfam Hr]; [|done|done|rewrite Hl; by apply fam_4_or_16].
  assert (Hc : canon (CalculateLastIP n2) = CalculateLastIP n2).
  { destruct (fam_4_or_16 _ H2) as [E|E]; rewrite E in Hl; [by apply canon_4|].
    rewrite Hf, E in Hfam. unfold canon in *.
    destruct (To4_mapped _ Hl) as [E'|E']; rewrite E' in *; [|done].
    rewrite length_drop in Hfam. lia. }
  by rewrite Hc, CalculateLastIP_value in Hr by done.
Qed.

Lemma CIDROverlaps_first s1 s2 :
  CIDROverlaps s1 s2 =
  match ParseCIDR s1, ParseCIDR s2 with
  | Ok (_, n1), Ok (_, n2) => overlaps_by_first_address n1 n2
  | _, _ => false
  end.
Proof.
  unfold CIDROverlaps. destruct (ParseCIDR s1) as [[ip1 n1]|] eqn:E1; [|done].
  destruct (ParseCIDR s2) as [[ip2 n2]|] eqn:E2; [|done].
  apply ParseCIDR_wf in E1, E2. unfold overlaps_by_first_address.
  rewrite !To4_canon_fam by done. unfold net_bits.
  destruct (Mask_Size (Mask n1)) as [o1 b1] eqn:M1, (Mask_Size (Mask n2)) as [o2 b2] eqn:M2.
  cbn [snd]. destruct (Z.eqb_spec b1 b2) as [->|]; cbn [negb andb]; [|done].
  destruct (eqb (net_fam n1 =? 4)%nat (net_fam n2 =? 4)%nat) eqn:EF; cbn [negb andb]; [|done].
  destruct (Contains n1 (IP n2) || Contains n2 (IP n1)) eqn:EC; [done|].
  apply eqb_prop in EF.
  assert (Hfam : net_fam n1 = net_fam n2).
  { destruct (fam_4_or_16 _ E1) as [F1|F1], (fam_4_or_16 _ E2) as [F2|F2];
      rewrite F1, F2 in *; done. }
  apply orb_false_iff in EC as [C1 C2]. apply not_true_iff_false in C1, C2.
  rewrite Contains_net in C1, C2 by done.
  pose proof (net_hi_ge _ E1). pose proof (net_hi_ge _ E2).
  apply not_true_iff_false. intros [HC|HC]%orb_true_iff.
  - apply Contains_last in HC; [|done..]. lia.
  - apply Contains_last in HC; [|done..]. lia.
Qed.

Lemma overlaps_by_first_address_sym n1 n2 :
  overlaps_by_first_address n1 n2 = overlaps_by_first_address n2 n1.
Proof.
  unfold overlaps_by_first_address. rewrite (Z.eqb_sym (net_bits n2)), (orb_comm (Contains n2 _)).
  do 2 f_equal. by destruct (net_fam n1 =? 4)%nat, (net_fam n2 =? 4)%nat.
Qed.

Lemma CIDROverlaps_sym s1 s2 : CIDROverlaps s1 s2 = CIDROverlaps s2 s1.
Proof.
  rewrite !CIDROverlaps_first. destruct (ParseCIDR s1) as [[]|], (ParseCIDR s2) as [[]|]; try done.
  apply overlaps_by_first_address_sym.
Qed.

(** The overlap of two texts with known networks, as intervals. *)
Lemma CIDROverlaps_nets s1 s2 ip1 n1 ip2 n2 :
  ParseCIDR s1 = Ok (ip1, n1) -> ParseCIDR s2 = Ok (ip2, n2) ->
  CIDROverlaps s1 s2 = true <->
  net_bits n1 = net_bits n2 /\ net_fam n1 = net_fam n2 /\
  net_lo n1 <= net_hi n2 /\ net_lo n2 <= net_hi n1.
Proof.
  intros P1 P2. rewrite CIDROverlaps_first, P1, P2. apply ParseCIDR_wf in P1, P2.
  rewrite overlaps_by_first_address_spec by done. by apply nets_overlap_intervals.
Qed.
End Overlap.

(** * Properties *)

(** C27. [CIDROverlaps] answers [true] exactly when both texts are valid CIDRs of
    the same width and family whose address intervals intersect; on an invalid
    text it answers [false]. *)
Theorem CIDROverlaps_iff_intersect s1 s2 :
  CIDROverlaps s1 s2 = true <->
  exists ip1 n1 ip2 n2, ParseCIDR s1 = Ok (ip1, n1) /\ ParseCIDR s2 = Ok (ip2, n2) /\
    nets_overlap n1 n2.
Proof.
  rewrite CIDROverlaps_first.
  destruct (ParseCIDR s1) as [[ip1 n1]|] eqn:E1; [|naive_solver].
  destruct (ParseCIDR s2) as [[ip2 n2]|] eqn:E2; [|naive_solver].
  rewrite overlaps_by_first_address_spec by (by eapply ParseCIDR_wf). naive_solver.
Qed.

(** The last-address comparison of [CIDROverlaps] is redundant: dropping it
    (keeping the width, family and first-address tests) gives the same answer
    on every pair of texts. *)
Theorem CIDROverlaps_last_address_redundant s1 s2 :
  CIDROverlaps s1 s2 =
  match ParseCIDR s1, ParseCIDR s2 with
  | Ok (_, n1), Ok (_, n2) => overlaps_by_first_address n1 n2
  | _, _ => false
  end.
Proof. apply CIDROverlaps_first. Qed.

(** For every parsed network, [CalculateLastIP] returns a 4- or 16-byte
    address of the network's family whose value is the last one of its
    interval. *)
Theorem CalculateLastIP_last s ip n :
  ParseCIDR s = Ok (ip, n) ->
  bytes (CalculateLastIP n) /\ length (CalculateLastIP n) = net_fam n /\
  be_Z (CalculateLastIP n) = net_hi n.
Proof.
  intros H%ParseCIDR_wf. split_and!; [apply CalculateLastIP_wf|apply CalculateLastIP_wf|
    apply CalculateLastIP_value]; done.
Qed.

Lemma CalculateLastIP_last_witness :
  exists ip n, ParseCIDR "10.1.0.0/20" = Ok (ip, n) /\ CalculateLastIP n = [10; 1; 15; 255] /\
    be_Z (CalculateLastIP n) = net_hi n.
Proof.
  eexists _, _. split; [vm_compute; reflexivity|]. split; [reflexivity|].
  apply (CalculateLastIP_last "10.1.0.0/20" (v4InV6Prefix ++ [10; 1; 0; 0])).
  vm_compute. reflexivity.
Defined.
