(* ===== verification/Bitmap.v ===== *)
(** [internal/controller/bitmap.go]: the bitmap of allocated addresses of a
    pool.  [CIDRMap] holds the pool's base address and prefix length and one
    bit per address ([big.Int], here [Z]).  Specification level: the offsets
    marked as allocated ([busy]) and the offsets a CIDR text covers. *)

From S2P Require Import Prelude GoNet NetUtil.

(** * Model *)

Record CIDRMap : Type := mkCIDRMap {
  baseIP : list Z;
  prefixLen : Z;
  bits : Z;
  maxSize : Z;
  minSize : Z
}.

Definition set_bits (c : CIDRMap) (b : Z) : CIDRMap :=
  mkCIDRMap (baseIP c) (prefixLen c) b (maxSize c) (minSize c).

Definition NewCIDRMap (cidr : string) : result CIDRMap :=
  match ParseCIDR cidr with
  | Err err => Err (EWrap ("invalid CIDR format: " +:+ Error err) err)
  | Ok (_, ipNet) =>
      match To4 (IP ipNet) with
      | None => Err (EPlain "IPv6 not supported in this version")
      | Some ip4 =>
          let '(prefixLen, _) := Mask_Size (Mask ipNet) in
          if 28 <? prefixLen then Err (EPlain "prefix length must be at most /28")
          else if prefixLen <? 12 then Err (EPlain "prefix length must be at least /12")
          else Ok (mkCIDRMap ip4 prefixLen 0 28 16)
      end
  end.

(** [contains] tests only the first address of the network. *)
Definition contains (c : CIDRMap) (ipNet : IPNet) : bool :=
  Contains (mkIPNet (baseIP c) (CIDRMask (prefixLen c) 32)) (IP ipNet).

(** Byte-wise distance from the base (each difference wraps in a [byte]) and
    block size.  [ipNet.IP[i]] for [i < 4] is read whatever the length. *)
Definition getCIDRBitRange (c : CIDRMap) (ipNet : IPNet) : Z * Z :=
  let '(targetPrefix, _) := Mask_Size (Mask ipNet) in
  let offset := foldl (λ acc i, acc * 256 + byte_wrap ((IP ipNet !!! i) - (baseIP c !!! i)))
                  0 (seq 0 4) in
  (offset, pow2_int (32 - targetPrefix)).

(** The scan "is any bit of [start .. start+size) set?". *)
Definition range_busy (b start size : Z) : bool :=
  existsb (λ i, Z.testbit b (start + i)) (seqZ 0 size).

(** The loop of [SetBit] calls over the same range. *)
Definition set_range (b start size : Z) : Z :=
  foldl (λ acc i, Z.setbit acc (start + i)) b (seqZ 0 size).

Definition MarkAllocated (c : CIDRMap) (cidr : string) : result CIDRMap :=
  match ParseCIDR cidr with
  | Err err => Err (EWrap ("invalid CIDR format: " +:+ Error err) err)
  | Ok (_, ipNet) =>
      if negb (contains c ipNet)
      then Err (EPlain ("CIDR " +:+ cidr +:+ " is outside the pool range"))
      else
        let '(startIndex, size) := getCIDRBitRange c ipNet in
        if range_busy (bits c) startIndex size
        then Err (EPlain ("CIDR " +:+ cidr +:+ " or portion of it is already allocated"))
        else Ok (set_bits c (set_range (bits c) startIndex size))
  end.

(** [ip[j] += byte(offset % 256); offset /= 256] from the last byte up; the
    list is the address reversed. *)
Fixpoint add_offset (rev_ip : list Z) (offset : Z) : list Z :=
  match rev_ip with
  | [] => []
  | b :: rest => byte_wrap (b + byte_wrap (offset mod 256)) :: add_offset rest (offset / 256)
  end.

Definition AllocateNextAvailable (c : CIDRMap) (size : Z) : result (string * CIDRMap) :=
  if (size <? minSize c) || (maxSize c <? size)
  then Err (EPlain ("size must be between " +:+ pretty (minSize c) +:+ " and " +:+ pretty (maxSize c)))
  else
    let blockSize := pow2_int (32 - size) in
    let totalBlocks := pow2_int (size - prefixLen c) in
    match List.find (λ i, negb (range_busy (bits c) (i * blockSize) blockSize))
            (seqZ 0 totalBlocks) with
    | None => Err (EPlain ("no available CIDR blocks of size /" +:+ pretty size))
    | Some i =>
        let ip := rev (add_offset (rev (baseIP c)) (i * blockSize)) in
        let cidr := IP_String4 ip +:+ "/" +:+ pretty size in
        match MarkAllocated c cidr with
        | Err err => Err err
        | Ok c' => Ok (cidr, c')
        end
    end.

(** The counting loop of one size in [GetFreeBlockCount]. *)
Definition free_count (c : CIDRMap) (size : Z) : Z :=
  let blockSize := pow2_int (32 - size) in
  let totalBlocks := pow2_int (size - prefixLen c) in
  foldl (λ n i, if negb (range_busy (bits c) (i * blockSize) blockSize) then n + 1 else n)
    0 (seqZ 0 totalBlocks).

Definition GetFreeBlockCount (c : CIDRMap) : gmap string Z :=
  foldl (λ m size, <[pretty size := free_count c size]> m)
    ∅ (seqZ (minSize c) (maxSize c + 1 - minSize c)).

(** [strings.Contains] *)
Fixpoint str_contains (s sub : string) : bool :=
  String.prefix sub s ||
  match s with EmptyString => false | String _ s' => str_contains s' sub end.

(** One iteration of the marking loop of [CalculatePoolStatus]. *)
Definition pool_status_step (st : CIDRMap * gset string) (cidr : string) : CIDRMap * gset string :=
  let '(cidrMap, uniqueCIDRs) := st in
  if bool_decide (cidr ∈ uniqueCIDRs) then (cidrMap, uniqueCIDRs)
  else
    let uniqueCIDRs := {[cidr]} ∪ uniqueCIDRs in
    match MarkAllocated cidrMap cidr with
    | Ok cidrMap' => (cidrMap', uniqueCIDRs)
    | Err err =>
        if negb (str_contains (Error err) "already allocated")
        then (cidrMap, uniqueCIDRs ∖ {[cidr]})
        else (cidrMap, uniqueCIDRs)
    end.

Definition CalculatePoolStatus (poolCIDR : string) (allocations : list string)
    : result (Z * gmap string Z) :=
  match NewCIDRMap poolCIDR with
  | Err err => Err (EWrap ("failed to create CIDR map: " +:+ Error err) err)
  | Ok cidrMap =>
      let '(cidrMap, uniqueCIDRs) := foldl pool_status_step (cidrMap, ∅) allocations in
      Ok (Z.of_nat (size uniqueCIDRs), GetFreeBlockCount cidrMap)
  end.

(** [strings.Split(s, sep)] for a one-byte separator. *)
Fixpoint str_split (sep : ascii) (s : string) : list string :=
  match s with
  | EmptyString => [EmptyString]
  | String c s' =>
      if bool_decide (c = sep) then EmptyString :: str_split sep s'
      else match str_split sep s' with
           | [] => [String c EmptyString]
           | p :: ps => String c p :: ps
           end
  end.

(** [strconv.Atoi] on a 64-bit platform: optional sign, decimal digits, the
    value in [int64].  [None] stands for its [NumError]. *)
Fixpoint atoi_digits (s : string) (n : Z) : option Z :=
  match s with
  | EmptyString => Some n
  | String c s' => if is_digit c then atoi_digits s' (n * 10 + digit_val c) else None
  end.

Definition int64_range (z : Z) : bool := (- 2 ^ 63 <=? z) && (z <? 2 ^ 63).

Definition Atoi (s : string) : option Z :=
  let '(neg, t) := match s with
                   | String "-"%char t => (true, t)
                   | String "+"%char t => (false, t)
                   | _ => (false, s)
                   end in
  if bool_decide (t = EmptyString) then None
  else match atoi_digits t 0 with
       | None => None
       | Some n => let z := if neg : bool then - n else n in
                   if int64_range z then Some z else None
       end.

(** The two errors of [ParseCIDRSize]. *)
Inductive size_error : Type :=
| SizeFormat (cidr : string)
| SizePrefix (text : string).

Definition ParseCIDRSize (cidr : string) : size_error + Z :=
  match str_split "/"%char cidr with
  | [_; p] =>
      match Atoi p with
      | None => inl (SizePrefix p)
      | Some n => inr n
      end
  | _ => inl (SizeFormat cidr)
  end.

(** * Specification vocabulary *)

(** The offsets marked as allocated. *)
Definition busy (c : CIDRMap) (o : Z) : Prop := Z.testbit (bits c) o = true.

Definition base (c : CIDRMap) : Z := be_Z (baseIP c).
Definition pool_size (c : CIDRMap) : Z := 2 ^ (32 - prefixLen c).
Definition pool_net (c : CIDRMap) : IPNet := mkIPNet (baseIP c) (CIDRMask (prefixLen c) 32).

(** Type invariant of a map: what [NewCIDRMap] establishes and every
    operation keeps. *)
Record wf_map (c : CIDRMap) : Prop := {
  wfm_len : length (baseIP c) = 4%nat;
  wfm_bytes : bytes (baseIP c);
  wfm_prefix : 12 <= prefixLen c <= 28;
  wfm_aligned : base c mod pool_size c = 0;
  wfm_sizes : minSize c = 16 /\ maxSize c = 28;
  wfm_bits : 0 <= bits c
}.

(** An IPv4 network whose first address is in the pool. *)
Definition in_pool (c : CIDRMap) (n : IPNet) : Prop :=
  length (IP n) = 4%nat /\ base c <= net_lo n < base c + pool_size c.

(** The offsets of the pool's bitmap that a CIDR text stands for. *)
Definition covers (c : CIDRMap) (cidr : string) (o : Z) : Prop :=
  exists ip n, ParseCIDR cidr = Ok (ip, n) /\ in_pool c n /\
    net_lo n - base c <= o <= net_hi n - base c.

(** * Bit ranges *)
Section Ranges.
Lemma range_busy_true b start size :
  range_busy b start size = true <-> exists o, start <= o < start + size /\ Z.testbit b o = true.
Proof.
  unfold range_busy. rewrite existsb_seqZ. split.
  - intros (i & Hi & Ht). exists (start + i). split; [lia|done].
  - intros (o & Ho & Ht). exists (o - start). split; [lia|].
    by replace (start + (o - start)) with o by lia.
Qed.

Lemma range_busy_false b start size :
  range_busy b start size = false <-> forall o, start <= o < start + size -> Z.testbit b o = false.
Proof.
  rewrite <-not_true_iff_false, range_busy_true. split.
  - intros H o Ho. apply not_true_iff_false. intros Ht. apply H. eauto.
  - intros H (o & Ho & Ht). rewrite H in Ht; [done|lia].
Qed.

Lemma testbit_set_range b start size o :
  0 <= start -> 0 <= size ->
  Z.testbit (set_range b start size) o = Z.testbit b o || ((start <=? o) && (o <? start + size)).
Proof.
  intros Hs. unfold set_range. revert size. refine (loop_ind _ _ _).
  - cbn. destruct (Z.leb_spec start o), (Z.ltb_spec o (start + 0)); cbn; rewrite ?orb_false_r; lia || done.
  - intros n Hn IH. rewrite seqZ_snoc, foldl_app by done. cbn [foldl].
    rewrite Z.setbit_eqb by lia. rewrite IH.
    destruct (Z.eqb_spec (start + (0 + n)) o), (Z.leb_spec start o), (Z.ltb_spec o (start + n)),
      (Z.ltb_spec o (start + (n + 1))); cbn; rewrite ?orb_true_r, ?orb_false_r; lia || done.
Qed.

Lemma set_range_nonneg b start size : 0 <= b -> 0 <= start -> 0 <= size -> 0 <= set_range b start size.
Proof.
  intros Hb Hs. unfold set_range. revert size. refine (loop_ind _ _ _); [done|].
  intros n Hn IH. rewrite seqZ_snoc, foldl_app by done. cbn [foldl].
  rewrite Z.setbit_spec'. apply Z.lor_nonneg. split; [done|]. apply Z.pow_nonneg. lia.
Qed.

Lemma set_range_empty b start : set_range b start 0 = b.
Proof. done. Qed.
End Ranges.

(** * Offsets of an address in the pool *)
Section Offsets.
Lemma land_le a m : 0 <= a -> 0 <= m -> Z.land a m <= a.
Proof.
  intros Ha Hm. rewrite <-(Z.lor_ldiff_and a m) at 2.
  assert (H : Z.land (Z.ldiff a m) (Z.land a m) = 0).
  { apply Z.bits_inj'; intros i Hi. rewrite !Z.land_spec, Z.ldiff_spec, Z.bits_0.
    destruct (Z.testbit a i), (Z.testbit m i); done. }
  pose proof (Z.add_lor_land (Z.ldiff a m) (Z.land a m)) as Hadd. rewrite H in Hadd.
  assert (0 <= Z.ldiff a m) by (apply Z.ldiff_nonneg; lia). lia.
Qed.

Lemma zip_land_le l m :
  bytes l -> bytes m -> length l = length m -> Forall2 Z.le (zip_with Z.land l m) l.
Proof.
  intros Hl. revert m. induction Hl as [|a l Ha Hl IH]; intros [|b m] Hm Hlen; try done.
  inversion Hm; subst. cbn. constructor; [|by apply IH; [|injection Hlen]].
  unfold is_byte in *. apply land_le; lia.
Qed.

Lemma be_Z_sub l1 l2 :
  bytes l1 -> bytes l2 -> Forall2 Z.le l2 l1 ->
  be_Z (zip_with (λ a b, byte_wrap (a - b)) l1 l2) = be_Z l1 - be_Z l2.
Proof.
  intros H1 H2 Hle. revert H1 H2. induction Hle as [|b a l2 l1 Hab Hle IH]; intros H1 H2; [done|].
  inversion H1; inversion H2; subst. cbn [zip_with be_Z]. rewrite IH by done.
  rewrite length_zip_with. pose proof (Forall2_length _ _ _ Hle) as Hlen.
  rewrite Hlen, Nat.min_id. unfold byte_wrap, is_byte in *. rewrite Z.mod_small by lia. lia.
Qed.

(** The address loop of [getCIDRBitRange] on four-byte lists. *)
Lemma offset_fold l1 l2 :
  length l1 = 4%nat -> length l2 = 4%nat ->
  foldl (λ acc i, acc * 256 + byte_wrap ((l1 !!! i) - (l2 !!! i))) 0 (seq 0 4)
  = be_Z (zip_with (λ a b, byte_wrap (a - b)) l1 l2).
Proof.
  intros H1 H2. destruct l1 as [|a1 [|a2 [|a3 [|a4 [|]]]]]; try done.
  destruct l2 as [|b1 [|b2 [|b3 [|b4 [|]]]]]; try done.
  cbn [seq foldl zip_with be_Z length]. cbn -[Z.mul Z.add Z.pow byte_wrap]. lia.
Qed.

Lemma add_offset_spec l h off :
  bytes l -> 0 <= h <= 8 * Z.of_nat (length l) ->
  be_Z (rev l) mod 2 ^ h = 0 -> 0 <= off < 2 ^ h ->
  bytes (add_offset l off) /\ length (add_offset l off) = length l /\
  be_Z (rev (add_offset l off)) = be_Z (rev l) + off.
Proof.
  intros Hl. revert h off. induction Hl as [|b l Hb Hl IH]; intros h off Hh Hal Hoff.
  { cbn in *. assert (h = 0) as -> by lia. change (2 ^ 0) with 1 in Hoff.
    split_and!; [constructor|done|lia]. }
  cbn [add_offset rev length] in *. rewrite be_Z_app in Hal |- *. rewrite be_Z_app.
  cbn [length be_Z] in *. change (2 ^ (8 * Z.of_nat 1)) with 256 in *.
  change (2 ^ (8 * Z.of_nat 0)) with 1 in *. rewrite !Z.mul_1_r, !Z.add_0_r in *.
  rewrite Nat2Z.inj_succ in Hh. unfold is_byte in Hb. unfold byte_wrap.
  rewrite Z.mod_mod by lia.
  assert (Hsplit : off = off / 256 * 256 + off mod 256) by (pose proof (Z.div_mod off 256); lia).
  pose proof (Z.mod_pos_bound off 256 ltac:(lia)).
  destruct (decide (8 <= h)) as [H8|H8].
  - rewrite (pow2_split h 8) in * by lia. change (2 ^ 8) with 256 in *.
    pose proof (pow2_gt0 (h - 8) ltac:(lia)).
    apply Z.mod_divide in Hal as [q Hq]; [|lia].
    assert (b = 0) as -> by nia.
    destruct (IH (h - 8) (off / 256)) as (Hb' & Hl' & Hv').
    { lia. }
    { apply Z.mod_divide; [lia|]. exists q. nia. }
    { split; [apply Z.div_pos; lia|apply Z.div_lt_upper_bound; lia]. }
    rewrite Hl', Hv', Z.add_0_l, Z.mod_small by lia.
    split_and!; [constructor; [unfold is_byte; lia|done]|done|lia].
  - assert (H8' : 2 ^ 8 = 2 ^ (8 - h) * 2 ^ h) by (apply pow2_split; lia).
    change (2 ^ 8) with 256 in H8'. pose proof (pow2_gt0 (8 - h) ltac:(lia)).
    pose proof (pow2_gt0 h ltac:(lia)).
    assert (off < 256) by nia. rewrite (Z.mod_small off 256), (Z.div_small off 256) by lia.
    destruct (IH 0 0) as (Hb' & Hl' & Hv'); [lia|apply Z.mod_1_r|done|].
    assert (Hbo : b + off < 256).
    { apply Z.mod_divide in Hal as [q Hq]; [|lia]. rewrite H8' in Hq.
      assert (b = (q - be_Z (rev l) * 2 ^ (8 - h)) * 2 ^ h) as Hb2 by lia.
      set (k := q - be_Z (rev l) * 2 ^ (8 - h)) in *.
      assert (k < 2 ^ (8 - h)) by nia. nia. }
    rewrite Hl', Hv', Z.mod_small by lia.
    split_and!; [constructor; [unfold is_byte; lia|done]|done|lia].
Qed.
End Offsets.

(** * The operations in terms of the specification *)
Section Operations.
Lemma net_ones_mk ip o : 0 <= o <= 32 -> net_ones (mkIPNet ip (CIDRMask o 32)) = o.
Proof. intros. unfold net_ones. cbn [Mask]. by destruct (CIDRMask_spec o 32) as (-> & _); [auto|lia|]. Qed.

Lemma net_bits_mk ip o : 0 <= o <= 32 -> net_bits (mkIPNet ip (CIDRMask o 32)) = 32.
Proof. intros. unfold net_bits. cbn [Mask]. by destruct (CIDRMask_spec o 32) as (-> & _); [auto|lia|]. Qed.

Lemma net_host_mk ip o : 0 <= o <= 32 -> net_host (mkIPNet ip (CIDRMask o 32)) = 32 - o.
Proof. intros. unfold net_host. by rewrite net_ones_mk, net_bits_mk. Qed.

Lemma pool_net_wf c : wf_map c -> wf_net (pool_net c).
Proof.
  intros [Hl Hb Hp Ha _ _]. unfold pool_net.
  constructor; cbn [IP Mask]; rewrite ?net_ones_mk, ?net_bits_mk, ?net_host_mk by lia; auto; lia.
Qed.

Lemma pool_net_lo c : wf_map c -> net_lo (pool_net c) = base c.
Proof. intros Hc. unfold net_lo, pool_net, base. cbn. by rewrite canon_4 by apply Hc. Qed.

Lemma pool_net_hi c : wf_map c -> net_hi (pool_net c) = base c + pool_size c - 1.
Proof.
  intros Hc. unfold net_hi. rewrite pool_net_lo by done. unfold net_size, pool_net, pool_size.
  rewrite net_host_mk; [done|]. pose proof (wfm_prefix _ Hc). lia.
Qed.

Lemma base_bound c : wf_map c -> 0 <= base c /\ base c + pool_size c <= 2 ^ 32.
Proof.
  intros Hc. pose proof (be_Z_bound _ (wfm_bytes _ Hc)) as Hb. rewrite (wfm_len _ Hc) in Hb.
  change (8 * Z.of_nat 4) with 32 in Hb. fold (base c) in Hb. split; [lia|].
  pose proof (wfm_aligned _ Hc) as Ha. unfold pool_size in *. pose proof (wfm_prefix _ Hc).
  pose proof (pow2_gt0 (32 - prefixLen c) ltac:(lia)).
  apply Z.mod_divide in Ha as [q Hq]; [|lia].
  rewrite (pow2_split 32 (32 - prefixLen c)) in * by lia.
  set (P := 2 ^ (32 - prefixLen c)) in *. set (K := 2 ^ (32 - (32 - prefixLen c))) in *.
  assert (q < K) by nia. nia.
Qed.

Lemma NewCIDRMap_ok cidr c :
  NewCIDRMap cidr = Ok c <->
  exists ip n, ParseCIDR cidr = Ok (ip, n) /\ length (IP n) = 4%nat /\ 12 <= net_ones n <= 28 /\
    c = mkCIDRMap (IP n) (net_ones n) 0 28 16.
Proof.
  unfold NewCIDRMap. destruct (ParseCIDR cidr) as [[ip n]|] eqn:E; [|naive_solver].
  apply ParseCIDR_wf in E as Hwf. unfold net_ones.
  destruct (Mask_Size (Mask n)) as [o b] eqn:M. cbn [fst].
  assert (Ho : net_ones n = o) by (unfold net_ones; by rewrite M).
  destruct (wf_len _ Hwf) as [H4|H16].
  - unfold To4. rewrite H4. cbn [Nat.eqb]. repeat case_match; bool_prop.
    + split; [done|]. intros (? & ? & ? & ? & ? & ?); simplify_eq. rewrite M in *. cbn in *. lia.
    + split; [done|]. intros (? & ? & ? & ? & ? & ?); simplify_eq. rewrite M in *. cbn in *. lia.
    + split.
      * intros [= <-]. exists ip, n. rewrite M. cbn. split_and!; auto; lia.
      * intros (? & ? & ? & ? & ? & ->); simplify_eq. by rewrite M.
  - split.
    + destruct (To4_mapped _ H16) as [ET|ET]; rewrite ET; [|done].
      (* a mapped network has a prefix of at least 96 bits *)
      destruct (wf_net_canon n Hwf) as (Hh & _).
      assert (Hfam : net_fam n = 4%nat).
      { unfold net_fam, canon. rewrite ET, length_drop, H16. done. }
      rewrite Hfam in Hh. unfold net_host in Hh. rewrite (wf_bits _ Hwf), H16, Ho in Hh.
      destruct (Z.ltb_spec 28 o); [done|lia].
    + intros (? & ? & ? & ? & ?); simplify_eq. lia.
Qed.

Lemma NewCIDRMap_wf cidr c : NewCIDRMap cidr = Ok c -> wf_map c.
Proof.
  intros (ip & n & Hp & H4 & Ho & ->)%NewCIDRMap_ok. apply ParseCIDR_wf in Hp as Hwf.
  constructor; cbn; auto.
  - apply Hwf.
  - unfold base, pool_size. cbn. pose proof (wf_aligned _ Hwf) as Ha. unfold net_host in Ha.
    rewrite (wf_bits _ Hwf), H4 in Ha. exact Ha.
  - done.
Qed.

Lemma contains_iff c n :
  wf_map c -> wf_net n ->
  contains c n = true <-> net_fam n = 4%nat /\ base c <= net_lo n < base c + pool_size c.
Proof.
  intros Hc Hn. unfold contains. fold (pool_net c).
  rewrite Contains_net by (try apply pool_net_wf; done).
  rewrite pool_net_lo, pool_net_hi by done. unfold net_fam at 2. cbn.
  rewrite canon_4, (wfm_len _ Hc) by apply Hc. split; intros [? ?]; split; auto; lia.
Qed.

Lemma net_size_v4 n : wf_net n -> length (IP n) = 4%nat -> net_size n = 2 ^ (32 - net_ones n).
Proof. intros Hn H4. unfold net_size, net_host. by rewrite (wf_bits _ Hn), H4. Qed.

Lemma net_fam_v4 n : length (IP n) = 4%nat -> net_fam n = 4%nat.
Proof. intros H. unfold net_fam. by rewrite canon_4. Qed.

Lemma getCIDRBitRange_spec c n :
  wf_map c -> wf_net n -> in_pool c n ->
  getCIDRBitRange c n = (net_lo n - base c, net_size n).
Proof.
  intros Hc Hn [H4 Hr]. pose proof (wfm_len _ Hc). pose proof (wfm_prefix _ Hc) as Hp.
  rewrite net_size_v4 by done. unfold getCIDRBitRange, net_ones.
  destruct (Mask_Size (Mask n)) as [o b] eqn:M. cbn [fst].
  assert (Ho : 0 <= o <= 32).
  { pose proof (wf_ones _ Hn) as Ho. rewrite (wf_bits _ Hn), H4 in Ho.
    unfold net_ones in Ho. rewrite M in Ho. exact Ho. }
  rewrite pow2_int_eq by lia. f_equal. rewrite offset_fold by done.
  destruct (CIDRMask_spec (prefixLen c) 32) as (_ & Hbe & Hbm & Hml); [auto|lia|].
  pose proof (wf_bytes _ Hn) as Hb. pose proof (wfm_bytes _ Hc) as Hcb.
  assert (Hland : zip_with Z.land (IP n) (CIDRMask (prefixLen c) 32) = baseIP c).
  { apply be_Z_inj; [by apply bytes_zip_land|done|rewrite length_zip_with; lia|].
    rewrite be_Z_zip_land, Hbe by (done || lia).
    replace (32 - (32 - prefixLen c)) with (prefixLen c) by lia.
    pose proof (be_Z_bound _ Hb) as Hbd. rewrite H4 in Hbd.
    rewrite land_high_mask by (lia || done).
    unfold net_lo in Hr. rewrite canon_4 in Hr by done.
    pose proof (proj2 (aligned_round_down (32 - prefixLen c) (base c) (be_Z (IP n))
      ltac:(lia) (wfm_aligned _ Hc))) as Hrd.
    rewrite (wfm_aligned _ Hc : base c mod 2 ^ (32 - prefixLen c) = 0) in Hrd.
    unfold base, pool_size in *. lia. }
  rewrite be_Z_sub; [unfold net_lo; by rewrite canon_4|done|done|].
  rewrite <-Hland. apply zip_land_le; [done|done|lia].
Qed.

(** The block of a mapped IPv6 network is empty: nothing is marked. *)
Lemma getCIDRBitRange_mapped c n :
  wf_net n -> length (IP n) = 16%nat -> net_fam n = 4%nat -> snd (getCIDRBitRange c n) = 0.
Proof.
  intros Hn H16 Hfam. destruct (wf_net_canon n Hn) as (Hh & _). rewrite Hfam in Hh.
  unfold net_host in Hh. rewrite (wf_bits _ Hn), H16 in Hh. unfold getCIDRBitRange, net_ones in *.
  destruct (Mask_Size (Mask n)) as [o b]. cbn in *. apply pow2_int_neg. lia.
Qed.

(** [MarkAllocated], every branch, for a text that parses to an IPv4 network. *)
Lemma MarkAllocated_v4 c cidr ip n :
  wf_map c -> ParseCIDR cidr = Ok (ip, n) -> length (IP n) = 4%nat ->
  (~ (base c <= net_lo n < base c + pool_size c) /\
    MarkAllocated c cidr = Err (EPlain ("CIDR " +:+ cidr +:+ " is outside the pool range"))) \/
  ((exists o, covers c cidr o /\ busy c o) /\
    MarkAllocated c cidr
    = Err (EPlain ("CIDR " +:+ cidr +:+ " or portion of it is already allocated"))) \/
  (in_pool c n /\ (forall o, covers c cidr o -> ~ busy c o) /\
    MarkAllocated c cidr
    = Ok (set_bits c (set_range (bits c) (net_lo n - base c) (net_size n)))).
Proof.
  intros Hc Hp H4. apply ParseCIDR_wf in Hp as Hn. unfold MarkAllocated. rewrite Hp.
  destruct (contains c n) eqn:HC.
  - apply contains_iff in HC as [Hfam Hr]; [|done|done].
    assert (Hin : in_pool c n) by done. right.
    cbn [negb]. rewrite getCIDRBitRange_spec by done.
    destruct (range_busy (bits c) (net_lo n - base c) (net_size n)) eqn:HB; [left|right].
    + split; [|done]. apply range_busy_true in HB as (o & Ho & Ht).
      exists o. split; [|done]. exists ip, n. unfold net_hi. split_and!; auto; lia.
    + split_and!; [done| |done]. rewrite range_busy_false in HB.
      intros o (ip' & n' & Hp' & _ & Ho) Hbusy. rewrite Hp in Hp'. simplify_eq.
      unfold busy in Hbusy. unfold net_hi in Ho. rewrite HB in Hbusy; [done|lia].
  - left. cbn [negb]. split; [|done]. intros Hr. apply not_true_iff_false in HC. apply HC.
    apply contains_iff; auto using net_fam_v4.
Qed.

(** [MarkAllocated] on an IPv6 text changes nothing. *)
Lemma MarkAllocated_v6 c cidr ip n :
  ParseCIDR cidr = Ok (ip, n) -> length (IP n) = 16%nat -> wf_map c ->
  MarkAllocated c cidr = Ok c \/
  MarkAllocated c cidr = Err (EPlain ("CIDR " +:+ cidr +:+ " is outside the pool range")).
Proof.
  intros Hp H16 Hc. apply ParseCIDR_wf in Hp as Hn. unfold MarkAllocated. rewrite Hp.
  destruct (contains c n) eqn:HC; [|by right]. left. cbn [negb].
  apply contains_iff in HC as [Hfam Hr]; [|done|done].
  pose proof (getCIDRBitRange_mapped c n Hn H16 Hfam) as Hsz.
  destruct (getCIDRBitRange c n) as [st sz]. cbn in Hsz. subst. cbn. by destruct c.
Qed.

Lemma set_bits_wf c b : wf_map c -> 0 <= b -> wf_map (set_bits c b).
Proof. intros [] Hb. by constructor. Qed.

Lemma net_size_pos n : wf_net n -> 0 < net_size n.
Proof. intros Hn. destruct (wf_net_canon n Hn) as (Hh & _). apply pow2_gt0. lia. Qed.

(** What a successful mark does to the state: the covered offsets, and only
    those, become allocated. *)
Lemma MarkAllocated_effect c cidr c' :
  wf_map c -> MarkAllocated c cidr = Ok c' ->
  wf_map c' /\ baseIP c' = baseIP c /\ prefixLen c' = prefixLen c /\
  (forall o, busy c' o <-> busy c o \/ covers c cidr o) /\
  (forall o, covers c cidr o -> ~ busy c o).
Proof.
  intros Hc HM. destruct (ParseCIDR cidr) as [[ip n]|] eqn:Hp; cycle 1.
  { unfold MarkAllocated in HM. by rewrite Hp in HM. }
  apply ParseCIDR_wf in Hp as Hn. destruct (wf_len _ Hn) as [H4|H16].
  - destruct (MarkAllocated_v4 c cidr ip n Hc Hp H4) as [[_ E]|[[_ E]|(Hin & Hfree & E)]];
      rewrite E in HM; simplify_eq.
    pose proof Hin as [_ Hr]. pose proof (net_size_pos _ Hn). pose proof (wfm_bits _ Hc).
    split_and!; [|done|done| |done].
    + apply set_bits_wf; [done|]. apply set_range_nonneg; lia.
    + intros o. unfold busy. cbn [bits set_bits]. rewrite testbit_set_range by lia.
      rewrite orb_true_iff, andb_true_iff, Z.leb_le, Z.ltb_lt.
      split; (intros [?|Hcov]; [by left|right]).
      * exists ip, n. unfold net_hi. split_and!; auto; lia.
      * destruct Hcov as (? & ? & Hp' & _ & Ho). rewrite Hp in Hp'. simplify_eq.
        unfold net_hi in Ho. lia.
  - assert (Hnc : forall o, ~ covers c cidr o).
    { intros o (? & ? & Hp' & [H4 _] & _). rewrite Hp in Hp'. simplify_eq. lia. }
    destruct (MarkAllocated_v6 c cidr ip n Hp H16 Hc) as [E|E]; rewrite E in HM; simplify_eq.
    split_and!; [done|done|done| |intros o Ho; by destruct (Hnc o)].
    intros o. split; [by left|]. intros [?|Ho]; [done|by destruct (Hnc o)].
Qed.
End Operations.

(** * First-fit search *)
Section FirstFit.
(** Some address of the block of [len] offsets at [start] is allocated. *)
Definition block_busy (c : CIDRMap) (start len : Z) : Prop :=
  exists o, start <= o < start + len /\ busy c o.

Lemma range_busy_block c start len :
  range_busy (bits c) start len = true <-> block_busy c start len.
Proof. apply range_busy_true. Qed.

Lemma total_blocks c size i :
  wf_map c -> 16 <= size <= 28 -> 0 <= i < pow2_int (size - prefixLen c) ->
  prefixLen c <= size /\ 0 <= i * 2 ^ (32 - size) /\
  i * 2 ^ (32 - size) + 2 ^ (32 - size) <= pool_size c.
Proof.
  intros Hc Hs Hi. pose proof (wfm_prefix _ Hc). unfold pow2_int in Hi.
  destruct (Z.ltb_spec (size - prefixLen c) 0); [lia|].
  pose proof (pow2_gt0 (32 - size) ltac:(lia)). split_and!; [lia|nia|].
  unfold pool_size. rewrite (pow2_split (32 - prefixLen c) (32 - size)) by lia.
  replace (32 - prefixLen c - (32 - size)) with (size - prefixLen c) by lia. nia.
Qed.

(** The text built for block [i] denotes that block. *)
Lemma block_text c size i :
  wf_map c -> 16 <= size <= 28 -> 0 <= i < pow2_int (size - prefixLen c) ->
  exists ip n,
    ParseCIDR (IP_String4 (rev (add_offset (rev (baseIP c)) (i * 2 ^ (32 - size))))
               +:+ "/" +:+ pretty size) = Ok (ip, n) /\
    length (IP n) = 4%nat /\ net_ones n = size /\ net_lo n = base c + i * 2 ^ (32 - size).
Proof.
  intros Hc Hs Hi. destruct (total_blocks c size i Hc Hs Hi) as (Hps & H0 & Hfit).
  pose proof (wfm_len _ Hc) as Hl4. pose proof (wfm_prefix _ Hc).
  pose proof (pow2_gt0 (32 - size) ltac:(lia)) as Hpos.
  destruct (add_offset_spec (rev (baseIP c)) (32 - prefixLen c) (i * 2 ^ (32 - size)))
    as (Hb & Hl & Hv).
  { apply Forall_rev, Hc. }
  { rewrite length_rev, Hl4. lia. }
  { rewrite rev_involutive. apply Hc. }
  { unfold pool_size in Hfit. lia. }
  rewrite rev_involutive in Hv. rewrite length_rev, Hl4 in Hl.
  set (ip := rev (add_offset (rev (baseIP c)) (i * 2 ^ (32 - size)))) in *.
  assert (Hbi : bytes ip) by by apply Forall_rev.
  assert (Hli : length ip = 4%nat) by (unfold ip; by rewrite length_rev).
  destruct (CIDRMask_spec size 32) as (_ & Hbe & Hbm & Hml); [auto|lia|].
  eexists _, _. split; [apply ParseCIDR_print; auto; lia|]. cbn [IP].
  assert (Hlz : length (zip_with Z.land ip (CIDRMask size 32)) = 4%nat)
    by (rewrite length_zip_with; lia).
  split; [done|]. split; [apply net_ones_mk; lia|].
  unfold net_lo. cbn [IP]. rewrite canon_4 by done.
  rewrite be_Z_zip_land, Hbe by (done || lia).
  pose proof (be_Z_bound _ Hbi) as Hbd. rewrite Hli in Hbd.
  rewrite land_high_mask by (lia || done). rewrite Hv.
  change (be_Z (baseIP c)) with (base c).
  assert (Hmod : (base c + i * 2 ^ (32 - size)) mod 2 ^ (32 - size) = 0); [|lia].
  rewrite Z.mod_add by lia. apply Z.mod_divide; [lia|].
  pose proof (wfm_aligned _ Hc) as Ha. unfold pool_size in Ha.
  apply Z.mod_divide in Ha; [|pose proof (pow2_gt0 (32 - prefixLen c)); lia].
  etrans; [|done]. apply pow2_divide. lia.
Qed.

(** [AllocateNextAvailable]: the first free aligned block, marked, or
    exhaustion. *)
Lemma AllocateNextAvailable_cases c size :
  wf_map c -> 16 <= size <= 28 ->
  (exists i cidr ip n c', 0 <= i < pow2_int (size - prefixLen c) /\
    ~ block_busy c (i * 2 ^ (32 - size)) (2 ^ (32 - size)) /\
    (forall j, 0 <= j < i -> block_busy c (j * 2 ^ (32 - size)) (2 ^ (32 - size))) /\
    AllocateNextAvailable c size = Ok (cidr, c') /\
    MarkAllocated c cidr = Ok c' /\ ParseCIDR cidr = Ok (ip, n) /\ length (IP n) = 4%nat /\
    net_ones n = size /\ net_lo n = base c + i * 2 ^ (32 - size)) \/
  ((forall j, 0 <= j < pow2_int (size - prefixLen c) ->
      block_busy c (j * 2 ^ (32 - size)) (2 ^ (32 - size))) /\
    AllocateNextAvailable c size
    = Err (EPlain ("no available CIDR blocks of size /" +:+ pretty size))).
Proof.
  intros Hc Hs. unfold AllocateNextAvailable. destruct (wfm_sizes _ Hc) as [-> ->].
  destruct (Z.ltb_spec size 16); [lia|]. destruct (Z.ltb_spec 28 size); [lia|]. cbn [orb].
  rewrite (pow2_int_eq (32 - size)) by lia.
  destruct (List.find _ _) as [i|] eqn:Hf.
  - left. apply find_seqZ_some in Hf as (Hi & Hfree & Hmin). rewrite Z.add_0_l in Hi.
    apply negb_true_iff in Hfree.
    assert (Hnb : ~ block_busy c (i * 2 ^ (32 - size)) (2 ^ (32 - size))).
    { intros Hb%range_busy_block. congruence. }
    destruct (block_text c size i Hc Hs Hi) as (ip & n & Hp & H4 & Ho & Hlo).
    set (cidr := IP_String4 _ +:+ _) in *.
    destruct (total_blocks c size i Hc Hs Hi) as (Hps & Hge0 & Hfit).
    pose proof (pow2_gt0 (32 - size) ltac:(lia)). apply ParseCIDR_wf in Hp as Hn.
    destruct (MarkAllocated_v4 c cidr ip n Hc Hp H4)
      as [[Hout _]|[[(o & Hco & Hbo) _]|(Hin & _ & E)]].
    + exfalso. apply Hout. lia.
    + exfalso. apply Hnb. exists o. split; [|done].
      destruct Hco as (? & ? & Hp' & _ & Hr). rewrite Hp in Hp'. simplify_eq.
      unfold net_hi in Hr. rewrite net_size_v4, Hlo in Hr by done. lia.
    + rewrite E. exists i, cidr, ip, n. eexists. split_and!; eauto; try lia.
      intros j Hj. apply range_busy_block. specialize (Hmin j ltac:(lia)).
      by apply negb_false_iff in Hmin.
  - right. split; [|done]. intros j Hj. apply range_busy_block.
    rewrite find_seqZ_none in Hf. specialize (Hf j ltac:(lia)). by apply negb_false_iff in Hf.
Qed.
End FirstFit.

(** * Marking a list of texts, errors ignored *)
Section MarkAll.
Definition mark_ignoring_errors (c : CIDRMap) (cidr : string) : CIDRMap :=
  match MarkAllocated c cidr with Ok c' => c' | Err _ => c end.

(** Two texts are compatible when they denote the same network or networks
    that do not overlap. *)
Definition compatible (u v : string) : Prop :=
  CIDROverlaps u v = true -> snd <$> ParseCIDR u = snd <$> ParseCIDR v.

Lemma covers_same_pool c c' u o :
  baseIP c = baseIP c' -> prefixLen c = prefixLen c' -> covers c u o -> covers c' u o.
Proof.
  intros Hb Hp (ip & n & Hparse & [H4 Hr] & Ho). exists ip, n.
  unfold in_pool, base, pool_size in *. rewrite <-Hb, <-Hp. done.
Qed.

(** Texts that cover a common offset overlap. *)
Lemma covers_overlap c u v o : covers c u o -> covers c v o -> CIDROverlaps u v = true.
Proof.
  intros (ip1 & n1 & P1 & [L1 R1] & O1) (ip2 & n2 & P2 & [L2 R2] & O2).
  rewrite CIDROverlaps_first, P1, P2.
  apply ParseCIDR_wf in P1, P2.
  apply overlaps_by_first_address_spec; [done|done|]. unfold nets_overlap.
  rewrite (wf_bits _ P1), (wf_bits _ P2), L1, L2, !net_fam_v4 by done.
  split_and!; [done|done|]. exists (o + base c). lia.
Qed.

Lemma covers_same_net c u v o :
  snd <$> ParseCIDR u = snd <$> ParseCIDR v -> covers c u o -> covers c v o.
Proof.
  intros E (ip & n & P & Hin & Ho). rewrite P in E. cbn in E.
  destruct (ParseCIDR v) as [[ip' n']|] eqn:P'; cbn in E; simplify_eq.
  exists ip', n'. done.
Qed.

(** Invariant of the marking loop: the allocated offsets are exactly those
    covered by the texts seen so far. *)
Definition marked (c0 c : CIDRMap) (seen : list string) : Prop :=
  wf_map c /\ baseIP c = baseIP c0 /\ prefixLen c = prefixLen c0 /\
  forall o, busy c o <-> exists u, u ∈ seen /\ covers c0 u o.

Lemma marked_new cidr c : NewCIDRMap cidr = Ok c -> marked c c [].
Proof.
  intros H. split_and!; [by eapply NewCIDRMap_wf|done|done|].
  apply NewCIDRMap_ok in H as (ip & n & _ & _ & _ & ->). intros o. unfold busy. cbn.
  rewrite Z.bits_0. split; [done|]. intros (u & Hu & _). set_solver.
Qed.

Lemma marked_step c0 c seen u :
  marked c0 c seen -> (forall v, v ∈ seen -> compatible u v) ->
  marked c0 (mark_ignoring_errors c u) (u :: seen).
Proof.
  intros (Hc & Hb & Hpl & Hbusy) Hcompat. unfold mark_ignoring_errors.
  destruct (MarkAllocated c u) as [c'|e] eqn:E.
  - apply MarkAllocated_effect in E as (Hc' & Hb' & Hp' & Hbz & _); [|done].
    split_and!; [done|congruence|congruence|]. intros o. rewrite Hbz, Hbusy.
    setoid_rewrite elem_of_cons.
    assert (covers c u o <-> covers c0 u o) as -> by (split; by apply covers_same_pool).
    naive_solver.
  - split_and!; [done..|]. intros o. rewrite Hbusy. setoid_rewrite elem_of_cons.
    split; [naive_solver|]. intros (v & [->|Hv] & Ho); [|eauto].
    (* [u] covers [o] but could not be marked: an earlier text is the same network *)
    destruct Ho as (ip & n & P & [H4 Hr] & Ho).
    assert (Ho' : covers c0 u o) by (by exists ip, n).
    destruct (MarkAllocated_v4 c u ip n Hc P H4) as [[Hout _]|[[(o' & Hc' & Hbo') _]|(_ & _ & E')]].
    + exfalso. apply Hout. unfold base, pool_size in *. by rewrite Hb, Hpl.
    + apply Hbusy in Hbo' as (w & Hw & Hcw).
      assert (covers c0 u o') by by apply (covers_same_pool c).
      exists w. split; [done|]. eapply covers_same_net; [|done].
      apply Hcompat; [done|]. by eapply covers_overlap.
    + congruence.
Qed.

Lemma marked_all c0 c seen us :
  marked c0 c seen ->
  (forall u v, u ∈ us -> v ∈ us ++ seen -> compatible u v) ->
  exists seen', (forall u, u ∈ seen' <-> u ∈ us ++ seen) /\
    marked c0 (foldl mark_ignoring_errors c us) seen'.
Proof.
  revert c seen. induction us as [|u us IH]; intros c seen Hm Hcompat; [by exists seen|].
  cbn [foldl]. destruct (IH (mark_ignoring_errors c u) (u :: seen)) as (seen' & Hs & Hm').
  - apply marked_step; [done|]. intros v Hv. apply Hcompat; set_solver.
  - intros u' v Hu' Hv. apply Hcompat; set_solver.
  - exists seen'. split; [|done]. intros x. rewrite Hs. set_solver.
Qed.
End MarkAll.

(** * Counting free blocks *)
Section Counting.
Definition block_free (c : CIDRMap) (size i : Z) : bool :=
  negb (range_busy (bits c) (i * pow2_int (32 - size)) (pow2_int (32 - size))).

Lemma free_count_loop c size :
  free_count c size = count_loop (block_free c size) (pow2_int (size - prefixLen c)).
Proof. done. Qed.

Lemma block_free_true c size i :
  size <= 32 ->
  block_free c size i = true <-> ~ block_busy c (i * 2 ^ (32 - size)) (2 ^ (32 - size)).
Proof.
  intros Hs. unfold block_free. rewrite pow2_int_eq by lia.
  rewrite negb_true_iff, <-not_true_iff_false, range_busy_block. done.
Qed.

Lemma bool_eq_iff (a b : bool) : (a = true <-> b = true) -> a = b.
Proof. destruct a, b; intuition. Qed.

(** Marking a block of the size counted removes exactly that block. *)
Lemma mark_decrements c cidr c' ip n size :
  wf_map c -> 16 <= size <= 28 -> prefixLen c <= size ->
  ParseCIDR cidr = Ok (ip, n) -> in_pool c n -> net_ones n = size ->
  MarkAllocated c cidr = Ok c' -> free_count c' size = free_count c size - 1.
Proof.
  intros Hc Hs Hps P Hin Ho HM. apply ParseCIDR_wf in P as Hn.
  destruct (MarkAllocated_effect c cidr c' Hc HM) as (Hc' & Hb & Hp & Hbz & Hfree).
  rewrite !free_count_loop, Hp. pose proof Hin as [H4 Hr].
  pose proof (wfm_prefix _ Hc). pose proof (pow2_gt0 (32 - size) ltac:(lia)) as Hpos.
  (* the block index *)
  assert (Hal : (net_lo n - base c) mod 2 ^ (32 - size) = 0).
  { pose proof (wf_aligned _ Hn) as Ha. unfold net_host in Ha.
    rewrite (wf_bits _ Hn), H4, Ho in Ha. pose proof (wfm_aligned _ Hc) as Hb0.
    unfold pool_size in Hb0. apply Z.mod_divide; [lia|]. apply Z.divide_sub_r.
    - apply Z.mod_divide; [lia|]. unfold net_lo. by rewrite canon_4.
    - apply Z.mod_divide in Hb0; [|pose proof (pow2_gt0 (32 - prefixLen c)); lia].
      etrans; [|done]. apply pow2_divide. lia. }
  apply Z.mod_divide in Hal as [i Hi]; [|lia].
  assert (Hrange : 0 <= i < pow2_int (size - prefixLen c)).
  { rewrite pow2_int_eq by lia. unfold pool_size in Hr.
    rewrite (pow2_split (32 - prefixLen c) (32 - size)) in Hr by lia.
    replace (32 - prefixLen c - (32 - size)) with (size - prefixLen c) in Hr by lia. nia. }
  assert (Hcov : forall o, covers c cidr o <-> i * 2 ^ (32 - size) <= o < i * 2 ^ (32 - size) + 2 ^ (32 - size)).
  { intros o. pose proof (net_size_v4 n Hn H4) as Hsz. rewrite Ho in Hsz. split.
    - intros (? & ? & P' & _ & Hoo). rewrite P in P'. simplify_eq. unfold net_hi in Hoo. lia.
    - intros Hoo. exists ip, n. unfold net_hi. split_and!; auto; lia. }
  apply (count_loop_off _ _ _ i); [done| | |].
  - apply block_free_true; [lia|]. intros (o & Hoo & Hbo). by apply (Hfree o); [apply Hcov|].
  - apply not_true_iff_false. rewrite block_free_true by lia. intros Hnb. apply Hnb.
    exists (i * 2 ^ (32 - size)). split; [lia|]. apply Hbz. right. apply Hcov. lia.
  - intros j Hj Hne. apply bool_eq_iff. rewrite !block_free_true by lia.
    unfold block_busy. setoid_rewrite Hbz. split; intros Hnb (o & Hoo & Hbo); apply Hnb;
      exists o; (split; [done|]); [by left|].
    destruct Hbo as [?|Hco]; [done|]. apply Hcov in Hco. exfalso.
    assert (j = i) by nia. done.
Qed.

Lemma GetFreeBlockCount_lookup c size :
  wf_map c -> 16 <= size <= 28 -> GetFreeBlockCount c !! pretty size = Some (free_count c size).
Proof.
  intros Hc Hs. unfold GetFreeBlockCount. destruct (wfm_sizes _ Hc) as [-> ->].
  change (seqZ 16 (28 + 1 - 16)) with (seqZ 16 13).
  assert (H : In size (seqZ 16 13)) by (apply list_elem_of_In, elem_of_seqZ; lia).
  revert H. generalize (seqZ 16 13) as l. intros l.
  induction l as [|x l IH] using rev_ind; [done|].
  rewrite foldl_app. cbn [foldl]. intros [H|[->|[]]]%in_app_or.
  - destruct (decide (x = size)) as [->|]; [by rewrite lookup_insert_eq|].
    rewrite lookup_insert_ne; [by apply IH|]. intros E. by apply pretty_Z_inj in E.
  - by rewrite lookup_insert_eq.
Qed.
End Counting.

(** * Substrings of error texts *)
Section Texts.
Lemma str_contains_app_r s t sub : str_contains t sub = true -> str_contains (s +:+ t) sub = true.
Proof.
  intros H. induction s as [|c s IH]; [done|]. rewrite append_cons. cbn [str_contains].
  by rewrite IH, orb_true_r.
Qed.

Lemma prefix_chars p sub s :
  String.prefix sub s = true -> all_chars p s = true -> all_chars p sub = true.
Proof.
  revert s. induction sub as [|c sub IH]; [done|]. intros [|d s]; [done|]. cbn.
  destruct (ascii_dec c d) as [->|]; [|done]. intros H Hs. bool_prop.
  match goal with E : p d = true |- _ => rewrite E end. by eapply IH.
Qed.

(** A text made of characters of a class does not contain a word that leaves it. *)
Lemma str_contains_chars p s sub :
  all_chars p s = true -> all_chars p sub = false -> str_contains s sub = false.
Proof.
  intros Hs Hsub. induction s as [|c s IH]; cbn [str_contains].
  - rewrite orb_false_r. apply not_true_iff_false. intros H. eapply prefix_chars in H; [|done].
    congruence.
  - cbn in Hs. apply orb_false_iff. split.
    + apply not_true_iff_false. intros H. eapply prefix_chars in H; [|done]. congruence.
    + bool_prop. by apply IH.
Qed.

Lemma all_chars_app p s t : all_chars p (s +:+ t) = all_chars p s && all_chars p t.
Proof.
  induction s as [|c s IH]; [done|]. rewrite append_cons. cbn. by rewrite IH, andb_assoc.
Qed.

Lemma all_chars_impl (p q : ascii -> bool) s :
  (forall c, p c = true -> q c = true) -> all_chars p s = true -> all_chars q s = true.
Proof.
  intros Hpq. induction s as [|c s IH]; [done|]. cbn. intros [H1 H2]%andb_true_iff.
  by rewrite Hpq, IH.
Qed.

Definition not_y (c : ascii) : bool := negb (bool_decide (c = "y"%char)).

Lemma cidr_char_not_y c : cidr_char c = true -> not_y c = true.
Proof. unfold not_y. intros H. case_bool_decide; [by subst|done]. Qed.

Lemma outside_text_class cidr r :
  ParseCIDR cidr = Ok r ->
  str_contains ("CIDR " +:+ cidr +:+ " is outside the pool range") "already allocated" = false.
Proof.
  intros H%ParseCIDR_chars. apply (str_contains_chars not_y); [|done].
  rewrite !all_chars_app, (all_chars_impl cidr_char not_y cidr cidr_char_not_y H). done.
Qed.
End Texts.

(** * Pool statistics *)
Section PoolStatus.
(** The text is a CIDR whose first address the pool contains. *)
Definition valid_in (c : CIDRMap) (u : string) : bool :=
  match ParseCIDR u with Ok (_, n) => contains c n | Err _ => false end.

Lemma marked_ext c0 c l1 l2 :
  (forall u, u ∈ l1 <-> u ∈ l2) -> marked c0 c l1 -> marked c0 c l2.
Proof.
  intros Hl (H1 & H2 & H3 & H4). split_and!; [done..|]. intros o. rewrite H4.
  by setoid_rewrite Hl.
Qed.

Lemma mark_result_class c u r :
  ParseCIDR u = Ok r ->
  match MarkAllocated c u with
  | Ok _ => valid_in c u = true
  | Err e => str_contains (Error e) "already allocated" = valid_in c u
  end.
Proof.
  intros P. unfold MarkAllocated, valid_in. rewrite P. destruct r as [ip n].
  destruct (contains c n) eqn:HC; cbn [negb].
  - destruct (getCIDRBitRange c n) as [st sz]. destruct (range_busy _ _ _); [|done].
    cbn [Error]. by apply str_contains_app_r, str_contains_app_r.
  - cbn [Error]. by eapply outside_text_class.
Qed.

(** Invariant of the loop of [CalculatePoolStatus]. *)
Definition status_inv (c0 : CIDRMap) (l : list string) (st : CIDRMap * gset string) : Prop :=
  marked c0 st.1 l /\ forall u, u ∈ st.2 <-> u ∈ l /\ valid_in c0 u = true.

Lemma valid_in_same c c0 u :
  baseIP c = baseIP c0 -> prefixLen c = prefixLen c0 -> valid_in c u = valid_in c0 u.
Proof. intros Hb Hp. unfold valid_in, contains. by rewrite Hb, Hp. Qed.

Lemma status_step c0 l st u :
  status_inv c0 l st -> is_ok (ParseCIDR u) = true -> (forall v, v ∈ l -> compatible u v) ->
  status_inv c0 (u :: l) (pool_status_step st u).
Proof.
  destruct st as [c uniq]. intros [Hm Hu] Hok Hcompat. cbn [fst snd] in *.
  unfold pool_status_step. case_bool_decide as Hin.
  - split; cbn [fst snd].
    + eapply marked_ext; [|done]. intros v. apply Hu in Hin as [? _]. set_solver.
    + intros v. rewrite Hu. apply Hu in Hin. set_solver.
  - destruct (ParseCIDR u) as [r|] eqn:P; [|done].
    pose proof (mark_result_class c u r P) as Hcl.
    pose proof (marked_step c0 c l u Hm Hcompat) as Hstep. unfold mark_ignoring_errors in Hstep.
    destruct Hm as (_ & Hb & Hp & _). rewrite (valid_in_same c c0) in Hcl by done.
    destruct (MarkAllocated c u) as [c'|e]; [|rewrite Hcl; destruct (valid_in c0 u) eqn:HV];
      cbn [negb]; (split; cbn [fst snd]; [done|]); intros v;
      rewrite ?elem_of_difference, elem_of_union, elem_of_singleton, Hu, elem_of_cons.
    + split; [intros [->|[? ?]]|intros [[->|?] ?]]; auto.
    + split; [intros [->|[? ?]]|intros [[->|?] ?]]; auto.
    + split; [intros [[->|[? ?]] ?]; done || auto|]. intros [[->|?] ?]; [congruence|].
      split; [auto|]. intros ->. congruence.
Qed.

Lemma status_fold c0 l done_ st :
  status_inv c0 done_ st -> (forall u, u ∈ l -> is_ok (ParseCIDR u) = true) ->
  (forall u v, u ∈ l -> v ∈ l ++ done_ -> compatible u v) ->
  exists seen, (forall u, u ∈ seen <-> u ∈ l ++ done_) /\ status_inv c0 seen (foldl pool_status_step st l).
Proof.
  revert done_ st. induction l as [|u l IH]; intros done_ st Hinv Hok Hc; [by exists done_|].
  cbn [foldl]. destruct (IH (u :: done_) (pool_status_step st u)) as (seen & Hs & Hi).
  - apply status_step; [done|apply Hok; set_solver|]. intros v Hv. apply Hc; set_solver.
  - intros v Hv. apply Hok. set_solver.
  - intros x y Hx Hy. apply Hc; set_solver.
  - exists seen. split; [|done]. intros x. rewrite Hs. set_solver.
Qed.
End PoolStatus.

(** * Properties *)

(** A pool text is accepted exactly when it is an IPv4 CIDR of prefix length
    12 to 28, and the map built satisfies the invariant, has the network as
    base and no address allocated. *)
Theorem NewCIDRMap_accepts cidr :
  (is_ok (NewCIDRMap cidr) = true <->
     exists ip n, ParseCIDR cidr = Ok (ip, n) /\ length (IP n) = 4%nat /\ 12 <= net_ones n <= 28) /\
  forall c, NewCIDRMap cidr = Ok c -> wf_map c /\ forall o, ~ busy c o.
Proof.
  split.
  - split.
    + destruct (NewCIDRMap cidr) as [c|] eqn:E; [|done]. intros _.
      apply NewCIDRMap_ok in E as (ip & n & ? & ? & ? & _). eauto.
    + intros (ip & n & ? & ? & ?).
      assert (NewCIDRMap cidr = Ok (mkCIDRMap (IP n) (net_ones n) 0 28 16)) as ->; [|done].
      apply NewCIDRMap_ok. eauto 10.
  - intros c Hc. split; [by eapply NewCIDRMap_wf|].
    apply marked_new in Hc as (_ & _ & _ & Hb). intros o (u & Hu & _)%Hb. set_solver.
Qed.



(** C11. [AllocateNextAvailable] for a size it accepts is first-fit: it returns the
    text of the lowest aligned block with no allocated address and marks
    exactly that block; it fails only when every aligned block has an
    allocated address. *)
Theorem AllocateNextAvailable_first_fit c size :
  wf_map c -> 16 <= size <= 28 ->
  match AllocateNextAvailable c size with
  | Ok (cidr, c') =>
      exists i ip n, 0 <= i < pow2_int (size - prefixLen c) /\
        ParseCIDR cidr = Ok (ip, n) /\ net_ones n = size /\
        net_lo n = base c + i * 2 ^ (32 - size) /\
        ~ block_busy c (i * 2 ^ (32 - size)) (2 ^ (32 - size)) /\
        (forall j, 0 <= j < i -> block_busy c (j * 2 ^ (32 - size)) (2 ^ (32 - size))) /\
        wf_map c' /\
        forall o, busy c' o <->
          busy c o \/ i * 2 ^ (32 - size) <= o < i * 2 ^ (32 - size) + 2 ^ (32 - size)
  | Err e =>
      e = EPlain ("no available CIDR blocks of size /" +:+ pretty size) /\
      forall j, 0 <= j < pow2_int (size - prefixLen c) ->
        block_busy c (j * 2 ^ (32 - size)) (2 ^ (32 - size))
  end.
Proof.
  intros Hc Hs. destruct (AllocateNextAvailable_cases c size Hc Hs)
    as [(i & cidr & ip & n & c' & Hi & Hf & Hmin & -> & HM & P & H4 & Ho & Hlo)|[Hb ->]]; [|done].
  exists i, ip, n. apply MarkAllocated_effect in HM as (Hc' & _ & _ & Hbz & _); [|done].
  split_and!; try done; try lia. intros o. rewrite Hbz. apply ParseCIDR_wf in P as Hn.
  pose proof (net_size_v4 n Hn H4) as Hsz. rewrite Ho in Hsz.
  pose proof (total_blocks c size i Hc Hs Hi).
  assert (covers c cidr o <-> i * 2 ^ (32 - size) <= o < i * 2 ^ (32 - size) + 2 ^ (32 - size)) as ->;
    [|done]. split.
  - intros (? & ? & P' & _ & Hoo). rewrite P in P'. simplify_eq. unfold net_hi in Hoo. lia.
  - intros Hoo. pose proof (pow2_gt0 (32 - size) ltac:(lia)).
    exists ip, n. unfold net_hi, in_pool. split_and!; auto; lia.
Qed.

Lemma AllocateNextAvailable_first_fit_witness :
  exists c c' ip n, NewCIDRMap "10.0.0.0/24" = Ok c /\
    AllocateNextAvailable c 26 = Ok ("10.0.0.0/26", c') /\
    ParseCIDR "10.0.0.0/26" = Ok (ip, n) /\ net_ones n = 26.
Proof.
  pose (c := mkCIDRMap [10; 0; 0; 0] 24 0 28 16).
  assert (Hc : wf_map c) by (apply (NewCIDRMap_wf "10.0.0.0/24"); vm_compute; reflexivity).
  pose proof (AllocateNextAvailable_first_fit c 26 Hc ltac:(lia)) as H.
  assert (E : AllocateNextAvailable c 26 = Ok ("10.0.0.0/26", set_bits c (2 ^ 64 - 1)))
    by (vm_compute; reflexivity).
  rewrite E in H. destruct H as (i & ip & n & _ & P & Ho & _).
  exists c, (set_bits c (2 ^ 64 - 1)), ip, n. split; [vm_compute; reflexivity|].
  exact (conj E (conj P Ho)).
Defined.

(** The free-block count of a size decides allocation: [AllocateNextAvailable]
    succeeds exactly when [GetFreeBlockCount] reports a positive number for the
    size, and a success lowers that number by exactly one. *)
Theorem free_count_decides_allocation c size :
  wf_map c -> 16 <= size <= 28 ->
  exists k, GetFreeBlockCount c !! pretty size = Some k /\ 0 <= k /\
    match AllocateNextAvailable c size with
    | Ok (_, c') => 0 < k /\ GetFreeBlockCount c' !! pretty size = Some (k - 1)
    | Err _ => k = 0
    end.
Proof.
  intros Hc Hs. exists (free_count c size).
  pose proof (count_loop_bound (block_free c size) (pow2_int (size - prefixLen c))
    (pow2_int_nonneg _)) as Hk. rewrite <-free_count_loop in Hk.
  split; [by apply GetFreeBlockCount_lookup|]. split; [lia|].
  destruct (AllocateNextAvailable_cases c size Hc Hs)
    as [(i & cidr & ip & n & c' & Hi & Hf & Hmin & -> & HM & P & H4 & Ho & Hlo)|[Hb ->]].
  - pose proof (total_blocks c size i Hc Hs Hi) as (Hps & ? & ?).
    pose proof (pow2_gt0 (32 - size) ltac:(lia)).
    assert (Hin : in_pool c n) by (split; [done|lia]).
    pose proof (mark_decrements c cidr c' ip n size Hc Hs Hps P Hin Ho HM) as Hd.
    apply MarkAllocated_effect in HM as (Hc' & _); [|done]. split.
    + rewrite free_count_loop. apply count_loop_pos. exists i. split; [done|].
      apply block_free_true; [lia|done].
    + rewrite GetFreeBlockCount_lookup by done. by rewrite Hd.
  - destruct (decide (0 < free_count c size)) as [Hp|]; [|lia]. exfalso.
    rewrite free_count_loop in Hp. apply count_loop_pos in Hp as (i & Hi & Hfi).
    apply block_free_true in Hfi; [|lia]. by apply Hfi, Hb.
Qed.

Lemma free_count_decides_allocation_witness :
  exists c k, NewCIDRMap "10.0.0.0/26" = Ok c /\ GetFreeBlockCount c !! "27" = Some k /\ 0 <= k.
Proof.
  pose (c := mkCIDRMap [10; 0; 0; 0] 26 0 28 16).
  assert (Hc : wf_map c) by (apply (NewCIDRMap_wf "10.0.0.0/26"); vm_compute; reflexivity).
  destruct (free_count_decides_allocation c 27 Hc ltac:(lia)) as (k & Hk & H0 & _).
  exists c, k. split; [vm_compute; reflexivity|]. exact (conj Hk H0).
Defined.

(** [CalculatePoolStatus] on CIDR texts that pairwise denote equal or
    non-overlapping networks: the count is the number of distinct texts whose
    first address is in the pool, and the free count of every size is the
    number of aligned blocks of that size that no allocation covers, even in
    part. *)
Theorem CalculatePoolStatus_counts poolCIDR c allocations :
  NewCIDRMap poolCIDR = Ok c ->
  (forall u, u ∈ allocations -> is_ok (ParseCIDR u) = true) ->
  (forall u v, u ∈ allocations -> v ∈ allocations -> compatible u v) ->
  exists count free, CalculatePoolStatus poolCIDR allocations = Ok (count, free) /\
    count = Z.of_nat (size (filter (λ u, valid_in c u = true) (list_to_set allocations : gset string))) /\
    forall size, 16 <= size <= 28 ->
      exists f, free !! pretty size = Some (count_loop f (pow2_int (size - prefixLen c))) /\
        forall i, f i = true <->
          forall o u, i * 2 ^ (32 - size) <= o < i * 2 ^ (32 - size) + 2 ^ (32 - size) ->
            u ∈ allocations -> ~ covers c u o.
Proof.
  intros HN Hok Hcompat. unfold CalculatePoolStatus. rewrite HN.
  destruct (status_fold c allocations [] (c, ∅)) as (seen & Hseen & Hm & Hu).
  { split; [by eapply marked_new|]. intros u. cbn. set_solver. }
  { done. }
  { intros u v Hu Hv. apply Hcompat; set_solver. }
  destruct (foldl pool_status_step (c, ∅) allocations) as [c' uniq]. cbn [fst snd] in *.
  setoid_rewrite app_nil_r in Hseen. destruct Hm as (Hc' & Hb & Hp & Hbusy).
  eexists _, _. split; [done|]. split.
  - do 2 f_equal. apply leibniz_equiv. intros u.
    rewrite Hu, Hseen, elem_of_filter, elem_of_list_to_set. tauto.
  - intros sz Hsz. exists (block_free c' sz).
    rewrite GetFreeBlockCount_lookup, free_count_loop, Hp by done. split; [done|]. intros i.
    rewrite block_free_true by lia. unfold block_busy. setoid_rewrite Hbusy. split.
    + intros Hn o u Ho Hin Hcov. apply Hn. exists o. split; [done|]. exists u. by rewrite Hseen.
    + intros Hn (o & Ho & u & Hin & Hcov). eapply Hn; [done| |done]. by apply Hseen.
Qed.

Lemma CalculatePoolStatus_counts_witness :
  exists count free,
    CalculatePoolStatus "10.0.0.0/26" ["10.0.0.0/28"; "10.0.0.32/27"; "10.0.0.0/28"] = Ok (count, free).
Proof.
  assert (HN : NewCIDRMap "10.0.0.0/26" = Ok (mkCIDRMap [10; 0; 0; 0] 26 0 28 16))
    by (vm_compute; reflexivity).
  edestruct (CalculatePoolStatus_counts "10.0.0.0/26" _
    ["10.0.0.0/28"; "10.0.0.32/27"; "10.0.0.0/28"] HN) as (count & free & H & _).
  - intros u Hu. rewrite !elem_of_cons, elem_of_nil in Hu.
    destruct Hu as [->|[->|[->|[]]]]; vm_compute; reflexivity.
  - intros u v Hu Hv. rewrite !elem_of_cons, elem_of_nil in Hu, Hv.
    destruct Hu as [->|[->|[->|[]]]], Hv as [->|[->|[->|[]]]];
      intros Ho; vm_compute in Ho; (discriminate Ho || (vm_compute; reflexivity)).
  - exists count, free. exact H.
Defined.
