(* ===== verification/GoJson.v ===== *)
(** The part of Go's [encoding/json] that the configuration uses: syntax of a
    JSON text, and storing its values into fields of a struct. *)

From Stdlib Require Import SpecFloat.
From S2P Require Import Prelude GoNet Bitmap GoFloat.

(** * Syntax *)

(** A number keeps its text; the members of an object keep order and
    duplicates. *)
Inductive json : Type :=
| JNull
| JBool (b : bool)
| JNum (text : string)
| JStr (s : string)
| JArr (l : list json)
| JObj (l : list (string * json)).

Definition is_space (c : ascii) : bool :=
  bool_decide (char_code c ∈ [32; 9; 13; 10]).

Fixpoint skip_space (s : string) : string :=
  match s with String c s' => if is_space c then skip_space s' else s | EmptyString => s end.

Fixpoint digits (s : string) : string * string :=
  match s with
  | String c s' => if is_digit c then let '(d, r) := digits s' in (String c d, r) else ("", s)
  | EmptyString => ("", s)
  end.

(** The text after the given character. *)
Definition next_is (c : ascii) (s : string) : option string :=
  match s with String a r => if bool_decide (a = c) then Some r else None | EmptyString => None end.

(** At least one digit; and an integer part without a superfluous zero. *)
Definition digits1 (s : string) : option (string * string) :=
  let '(d, r) := digits s in if bool_decide (d = "") then None else Some (d, r).

Definition int_part (s : string) : option (string * string) :=
  match next_is "0"%char s with Some r => Some ("0", r) | None => digits1 s end.

Definition frac_part (s : string) : option (string * string) :=
  match next_is "."%char s with
  | Some r => '(d, r) ← digits1 r; Some ("." +:+ d, r)
  | None => Some ("", s)
  end.

Definition sign_part (s : string) : string * string :=
  match next_is "+"%char s, next_is "-"%char s with
  | Some r, _ => ("+", r)
  | _, Some r => ("-", r)
  | _, _ => ("", s)
  end.

Definition exp_part (s : string) : option (string * string) :=
  match s with
  | String c r =>
      if bool_decide (c = "e"%char) || bool_decide (c = "E"%char) then
        let '(sign, r) := sign_part r in
        '(d, r) ← digits1 r; Some (String c (sign +:+ d), r)
      else Some ("", s)
  | EmptyString => Some ("", s)
  end.

Definition number (s : string) : option (string * string) :=
  let '(sign, s) := match next_is "-"%char s with Some r => ("-", r) | None => ("", s) end in
  '(i, s) ← int_part s; '(f, s) ← frac_part s; '(e, s) ← exp_part s;
  Some (sign +:+ i +:+ f +:+ e, s).

Definition hex_val (c : ascii) : option Z :=
  let n := char_code c in
  if (48 <=? n) && (n <=? 57) then Some (n - 48)
  else if (97 <=? n) && (n <=? 102) then Some (n - 87)
  else if (65 <=? n) && (n <=? 70) then Some (n - 55) else None.

Definition hex4 (s : string) : option (Z * string) :=
  match s with
  | String a (String b (String c (String d r))) =>
      a ← hex_val a; b ← hex_val b; c ← hex_val c; d ← hex_val d; Some (((a * 16 + b) * 16 + c) * 16 + d, r)
  | _ => None
  end.

Definition chr (n : Z) : ascii := ascii_of_N (Z.to_N n).

(** UTF-8 encoding of a rune. *)
Definition utf8 (r : Z) : string :=
  if r <? 128 then String (chr r) ""
  else if r <? 2048 then String (chr (192 + r / 64)) (String (chr (128 + r mod 64)) "")
  else if r <? 65536 then
    String (chr (224 + r / 4096)) (String (chr (128 + r / 64 mod 64)) (String (chr (128 + r mod 64)) ""))
  else String (chr (240 + r / 262144)) (String (chr (128 + r / 4096 mod 64))
         (String (chr (128 + r / 64 mod 64)) (String (chr (128 + r mod 64)) ""))).

Definition replacement : Z := 65533.

(** A [\u] escape after its first four digits: a surrogate pair is one rune,
    a lone surrogate the replacement character. *)
Definition unicode (r : Z) (s : string) : Z * string :=
  if (55296 <=? r) && (r <? 57344) then
    match (r1 ← next_is "\"%char s; r1 ← next_is "u"%char r1; hex4 r1) with
    | Some (r2, t) =>
        if (r <? 56320) && (56320 <=? r2) && (r2 <? 57344)
        then (65536 + (r - 55296) * 1024 + (r2 - 56320), t) else (replacement, s)
    | None => (replacement, s)
    end
  else (r, s).

Definition escape (c : ascii) : option ascii :=
  if bool_decide (c ∈ [chr 34; "\"%char; "/"%char]) then Some c
  else if bool_decide (c = "b"%char) then Some (chr 8)
  else if bool_decide (c = "f"%char) then Some (chr 12)
  else if bool_decide (c = "n"%char) then Some (chr 10)
  else if bool_decide (c = "r"%char) then Some (chr 13)
  else if bool_decide (c = "t"%char) then Some (chr 9) else None.

(** The rest of a string literal after the opening quote.  [fuel] is at least
    the length of the text. *)
Fixpoint string_body (fuel : nat) (s : string) : option (string * string) :=
  match fuel with
  | O => None
  | S fuel =>
      match s with
      | EmptyString => None
      | String c s =>
          if char_code c =? 34 then Some ("", s)
          else if char_code c <? 32 then None
          else if bool_decide (c = "\"%char) then
            match s with
            | EmptyString => None
            | String e s =>
                if bool_decide (e = "u"%char) then
                  '(r, s) ← hex4 s;
                  let '(r, s) := unicode r s in
                  '(t, s) ← string_body fuel s; Some (utf8 r +:+ t, s)
                else
                  e ← escape e; '(t, s) ← string_body fuel s; Some (String e t, s)
            end
          else '(t, s) ← string_body fuel s; Some (String c t, s)
      end
  end.

Definition string_lit (s : string) : option (string * string) := string_body (S (String.length s)) s.
Arguments string_lit : simpl never.

Definition maxNestingDepth : Z := 10000.

(** Remove an expected prefix. *)
Fixpoint expect (p s : string) : option string :=
  match p, s with
  | EmptyString, _ => Some s
  | String a p, String b s => if bool_decide (a = b) then expect p s else None
  | String _ _, EmptyString => None
  end.

(** A value after optional space; the elements of an array and the members of
    an object after the first bracket, brace or comma. *)
Fixpoint json_value (fuel : nat) (depth : Z) (s : string) : option (json * string) :=
  match fuel with
  | O => None
  | S fuel =>
      match skip_space s with
      | EmptyString => None
      | String c r =>
          if bool_decide (c = "{"%char) then
            if maxNestingDepth <? depth + 1 then None
            else match next_is "}"%char (skip_space r) with
                 | Some r => Some (JObj [], r)
                 | None => '(ms, r) ← json_members fuel (depth + 1) r; Some (JObj ms, r)
                 end
          else if bool_decide (c = "["%char) then
            if maxNestingDepth <? depth + 1 then None
            else match next_is "]"%char (skip_space r) with
                 | Some r => Some (JArr [], r)
                 | None => '(vs, r) ← json_elements fuel (depth + 1) r; Some (JArr vs, r)
                 end
          else if char_code c =? 34 then '(t, r) ← string_lit r; Some (JStr t, r)
          else if bool_decide (c = "t"%char) then r ← expect "rue" r; Some (JBool true, r)
          else if bool_decide (c = "f"%char) then r ← expect "alse" r; Some (JBool false, r)
          else if bool_decide (c = "n"%char) then r ← expect "ull" r; Some (JNull, r)
          else '(t, r) ← number (String c r); Some (JNum t, r)
      end
  end
with json_elements (fuel : nat) (depth : Z) (s : string) : option (list json * string) :=
  match fuel with
  | O => None
  | S fuel =>
      '(v, r) ← json_value fuel depth s;
      match next_is ","%char (skip_space r) with
      | Some r => '(vs, r) ← json_elements fuel depth r; Some (v :: vs, r)
      | None => r ← next_is "]"%char (skip_space r); Some ([v], r)
      end
  end
with json_members (fuel : nat) (depth : Z) (s : string) : option (list (string * json) * string) :=
  match fuel with
  | O => None
  | S fuel =>
      r ← next_is (chr 34) (skip_space s);
      '(k, r) ← string_lit r;
      r ← next_is ":"%char (skip_space r);
      '(v, r) ← json_value fuel depth r;
      match next_is ","%char (skip_space r) with
      | Some r => '(ms, r) ← json_members fuel depth r; Some ((k, v) :: ms, r)
      | None => r ← next_is "}"%char (skip_space r); Some ([(k, v)], r)
      end
  end.

(** A whole text; [json_fuel] below shows that twice its length is enough fuel. *)
Definition parse_json (s : string) : option json :=
  '(v, r) ← json_value (2 * String.length s + 2) 0 s;
  if bool_decide (skip_space r = "") then Some v else None.

(** * Storing values *)

(** [strconv.ParseFloat(s, 64)] on a JSON number: the decimal [m * 10^e]
    rounded to the nearest binary64; [None] when it is out of range. *)
Definition decimal (m : Z) (e : Z) (neg : bool) : float64 :=
  match m with
  | Z.pos p =>
      if 0 <=? e then binary_normalize 53 1024 (if neg then - (m * 10 ^ e) else m * 10 ^ e) 0 neg
      else let '(mz, ez, lz) := SFdiv_core_binary 53 1024 m 0 (10 ^ (- e)) 0 in
           binary_round_aux 53 1024 neg mz ez lz
  | _ => S754_zero neg
  end.

Definition digits_val (s : string) : Z := default 0 (atoi_digits s 0).

Definition ParseFloat (text : string) : option float64 :=
  let '(neg, s) := match next_is "-"%char text with Some t => (true, t) | None => (false, text) end in
  let '(i, s) := digits s in
  let '(f, s) := match next_is "."%char s with Some t => digits t | None => ("", s) end in
  let e := match s with
           | String _ t => let '(sign, t) := sign_part t in if bool_decide (sign = "-") then - digits_val t else digits_val t
           | EmptyString => 0
           end in
  let v := decimal (digits_val (i +:+ f)) (e - Z.of_nat (String.length f)) neg in
  match v with S754_infinity _ | S754_nan => None | v => Some v end.

(** Names match exactly or, failing that, when they fold to the same text:
    upper case for ASCII letters, and the two other runes that fold to one of
    them, the Kelvin sign and the long s. *)
Definition upper (c : ascii) : ascii :=
  if (97 <=? char_code c) && (char_code c <=? 122) then chr (char_code c - 32) else c.

Fixpoint foldName (s : string) : string :=
  match s with
  | String a ((String b ((String c s3) as s2)) as s1) =>
      if (char_code a =? 226) && (char_code b =? 132) && (char_code c =? 170) then String "K"%char (foldName s3)
      else if (char_code a =? 197) && (char_code b =? 191) then String "S"%char (foldName s2)
      else String (upper a) (foldName s1)
  | String a ((String b EmptyString) as s1) =>
      if (char_code a =? 197) && (char_code b =? 191) then "S" else String (upper a) (foldName s1)
  | String a EmptyString => String (upper a) ""
  | EmptyString => ""
  end.

Fixpoint index_of (p : string -> bool) (names : list string) : option nat :=
  match names with
  | [] => None
  | n :: names => if p n then Some O else S <$> index_of p names
  end.

(** The field a member goes to, by its number. *)
Definition field_of (names : list string) (key : string) : option nat :=
  match index_of (λ n, bool_decide (n = key)) names with
  | Some i => Some i
  | None => index_of (λ n, bool_decide (foldName n = foldName key)) names
  end.

(** A store returns the new value and the type error, if there is one; decoding
    goes on after a type error, and the first one is reported in the end. *)
Definition typeError : error := EPlain "json: cannot unmarshal value into Go struct field".

Definition store_int (cur : Z) (j : json) : Z * option error :=
  match j with
  | JNum t => match Atoi t with Some z => (z, None) | None => (cur, Some typeError) end
  | JNull => (cur, None)
  | _ => (cur, Some typeError)
  end.

Definition store_float (cur : float64) (j : json) : float64 * option error :=
  match j with
  | JNum t => match ParseFloat t with Some f => (f, None) | None => (cur, Some typeError) end
  | JNull => (cur, None)
  | _ => (cur, Some typeError)
  end.

Definition store_bool (cur : bool) (j : json) : bool * option error :=
  match j with
  | JBool b => (b, None)
  | JNull => (cur, None)
  | _ => (cur, Some typeError)
  end.

(** A struct: each member is stored into the field it names; others are
    skipped. *)
Definition store_struct {A} (names : list string) (store : nat -> A -> json -> A * option error) (cur : A) (j : json)
    : A * option error :=
  match j with
  | JObj ms =>
      foldl (λ acc m,
        match field_of names m.1 with
        | Some i => let '(a, e) := store i acc.1 m.2 in
                    (a, match acc.2 with Some e0 => Some e0 | None => e end)
        | None => acc
        end) (cur, None) ms
  | JNull => (cur, None)
  | _ => (cur, Some typeError)
  end.

(** * Field names *)

Lemma index_of_Some p names i : index_of p names = Some i -> exists n, names !! i = Some n /\ p n = true.
Proof.
  revert i. induction names as [|n names IH]; intros i; cbn; [done|]. destruct (p n) eqn:E; [intros [= <-]; eauto|].
  intros (i' & Hi & ->)%fmap_Some. by apply IH.
Qed.

Lemma field_of_Some names key i :
  field_of names key = Some i -> exists n, names !! i = Some n /\ foldName key = foldName n.
Proof.
  unfold field_of. destruct (index_of (λ n, bool_decide (n = key)) names) as [i'|] eqn:E.
  - intros [= <-]. apply index_of_Some in E as (n & Hn & ->%bool_decide_eq_true). eauto.
  - intros (n & Hn & Hk%bool_decide_eq_true)%index_of_Some. eauto.
Qed.

(** * Fuel *)

Notation len := String.length.

Lemma skip_space_len s : (len (skip_space s) <= len s)%nat.
Proof. induction s as [|c s IH]; cbn; [lia|]. destruct (is_space c); cbn; lia. Qed.

Lemma next_is_len c s r : next_is c s = Some r -> len s = S (len r).
Proof. destruct s as [|a s]; cbn; [done|]. case_bool_decide; [|done]. by intros [= ->]. Qed.

Lemma digits_len s d r : digits s = (d, r) -> (len d + len r = len s)%nat.
Proof.
  revert d r. induction s as [|c s IH]; intros d r; cbn; [intros [= <- <-]; done|].
  destruct (is_digit c); [|intros [= <- <-]; done]. destruct (digits s) as [d' r']. intros [= <- <-]. cbn.
  by rewrite (IH d' r').
Qed.

Lemma digits1_len s d r : digits1 s = Some (d, r) -> (len r < len s)%nat.
Proof.
  unfold digits1. destruct (digits s) as [d' r'] eqn:E. apply digits_len in E. case_bool_decide as Hd; [done|].
  intros [= <- <-]. destruct d'; [done|]. cbn in E. lia.
Qed.

Lemma number_len s t r : number s = Some (t, r) -> (len r < len s)%nat.
Proof.
  assert (Hi : forall s i r, int_part s = Some (i, r) -> (len r < len s)%nat).
  { intros s0 i r0. unfold int_part. destruct (next_is _ s0) eqn:E; [|apply digits1_len].
    apply next_is_len in E. intros [= <- <-]. lia. }
  assert (Hf : forall s i r, frac_part s = Some (i, r) -> (len r <= len s)%nat).
  { intros s0 i r0. unfold frac_part. destruct (next_is _ s0) eqn:E; [|intros [= <- <-]; lia].
    apply next_is_len in E. destruct (digits1 s1) as [[d r']|] eqn:Ed; [|done]. apply digits1_len in Ed.
    intros [= <- <-]. lia. }
  assert (He : forall s i r, exp_part s = Some (i, r) -> (len r <= len s)%nat).
  { intros [|c s0] i r0; cbn; [intros [= <- <-]; cbn; lia|]. destruct (_ || _); [|intros [= <- <-]; cbn; lia].
    destruct (sign_part s0) as [sg s1] eqn:Es. assert ((len s1 <= len s0)%nat).
    { unfold sign_part in Es. destruct (next_is "+" s0) eqn:E1; [|destruct (next_is "-" s0) eqn:E2];
        try apply next_is_len in E1; try apply next_is_len in E2; injection Es as <- <-; lia. }
    destruct (digits1 s1) as [[d r']|] eqn:Ed; [|done]. apply digits1_len in Ed. cbn. intros [= <- <-]. lia. }
  unfold number. destruct (match next_is "-" s with Some r => _ | None => _ end) as [sg s1] eqn:Es.
  assert ((len s1 <= len s)%nat).
  { destruct (next_is "-" s) eqn:E; [apply next_is_len in E|]; injection Es as <- <-; lia. }
  destruct (int_part s1) as [[i s2]|] eqn:E1; [|done]. cbn. destruct (frac_part s2) as [[f s3]|] eqn:E2; [|done]. cbn.
  destruct (exp_part s3) as [[e s4]|] eqn:E3; [|done]. cbn. intros [= <- <-].
  apply Hi in E1. apply Hf in E2. apply He in E3. lia.
Qed.

Lemma hex4_len s n r : hex4 s = Some (n, r) -> len s = (4 + len r)%nat.
Proof.
  destruct s as [|a [|b [|c [|d s]]]]; try done. cbn.
  destruct (hex_val a), (hex_val b), (hex_val c), (hex_val d); try done. by intros [= _ <-].
Qed.

Lemma unicode_len n s : (len (unicode n s).2 <= len s)%nat.
Proof.
  unfold unicode. destruct (_ && _); [|cbn; lia]. destruct (next_is "\" s) as [s2|] eqn:E1; [|cbn; lia].
  apply next_is_len in E1. cbn. destruct (next_is "u" s2) as [s3|] eqn:E2; [|cbn; lia]. apply next_is_len in E2. cbn.
  destruct (hex4 s3) as [[n2 s4]|] eqn:E3; [|cbn; lia]. apply hex4_len in E3. destruct (_ && _); cbn; lia.
Qed.

Lemma string_body_len f s t r : string_body f s = Some (t, r) -> (len r < len s)%nat.
Proof.
  revert s t r. induction f as [|f IH]; intros s t r; cbn [string_body]; [done|]. destruct s as [|c s]; [done|].
  destruct (char_code c =? 34); [intros [= <- <-]; cbn; lia|]. destruct (char_code c <? 32); [done|].
  case_bool_decide; [destruct s as [|e s]; [done|]; case_bool_decide|].
  - destruct (hex4 s) as [[n s1]|] eqn:E; [|done]. apply hex4_len in E. cbn.
    pose proof (unicode_len n s1) as Hu.
    destruct (unicode n s1) as [n' s2]. cbn in Hu. destruct (string_body f s2) as [[t' r']|] eqn:Eb; [|done].
    apply IH in Eb. cbn. intros [= <- <-]. lia.
  - destruct (escape e); [|done]. cbn. destruct (string_body f s) as [[t' r']|] eqn:Eb; [|done]. apply IH in Eb.
    cbn. intros [= <- <-]. lia.
  - destruct (string_body f s) as [[t' r']|] eqn:Eb; [|done]. apply IH in Eb. cbn. intros [= <- <-]. lia.
Qed.

Lemma string_body_fuel f f' s : (len s < f)%nat -> (len s < f')%nat -> string_body f s = string_body f' s.
Proof.
  revert f' s. induction f as [|f IH]; intros [|f'] s Hf Hf'; try lia. cbn [string_body]. destruct s as [|c s]; [done|].
  cbn in Hf, Hf'. destruct (_ =? 34); [done|]. destruct (_ <? 32); [done|].
  case_bool_decide; [destruct s as [|e s]; [done|]; cbn in Hf, Hf'; case_bool_decide|].
  - destruct (hex4 s) as [[n s1]|] eqn:E; [|done]. apply hex4_len in E. cbn. pose proof (unicode_len n s1).
    destruct (unicode n s1) as [n' s2]. cbn in *. by rewrite (IH f') by lia.
  - destruct (escape e); [|done]. cbn. by rewrite (IH f') by lia.
  - by rewrite (IH f') by lia.
Qed.

Lemma expect_len p s r : expect p s = Some r -> (len r <= len s)%nat.
Proof.
  revert s. induction p as [|a p IH]; intros s; cbn; [intros [= <-]; lia|]. destruct s as [|b s]; [done|].
  case_bool_decide; [|done]. intros Hr%IH. cbn. lia.
Qed.

(** A parser leaves a shorter text. *)
Definition consumes {A} (p : string -> option (A * string)) : Prop :=
  forall s a r, p s = Some (a, r) -> (len r < len s)%nat.

Lemma json_consumes f :
  (forall d, consumes (json_value f d)) /\ (forall d, consumes (json_elements f d)) /\
  (forall d, consumes (json_members f d)).
Proof.
  induction f as [|f (IHv & IHe & IHm)]; [by split_and!|]. split_and!; intros d s a r.
  - cbn [json_value]. pose proof (skip_space_len s). destruct (skip_space s) as [|c r0]; [done|]. cbn in H.
    pose proof (skip_space_len r0). case_bool_decide; [|case_bool_decide].
    + destruct (_ <? _); [done|]. destruct (next_is "}" _) as [r1|] eqn:E.
      * apply next_is_len in E. intros [= <- <-]. lia.
      * destruct (json_members f (d + 1) r0) as [[ms r1]|] eqn:Em; [|done]. apply IHm in Em. cbn. intros [= <- <-]. lia.
    + destruct (_ <? _); [done|]. destruct (next_is "]" _) as [r1|] eqn:E.
      * apply next_is_len in E. intros [= <- <-]. lia.
      * destruct (json_elements f (d + 1) r0) as [[ms r1]|] eqn:Em; [|done]. apply IHe in Em. cbn. intros [= <- <-]. lia.
    + destruct (char_code c =? 34).
      { destruct (string_lit r0) as [[t r1]|] eqn:E; [|done]. apply string_body_len in E. cbn. intros [= <- <-]. lia. }
      do 3 (case_bool_decide; [destruct (expect _ r0) as [r1|] eqn:E; [|done]; apply expect_len in E; cbn; intros [= <- <-]; lia|]).
      destruct (number (String c r0)) as [[t r1]|] eqn:E; [|done]. apply number_len in E. cbn in E |- *. intros [= <- <-]. lia.
  - cbn [json_elements]. destruct (json_value f d s) as [[v r0]|] eqn:Ev; [|done]. apply IHv in Ev. cbn.
    pose proof (skip_space_len r0). destruct (next_is "," _) as [r1|] eqn:E.
    + apply next_is_len in E. destruct (json_elements f d r1) as [[vs r2]|] eqn:Ee; [|done]. apply IHe in Ee. cbn.
      intros [= <- <-]. lia.
    + destruct (next_is "]" _) as [r1|] eqn:E2; [|done]. apply next_is_len in E2. cbn. intros [= <- <-]. lia.
  - cbn [json_members]. pose proof (skip_space_len s). destruct (next_is (chr 34) _) as [r0|] eqn:E0; [|done].
    apply next_is_len in E0. cbn. destruct (string_lit r0) as [[k r1]|] eqn:Eb; [|done]. apply string_body_len in Eb. cbn.
    pose proof (skip_space_len r1). destruct (next_is ":" _) as [r2|] eqn:E2; [|done]. apply next_is_len in E2. cbn.
    destruct (json_value f d r2) as [[v r3]|] eqn:Ev; [|done]. apply IHv in Ev. cbn. pose proof (skip_space_len r3).
    destruct (next_is "," _) as [r4|] eqn:E4.
    + apply next_is_len in E4. destruct (json_members f d r4) as [[ms r5]|] eqn:Em; [|done]. apply IHm in Em. cbn.
      intros [= <- <-]. lia.
    + destruct (next_is "}" _) as [r4|] eqn:E5; [|done]. apply next_is_len in E5. cbn. intros [= <- <-]. lia.
Qed.

(** More fuel than twice the length (plus a constant) changes nothing. *)
Lemma json_fuel f :
  (forall f' d s, (2 * len s + 1 <= f)%nat -> (2 * len s + 1 <= f')%nat -> json_value f d s = json_value f' d s) /\
  (forall f' d s, (2 * len s + 2 <= f)%nat -> (2 * len s + 2 <= f')%nat -> json_elements f d s = json_elements f' d s) /\
  (forall f' d s, (2 * len s + 2 <= f)%nat -> (2 * len s + 2 <= f')%nat -> json_members f d s = json_members f' d s).
Proof.
  induction f as [|f (IHv & IHe & IHm)]; [split_and!; intros; lia|].
  split_and!; intros [|f'] d s Hf Hf'; try lia.
  - cbn [json_value]. pose proof (skip_space_len s). destruct (skip_space s) as [|c r0]; [done|]. cbn in H.
    by rewrite (IHm f' (d + 1) r0), (IHe f' (d + 1) r0) by lia.
  - cbn [json_elements]. rewrite (IHv f') by lia. destruct (json_value f' d s) as [[v r0]|] eqn:Ev; [|done].
    apply (proj1 (json_consumes f')) in Ev. cbn. pose proof (skip_space_len r0).
    destruct (next_is "," _) as [r1|] eqn:E; [|done]. apply next_is_len in E. by rewrite (IHe f') by lia.
  - cbn [json_members]. pose proof (skip_space_len s). destruct (next_is (chr 34) _) as [r0|] eqn:E0; [|done].
    apply next_is_len in E0. cbn. destruct (string_lit r0) as [[k r1]|] eqn:Eb; [|done]. apply string_body_len in Eb. cbn.
    pose proof (skip_space_len r1). destruct (next_is ":" _) as [r2|] eqn:E2; [|done]. apply next_is_len in E2. cbn.
    rewrite (IHv f') by lia. destruct (json_value f' d r2) as [[v r3]|] eqn:Ev; [|done].
    apply (proj1 (json_consumes f')) in Ev. cbn. pose proof (skip_space_len r3).
    destruct (next_is "," _) as [r4|] eqn:E4; [|done]. apply next_is_len in E4. by rewrite (IHm f') by lia.
Qed.
