(* ===== verification/ApiTypes.v ===== *)
(** [api/v1alpha1]: the four resource types, with the part of Kubernetes'
    object metadata that the controllers read or write.  Field names carry a
    prefix per resource ([sn_] Subnet, [cl_] SubnetClaim, [pl_] SubnetPool,
    [pc_] SubnetPoolClaim); a nil Go map is the empty map, a nil pointer
    [None], a time its value in nanoseconds. *)

From S2P Require Import Prelude.

(** * Object metadata *)

Record NamespacedName : Type := mkKey { key_Namespace : string; key_Name : string }.

#[export] Instance NamespacedName_eq_dec : EqDecision NamespacedName.
Proof. solve_decision. Defined.

#[export] Instance NamespacedName_countable : Countable NamespacedName.
Proof.
  refine (inj_countable' (λ k, (key_Namespace k, key_Name k)) (λ p, mkKey p.1 p.2) _).
  by intros [].
Defined.

Record OwnerReference : Type := mkOwnerReference {
  or_Kind : string; or_Name : string; or_UID : string; or_Controller : bool
}.

#[export] Instance OwnerReference_eq_dec : EqDecision OwnerReference.
Proof. solve_decision. Defined.

Record ObjectMeta : Type := mkObjectMeta {
  Name : string;
  GenerateName : string;
  Namespace : string;
  UID : string;
  Generation : Z;
  Labels : gmap string string;
  Finalizers : list string;
  OwnerReferences : list OwnerReference;
  DeletionTimestamp : option Z
}.

#[export] Instance ObjectMeta_eq_dec : EqDecision ObjectMeta.
Proof. solve_decision. Defined.

(** Metadata of a new object: the zero value with the given fields. *)
Definition new_meta (name generateName namespace : string) (labels : gmap string string) : ObjectMeta :=
  mkObjectMeta name generateName namespace "" 0 labels [] [] None.

Definition object_key (m : ObjectMeta) : NamespacedName := mkKey (Namespace m) (Name m).

Record Condition : Type := mkCondition {
  co_Type : string; co_Status : string; co_ObservedGeneration : Z;
  co_LastTransitionTime : Z; co_Reason : string; co_Message : string
}.

#[export] Instance Condition_eq_dec : EqDecision Condition.
Proof. solve_decision. Defined.

(** * Subnet *)

Record SubnetStatus : Type := mkSubnetStatus {
  sn_Phase : string;
  sn_AllocatedAt : option Z
}.

Definition SubnetPhasePending : string := "Pending".
Definition SubnetPhaseAllocated : string := "Allocated".
Definition SubnetPhaseFailed : string := "Failed".

Record ClaimReference : Type := mkClaimReference { cr_Name : string; cr_UID : string }.

Record SubnetSpec : Type := mkSubnetSpec {
  sn_PoolRef : string;
  sn_CIDR : string;
  sn_ClusterID : string;
  sn_ClaimRef : ClaimReference
}.

Record Subnet : Type := mkSubnet {
  sn_meta : ObjectMeta;
  sn_Spec : SubnetSpec;
  sn_Status : SubnetStatus
}.

#[export] Instance SubnetStatus_eq_dec : EqDecision SubnetStatus.
Proof. solve_decision. Defined.
#[export] Instance ClaimReference_eq_dec : EqDecision ClaimReference.
Proof. solve_decision. Defined.
#[export] Instance SubnetSpec_eq_dec : EqDecision SubnetSpec.
Proof. solve_decision. Defined.
#[export] Instance Subnet_eq_dec : EqDecision Subnet.
Proof. solve_decision. Defined.

(** * SubnetClaim *)

Definition ClaimPending : string := "Pending".
Definition ClaimBound : string := "Bound".
Definition ClaimError : string := "Error".

Record SubnetClaimSpec : Type := mkSubnetClaimSpec {
  cl_PoolRef : string;
  cl_ClusterID : string;
  cl_BlockSize : Z;
  cl_RequestedCIDR : string
}.

Record SubnetClaimStatus : Type := mkSubnetClaimStatus {
  cl_ObservedGeneration : Z;
  cl_Phase : string;
  cl_AllocatedCIDR : string;
  cl_Message : string;
  cl_Conditions : list Condition
}.

Record SubnetClaim : Type := mkSubnetClaim {
  cl_meta : ObjectMeta;
  cl_Spec : SubnetClaimSpec;
  cl_Status : SubnetClaimStatus
}.

#[export] Instance SubnetClaimSpec_eq_dec : EqDecision SubnetClaimSpec.
Proof. solve_decision. Defined.
#[export] Instance SubnetClaimStatus_eq_dec : EqDecision SubnetClaimStatus.
Proof. solve_decision. Defined.
#[export] Instance SubnetClaim_eq_dec : EqDecision SubnetClaim.
Proof. solve_decision. Defined.

(** * SubnetPool *)

Definition StrategyLinear : string := "Linear".
Definition StrategyBuddy : string := "Buddy".

Record SubnetPoolSpec : Type := mkSubnetPoolSpec {
  pl_CIDR : string;
  pl_DefaultBlockSize : Z;
  pl_MinBlockSize : Z;
  pl_MaxBlockSize : Z;
  pl_Strategy : string
}.

Record SubnetPoolStatus : Type := mkSubnetPoolStatus {
  pl_ObservedGeneration : Z;
  pl_AllocatedCount : Z;
  pl_FreeCountBySize : gmap string Z;
  pl_AllocatedCIDRs : gmap string string;
  pl_Conditions : list Condition
}.

Record SubnetPool : Type := mkSubnetPool {
  pl_meta : ObjectMeta;
  pl_Spec : SubnetPoolSpec;
  pl_Status : SubnetPoolStatus
}.

#[export] Instance SubnetPoolSpec_eq_dec : EqDecision SubnetPoolSpec.
Proof. solve_decision. Defined.
#[export] Instance SubnetPoolStatus_eq_dec : EqDecision SubnetPoolStatus.
Proof. solve_decision. Defined.
#[export] Instance SubnetPool_eq_dec : EqDecision SubnetPool.
Proof. solve_decision. Defined.

Definition empty_pool_status : SubnetPoolStatus := mkSubnetPoolStatus 0 0 ∅ ∅ [].

(** * SubnetPoolClaim *)

Definition PoolClaimPending : string := "Pending".
Definition PoolClaimBound : string := "Bound".
Definition PoolClaimError : string := "Error".

Record SubnetPoolClaimSpec : Type := mkSubnetPoolClaimSpec {
  pc_ParentPoolRef : string;
  pc_DesiredBlockSize : Z
}.

Record SubnetPoolClaimStatus : Type := mkSubnetPoolClaimStatus {
  pc_ObservedGeneration : Z;
  pc_Phase : string;
  pc_BoundPoolName : string;
  pc_Message : string;
  pc_Conditions : list Condition
}.

Record SubnetPoolClaim : Type := mkSubnetPoolClaim {
  pc_meta : ObjectMeta;
  pc_Spec : SubnetPoolClaimSpec;
  pc_Status : SubnetPoolClaimStatus
}.

#[export] Instance SubnetPoolClaimSpec_eq_dec : EqDecision SubnetPoolClaimSpec.
Proof. solve_decision. Defined.
#[export] Instance SubnetPoolClaimStatus_eq_dec : EqDecision SubnetPoolClaimStatus.
Proof. solve_decision. Defined.
#[export] Instance SubnetPoolClaim_eq_dec : EqDecision SubnetPoolClaim.
Proof. solve_decision. Defined.
