(* ===== verification/DeepCopy.v ===== *)
(** [api/v1alpha1/zz_generated.deepcopy.go]: the copy functions of the resource
    types over an explicit heap.  Elsewhere in the development an object is a
    value; here it is what Go has: structs with pointers, maps and slices
    that two objects may share.  The theorem says that a deep copy has the
    value of the original and shares nothing with it, which is what the
    status updates rely on when they copy an object before they change it. *)

From S2P Require Import Prelude ApiTypes.

(** * Structs on the heap *)

Definition loc : Type := positive.

Record TypeMeta : Type := mkTypeMeta { Kind : string; APIVersion : string }.

(** Structs of the repository with their reference fields as locations; [None]
    is nil.  Specs have no reference fields and are the records of [ApiTypes]. *)
Record hSubnetStatus : Type := mkHSubnetStatus { h_Phase : string; h_AllocatedAt : option loc }.

(** [SubnetClaimStatus] and [SubnetPoolClaimStatus]: five fields each, the last
    one the slice of conditions. *)
Record hSubnetClaimStatus : Type := mkHSubnetClaimStatus {
  h_cl_ObservedGeneration : Z; h_cl_Phase : string; h_cl_AllocatedCIDR : string; h_cl_Message : string;
  h_cl_Conditions : option loc
}.

Record hSubnetPoolClaimStatus : Type := mkHSubnetPoolClaimStatus {
  h_pc_ObservedGeneration : Z; h_pc_Phase : string; h_pc_BoundPoolName : string; h_pc_Message : string;
  h_pc_Conditions : option loc
}.

Record hSubnetPoolStatus : Type := mkHSubnetPoolStatus {
  h_pl_ObservedGeneration : Z; h_pl_AllocatedCount : Z;
  h_FreeCountBySize : option loc; h_AllocatedCIDRs : option loc; h_pl_Conditions : option loc
}.

(** The four resources have the same shape, and so have the four lists. *)
Record hObject (M Sp St : Type) : Type := mkHObject {
  h_TypeMeta : TypeMeta; h_ObjectMeta : M; h_Spec : Sp; h_Status : St
}.
Arguments mkHObject {_ _ _} _ _ _ _.
Arguments h_TypeMeta {_ _ _} _.
Arguments h_ObjectMeta {_ _ _} _.
Arguments h_Spec {_ _ _} _.
Arguments h_Status {_ _ _} _.

Record hList (L : Type) : Type := mkHList { h_ListType : TypeMeta; h_ListMeta : L; h_Items : option loc }.
Arguments mkHList {_} _ _ _.
Arguments h_ListType {_} _.
Arguments h_ListMeta {_} _.
Arguments h_Items {_} _.

(** What a location may hold.  [M] and [L] are the representations of the
    object and list metadata, types of the Kubernetes library; the string
    slices and owner references are there for them. *)
Inductive cell (M L : Type) : Type :=
| CTime (t : Z)
| CConditions (l : list Condition)
| CIntMap (m : gmap string Z)
| CStrMap (m : gmap string string)
| CStrings (l : list string)
| COwners (l : list OwnerReference)
| CClaimReference (o : ClaimReference)
| CSubnetSpec (o : SubnetSpec)
| CSubnetStatus (o : hSubnetStatus)
| CSubnet (o : hObject M SubnetSpec hSubnetStatus)
| CSubnets (l : list (hObject M SubnetSpec hSubnetStatus))
| CSubnetList (o : hList L)
| CSubnetClaimSpec (o : SubnetClaimSpec)
| CSubnetClaimStatus (o : hSubnetClaimStatus)
| CSubnetClaim (o : hObject M SubnetClaimSpec hSubnetClaimStatus)
| CSubnetClaims (l : list (hObject M SubnetClaimSpec hSubnetClaimStatus))
| CSubnetClaimList (o : hList L)
| CSubnetPoolSpec (o : SubnetPoolSpec)
| CSubnetPoolStatus (o : hSubnetPoolStatus)
| CSubnetPool (o : hObject M SubnetPoolSpec hSubnetPoolStatus)
| CSubnetPools (l : list (hObject M SubnetPoolSpec hSubnetPoolStatus))
| CSubnetPoolList (o : hList L)
| CSubnetPoolClaimSpec (o : SubnetPoolClaimSpec)
| CSubnetPoolClaimStatus (o : hSubnetPoolClaimStatus)
| CSubnetPoolClaim (o : hObject M SubnetPoolClaimSpec hSubnetPoolClaimStatus)
| CSubnetPoolClaims (l : list (hObject M SubnetPoolClaimSpec hSubnetPoolClaimStatus))
| CSubnetPoolClaimList (o : hList L).

Arguments CTime {_ _} _.
Arguments CConditions {_ _} _.
Arguments CIntMap {_ _} _.
Arguments CStrMap {_ _} _.
Arguments CStrings {_ _} _.
Arguments COwners {_ _} _.
Arguments CClaimReference {_ _} _.
Arguments CSubnetSpec {_ _} _.
Arguments CSubnetStatus {_ _} _.
Arguments CSubnet {_ _} _.
Arguments CSubnets {_ _} _.
Arguments CSubnetList {_ _} _.
Arguments CSubnetClaimSpec {_ _} _.
Arguments CSubnetClaimStatus {_ _} _.
Arguments CSubnetClaim {_ _} _.
Arguments CSubnetClaims {_ _} _.
Arguments CSubnetClaimList {_ _} _.
Arguments CSubnetPoolSpec {_ _} _.
Arguments CSubnetPoolStatus {_ _} _.
Arguments CSubnetPool {_ _} _.
Arguments CSubnetPools {_ _} _.
Arguments CSubnetPoolList {_ _} _.
Arguments CSubnetPoolClaimSpec {_ _} _.
Arguments CSubnetPoolClaimStatus {_ _} _.
Arguments CSubnetPoolClaim {_ _} _.
Arguments CSubnetPoolClaims {_ _} _.
Arguments CSubnetPoolClaimList {_ _} _.

(** A type whose values are stored in one kind of cell. *)
Record embedding (C T : Type) : Type := mkEmbedding {
  to_cell : T -> C;
  of_cell : C -> option T;
  of_to_cell t : of_cell (to_cell t) = Some t
}.
Arguments mkEmbedding {_ _} _ _ _.
Arguments to_cell {_ _} _ _.
Arguments of_cell {_ _} _ _.
Arguments of_to_cell {_ _} _ _.

Section Heap.
Context {M L : Type}.
Notation heap := (gmap loc (cell M L)).

Definition in_Time : embedding (cell M L) _ :=
  mkEmbedding CTime (λ c, match c with CTime x => Some x | _ => None end) (λ _, eq_refl).
Definition in_Conditions : embedding (cell M L) _ :=
  mkEmbedding CConditions (λ c, match c with CConditions x => Some x | _ => None end) (λ _, eq_refl).
Definition in_IntMap : embedding (cell M L) _ :=
  mkEmbedding CIntMap (λ c, match c with CIntMap x => Some x | _ => None end) (λ _, eq_refl).
Definition in_StrMap : embedding (cell M L) _ :=
  mkEmbedding CStrMap (λ c, match c with CStrMap x => Some x | _ => None end) (λ _, eq_refl).
Definition in_Strings : embedding (cell M L) _ :=
  mkEmbedding CStrings (λ c, match c with CStrings x => Some x | _ => None end) (λ _, eq_refl).
Definition in_Owners : embedding (cell M L) _ :=
  mkEmbedding COwners (λ c, match c with COwners x => Some x | _ => None end) (λ _, eq_refl).
Definition in_ClaimReference : embedding (cell M L) _ :=
  mkEmbedding CClaimReference (λ c, match c with CClaimReference x => Some x | _ => None end) (λ _, eq_refl).
Definition in_SubnetSpec : embedding (cell M L) _ :=
  mkEmbedding CSubnetSpec (λ c, match c with CSubnetSpec x => Some x | _ => None end) (λ _, eq_refl).
Definition in_SubnetStatus : embedding (cell M L) _ :=
  mkEmbedding CSubnetStatus (λ c, match c with CSubnetStatus x => Some x | _ => None end) (λ _, eq_refl).
Definition in_Subnet : embedding (cell M L) _ :=
  mkEmbedding CSubnet (λ c, match c with CSubnet x => Some x | _ => None end) (λ _, eq_refl).
Definition in_Subnets : embedding (cell M L) _ :=
  mkEmbedding CSubnets (λ c, match c with CSubnets x => Some x | _ => None end) (λ _, eq_refl).
Definition in_SubnetList : embedding (cell M L) _ :=
  mkEmbedding CSubnetList (λ c, match c with CSubnetList x => Some x | _ => None end) (λ _, eq_refl).
Definition in_SubnetClaimSpec : embedding (cell M L) _ :=
  mkEmbedding CSubnetClaimSpec (λ c, match c with CSubnetClaimSpec x => Some x | _ => None end) (λ _, eq_refl).
Definition in_SubnetClaimStatus : embedding (cell M L) _ :=
  mkEmbedding CSubnetClaimStatus (λ c, match c with CSubnetClaimStatus x => Some x | _ => None end) (λ _, eq_refl).
Definition in_SubnetClaim : embedding (cell M L) _ :=
  mkEmbedding CSubnetClaim (λ c, match c with CSubnetClaim x => Some x | _ => None end) (λ _, eq_refl).
Definition in_SubnetClaims : embedding (cell M L) _ :=
  mkEmbedding CSubnetClaims (λ c, match c with CSubnetClaims x => Some x | _ => None end) (λ _, eq_refl).
Definition in_SubnetClaimList : embedding (cell M L) _ :=
  mkEmbedding CSubnetClaimList (λ c, match c with CSubnetClaimList x => Some x | _ => None end) (λ _, eq_refl).
Definition in_SubnetPoolSpec : embedding (cell M L) _ :=
  mkEmbedding CSubnetPoolSpec (λ c, match c with CSubnetPoolSpec x => Some x | _ => None end) (λ _, eq_refl).
Definition in_SubnetPoolStatus : embedding (cell M L) _ :=
  mkEmbedding CSubnetPoolStatus (λ c, match c with CSubnetPoolStatus x => Some x | _ => None end) (λ _, eq_refl).
Definition in_SubnetPool : embedding (cell M L) _ :=
  mkEmbedding CSubnetPool (λ c, match c with CSubnetPool x => Some x | _ => None end) (λ _, eq_refl).
Definition in_SubnetPools : embedding (cell M L) _ :=
  mkEmbedding CSubnetPools (λ c, match c with CSubnetPools x => Some x | _ => None end) (λ _, eq_refl).
Definition in_SubnetPoolList : embedding (cell M L) _ :=
  mkEmbedding CSubnetPoolList (λ c, match c with CSubnetPoolList x => Some x | _ => None end) (λ _, eq_refl).
Definition in_SubnetPoolClaimSpec : embedding (cell M L) _ :=
  mkEmbedding CSubnetPoolClaimSpec (λ c, match c with CSubnetPoolClaimSpec x => Some x | _ => None end) (λ _, eq_refl).
Definition in_SubnetPoolClaimStatus : embedding (cell M L) _ :=
  mkEmbedding CSubnetPoolClaimStatus (λ c, match c with CSubnetPoolClaimStatus x => Some x | _ => None end) (λ _, eq_refl).
Definition in_SubnetPoolClaim : embedding (cell M L) _ :=
  mkEmbedding CSubnetPoolClaim (λ c, match c with CSubnetPoolClaim x => Some x | _ => None end) (λ _, eq_refl).
Definition in_SubnetPoolClaims : embedding (cell M L) _ :=
  mkEmbedding CSubnetPoolClaims (λ c, match c with CSubnetPoolClaims x => Some x | _ => None end) (λ _, eq_refl).
Definition in_SubnetPoolClaimList : embedding (cell M L) _ :=
  mkEmbedding CSubnetPoolClaimList (λ c, match c with CSubnetPoolClaimList x => Some x | _ => None end) (λ _, eq_refl).

(** Heap-passing computations; [None] is a dangling or ill-typed reference,
    which Go's types exclude. *)
Definition heapM (A : Type) : Type := heap -> option (A * heap).

#[local] Instance heapM_ret : MRet heapM := λ A a h, Some (a, h).
#[local] Instance heapM_bind : MBind heapM := λ A B f m h,
  match m h with Some (a, h') => f a h' | None => None end.

Definition load {T} (e : embedding (cell M L) T) (l : loc) : heapM T := λ h,
  t ← h !! l ≫= of_cell e; Some (t, h).

(** [new], [make] and composite literals: a location not in use. *)
Definition alloc (c : cell M L) : heapM loc := λ h, let l := fresh (dom h) in Some (l, <[l := c]> h).

(** * Model *)

(** [for key, val := range *in { ( *out)[key] = val }] *)
Definition copy_map {V} (m : gmap string V) : gmap string V :=
  foldl (λ out kv, <[kv.1 := kv.2]> out) ∅ (map_to_list m).

(** The loop over a slice of conditions; a condition has no reference fields. *)
Definition copy_conditions (l : list Condition) : list Condition := (λ c, c) <$> l.

(** A reference field: nil stays nil, otherwise the referenced value is copied
    into a new location. *)
Definition copy_ref {T} (e : embedding (cell M L) T) (dup : T -> T) (r : option loc) : heapM (option loc) :=
  match r with
  | None => mret None
  | Some l => x ← load e l; l' ← alloc (to_cell e (dup x)); mret (Some l')
  end.

(** A slice of structs: every element is copied with its own function. *)
Definition copy_items {T} (e : embedding (cell M L) (list T)) (copy : T -> heapM T) (r : option loc)
    : heapM (option loc) :=
  match r with
  | None => mret None
  | Some l => items ← load e l; out ← mapM copy items; l' ← alloc (to_cell e out); mret (Some l')
  end.

Definition ClaimReference_DeepCopyInto (in_ : ClaimReference) : heapM ClaimReference := mret in_.

Definition SubnetSpec_DeepCopyInto (in_ : SubnetSpec) : heapM SubnetSpec :=
  let out := in_ in
  mret (mkSubnetSpec (sn_PoolRef out) (sn_CIDR out) (sn_ClusterID out) (sn_ClaimRef in_)).

Definition SubnetClaimSpec_DeepCopyInto (in_ : SubnetClaimSpec) : heapM SubnetClaimSpec := mret in_.
Definition SubnetPoolSpec_DeepCopyInto (in_ : SubnetPoolSpec) : heapM SubnetPoolSpec := mret in_.
Definition SubnetPoolClaimSpec_DeepCopyInto (in_ : SubnetPoolClaimSpec) : heapM SubnetPoolClaimSpec := mret in_.

Definition SubnetStatus_DeepCopyInto (in_ : hSubnetStatus) : heapM hSubnetStatus :=
  let out := in_ in
  t ← copy_ref in_Time id (h_AllocatedAt in_);
  mret (mkHSubnetStatus (h_Phase out) t).

Definition SubnetClaimStatus_DeepCopyInto (in_ : hSubnetClaimStatus) : heapM hSubnetClaimStatus :=
  let out := in_ in
  conditions ← copy_ref in_Conditions copy_conditions (h_cl_Conditions in_);
  mret (mkHSubnetClaimStatus (h_cl_ObservedGeneration out) (h_cl_Phase out) (h_cl_AllocatedCIDR out)
          (h_cl_Message out) conditions).

Definition SubnetPoolClaimStatus_DeepCopyInto (in_ : hSubnetPoolClaimStatus) : heapM hSubnetPoolClaimStatus :=
  let out := in_ in
  conditions ← copy_ref in_Conditions copy_conditions (h_pc_Conditions in_);
  mret (mkHSubnetPoolClaimStatus (h_pc_ObservedGeneration out) (h_pc_Phase out) (h_pc_BoundPoolName out)
          (h_pc_Message out) conditions).

Definition SubnetPoolStatus_DeepCopyInto (in_ : hSubnetPoolStatus) : heapM hSubnetPoolStatus :=
  let out := in_ in
  free ← copy_ref in_IntMap copy_map (h_FreeCountBySize in_);
  cidrs ← copy_ref in_StrMap copy_map (h_AllocatedCIDRs in_);
  conditions ← copy_ref in_Conditions copy_conditions (h_pl_Conditions in_);
  mret (mkHSubnetPoolStatus (h_pl_ObservedGeneration out) (h_pl_AllocatedCount out) free cidrs conditions).

(** [ObjectMeta.DeepCopyInto] and [ListMeta.DeepCopyInto] of the Kubernetes
    library. *)
Context (copy_meta : M -> heapM M) (copy_list_meta : L -> heapM L).

(** The shape of the four resources' functions. *)
Definition object_DeepCopyInto {Sp St} (copy_status : St -> heapM St) (in_ : hObject M Sp St) : heapM (hObject M Sp St) :=
  meta ← copy_meta (h_ObjectMeta in_);
  status ← copy_status (h_Status in_);
  mret (mkHObject (h_TypeMeta in_) meta (h_Spec in_) status).

Definition Subnet_DeepCopyInto := object_DeepCopyInto (Sp := SubnetSpec) SubnetStatus_DeepCopyInto.
Definition SubnetClaim_DeepCopyInto := object_DeepCopyInto (Sp := SubnetClaimSpec) SubnetClaimStatus_DeepCopyInto.
Definition SubnetPool_DeepCopyInto := object_DeepCopyInto (Sp := SubnetPoolSpec) SubnetPoolStatus_DeepCopyInto.
Definition SubnetPoolClaim_DeepCopyInto :=
  object_DeepCopyInto (Sp := SubnetPoolClaimSpec) SubnetPoolClaimStatus_DeepCopyInto.

(** The shape of the four lists' functions. *)
Definition list_DeepCopyInto {T} (e : embedding (cell M L) (list T)) (copy : T -> heapM T) (in_ : hList L)
    : heapM (hList L) :=
  meta ← copy_list_meta (h_ListMeta in_);
  items ← copy_items e copy (h_Items in_);
  mret (mkHList (h_ListType in_) meta items).

Definition SubnetList_DeepCopyInto := list_DeepCopyInto in_Subnets Subnet_DeepCopyInto.
Definition SubnetClaimList_DeepCopyInto := list_DeepCopyInto in_SubnetClaims SubnetClaim_DeepCopyInto.
Definition SubnetPoolList_DeepCopyInto := list_DeepCopyInto in_SubnetPools SubnetPool_DeepCopyInto.
Definition SubnetPoolClaimList_DeepCopyInto := list_DeepCopyInto in_SubnetPoolClaims SubnetPoolClaim_DeepCopyInto.

(** [DeepCopy]: a nil receiver gives nil, otherwise a new struct is filled by
    [DeepCopyInto].  All seventeen functions have this body. *)
Definition deep_copy {T} (e : embedding (cell M L) T) (DeepCopyInto : T -> heapM T) (in_ : option loc)
    : heapM (option loc) :=
  match in_ with
  | None => mret None
  | Some p => x ← load e p; out ← DeepCopyInto x; l ← alloc (to_cell e out); mret (Some l)
  end.

Definition ClaimReference_DeepCopy := deep_copy in_ClaimReference ClaimReference_DeepCopyInto.
Definition Subnet_DeepCopy := deep_copy in_Subnet Subnet_DeepCopyInto.
Definition SubnetClaim_DeepCopy := deep_copy in_SubnetClaim SubnetClaim_DeepCopyInto.
Definition SubnetClaimList_DeepCopy := deep_copy in_SubnetClaimList SubnetClaimList_DeepCopyInto.
Definition SubnetClaimSpec_DeepCopy := deep_copy in_SubnetClaimSpec SubnetClaimSpec_DeepCopyInto.
Definition SubnetClaimStatus_DeepCopy := deep_copy in_SubnetClaimStatus SubnetClaimStatus_DeepCopyInto.
Definition SubnetList_DeepCopy := deep_copy in_SubnetList SubnetList_DeepCopyInto.
Definition SubnetPool_DeepCopy := deep_copy in_SubnetPool SubnetPool_DeepCopyInto.
Definition SubnetPoolClaim_DeepCopy := deep_copy in_SubnetPoolClaim SubnetPoolClaim_DeepCopyInto.
Definition SubnetPoolClaimList_DeepCopy := deep_copy in_SubnetPoolClaimList SubnetPoolClaimList_DeepCopyInto.
Definition SubnetPoolClaimSpec_DeepCopy := deep_copy in_SubnetPoolClaimSpec SubnetPoolClaimSpec_DeepCopyInto.
Definition SubnetPoolClaimStatus_DeepCopy := deep_copy in_SubnetPoolClaimStatus SubnetPoolClaimStatus_DeepCopyInto.
Definition SubnetPoolList_DeepCopy := deep_copy in_SubnetPoolList SubnetPoolList_DeepCopyInto.
Definition SubnetPoolSpec_DeepCopy := deep_copy in_SubnetPoolSpec SubnetPoolSpec_DeepCopyInto.
Definition SubnetPoolStatus_DeepCopy := deep_copy in_SubnetPoolStatus SubnetPoolStatus_DeepCopyInto.
Definition SubnetSpec_DeepCopy := deep_copy in_SubnetSpec SubnetSpec_DeepCopyInto.
Definition SubnetStatus_DeepCopy := deep_copy in_SubnetStatus SubnetStatus_DeepCopyInto.

(** [runtime.Object]: a pointer to one of the eight registered types. *)
Inductive Object : Type :=
| OSubnet (p : loc) | OSubnetList (p : loc) | OSubnetClaim (p : loc) | OSubnetClaimList (p : loc)
| OSubnetPool (p : loc) | OSubnetPoolList (p : loc) | OSubnetPoolClaim (p : loc) | OSubnetPoolClaimList (p : loc).

(** [DeepCopyObject]: the interface is nil for a nil copy. *)
Definition deep_copy_object (copy : option loc -> heapM (option loc)) (wrap : loc -> Object) (in_ : option loc)
    : heapM (option Object) :=
  c ← copy in_; mret (match c with Some c => Some (wrap c) | None => None end).

Definition Subnet_DeepCopyObject := deep_copy_object Subnet_DeepCopy OSubnet.
Definition SubnetClaim_DeepCopyObject := deep_copy_object SubnetClaim_DeepCopy OSubnetClaim.
Definition SubnetClaimList_DeepCopyObject := deep_copy_object SubnetClaimList_DeepCopy OSubnetClaimList.
Definition SubnetList_DeepCopyObject := deep_copy_object SubnetList_DeepCopy OSubnetList.
Definition SubnetPool_DeepCopyObject := deep_copy_object SubnetPool_DeepCopy OSubnetPool.
Definition SubnetPoolClaim_DeepCopyObject := deep_copy_object SubnetPoolClaim_DeepCopy OSubnetPoolClaim.
Definition SubnetPoolClaimList_DeepCopyObject := deep_copy_object SubnetPoolClaimList_DeepCopy OSubnetPoolClaimList.
Definition SubnetPoolList_DeepCopyObject := deep_copy_object SubnetPoolList_DeepCopy OSubnetPoolList.

(** * Values *)

(** What a struct means in a heap, and the locations it reaches. *)
Record view (T V : Type) : Type := mkView {
  value : heap -> T -> option V;
  reach : heap -> T -> gset loc
}.
Arguments mkView {_ _} _ _.
Arguments value {_ _} _ _ _.
Arguments reach {_ _} _ _ _.

Definition plain {T} : view T T := mkView (λ _ t, Some t) (λ _ _, ∅).

Definition referenced {T} (e : embedding (cell M L) T) : view (option loc) (option T) :=
  mkView (λ h r, match r with None => Some None | Some l => x ← h !! l ≫= of_cell e; Some (Some x) end)
         (λ _ r, match r with None => ∅ | Some l => {[l]} end).

Definition items_at {T} (e : embedding (cell M L) (list T)) (h : heap) (l : loc) : list T :=
  default [] (h !! l ≫= of_cell e).

Definition slice {T V} (e : embedding (cell M L) (list T)) (vw : view T V) : view (option loc) (option (list V)) :=
  mkView (λ h r, match r with
                 | None => Some None
                 | Some l => items ← h !! l ≫= of_cell e; vs ← mapM (value vw h) items; Some (Some vs)
                 end)
         (λ h r, match r with None => ∅ | Some l => {[l]} ∪ ⋃ (reach vw h <$> items_at e h l) end).

(** Two fields and the rest of a struct. *)
Definition fields {T A B VA VB R} (rest : T -> R) (fa : T -> A) (fb : T -> B) (va : view A VA) (vb : view B VB)
    : view T (R * VA * VB) :=
  mkView (λ h t, a ← value va h (fa t); b ← value vb h (fb t); Some (rest t, a, b))
         (λ h t, reach va h (fa t) ∪ reach vb h (fb t)).

(** * Laws of a copy function *)

Lemma heapM_step {A B} (m : heapM A) (f : A -> heapM B) h a h' : m h = Some (a, h') -> (m ≫= f) h = f a h'.
Proof. unfold mbind, heapM_bind. by intros ->. Qed.

(** The value of a struct depends on what it reaches only, which is allocated;
    the copy exists, changes nothing that was allocated, has the same value
    and reaches new locations only. *)
Record copies {T V} (vw : view T V) (copy : T -> heapM T) : Prop := {
  copies_frame h h' t : (forall l, l ∈ reach vw h t -> h' !! l = h !! l) ->
    value vw h' t = value vw h t /\ reach vw h' t = reach vw h t;
  copies_alloc h t v : value vw h t = Some v -> reach vw h t ⊆ dom h;
  copies_copy h t v : value vw h t = Some v ->
    exists t' h', copy t h = Some (t', h') /\ h ⊆ h' /\ value vw h' t' = Some v /\ reach vw h' t' ## dom h
}.

(** Values survive allocation. *)
Lemma copies_grow {T V} (vw : view T V) copy h h' t v :
  copies vw copy -> h ⊆ h' -> value vw h t = Some v -> value vw h' t = Some v /\ reach vw h' t = reach vw h t.
Proof.
  intros Hc Hsub Hv. destruct (copies_frame _ _ Hc h h' t) as [-> ->]; [|done].
  intros l Hl. pose proof (copies_alloc _ _ Hc _ _ _ Hv l Hl) as [x Hx]%elem_of_dom.
  rewrite Hx. by eapply lookup_weaken.
Qed.

Lemma alloc_grow (c : cell M L) (h : heap) : h ⊆ <[fresh (dom h) := c]> h.
Proof. apply insert_subseteq, not_elem_of_dom, is_fresh. Qed.

Lemma copies_plain {T} (copy : T -> heapM T) : (forall t, copy t = mret t) -> copies plain copy.
Proof.
  intros Hc. constructor; [done|by intros; set_solver|]. intros h t v [= <-]. exists t, h. rewrite Hc. done.
Qed.

Lemma copies_ref {T} (e : embedding (cell M L) T) dup :
  (forall x, dup x = x) -> copies (referenced e) (copy_ref e dup).
Proof.
  intros Hd. constructor.
  - intros h h' [l|] Hl; cbn in *; [|done]. by rewrite Hl by set_solver.
  - intros h [l|] v; cbn; [|set_solver]. destruct (h !! l) eqn:E; [|done]. intros _.
    apply singleton_subseteq_l, elem_of_dom. by rewrite E.
  - intros h [l|] v; cbn.
    + destruct (h !! l ≫= of_cell e) as [x|] eqn:E; [|done]. cbn. intros [= <-]. do 2 eexists. split.
      { unfold copy_ref. rewrite (heapM_step _ _ _ x h) by (unfold load; by rewrite E). done. }
      split; [apply alloc_grow|]. cbn. rewrite lookup_insert_eq. cbn. rewrite of_to_cell, Hd. split; [done|].
      apply disjoint_singleton_l, is_fresh.
    + intros [= <-]. exists None, h. by split_and!.
Qed.

(** A struct is copied by copying its two fields in turn. *)
Lemma copies_fields {T A B VA VB R} (rest : T -> R) (fa : T -> A) (fb : T -> B) (va : view A VA) (vb : view B VB)
    ca cb (mk : T -> A -> B -> T) (copy : T -> heapM T) :
  copies va ca -> copies vb cb ->
  (forall t a b, rest (mk t a b) = rest t /\ fa (mk t a b) = a /\ fb (mk t a b) = b) ->
  (forall t h, copy t h = (a ← ca (fa t); b ← cb (fb t); mret (mk t a b)) h) ->
  copies (fields rest fa fb va vb) copy.
Proof.
  intros Ha Hb Hmk Hcopy. constructor.
  - intros h h' t Hl. cbn in *.
    destruct (copies_frame _ _ Ha h h' (fa t)) as [-> ->]; [intros l ?; apply Hl; set_solver|].
    destruct (copies_frame _ _ Hb h h' (fb t)) as [-> ->]; [intros l ?; apply Hl; set_solver|]. done.
  - intros h t v. cbn. destruct (value va h (fa t)) eqn:Ea; cbn; [|done].
    destruct (value vb h (fb t)) eqn:Eb; cbn; [|done]. intros _.
    apply union_subseteq. split; by eapply copies_alloc.
  - intros h t v. cbn. destruct (value va h (fa t)) as [x|] eqn:Ea; cbn; [|done].
    destruct (value vb h (fb t)) as [y|] eqn:Eb; cbn; [|done]. intros [= <-].
    destruct (copies_copy _ _ Ha _ _ _ Ea) as (a & h1 & Ea1 & Hs1 & Va & Da).
    destruct (copies_grow _ _ _ _ _ _ Hb Hs1 Eb) as [Eb1 _].
    destruct (copies_copy _ _ Hb _ _ _ Eb1) as (b & h2 & Eb2 & Hs2 & Vb & Db).
    destruct (copies_grow _ _ _ _ _ _ Ha Hs2 Va) as [Va2 Ra2].
    exists (mk t a b), h2. destruct (Hmk t a b) as (-> & -> & ->). split.
    { rewrite Hcopy, (heapM_step _ _ _ _ _ Ea1), (heapM_step _ _ _ _ _ Eb2). done. }
    split; [by etransitivity|]. rewrite Va2, Vb, Ra2. split; [done|].
    apply subseteq_dom in Hs1. set_solver.
Qed.

Lemma mapM_heapM_cons {T} (copy : T -> heapM T) x items h :
  mapM copy (x :: items) h =
  match copy x h with
  | Some (y, h1) => match mapM copy items h1 with Some (k, h2) => Some (y :: k, h2) | None => None end
  | None => None
  end.
Proof. done. Qed.

(** The loop over the elements of a slice. *)
Lemma copies_mapM {T V} (vw : view T V) copy h items vs :
  copies vw copy -> mapM (value vw h) items = Some vs ->
  exists out h', mapM copy items h = Some (out, h') /\ h ⊆ h' /\ mapM (value vw h') out = Some vs /\
    ⋃ (reach vw h' <$> out) ## dom h /\ ⋃ (reach vw h' <$> out) ⊆ dom h'.
Proof.
  intros Hc. revert h vs. induction items as [|x items IH]; intros h vs Hv.
  { injection Hv as <-. exists [], h. cbn. split_and!; [done..|set_solver|set_solver]. }
  cbn in Hv. destruct (value vw h x) as [v|] eqn:Ev; cbn in Hv; [|done].
  destruct (mapM (value vw h) items) as [vs'|] eqn:Evs; cbn in Hv; [|done]. injection Hv as <-.
  destruct (copies_copy _ _ Hc _ _ _ Ev) as (x' & h1 & Ex & Hs1 & Vx & Dx).
  assert (Evs1 : mapM (value vw h1) items = Some vs').
  { apply mapM_Some in Evs. apply mapM_Some. eapply Forall2_impl; [exact Evs|]. intros y w Hy.
    by eapply copies_grow. }
  destruct (IH h1 vs' Evs1) as (out & h2 & Eo & Hs2 & Vo & Do & Ao).
  destruct (copies_grow _ _ _ _ _ _ Hc Hs2 Vx) as [Vx2 Rx2].
  exists (x' :: out), h2. split.
  { by rewrite mapM_heapM_cons, Ex, Eo. }
  split; [by etransitivity|]. cbn. rewrite Vx2. cbn. rewrite Vo. cbn. split; [done|].
  pose proof (copies_alloc _ _ Hc _ _ _ Vx2) as Ax. rewrite Rx2 in *. apply subseteq_dom in Hs1. set_solver.
Qed.

Lemma copies_items {T V} (e : embedding (cell M L) (list T)) (vw : view T V) copy :
  copies vw copy -> copies (slice e vw) (copy_items e copy).
Proof.
  intros Hc. constructor.
  - intros h h' [l|] Hl; cbn in *; [|done]. assert (Hll : h' !! l = h !! l) by (apply Hl; set_solver).
    unfold items_at in *. rewrite Hll. destruct (h !! l ≫= of_cell e) as [items|]; cbn in *; [|done].
    assert (Hi : Forall (λ t, value vw h' t = value vw h t /\ reach vw h' t = reach vw h t) items).
    { apply Forall_forall. intros t Ht. apply (copies_frame _ _ Hc). intros l' Hl'. apply Hl.
      apply elem_of_union_r, elem_of_union_list. exists (reach vw h t). split; [|done]. by apply list_elem_of_fmap_2. }
    split.
    + f_equal. clear Hl. induction Hi as [|t items [Hv _] _ IH]; [done|]. cbn. by rewrite Hv, IH.
    + f_equal. f_equal. apply list_fmap_ext. intros i t Ht. by apply (Forall_lookup_1 _ _ _ _ Hi Ht).
  - intros h [l|] v; cbn; [|set_solver]. unfold items_at. destruct (h !! l) as [c|] eqn:El; cbn; [|done].
    destruct (of_cell e c) as [items|]; cbn; [|done]. destruct (mapM (value vw h) items) as [vs|] eqn:Ev; [|done].
    intros _. apply union_subseteq. split; [by apply singleton_subseteq_l, elem_of_dom; rewrite El|].
    intros l' (X & Hx & Hl')%elem_of_union_list. apply list_elem_of_fmap in Hx as (t & -> & Ht).
    apply mapM_Some in Ev. apply list_elem_of_lookup in Ht as [i Hi].
    destruct (Forall2_lookup_l _ _ _ _ _ Ev Hi) as (w & _ & Hw). by eapply (copies_alloc _ _ Hc).
  - intros h [l|] v; cbn; [|intros [= <-]; exists None, h; by split_and!].
    destruct (h !! l ≫= of_cell e) as [items|] eqn:El; cbn; [|done].
    destruct (mapM (value vw h) items) as [vs|] eqn:Ev; cbn; [|done]. intros [= <-].
    destruct (copies_mapM vw copy h items vs Hc Ev) as (out & h1 & Eo & Hs & Vo & Do & Ao).
    do 2 eexists. split.
    { unfold copy_items. rewrite (heapM_step _ _ _ items h) by (unfold load; by rewrite El).
      rewrite (heapM_step _ _ _ out h1) by done. done. }
    split; [etransitivity; [exact Hs|apply alloc_grow]|]. cbn. unfold items_at. rewrite lookup_insert_eq. cbn.
    rewrite of_to_cell. cbn.
    assert (Hg : forall t w, value vw h1 t = Some w -> value vw (<[fresh (dom h1):=to_cell e out]> h1) t = Some w /\
      reach vw (<[fresh (dom h1):=to_cell e out]> h1) t = reach vw h1 t).
    { intros t w. eapply copies_grow; [done|apply alloc_grow]. }
    apply mapM_Some in Vo as Vo2.
    rewrite (proj2 (mapM_Some (value vw (<[fresh (dom h1):=to_cell e out]> h1)) out vs)); cycle 1.
    { eapply Forall2_impl; [exact Vo2|]. intros t w Hw. by apply Hg. }
    split; [done|].
    assert ((reach vw (<[fresh (dom h1):=to_cell e out]> h1) <$> out) = (reach vw h1 <$> out)) as ->.
    { apply list_fmap_ext. intros i t Ht. destruct (Forall2_lookup_l _ _ _ _ _ Vo2 Ht) as (w & _ & Hw).
      by apply (Hg t w). }
    apply disjoint_union_l. split; [|done]. apply disjoint_singleton_l.
    intros Hin. apply (is_fresh (dom h1)). apply subseteq_dom in Hs. by apply Hs.
Qed.

(** * The types *)

Lemma foldl_insert {V} (l : list (string * V)) (acc : gmap string V) :
  NoDup l.*1 -> foldl (λ out kv, <[kv.1 := kv.2]> out) acc l = list_to_map l ∪ acc.
Proof.
  revert acc. induction l as [|[k x] l IH]; intros acc Hnd; cbn; [by rewrite (left_id_L ∅ (∪))|].
  apply NoDup_cons in Hnd as [Hk Hnd]. rewrite IH by done.
  rewrite <-insert_union_r, insert_union_l; [done|]. by apply not_elem_of_list_to_map_1.
Qed.

Lemma copy_map_id {V} (m : gmap string V) : copy_map m = m.
Proof.
  unfold copy_map. rewrite foldl_insert by apply NoDup_fst_map_to_list.
  by rewrite list_to_map_to_list, (right_id_L ∅ (∪)).
Qed.

Lemma copy_conditions_id l : copy_conditions l = l.
Proof. apply list_fmap_id. Qed.

(** The metadata: what the library's functions are documented to do. *)
Context {LV : Type} (meta_view : view M ObjectMeta) (list_meta_view : view L LV).
Hypothesis copy_meta_copies : copies meta_view copy_meta.
Hypothesis copy_list_meta_copies : copies list_meta_view copy_list_meta.

Definition SubnetStatus_view := fields h_Phase h_AllocatedAt (λ _, tt) (referenced in_Time) plain.
Definition SubnetClaimStatus_view :=
  fields (λ t, (h_cl_ObservedGeneration t, h_cl_Phase t, h_cl_AllocatedCIDR t, h_cl_Message t))
    h_cl_Conditions (λ _, tt) (referenced in_Conditions) plain.
Definition SubnetPoolClaimStatus_view :=
  fields (λ t, (h_pc_ObservedGeneration t, h_pc_Phase t, h_pc_BoundPoolName t, h_pc_Message t))
    h_pc_Conditions (λ _, tt) (referenced in_Conditions) plain.
Definition SubnetPoolStatus_view :=
  fields (λ t, (h_pl_ObservedGeneration t, h_pl_AllocatedCount t))
    h_FreeCountBySize (λ t, (h_AllocatedCIDRs t, h_pl_Conditions t)) (referenced in_IntMap)
    (fields (λ _, tt) fst snd (referenced in_StrMap) (referenced in_Conditions)).
Definition object_view {Sp St V} (vw : view St V) : view (hObject M Sp St) (TypeMeta * Sp * ObjectMeta * V) :=
  fields (λ o, (h_TypeMeta o, h_Spec o)) h_ObjectMeta h_Status meta_view vw.
Definition list_view {T V} (e : embedding (cell M L) (list T)) (vw : view T V) : view (hList L) _ :=
  fields h_ListType h_ListMeta h_Items list_meta_view (slice e vw).
Definition Subnet_view := object_view (Sp := SubnetSpec) SubnetStatus_view.
Definition SubnetClaim_view := object_view (Sp := SubnetClaimSpec) SubnetClaimStatus_view.
Definition SubnetPool_view := object_view (Sp := SubnetPoolSpec) SubnetPoolStatus_view.
Definition SubnetPoolClaim_view := object_view (Sp := SubnetPoolClaimSpec) SubnetPoolClaimStatus_view.

Lemma copies_time : copies (referenced in_Time) (copy_ref in_Time id).
Proof. by apply copies_ref. Qed.
Lemma copies_conditions : copies (referenced in_Conditions) (copy_ref in_Conditions copy_conditions).
Proof. apply copies_ref, copy_conditions_id. Qed.
Lemma copies_int_map : copies (referenced in_IntMap) (copy_ref in_IntMap copy_map).
Proof. apply copies_ref, copy_map_id. Qed.
Lemma copies_str_map : copies (referenced in_StrMap) (copy_ref in_StrMap copy_map).
Proof. apply copies_ref, copy_map_id. Qed.


Lemma SubnetStatus_copies : copies SubnetStatus_view SubnetStatus_DeepCopyInto.
Proof.
  apply (copies_fields _ _ _ _ _ (copy_ref in_Time id) mret (λ t a _, mkHSubnetStatus (h_Phase t) a));
    [apply copies_time|by apply copies_plain|by intros t a []|done].
Qed.

Lemma SubnetClaimStatus_copies : copies SubnetClaimStatus_view SubnetClaimStatus_DeepCopyInto.
Proof.
  apply (copies_fields _ _ _ _ _ (copy_ref in_Conditions copy_conditions) mret
    (λ t a _, mkHSubnetClaimStatus (h_cl_ObservedGeneration t) (h_cl_Phase t) (h_cl_AllocatedCIDR t) (h_cl_Message t) a));
    [apply copies_conditions|by apply copies_plain|by intros t a []|done].
Qed.

Lemma SubnetPoolClaimStatus_copies : copies SubnetPoolClaimStatus_view SubnetPoolClaimStatus_DeepCopyInto.
Proof.
  apply (copies_fields _ _ _ _ _ (copy_ref in_Conditions copy_conditions) mret
    (λ t a _, mkHSubnetPoolClaimStatus (h_pc_ObservedGeneration t) (h_pc_Phase t) (h_pc_BoundPoolName t) (h_pc_Message t) a));
    [apply copies_conditions|by apply copies_plain|by intros t a []|done].
Qed.

Lemma SubnetPoolStatus_copies : copies SubnetPoolStatus_view SubnetPoolStatus_DeepCopyInto.
Proof.
  apply (copies_fields _ _ _ _ _ (copy_ref in_IntMap copy_map)
    (λ p, a ← copy_ref in_StrMap copy_map p.1; b ← copy_ref in_Conditions copy_conditions p.2; mret (a, b))
    (λ t a p, mkHSubnetPoolStatus (h_pl_ObservedGeneration t) (h_pl_AllocatedCount t) a p.1 p.2)).
  - apply copies_int_map.
  - by apply (copies_fields _ _ _ _ _ (copy_ref in_StrMap copy_map) (copy_ref in_Conditions copy_conditions)
      (λ _ a b, (a, b))); [apply copies_str_map|apply copies_conditions|..].
  - by intros t a [b c].
  - intros t h. unfold SubnetPoolStatus_DeepCopyInto, mbind, heapM_bind. cbn [fst snd].
    destruct (copy_ref in_IntMap _ _ h) as [[a h1]|]; [|done].
    destruct (copy_ref in_StrMap _ _ h1) as [[b h2]|]; [|done].
    by destruct (copy_ref in_Conditions _ _ h2) as [[c h3]|].
Qed.

Lemma object_copies {Sp St V} (vw : view St V) copy :
  copies vw copy -> copies (object_view (Sp := Sp) vw) (object_DeepCopyInto copy).
Proof.
  intros Hc. by apply (copies_fields _ _ _ _ _ copy_meta copy (λ t m s, mkHObject (h_TypeMeta t) m (h_Spec t) s)).
Qed.

Lemma list_copies {T V} e (vw : view T V) copy :
  copies vw copy -> copies (list_view e vw) (list_DeepCopyInto e copy).
Proof.
  intros Hc. by apply (copies_fields _ _ _ _ _ copy_list_meta (copy_items e copy) (λ t m i, mkHList (h_ListType t) m i));
    [|apply copies_items|..].
Qed.

(** * Independence *)

(** The pointer refers to a struct with this value. *)
Definition points {T V} (e : embedding (cell M L) T) (vw : view T V) (h : heap) (p : loc) (v : V) : Prop :=
  exists t, h !! p ≫= of_cell e = Some t /\ value vw h t = Some v.

(** A copy of nil is nil.  A copy of a struct is a new struct of the same
    value; nothing that existed is changed; whatever is later written to the
    locations that existed before, the original's among them, leaves the
    copy's value alone, and whatever is written to new ones, the copy's among
    them, leaves the original's alone. *)
Definition independent {T V} (e : embedding (cell M L) T) (vw : view T V) (copy : option loc -> heapM (option loc)) : Prop :=
  (forall h, copy None h = Some (None, h)) /\
  forall h p v, points e vw h p v ->
    exists p' h', copy (Some p) h = Some (Some p', h') /\ p' ∉ dom h /\ h ⊆ h' /\ points e vw h' p' v /\
      (forall h'', (forall l, l ∉ dom h -> h'' !! l = h' !! l) -> points e vw h'' p' v) /\
      (forall h'', (forall l, l ∈ dom h -> h'' !! l = h' !! l) -> points e vw h'' p v).

Lemma deep_copy_independent {T V} (e : embedding (cell M L) T) (vw : view T V) copy :
  copies vw copy -> independent e vw (deep_copy e copy).
Proof.
  intros Hc. split; [done|]. intros h p v (t & Ht & Hv).
  destruct (copies_copy _ _ Hc _ _ _ Hv) as (t' & h1 & Et & Hs & Vt & Dt).
  set (p' := fresh (dom h1)). set (h' := <[p' := to_cell e t']> h1).
  assert (Hs' : h1 ⊆ h') by apply alloc_grow.
  destruct (copies_grow _ _ _ _ _ _ Hc Hs' Vt) as [Vt' Rt'].
  assert (Hp' : p' ∉ dom h).
  { intros Hin. apply (is_fresh (dom h1)). apply subseteq_dom in Hs. by apply Hs. }
  assert (Hpt : h' !! p' ≫= of_cell e = Some t').
  { unfold h'. rewrite lookup_insert_eq. cbn. apply of_to_cell. }
  exists p', h'. split.
  { unfold deep_copy. rewrite (heapM_step _ _ _ t h) by (unfold load; by rewrite Ht).
    by rewrite (heapM_step _ _ _ _ _ Et). }
  split; [done|]. split; [by etransitivity|]. split; [by exists t'|]. split.
  - intros h'' Hh. exists t'. rewrite Hh by done. split; [done|].
    destruct (copies_frame _ _ Hc h' h'' t') as [-> _]; [|done]. intros l Hl. apply Hh. rewrite Rt' in Hl. set_solver.
  - intros h'' Hh. destruct (h !! p) as [c|] eqn:Ep; [|done].
    assert (Hin : p ∈ dom h) by by apply elem_of_dom.
    assert (Hold : forall l, l ∈ dom h -> h'' !! l = h !! l).
    { intros l Hl. rewrite Hh by done. apply elem_of_dom in Hl as [x Hx]. rewrite Hx.
      eapply lookup_weaken; [exact Hx|]. by etransitivity. }
    exists t. rewrite Hold, Ep by done. split; [done|].
    destruct (copies_frame _ _ Hc h h'' t) as [-> _]; [|done]. intros l Hl. apply Hold. by eapply copies_alloc.
Qed.

(** C16. Every generated [DeepCopy] returns a value equal to its receiver that
    shares no pointer, map or slice with it: later changes of either one, as
    the status updates make between copying an object and computing the
    patch, are invisible through the other. *)
Theorem deep_copies_independent :
  independent in_ClaimReference plain ClaimReference_DeepCopy /\
  independent in_SubnetSpec plain SubnetSpec_DeepCopy /\
  independent in_SubnetClaimSpec plain SubnetClaimSpec_DeepCopy /\
  independent in_SubnetPoolSpec plain SubnetPoolSpec_DeepCopy /\
  independent in_SubnetPoolClaimSpec plain SubnetPoolClaimSpec_DeepCopy /\
  independent in_SubnetStatus SubnetStatus_view SubnetStatus_DeepCopy /\
  independent in_SubnetClaimStatus SubnetClaimStatus_view SubnetClaimStatus_DeepCopy /\
  independent in_SubnetPoolStatus SubnetPoolStatus_view SubnetPoolStatus_DeepCopy /\
  independent in_SubnetPoolClaimStatus SubnetPoolClaimStatus_view SubnetPoolClaimStatus_DeepCopy /\
  independent in_Subnet Subnet_view Subnet_DeepCopy /\
  independent in_SubnetClaim SubnetClaim_view SubnetClaim_DeepCopy /\
  independent in_SubnetPool SubnetPool_view SubnetPool_DeepCopy /\
  independent in_SubnetPoolClaim SubnetPoolClaim_view SubnetPoolClaim_DeepCopy /\
  independent in_SubnetList (list_view in_Subnets Subnet_view) SubnetList_DeepCopy /\
  independent in_SubnetClaimList (list_view in_SubnetClaims SubnetClaim_view) SubnetClaimList_DeepCopy /\
  independent in_SubnetPoolList (list_view in_SubnetPools SubnetPool_view) SubnetPoolList_DeepCopy /\
  independent in_SubnetPoolClaimList (list_view in_SubnetPoolClaims SubnetPoolClaim_view) SubnetPoolClaimList_DeepCopy.
Proof.
  assert (Hs : copies plain SubnetSpec_DeepCopyInto) by by apply copies_plain; intros [].
  repeat match goal with |- _ /\ _ => split end; apply deep_copy_independent;
    try apply list_copies; try apply object_copies; try (by apply copies_plain); try assumption;
    first [apply SubnetStatus_copies|apply SubnetClaimStatus_copies|apply SubnetPoolStatus_copies
          |apply SubnetPoolClaimStatus_copies].
Qed.
End Heap.
Arguments heapM _ _ _ : clear implicits.
Arguments view _ _ _ _ : clear implicits.
Arguments mkView {_ _ _ _} _ _.
Arguments value {_ _ _ _} _ _ _.
Arguments reach {_ _ _ _} _ _ _.

(** * A metadata representation *)

(** Labels behind a reference, the other fields plain: enough for the laws
    assumed of the library to hold. *)
Module LabelsOnHeap.
Definition Meta : Type := ObjectMeta * option loc.
Notation heap := (gmap loc (cell Meta string)).

Definition with_labels (m : ObjectMeta) (labels : gmap string string) : ObjectMeta :=
  mkObjectMeta (Name m) (GenerateName m) (Namespace m) (UID m) (Generation m) labels (Finalizers m)
    (OwnerReferences m) (DeletionTimestamp m).

Definition copy_meta (m : Meta) : heapM Meta string Meta := λ h,
  match copy_ref in_StrMap copy_map m.2 h with Some (l, h') => Some ((m.1, l), h') | None => None end.

Definition copy_list_meta (l : string) : heapM Meta string string := λ h, Some (l, h).

Definition labels_view : view Meta string Meta (ObjectMeta * option (gmap string string) * unit) :=
  fields fst snd (λ _, tt) (referenced in_StrMap) plain.

Definition meta_view : view Meta string Meta ObjectMeta :=
  mkView (λ h m, (λ v, with_labels v.1.1 (default ∅ v.1.2)) <$> value labels_view h m) (reach labels_view).

Lemma copy_meta_copies : copies meta_view copy_meta.
Proof.
  assert (Hl : copies labels_view copy_meta).
  { apply (copies_fields _ _ _ _ _ (copy_ref in_StrMap copy_map) (λ u h, Some (u, h)) (λ m l _, (m.1, l)));
      [apply copies_str_map|by apply copies_plain|by intros t a []|done]. }
  constructor.
  - intros h h' t Hr. cbn [value meta_view]. destruct (copies_frame _ _ Hl h h' t Hr) as [-> Hr']. by split.
  - intros h t v. cbn [value reach meta_view]. intros (w & Hw & _)%fmap_Some. by eapply (copies_alloc _ _ Hl).
  - intros h t v. cbn [value reach meta_view]. intros (w & Hw & ->)%fmap_Some.
    destruct (copies_copy _ _ Hl _ _ _ Hw) as (t' & h' & He & Hs & Hv & Hd). exists t', h'. by rewrite Hv.
Qed.

Lemma copy_list_meta_copies : copies plain copy_list_meta.
Proof. by apply copies_plain. Qed.

(** A pool at location 1 with labels, maps and conditions. *)
Definition pool_status : hSubnetPoolStatus := mkHSubnetPoolStatus 1 2 (Some 3%positive) (Some 4%positive) None.
Definition pool_heap : heap :=
  <[1%positive := CSubnetPool (mkHObject (mkTypeMeta "SubnetPool" "plexaubnet.io/v1alpha1")
     (new_meta "pool" "" "ns" ∅, Some 2%positive) (mkSubnetPoolSpec "10.0.0.0/16" 24 0 0 "") pool_status)]>
  (<[2%positive := CStrMap {["a" := "b"]}]>
  (<[3%positive := CIntMap {["24" := 254]}]>
  (<[4%positive := CStrMap {["10.0.0.0/24" := "cluster"]}]> ∅))).

End LabelsOnHeap.

Section DeepCopy_run.
Import LabelsOnHeap.

Lemma deep_copies_independent_witness :
  exists p' h', SubnetPool_DeepCopy copy_meta (Some 1%positive) pool_heap = Some (Some p', h') /\ p' ∉ dom pool_heap /\
    forall h'', (forall l, l ∉ dom pool_heap -> h'' !! l = h' !! l) ->
      points in_SubnetPool (SubnetPool_view meta_view) h'' p'
        (mkTypeMeta "SubnetPool" "plexaubnet.io/v1alpha1", mkSubnetPoolSpec "10.0.0.0/16" 24 0 0 "",
         new_meta "pool" "" "ns" {["a" := "b"]},
         ((1, 2), Some {["24" := 254]}, (tt, Some {["10.0.0.0/24" := "cluster"]}, None))).
Proof.
  destruct (deep_copies_independent copy_meta copy_list_meta meta_view plain copy_meta_copies copy_list_meta_copies)
    as (_ & _ & _ & _ & _ & _ & _ & _ & _ & _ & _ & Hp & _).
  destruct (proj2 Hp pool_heap 1%positive
    (mkTypeMeta "SubnetPool" "plexaubnet.io/v1alpha1", mkSubnetPoolSpec "10.0.0.0/16" 24 0 0 "",
     new_meta "pool" "" "ns" {["a" := "b"]},
     ((1, 2), Some {["24" := 254]}, (tt, Some {["10.0.0.0/24" := "cluster"]}, None))))
    as (p' & h' & Hc & Hn & _ & _ & Hk & _).
  { eexists. split; vm_compute; reflexivity. }
  exists p', h'. exact (conj Hc (conj Hn Hk)).
Defined.
End DeepCopy_run.
