(* ===== verification/StatusCalc.v ===== *)
(** [internal/controller/statuscalc]: the status numbers of a pool computed
    from its CIDR and the list of its Subnets.  The main result relates them
    to the bitmap of [Bitmap.v]: on disjoint /24 allocations both report the
    same free count. *)

From S2P Require Import Prelude GoNet NetUtil Bitmap ApiTypes.

(** * Model *)

Definition defaultFreeCountKeyCap : Z := 8.

Definition estimateFreeCountCap (blockSize : Z) (childCIDRs : list string) : Z :=
  if (length childCIDRs =? 0)%nat then 2
  else
    let estimatedCap := 2 + Z.quot (Z.of_nat (length childCIDRs)) 10 in
    if estimatedCap <? defaultFreeCountKeyCap then defaultFreeCountKeyCap else estimatedCap.

Record CalculateResult : Type := mkCalculateResult {
  AllocatedCount : Z;
  FreeCountBySize : gmap string Z;
  AllocatedCIDRs : gmap string string
}.

(** [1 << n] on Go's 64-bit [int]: zero when the count reaches the width. *)
Definition int_shl1 (n : Z) : Z :=
  if 64 <=? n then 0 else if n =? 63 then - 2 ^ 63 else 2 ^ n.

(** [uint(a) - uint(b)], wrapping. *)
Definition uint_sub (a b : Z) : Z := (a - b) mod 2 ^ 64.

(** [Calculate] returns its partly filled result together with the error;
    the capacity computed by [estimateFreeCountCap] is only a size hint of
    [make], so no later value depends on it. *)
Definition Calculate (poolCIDR : string) (allocations : list Subnet) (childCIDRs : list string)
    : CalculateResult * option error :=
  let totalAllocations := Z.of_nat (length allocations) + Z.of_nat (length childCIDRs) in
  let _freeCountCap := estimateFreeCountCap 24 childCIDRs in
  let allocated := foldl (λ m a, <[sn_CIDR (sn_Spec a) := sn_ClusterID (sn_Spec a)]> m)
                     (∅ : gmap string string) allocations in
  let allocated := foldl (λ m c, <[c := "child-pool"]> m) allocated childCIDRs in
  match ParseCIDR poolCIDR with
  | Err err =>
      (mkCalculateResult totalAllocations ∅ allocated,
       Some (EWrap ("invalid pool CIDR format: " +:+ Error err) err))
  | Ok (_, ipNet) =>
      let '(ones, bits) := Mask_Size (Mask ipNet) in
      let blockSize := 24 in
      let maxBlocks := int_shl1 (uint_sub blockSize ones) in
      let maxBlocks := if (bits =? 128) && (ones <? 64) then 1000000 else maxBlocks in
      let freeCount := maxBlocks - totalAllocations in
      let freeCount := if freeCount <? 0 then 0 else freeCount in
      let legacyBlockSizeKey := "/" +:+ pretty blockSize in
      let newBlockSizeKey := pretty blockSize in
      (mkCalculateResult totalAllocations
         (<[newBlockSizeKey := freeCount]> (<[legacyBlockSizeKey := freeCount]> ∅)) allocated, None)
  end.

(** [strings.TrimPrefix(key, "/")] *)
Definition trim_slash (key : string) : string :=
  match key with String "/"%char k => k | _ => key end.

Definition NormalizeBlockSizeKey (key : string) : size_error + string :=
  let key := trim_slash key in
  match Atoi key with
  | None => inl (SizePrefix key)
  | Some _ => inr key
  end.

(** * Lemmas *)

Lemma int_shl1_sub p : 0 <= p <= 128 -> int_shl1 (uint_sub 24 p) = if p <=? 24 then 2 ^ (24 - p) else 0.
Proof.
  intros Hp. unfold uint_sub. destruct (Z.leb_spec p 24).
  - rewrite Z.mod_small by lia. unfold int_shl1.
    destruct (Z.leb_spec 64 (24 - p)); [lia|]. destruct (Z.eqb_spec (24 - p) 63); [lia|done].
  - replace ((24 - p) mod 2 ^ 64) with (2 ^ 64 + (24 - p)).
    + unfold int_shl1. destruct (Z.leb_spec 64 (2 ^ 64 + (24 - p))); [done|lia].
    + apply (Z.mod_unique_pos _ _ (-1)); lia.
Qed.

(** What the two loops over the allocations and the child pools leave in the
    map: child pools win, then the last Subnet with that CIDR. *)
Lemma fold_allocations (l : list Subnet) (m : gmap string string) c :
  foldl (λ m a, <[sn_CIDR (sn_Spec a) := sn_ClusterID (sn_Spec a)]> m) m l !! c =
  match last (filter (λ a, sn_CIDR (sn_Spec a) = c) l) with
  | Some a => Some (sn_ClusterID (sn_Spec a))
  | None => m !! c
  end.
Proof.
  induction l as [|a l IH] using rev_ind; [done|].
  rewrite foldl_app, filter_app. cbn [foldl].
  rewrite filter_cons, filter_nil. destruct (decide (sn_CIDR (sn_Spec a) = c)) as [<-|Hne].
  - by rewrite last_snoc, lookup_insert_eq.
  - rewrite app_nil_r, lookup_insert_ne by done. apply IH.
Qed.

Lemma fold_children (l : list string) (m : gmap string string) c :
  foldl (λ m c, <[c := "child-pool"]> m) m l !! c =
  if bool_decide (c ∈ l) then Some "child-pool" else m !! c.
Proof.
  induction l as [|x l IH] using rev_ind; [done|].
  rewrite foldl_app. cbn [foldl]. destruct (decide (x = c)) as [->|Hne].
  - rewrite lookup_insert_eq, bool_decide_eq_true_2 by set_solver. done.
  - rewrite lookup_insert_ne, IH by done. erewrite bool_decide_ext; [done|]. set_solver.
Qed.

Lemma Atoi_no_slash k z : Atoi k = Some z -> trim_slash k = k.
Proof.
  destruct k as [|a k]; [done|]. destruct (decide (a = "/"%char)) as [->|Hne]; [done|].
  intros _. cbn. by destruct a as [[][][][][][][][]].
Qed.

(** The free count reported under both keys. *)
Lemma Calculate_free poolCIDR ip n allocations childCIDRs :
  ParseCIDR poolCIDR = Ok (ip, n) ->
  exists f, f = Z.max 0 ((if (net_bits n =? 128) && (net_ones n <? 64) then 1000000
                          else if net_ones n <=? 24 then 2 ^ (24 - net_ones n) else 0)
                         - (Z.of_nat (length allocations) + Z.of_nat (length childCIDRs))) /\
    FreeCountBySize (Calculate poolCIDR allocations childCIDRs).1 !! "24" = Some f /\
    FreeCountBySize (Calculate poolCIDR allocations childCIDRs).1 !! "/24" = Some f /\
    (Calculate poolCIDR allocations childCIDRs).2 = None.
Proof.
  intros P. apply ParseCIDR_wf in P as Hn. pose proof (wf_ones _ Hn) as Ho.
  assert (Hb : net_bits n <= 128).
  { rewrite (wf_bits _ Hn). destruct (wf_len _ Hn) as [-> | ->]; lia. }
  unfold Calculate. rewrite P. unfold net_ones, net_bits in *.
  destruct (Mask_Size (Mask n)) as [ones bits]. cbn [fst snd] in *.
  rewrite int_shl1_sub by lia. eexists. split; [reflexivity|]. cbn [fst snd FreeCountBySize].
  change (pretty 24) with "24". change ("/" +:+ "24") with "/24".
  rewrite lookup_insert_eq, lookup_insert_ne, lookup_insert_eq by done.
  split_and!; [|done..| |done]; f_equal; destruct (Z.ltb_spec
    ((if (bits =? 128) && (ones <? 64) then 1000000
      else if ones <=? 24 then 2 ^ (24 - ones) else 0)
     - (Z.of_nat (length allocations) + Z.of_nat (length childCIDRs))) 0); lia.
Qed.

(** Counting a list of pairwise non-overlapping /[size] blocks in the bitmap. *)
Section DisjointBlocks.
Context (c0 : CIDRMap) (size : Z).
Hypothesis size_range : 16 <= size <= 28.
Hypothesis size_prefix : prefixLen c0 <= size.

(** The text is an IPv4 block of the counted size in the pool. *)
Definition pool_block (u : string) : Prop :=
  exists ip n, ParseCIDR u = Ok (ip, n) /\ in_pool c0 n /\ net_ones n = size.

Lemma pool_block_covers u : wf_map c0 -> pool_block u -> exists o, covers c0 u o.
Proof.
  intros Hc (ip & n & P & Hin & Ho). exists (net_lo n - base c0), ip, n.
  apply ParseCIDR_wf in P as Hn. pose proof (net_hi_ge _ Hn). split_and!; auto; lia.
Qed.

Lemma disjoint_blocks_step seen c uniq u :
  wf_map c0 -> status_inv c0 seen (c, uniq) -> pool_block u ->
  (forall v, v ∈ seen -> CIDROverlaps u v = false) ->
  exists c', pool_status_step (c, uniq) u = (c', {[u]} ∪ uniq) /\ u ∉ uniq /\
    free_count c' size = free_count c size - 1.
Proof.
  intros Hc0 [Hm Hu] Hblk Hdis. cbn [fst snd] in *.
  pose proof Hm as (Hc & Hb & Hp & Hbusy).
  destruct Hblk as (ip & n & P & Hin & Ho). pose proof Hin as [H4 Hr].
  assert (Hnot : u ∉ uniq).
  { intros [Hs _]%Hu. destruct (pool_block_covers u Hc0) as [o Hcov]; [by exists ip, n|].
    specialize (Hdis u Hs). by rewrite (covers_overlap c0 u u o) in Hdis. }
  assert (Hin' : in_pool c n) by (unfold in_pool, base, pool_size in *; by rewrite Hb, Hp).
  destruct (MarkAllocated_v4 c u ip n Hc P H4) as [[Hout _]|[[(o & Hco & Hbo) _]|(_ & _ & E)]].
  - by destruct Hin'.
  - apply Hbusy in Hbo as (v & Hv & Hcv).
    apply (covers_same_pool c c0) in Hco; [|done|done].
    pose proof (covers_overlap c0 u v o Hco Hcv). rewrite Hdis in *; done.
  - eexists. unfold pool_status_step. rewrite bool_decide_eq_false_2 by done.
    split_and!; [by rewrite E|done|].
    eapply mark_decrements; [done|done|by rewrite Hp|done|done|done|done].
Qed.

Lemma disjoint_blocks_fold l seen c uniq :
  wf_map c0 -> status_inv c0 seen (c, uniq) -> Forall pool_block l ->
  (forall u v, u ∈ l -> v ∈ seen -> CIDROverlaps u v = false) ->
  ForallOrdPairs (λ u v, CIDROverlaps v u = false) l ->
  exists c' uniq', foldl pool_status_step (c, uniq) l = (c', uniq') /\ wf_map c' /\
    free_count c' size = free_count c size - Z.of_nat (length l) /\
    base.size uniq' = (base.size uniq + length l)%nat.
Proof.
  intros Hc0. revert seen c uniq. induction l as [|u l IH]; intros seen c uniq Hinv Hblk Hsep Hord.
  { exists c, uniq. cbn. split_and!; [done|apply Hinv|lia|lia]. }
  apply Forall_cons in Hblk as [Hu Hl]. inversion Hord as [|? ? Hul Hord']; subst.
  destruct (disjoint_blocks_step seen c uniq u Hc0 Hinv Hu) as (c1 & E & Hnot & Hfc).
  { intros v Hv. apply Hsep; set_solver. }
  assert (Hinv1 : status_inv c0 (u :: seen) (c1, {[u]} ∪ uniq)).
  { rewrite <-E. apply status_step; [done| |].
    - destruct Hu as (ip & n & P & _). by rewrite P.
    - intros v Hv Hov. rewrite Hsep in Hov; [done|set_solver|done]. }
  destruct (IH (u :: seen) c1 ({[u]} ∪ uniq) Hinv1 Hl) as (c2 & uniq2 & E2 & Hw2 & Hf2 & Hs2).
  { intros x v Hx Hv. apply elem_of_cons in Hv as [->|Hv].
    - rewrite Forall_forall in Hul. by apply Hul.
    - apply Hsep; set_solver. }
  { done. }
  exists c2, uniq2. cbn [foldl length]. rewrite E. split_and!; [done|done|lia|].
  rewrite Hs2, size_union by set_solver. rewrite size_singleton. lia.
Qed.

Lemma free_count_fresh :
  wf_map c0 -> (forall o, ~ busy c0 o) -> free_count c0 size = 2 ^ (size - prefixLen c0).
Proof.
  intros Hc Hb. rewrite free_count_loop, pow2_int_eq by lia. apply count_loop_all.
  - apply Z.pow_nonneg. lia.
  - intros i Hi. apply block_free_true; [lia|]. intros (o & _ & Ho). by eapply Hb.
Qed.
End DisjointBlocks.

(** * Properties *)

(** For a valid pool CIDR, [Calculate] reports no error, the same free count
    under the keys ["24"] and ["/24"], namely the number of /24 blocks of the
    pool (one million for an IPv6 pool shorter than /64, zero when the prefix
    is longer than 24) minus the number of Subnets and child pools, floored at
    zero, and a total equal to that number of Subnets and child pools.  Its
    map sends a child pool's CIDR to ["child-pool"], any other CIDR to the
    cluster of the last Subnet that has it. *)
Theorem Calculate_counts poolCIDR ip n allocations childCIDRs :
  ParseCIDR poolCIDR = Ok (ip, n) ->
  let r := Calculate poolCIDR allocations childCIDRs in
  let total := Z.of_nat (length allocations) + Z.of_nat (length childCIDRs) in
  let maxBlocks := if (net_bits n =? 128) && (net_ones n <? 64) then 1000000
                   else if net_ones n <=? 24 then 2 ^ (24 - net_ones n) else 0 in
  r.2 = None /\ AllocatedCount r.1 = total /\
  FreeCountBySize r.1 !! "24" = Some (Z.max 0 (maxBlocks - total)) /\
  FreeCountBySize r.1 !! "/24" = Some (Z.max 0 (maxBlocks - total)) /\
  forall c, AllocatedCIDRs r.1 !! c =
    if bool_decide (c ∈ childCIDRs) then Some "child-pool"
    else (λ a, sn_ClusterID (sn_Spec a)) <$> last (filter (λ a, sn_CIDR (sn_Spec a) = c) allocations).
Proof.
  intros P. cbv zeta. destruct (Calculate_free poolCIDR ip n allocations childCIDRs P)
    as (f & Hf & H1 & H2 & H3). rewrite <-Hf. split_and!; [done| |done|done|].
  - unfold Calculate. rewrite P. by destruct (Mask_Size (Mask n)).
  - intros c. unfold Calculate. rewrite P. destruct (Mask_Size (Mask n)) as [o b].
    cbn [fst AllocatedCIDRs]. rewrite fold_children, fold_allocations. case_bool_decide; [done|].
    by case_match.
Qed.

Lemma Calculate_counts_witness :
  exists r, r = Calculate "10.0.0.0/22" [] ["10.0.1.0/24"] /\ AllocatedCount r.1 = 1 /\
    FreeCountBySize r.1 !! "24" = Some 3.
Proof.
  eexists. split; [reflexivity|].
  destruct (Calculate_counts "10.0.0.0/22" (v4InV6Prefix ++ [10; 0; 0; 0])
    (mkIPNet [10; 0; 0; 0] [255; 255; 252; 0]) [] ["10.0.1.0/24"]) as (_ & Ha & Hf & _);
    [vm_compute; reflexivity|]. split; [exact Ha|]. rewrite Hf. vm_compute. reflexivity.
Defined.

(** C34. [Calculate] agrees with the bitmap on pools of /24 blocks: when the pool
    has prefix length 12 to 24 and its Subnets are pairwise non-overlapping
    /24 networks of the pool, the number of allocations and the free count of
    size 24 it reports are those that [CalculatePoolStatus] derives from the
    bitmap. *)
Theorem Calculate_agrees_with_bitmap poolCIDR c allocations :
  NewCIDRMap poolCIDR = Ok c -> prefixLen c <= 24 ->
  Forall (λ a, pool_block c 24 (sn_CIDR (sn_Spec a))) allocations ->
  ForallOrdPairs (λ a b, CIDROverlaps (sn_CIDR (sn_Spec b)) (sn_CIDR (sn_Spec a)) = false) allocations ->
  exists free, CalculatePoolStatus poolCIDR ((λ a, sn_CIDR (sn_Spec a)) <$> allocations)
      = Ok (AllocatedCount (Calculate poolCIDR allocations []).1, free) /\
    FreeCountBySize (Calculate poolCIDR allocations []).1 !! "24" = free !! "24".
Proof.
  intros HN Hpre Hblk Hord. pose proof (NewCIDRMap_wf _ _ HN) as Hc.
  pose proof (marked_new _ _ HN) as Hm.
  set (l := (λ a, sn_CIDR (sn_Spec a)) <$> allocations).
  destruct (disjoint_blocks_fold c 24 ltac:(lia) Hpre l [] c ∅) as (c' & uniq & E & Hw & Hf & Hs).
  { done. }
  { split; [done|]. intros u. cbn. set_solver. }
  { unfold l. by apply Forall_fmap. }
  { set_solver. }
  { unfold l. clear -Hord. induction Hord as [|a l Ha Hl IH]; [constructor|]. cbn.
    constructor; [|done]. by apply Forall_fmap. }
  unfold CalculatePoolStatus. rewrite HN, E. eexists.
  assert (Hlen : length l = length allocations) by apply length_fmap.
  rewrite size_empty, Nat.add_0_l in Hs. split.
  - f_equal. f_equal. rewrite Hs, Hlen. unfold Calculate. repeat case_match; cbn; lia.
  - apply NewCIDRMap_ok in HN as HN'. destruct HN' as (ip & n & P & H4 & Ho & Hceq).
    destruct (Calculate_free poolCIDR ip n allocations [] P) as (f & Hfe & -> & _ & _).
    change "24" with (pretty 24). rewrite GetFreeBlockCount_lookup by (done || lia).
    rewrite Hf, free_count_fresh; [|lia|lia|done|].
    + apply ParseCIDR_wf in P. assert (net_bits n = 32) as Hbits by (rewrite (wf_bits _ P), H4; done).
      assert (prefixLen c = net_ones n) as Hpl by (by rewrite Hceq).
      assert (0 <= free_count c' 24) by (rewrite free_count_loop; apply count_loop_bound, pow2_int_nonneg).
      rewrite Hfe, Hbits, Hlen. cbn [length Z.eqb Pos.eqb andb]. f_equal.
      rewrite Hf, free_count_fresh in H; [|lia|lia|done|by intros o (u & Hu & _)%Hm; set_solver].
      rewrite Hpl in *. destruct (Z.leb_spec (net_ones n) 24); lia.
    + intros o (u & Hu & _)%Hm. set_solver.
Qed.

Lemma Calculate_agrees_with_bitmap_witness :
  exists free, CalculatePoolStatus "10.0.0.0/22" ["10.0.2.0/24"] = Ok (1, free) /\
    FreeCountBySize (Calculate "10.0.0.0/22"
      [mkSubnet (new_meta "a" "" "ns" ∅) (mkSubnetSpec "p" "10.0.2.0/24" "c" (mkClaimReference "" ""))
         (mkSubnetStatus "" None)] []).1 !! "24" = free !! "24".
Proof.
  apply (Calculate_agrees_with_bitmap "10.0.0.0/22" (mkCIDRMap [10; 0; 0; 0] 22 0 28 16)
    [mkSubnet (new_meta "a" "" "ns" ∅) (mkSubnetSpec "p" "10.0.2.0/24" "c" (mkClaimReference "" ""))
       (mkSubnetStatus "" None)]).
  - vm_compute. reflexivity.
  - vm_compute. discriminate.
  - constructor; [|constructor]. eexists _, _. split; [vm_compute; reflexivity|].
    split; [|vm_compute; reflexivity]. split; [vm_compute; reflexivity|].
    vm_compute. split; [discriminate|reflexivity].
  - constructor; constructor.
Defined.

(** Outside that case the number differs from the bitmap's: a single /23
    Subnet that fills a /23 pool leaves no free /24 block, and [Calculate]
    reports one. *)
Theorem Calculate_ignores_block_size :
  exists a free, CalculatePoolStatus "10.0.0.0/23" [sn_CIDR (sn_Spec a)] = Ok (1, free) /\
    free !! "24" = Some 0 /\
    FreeCountBySize (Calculate "10.0.0.0/23" [a] []).1 !! "24" = Some 1.
Proof.
  exists (mkSubnet (new_meta "a" "" "ns" ∅) (mkSubnetSpec "p" "10.0.0.0/23" "c" (mkClaimReference "" ""))
           (mkSubnetStatus "" None)).
  eexists. split; [vm_compute; reflexivity|]. split; vm_compute; reflexivity.
Qed.

(** [NormalizeBlockSizeKey] accepts exactly the decimal integers with or
    without one leading slash, and returns them without it; so it maps the
    two keys [Calculate] writes to the same key, and its results to
    themselves. *)
Theorem NormalizeBlockSizeKey_accepts key k :
  NormalizeBlockSizeKey key = inr k <->
  (exists z, Atoi k = Some z) /\ (key = k \/ key = "/" +:+ k).
Proof.
  unfold NormalizeBlockSizeKey. split.
  - destruct (Atoi (trim_slash key)) as [z|] eqn:E; [|done]. intros [= <-]. split; [by exists z|].
    destruct key as [|a key]; [by left|]. destruct (decide (a = "/"%char)) as [->|Hne]; [by right|].
    left. by destruct a as [[][][][][][][][]].
  - intros [[z E] [->| ->]]; [|change (trim_slash ("/" +:+ k)) with k; by rewrite E].
    rewrite (Atoi_no_slash k z E). by rewrite E.
Qed.
