(* ===== verification/MergePatch.v ===== *)
(** Status patches.  The controllers send [client.MergeFrom] patches: the JSON
    merge patch from the object they read to the object they want.  The API
    server applies it to the object it has by then, which may be a newer one:
    fields that the patch does not mention keep the server's values, and maps
    are merged key by key.  All status fields are [omitempty], so a field set
    to its zero value is removed, an emptied map as a whole. *)

From S2P Require Import Prelude ApiTypes.

(** * Merging *)

(** A scalar, a list or an optional field. *)
Definition merge_field {A} `{EqDecision A} (old new cur : A) : A :=
  if bool_decide (old = new) then cur else new.

(** The keys that the patch sets ([Some]) or removes ([None]). *)
Definition map_changes {A} `{EqDecision A} (old new : gmap string A) : gmap string (option A) :=
  merge (λ o n, if bool_decide (o = n) then None else Some n) old new.

Definition merge_map {A} `{EqDecision A} (old new cur : gmap string A) : gmap string A :=
  if bool_decide (new = ∅) then (if bool_decide (old = ∅) then cur else ∅)
  else merge (λ ch c, match ch with Some n => n | None => c end) (map_changes old new) cur.

Definition merge_subnet_status (old new cur : SubnetStatus) : SubnetStatus :=
  mkSubnetStatus (merge_field (sn_Phase old) (sn_Phase new) (sn_Phase cur))
    (merge_field (sn_AllocatedAt old) (sn_AllocatedAt new) (sn_AllocatedAt cur)).

Definition merge_pool_status (old new cur : SubnetPoolStatus) : SubnetPoolStatus :=
  mkSubnetPoolStatus
    (merge_field (pl_ObservedGeneration old) (pl_ObservedGeneration new) (pl_ObservedGeneration cur))
    (merge_field (pl_AllocatedCount old) (pl_AllocatedCount new) (pl_AllocatedCount cur))
    (merge_map (pl_FreeCountBySize old) (pl_FreeCountBySize new) (pl_FreeCountBySize cur))
    (merge_map (pl_AllocatedCIDRs old) (pl_AllocatedCIDRs new) (pl_AllocatedCIDRs cur))
    (merge_field (pl_Conditions old) (pl_Conditions new) (pl_Conditions cur)).

(** The stored object after a patch of the status subresource. *)
Definition patch_subnet (old new cur : Subnet) : Subnet :=
  mkSubnet (sn_meta cur) (sn_Spec cur) (merge_subnet_status (sn_Status old) (sn_Status new) (sn_Status cur)).

Definition patch_pool (old new cur : SubnetPool) : SubnetPool :=
  mkSubnetPool (pl_meta cur) (pl_Spec cur) (merge_pool_status (pl_Status old) (pl_Status new) (pl_Status cur)).

(** * Lemmas *)

Section Field.
Context {A : Type} `{EqDecision A}.

Lemma merge_field_fresh (old new : A) : merge_field old new old = new.
Proof. unfold merge_field. by case_bool_decide. Qed.

Lemma merge_field_cases (old new cur : A) : merge_field old new cur = cur \/ merge_field old new cur = new.
Proof. unfold merge_field. case_bool_decide; auto. Qed.

Lemma map_changes_lookup (old new : gmap string A) k :
  map_changes old new !! k = if bool_decide (old !! k = new !! k) then None else Some (new !! k).
Proof.
  unfold map_changes. rewrite lookup_merge. unfold diag_None.
  by destruct (old !! k), (new !! k).
Qed.

(** Key by key: what the patch mentions is the new value, the rest the
    current one. *)
Lemma merge_map_lookup (old new cur : gmap string A) k :
  new <> ∅ -> merge_map old new cur !! k = if bool_decide (old !! k = new !! k) then cur !! k else new !! k.
Proof.
  intros Hn. unfold merge_map. rewrite (bool_decide_eq_false_2 _ Hn), lookup_merge. unfold diag_None.
  rewrite map_changes_lookup. case_bool_decide; [|done]. by destruct (cur !! k).
Qed.

Lemma merge_map_fresh (old new : gmap string A) : merge_map old new old = new.
Proof.
  destruct (decide (new = ∅)) as [->|Hn].
  - unfold merge_map. rewrite bool_decide_eq_true_2 by done. by case_bool_decide.
  - apply map_eq. intros k. rewrite merge_map_lookup by done. by case_bool_decide.
Qed.

(** Every entry comes from the patch or was there before. *)
Lemma merge_map_provenance (old new cur : gmap string A) k v :
  merge_map old new cur !! k = Some v -> new !! k = Some v \/ cur !! k = Some v.
Proof.
  destruct (decide (new = ∅)) as [->|Hn].
  - unfold merge_map. rewrite bool_decide_eq_true_2 by done. case_bool_decide; [auto|]. by rewrite lookup_empty.
  - rewrite merge_map_lookup by done. case_bool_decide; auto.
Qed.
End Field.

(** A patch against the stored object makes it the wanted one. *)
Lemma patch_subnet_fresh old st : patch_subnet old (mkSubnet (sn_meta old) (sn_Spec old) st) old =
  mkSubnet (sn_meta old) (sn_Spec old) st.
Proof. unfold patch_subnet, merge_subnet_status. cbn. rewrite !merge_field_fresh. by destruct st. Qed.

Lemma patch_pool_fresh old st : patch_pool old (mkSubnetPool (pl_meta old) (pl_Spec old) st) old =
  mkSubnetPool (pl_meta old) (pl_Spec old) st.
Proof.
  unfold patch_pool, merge_pool_status. cbn. rewrite !merge_field_fresh, !merge_map_fresh. by destruct st.
Qed.
