(* ===== verification/Effects.v ===== *)
(** Effects of the controllers.  A handler of the program is a [prog]: a tree
    of calls to its environment (the API server behind the client, the event
    recorder, the metrics registry, the clock, the random source, Go's
    unspecified map order), each with a continuation for every response.  The
    API server is a component the repository only calls, so its responses are
    not computed here: [wp] quantifies over all of them that keep a stated
    contract (none for [any]), which includes every
    interleaving with other writers, stale cache reads and injected errors.
    [exec] runs a [prog] against a concrete environment. *)

From S2P Require Import Prelude ApiTypes.

(** * Calls *)

(** The list options the program passes: [InNamespace], [MatchingFields] and
    the paging pair [Limit]/[Continue]. *)
Record ListOptions : Type := mkListOptions {
  lo_Namespace : string;
  lo_Fields : list (string * string);
  lo_Limit : Z;
  lo_Continue : string
}.

(** Operations (without the observed durations) on the Prometheus collectors, by collector and label values. *)
Inductive metric : Type :=
| MInc (name : string) (labels : list string)
| MAdd (name : string) (labels : list string) (v : Z)
| MSet (name : string) (labels : list string) (v : Z)
| MObserve (name : string) (labels : list string).

(** [CPoolGauge] is [recordPoolMetrics], which writes the process-wide gauge
    registry. *)
Inductive call : Type :=
| CGetSubnet (key : NamespacedName)
| CGetPool (key : NamespacedName)
| CGetClaim (key : NamespacedName)
| CGetPoolClaim (key : NamespacedName)
| CListSubnets (opts : ListOptions)
| CListClaims (opts : ListOptions)
| CListPools (opts : ListOptions)
| CCreateSubnet (o : Subnet)
| CCreateClaim (o : SubnetClaim)
| CCreatePool (o : SubnetPool)
| CStatusUpdateClaim (o : SubnetClaim)
| CStatusUpdatePoolClaim (o : SubnetPoolClaim)
| CStatusPatchSubnet (old new : Subnet)
| CStatusPatchPool (old new : SubnetPool)
| CEvent (key : NamespacedName) (eventtype reason message : string)
| CMetric (m : metric)
| CPoolGauge (pool sizeKey : string) (free : Z)
| CSleep (ms : Z)
| CNow
| CRandIntn (n : Z)
| CMapRange (keys : gset string).

(** Reads return the object or an error; a create, a status update and a
    status patch return the error only or the object as stored. *)
Definition resp (c : call) : Type :=
  match c with
  | CGetSubnet _ => result Subnet
  | CGetPool _ => result SubnetPool
  | CGetClaim _ => result SubnetClaim
  | CGetPoolClaim _ => result SubnetPoolClaim
  | CListSubnets _ => result (list Subnet * string)
  | CListClaims _ => result (list SubnetClaim * string)
  | CListPools _ => result (list SubnetPool * string)
  | CCreateSubnet _ => result Subnet
  | CCreateClaim _ => result SubnetClaim
  | CCreatePool _ => result SubnetPool
  | CStatusUpdateClaim _ => result SubnetClaim
  | CStatusUpdatePoolClaim _ => result SubnetPoolClaim
  | CStatusPatchSubnet _ _ => result Subnet
  | CStatusPatchPool _ _ => result SubnetPool
  | CEvent _ _ _ _ => unit
  | CMetric _ => unit
  | CPoolGauge _ _ _ => unit
  | CSleep _ => unit
  | CNow => Z
  | CRandIntn _ => Z
  | CMapRange _ => list string
  end.

(** What the language guarantees of its own sources of nondeterminism: a map
    is ranged over in some order, each key once; [rand.Intn n] is in [0, n) for positive [n]. *)
Definition legal (c : call) : resp c -> Prop :=
  match c with
  | CRandIntn n => λ r, 0 < n -> 0 <= r < n
  | CMapRange keys => λ r, r ≡ₚ elements keys
  | _ => λ _, True
  end.

(** * Programs *)

Inductive prog (A : Type) : Type :=
| Ret (a : A)
| Vis (c : call) (k : resp c -> prog A)
| Panic (msg : string).
Arguments Ret {_} _.
Arguments Vis {_} _ _.
Arguments Panic {_} _.

Fixpoint prog_bind_ {A B} (f : A -> prog B) (p : prog A) : prog B :=
  match p with
  | Ret a => f a
  | Vis c k => Vis c (λ r, prog_bind_ f (k r))
  | Panic m => Panic m
  end.

#[export] Instance prog_ret : MRet prog := @Ret.
#[export] Instance prog_bind : MBind prog := λ A B f p, prog_bind_ f p.

(** One call, returning its response. *)
Definition do_call (c : call) : prog (resp c) := Vis c Ret.

(** A call made for its effect. *)
Definition metric_op (m : metric) : prog unit := do_call (CMetric m).

(** * Traces and weakest preconditions *)

Record event : Type := Ev { ev_call : call; ev_resp : resp ev_call }.

(** A contract of the environment: which responses to expect. *)
Definition env : Type := forall c, resp c -> Prop.
Definition any : env := λ _ _, True.

(** Every legal run of the program in an environment that keeps the contract
    [E], started after the calls [tr], does not panic and ends with a trace
    and a value that satisfy [Q]. *)
Fixpoint wp (E : env) {A} (p : prog A) (tr : list event) (Q : list event -> A -> Prop) : Prop :=
  match p with
  | Ret a => Q tr a
  | Vis c k => forall r, legal c r -> E c r -> wp E (k r) (tr ++ [Ev c r]) Q
  | Panic _ => False
  end.

Section Wp.
Context {A B : Type} (E : env).

Lemma wp_mono (p : prog A) tr (Q Q' : list event -> A -> Prop) :
  wp E p tr Q -> (forall tr' a, Q tr' a -> Q' tr' a) -> wp E p tr Q'.
Proof.
  intros Hp HQ. revert tr Hp. induction p as [a|c k IH|m]; intros tr Hp; cbn in *; [eauto|eauto|done].
Qed.

Lemma wp_env (E' : env) (p : prog A) tr Q :
  (forall c r, E' c r -> E c r) -> wp E p tr Q -> wp E' p tr Q.
Proof.
  intros HE. revert tr. induction p as [a|c k IH|m]; intros tr Hp; cbn in *; [done| |done].
  intros r Hl Hr. apply IH; auto.
Qed.

Lemma wp_bind (p : prog A) (f : A -> prog B) tr Q :
  wp E p tr (λ tr' a, wp E (f a) tr' Q) -> wp E (p ≫= f) tr Q.
Proof.
  revert tr. induction p as [a|c k IH|m]; intros tr Hp; cbn in *; [done| |done].
  intros r Hl Hr. by apply IH, Hp.
Qed.

Lemma wp_ret (a : A) tr (Q : list event -> A -> Prop) : Q tr a -> wp E (mret a) tr Q.
Proof. done. Qed.

Lemma wp_call c tr (Q : list event -> resp c -> Prop) :
  (forall r, legal c r -> E c r -> Q (tr ++ [Ev c r]) r) -> wp E (do_call c) tr Q.
Proof. done. Qed.

Lemma wp_and (p : prog A) tr (Q Q' : list event -> A -> Prop) :
  wp E p tr Q -> wp E p tr Q' -> wp E p tr (λ tr' a, Q tr' a /\ Q' tr' a).
Proof.
  revert tr. induction p as [a|c k IH|m]; intros tr; cbn in *; [done| |done].
  intros H1 H2 r Hl Hr. apply IH; auto.
Qed.

(** A run only adds to the trace. *)
Lemma wp_extends (p : prog A) tr Q :
  wp E p tr Q -> wp E p tr (λ tr' a, (exists ext, tr' = tr ++ ext) /\ Q tr' a).
Proof.
  revert tr. induction p as [a|c k IH|m]; intros tr Hp; cbn in *; [|intros r Hl Hr|done].
  - split; [|done]. exists []. by rewrite app_nil_r.
  - eapply wp_mono; [by apply IH, Hp|]. intros tr' a [(ext & ->) HQ]. split; [|done].
    exists (Ev c r :: ext). by rewrite <-app_assoc.
Qed.
End Wp.

(** * Calls a program may make *)

(** Every call of every run in an environment that keeps [E], also of a run
    that panics later, satisfies [K], and every value returned satisfies [R]. *)
Fixpoint safe (E : env) (K : call -> Prop) {A} (p : prog A) (R : A -> Prop) : Prop :=
  match p with
  | Ret a => R a
  | Vis c k => K c /\ forall r, legal c r -> E c r -> safe E K (k r) R
  | Panic _ => True
  end.

Definition calls_in (E : env) (K : call -> Prop) {A} (p : prog A) : Prop := safe E K p (λ _, True).

Section Safe.
Context (E : env) (K : call -> Prop).

Lemma safe_bind {A B} (p : prog A) (f : A -> prog B) R :
  safe E K p (λ a, safe E K (f a) R) -> safe E K (p ≫= f) R.
Proof.
  induction p as [a|c k IH|m]; cbn in *; [done| |done].
  intros [Hc Hk]. split; [done|]. intros r Hr HE. apply IH; auto.
Qed.

Lemma safe_mono {A} (p : prog A) (R R' : A -> Prop) :
  safe E K p R -> (forall a, R a -> R' a) -> safe E K p R'.
Proof.
  intros Hp HR. induction p as [a|c k IH|m]; cbn in *; [auto| |done].
  destruct Hp as [Hc Hk]. split; [done|]. auto.
Qed.

Lemma safe_call c (R : resp c -> Prop) :
  K c -> (forall r, legal c r -> E c r -> R r) -> safe E K (do_call c) R.
Proof. done. Qed.

Lemma safe_ret {A} (a : A) (R : A -> Prop) : R a -> safe E K (mret a) R.
Proof. done. Qed.

Lemma calls_in_bind {A B} (p : prog A) (f : A -> prog B) :
  calls_in E K p -> (forall a, calls_in E K (f a)) -> calls_in E K (p ≫= f).
Proof. intros Hp Hf. apply safe_bind. eapply safe_mono; [exact Hp|]. intros a _. apply Hf. Qed.

Lemma calls_in_call c : K c -> calls_in E K (do_call c).
Proof. done. Qed.

Lemma calls_in_ret {A} (a : A) : calls_in E K (mret a).
Proof. done. Qed.

Lemma calls_in_mono (E' : env) (K' : call -> Prop) {A} (p : prog A) :
  (forall c r, E' c r -> E c r) -> (forall c, K c -> K' c) -> calls_in E K p -> calls_in E' K' p.
Proof.
  intros HE HK. unfold calls_in. induction p as [a|c k IH|m]; cbn; [done| |done].
  intros [Hc Hk]. split; [auto|]. auto.
Qed.

(** The calls recorded in the trace of a run. *)
Lemma wp_calls_in {A} (p : prog A) tr Q :
  calls_in E K p -> wp E p tr Q ->
  wp E p tr (λ tr' a, Q tr' a /\ exists ext, tr' = tr ++ ext /\ Forall (λ e, K (ev_call e)) ext).
Proof.
  unfold calls_in. revert tr. induction p as [a|c k IH|m]; intros tr Hc Hp; cbn in *; [|intros r Hl Hr|done].
  - split; [done|]. exists []. by rewrite app_nil_r.
  - destruct Hc as [Hc Hk]. eapply wp_mono; [by apply IH; auto|]. intros tr' a (HQ & ext & -> & Hext).
    split; [done|]. exists (Ev c r :: ext). rewrite <-app_assoc. split; [done|]. by constructor.
Qed.
End Safe.

(** Decompose a program into its calls. *)
Ltac calls_step :=
  match goal with
  | |- forall _, _ => intros ?
  | |- calls_in _ _ (_ ≫= _) => apply calls_in_bind
  | |- calls_in _ _ (mret _) => apply calls_in_ret
  | |- calls_in _ _ (Ret _) => exact I
  | |- calls_in _ _ (Panic _) => exact I
  | |- calls_in _ _ (do_call _) => apply calls_in_call
  | |- calls_in _ _ (match ?x with _ => _ end) => destruct x eqn:?
  end.

(** * Execution against a concrete environment *)

Section Exec.
Context {St : Type} (h : forall c, St -> resp c * St).

(** Result ([None] on a panic), final state and trace of a run. *)
Fixpoint exec {A} (p : prog A) (s : St) (tr : list event) : option A * St * list event :=
  match p with
  | Ret a => (Some a, s, tr)
  | Vis c k => let '(r, s') := h c s in exec (k r) s' (tr ++ [Ev c r])
  | Panic _ => (None, s, tr)
  end.

(** A run in an environment that gives legal responses satisfies what [wp]
    promises. *)
Lemma wp_exec {A} (E : env) (p : prog A) s tr Q :
  (forall c s, legal c (h c s).1) -> (forall c s, E c (h c s).1) -> wp E p tr Q ->
  exists a s' tr', exec p s tr = (Some a, s', tr') /\ Q tr' a.
Proof.
  intros Hh HE. revert s tr. induction p as [a|c k IH|m]; intros s tr Hp; cbn in *; [eauto| |done].
  specialize (Hh c s). specialize (HE c s). destruct (h c s) as [r s1]. cbn in Hh, HE.
  by apply IH, Hp.
Qed.

Lemma exec_bind {A B} (p : prog A) (f : A -> prog B) s tr :
  exec (p ≫= f) s tr =
  match exec p s tr with
  | (Some a, s', tr') => exec (f a) s' tr'
  | (None, s', tr') => (None, s', tr')
  end.
Proof.
  revert s tr. induction p as [a|c k IH|m]; intros s tr; cbn; [done| |done].
  destruct (h c s) as [r s1]. apply IH.
Qed.

Lemma exec_call_bind {B} c (f : resp c -> prog B) s tr :
  exec (do_call c ≫= f) s tr = exec (f (h c s).1) (h c s).2 (tr ++ [Ev c (h c s).1]).
Proof. cbn. by destruct (h c s). Qed.

Lemma exec_ret {A} (a : A) s tr : exec (mret a) s tr = (Some a, s, tr).
Proof. done. Qed.
End Exec.

(** Run the first call of the program. *)
Ltac exec_step :=
  match goal with
  | |- context [exec ?h (@mbind _ _ ?A ?B ?f (do_call ?c)) ?s ?tr] =>
      let e := constr:(@mbind prog _ A B f (do_call c)) in
      replace (exec h e s tr) with (exec h (f (h c s).1) (h c s).2 (tr ++ [Ev c (h c s).1]))
        by (symmetry; exact (exec_call_bind h c f s tr))
  end.

(** * Library functions the controllers call *)

(** [k8s.io/apimachinery/pkg/api/errors]: classification of an error. *)
Class ApiErrors : Type := {
  IsNotFound : error -> bool;
  IsConflict : error -> bool;
  IsAlreadyExists : error -> bool
}.

(** Documented behaviour: the classification is by the reason of an API status
    error, looked up through wrapped errors; an error without a status has
    none of the reasons. *)
Class ApiErrorLaws `{ApiErrors} : Prop := {
  IsAlreadyExists_plain m : IsAlreadyExists (EPlain m) = false;
  IsAlreadyExists_wrap m e : IsAlreadyExists (EWrap m e) = IsAlreadyExists e;
  IsNotFound_plain m : IsNotFound (EPlain m) = false;
  IsNotFound_wrap m e : IsNotFound (EWrap m e) = IsNotFound e
}.

(** Classification by reason, as an instance of these laws. *)
Module ByReason.
Fixpoint reason (e : error) : string :=
  match e with EApi r _ => r | EWrap _ e => reason e | _ => "" end.

#[export] Instance api_errors : ApiErrors := {
  IsNotFound e := bool_decide (reason e = "NotFound");
  IsConflict e := bool_decide (reason e = "Conflict");
  IsAlreadyExists e := bool_decide (reason e = "AlreadyExists")
}.

#[export] Instance api_error_laws : ApiErrorLaws.
Proof. by constructor. Qed.
End ByReason.

(** [controllerutil.SetControllerReference] for a given scheme: the metadata
    of the controlled object with the owner added, or an error. *)
Class ControllerUtil : Type := {
  SetControllerReference (ownerKind : string) (owner controlled : ObjectMeta) : result ObjectMeta
}.

(** It only changes the owner references: one of them names the owner, and
    there are no others than before. *)
Class ControllerUtilLaws `{ControllerUtil} : Prop := {
  SetControllerReference_frame kind owner m m' :
    SetControllerReference kind owner m = Ok m' ->
    exists refs, m' = mkObjectMeta (Name m) (GenerateName m) (Namespace m) (UID m) (Generation m)
      (Labels m) (Finalizers m) refs (DeletionTimestamp m);
  SetControllerReference_owner kind owner m m' :
    SetControllerReference kind owner m = Ok m' ->
    (exists ref, ref ∈ OwnerReferences m' /\ or_UID ref = UID owner) /\
    (forall ref, ref ∈ OwnerReferences m' -> ref ∈ OwnerReferences m \/ or_UID ref = UID owner)
}.

(** An instance that records the owner's kind, name and UID. *)
Module OwnerRef.
#[export] Instance controller_util : ControllerUtil := {
  SetControllerReference kind owner m :=
    Ok (mkObjectMeta (Name m) (GenerateName m) (Namespace m) (UID m) (Generation m) (Labels m)
          (Finalizers m) (OwnerReferences m ++ [mkOwnerReference kind (Name owner) (UID owner) true])
          (DeletionTimestamp m))
}.

#[export] Instance controller_util_laws : ControllerUtilLaws.
Proof.
  constructor; intros kind owner m m' [= <-]; [eauto|]. cbn. split.
  - eexists. split; [apply elem_of_app; right; by apply list_elem_of_singleton|done].
  - intros ref [?| ->%list_elem_of_singleton]%elem_of_app; auto.
Qed.
End OwnerRef.

(** [meta.SetStatusCondition] *)
Class ConditionUtil : Type := {
  SetStatusCondition : list Condition -> Condition -> list Condition
}.

(** An instance that replaces a condition of the same type. *)
Module ReplaceCondition.
#[export] Instance condition_util : ConditionUtil := {
  SetStatusCondition l c := filter (λ x, co_Type x <> co_Type c) l ++ [c]
}.
End ReplaceCondition.

(** [wait.Backoff]; factor and jitter in tenths. *)
Record Backoff : Type := mkBackoff {
  bo_Steps : nat; bo_DurationMs : Z; bo_FactorTenths : Z; bo_JitterTenths : Z
}.

(** [client-go/util/retry]: [OnError] with the closure's captured variables
    threaded as a state. *)
Class Retry : Type := {
  OnError : forall {S : Type}, Backoff -> (error -> bool) ->
    (S -> prog (S * option error)) -> S -> prog (S * option error)
}.

Definition RetryOnConflict `{Retry} `{ApiErrors} {S} (b : Backoff)
    (fn : S -> prog (S * option error)) : S -> prog (S * option error) :=
  OnError b IsConflict fn.

(** The function is called, at most [Steps] times, until it succeeds or fails
    with an error that is not retriable; only sleeps happen in between, and
    the last outcome is returned. *)
Class RetryLaws `{Retry} : Prop := {
  OnError_wp {S} (E : env) (b : Backoff) (retriable : error -> bool) (fn : S -> prog (S * option error))
      (I : nat -> S -> list event -> Prop) (Q : list event -> S * option error -> Prop) s tr :
    (1 <= bo_Steps b)%nat ->
    (forall i s tr ms, I i s tr -> I i s (tr ++ [Ev (CSleep ms) tt])) ->
    (forall i s tr, (i < bo_Steps b)%nat -> I i s tr ->
      wp E (fn s) tr (λ tr' r,
        match r.2 with
        | Some e => if retriable e && (i + 1 <? bo_Steps b)%nat then I (i + 1)%nat r.1 tr' else Q tr' r
        | None => Q tr' r
        end)) ->
    I 0%nat s tr -> wp E (OnError b retriable fn s) tr Q;
  OnError_calls {S} (E : env) (K : call -> Prop) b retriable (fn : S -> prog (S * option error)) s :
    (forall ms, K (CSleep ms)) -> (forall s, calls_in E K (fn s)) ->
    calls_in E K (OnError b retriable fn s)
}.

(** A retry loop with a fixed delay satisfies the law. *)
Module FixedDelay.
Fixpoint loop {S} (steps : nat) (ms : Z) (retriable : error -> bool)
    (fn : S -> prog (S * option error)) (s : S) : prog (S * option error) :=
  r ← fn s;
  match r.2, steps with
  | Some e, Datatypes.S steps' =>
      if retriable e
      then do_call (CSleep ms) ≫= λ _, loop steps' ms retriable fn r.1
      else mret r
  | _, _ => mret r
  end.

#[export] Instance retry : Retry := {
  OnError S b := loop (bo_Steps b - 1) (bo_DurationMs b)
}.

Lemma delay_loop_wp {S} E b retriable (fn : S -> prog (S * option error)) (I : nat -> S -> list event -> Prop)
    Q n i s tr :
  (forall i s tr ms, I i s tr -> I i s (tr ++ [Ev (CSleep ms) tt])) ->
  (forall i s tr, (i < bo_Steps b)%nat -> I i s tr ->
    wp E (fn s) tr (λ tr' r,
      match r.2 with
      | Some e => if retriable e && (i + 1 <? bo_Steps b)%nat then I (i + 1)%nat r.1 tr' else Q tr' r
      | None => Q tr' r
      end)) ->
  (i + n + 1 = bo_Steps b)%nat -> I i s tr -> wp E (loop n (bo_DurationMs b) retriable fn s) tr Q.
Proof.
  intros Hsleep Hfn. revert i s tr. induction n as [|n IH]; intros i s tr Hi HI; cbn [loop]; apply wp_bind;
    (eapply wp_mono; [apply (Hfn i); [lia|done]|]); intros tr' [s' [e|]] H; cbn [fst snd] in *;
    try exact H.
  - rewrite (proj2 (Nat.ltb_ge _ _)), andb_false_r in H by lia. exact H.
  - rewrite (proj2 (Nat.ltb_lt _ _)), andb_true_r in H by lia.
    destruct (retriable e); [|exact H]. cbn. intros [] _ _. apply (IH (i + 1)%nat); [lia|].
    by apply Hsleep.
Qed.

Lemma delay_loop_calls {S} E (K : call -> Prop) n ms retriable (fn : S -> prog (S * option error)) s :
  (forall ms, K (CSleep ms)) -> (forall s, calls_in E K (fn s)) -> calls_in E K (loop n ms retriable fn s).
Proof.
  intros Hs Hf. revert s. induction n as [|n IH]; intros s; cbn [loop];
    (apply calls_in_bind; [done|]); intros [s' [e|]]; try done. cbn [snd fst].
  destruct (retriable e); [|done]. apply calls_in_bind; [by apply calls_in_call|]. intros []. apply IH.
Qed.

#[export] Instance laws : RetryLaws.
Proof.
  constructor.
  - intros S E b retriable fn I Q s tr Hb Hsleep Hfn HI. apply (delay_loop_wp E b retriable fn I Q _ 0%nat); auto. lia.
  - intros S E K b retriable fn s. apply delay_loop_calls.
Qed.
End FixedDelay.
