(* ===== verification/InMemory.v ===== *)
(** An executable API server: objects in maps keyed by namespace and name.
    It instantiates the environment of [Effects.v] so that the theorems can be
    evaluated on concrete runs.  Reads are never stale and the map order is
    that of the key enumeration. *)

From S2P Require Import Prelude ApiTypes MergePatch Effects.

Record store : Type := mkStore {
  st_subnets : gmap NamespacedName Subnet;
  st_pools : gmap NamespacedName SubnetPool;
  st_claims : gmap NamespacedName SubnetClaim;
  st_poolclaims : gmap NamespacedName SubnetPoolClaim
}.

Definition empty_store : store := mkStore ∅ ∅ ∅ ∅.

Definition notFound {A} : result A := Err (EApi "NotFound" "not found").
Definition alreadyExists {A} : result A := Err (EApi "AlreadyExists" "already exists").

Definition lookup_obj {A} (m : gmap NamespacedName A) (k : NamespacedName) : result A :=
  match m !! k with Some a => Ok a | None => notFound end.

(** Objects of the namespace whose [spec.poolRef] matches every selector. *)
Definition select_subnets (opts : ListOptions) (m : gmap NamespacedName Subnet) : list Subnet :=
  filter (λ s, Namespace (sn_meta s) = lo_Namespace opts /\
               Forall (λ f, f.1 = "spec.poolRef" -> f.2 = sn_PoolRef (sn_Spec s)) (lo_Fields opts))
    ((map_to_list m).*2).

Definition create_obj {A} (m : gmap NamespacedName A) (k : NamespacedName) (a : A)
    : result A * gmap NamespacedName A :=
  match m !! k with Some _ => (alreadyExists, m) | None => (Ok a, <[k := a]> m) end.

Definition update_obj {A} (m : gmap NamespacedName A) (k : NamespacedName) (a : A)
    : result A * gmap NamespacedName A :=
  match m !! k with Some _ => (Ok a, <[k := a]> m) | None => (notFound, m) end.

(** A patch is applied to the object as it is stored now. *)
Definition patch_obj {A} (m : gmap NamespacedName A) (k : NamespacedName) (f : A -> A)
    : result A * gmap NamespacedName A :=
  match m !! k with Some cur => (Ok (f cur), <[k := f cur]> m) | None => (notFound, m) end.

Definition serve (c : call) : store -> resp c * store :=
  match c with
  | CGetSubnet k => λ s, (lookup_obj (st_subnets s) k, s)
  | CGetPool k => λ s, (lookup_obj (st_pools s) k, s)
  | CGetClaim k => λ s, (lookup_obj (st_claims s) k, s)
  | CGetPoolClaim k => λ s, (lookup_obj (st_poolclaims s) k, s)
  | CListSubnets o => λ s, (Ok (select_subnets o (st_subnets s), ""), s)
  | CListClaims o => λ s,
      (Ok (filter (λ x, Namespace (cl_meta x) = lo_Namespace o) ((map_to_list (st_claims s)).*2), ""), s)
  | CListPools o => λ s,
      (Ok (filter (λ x, Namespace (pl_meta x) = lo_Namespace o) ((map_to_list (st_pools s)).*2), ""), s)
  | CCreateSubnet x => λ s,
      let '(r, m) := create_obj (st_subnets s) (object_key (sn_meta x)) x in
      (r, mkStore m (st_pools s) (st_claims s) (st_poolclaims s))
  | CCreatePool x => λ s,
      let '(r, m) := create_obj (st_pools s) (object_key (pl_meta x)) x in
      (r, mkStore (st_subnets s) m (st_claims s) (st_poolclaims s))
  | CCreateClaim x => λ s,
      let '(r, m) := create_obj (st_claims s) (object_key (cl_meta x)) x in
      (r, mkStore (st_subnets s) (st_pools s) m (st_poolclaims s))
  | CStatusUpdateClaim x => λ s,
      let '(r, m) := update_obj (st_claims s) (object_key (cl_meta x)) x in
      (r, mkStore (st_subnets s) (st_pools s) m (st_poolclaims s))
  | CStatusUpdatePoolClaim x => λ s,
      let '(r, m) := update_obj (st_poolclaims s) (object_key (pc_meta x)) x in
      (r, mkStore (st_subnets s) (st_pools s) (st_claims s) m)
  | CStatusPatchSubnet old new => λ s,
      let '(r, m) := patch_obj (st_subnets s) (object_key (sn_meta new)) (patch_subnet old new) in
      (r, mkStore m (st_pools s) (st_claims s) (st_poolclaims s))
  | CStatusPatchPool old new => λ s,
      let '(r, m) := patch_obj (st_pools s) (object_key (pl_meta new)) (patch_pool old new) in
      (r, mkStore (st_subnets s) m (st_claims s) (st_poolclaims s))
  | CEvent _ _ _ _ => λ s, (tt, s)
  | CMetric _ => λ s, (tt, s)
  | CPoolGauge _ _ _ => λ s, (tt, s)
  | CSleep _ => λ s, (tt, s)
  | CNow => λ s, (0, s)
  | CRandIntn _ => λ s, (0, s)
  | CMapRange keys => λ s, (elements keys, s)
  end.

Lemma serve_legal c s : legal c (serve c s).1.
Proof. destruct c; cbn; try done; repeat case_match; done. Qed.

(** The same server with a pool that never changes. *)
Definition serve_pool (p : SubnetPool) (c : call) : store -> resp c * store :=
  match c with
  | CGetPool k => λ s, (Ok p, s)
  | c => serve c
  end.

Lemma serve_pool_legal p c s : legal c (serve_pool p c s).1.
Proof. destruct c; try apply serve_legal. done. Qed.

(** * Generated names *)

Definition with_name (m : ObjectMeta) (name : string) : ObjectMeta :=
  mkObjectMeta name (GenerateName m) (Namespace m) (UID m) (Generation m) (Labels m) (Finalizers m)
    (OwnerReferences m) (DeletionTimestamp m).

Definition used_names {A} (m : gmap NamespacedName A) : gset string := set_map key_Name (dom m).

(** An object without a name gets one for its prefix, by a function that avoids
    the names in use. *)
Definition named {A} (gen : string -> gset string -> string)
    (m : gmap NamespacedName A) (meta : ObjectMeta) : ObjectMeta :=
  if bool_decide (Name meta = "") then with_name meta (gen (GenerateName meta) (used_names m)) else meta.

(** A suffix that makes the name longer than every name in use. *)
Fixpoint zeros (n : nat) : string := match n with O => "" | S n => String "0"%char (zeros n) end.

Definition long_name (g : string) (X : gset string) : string :=
  g +:+ zeros (S (max_list (String.length <$> elements X))).

Lemma long_name_fresh g X : long_name g X ∉ X.
Proof.
  intros Hin%elem_of_elements. assert (Hz : forall n, String.length (zeros n) = n) by (induction n; cbn; auto).
  assert (Hl : (String.length (long_name g X) <= max_list (String.length <$> elements X))%nat).
  { apply max_list_elem_of_le. by apply list_elem_of_fmap_2. }
  unfold long_name in Hl. rewrite length_append, Hz in Hl. lia.
Qed.

(** Sample objects. *)
Definition sample_pool : SubnetPool :=
  mkSubnetPool (new_meta "pool" "" "ns" ∅) (mkSubnetPoolSpec "10.0.0.0/24" 26 0 0 "") empty_pool_status.

Definition sample_claim : SubnetClaim :=
  mkSubnetClaim (new_meta "claim" "" "ns" ∅) (mkSubnetClaimSpec "pool" "cluster-a" 0 "")
    (mkSubnetClaimStatus 0 "" "" "" []).

Definition sample_subnet : Subnet :=
  mkSubnet (new_meta "pool-10-0-0-0-27" "" "ns" ∅)
    (mkSubnetSpec "pool" "10.0.0.0/27" "cluster-b" (mkClaimReference "other" "")) (mkSubnetStatus "" None).
