(* ===== verification/Metrics.v ===== *)
(** The recording functions of [internal/controller/metrics.go] and the event
    emitter of [internal/controller/events.go], as calls to the environment. *)

From S2P Require Import Prelude Bitmap ApiTypes Effects.

(** * Metrics *)

Definition recordAllocSuccess (claim : SubnetClaim) (cidr : string) : prog unit :=
  let size := pretty (cl_BlockSize (cl_Spec claim)) in
  let size :=
    if bool_decide (size = "0") && bool_decide (cl_RequestedCIDR (cl_Spec claim) <> "")
    then match str_split "/" cidr with
         | [_; p] => match Atoi p with Some prefixLen => pretty prefixLen | None => size end
         | _ => size
         end
    else size in
  metric_op (MInc "aquanaut_subnet_alloc_total" [cl_PoolRef (cl_Spec claim); size; "success"]).

Definition recordRetry (count : Z) : prog unit :=
  metric_op (MInc "aquanaut_subnet_alloc_retry_total" ["all"; pretty count]).

Definition recordLatency : prog unit :=
  metric_op (MObserve "aquanaut_subnet_alloc_latency_seconds" ["all"]).

Definition recordAllocationError (claim : SubnetClaim) (errorType : string) : prog unit :=
  let size := pretty (cl_BlockSize (cl_Spec claim)) in
  let size := if bool_decide (size = "0") then "24" else size in
  metric_op (MInc "aquanaut_subnet_alloc_total" [cl_PoolRef (cl_Spec claim); size; errorType]).

Definition recordCreateMetrics (result : string) : prog unit :=
  metric_op (MInc "aquanaut_ipam_allocation_create_total" [result]) ≫= λ _,
  metric_op (MObserve "aquanaut_ipam_allocation_create_latency_seconds" [result]).

Definition recordPoolStatusUpdate (pool result : string) : prog unit :=
  metric_op (MInc "aquanaut_ipam_pool_status_update_total" [pool; result]) ≫= λ _,
  metric_op (MObserve "aquanaut_ipam_pool_status_update_latency_seconds" [result]).

Definition recordPoolStatusRetry (pool : string) (count : Z) : prog unit :=
  metric_op (MInc "aquanaut_ipam_pool_status_retry_total" [pool; "conflict"]).

(** [poolCIDR] is not used; the sizes come in the order of the map. *)
Definition updateFreeBlockMetrics (poolName poolCIDR : string) (freeCountBySize : gmap string Z) : prog unit :=
  order ← do_call (CMapRange (dom freeCountBySize));
  foldl (λ p size, p ≫= λ _,
           metric_op (MSet "aquanaut_subnet_free" [poolName; size] (default 0 (freeCountBySize !! size))))
    (mret tt) order.

Definition RecordParentPoolReconcileDuration (result : string) : prog unit :=
  metric_op (MObserve "subnetpool_parent_reconcile_duration_seconds" [result]).

Definition RecordParentPoolRequeue (eventType : string) : prog unit :=
  metric_op (MInc "subnetpool_parent_requeue_total" [eventType]).

(** * Events *)

Definition EventReasonAllocated : string := "SubnetAllocated".
Definition EventReasonPoolExhausted : string := "SubnetPoolExhausted".
Definition EventReasonConflict : string := "AllocationConflict".
Definition EventReasonValidationFailed : string := "ValidationFailed".

Definition EmitAllocationSuccess (claim : SubnetClaim) (cidr : string) : prog unit :=
  do_call (CEvent (object_key (cl_meta claim)) "Normal" EventReasonAllocated
    ("Successfully allocated Subnet " +:+ cidr)).

Definition EmitAllocationConflict (claim : SubnetClaim) (details : string) : prog unit :=
  do_call (CEvent (object_key (cl_meta claim)) "Warning" EventReasonConflict
    ("Allocation conflict: " +:+ details)).

Definition EmitPoolExhausted (claim : SubnetClaim) (poolName : string) : prog unit :=
  do_call (CEvent (object_key (cl_meta claim)) "Warning" EventReasonPoolExhausted
    ("Pool " +:+ poolName +:+ " is exhausted for requested size")).

Definition EmitValidationFailed (claim : SubnetClaim) (details : string) : prog unit :=
  do_call (CEvent (object_key (cl_meta claim)) "Warning" EventReasonValidationFailed
    ("Validation failed: " +:+ details)).

Definition EmitPoolEvent (pool : SubnetPool) (eventType reason msg : string) : prog unit :=
  do_call (CEvent (object_key (pl_meta pool)) eventType reason msg).

(** Calls without effect on the cluster's objects. *)
Definition quiet_c (c : call) : Prop :=
  match c with
  | CMetric _ | CPoolGauge _ _ _ | CEvent _ _ _ _ | CSleep _ | CNow | CRandIntn _ | CMapRange _ => True
  | _ => False
  end.

Definition quiet (e : event) : Prop := quiet_c (ev_call e).

(** A program that makes only quiet calls and never panics. *)
Fixpoint quiet_prog {A} (p : prog A) : Prop :=
  match p with
  | Ret _ => True
  | Vis c k => quiet_c c /\ forall r, quiet_prog (k r)
  | Panic _ => False
  end.

Lemma wp_quiet {A} E (p : prog A) tr Q :
  quiet_prog p -> (forall ext a, Forall quiet ext -> Q (tr ++ ext) a) -> wp E p tr Q.
Proof.
  revert tr. induction p as [a|c k IH|m]; intros tr Hp HQ; cbn in *; [|intros r _ _|done].
  - rewrite <-(app_nil_r tr). apply HQ. constructor.
  - destruct Hp as [Hc Hk]. apply IH; [done|]. intros ext a Hext. rewrite <-app_assoc.
    apply HQ. by constructor.
Qed.

Lemma quiet_calls_in {A} E (K : call -> Prop) (p : prog A) :
  (forall c, quiet_c c -> K c) -> quiet_prog p -> calls_in E K p.
Proof.
  intros HK. unfold calls_in. induction p as [a|c k IH|m]; cbn; [done| |done]. intros [Hc Hk]. auto.
Qed.

Lemma quiet_call c : quiet_c c -> quiet_prog (do_call c).
Proof. done. Qed.

Lemma quiet_bind {A B} (p : prog A) (f : A -> prog B) :
  quiet_prog p -> (forall a, quiet_prog (f a)) -> quiet_prog (p ≫= f).
Proof.
  intros Hp Hf. induction p as [a|c k IH|m]; cbn in *; [done| |done].
  destruct Hp as [Hc Hk]. split; [done|]. intros r. apply IH; auto.
Qed.

Lemma quiet_ret {A} (a : A) : quiet_prog (mret a).
Proof. done. Qed.

Ltac solve_quiet :=
  repeat first [ apply quiet_bind; [|intros ?] | apply quiet_ret | apply quiet_call; exact I ].

Lemma quiet_recordAllocSuccess claim cidr : quiet_prog (recordAllocSuccess claim cidr).
Proof. unfold recordAllocSuccess. solve_quiet. Qed.
Lemma quiet_recordRetry n : quiet_prog (recordRetry n).
Proof. unfold recordRetry. solve_quiet. Qed.
Lemma quiet_recordLatency : quiet_prog recordLatency.
Proof. unfold recordLatency. solve_quiet. Qed.
Lemma quiet_recordAllocationError claim t : quiet_prog (recordAllocationError claim t).
Proof. unfold recordAllocationError. solve_quiet. Qed.
Lemma quiet_recordCreateMetrics t : quiet_prog (recordCreateMetrics t).
Proof. unfold recordCreateMetrics. solve_quiet. Qed.
Lemma quiet_recordPoolStatusUpdate p t : quiet_prog (recordPoolStatusUpdate p t).
Proof. unfold recordPoolStatusUpdate. solve_quiet. Qed.
Lemma quiet_recordPoolStatusRetry p n : quiet_prog (recordPoolStatusRetry p n).
Proof. unfold recordPoolStatusRetry. solve_quiet. Qed.
Lemma quiet_event k t r m : quiet_prog (do_call (CEvent k t r m)).
Proof. solve_quiet. Qed.
Lemma quiet_sleep ms : quiet_prog (do_call (CSleep ms)).
Proof. solve_quiet. Qed.

#[export] Hint Resolve quiet_recordAllocSuccess quiet_recordRetry quiet_recordLatency
  quiet_recordAllocationError quiet_recordCreateMetrics quiet_recordPoolStatusUpdate
  quiet_recordPoolStatusRetry quiet_event quiet_sleep quiet_ret quiet_bind : plex.
