(* ===== verification/Names.v ===== *)
(** [EncodeAllocationName] of [internal/controller/allocator.go]: the name of
    the Subnet object of a pool and a CIDR.  The name is the unique key the
    allocation protocol relies on; the theorems bound its length and show
    that, for IPv4 CIDRs and as long as no shortening is needed, it determines
    both the pool and the CIDR. *)

From S2P Require Import Prelude GoNet GoHash.

(** * Model *)

(** [strings.ReplaceAll(s, old, new)] for one-byte texts. *)
Fixpoint replace_char (old new : ascii) (s : string) : string :=
  match s with
  | EmptyString => EmptyString
  | String c s' => String (if bool_decide (c = old) then new else c) (replace_char old new s')
  end.

(** [s[:n]] for [n] at most the length. *)
Definition str_take (n : nat) (s : string) : string := String.substring 0 n s.

Definition normalize_cidr (cidr : string) : string :=
  let normalizedCIDR := replace_char "/" "-" cidr in
  let normalizedCIDR := replace_char "." "-" normalizedCIDR in
  replace_char ":" "-" normalizedCIDR.

Definition EncodeAllocationName (pool cidr : string) : string :=
  let normalizedCIDR := normalize_cidr cidr in
  let name := pool +:+ "-" +:+ normalizedCIDR in
  if (String.length name <=? 63)%nat then name
  else
    let h := sha1_Sum (string_bytes name) in
    let hashStr := hex_text (take 8 h) in
    let maxPoolLen := 40%nat in
    let pool := if (maxPoolLen <? String.length pool)%nat then str_take maxPoolLen pool else pool in
    let shortName := pool +:+ "-" +:+ hashStr in
    if (63 <? String.length shortName)%nat then str_take 63 shortName else shortName.

(** * Lengths *)

Lemma str_take_length n s : (n <= String.length s)%nat -> String.length (str_take n s) = n.
Proof.
  unfold str_take. revert n. induction s as [|c s IH]; intros [|n] Hn; cbn in *; try lia.
  rewrite IH; lia.
Qed.

Lemma hash_text_length m : String.length (hex_text (take 8 (sha1_Sum m))) = 16%nat.
Proof. by rewrite hex_text_length, length_take, sha1_Sum_length. Qed.

(** * Separators *)

(** Number of dashes of a text. *)
Fixpoint dashes (s : string) : nat :=
  match s with
  | EmptyString => 0
  | String c s' => ((if bool_decide (c = "-"%char) then 1 else 0) + dashes s')%nat
  end.

Lemma dashes_app s t : dashes (s +:+ t) = (dashes s + dashes t)%nat.
Proof. induction s as [|c s IH]; [done|]. rewrite append_cons. cbn. rewrite IH. lia. Qed.

Lemma dashes_none s : no_char "-" s = true -> dashes s = 0%nat.
Proof.
  induction s as [|c s IH]; [done|]. unfold no_char in *. cbn. intros [Hc Hs]%andb_true_iff.
  rewrite IH by done. by apply negb_true_iff in Hc as ->.
Qed.

(** A dash followed by a known number of dashes can only be cut one way. *)
Lemma dash_suffix_unique p q s t :
  dashes s = dashes t -> p +:+ String "-" s = q +:+ String "-" t -> p = q /\ s = t.
Proof.
  intros Hd. revert q. induction p as [|c p IH]; intros [|d q] H.
  - rewrite !append_nil_l in H. by simplify_eq.
  - exfalso. rewrite append_nil_l, append_cons in H. injection H as _ ->.
    rewrite dashes_app in Hd. cbn [dashes] in Hd. rewrite bool_decide_eq_true_2 in Hd by done. lia.
  - exfalso. rewrite append_nil_l, append_cons in H. injection H as _ <-.
    rewrite dashes_app in Hd. cbn [dashes] in Hd. rewrite bool_decide_eq_true_2 in Hd by done. lia.
  - rewrite !append_cons in H. injection H as -> H. apply IH in H as [-> ->]. done.
Qed.

Lemma replace_char_app o n s t : replace_char o n (s +:+ t) = replace_char o n s +:+ replace_char o n t.
Proof. induction s as [|c s IH]; [done|]. rewrite !append_cons. cbn. by rewrite IH. Qed.

Lemma normalize_app s t : normalize_cidr (s +:+ t) = normalize_cidr s +:+ normalize_cidr t.
Proof. unfold normalize_cidr. by rewrite !replace_char_app. Qed.

Lemma replace_char_id o n s : no_char o s = true -> replace_char o n s = s.
Proof.
  induction s as [|c s IH]; [done|]. unfold no_char in *. cbn. intros [Hc Hs]%andb_true_iff.
  apply negb_true_iff in Hc as ->. by rewrite IH.
Qed.

(** * IPv4 CIDR texts *)
Section V4Text.
(** The text of an IPv4 network, as [AllocateNextAvailable] builds it. *)
Definition v4_text (ip : list Z) (n : Z) : string := IP_String4 ip +:+ "/" +:+ pretty n.

Lemma pretty_byte_no c b : is_digit c = false -> is_byte b -> no_char c (pretty b) = true.
Proof. intros Hc H%byte_text. unfold byte_text_ok in H. bool_prop. by apply all_digits_no_char. Qed.

Lemma pretty_byte_inj a b : is_byte a -> is_byte b -> pretty a = pretty b -> a = b.
Proof.
  intros Ha%byte_text Hb%byte_text E. unfold byte_text_ok in *. bool_prop. rewrite E in *. congruence.
Qed.

Lemma normalize_byte b : is_byte b -> normalize_cidr (pretty b) = pretty b.
Proof. intros Hb. unfold normalize_cidr.
  rewrite (replace_char_id "/"), (replace_char_id "."), (replace_char_id ":") by by apply pretty_byte_no. done. Qed.

Lemma normalize_v4 a b c d n :
  is_byte a -> is_byte b -> is_byte c -> is_byte d -> is_byte n ->
  normalize_cidr (v4_text [a; b; c; d] n) =
  pretty a +:+ String "-" (pretty b +:+ String "-" (pretty c +:+ String "-"
    (pretty d +:+ String "-" (pretty n)))).
Proof.
  intros. unfold v4_text, IP_String4. rewrite !normalize_app, !normalize_byte by done.
  change (normalize_cidr ".") with "-". change (normalize_cidr "/") with "-".
  by rewrite !append_assoc.
Qed.

Lemma dashes_byte b s : is_byte b -> dashes (pretty b +:+ String "-" s) = S (dashes s).
Proof. intros Hb. by rewrite dashes_app, dashes_none by by apply pretty_byte_no. Qed.

Lemma v4_text_names p q ip jp n m :
  bytes ip -> bytes jp -> length ip = 4%nat -> length jp = 4%nat -> is_byte n -> is_byte m ->
  p +:+ "-" +:+ normalize_cidr (v4_text ip n) = q +:+ "-" +:+ normalize_cidr (v4_text jp m) ->
  p = q /\ ip = jp /\ n = m.
Proof.
  intros Hi Hj Li Lj Hn Hm E.
  destruct ip as [|a [|b [|c [|d [|]]]]], jp as [|a' [|b' [|c' [|d' [|]]]]]; try done.
  unfold bytes in Hi, Hj. rewrite !Forall_cons in Hi, Hj. destruct_and!.
  rewrite !normalize_v4 in E by done. rewrite !append_cons, !append_nil_l in E.
  repeat match type of E with
  | _ +:+ String "-" _ = _ +:+ String "-" _ =>
      apply dash_suffix_unique in E as [? E];
        [|by rewrite ?dashes_byte, !dashes_none by (done || by apply pretty_byte_no)]
  end.
  repeat match goal with
  | H : pretty ?x = pretty ?y |- _ => apply pretty_byte_inj in H; [subst|done|done]
  end. done.
Qed.
End V4Text.

(** * Properties *)

(** Every name [EncodeAllocationName] produces has at most 63 characters, the
    limit for resource names; shortened names have at most 57. *)
Theorem EncodeAllocationName_length pool cidr :
  (String.length (EncodeAllocationName pool cidr) <= 63)%nat /\
  (63 < String.length (pool +:+ "-" +:+ normalize_cidr cidr) ->
   String.length (EncodeAllocationName pool cidr) <= 57)%nat.
Proof.
  unfold EncodeAllocationName. destruct (Nat.leb_spec (String.length (pool +:+ "-" +:+ normalize_cidr cidr)) 63).
  { split; lia. }
  set (p := if (40 <? String.length pool)%nat then str_take 40 pool else pool).
  assert (Hp : (String.length p <= 40)%nat).
  { unfold p. destruct (Nat.ltb_spec 40 (String.length pool)); [|done]. by rewrite str_take_length by lia. }
  assert (Hs : (String.length (p +:+ "-" +:+ hex_text (take 8 (sha1_Sum (string_bytes
    (pool +:+ "-" +:+ normalize_cidr cidr))))) <= 57)%nat).
  { rewrite !length_append, hash_text_length. cbn. lia. }
  rewrite (proj2 (Nat.ltb_ge 63 _)) by lia. split; [|intros _]; [|exact Hs]. etransitivity; [exact Hs|lia].
Qed.


