(* ===== verification/Select.v ===== *)
(** Candidate selection of [internal/controller/allocator.go] and claim
    validation of [internal/controller/reconciler.go]: the functions that
    decide which CIDR a claim gets, without effects.  Go ranges over a map in
    an unspecified order; [findAvailableCIDR] takes that order as the list of
    the map's keys. *)

From S2P Require Import Prelude GoNet NetUtil Bitmap ApiTypes.

(** * Model *)

Definition NewExhaustedError (msg : string) : error := EAllocator msg true false.
Definition NewConflictError (msg : string) : error := EAllocator msg false true.

Definition IsExhaustedError (err : error) : bool :=
  match err with EAllocator _ isExhausted _ => isExhausted | _ => false end.

Definition findAvailableCIDR (poolCIDR : string) (blockSize : Z) (usedCIDRs : list string)
    : result string :=
  match NewCIDRMap poolCIDR with
  | Err err => Err (EWrap ("failed to create CIDR map: " +:+ Error err) err)
  | Ok cidrMap =>
      let cidrMap := foldl mark_ignoring_errors cidrMap usedCIDRs in
      match AllocateNextAvailable cidrMap blockSize with
      | Err err => Err (EWrap ("failed to allocate CIDR: " +:+ Error err) err)
      | Ok (cidr, _) => Ok cidr
      end
  end.

Definition handleCIDRSelectionError (err : error) (blockSize : Z) (poolCIDR : string) : error :=
  if str_contains (Error err) "no available CIDR blocks" || str_contains (Error err) "pool exhausted"
  then NewExhaustedError ("failed to find available CIDR of size /" +:+ pretty blockSize
         +:+ ": pool exhausted")
  else if str_contains (Error err) "prefix length" || str_contains (Error err) "invalid"
  then EPlain ("invalid block size /" +:+ pretty blockSize +:+ " for pool " +:+ poolCIDR
         +:+ ": " +:+ Error err)
  else EPlain ("failed to find available CIDR of size /" +:+ pretty blockSize +:+ ": " +:+ Error err).

(** Claim size, else pool default, else /24. *)
Definition effectiveBlockSize (claim : SubnetClaim) (pool : SubnetPool) : Z :=
  let blockSize := cl_BlockSize (cl_Spec claim) in
  if blockSize =? 0 then
    let blockSize := pl_DefaultBlockSize (pl_Spec pool) in
    if blockSize =? 0 then 24 else blockSize
  else blockSize.

(** The overlap scan of [validateRequestedCIDR]: the first overlapping
    allocation. *)
Fixpoint first_overlap (requestedCIDR : string) (existingAllocations : list Subnet) : option string :=
  match existingAllocations with
  | [] => None
  | alloc :: rest =>
      if CIDROverlaps requestedCIDR (sn_CIDR (sn_Spec alloc)) then Some (sn_CIDR (sn_Spec alloc))
      else first_overlap requestedCIDR rest
  end.

(** [None] is the nil dereference of [poolNet] when the pool's CIDR does not
    parse: the code ignores that error. *)
Definition validateRequestedCIDR (requestedCIDR poolCIDR : string) (existingAllocations : list Subnet)
    : option (result string) :=
  match ParseCIDR requestedCIDR with
  | Err err => Some (Err (EWrap ("invalid requested CIDR format: " +:+ Error err) err))
  | Ok (_, ipNet) =>
      match ParseCIDR poolCIDR with
      | Err _ => None
      | Ok (_, poolNet) =>
          if negb (Contains poolNet (IP ipNet))
          then Some (Err (EPlain ("requested CIDR " +:+ requestedCIDR +:+ " is outside pool "
                 +:+ poolCIDR +:+ " (network address outside pool)")))
          else
            let lastIP := CalculateLastIP ipNet in
            if negb (Contains poolNet lastIP)
            then Some (Err (EPlain ("requested CIDR " +:+ requestedCIDR +:+ " is outside pool "
                   +:+ poolCIDR +:+ " (last address outside pool)")))
            else match first_overlap requestedCIDR existingAllocations with
                 | Some cidr => Some (Err (EPlain ("requested CIDR " +:+ requestedCIDR
                     +:+ " overlaps with existing allocation " +:+ cidr)))
                 | None => Some (Ok requestedCIDR)
                 end
      end
  end.

Definition validateClaim (claim : SubnetClaim) (pool : SubnetPool) : option error :=
  let blockSize := cl_BlockSize (cl_Spec claim) in
  let minBlockSize := pl_MinBlockSize (pl_Spec pool) in
  let maxBlockSize := pl_MaxBlockSize (pl_Spec pool) in
  let requestedCIDR := cl_RequestedCIDR (cl_Spec claim) in
  let poolCIDR := pl_CIDR (pl_Spec pool) in
  if negb (blockSize =? 0) && (negb (minBlockSize =? 0) && (blockSize <? minBlockSize))
  then Some (EPlain ("blockSize " +:+ pretty blockSize +:+ " is smaller than pool minimum "
         +:+ pretty minBlockSize))
  else if negb (blockSize =? 0) && (negb (maxBlockSize =? 0) && (maxBlockSize <? blockSize))
  then Some (EPlain ("blockSize " +:+ pretty blockSize +:+ " is larger than pool maximum "
         +:+ pretty maxBlockSize))
  else if bool_decide (requestedCIDR = "") then None
  else match ParseCIDR requestedCIDR with
       | Err err => Some (EWrap ("invalid requested CIDR format: " +:+ Error err) err)
       | Ok (_, ipNet) =>
           match ParseCIDR poolCIDR with
           | Err err => Some (EWrap ("invalid pool CIDR format: " +:+ Error err) err)
           | Ok (_, poolNet) =>
               if negb (Contains poolNet (IP ipNet))
               then Some (EPlain ("requested CIDR " +:+ requestedCIDR +:+ " is outside pool " +:+ poolCIDR))
               else
                 let '(requestedPrefixLen, _) := Mask_Size (Mask ipNet) in
                 if negb (minBlockSize =? 0) && (requestedPrefixLen <? minBlockSize)
                 then Some (EPlain ("requested CIDR prefix length /" +:+ pretty requestedPrefixLen
                        +:+ " is smaller than pool minimum /" +:+ pretty minBlockSize))
                 else if negb (maxBlockSize =? 0) && (maxBlockSize <? requestedPrefixLen)
                 then Some (EPlain ("requested CIDR prefix length /" +:+ pretty requestedPrefixLen
                        +:+ " is larger than pool maximum /" +:+ pretty maxBlockSize))
                 else None
           end
       end.

(** * Specification vocabulary *)

(** An IPv4 network of the given prefix length that lies inside the pool. *)
Definition block_in (c : CIDRMap) (size : Z) (n : IPNet) : Prop :=
  length (IP n) = 4%nat /\ net_ones n = size /\
  base c <= net_lo n /\ net_hi n < base c + pool_size c.

(** A used CIDR that meets the pool starts in it (it does not contain the
    pool from below). *)
Definition starts_inside (c : CIDRMap) (poolCIDR u : string) : Prop :=
  CIDROverlaps u poolCIDR = true -> exists ip n, ParseCIDR u = Ok (ip, n) /\ in_pool c n.

(** * Lemmas *)

(** What the code knows of the pool text of a map. *)
Lemma NewCIDRMap_pool poolCIDR c :
  NewCIDRMap poolCIDR = Ok c ->
  exists ip n, ParseCIDR poolCIDR = Ok (ip, n) /\ length (IP n) = 4%nat /\
    net_lo n = base c /\ net_hi n = base c + pool_size c - 1.
Proof.
  intros (ip & n & P & H4 & Ho & ->)%NewCIDRMap_ok. exists ip, n. apply ParseCIDR_wf in P as Hn.
  unfold net_hi. rewrite net_size_v4 by done. unfold base, pool_size, net_lo. cbn.
  rewrite canon_4 by done. done.
Qed.

(** A used CIDR overlaps a block of the pool exactly when it covers one of the
    block's offsets. *)
Lemma overlap_covers poolCIDR c v ip n u :
  NewCIDRMap poolCIDR = Ok c -> starts_inside c poolCIDR u ->
  ParseCIDR v = Ok (ip, n) -> length (IP n) = 4%nat ->
  base c <= net_lo n -> net_hi n < base c + pool_size c ->
  CIDROverlaps v u = true <->
  exists o, net_lo n - base c <= o <= net_hi n - base c /\ covers c u o.
Proof.
  intros HN Hst P H4 Hlo Hhi. apply ParseCIDR_wf in P as Hn. pose proof (net_hi_ge _ Hn). split.
  - destruct (NewCIDRMap_pool _ _ HN) as (ipp & np & Pp & Hp4 & Elo & Ehi).
    apply ParseCIDR_wf in Pp as Hnp. intros HO. pose proof HO as HO'.
    rewrite CIDROverlaps_first, P in HO'.
    destruct (ParseCIDR u) as [[ip' n']|] eqn:Pu; [|done]. clear HO'.
    apply ParseCIDR_wf in Pu as Hn'.
    apply (CIDROverlaps_nets v u ip n ip' n' P Pu) in HO as (Hb & Hf & H1 & H2).
    assert (Hup : CIDROverlaps u poolCIDR = true).
    { apply (CIDROverlaps_nets u poolCIDR ip' n' ipp np Pu Pp).
      rewrite (net_fam_v4 n H4) in Hf. rewrite (net_fam_v4 np Hp4).
      rewrite (wf_bits _ Hn), H4 in Hb. rewrite (wf_bits _ Hnp), Hp4. split_and!; [done|done|lia|lia]. }
    destruct (Hst Hup) as (ip2 & n2 & Pu2 & Hin). rewrite Pu in Pu2. simplify_eq.
    exists (Z.max (net_lo n) (net_lo n2) - base c). pose proof (net_hi_ge _ Hn'). split; [lia|].
    exists ip2, n2. split_and!; [done|done|lia|lia].
  - intros (o & Ho & Hcov). apply (covers_overlap c v u o); [|done].
    exists ip, n. split_and!; [done|split; [done|lia]|lia|lia].
Qed.

(** Marking permuted used CIDRs, pairwise equal or disjoint, gives one map. *)
Lemma marked_unique c0 c c' l l' :
  minSize c = minSize c' -> maxSize c = maxSize c' ->
  marked c0 c l -> marked c0 c' l' -> (forall u, u ∈ l <-> u ∈ l') -> c = c'.
Proof.
  intros Hmin Hmax (Hw & Hb & Hp & Hz) (Hw' & Hb' & Hp' & Hz') Hl.
  destruct c as [b p z mx mn], c' as [b' p' z' mx' mn']. cbn in *. subst. f_equal.
  apply Z.bits_inj'. intros o _. apply eq_true_iff_eq.
  change (busy (mkCIDRMap (baseIP c0) (prefixLen c0) z mx' mn') o <->
          busy (mkCIDRMap (baseIP c0) (prefixLen c0) z' mx' mn') o).
  rewrite Hz, Hz'. by setoid_rewrite Hl.
Qed.

Lemma marked_used poolCIDR c used :
  NewCIDRMap poolCIDR = Ok c -> (forall u v, u ∈ used -> v ∈ used -> compatible u v) ->
  exists seen, (forall u, u ∈ seen <-> u ∈ used) /\ marked c (foldl mark_ignoring_errors c used) seen.
Proof.
  intros HN Hcompat. destruct (marked_all c c [] used) as (seen & Hs & Hm).
  - by eapply marked_new.
  - intros u v Hu Hv. rewrite app_nil_r in Hv. auto.
  - exists seen. split; [|done]. intros u. by rewrite Hs, app_nil_r.
Qed.

(** A block of the pool is block number [i] of its size, for some [i]. *)
Lemma block_index c size n :
  wf_map c -> 16 <= size <= 28 -> wf_net n -> block_in c size n ->
  exists i, 0 <= i < pow2_int (size - prefixLen c) /\ net_lo n = base c + i * 2 ^ (32 - size) /\
    net_hi n = base c + i * 2 ^ (32 - size) + 2 ^ (32 - size) - 1.
Proof.
  intros Hc Hs Hn (H4 & Ho & Hlo & Hhi). pose proof (wfm_prefix _ Hc). unfold net_hi in *.
  rewrite net_size_v4, Ho in * by done. pose proof (pow2_gt0 (32 - size) ltac:(lia)) as Hpos.
  assert (Hps : prefixLen c <= size).
  { destruct (Z.le_gt_cases (prefixLen c) size); [done|]. exfalso. unfold pool_size in Hhi.
    pose proof (Z.pow_lt_mono_r 2 (32 - prefixLen c) (32 - size)). lia. }
  pose proof (wf_aligned _ Hn) as Ha. unfold net_host in Ha. rewrite (wf_bits _ Hn), H4, Ho in Ha.
  assert (Hcan : be_Z (IP n) = net_lo n) by (unfold net_lo; by rewrite canon_4). rewrite Hcan in Ha.
  pose proof (wfm_aligned _ Hc) as Hb. unfold pool_size in *.
  rewrite pow2_int_eq by lia. pose proof (pow2_gt0 (size - prefixLen c) ltac:(lia)).
  rewrite (pow2_split (32 - prefixLen c) (32 - size)) in * by lia.
  replace (32 - prefixLen c - (32 - size)) with (size - prefixLen c) in * by lia.
  apply Z.mod_divide in Ha as [a Ea]; [|change (8 * Z.of_nat 4) with 32; lia].
  change (8 * Z.of_nat 4) with 32 in Ea.
  apply Z.mod_divide in Hb as [b Eb]; [|nia].
  exists (a - b * 2 ^ (size - prefixLen c)). rewrite Ea, Eb in *.
  set (P := 2 ^ (32 - size)) in *. set (Q := 2 ^ (size - prefixLen c)) in *.
  split_and!; nia.
Qed.

(** A block is busy in the map of the used CIDRs exactly when its text
    overlaps a used CIDR. *)
Lemma busy_iff_overlap poolCIDR c used i size v ip n :
  NewCIDRMap poolCIDR = Ok c -> (forall u v, u ∈ used -> v ∈ used -> compatible u v) ->
  (forall u, u ∈ used -> starts_inside c poolCIDR u) ->
  ParseCIDR v = Ok (ip, n) -> block_in c size n ->
  net_lo n = base c + i * 2 ^ (32 - size) ->
  net_hi n = base c + i * 2 ^ (32 - size) + 2 ^ (32 - size) - 1 ->
  block_busy (foldl mark_ignoring_errors c used) (i * 2 ^ (32 - size)) (2 ^ (32 - size)) <->
  exists u, u ∈ used /\ CIDROverlaps v u = true.
Proof.
  intros HN Hcompat Hst P (H4 & Ho & Hlo & Hhi) Elo Ehi.
  destruct (marked_used poolCIDR c used HN Hcompat) as (seen & Hseen & _ & _ & _ & Hz).
  unfold block_busy. split.
  - intros (o & Hr & (u & Hu & Hcov)%Hz). exists u. apply Hseen in Hu. split; [done|].
    apply (overlap_covers poolCIDR c v ip n u); auto. exists o. split; [lia|done].
  - intros (u & Hu & (o & Hr & Hcov)%(overlap_covers poolCIDR c v ip n u)); auto.
    exists o. split; [lia|]. apply Hz. exists u. by rewrite Hseen.
Qed.

(** What [AllocateNextAvailable] answers on the map of the used CIDRs. *)
Lemma findAvailableCIDR_cases poolCIDR c size used :
  NewCIDRMap poolCIDR = Ok c -> 16 <= size <= 28 ->
  (forall u v, u ∈ used -> v ∈ used -> compatible u v) ->
  let m := foldl mark_ignoring_errors c used in
  (exists i cidr ip n, findAvailableCIDR poolCIDR size used = Ok cidr /\
    ParseCIDR cidr = Ok (ip, n) /\ block_in c size n /\
    0 <= i < pow2_int (size - prefixLen c) /\ net_lo n = base c + i * 2 ^ (32 - size) /\
    ~ block_busy m (i * 2 ^ (32 - size)) (2 ^ (32 - size)) /\
    forall j, 0 <= j < i -> block_busy m (j * 2 ^ (32 - size)) (2 ^ (32 - size))) \/
  (findAvailableCIDR poolCIDR size used
    = Err (EWrap ("failed to allocate CIDR: " +:+ "no available CIDR blocks of size /" +:+ pretty size)
        (EPlain ("no available CIDR blocks of size /" +:+ pretty size))) /\
   forall j, 0 <= j < pow2_int (size - prefixLen c) ->
     block_busy m (j * 2 ^ (32 - size)) (2 ^ (32 - size))).
Proof.
  intros HN Hs Hcompat m. destruct (marked_used poolCIDR c used HN Hcompat) as (seen & _ & Hw & Hb & Hp & _).
  fold m in Hw, Hb, Hp. unfold findAvailableCIDR. rewrite HN. fold m.
  destruct (AllocateNextAvailable_cases m size Hw Hs)
    as [(i & cidr & ip & n & c' & Hi & Hf & Hmin & -> & HM & P & H4 & Ho & Hlo)|[Hbusy ->]].
  - left. exists i, cidr, ip, n. pose proof (total_blocks m size i Hw Hs Hi) as (_ & ? & ?).
    apply ParseCIDR_wf in P as Hn. unfold block_in, net_hi. rewrite net_size_v4, Ho by done.
    rewrite Hp in Hi. unfold base, pool_size in *. rewrite Hb in Hlo. rewrite Hp in *.
    split_and!; auto; lia.
  - right. rewrite Hp in Hbusy. split; [done|]. exact Hbusy.
Qed.

(** A success returns a block of the pool that overlaps no used CIDR, whatever
    the size asked for. *)
Lemma find_fresh poolCIDR c size used cidr :
  NewCIDRMap poolCIDR = Ok c -> findAvailableCIDR poolCIDR size used = Ok cidr ->
  (forall u v, u ∈ used -> v ∈ used -> compatible u v) ->
  (forall u, u ∈ used -> starts_inside c poolCIDR u) ->
  exists ip n, ParseCIDR cidr = Ok (ip, n) /\ block_in c (net_ones n) n /\
    forall u, u ∈ used -> CIDROverlaps cidr u = false.
Proof.
  intros HN HF Hcompat Hst.
  assert (Hs : 16 <= size <= 28).
  { unfold findAvailableCIDR in HF. rewrite HN in HF.
    destruct (marked_used poolCIDR c used HN Hcompat) as (seen & _ & Hw & _).
    unfold AllocateNextAvailable in HF. pose proof (wfm_sizes _ Hw) as [Emin Emax].
    rewrite Emin, Emax in HF. destruct ((size <? 16) || (28 <? size)) eqn:E; [done|].
    apply orb_false_iff in E. rewrite !Z.ltb_ge in E. lia. }
  destruct (findAvailableCIDR_cases poolCIDR c size used HN Hs Hcompat)
    as [(i & cidr' & ip & n & E & P & Hin & Hi & Hlo & Hfree & _)|[E _]]; rewrite E in HF; simplify_eq.
  exists ip, n. pose proof Hin as (H4 & Ho & _). rewrite Ho. split_and!; [done|done|].
  intros u Hu. apply not_true_iff_false. intros HO. apply Hfree.
  apply (busy_iff_overlap poolCIDR c used i size cidr ip n); auto; [|by exists u].
  apply ParseCIDR_wf in P as Hn. unfold net_hi. rewrite net_size_v4, Ho by done. lia.
Qed.

Lemma mark_ignoring_wf us c :
  wf_map c -> wf_map (foldl mark_ignoring_errors c us) /\
  prefixLen (foldl mark_ignoring_errors c us) = prefixLen c.
Proof.
  revert c. induction us as [|u us IH]; intros c Hc; [done|]. cbn [foldl].
  unfold mark_ignoring_errors at 2 4. destruct (MarkAllocated c u) as [c'|] eqn:E; [|by apply IH].
  apply MarkAllocated_effect in E as (Hc' & _ & Hp & _); [|done].
  destruct (IH c' Hc') as [? ->]. by split.
Qed.

Lemma mark_ignoring_base us c : baseIP (foldl mark_ignoring_errors c us) = baseIP c.
Proof.
  revert c. induction us as [|u us IH]; intros c; [done|]. cbn [foldl]. rewrite IH.
  unfold mark_ignoring_errors, MarkAllocated. by repeat case_match; simplify_eq.
Qed.

Lemma first_overlap_none req l :
  first_overlap req l = None <-> forall a, a ∈ l -> CIDROverlaps req (sn_CIDR (sn_Spec a)) = false.
Proof.
  induction l as [|a l IH]; cbn [first_overlap]; [split; [set_solver|done]|].
  destruct (CIDROverlaps req (sn_CIDR (sn_Spec a))) eqn:E.
  - split; [done|]. intros H. rewrite H in E; [done|set_solver].
  - rewrite IH. split; [|set_solver]. intros H b [->|Hb]%elem_of_cons; auto.
Qed.

Lemma first_overlap_some req l c :
  first_overlap req l = Some c -> exists a, a ∈ l /\ CIDROverlaps req (sn_CIDR (sn_Spec a)) = true.
Proof.
  induction l as [|a l IH]; cbn [first_overlap]; [done|].
  destruct (CIDROverlaps req (sn_CIDR (sn_Spec a))) eqn:E; [exists a; set_solver|].
  intros (b & Hb & HO)%IH. exists b. set_solver.
Qed.

Lemma validateRequestedCIDR_panic req poolCIDR allocs :
  validateRequestedCIDR req poolCIDR allocs = None -> is_ok (ParseCIDR poolCIDR) = false.
Proof. unfold validateRequestedCIDR. by repeat case_match. Qed.

(** The tests against an optional lower and upper bound. *)
Lemma below_min_false lo k : negb (lo =? 0) && (k <? lo) = false <-> lo = 0 \/ lo <= k.
Proof. destruct (Z.eqb_spec lo 0), (Z.ltb_spec k lo); cbn; split; (done || lia). Qed.

Lemma above_max_false hi k : negb (hi =? 0) && (hi <? k) = false <-> hi = 0 \/ k <= hi.
Proof. destruct (Z.eqb_spec hi 0), (Z.ltb_spec hi k); cbn; split; (done || lia). Qed.

(** A guard that returns an error: it is passed exactly when it is false. *)
Lemma guard_none {A} (b : bool) (e : A) r : (if b then Some e else r) = None <-> b = false /\ r = None.
Proof. destruct b; naive_solver. Qed.

(** The two containment tests together say that the network lies in the pool;
    for an IPv4 network they say exactly that. *)
Lemma Contains_both pool n :
  wf_net pool -> wf_net n ->
  Contains pool (IP n) = true -> Contains pool (CalculateLastIP n) = true ->
  net_fam n = net_fam pool /\ net_lo pool <= net_lo n /\ net_hi n <= net_hi pool.
Proof.
  intros Hp Hn HC HL. apply Contains_net in HC as [Hf Hlo]; [|done..].
  apply Contains_last in HL; [|done..]. lia.
Qed.

Lemma Contains_last_v4 pool n :
  wf_net pool -> wf_net n -> length (IP n) = 4%nat -> net_fam pool = 4%nat ->
  net_lo pool <= net_hi n <= net_hi pool -> Contains pool (CalculateLastIP n) = true.
Proof.
  intros Hp Hn H4 Hf Hr. destruct (CalculateLastIP_wf n Hn) as [Hb Hl]. rewrite net_fam_v4 in Hl by done.
  apply Contains_spec; [done|done|by left|].
  rewrite canon_4, Hl, Hf, CalculateLastIP_value by done. done.
Qed.

Lemma str_contains_prefix s t : str_contains (s +:+ t) s = true.
Proof.
  assert (H : String.prefix s (s +:+ t) = true).
  { induction s as [|c s IH]; [by destruct t|]. rewrite append_cons. cbn. by destruct (ascii_dec c c). }
  destruct (s +:+ t); cbn [str_contains]; by rewrite H.
Qed.

(** * Properties *)



(** C35. The unspecified order in which Go ranges over the map of used CIDRs does
    not change the answer of [findAvailableCIDR] as long as the used CIDRs are
    pairwise equal or disjoint. *)
Theorem findAvailableCIDR_order_independent poolCIDR size used used' :
  used ≡ₚ used' -> (forall u v, u ∈ used -> v ∈ used -> compatible u v) ->
  findAvailableCIDR poolCIDR size used = findAvailableCIDR poolCIDR size used'.
Proof.
  intros Hperm Hcompat. unfold findAvailableCIDR. destruct (NewCIDRMap poolCIDR) as [c|] eqn:HN; [|done].
  assert (foldl mark_ignoring_errors c used = foldl mark_ignoring_errors c used') as ->; [|done].
  destruct (marked_used poolCIDR c used HN Hcompat) as (s1 & Hs1 & M1).
  destruct (marked_used poolCIDR c used' HN) as (s2 & Hs2 & M2).
  { intros u v Hu Hv. apply Hcompat; by rewrite Hperm. }
  pose proof (wfm_sizes _ (proj1 M1)) as [? ?]. pose proof (wfm_sizes _ (proj1 M2)) as [? ?].
  eapply marked_unique; [congruence|congruence|exact M1|exact M2|].
  intros u. by rewrite Hs1, Hs2, Hperm.
Qed.

Lemma findAvailableCIDR_order_independent_witness :
  findAvailableCIDR "10.0.0.0/24" 26 ["10.0.0.0/27"; "10.0.0.64/26"]
  = findAvailableCIDR "10.0.0.0/24" 26 ["10.0.0.64/26"; "10.0.0.0/27"].
Proof.
  apply findAvailableCIDR_order_independent; [apply Permutation_swap|].
  intros u v Hu Hv. rewrite !elem_of_cons, elem_of_nil in Hu, Hv.
  destruct Hu as [->|[->|[]]], Hv as [->|[->|[]]];
    intros Ho; vm_compute in Ho; (discriminate Ho || (vm_compute; reflexivity)).
Defined.

(** Without that condition the order matters and the block returned may be in
    use: with a used /25 and a used /26 inside it, marking the /26 first makes
    the /25 unmarkable, its error is ignored, and the second half of the /25
    is handed out. *)
Theorem findAvailableCIDR_nested_overlap :
  exists used used' cidr cidr',
    used ≡ₚ used' /\
    findAvailableCIDR "10.0.0.0/24" 26 used = Ok cidr /\
    (forall u, u ∈ used -> CIDROverlaps cidr u = false) /\
    findAvailableCIDR "10.0.0.0/24" 26 used' = Ok cidr' /\
    exists u, u ∈ used' /\ CIDROverlaps cidr' u = true.
Proof.
  exists ["10.0.0.0/25"; "10.0.0.0/26"], ["10.0.0.0/26"; "10.0.0.0/25"],
    "10.0.0.128/26", "10.0.0.64/26".
  split; [apply Permutation_swap|]. split; [vm_compute; reflexivity|]. split.
  { intros u Hu. rewrite !elem_of_cons, elem_of_nil in Hu.
    destruct Hu as [->|[->|[]]]; vm_compute; reflexivity. }
  split; [vm_compute; reflexivity|]. exists "10.0.0.0/25". split; [set_solver|vm_compute; reflexivity].
Qed.

(** For an accepted pool, a failure of [findAvailableCIDR] is classified by
    [handleCIDRSelectionError] as pool exhaustion exactly when the requested
    size is one the bitmap supports (/16 to /28); any other size gives a plain
    error. *)
Theorem selection_error_classified poolCIDR c size used e :
  NewCIDRMap poolCIDR = Ok c -> findAvailableCIDR poolCIDR size used = Err e ->
  IsExhaustedError (handleCIDRSelectionError e size poolCIDR) = bool_decide (16 <= size <= 28).
Proof.
  intros HN HF. unfold findAvailableCIDR in HF. rewrite HN in HF.
  destruct (mark_ignoring_wf used c (NewCIDRMap_wf _ _ HN)) as [Hw _].
  set (m := foldl mark_ignoring_errors c used) in *. case_bool_decide as Hs.
  - destruct (AllocateNextAvailable_cases m size Hw Hs) as [(? & ? & ? & ? & ? & ? & ? & ? & E & _)|[_ E]];
      rewrite E in HF; simplify_eq.
    unfold handleCIDRSelectionError. cbn [Error].
    rewrite (str_contains_app_r "failed to allocate CIDR: ")
      by (change ("no available CIDR blocks of size /" +:+ pretty size)
            with ("no available CIDR blocks" +:+ (" of size /" +:+ pretty size)); apply str_contains_prefix).
    done.
  - unfold AllocateNextAvailable in HF. pose proof (wfm_sizes _ Hw) as [Emin Emax].
    rewrite Emin, Emax in HF. assert ((size <? 16) || (28 <? size) = true) as E.
    { apply orb_true_iff. rewrite !Z.ltb_lt. lia. }
    rewrite E in HF. simplify_eq. vm_compute. reflexivity.
Qed.

Lemma selection_error_classified_witness :
  IsExhaustedError (handleCIDRSelectionError
    (EWrap "failed to allocate CIDR: no available CIDR blocks of size /28"
       (EPlain "no available CIDR blocks of size /28")) 28 "10.0.0.0/28") = bool_decide (16 <= 28 <= 28).
Proof.
  apply (selection_error_classified "10.0.0.0/28" (mkCIDRMap [10; 0; 0; 0] 28 0 28 16) 28 ["10.0.0.0/28"]);
    vm_compute; reflexivity.
Defined.


(** [validateClaim] accepts a claim exactly when its block size, if given, is
    within the pool's bounds, and its requested CIDR, if given, parses, starts
    inside the pool (whose CIDR parses too) and has a prefix length within the
    pool's bounds; a bound of zero is no bound. *)
Theorem validateClaim_accepts claim pool :
  let within k := (pl_MinBlockSize (pl_Spec pool) = 0 \/ pl_MinBlockSize (pl_Spec pool) <= k) /\
                  (pl_MaxBlockSize (pl_Spec pool) = 0 \/ k <= pl_MaxBlockSize (pl_Spec pool)) in
  validateClaim claim pool = None <->
  (cl_BlockSize (cl_Spec claim) = 0 \/ within (cl_BlockSize (cl_Spec claim))) /\
  (cl_RequestedCIDR (cl_Spec claim) = "" \/
   exists ip n ipp np, ParseCIDR (cl_RequestedCIDR (cl_Spec claim)) = Ok (ip, n) /\
     ParseCIDR (pl_CIDR (pl_Spec pool)) = Ok (ipp, np) /\
     net_fam n = net_fam np /\ net_lo np <= net_lo n <= net_hi np /\ within (net_ones n)).
Proof.
  cbv zeta. unfold validateClaim. rewrite !guard_none.
  set (size_ok := cl_BlockSize (cl_Spec claim) = 0 \/ _).
  assert (Hsize : (negb (cl_BlockSize (cl_Spec claim) =? 0) && (negb (pl_MinBlockSize (pl_Spec pool) =? 0)
      && (cl_BlockSize (cl_Spec claim) <? pl_MinBlockSize (pl_Spec pool))) = false) /\
    (negb (cl_BlockSize (cl_Spec claim) =? 0) && (negb (pl_MaxBlockSize (pl_Spec pool) =? 0)
      && (pl_MaxBlockSize (pl_Spec pool) <? cl_BlockSize (cl_Spec claim))) = false) <-> size_ok).
  { unfold size_ok. destruct (Z.eqb_spec (cl_BlockSize (cl_Spec claim)) 0); cbn [negb andb]; [naive_solver|].
    rewrite below_min_false, above_max_false. naive_solver. }
  rewrite <-Logic.and_assoc, Hsize. apply and_iff_compat_l. clear Hsize size_ok.
  case_bool_decide as Hreq; [naive_solver|].
  destruct (ParseCIDR (cl_RequestedCIDR (cl_Spec claim))) as [[ip n]|] eqn:P; [|naive_solver].
  destruct (ParseCIDR (pl_CIDR (pl_Spec pool))) as [[ipp np]|] eqn:Pp; [|naive_solver].
  apply ParseCIDR_wf in P, Pp. destruct (Mask_Size (Mask n)) as [o b] eqn:M.
  rewrite !guard_none, negb_false_iff, Contains_net, below_min_false, above_max_false by done.
  assert (net_ones n = o) as Ho by (unfold net_ones; by rewrite M). split.
  - intros (? & ? & ? & _). right. exists ip, n, ipp, np. rewrite Ho. split_and!; naive_solver.
  - intros [?|(? & ? & ? & ? & [= <- <-] & [= <- <-] & ? & ? & ?)]; [done|]. rewrite Ho in *. naive_solver.
Qed.
