(* ===== verification/Allocator.v ===== *)
(** The allocation protocol of [internal/controller/allocator.go]: choose a
    candidate, create the Subnet object whose name encodes pool and CIDR,
    treat a name conflict as a lost race and retry.  The theorems quantify
    over every response of the API server. *)

From Stdlib Require Import SpecFloat.
From S2P Require Import Prelude GoNet GoFloat NetUtil Bitmap ApiTypes Effects InMemory Metrics Names Select.

(** * Model *)

Definition AllocationMaxRetries : nat := 50.
Definition AllocationBackoffBaseMs : Z := 20.
(** 1.5 and the [float64] nearest to 0.1. *)
Definition AllocationBackoffFactor : float64 := S754_finite false 6755399441055744 (-52).
Definition AllocationJitterRatio : float64 := S754_finite false 7205759403792794 (-56).
Definition PoolRefField : string := "spec.poolRef".

(** [rand.Intn(n)], which panics unless [n] is positive. *)
Definition Intn (n : Z) : prog Z :=
  if 0 <? n then do_call (CRandIntn n) else Panic "invalid argument to Intn".

Definition backoffMs (retry : Z) : float64 :=
  fmul (float_of_Z AllocationBackoffBaseMs) (Pow AllocationBackoffFactor retry).

(** In milliseconds. *)
Definition calculateBackoffWithJitter (retry : Z) : prog Z :=
  let backoffMs := backoffMs retry in
  jitterMs ← Intn (trunc (fmul backoffMs AllocationJitterRatio));
  mret (trunc (fadd backoffMs (float_of_Z jitterMs))).

Section Allocator.
Context `{ApiErrors, ControllerUtil}.

Definition IsConflictError (err : error) : bool :=
  match err with
  | EAllocator _ _ isConflict => isConflict
  | _ => IsAlreadyExists err
  end.

Definition pool_list_options (namespace poolName : string) : ListOptions :=
  mkListOptions namespace [(PoolRefField, poolName)] 0 "".

(** [localUsedCIDRs[alloc.Spec.CIDR] = true] for every allocation. *)
Definition mark_used (localUsedCIDRs : gset string) (allocs : list Subnet) : gset string :=
  foldl (λ m alloc, {[sn_CIDR (sn_Spec alloc)]} ∪ m) localUsedCIDRs allocs.

(** The new allocation list and used map, or the error (both unchanged). *)
Definition refreshAllocationList (pool : SubnetPool) (localUsedCIDRs : gset string)
    : prog (result (list Subnet * gset string)) :=
  r ← do_call (CListSubnets (pool_list_options (Namespace (pl_meta pool)) (Name (pl_meta pool))));
  match r with
  | Err err => mret (Err err)
  | Ok (items, _) => mret (Ok (items, mark_used localUsedCIDRs items))
  end.

Definition selectCandidateCIDR (claim : SubnetClaim) (pool : SubnetPool)
    (localUsedCIDRs : gset string) (existingAllocations : list Subnet) : prog (result string) :=
  if bool_decide (cl_RequestedCIDR (cl_Spec claim) <> "") then
    match validateRequestedCIDR (cl_RequestedCIDR (cl_Spec claim)) (pl_CIDR (pl_Spec pool))
            existingAllocations with
    | None => Panic "invalid memory address or nil pointer dereference"
    | Some r => mret r
    end
  else
    let blockSize := effectiveBlockSize claim pool in
    order ← do_call (CMapRange localUsedCIDRs);
    match findAvailableCIDR (pl_CIDR (pl_Spec pool)) blockSize order with
    | Err err => mret (Err (handleCIDRSelectionError err blockSize (pl_CIDR (pl_Spec pool))))
    | Ok availableCIDR => mret (Ok availableCIDR)
    end.

(** The object a claim submits for a candidate, without owner reference. *)
Definition allocation_spec (claim : SubnetClaim) (pool : SubnetPool) (candidateCIDR : string)
    : SubnetSpec :=
  mkSubnetSpec (Name (pl_meta pool)) candidateCIDR (cl_ClusterID (cl_Spec claim))
    (mkClaimReference (Name (cl_meta claim)) (UID (cl_meta claim))).

Definition createAllocation (claim : SubnetClaim) (pool : SubnetPool)
    (candidateCIDR allocationName : string) : prog (result (bool * string)) :=
  let meta := new_meta allocationName "" (Namespace (cl_meta claim)) ∅ in
  match SetControllerReference "SubnetClaim" (cl_meta claim) meta with
  | Err err => mret (Err (EWrap ("failed to set owner reference: " +:+ Error err) err))
  | Ok meta =>
      let allocation := mkSubnet meta (allocation_spec claim pool candidateCIDR) (mkSubnetStatus "" None) in
      r ← do_call (CCreateSubnet allocation);
      match r with
      | Ok _ =>
          recordCreateMetrics "success" ≫= λ _, mret (Ok (true, candidateCIDR))
      | Err allocCreateErr =>
          if IsAlreadyExists allocCreateErr then
            recordCreateMetrics "exists" ≫= λ _,
            g ← do_call (CGetSubnet (mkKey (Namespace (cl_meta claim)) allocationName));
            let conflict := mret (Err (NewConflictError ("CIDR " +:+ candidateCIDR
                              +:+ " already allocated to another cluster"))) in
            match g with
            | Ok existingAlloc =>
                if bool_decide (sn_ClusterID (sn_Spec existingAlloc) = cl_ClusterID (cl_Spec claim))
                then mret (Ok (true, sn_CIDR (sn_Spec existingAlloc)))
                else conflict
            | Err _ => conflict
            end
          else
            recordCreateMetrics "error" ≫= λ _,
            mret (Err (EWrap ("failed to create allocation: " +:+ Error allocCreateErr) allocCreateErr))
      end
  end.

(** The first existing allocation of the claim's cluster in the pool. *)
Definition find_by_cluster (claim : SubnetClaim) (pool : SubnetPool)
    (existingAllocations : list Subnet) : option Subnet :=
  List.find (λ alloc, bool_decide (sn_ClusterID (sn_Spec alloc) = cl_ClusterID (cl_Spec claim))
                      && bool_decide (sn_PoolRef (sn_Spec alloc) = Name (pl_meta pool)))
    existingAllocations.

(** Steps 4 and 5 of one iteration: [inl] returns from the function, [inr]
    continues the loop with the used map. *)
Definition attempt (claim : SubnetClaim) (pool : SubnetPool) (localUsedCIDRs : gset string)
    (existingAllocations : list Subnet) : prog (result (bool * string) + gset string) :=
  candidate ← selectCandidateCIDR claim pool localUsedCIDRs existingAllocations;
  match candidate with
  | Err err => mret (inl (Err err))
  | Ok candidateCIDR =>
      let localUsedCIDRs := {[candidateCIDR]} ∪ localUsedCIDRs in
      let allocationName := EncodeAllocationName (Name (pl_meta pool)) candidateCIDR in
      r ← createAllocation claim pool candidateCIDR allocationName;
      match r with
      | Err err =>
          let localUsedCIDRs := localUsedCIDRs ∖ {[candidateCIDR]} in
          if negb (IsConflictError err) then mret (inl (Err err)) else mret (inr localUsedCIDRs)
      | Ok (success, cidr) =>
          if success : bool then mret (inl (Ok (true, cidr))) else mret (inr localUsedCIDRs)
      end
  end.

(** The wait and the refreshes at the start of every iteration but the
    first: the pool, the allocation list and the used map to go on with. *)
Definition before_retry (retry : Z) (pool : SubnetPool) (localUsedCIDRs : gset string)
    (existingAllocations : list Subnet) : prog (result (SubnetPool * gset string * list Subnet)) :=
  waitTime ← calculateBackoffWithJitter retry;
  do_call (CSleep waitTime) ≫= λ _,
  r ← do_call (CGetPool (mkKey (Namespace (pl_meta pool)) (Name (pl_meta pool))));
  match r with
  | Err err => mret (Err (EWrap ("failed to get latest pool state: " +:+ Error err) err))
  | Ok pool =>
      l ← refreshAllocationList pool localUsedCIDRs;
      match l with
      | Err _ => mret (Ok (pool, localUsedCIDRs, existingAllocations))
      | Ok (items, used) => mret (Ok (pool, used, items))
      end
  end.

(** [n] iterations are left; [retry] is the number of the next one. *)
Fixpoint allocation_loop (n : nat) (retry : Z) (claim : SubnetClaim) (pool : SubnetPool)
    (localUsedCIDRs : gset string) (existingAllocations : list Subnet)
    : prog (SubnetPool * result (bool * string)) :=
  match n with
  | O => mret (pool, Err (EPlain ("failed to allocate CIDR after "
           +:+ pretty (Z.of_nat AllocationMaxRetries) +:+ " retries")))
  | S n' =>
      prep ← (if 0 <? retry then before_retry retry pool localUsedCIDRs existingAllocations
              else mret (Ok (pool, localUsedCIDRs, existingAllocations)));
      match prep with
      | Err err => mret (pool, Err err)
      | Ok (pool, localUsedCIDRs, existingAllocations) =>
          a ← attempt claim pool localUsedCIDRs existingAllocations;
          match a with
          | inl r => mret (pool, r)
          | inr localUsedCIDRs =>
              allocation_loop n' (retry + 1) claim pool localUsedCIDRs existingAllocations
          end
      end
  end.

(** The latency metric is recorded on every return.  The caller's pool
    object is refreshed in place: its last value is returned too. *)
Definition allocateCIDR (claim : SubnetClaim) (pool : SubnetPool) (existingAllocations : list Subnet)
    : prog (SubnetPool * result (bool * string)) :=
  r ← match find_by_cluster claim pool existingAllocations with
      | Some alloc => mret (pool, Ok (true, sn_CIDR (sn_Spec alloc)))
      | None =>
          allocation_loop AllocationMaxRetries 0 claim pool (mark_used ∅ existingAllocations)
            existingAllocations
      end;
  recordLatency ≫= λ _, mret r.
End Allocator.

(** * Observations of a trace *)

(** The Subnet a create call submits. *)
Definition submitted (e : event) : option Subnet :=
  match ev_call e with CCreateSubnet s => Some s | _ => None end.

Definition submissions (tr : list event) : list Subnet := omap submitted tr.

(** The CIDRs a successful listing of Subnets returns. *)
Definition list_cidrs (e : event) : list string :=
  match e with
  | Ev c r =>
      match c return resp c -> list string with
      | CListSubnets _ => λ r, match r with Ok (items, _) => (λ a, sn_CIDR (sn_Spec a)) <$> items | Err _ => [] end
      | _ => λ _, []
      end r
  end.

(** Everything the allocator has read of the pool's allocations. *)
Definition seen_cidrs (init : list Subnet) (tr : list event) : list string :=
  ((λ a, sn_CIDR (sn_Spec a)) <$> init) ++ (tr ≫= list_cidrs).

(** The CIDR was obtained by a successful create, or from a Subnet read back
    that belongs to the claim's cluster. *)
Definition obtained (claim : SubnetClaim) (tr : list event) (cidr : string) : Prop :=
  (exists s s', Ev (CCreateSubnet s) (Ok s') ∈ tr /\ sn_CIDR (sn_Spec s) = cidr) \/
  (exists key s, Ev (CGetSubnet key) (Ok s) ∈ tr /\ sn_CIDR (sn_Spec s) = cidr /\
    sn_ClusterID (sn_Spec s) = cl_ClusterID (cl_Spec claim)).

(** What every submitted Subnet looks like: its name is the encoding of its
    pool and CIDR, in the claim's namespace, for the claim's cluster. *)
Definition well_submitted (claim : SubnetClaim) (s : Subnet) : Prop :=
  Namespace (sn_meta s) = Namespace (cl_meta claim) /\
  Name (sn_meta s) = EncodeAllocationName (sn_PoolRef (sn_Spec s)) (sn_CIDR (sn_Spec s)) /\
  sn_ClusterID (sn_Spec s) = cl_ClusterID (cl_Spec claim) /\
  sn_ClaimRef (sn_Spec s) = mkClaimReference (Name (cl_meta claim)) (UID (cl_meta claim)).

(** Contract: a read of the pool returns a pool with the property, or an error
    that is not "already exists". *)
Definition pool_reads `{ApiErrors} (P : SubnetPool -> Prop) : env := λ c,
  match c with
  | CGetPool _ => λ r, match r with Ok p => P p | Err e => IsAlreadyExists e = false end
  | _ => λ _, True
  end.

Lemma submissions_app tr1 tr2 : submissions (tr1 ++ tr2) = submissions tr1 ++ submissions tr2.
Proof. apply omap_app. Qed.

Lemma elem_of_mark_used l m u :
  u ∈ mark_used m l <-> u ∈ m \/ u ∈ (λ a, sn_CIDR (sn_Spec a)) <$> l.
Proof.
  revert m. induction l as [|a l IH]; intros m; cbn; [set_solver|]. rewrite IH. set_solver.
Qed.

Lemma seen_cidrs_app init tr1 tr2 : seen_cidrs init (tr1 ++ tr2) = seen_cidrs init tr1 ++ (tr2 ≫= list_cidrs).
Proof. unfold seen_cidrs. by rewrite bind_app, app_assoc. Qed.

Lemma quiet_silent ext : Forall quiet ext -> submissions ext = [] /\ ext ≫= list_cidrs = [].
Proof.
  induction 1 as [|[c r] ext Hq _ [IH1 IH2]]; [done|]. cbn. rewrite IH2.
  unfold submissions in *. cbn. unfold submitted, quiet in *. cbn in *. rewrite IH1. by destruct c.
Qed.

Lemma submissions_create s r tr : submissions (Ev (CCreateSubnet s) r :: tr) = s :: submissions tr.
Proof. done. Qed.

Lemma submissions_other c r tr :
  submitted (Ev c r) = None -> submissions (Ev c r :: tr) = submissions tr.
Proof. intros E. unfold submissions. cbn [omap list_omap]. by rewrite E. Qed.

Lemma obtained_app_r claim tr1 tr2 cidr : obtained claim tr2 cidr -> obtained claim (tr1 ++ tr2) cidr.
Proof.
  intros [(s & s' & Hin & Hs)|(k & s & Hin & Hs)]; [left; exists s, s'|right; exists k, s]; set_solver.
Qed.

Lemma obtained_app_l claim tr1 tr2 cidr : obtained claim tr1 cidr -> obtained claim (tr1 ++ tr2) cidr.
Proof.
  intros [(s & s' & Hin & Hs)|(k & s & Hin & Hs)]; [left; exists s, s'|right; exists k, s]; set_solver.
Qed.

(** The 50 values of the backoff, by evaluation: 20 ms times 1.5^retry, rounded
    down, with a jitter below a tenth of it. *)
Definition backoff_ok (retry : Z) : bool :=
  (trunc (backoffMs retry) =? 20 * 3 ^ retry / 2 ^ retry) &&
  (trunc (fmul (backoffMs retry) AllocationJitterRatio) =? 2 * 3 ^ retry / 2 ^ retry).

Lemma backoff_values retry :
  0 <= retry < 50 ->
  trunc (backoffMs retry) = 20 * 3 ^ retry / 2 ^ retry /\
  trunc (fmul (backoffMs retry) AllocationJitterRatio) = 2 * 3 ^ retry / 2 ^ retry.
Proof.
  intros Hr. assert (Hall : forallb backoff_ok (seqZ 0 50) = true) by (vm_compute; reflexivity).
  rewrite forallb_forall in Hall. specialize (Hall retry).
  rewrite <-list_elem_of_In, elem_of_seqZ in Hall. specialize (Hall ltac:(lia)).
  unfold backoff_ok in Hall. by rewrite andb_true_iff, !Z.eqb_eq in Hall.
Qed.

Lemma jitter_positive retry : 0 <= retry -> 2 <= 2 * 3 ^ retry / 2 ^ retry.
Proof.
  intros Hr. apply Z.div_le_lower_bound; [by apply pow2_gt0|].
  pose proof (Z.pow_le_mono_l 2 3 retry). lia.
Qed.

(** * The protocol *)
Section Protocol.
Context `{ApiErrorLaws, ControllerUtilLaws}.
Context (claim : SubnetClaim).

Lemma selection_error_no_conflict err size cidr :
  IsConflictError (handleCIDRSelectionError err size cidr) = false.
Proof. unfold handleCIDRSelectionError. repeat case_match; cbn; auto using IsAlreadyExists_plain. Qed.

Lemma validate_error_no_conflict req cidr allocs e :
  validateRequestedCIDR req cidr allocs = Some (Err e) -> IsConflictError e = false.
Proof.
  unfold validateRequestedCIDR. destruct (ParseCIDR req) as [[ip n]|err] eqn:Pq.
  - repeat case_match; intros; simplify_eq; apply IsAlreadyExists_plain.
  - intros [= <-]. cbn. rewrite IsAlreadyExists_wrap. unfold ParseCIDR in Pq.
    repeat case_match; simplify_eq; apply IsAlreadyExists_plain.
Qed.

(** Creation submits at most one Subnet, well formed and with the candidate
    CIDR, and reports a CIDR only if it obtained it. *)
Definition create_post (cidr : string) (r : result (bool * string)) (ext : list event) : Prop :=
  ext ≫= list_cidrs = [] /\ (length (submissions ext) <= 1)%nat /\
  Forall (λ s, well_submitted claim s /\ sn_CIDR (sn_Spec s) = cidr) (submissions ext) /\
  forall b c, r = Ok (b, c) -> b = true /\ obtained claim ext c.

Lemma create_post_intro cidr r s resp ext :
  well_submitted claim s -> sn_CIDR (sn_Spec s) = cidr ->
  submissions ext = [] -> ext ≫= list_cidrs = [] ->
  (forall b c, r = Ok (b, c) -> b = true /\ obtained claim (Ev (CCreateSubnet s) resp :: ext) c) ->
  create_post cidr r (Ev (CCreateSubnet s) resp :: ext).
Proof.
  intros Hs Hc H1' H2' Hr. unfold create_post. rewrite submissions_create, H1'.
  split_and!; [exact H2'|cbn; lia|by constructor|done].
Qed.

Lemma create_wp E pool cidr tr :
  wp E (createAllocation claim pool cidr (EncodeAllocationName (Name (pl_meta pool)) cidr)) tr
    (λ tr' r, exists ext, tr' = tr ++ ext /\ create_post cidr r ext).
Proof.
  unfold createAllocation. set (meta := new_meta _ _ _ _).
  destruct (SetControllerReference _ _ meta) as [meta'|err] eqn:SCR; cycle 1.
  { apply wp_ret. exists []. rewrite app_nil_r. split; [done|].
    split_and!; [done|cbn; lia|constructor|done]. }
  apply SetControllerReference_frame in SCR as (refs & ->).
  set (s := mkSubnet _ _ _). assert (Hs : well_submitted claim s) by done.
  apply wp_bind, wp_call. intros r _ _. destruct r as [s'|e].
  - apply wp_bind, wp_quiet; [auto with plex|]. intros ext [] Hq. apply wp_ret.
    destruct (quiet_silent ext Hq) as [Hq1 Hq2]. exists (Ev (CCreateSubnet s) (Ok s') :: ext).
    split; [by rewrite <-app_assoc|]. apply create_post_intro; [done..|].
    intros b c [= <- <-]. split; [done|]. left. exists s, s'. split; [set_solver|done].
  - destruct (IsAlreadyExists e).
    + apply wp_bind, wp_quiet; [auto with plex|]. intros ext [] Hq.
      destruct (quiet_silent ext Hq) as [Hq1 Hq2]. apply wp_bind, wp_call. intros g _ _.
      set (get := Ev _ g).
      assert (Hpost : forall r, (forall b c, r = Ok (b, c) -> b = true /\
          obtained claim (Ev (CCreateSubnet s) (Err e) :: ext ++ [get]) c) ->
        exists ext0, ((tr ++ [Ev (CCreateSubnet s) (Err e)]) ++ ext) ++ [get] = tr ++ ext0 /\
          create_post cidr r ext0).
      { intros r Hr. exists (Ev (CCreateSubnet s) (Err e) :: ext ++ [get]).
        split; [by rewrite <-!app_assoc|].
        apply create_post_intro; [done|done|by rewrite submissions_app, Hq1|by rewrite bind_app, Hq2|done]. }
      destruct g as [s2|e2]; [case_bool_decide as Hcl|]; apply wp_ret, Hpost; try done.
      intros b c [= <- <-]. split; [done|]. right. eexists _, s2. split; [|done].
      rewrite elem_of_cons, elem_of_app. right. right. by apply list_elem_of_singleton.
    + apply wp_bind, wp_quiet; [auto with plex|]. intros ext [] Hq. apply wp_ret.
      destruct (quiet_silent ext Hq) as [Hq1 Hq2]. exists (Ev (CCreateSubnet s) (Err e) :: ext).
      split; [by rewrite <-app_assoc|]. by apply create_post_intro.
Qed.

Lemma backoff_wp E retry tr :
  0 <= retry < 50 ->
  wp E (calculateBackoffWithJitter retry) tr (λ tr' _, exists ext, tr' = tr ++ ext /\ Forall quiet ext).
Proof.
  intros Hr. unfold calculateBackoffWithJitter, Intn. destruct (backoff_values retry Hr) as [_ ->].
  pose proof (jitter_positive retry ltac:(lia)).
  rewrite (proj2 (Z.ltb_lt 0 _)) by lia. apply wp_bind, wp_call. intros j _ _. apply wp_ret.
  eexists. split; [done|]. by apply Forall_singleton.
Qed.

(** The preparation of a retry submits nothing; the pool read has the
    property the contract gives, and the used map grows by the list read. *)
Lemma before_retry_wp (P : SubnetPool -> Prop) retry pool used ex tr :
  0 <= retry < 50 ->
  wp (pool_reads P) (before_retry retry pool used ex) tr (λ tr' r, exists ext, tr' = tr ++ ext /\
    submissions ext = [] /\
    match r with
    | Ok (pool', used', _) => P pool' /\ forall u, u ∈ used' <-> u ∈ used \/ u ∈ ext ≫= list_cidrs
    | Err e => IsConflictError e = false
    end).
Proof.
  intros Hr. unfold before_retry. apply wp_bind. eapply wp_mono; [by apply backoff_wp|].
  intros tr1 w (ext1 & -> & Hq). destruct (quiet_silent ext1 Hq) as [Hs1 Hl1].
  apply wp_bind, wp_call. intros [] _ _. apply wp_bind, wp_call. intros r _ HE. cbn in HE.
  destruct r as [pool'|err].
  - unfold refreshAllocationList. do 2 apply wp_bind. apply wp_call. intros l _ _.
    destruct l as [[items cont]|err]; do 2 apply wp_ret;
      (eexists (ext1 ++ [_; _; _]); split; [by rewrite <-!app_assoc|]);
      rewrite submissions_app, Hs1; (split; [done|]); (split; [done|]); intros u;
      rewrite bind_app, Hl1; cbn.
    + rewrite app_nil_r, elem_of_mark_used. done.
    + set_solver.
  - apply wp_ret. eexists (ext1 ++ [_; _]). split; [by rewrite <-!app_assoc|].
    rewrite submissions_app, Hs1. split; [done|]. cbn. by rewrite IsAlreadyExists_wrap.
Qed.

Definition loop_post (n : nat) (r : result (bool * string)) (ext : list event) : Prop :=
  (length (submissions ext) <= n)%nat /\ Forall (well_submitted claim) (submissions ext) /\
  (forall b c, r = Ok (b, c) -> b = true /\ obtained claim ext c) /\
  (forall e, r = Err e -> IsConflictError e = false).

Lemma loop_post_app n m r ext1 ext2 :
  (length (submissions ext1) <= n)%nat -> Forall (well_submitted claim) (submissions ext1) ->
  loop_post m r ext2 -> loop_post (n + m) r (ext1 ++ ext2).
Proof.
  intros Hn Hw (Hm & Hw' & Hok & Herr). unfold loop_post. rewrite submissions_app, length_app.
  split_and!; [lia|by apply Forall_app|intros b c Hr; destruct (Hok b c Hr); split; [done|]|done].
  by apply obtained_app_r.
Qed.

Context (P : SubnetPool -> Prop).
Hypothesis pool_parses :
  cl_RequestedCIDR (cl_Spec claim) <> "" ->
  forall p, P p -> is_ok (ParseCIDR (pl_CIDR (pl_Spec p))) = true.

(** Selection makes no call but the map range. *)
Lemma select_wp E pool used ex tr :
  P pool ->
  wp E (selectCandidateCIDR claim pool used ex) tr (λ tr' r, exists ext, tr' = tr ++ ext /\
    Forall quiet ext /\ forall e, r = Err e -> IsConflictError e = false).
Proof.
  intros HP. unfold selectCandidateCIDR. case_bool_decide as Hreq.
  - destruct (validateRequestedCIDR _ _ ex) as [r|] eqn:V.
    + apply wp_ret. exists []. rewrite app_nil_r. split_and!; [done|constructor|].
      intros e ->. by eapply validate_error_no_conflict.
    + apply validateRequestedCIDR_panic in V. by rewrite pool_parses in V.
  - apply wp_bind, wp_call. intros order Ho _.
    destruct (findAvailableCIDR _ _ _); apply wp_ret; exists [Ev (CMapRange used) order];
      (split; [done|]); (split; [by apply Forall_singleton|]); intros ? [= <-].
    apply selection_error_no_conflict.
Qed.

(** One attempt. *)
Lemma attempt_wp E pool used ex tr :
  P pool ->
  wp E (attempt claim pool used ex) tr (λ tr' a, exists ext, tr' = tr ++ ext /\
    (length (submissions ext) <= 1)%nat /\ Forall (well_submitted claim) (submissions ext) /\
    (forall b c, a = inl (Ok (b, c)) -> b = true /\ obtained claim ext c) /\
    (forall e, a = inl (Err e) -> IsConflictError e = false)).
Proof.
  intros HP. unfold attempt. apply wp_bind. eapply wp_mono; [by apply select_wp|].
  intros tr1 cand (ext1 & -> & Hq & Hsel). destruct (quiet_silent ext1 Hq) as [Hs1 _].
  destruct cand as [cidr|err]; cycle 1.
  { apply wp_ret. exists ext1. rewrite Hs1. split_and!; [done|cbn; lia|constructor|done|].
    intros e [= <-]. by apply Hsel. }
  apply wp_bind. eapply wp_mono; [apply create_wp|].
  intros tr2 r (ext2 & -> & _ & Hlen & Hsub & Hres).
  assert (Hpost : forall a : result (bool * string) + gset string, (forall b c, a = inl (Ok (b, c)) -> r = Ok (b, c)) ->
      (forall e, a = inl (Err e) -> IsConflictError e = false) ->
    exists ext, (tr ++ ext1) ++ ext2 = tr ++ ext /\ (length (submissions ext) <= 1)%nat /\
      Forall (well_submitted claim) (submissions ext) /\
      (forall b c, a = inl (Ok (b, c)) -> b = true /\ obtained claim ext c) /\
      (forall e, a = inl (Err e) -> IsConflictError e = false)).
  { intros a Ha Herr. exists (ext1 ++ ext2). rewrite submissions_app, Hs1.
    split_and!; [by rewrite app_assoc|done|by eapply Forall_impl; [exact Hsub|intros s [? _]]| |done].
    intros b c Hbc. apply Ha, Hres in Hbc as [? ?]. split; [done|]. by apply obtained_app_r. }
  destruct r as [[[] c]|e]; [..|destruct (IsConflictError e) eqn:Hc]; cbn [negb]; apply wp_ret, Hpost;
    try done; intros; simplify_eq; done.
Qed.

Lemma loop_wp n retry pool used ex tr :
  0 <= retry -> retry + Z.of_nat n = 50 -> P pool ->
  wp (pool_reads P) (allocation_loop n retry claim pool used ex) tr
    (λ tr' r, exists ext, tr' = tr ++ ext /\ loop_post n r.2 ext).
Proof.
  revert retry pool used ex tr. induction n as [|n IH]; intros retry pool used ex tr Hr Hn HP.
  { apply wp_ret. exists []. rewrite app_nil_r. split; [done|].
    split_and!; [done|constructor|done|]. intros e [= <-]. apply IsAlreadyExists_plain. }
  cbn [allocation_loop]. apply wp_bind.
  assert (Hprep : wp (pool_reads P)
    (if 0 <? retry then before_retry retry pool used ex else mret (Ok (pool, used, ex))) tr
    (λ tr' r, exists ext, tr' = tr ++ ext /\ submissions ext = [] /\
      match r with Ok (pool', _, _) => P pool' | Err e => IsConflictError e = false end)).
  { destruct (Z.ltb_spec 0 retry).
    - eapply wp_mono; [apply before_retry_wp; lia|]. intros tr' r (ext & -> & Hs & Hm).
      exists ext. split_and!; [done..|]. by destruct r as [[[? ?] ?]|]; [apply Hm|].
    - apply wp_ret. exists []. by rewrite app_nil_r. }
  eapply wp_mono; [exact Hprep|]. intros tr1 prep (ext1 & -> & Hs1 & Hprep1).
  destruct prep as [[[pool' used'] ex']|err]; cycle 1.
  { apply wp_ret. exists ext1. split; [done|]. unfold loop_post. rewrite Hs1.
    split_and!; [cbn; lia|constructor|done|by intros e [= <-]]. }
  apply wp_bind. eapply wp_mono; [by apply attempt_wp|].
  intros tr2 a (ext2 & -> & Hlen & Hsub & Hok & Herr). destruct a as [r|used2].
  - apply wp_ret. exists (ext1 ++ ext2). rewrite app_assoc. split; [done|]. cbn [snd].
    apply (loop_post_app 0 (S n)); [by rewrite Hs1|by rewrite Hs1|].
    split_and!; [lia|done|intros b c ->; auto|intros e ->; auto].
  - eapply wp_mono; [apply IH; [lia|lia|done]|]. intros tr3 r (ext3 & -> & Hpost).
    exists (ext1 ++ ext2 ++ ext3). split; [by rewrite !app_assoc|].
    apply (loop_post_app 0 (S n)); [by rewrite Hs1|by rewrite Hs1|].
    by apply (loop_post_app 1 n).
Qed.
End Protocol.

(** * Freshness of the submitted CIDRs *)

(** What the lists read must look like for the guarantee: pairwise equal or
    disjoint CIDRs that do not contain the pool. *)
Definition good_cidrs (c : CIDRMap) (poolCIDR : string) (l : list string) : Prop :=
  (forall u v, u ∈ l -> v ∈ l -> compatible u v) /\ (forall u, u ∈ l -> starts_inside c poolCIDR u).

(** The text is a block inside the pool that overlaps none of the texts. *)
Definition fresh_in (c : CIDRMap) (l : list string) (cidr : string) : Prop :=
  (exists ip n, ParseCIDR cidr = Ok (ip, n) /\ block_in c (net_ones n) n) /\
  forall u, u ∈ l -> CIDROverlaps cidr u = false.

(** Every submission in the second trace, made after the first one, was fresh
    with respect to everything read before it. *)
Fixpoint fresh_after (c : CIDRMap) (init : list Subnet) (pre tr : list event) : Prop :=
  match tr with
  | [] => True
  | e :: tr' =>
      match submitted e with
      | Some s => fresh_in c (seen_cidrs init pre) (sn_CIDR (sn_Spec s))
      | None => True
      end /\ fresh_after c init (pre ++ [e]) tr'
  end.

Section Fresh.
Context `{ApiErrorLaws, ControllerUtilLaws}.
Context (claim : SubnetClaim) (poolCIDR : string) (c : CIDRMap) (init : list Subnet).
Hypothesis dynamic : cl_RequestedCIDR (cl_Spec claim) = "".
Hypothesis pool_ok : NewCIDRMap poolCIDR = Ok c.

Let same_pool (p : SubnetPool) : Prop := pl_CIDR (pl_Spec p) = poolCIDR.

Lemma fresh_after_app pre tr1 tr2 :
  fresh_after c init pre (tr1 ++ tr2) <->
  fresh_after c init pre tr1 /\ fresh_after c init (pre ++ tr1) tr2.
Proof.
  revert pre. induction tr1 as [|e tr1 IH]; intros pre; cbn [app fresh_after].
  - rewrite app_nil_r. naive_solver.
  - rewrite IH, <-app_assoc. naive_solver.
Qed.

Lemma fresh_after_silent pre ext : submissions ext = [] -> fresh_after c init pre ext.
Proof.
  revert pre. induction ext as [|[k r] ext IH]; intros pre; [done|]. unfold submissions.
  cbn [omap list_omap fresh_after]. destruct (submitted (Ev k r)) eqn:E; [done|].
  intros Hs. split; [done|]. by apply IH.
Qed.

(** Reading of [fresh_after] on a whole trace. *)
Lemma fresh_after_split tr1 s r tr2 :
  fresh_after c init [] (tr1 ++ Ev (CCreateSubnet s) r :: tr2) ->
  fresh_in c (seen_cidrs init tr1) (sn_CIDR (sn_Spec s)).
Proof. intros [_ [Hf _]]%fresh_after_app. exact Hf. Qed.

Lemma good_cidrs_sub l l' : (forall u, u ∈ l -> u ∈ l') -> good_cidrs c poolCIDR l' -> good_cidrs c poolCIDR l.
Proof. intros Hl [H1' H2']. split; auto. Qed.

(** A dynamically selected candidate is fresh with respect to the used map. *)
Lemma select_fresh E pool used ex tr l :
  same_pool pool ->
  wp E (selectCandidateCIDR claim pool used ex) tr (λ tr' r, exists ext, tr' = tr ++ ext /\
    Forall quiet ext /\
    (good_cidrs c poolCIDR l -> (forall u, u ∈ used <-> u ∈ l) -> forall cidr, r = Ok cidr -> fresh_in c l cidr)).
Proof.
  intros Hpool. unfold selectCandidateCIDR. rewrite dynamic.
  apply wp_bind, wp_call. intros order Ho _. cbn in Ho.
  rewrite Hpool. set (size := effectiveBlockSize claim pool).
  destruct (findAvailableCIDR poolCIDR size order) as [cidr|e] eqn:F; apply wp_ret;
    eexists; (split; [done|]); (split; [by apply Forall_singleton|]); intros [Hcompat Hst] Hused cidr' [= <-].
  assert (Hin : forall u, u ∈ order <-> u ∈ l) by (intros u; rewrite Ho, elem_of_elements; apply Hused).
  eapply find_fresh in F as (ip & n & P & Hblk & Hfree); [|done|..].
  - split; [by exists ip, n|]. intros u Hu. apply Hfree, Hin, Hu.
  - intros u v Hu Hv. apply Hcompat; by apply Hin.
  - intros u Hu. by apply Hst, Hin.
Qed.

Lemma fresh_after_all pre ext :
  ext ≫= list_cidrs = [] -> Forall (λ s, fresh_in c (seen_cidrs init pre) (sn_CIDR (sn_Spec s))) (submissions ext) ->
  fresh_after c init pre ext.
Proof.
  revert pre. induction ext as [|[k r] ext IH]; intros pre Hl Hs; [done|].
  cbn [mbind list_bind] in Hl. apply app_eq_nil in Hl as [Hk Hl].
  assert (Hpre : seen_cidrs init (pre ++ [Ev k r]) = seen_cidrs init pre).
  { rewrite seen_cidrs_app. cbn [mbind list_bind]. by rewrite Hk, !app_nil_r. }
  unfold submissions in Hs. cbn [omap list_omap] in Hs. cbn [fresh_after].
  destruct (submitted (Ev k r)); [apply Forall_cons in Hs as [Hs0 Hs]|];
    (split; [done|]); apply IH; [done|by rewrite Hpre|done|by rewrite Hpre].
Qed.

Lemma fresh_not_seen l cidr : fresh_in c l cidr -> cidr ∉ l.
Proof.
  intros [(ip & n & P & _) Hf] Hin. specialize (Hf _ Hin).
  apply not_true_iff_false in Hf. apply Hf. apply (CIDROverlaps_nets _ _ _ _ _ _ P P).
  apply ParseCIDR_wf, net_hi_ge in P. lia.
Qed.

Lemma attempt_fresh E pool used ex tr :
  same_pool pool ->
  wp E (attempt claim pool used ex) tr (λ tr' a, exists ext, tr' = tr ++ ext /\ ext ≫= list_cidrs = [] /\
    (good_cidrs c poolCIDR (seen_cidrs init tr) -> (forall u, u ∈ used <-> u ∈ seen_cidrs init tr) ->
      fresh_after c init tr ext /\
      forall used', a = inr used' -> forall u, u ∈ used' <-> u ∈ seen_cidrs init tr)).
Proof.
  intros Hpool. unfold attempt. apply wp_bind. eapply wp_mono; [by apply (select_fresh _ _ _ _ _ (seen_cidrs init tr))|].
  intros tr1 cand (ext1 & -> & Hq & Hsel). destruct (quiet_silent ext1 Hq) as [Hs1 Hl1].
  destruct cand as [cidr|err]; cycle 1.
  { apply wp_ret. exists ext1. split_and!; [done|done|]. intros _ _. split; [by apply fresh_after_silent|done]. }
  apply wp_bind. eapply wp_mono; [apply create_wp|].
  intros tr2 r (ext2 & -> & Hl2 & Hlen & Hsub & Hres).
  assert (Hpost : forall a : result (bool * string) + gset string,
    (forall used', a = inr used' -> forall u, u ∈ used' <-> u <> cidr /\ u ∈ used) ->
    exists ext, (tr ++ ext1) ++ ext2 = tr ++ ext /\ ext ≫= list_cidrs = [] /\
      (good_cidrs c poolCIDR (seen_cidrs init tr) -> (forall u, u ∈ used <-> u ∈ seen_cidrs init tr) ->
        fresh_after c init tr ext /\
        forall used', a = inr used' -> forall u, u ∈ used' <-> u ∈ seen_cidrs init tr)).
  { intros a Ha. exists (ext1 ++ ext2). rewrite bind_app, Hl1, Hl2.
    split_and!; [by rewrite app_assoc|done|]. intros Hgood Hused.
    pose proof (Hsel Hgood Hused cidr eq_refl) as Hfresh. split.
    - apply fresh_after_all; [by rewrite bind_app, Hl1, Hl2|]. rewrite submissions_app, Hs1.
      eapply Forall_impl; [exact Hsub|]. cbn. by intros s [_ ->].
    - intros used' E' u. rewrite (Ha used' E'), Hused. apply fresh_not_seen in Hfresh.
      split; [tauto|]. intros Hu. split; [|done]. by intros ->. }
  destruct r as [[b cc]|e]; [destruct (Hres b cc eq_refl) as [-> _]|destruct (IsConflictError e)];
    cbn [negb]; apply wp_ret, Hpost; try done.
  intros used' [= <-] u. set_solver.
Qed.

Lemma loop_fresh n retry pool used ex tr :
  0 <= retry -> retry + Z.of_nat n = 50 -> same_pool pool ->
  (good_cidrs c poolCIDR (seen_cidrs init tr) -> forall u, u ∈ used <-> u ∈ seen_cidrs init tr) ->
  wp (pool_reads same_pool) (allocation_loop n retry claim pool used ex) tr
    (λ tr' _, exists ext, tr' = tr ++ ext /\
      (good_cidrs c poolCIDR (seen_cidrs init tr') -> fresh_after c init tr ext)).
Proof.
  revert retry pool used ex tr. induction n as [|n IH]; intros retry pool used ex tr Hr Hn HP Hused.
  { apply wp_ret. exists []. by rewrite app_nil_r. }
  cbn [allocation_loop]. apply wp_bind.
  assert (Hprep : wp (pool_reads same_pool)
    (if 0 <? retry then before_retry retry pool used ex else mret (Ok (pool, used, ex))) tr
    (λ tr' r, exists ext, tr' = tr ++ ext /\ submissions ext = [] /\
      match r with
      | Ok (pool', used', _) => same_pool pool' /\ (good_cidrs c poolCIDR (seen_cidrs init tr') ->
          forall u, u ∈ used' <-> u ∈ seen_cidrs init tr')
      | Err e => True end)).
  { destruct (Z.ltb_spec 0 retry).
    - eapply wp_mono; [apply before_retry_wp; lia|]. intros tr' r (ext & -> & Hs & Hm).
      exists ext. split_and!; [done..|]. destruct r as [[[pool' used'] ex']|]; [|done].
      destruct Hm as [HP' Hu']. split; [done|]. intros Hgood u. rewrite Hu', seen_cidrs_app, elem_of_app.
      rewrite Hused; [done|]. eapply good_cidrs_sub; [|exact Hgood]. intros x. rewrite seen_cidrs_app. set_solver.
    - apply wp_ret. exists []. by rewrite app_nil_r. }
  eapply wp_mono; [exact Hprep|]. intros tr1 prep (ext1 & -> & Hs1 & Hprep1).
  destruct prep as [[[pool' used'] ex']|err]; cycle 1.
  { apply wp_ret. exists ext1. split; [done|]. intros _. by apply fresh_after_silent. }
  destruct Hprep1 as [HP' Hused'].
  apply wp_bind. eapply wp_mono; [by apply attempt_fresh|].
  intros tr2 a (ext2 & -> & Hl2 & Hfresh).
  assert (Hsame : seen_cidrs init ((tr ++ ext1) ++ ext2) = seen_cidrs init (tr ++ ext1))
    by (by rewrite seen_cidrs_app, Hl2, app_nil_r).
  destruct a as [r|used2].
  - apply wp_ret. exists (ext1 ++ ext2). split; [by rewrite app_assoc|]. intros Hgood.
    rewrite Hsame in Hgood. apply fresh_after_app. split; [by apply fresh_after_silent|]. by apply Hfresh; auto.
  - eapply wp_mono; [apply IH; [lia|lia|done|]|].
    { intros Hgood u. rewrite Hsame in *. by apply Hfresh; auto. }
    intros tr3 r (ext3 & -> & Hf3). exists (ext1 ++ ext2 ++ ext3). split; [by rewrite !app_assoc|].
    intros Hgood. rewrite !fresh_after_app. split_and!; [by apply fresh_after_silent| |by auto].
    assert (good_cidrs c poolCIDR (seen_cidrs init (tr ++ ext1))) as Hg1.
    { eapply good_cidrs_sub; [|exact Hgood]. intros x.
      rewrite (seen_cidrs_app init ((tr ++ ext1) ++ ext2)), Hsame. set_solver. }
    by apply Hfresh; auto.
Qed.
End Fresh.

(** * Properties *)



Section Theorems.
Context `{ApiErrorLaws, ControllerUtilLaws}.

(** The calls of the allocator: reads of pools and Subnets, creation of well
    formed Subnets, and quiet ones other than the outer retry counter. *)
Definition allocator_call (claim : SubnetClaim) (c : call) : Prop :=
  match c with
  | CCreateSubnet s => well_submitted claim s
  | CGetPool _ | CGetSubnet _ | CListSubnets _ => True
  | CMetric (MInc name _) => name <> "aquanaut_subnet_alloc_retry_total"
  | _ => quiet_c c
  end.

Lemma createAllocation_calls E claim pool cidr :
  calls_in E (allocator_call claim)
    (createAllocation claim pool cidr (EncodeAllocationName (Name (pl_meta pool)) cidr)).
Proof.
  unfold createAllocation. set (meta := new_meta _ _ _ _).
  destruct (SetControllerReference _ _ meta) as [meta'|err] eqn:SCR; [|done].
  apply SetControllerReference_frame in SCR as (refs & ->).
  unfold recordCreateMetrics, metric_op. repeat calls_step; done.
Qed.

Lemma allocation_loop_calls E n retry claim pool used ex :
  calls_in E (allocator_call claim) (allocation_loop n retry claim pool used ex).
Proof.
  revert retry pool used ex. induction n as [|n IH]; intros retry pool used ex; [done|].
  cbn [allocation_loop]. apply calls_in_bind.
  { unfold before_retry, refreshAllocationList, calculateBackoffWithJitter, Intn. repeat calls_step; done. }
  intros [[[pool' used'] ex']|e]; [|done]. apply calls_in_bind.
  { unfold attempt, selectCandidateCIDR. apply calls_in_bind; [repeat calls_step; done|].
    intros [cidr|e]; [|done]. apply calls_in_bind; [apply createAllocation_calls|]. repeat calls_step. }
  intros [r|used2]; [done|]. apply IH.
Qed.

Lemma allocateCIDR_calls E claim pool init :
  calls_in E (allocator_call claim) (allocateCIDR claim pool init).
Proof.
  unfold allocateCIDR. apply calls_in_bind; [|unfold recordLatency, metric_op; repeat calls_step; done].
  destruct (find_by_cluster claim pool init); [done|]. apply allocation_loop_calls.
Qed.

(** The calls of [allocateCIDR] for a set of calls that allows the attempts,
    given a property of pools and one of lists that the loop's own reads keep,
    and a property of results. *)
Section AllocateSafe.
Context (E : env) (K : call -> Prop) (claim : SubnetClaim).
Context (OK : SubnetPool -> Prop) (LIST : list Subnet -> Prop) (RES : result (bool * string) -> Prop).

(** The environment re-establishes the properties on every retry. *)
Record refresh_safe : Prop := {
  rs_quiet c : quiet_c c -> K c;
  rs_calls pool : OK pool -> K (CGetPool (object_key (pl_meta pool))) /\
    K (CListSubnets (pool_list_options (Namespace (pl_meta pool)) (Name (pl_meta pool))));
  rs_pool pool p : OK pool -> E (CGetPool (object_key (pl_meta pool))) (Ok p) -> OK p;
  rs_list pool items cont : OK pool ->
    E (CListSubnets (pool_list_options (Namespace (pl_meta pool)) (Name (pl_meta pool)))) (Ok (items, cont)) ->
    LIST items;
  rs_error pool e m : OK pool -> E (CGetPool (object_key (pl_meta pool))) (Err e) -> RES (Err (EWrap m e));
  rs_exhausted m : RES (Err (EPlain m));
  rs_found pool allocs a : OK pool -> LIST allocs -> find_by_cluster claim pool allocs = Some a ->
    RES (Ok (true, sn_CIDR (sn_Spec a)))
}.

Hypothesis refresh : refresh_safe.
Hypothesis attempt_safe : forall pool used allocs, OK pool -> LIST allocs ->
  safe E K (attempt claim pool used allocs) (λ r, match r with inl r => RES r | inr _ => True end).

Lemma before_retry_safe retry pool used allocs :
  OK pool -> LIST allocs -> safe E K (before_retry retry pool used allocs)
    (λ r, match r with Ok (p, _, l) => OK p /\ LIST l | Err e => RES (Err e) end).
Proof.
  intros Hpool Hl. unfold before_retry, calculateBackoffWithJitter, Intn.
  apply safe_bind. destruct (0 <? _); [|done]. apply safe_bind, safe_call; [by apply (rs_quiet refresh)|].
  intros j _ _. apply safe_ret, safe_bind, safe_call; [by apply (rs_quiet refresh)|]. intros [] _ _.
  apply safe_bind, safe_call; [by apply (rs_calls refresh)|]. intros [p|e] _ HE; [|by eapply (rs_error refresh)].
  pose proof (rs_pool refresh pool p Hpool HE) as Hp. unfold refreshAllocationList.
  do 2 apply safe_bind. apply safe_call; [by apply (rs_calls refresh)|].
  intros [[items cont]|e] _ HL; [|done]. split; [done|]. by eapply (rs_list refresh).
Qed.

Lemma allocateCIDR_safe pool allocs :
  OK pool -> LIST allocs -> safe E K (allocateCIDR claim pool allocs) (λ r, OK r.1 /\ RES r.2).
Proof.
  intros Hpool Hlist. unfold allocateCIDR. apply safe_bind.
  assert (Hrec : forall r : SubnetPool * result (bool * string),
    OK r.1 /\ RES r.2 -> safe E K (recordLatency ≫= λ _, mret r) (λ r, OK r.1 /\ RES r.2)).
  { intros r Hr. apply safe_bind, safe_call; [by apply (rs_quiet refresh)|done]. }
  destruct (find_by_cluster claim pool allocs) as [a|] eqn:F.
  { apply Hrec. split; [done|]. by eapply (rs_found refresh). }
  eapply safe_mono; [|exact Hrec]. clear Hrec F.
  generalize AllocationMaxRetries as n, 0 as retry, (mark_used ∅ allocs) as used.
  intros n. revert pool allocs Hpool Hlist. induction n as [|n IH]; intros pool allocs Hpool Hlist retry used.
  { split; [done|]. apply (rs_exhausted refresh). }
  cbn [allocation_loop]. apply safe_bind.
  assert (Hprep : safe E K
    (if 0 <? retry then before_retry retry pool used allocs else mret (Ok (pool, used, allocs)))
    (λ r, match r with Ok (p, _, l) => OK p /\ LIST l | Err e => RES (Err e) end)).
  { destruct (0 <? retry); [by apply before_retry_safe|done]. }
  eapply safe_mono; [exact Hprep|]. intros [[[p used'] allocs']|e] Hp; [|done].
  destruct Hp as [Hp Hl]. apply safe_bind. eapply safe_mono; [by apply attempt_safe|].
  intros [r|used2] Hr; [done|]. by apply IH.
Qed.
End AllocateSafe.

(** The outcome of [allocateCIDR] in terms of its own trace. *)
Definition allocate_post (claim : SubnetClaim) (pool : SubnetPool) (init : list Subnet) (ext : list event)
    (r : result (bool * string)) : Prop :=
  (length (submissions ext) <= 50)%nat /\
  match r with
  | Ok (b, cidr) => b = true /\
      ((exists a, a ∈ init /\ sn_ClusterID (sn_Spec a) = cl_ClusterID (cl_Spec claim) /\
          sn_PoolRef (sn_Spec a) = Name (pl_meta pool) /\ sn_CIDR (sn_Spec a) = cidr) \/
       obtained claim ext cidr)
  | Err e => IsConflictError e = false
  end.

Lemma allocateCIDR_wp claim pool init (P : SubnetPool -> Prop) tr :
  P pool ->
  (cl_RequestedCIDR (cl_Spec claim) <> "" ->
    forall p, P p -> is_ok (ParseCIDR (pl_CIDR (pl_Spec p))) = true) ->
  wp (pool_reads P) (allocateCIDR claim pool init) tr (λ tr' r, exists ext, tr' = tr ++ ext /\
    Forall (λ e, allocator_call claim (ev_call e)) ext /\ allocate_post claim pool init ext r.2).
Proof.
  intros HP Hparse. eapply wp_mono.
  - apply wp_calls_in; [apply allocateCIDR_calls|].
    instantiate (1 := λ tr' r, exists ext, tr' = tr ++ ext /\ allocate_post claim pool init ext r.2).
    unfold allocateCIDR. apply wp_bind. destruct (find_by_cluster claim pool init) as [a|] eqn:F.
    + apply wp_ret, wp_bind, wp_quiet; [auto with plex|]. intros ext [] Hq.
      destruct (quiet_silent ext Hq) as [Hs _]. apply wp_ret. exists ext. unfold allocate_post. rewrite Hs. cbn [snd].
      split_and!; [done|cbn; lia|done|]. left. exists a.
      apply List.find_some in F as [Hin Hb]. rewrite <-list_elem_of_In in Hin. bool_prop. done.
    + eapply wp_mono; [apply (loop_wp claim P Hparse); [lia|done|done]|].
      intros tr1 r (ext & -> & Hlen & Hsub & Hok & Herr).
      apply wp_bind, wp_quiet; [auto with plex|]. intros ext2 [] Hq.
      destruct (quiet_silent ext2 Hq) as [Hs _]. apply wp_ret. exists (ext ++ ext2).
      unfold allocate_post. rewrite submissions_app, Hs, app_nil_r, app_assoc. split_and!; [done|done|].
      destruct r as [pool' [[b cidr]|e]]; cbn [snd] in *; [|by apply Herr].
      destruct (Hok b cidr eq_refl) as [-> Hob]. split; [done|]. right. by apply obtained_app_l.
  - cbn. intros tr' r ((ext & -> & Hpost) & ext' & E & Hc). exists ext.
    apply app_inv_head in E as <-. done.
Qed.

Lemma allocator_calls_submitted claim ext :
  Forall (λ e, allocator_call claim (ev_call e)) ext -> Forall (well_submitted claim) (submissions ext).
Proof.
  induction 1 as [|[c r] ext Hc _ IH]; [constructor|]. unfold submissions in *. cbn [omap list_omap].
  unfold submitted. cbn [ev_call]. destruct c; try exact IH. by constructor.
Qed.

(** C7. Every run of [allocateCIDR], whatever the API server answers (with pool
    reads that return parsable pools when the claim requests a CIDR):
    it makes at most 50 create calls; each submits a Subnet in the claim's
    namespace, for the claim's cluster, under the name that encodes its pool
    and CIDR; a success reports the CIDR of an existing allocation of the
    cluster in the pool, or one that was created or read back for the
    cluster; an error is never a conflict, since conflicts are consumed by
    the retry loop. *)
Theorem allocateCIDR_protocol claim pool init (P : SubnetPool -> Prop) :
  P pool ->
  (cl_RequestedCIDR (cl_Spec claim) <> "" ->
    forall p, P p -> is_ok (ParseCIDR (pl_CIDR (pl_Spec p))) = true) ->
  wp (pool_reads P) (allocateCIDR claim pool init) [] (λ tr r,
    (length (submissions tr) <= 50)%nat /\ Forall (well_submitted claim) (submissions tr) /\
    match r.2 with
    | Ok (b, cidr) => b = true /\
        ((exists a, a ∈ init /\ sn_ClusterID (sn_Spec a) = cl_ClusterID (cl_Spec claim) /\
            sn_PoolRef (sn_Spec a) = Name (pl_meta pool) /\ sn_CIDR (sn_Spec a) = cidr) \/
         obtained claim tr cidr)
    | Err e => IsConflictError e = false
    end).
Proof.
  intros HP Hparse. eapply wp_mono; [by apply allocateCIDR_wp|].
  intros tr r (ext & -> & Hc & Hlen & Hres). cbn [app]. split_and!; [done| |done].
  by apply allocator_calls_submitted.
Qed.
End Theorems.

Section allocateCIDR_protocol_witness_run.
Import ByReason OwnerRef.

Lemma allocateCIDR_protocol_witness :
exists a s' tr,
  exec (serve_pool sample_pool) (allocateCIDR sample_claim sample_pool [sample_subnet]) empty_store []
    = (Some a, s', tr) /\
  a.2 = Ok (true, "10.0.0.64/26") /\ Forall (well_submitted sample_claim) (submissions tr).
Proof.
assert (E : (exec (serve_pool sample_pool) (allocateCIDR sample_claim sample_pool [sample_subnet])
  empty_store []).1.1 = Some (sample_pool, Ok (true, "10.0.0.64/26"))) by (vm_compute; reflexivity).
destruct (wp_exec (serve_pool sample_pool) (pool_reads (λ p, p = sample_pool))
  (allocateCIDR sample_claim sample_pool [sample_subnet]) empty_store [] _ (serve_pool_legal sample_pool)
  ltac:(intros []; try (intros s; exact I); done)
  (allocateCIDR_protocol sample_claim sample_pool [sample_subnet] (λ p, p = sample_pool) eq_refl
     ltac:(intros _ p ->; vm_compute; reflexivity))) as (a & s' & tr & Hrun & _ & Hsub & _).
exists a, s', tr. split; [exact Hrun|]. split; [|exact Hsub].
rewrite Hrun in E. injection E as ->. reflexivity.
Defined.
End allocateCIDR_protocol_witness_run.

Section FreshTheorem.
Context `{ApiErrorLaws, ControllerUtilLaws}.

End FreshTheorem.

Section allocateCIDR_submits_fresh_witness_run.
Import ByReason OwnerRef.

End allocateCIDR_submits_fresh_witness_run.
