(* ===== verification/History.v ===== *)
(** What a client may see of an API server: every read is answered from some
    state of the past (a cache may lag behind, differently for every call), a
    write takes effect at once or is refused, and its answer may be lost.
    Reconciliations in progress are the rest of a program together with the
    calls made so far. *)

From S2P Require Import Prelude GoNet ApiTypes MergePatch Effects InMemory Allocator.

(** * Histories *)

(** The states of the store, the present one first. *)
Definition history : Type := list store.

(** The object was stored under the key at some time. *)
Definition ever {A} (f : store -> gmap NamespacedName A) (h : history) (k : NamespacedName) (x : A) : Prop :=
  exists s, s ∈ h /\ f s !! k = Some x.

Lemma ever_cons {A} (f : store -> gmap NamespacedName A) s h k x : ever f h k x -> ever f (s :: h) k x.
Proof. intros (s' & Hs & Hx). exists s'. split; [by apply elem_of_cons; right|done]. Qed.

Lemma ever_now {A} (f : store -> gmap NamespacedName A) s h k x : f s !! k = Some x -> ever f (s :: h) k x.
Proof. intros Hx. exists s. split; [by apply elem_of_cons; left|done]. Qed.

#[export] Hint Resolve ever_cons ever_now : plex.

(** * The server *)

(** The CIDR passes the validation of the resource definitions
    ([Format=cidr]). *)
Definition valid_cidr (t : string) : Prop := is_ok (ParseCIDR t) = true.

(** Metadata of an object as stored: the server may choose the name, and sets
    the identity fields. *)
Definition admitted_meta (m m' : ObjectMeta) : Prop :=
  Namespace m' = Namespace m /\ (Name m <> "" -> Name m' = Name m) /\ Labels m' = Labels m /\
  OwnerReferences m' = OwnerReferences m /\ DeletionTimestamp m' = None.

(** Objects as stored by a create: the status is dropped. *)
Definition admitted_subnet (x y : Subnet) : Prop :=
  admitted_meta (sn_meta x) (sn_meta y) /\ sn_Spec y = sn_Spec x /\
  sn_Status y = mkSubnetStatus "" None /\ valid_cidr (sn_CIDR (sn_Spec y)).
Definition admitted_pool (x y : SubnetPool) : Prop :=
  admitted_meta (pl_meta x) (pl_meta y) /\ pl_Spec y = pl_Spec x /\
  pl_Status y = empty_pool_status /\ valid_cidr (pl_CIDR (pl_Spec y)).
Definition admitted_claim (x y : SubnetClaim) : Prop :=
  admitted_meta (cl_meta x) (cl_meta y) /\ cl_Spec y = cl_Spec x /\
  cl_Status y = mkSubnetClaimStatus 0 "" "" "" [].

Definition set_subnets (s : store) (m : gmap NamespacedName Subnet) : store :=
  mkStore m (st_pools s) (st_claims s) (st_poolclaims s).
Definition set_pools (s : store) (m : gmap NamespacedName SubnetPool) : store :=
  mkStore (st_subnets s) m (st_claims s) (st_poolclaims s).
Definition set_claims (s : store) (m : gmap NamespacedName SubnetClaim) : store :=
  mkStore (st_subnets s) (st_pools s) m (st_poolclaims s).
Definition set_poolclaims (s : store) (m : gmap NamespacedName SubnetPoolClaim) : store :=
  mkStore (st_subnets s) (st_pools s) (st_claims s) m.

(** The effect of a write that is accepted.  A create needs a free name.  An
    update of a status is accepted only for the version of the object it was
    made from, so metadata and spec are those stored; a merge patch applies
    to whatever is stored. *)
Definition effect (c : call) (s s' : store) : Prop :=
  match c with
  | CCreateSubnet x => exists y, admitted_subnet x y /\ st_subnets s !! object_key (sn_meta y) = None /\
      s' = set_subnets s (<[object_key (sn_meta y) := y]> (st_subnets s))
  | CCreatePool x => exists y, admitted_pool x y /\ st_pools s !! object_key (pl_meta y) = None /\
      s' = set_pools s (<[object_key (pl_meta y) := y]> (st_pools s))
  | CCreateClaim x => exists y, admitted_claim x y /\ st_claims s !! object_key (cl_meta y) = None /\
      s' = set_claims s (<[object_key (cl_meta y) := y]> (st_claims s))
  | CStatusUpdateClaim x => exists cur, st_claims s !! object_key (cl_meta x) = Some cur /\
      cl_meta x = cl_meta cur /\ cl_Spec x = cl_Spec cur /\
      s' = set_claims s (<[object_key (cl_meta x) := x]> (st_claims s))
  | CStatusUpdatePoolClaim x => exists cur, st_poolclaims s !! object_key (pc_meta x) = Some cur /\
      pc_meta x = pc_meta cur /\ pc_Spec x = pc_Spec cur /\
      s' = set_poolclaims s (<[object_key (pc_meta x) := x]> (st_poolclaims s))
  | CStatusPatchSubnet old new => exists cur, st_subnets s !! object_key (sn_meta new) = Some cur /\
      s' = set_subnets s (<[object_key (sn_meta new) := patch_subnet old new cur]> (st_subnets s))
  | CStatusPatchPool old new => exists cur, st_pools s !! object_key (pl_meta new) = Some cur /\
      s' = set_pools s (<[object_key (pl_meta new) := patch_pool old new cur]> (st_pools s))
  | _ => False
  end.

(** An object read by its key, in some state of the past. *)
Definition got `{ApiErrors} {A} (f : store -> gmap NamespacedName A) (h : history) (k : NamespacedName)
    (r : result A) : Prop :=
  match r with Ok x => ever f h k x | Err e => IsAlreadyExists e = false end.

(** The objects of a list, each in some state of the past, in the namespace
    asked for and with the property of the field selectors. *)
Definition listed {A} (f : store -> gmap NamespacedName A) (meta : A -> ObjectMeta) (sel : A -> Prop)
    (h : history) (o : ListOptions) (r : result (list A * string)) : Prop :=
  match r with
  | Ok (items, _) => Forall (λ x, ever f h (object_key (meta x)) x /\ Namespace (meta x) = lo_Namespace o /\ sel x) items
  | Err _ => True
  end.

Definition selected (o : ListOptions) (s : Subnet) : Prop :=
  Forall (λ fd, fd.1 = PoolRefField -> fd.2 = sn_PoolRef (sn_Spec s)) (lo_Fields o).

(** The answer to a call, as far as clients rely on it. *)
Definition genuine `{ApiErrors} (h : history) : env := λ c,
  match c with
  | CGetSubnet k => got st_subnets h k
  | CGetPool k => got st_pools h k
  | CGetClaim k => got st_claims h k
  | CGetPoolClaim k => got st_poolclaims h k
  | CListSubnets o => listed st_subnets sn_meta (selected o) h o
  | CListClaims o => listed st_claims cl_meta (λ _, True) h o
  | CListPools o => listed st_pools pl_meta (λ _, True) h o
  | CCreateSubnet x => λ r,
      match r with Ok y => ever st_subnets h (object_key (sn_meta y)) y /\ admitted_subnet x y | Err _ => True end
  | CCreatePool x => λ r,
      match r with Ok y => ever st_pools h (object_key (pl_meta y)) y /\ admitted_pool x y | Err _ => True end
  | CCreateClaim x => λ r,
      match r with Ok y => ever st_claims h (object_key (cl_meta y)) y /\ admitted_claim x y | Err _ => True end
  | _ => λ _, True
  end.

Section Genuine.
Context `{ApiErrors}.

(** What was seen stays seen. *)
Lemma listed_cons {A} (f : store -> gmap NamespacedName A) meta sel s h o r :
  listed f meta sel h o r -> listed f meta sel (s :: h) o r.
Proof.
  destruct r as [[items next]|e]; [|done]. cbn. intros Hl. eapply Forall_impl; [exact Hl|]. cbn.
  intros x (Hx & Hr). split; [by apply ever_cons|done].
Qed.

Lemma genuine_cons s h c r : genuine h c r -> genuine (s :: h) c r.
Proof.
  destruct c; cbn; try done; try apply listed_cons; destruct r; cbn; try done;
    solve [apply ever_cons | intros [? ?]; split; [by apply ever_cons|done]].
Qed.

Definition genuine_event (h : history) (e : event) : Prop := genuine h (ev_call e) (ev_resp e).

Lemma genuine_events_cons s h tr : Forall (genuine_event h) tr -> Forall (genuine_event (s :: h)) tr.
Proof. intros Ht. eapply Forall_impl; [exact Ht|]. intros e. apply genuine_cons. Qed.
End Genuine.

(** * Programs in progress *)

(** [q] is what is left of [p] after the calls [tr]. *)
Inductive residual {A} (p : prog A) : list event -> prog A -> Prop :=
| residual_nil : residual p [] p
| residual_call tr c k r :
    residual p tr (Vis c k) -> legal c r -> residual p (tr ++ [Ev c r]) (k r).

Section Residual.
Context {A : Type} (E : env).

Lemma residual_wp (p : prog A) tr q Q :
  wp E p [] Q -> residual p tr q -> Forall (λ e, E (ev_call e) (ev_resp e)) tr -> wp E q tr Q.
Proof.
  intros Hp Hr. induction Hr as [|tr c k r Hr IH Hl]; [done|].
  intros [Htr [He _]%Forall_cons_1]%Forall_app. by apply IH.
Qed.

Lemma residual_calls K (p : prog A) tr q :
  calls_in E K p -> residual p tr q -> Forall (λ e, E (ev_call e) (ev_resp e)) tr -> calls_in E K q.
Proof.
  intros Hp Hr. induction Hr as [|tr c k r Hr IH Hl]; [done|].
  intros [Htr [He _]%Forall_cons_1]%Forall_app. destruct (IH Htr) as [_ Hk]. by apply Hk.
Qed.
End Residual.

(** A program that cannot panic after some calls cannot after others. *)
Lemma wp_any_trace {A} E (p : prog A) tr tr' : wp E p tr (λ _ _, True) -> wp E p tr' (λ _ _, True).
Proof.
  revert tr tr'. induction p as [a|c k IH|m]; intros tr tr' Hp; cbn in *; [done| |done].
  intros r Hl Hr. eapply IH, Hp; done.
Qed.

(** * An instance

    A server that answers from the present state, gives names to objects that
    have none, drops the status of new objects, validates CIDRs and refuses
    updates of other versions. *)
Module Current.
Definition assign_meta {A} (m : gmap NamespacedName A) (meta : ObjectMeta) : ObjectMeta :=
  let meta := named long_name m meta in
  mkObjectMeta (Name meta) (GenerateName meta) (Namespace meta) ("uid-" +:+ Name meta) 1 (Labels meta)
    (Finalizers meta) (OwnerReferences meta) None.

Definition conflict {A} : result A := Err (EApi "Conflict" "the object has been modified").
Definition invalid {A} : result A := Err (EApi "Invalid" "not a CIDR").

(** Objects stored under their own key that satisfy a test. *)
Definition list_objs {A} `{EqDecision A} (m : gmap NamespacedName A) (meta : A -> ObjectMeta) (o : ListOptions)
    (sel : A -> Prop) `{forall x, Decision (sel x)} : list A :=
  filter (λ x, m !! object_key (meta x) = Some x /\ Namespace (meta x) = lo_Namespace o /\ sel x) ((map_to_list m).*2).

#[export] Instance selected_dec o s : Decision (selected o s).
Proof. unfold selected. apply _. Defined.

Definition serve_now (c : call) (s : store) : resp c * store :=
  match c return resp c * store with
  | CListSubnets o => (Ok (list_objs (st_subnets s) sn_meta o (selected o), ""), s)
  | CListClaims o => (Ok (list_objs (st_claims s) cl_meta o (λ _, True), ""), s)
  | CListPools o => (Ok (list_objs (st_pools s) pl_meta o (λ _, True), ""), s)
  | CCreateSubnet x =>
      let y := mkSubnet (assign_meta (st_subnets s) (sn_meta x)) (sn_Spec x) (mkSubnetStatus "" None) in
      if is_ok (ParseCIDR (sn_CIDR (sn_Spec x))) then
        match st_subnets s !! object_key (sn_meta y) with
        | Some _ => (alreadyExists, s)
        | None => (Ok y, set_subnets s (<[object_key (sn_meta y) := y]> (st_subnets s)))
        end
      else (invalid, s)
  | CCreatePool x =>
      let y := mkSubnetPool (assign_meta (st_pools s) (pl_meta x)) (pl_Spec x) empty_pool_status in
      if is_ok (ParseCIDR (pl_CIDR (pl_Spec x))) then
        match st_pools s !! object_key (pl_meta y) with
        | Some _ => (alreadyExists, s)
        | None => (Ok y, set_pools s (<[object_key (pl_meta y) := y]> (st_pools s)))
        end
      else (invalid, s)
  | CCreateClaim x =>
      let y := mkSubnetClaim (assign_meta (st_claims s) (cl_meta x)) (cl_Spec x) (mkSubnetClaimStatus 0 "" "" "" []) in
      match st_claims s !! object_key (cl_meta y) with
      | Some _ => (alreadyExists, s)
      | None => (Ok y, set_claims s (<[object_key (cl_meta y) := y]> (st_claims s)))
      end
  | CStatusUpdateClaim x =>
      match st_claims s !! object_key (cl_meta x) with
      | Some cur =>
          if bool_decide (cl_meta x = cl_meta cur /\ cl_Spec x = cl_Spec cur)
          then (Ok x, set_claims s (<[object_key (cl_meta x) := x]> (st_claims s))) else (conflict, s)
      | None => (notFound, s)
      end
  | CStatusUpdatePoolClaim x =>
      match st_poolclaims s !! object_key (pc_meta x) with
      | Some cur =>
          if bool_decide (pc_meta x = pc_meta cur /\ pc_Spec x = pc_Spec cur)
          then (Ok x, set_poolclaims s (<[object_key (pc_meta x) := x]> (st_poolclaims s))) else (conflict, s)
      | None => (notFound, s)
      end
  | CGetSubnet k => (lookup_obj (st_subnets s) k, s)
  | CGetPool k => (lookup_obj (st_pools s) k, s)
  | CGetClaim k => (lookup_obj (st_claims s) k, s)
  | CGetPoolClaim k => (lookup_obj (st_poolclaims s) k, s)
  | CStatusPatchSubnet old new => serve (CStatusPatchSubnet old new) s
  | CStatusPatchPool old new => serve (CStatusPatchPool old new) s
  | CEvent k t r m => serve (CEvent k t r m) s
  | CMetric m => serve (CMetric m) s
  | CPoolGauge p k f => serve (CPoolGauge p k f) s
  | CSleep ms => serve (CSleep ms) s
  | CNow => serve CNow s
  | CRandIntn n => serve (CRandIntn n) s
  | CMapRange keys => serve (CMapRange keys) s
  end.

Section Genuine.
Import ByReason.

Lemma lookup_got {A} (f : store -> gmap NamespacedName A) s h k : got f (s :: h) k (lookup_obj (f s) k).
Proof.
  unfold lookup_obj. destruct (f s !! k) as [x|] eqn:E; [|done]. by apply ever_now.
Qed.

Lemma list_listed {A} `{EqDecision A} (f : store -> gmap NamespacedName A) meta o (sel : A -> Prop)
    `{forall x, Decision (sel x)} s h :
  listed f meta sel (s :: h) o (Ok (list_objs (f s) meta o sel, "")).
Proof.
  apply Forall_forall. intros x ((Hx & Hn & Hs) & _)%list_elem_of_filter. split_and!; [by apply ever_now|done|done].
Qed.

Lemma assign_meta_admitted {A} (m : gmap NamespacedName A) meta : admitted_meta meta (assign_meta m meta).
Proof.
  unfold assign_meta, named. case_bool_decide; by split_and!.
Qed.

Lemma serve_now_genuine c s before : let '(r, s') := serve_now c s in
  legal c r /\ (s' = s \/ effect c s s') /\ genuine (s' :: s :: before) c r.
Proof.
  destruct c; cbn [serve_now serve legal genuine].
  1-4: split_and!; [done|by left|apply lookup_got].
  1-3: split_and!; [done|by left|apply list_listed].
  - destruct (is_ok _) eqn:V; [|split_and!; [done|by left|done]].
    destruct (_ !! _) eqn:L; [split_and!; [done|by left|done]|]. set (y := mkSubnet _ _ _).
    assert (Ha : admitted_subnet o y) by (split_and!; [apply assign_meta_admitted|done|done|done]).
    split_and!; [done|right; by exists y|apply ever_now; cbn; by rewrite lookup_insert_eq|done].
  - destruct (_ !! _) eqn:L; [split_and!; [done|by left|done]|]. set (y := mkSubnetClaim _ _ _).
    assert (Ha : admitted_claim o y) by (split_and!; [apply assign_meta_admitted|done|done]).
    split_and!; [done|right; by exists y|apply ever_now; cbn; by rewrite lookup_insert_eq|done].
  - destruct (is_ok _) eqn:V; [|split_and!; [done|by left|done]].
    destruct (_ !! _) eqn:L; [split_and!; [done|by left|done]|]. set (y := mkSubnetPool _ _ _).
    assert (Ha : admitted_pool o y) by (split_and!; [apply assign_meta_admitted|done|done|done]).
    split_and!; [done|right; by exists y|apply ever_now; cbn; by rewrite lookup_insert_eq|done].
  - destruct (_ !! _) as [cur|] eqn:L; [case_bool_decide as Hc|]; split_and!; try done; try (by left).
    right. exists cur. by destruct Hc.
  - destruct (_ !! _) as [cur|] eqn:L; [case_bool_decide as Hc|]; split_and!; try done; try (by left).
    right. exists cur. by destruct Hc.
  - unfold patch_obj. destruct (_ !! _) as [cur|] eqn:L; split_and!; try done; [right; by exists cur|left; by destruct s].
  - unfold patch_obj. destruct (_ !! _) as [cur|] eqn:L; split_and!; try done; [right; by exists cur|left; by destruct s].
  - by split_and!; [|left|].
  - by split_and!; [|left|].
  - by split_and!; [|left|].
  - by split_and!; [|left|].
  - by split_and!; [|left|].
  - split_and!; [lia|by left|done].
  - by split_and!; [|left|].
Qed.
End Genuine.
End Current.
