(* ===== verification/ClaimStatus.v ===== *)
(** [updateClaimStatus] of [internal/controller/reconciler.go]: write phase,
    CIDR and message into a claim's status, re-reading the claim and retrying
    on conflicts and, a few times, on "not found". *)

From S2P Require Import Prelude ApiTypes Effects InMemory Metrics.

(** * Model *)

(** [ctrl.Result]; the delay in milliseconds. *)
Record Result : Type := mkResult { Requeue : bool; RequeueAfterMs : Z }.

Definition no_requeue : Result := mkResult false 0.
Definition requeue_after (ms : Z) : Result := mkResult false ms.

Definition ReadyCondition : string := "Ready".
Definition DefaultRequeueAfterMs : Z := 10000.
Definition NotFoundRetryMax : Z := 3.

Section Model.
Context `{ApiErrors, Retry, ConditionUtil}.

(** The Ready condition for a phase. *)
Definition ready_condition (phase allocatedCIDR message : string) (generation now : Z) : Condition :=
  let '(readyStatus, readyReason, readyMessage) :=
    if bool_decide (phase = ClaimBound) then ("True", "Allocated", "CIDR " +:+ allocatedCIDR +:+ " allocated")
    else if bool_decide (phase = ClaimError) then ("False", "Error", message)
    else ("False", "Pending", "Allocation in progress") in
  mkCondition ReadyCondition readyStatus generation now readyReason readyMessage.

(** The claim to write back: the one just read with a new status. *)
Definition with_claim_status (latest : SubnetClaim) (phase allocatedCIDR message : string) (now : Z)
    : SubnetClaim :=
  let generation := Generation (cl_meta latest) in
  mkSubnetClaim (cl_meta latest) (cl_Spec latest)
    (mkSubnetClaimStatus generation phase allocatedCIDR message
       (SetStatusCondition (cl_Conditions (cl_Status latest))
          (ready_condition phase allocatedCIDR message generation now))).

(** The body of the conflict retry. *)
Definition write_claim_status (key : NamespacedName) (phase allocatedCIDR message : string)
    (_ : unit) : prog (unit * option error) :=
  g ← do_call (CGetClaim key);
  match g with
  | Err err => mret (tt, Some err)
  | Ok latest =>
      now ← do_call CNow;
      u ← do_call (CStatusUpdateClaim (with_claim_status latest phase allocatedCIDR message now));
      match u with
      | Err err => mret (tt, Some err)
      | Ok _ => mret (tt, None)
      end
  end.

Definition claimStatusBackoff : Backoff := mkBackoff 5 50 15 1.

(** The outer loop over "not found" errors: [n] iterations are left. *)
Fixpoint not_found_loop (n : nat) (notFoundRetry : Z) (key : NamespacedName)
    (phase allocatedCIDR message : string) (lastErr : option error) : prog (option error) :=
  match n with
  | O => mret lastErr
  | S n' =>
      (if 0 <? notFoundRetry then do_call (CSleep 100) else mret tt) ≫= λ _,
      r ← RetryOnConflict claimStatusBackoff (write_claim_status key phase allocatedCIDR message) tt;
      match r.2 with
      | None => mret None
      | Some err =>
          if IsNotFound err && (notFoundRetry <? NotFoundRetryMax)
          then not_found_loop n' (notFoundRetry + 1) key phase allocatedCIDR message (Some err)
          else mret (Some err)
      end
  end.

Definition updateClaimStatus (claim : SubnetClaim) (phase allocatedCIDR message : string)
    : prog (Result * option error) :=
  if bool_decide (cl_Phase (cl_Status claim) = phase) &&
     bool_decide (cl_AllocatedCIDR (cl_Status claim) = allocatedCIDR) &&
     bool_decide (cl_Message (cl_Status claim) = message)
  then mret (no_requeue, None)
  else
    lastErr ← not_found_loop 4 0 (object_key (cl_meta claim)) phase allocatedCIDR message None;
    match lastErr with
    | Some err => mret (no_requeue, Some err)
    | None =>
        if bool_decide (phase = ClaimError) then mret (no_requeue, None)
        else if bool_decide (phase = ClaimPending) then mret (requeue_after DefaultRequeueAfterMs, None)
        else mret (no_requeue, None)
    end.
End Model.

(** * Observations *)

(** The claim a status update submits. *)
Definition status_update (e : event) : option SubnetClaim :=
  match ev_call e with CStatusUpdateClaim o => Some o | _ => None end.

Definition status_updates (tr : list event) : list SubnetClaim := omap status_update tr.

Lemma status_updates_app tr1 tr2 : status_updates (tr1 ++ tr2) = status_updates tr1 ++ status_updates tr2.
Proof. apply omap_app. Qed.

(** What an update of these values submits: the status asked for, for the
    generation of the object, with metadata and spec of an object read. *)
Definition claim_written (phase allocatedCIDR message : string) (o : SubnetClaim) : Prop :=
  cl_Phase (cl_Status o) = phase /\ cl_AllocatedCIDR (cl_Status o) = allocatedCIDR /\
  cl_Message (cl_Status o) = message /\ cl_ObservedGeneration (cl_Status o) = Generation (cl_meta o).

(** Calls a status update makes. *)
Definition status_event (e : event) : Prop :=
  match ev_call e with CGetClaim _ | CStatusUpdateClaim _ | CNow | CSleep _ => True | _ => False end.

(** The object carries metadata and spec of a claim read in the trace. *)
Definition from_read (tr : list event) (o : SubnetClaim) : Prop :=
  exists k l, Ev (CGetClaim k) (Ok l) ∈ tr /\ cl_meta o = cl_meta l /\ cl_Spec o = cl_Spec l.

(** Summary of a piece of trace that updates a claim's status at most [n]
    times. *)
Definition writes (phase cidr message : string) (n : nat) (ext : list event) : Prop :=
  Forall status_event ext /\ (length (status_updates ext) <= n)%nat /\
  Forall (λ o, claim_written phase cidr message o /\ from_read ext o) (status_updates ext).

(** Some update in the trace succeeded. *)
Definition update_succeeded (tr : list event) : Prop :=
  exists o o', Ev (CStatusUpdateClaim o) (Ok o') ∈ tr.

Lemma writes_nil phase cidr message n : writes phase cidr message n [].
Proof. split_and!; [constructor|cbn; lia|constructor]. Qed.

Lemma writes_app phase cidr message n m ext1 ext2 :
  writes phase cidr message n ext1 -> writes phase cidr message m ext2 ->
  writes phase cidr message (n + m) (ext1 ++ ext2).
Proof.
  intros (E1 & L1 & F1) (E2 & L2 & F2). unfold writes. rewrite status_updates_app, length_app, !Forall_app.
  assert (Hmono : forall ext ext' o, (forall e, e ∈ ext -> e ∈ ext') -> from_read ext o -> from_read ext' o).
  { intros ext ext' o Hsub (k & l & Hin & ?). exists k, l. auto. }
  split_and!; [done|done|lia| |]; eapply Forall_impl; [exact F1| |exact F2|]; cbn;
    intros o [? ?]; (split; [done|]); eapply Hmono; [|done| |done]; set_solver.
Qed.

Lemma writes_sleep phase cidr message ms : writes phase cidr message 0 [Ev (CSleep ms) tt].
Proof. split_and!; [by apply Forall_singleton|done|constructor]. Qed.

Lemma update_succeeded_app_r tr1 tr2 : update_succeeded tr2 -> update_succeeded (tr1 ++ tr2).
Proof. intros (o & o' & Hin). exists o, o'. set_solver. Qed.

Section Proofs.
Context `{ApiErrors, RetryLaws, ConditionUtil}.
Context (key : NamespacedName) (phase cidr message : string).

Lemma write_wp E tr :
  wp E (write_claim_status key phase cidr message tt) tr (λ tr' r, exists ext, tr' = tr ++ ext /\
    writes phase cidr message 1 ext /\ (r.2 = None -> update_succeeded ext)).
Proof.
  unfold write_claim_status. apply wp_bind, wp_call. intros g _ _. destruct g as [latest|e].
  - apply wp_bind, wp_call. intros now _ _. apply wp_bind, wp_call. intros u _ _.
    set (o := with_claim_status _ _ _ _ _) in *.
    assert (Hw : writes phase cidr message 1
      [Ev (CGetClaim key) (Ok latest); Ev CNow now; Ev (CStatusUpdateClaim o) u]).
    { split_and!; [by repeat (apply Forall_cons; split)|done|]. apply Forall_singleton.
      split; [done|]. exists key, latest. split; [set_solver|done]. }
    destruct u as [o'|e]; apply wp_ret; eexists; (split; [by rewrite <-!app_assoc|]); (split; [exact Hw|]).
    + intros _. exists o, o'. set_solver.
    + done.
  - apply wp_ret. eexists. split; [done|]. split; [|done].
    split_and!; [by apply Forall_singleton|cbn; lia|constructor].
Qed.

Lemma retry_wp E tr :
  wp E (RetryOnConflict claimStatusBackoff (write_claim_status key phase cidr message) tt) tr
    (λ tr' r, exists ext, tr' = tr ++ ext /\ writes phase cidr message 5 ext /\
      (r.2 = None -> update_succeeded ext)).
Proof.
  unfold RetryOnConflict.
  apply (OnError_wp E claimStatusBackoff IsConflict _
    (λ i _ tr', exists ext, tr' = tr ++ ext /\ writes phase cidr message i ext)).
  - cbn. lia.
  - intros i _ tr' ms (ext & -> & Hw). exists (ext ++ [Ev (CSleep ms) tt]). rewrite app_assoc.
    split; [done|]. rewrite <-(Nat.add_0_r i). by apply writes_app, writes_sleep.
  - intros i [] tr' Hi (ext & -> & Hw). eapply wp_mono; [apply write_wp|].
    intros tr'' r (ext2 & -> & Hw2 & Hok).
    assert (Hall : writes phase cidr message (i + 1) (ext ++ ext2)) by by apply writes_app.
    assert (Hfin : (r.2 = None -> update_succeeded ext2) ->
      exists ext0, (tr ++ ext) ++ ext2 = tr ++ ext0 /\ writes phase cidr message 5 ext0 /\
        (r.2 = None -> update_succeeded ext0)).
    { intros Hs. exists (ext ++ ext2). rewrite app_assoc. split; [done|].
      destruct Hall as (? & Hl & ?). cbn in Hi. split; [split_and!; [done|lia|done]|].
      intros Hn. by apply update_succeeded_app_r, Hs. }
    destruct r as [[] [e|]]; cbn [fst snd] in *; [|by apply Hfin].
    destruct (IsConflict e && (i + 1 <? bo_Steps claimStatusBackoff)%nat); [|by apply Hfin].
    exists (ext ++ ext2). by rewrite app_assoc.
  - exists []. rewrite app_nil_r. split; [done|]. apply writes_nil.
Qed.

Lemma not_found_wp E n i lastErr tr :
  (lastErr = None -> (0 < n)%nat) ->
  wp E (not_found_loop n i key phase cidr message lastErr) tr (λ tr' r, exists ext, tr' = tr ++ ext /\
    writes phase cidr message (5 * n) ext /\ (r = None -> update_succeeded ext)).
Proof.
  revert i lastErr tr. induction n as [|n IH]; intros i lastErr tr Hl.
  { apply wp_ret. exists []. rewrite app_nil_r. split_and!; [done|apply writes_nil|].
    intros E'. specialize (Hl E'). lia. }
  cbn [not_found_loop]. apply wp_bind.
  assert (Hs : wp E (if 0 <? i then do_call (CSleep 100) else mret tt) tr
    (λ tr' _, exists ext, tr' = tr ++ ext /\ writes phase cidr message 0 ext)).
  { destruct (0 <? i).
    - apply wp_call. intros [] _ _. eexists. split; [done|]. apply writes_sleep.
    - apply wp_ret. exists []. rewrite app_nil_r. split; [done|]. apply writes_nil. }
  eapply wp_mono; [exact Hs|]. intros tr1 [] (ext1 & -> & Hw1).
  apply wp_bind. eapply wp_mono; [apply retry_wp|]. intros tr2 r (ext2 & -> & Hw2 & Hok).
  pose proof (writes_app _ _ _ _ _ _ _ Hw1 Hw2) as Hw12. cbn [Nat.add] in Hw12.
  assert (Hfin : (r.2 = None -> update_succeeded ext2) ->
    exists ext0, (tr ++ ext1) ++ ext2 = tr ++ ext0 /\ writes phase cidr message (5 * S n) ext0 /\
      (r.2 = None -> update_succeeded ext0)).
  { intros Hsucc. exists (ext1 ++ ext2). rewrite app_assoc. split; [done|].
    destruct Hw12 as (? & ? & ?). split; [split_and!; [done|lia|done]|].
    intros Hn. by apply update_succeeded_app_r, Hsucc. }
  destruct r as [[] [e|]]; cbn [snd] in *; [|apply wp_ret; by apply Hfin].
  destruct (IsNotFound e && (i <? NotFoundRetryMax)); [|apply wp_ret; by apply Hfin].
  eapply wp_mono; [apply (IH (i + 1) (Some e)); done|]. intros tr3 r3 (ext3 & -> & Hw3 & Hok3).
  exists ((ext1 ++ ext2) ++ ext3). split; [by rewrite !app_assoc|]. split.
  - replace (5 * S n)%nat with (5 + 5 * n)%nat by lia. by apply writes_app.
  - intros Hn. by apply update_succeeded_app_r, Hok3.
Qed.
End Proofs.

(** The early exit: the three fields already have these values. *)
Definition status_unchanged (claim : SubnetClaim) (phase cidr message : string) : bool :=
  bool_decide (cl_Phase (cl_Status claim) = phase) &&
  bool_decide (cl_AllocatedCIDR (cl_Status claim) = cidr) &&
  bool_decide (cl_Message (cl_Status claim) = message).

Section Update.
Context `{ApiErrors, RetryLaws, ConditionUtil}.

Lemma updateClaimStatus_unchanged claim phase cidr message :
  status_unchanged claim phase cidr message = true ->
  updateClaimStatus claim phase cidr message = Ret (no_requeue, None).
Proof. intros E. unfold updateClaimStatus. unfold status_unchanged in E. by rewrite E. Qed.

Lemma updateClaimStatus_wp E claim phase cidr message tr :
  wp E (updateClaimStatus claim phase cidr message) tr (λ tr' r, exists ext, tr' = tr ++ ext /\
    writes phase cidr message 20 ext /\
    (r.2 = None -> status_unchanged claim phase cidr message = true \/ update_succeeded ext) /\
    r.1 = (if bool_decide (r.2 = None) && bool_decide (phase = ClaimPending)
              && negb (status_unchanged claim phase cidr message)
           then requeue_after DefaultRequeueAfterMs else no_requeue)).
Proof.
  unfold updateClaimStatus. fold (status_unchanged claim phase cidr message).
  destruct (status_unchanged claim phase cidr message).
  { apply wp_ret. exists []. rewrite app_nil_r, andb_false_r. split_and!; [done|apply writes_nil|auto|done]. }
  apply wp_bind. eapply wp_mono; [apply not_found_wp; lia|]. intros tr1 r (ext & -> & Hw & Hok).
  destruct r as [e|].
  - apply wp_ret. exists ext. by split_and!.
  - case_bool_decide as HE; [|case_bool_decide as HP]; apply wp_ret; exists ext;
      (split_and!; [done|done|auto|]); cbn [fst snd]; subst; repeat case_bool_decide; done.
Qed.

End Update.

Section updateClaimStatus_writes_run.
Import ByReason FixedDelay ReplaceCondition.

End updateClaimStatus_writes_run.
