(* ===== verification/ClaimReconciler.v ===== *)
(** The SubnetClaim controller: [processClaimReconciliation] of
    [internal/controller/reconciler.go] and [Reconcile],
    [applyCommonMetadata], [isAllocationImmutable] of [controller.go]. *)

From S2P Require Import Prelude GoNet NetUtil Bitmap ApiTypes Effects InMemory Metrics Names Select.
From S2P Require Import Allocator ClaimStatus.

(** * Model *)

Definition MaxRetries : nat := 65.

Definition IPAMLabel : string := "plexaubnet.io/ipam".
Definition IPAMFinalizer : string := "ipam.plexaubnet.io/finalizer".

(** [controllerutil.ContainsFinalizer] and [AddFinalizer] on the list. *)
Definition applyCommonMetadata (m : ObjectMeta) : ObjectMeta :=
  let labels := match Labels m !! IPAMLabel with
                | Some _ => Labels m
                | None => <[IPAMLabel := "true"]> (Labels m)
                end in
  let finalizers := if bool_decide (IPAMFinalizer ∈ Finalizers m) then Finalizers m
                    else Finalizers m ++ [IPAMFinalizer] in
  mkObjectMeta (Name m) (GenerateName m) (Namespace m) (UID m) (Generation m) labels finalizers
    (OwnerReferences m) (DeletionTimestamp m).

Definition isAllocationImmutable (oldAlloc newAlloc : Subnet) : bool * string :=
  if negb (bool_decide (sn_Spec oldAlloc = sn_Spec newAlloc))
  then (false, "Subnet Spec fields are immutable") else (true, "").

Section Model.
Context `{ApiErrors, ControllerUtil, Retry, ConditionUtil}.

(** The gauges of every size for the pool with the new allocation marked. *)
Definition update_free_metrics (pool : SubnetPool) (allocs : list Subnet) (allocatedCIDR : string)
    : prog unit :=
  match NewCIDRMap (pl_CIDR (pl_Spec pool)) with
  | Err _ => mret tt
  | Ok cidrMap =>
      let cidrMap := foldl mark_ignoring_errors cidrMap ((λ a, sn_CIDR (sn_Spec a)) <$> allocs) in
      let cidrMap := mark_ignoring_errors cidrMap allocatedCIDR in
      let freeCount := GetFreeBlockCount cidrMap in
      order ← do_call (CMapRange (dom freeCount));
      foldl (λ p sizeKey, p ≫= λ _,
               do_call (CPoolGauge (Name (pl_meta pool)) ("/" +:+ sizeKey) (default 0 (freeCount !! sizeKey))))
        (mret tt) order
  end.

Definition claim_list_options (claim : SubnetClaim) : ListOptions :=
  pool_list_options (Namespace (cl_meta claim)) (cl_PoolRef (cl_Spec claim)).

(** The retry loop (step 5): [n] iterations are left; [retry] is the number of
    the next one. *)
Fixpoint process_loop (n : nat) (retry : Z) (claim : SubnetClaim) (pool : SubnetPool)
    (allocationList : list Subnet) : prog (Result * option error) :=
  match n with
  | O =>
      let errMsg := "Failed to allocate CIDR after " +:+ pretty (Z.of_nat MaxRetries)
                    +:+ " retries due to conflicts" in
      EmitAllocationConflict claim errMsg ≫= λ _,
      recordAllocationError claim "max_retries" ≫= λ _,
      updateClaimStatus claim ClaimError "" errMsg
  | S n' =>
      do_call (CSleep 30) ≫= λ _,
      listed ← (if 0 <? retry then
                  r ← do_call (CListSubnets (claim_list_options claim));
                  match r with Ok (items, _) => mret (Ok items) | Err err => mret (Err err) end
                else mret (Ok allocationList));
      match listed with
      | Err err => mret (no_requeue, Some err)
      | Ok allocationList =>
          res ← allocateCIDR claim pool allocationList;
          let '(pool, outcome) := res in
          match outcome with
          | Err err =>
              if IsExhaustedError err then
                EmitPoolExhausted claim (Name (pl_meta pool)) ≫= λ _,
                recordAllocationError claim "exhausted" ≫= λ _,
                updateClaimStatus claim ClaimError ""
                  ("Pool " +:+ Name (pl_meta pool) +:+ " is exhausted: " +:+ Error err)
              else if IsConflictError err && (retry <? Z.of_nat MaxRetries - 1) then
                jitter ← Intn 70;
                recordRetry (retry + 1) ≫= λ _,
                do_call (CSleep (jitter + 10)) ≫= λ _,
                g ← do_call (CGetSubnet (mkKey (Namespace (cl_meta claim)) (cl_ClusterID (cl_Spec claim))));
                match g with
                | Ok existingAlloc => updateClaimStatus claim ClaimBound (sn_CIDR (sn_Spec existingAlloc)) ""
                | Err _ => process_loop n' (retry + 1) claim pool allocationList
                end
              else
                EmitAllocationConflict claim (Error err) ≫= λ _,
                recordAllocationError claim "conflict" ≫= λ _,
                if (retry =? Z.of_nat MaxRetries - 1) && IsConflictError err
                then mret (requeue_after 30000, None)
                else updateClaimStatus claim ClaimError "" (Error err)
          | Ok (allocated, allocatedCIDR) =>
              if allocated : bool then
                recordAllocSuccess claim allocatedCIDR ≫= λ _,
                EmitAllocationSuccess claim allocatedCIDR ≫= λ _,
                update_free_metrics pool allocationList allocatedCIDR ≫= λ _,
                updateClaimStatus claim ClaimBound allocatedCIDR ""
              else process_loop n' (retry + 1) claim pool allocationList
          end
      end
  end.

(** Steps 3 to 5, once the pool is known and the claim valid. *)
Definition process_valid (claim : SubnetClaim) (pool : SubnetPool) : prog (Result * option error) :=
  g ← do_call (CGetSubnet (mkKey (Namespace (cl_meta claim)) (cl_ClusterID (cl_Spec claim))));
  match g with
  | Ok existingAllocation =>
      if bool_decide (sn_PoolRef (sn_Spec existingAllocation) <> cl_PoolRef (cl_Spec claim)) then
        let errMsg := "Existing allocation for ClusterID " +:+ cl_ClusterID (cl_Spec claim)
                      +:+ " found but in different pool: " +:+ sn_PoolRef (sn_Spec existingAllocation) in
        EmitAllocationConflict claim errMsg ≫= λ _,
        updateClaimStatus claim ClaimError "" errMsg
      else
        EmitAllocationSuccess claim (sn_CIDR (sn_Spec existingAllocation)) ≫= λ _,
        updateClaimStatus claim ClaimBound (sn_CIDR (sn_Spec existingAllocation)) ""
  | Err err =>
      if negb (IsNotFound err) then mret (no_requeue, Some err)
      else
        l ← do_call (CListSubnets (claim_list_options claim));
        match l with
        | Err err => mret (no_requeue, Some err)
        | Ok (allocationList, _) => process_loop MaxRetries 0 claim pool allocationList
        end
  end.

Definition processClaimReconciliation (claim : SubnetClaim) : prog (Result * option error) :=
  let currentGeneration := Generation (cl_meta claim) in
  let st := cl_Status claim in
  if bool_decide (cl_Phase st = ClaimBound) && bool_decide (cl_AllocatedCIDR st <> "")
     && (cl_ObservedGeneration st =? currentGeneration)
  then mret (no_requeue, None)
  else if bool_decide (cl_Phase st = ClaimBound) && bool_decide (cl_AllocatedCIDR st <> "") then
    if negb (cl_ObservedGeneration st =? currentGeneration)
    then updateClaimStatus claim ClaimBound (cl_AllocatedCIDR st) ""
    else mret (no_requeue, None)
  else
    p ← do_call (CGetPool (mkKey (Namespace (cl_meta claim)) (cl_PoolRef (cl_Spec claim))));
    match p with
    | Err err =>
        if IsNotFound err then
          let msg := "Pool " +:+ cl_PoolRef (cl_Spec claim) +:+ " not found" in
          if bool_decide (cl_Phase st <> ClaimError) || bool_decide (cl_Message st <> msg)
          then updateClaimStatus claim ClaimError "" msg
          else mret (requeue_after DefaultRequeueAfterMs, None)
        else mret (no_requeue, Some err)
    | Ok pool =>
        match validateClaim claim pool with
        | Some err =>
            EmitValidationFailed claim (Error err) ≫= λ _,
            recordAllocationError claim "validation" ≫= λ _,
            updateClaimStatus claim ClaimError "" (Error err)
        | None => process_valid claim pool
        end
    end.

(** [client.IgnoreNotFound] *)
Definition IgnoreNotFound (err : error) : option error := if IsNotFound err then None else Some err.

Definition Reconcile (req : NamespacedName) : prog (Result * option error) :=
  g ← do_call (CGetClaim req);
  match g with
  | Err err => mret (no_requeue, IgnoreNotFound err)
  | Ok claim => processClaimReconciliation claim
  end.
End Model.

(** * Observations *)

(** The CIDR comes from a Subnet created or read back for the cluster, from
    the Subnet named after the cluster in the claim's pool, or from a listed
    Subnet of the cluster. *)
Definition acquired (claim : SubnetClaim) (tr : list event) (cidr : string) : Prop :=
  obtained claim tr cidr \/
  (exists s, Ev (CGetSubnet (mkKey (Namespace (cl_meta claim)) (cl_ClusterID (cl_Spec claim)))) (Ok s) ∈ tr /\
    sn_CIDR (sn_Spec s) = cidr /\ sn_PoolRef (sn_Spec s) = cl_PoolRef (cl_Spec claim)) \/
  (exists o items cont s, Ev (CListSubnets o) (Ok (items, cont)) ∈ tr /\ s ∈ items /\
    sn_CIDR (sn_Spec s) = cidr /\ sn_ClusterID (sn_Spec s) = cl_ClusterID (cl_Spec claim)).

(** A submitted claim status is allowed: a Bound status carries the CIDR the
    claim already had or one that was acquired. *)
Definition bound_sound (claim : SubnetClaim) (tr : list event) (o : SubnetClaim) : Prop :=
  cl_Phase (cl_Status o) = ClaimBound ->
  (cl_Phase (cl_Status claim) = ClaimBound /\ cl_AllocatedCIDR (cl_Status o) = cl_AllocatedCIDR (cl_Status claim)) \/
  acquired claim tr (cl_AllocatedCIDR (cl_Status o)).

Definition retry_metric (e : event) : Prop :=
  match ev_call e with
  | CMetric (MInc name _) => name = "aquanaut_subnet_alloc_retry_total"
  | _ => False
  end.

(** The contract of pool reads: parsable if the claim requests a CIDR. *)
Definition claim_pools (claim : SubnetClaim) (p : SubnetPool) : Prop :=
  cl_RequestedCIDR (cl_Spec claim) <> "" -> is_ok (ParseCIDR (pl_CIDR (pl_Spec p))) = true.

(** Summary of a trace of the reconciliation. *)
Definition reconcile_post (claim : SubnetClaim) (tr : list event) (r : Result) : Prop :=
  Forall (bound_sound claim tr) (status_updates tr) /\ (length (submissions tr) <= 50)%nat /\
  Forall (well_submitted claim) (submissions tr) /\ Forall (λ e, ~ retry_metric e) tr /\
  (r = no_requeue \/ r = requeue_after 10000).

Lemma acquired_mono claim tr tr' cidr :
  (forall e, e ∈ tr -> e ∈ tr') -> acquired claim tr cidr -> acquired claim tr' cidr.
Proof.
  intros Hsub [[(s & s' & ?)|(k & s & ?)]|[(s & ?)|(o & items & cont & s & ?)]]; destruct_and!.
  - left. left. exists s, s'. auto.
  - left. right. exists k, s. auto.
  - right. left. exists s. auto.
  - right. right. exists o, items, cont, s. auto.
Qed.

Lemma status_event_silent ext :
  Forall status_event ext -> submissions ext = [] /\ Forall (λ e, ~ retry_metric e) ext.
Proof.
  induction 1 as [|[c r] ext Hc _ [IH1 IH2]]; [split; [done|constructor]|].
  unfold submissions in *. cbn [omap list_omap]. rewrite IH1. unfold submitted, status_event in *. cbn in *.
  split; [by destruct c|]. constructor; [|done]. unfold retry_metric. cbn.
  destruct c; cbn in *; intros ?; contradiction.
Qed.

Lemma allocator_call_silent claim ext :
  Forall (λ e, allocator_call claim (ev_call e)) ext ->
  status_updates ext = [] /\ Forall (λ e, ~ retry_metric e) ext.
Proof.
  induction 1 as [|[c r] ext Hc _ [IH1 IH2]]; [split; [done|constructor]|].
  unfold status_updates in *. cbn [omap list_omap]. rewrite IH1. unfold status_update. cbn in *.
  split; [by destruct c|]. constructor; [|done]. unfold retry_metric. cbn.
  destruct c; try (intros ?; contradiction).
  destruct m; [exact Hc|intros []..].
Qed.

(** Ending with a status update: what came before must have acquired the CIDR
    if the new phase is Bound. *)
Lemma reconcile_post_update claim pre ext phase cidr message r :
  Forall (λ e, allocator_call claim (ev_call e)) pre -> (length (submissions pre) <= 50)%nat ->
  writes phase cidr message 20 ext -> (r = no_requeue \/ r = requeue_after 10000) ->
  (phase = ClaimBound ->
    (cl_Phase (cl_Status claim) = ClaimBound /\ cidr = cl_AllocatedCIDR (cl_Status claim)) \/
    acquired claim pre cidr) ->
  reconcile_post claim (pre ++ ext) r.
Proof.
  intros Hpre Hlen (Hev & _ & Hw) Hr Hb.
  destruct (allocator_call_silent claim pre Hpre) as [Hu1 Hm1].
  destruct (status_event_silent ext Hev) as [Hs2 Hm2]. unfold reconcile_post.
  rewrite status_updates_app, submissions_app, Hu1, Hs2, app_nil_r. cbn [app].
  split_and!; [|done|by apply allocator_calls_submitted|by apply Forall_app|done].
  eapply Forall_impl; [exact Hw|]. cbn. intros o [(Hp & Hc & _) _] Ho. rewrite Hp in Ho. rewrite Hc.
  destruct (Hb Ho) as [?|Hacq]; [by left|]. right. eapply acquired_mono; [|exact Hacq]. set_solver.
Qed.

(** Ending without one. *)
Lemma reconcile_post_return claim pre r :
  Forall (λ e, allocator_call claim (ev_call e)) pre -> (length (submissions pre) <= 50)%nat ->
  (r = no_requeue \/ r = requeue_after 10000) -> reconcile_post claim pre r.
Proof.
  intros Hpre Hlen Hr. rewrite <-(app_nil_r pre).
  by apply (reconcile_post_update claim pre [] "" "" ""); [done|done|apply writes_nil|done|].
Qed.

Section Proofs.
Context `{ApiErrorLaws, ControllerUtilLaws, RetryLaws, ConditionUtil}.

Lemma update_free_metrics_quiet pool allocs cidr : quiet_prog (update_free_metrics pool allocs cidr).
Proof.
  unfold update_free_metrics. destruct (NewCIDRMap _) as [m|]; [|done].
  apply quiet_bind; [done|]. intros order.
  assert (Hgen : forall l acc, quiet_prog acc -> quiet_prog (foldl (λ p sizeKey, p ≫= λ _,
    do_call (CPoolGauge (Name (pl_meta pool)) ("/" +:+ sizeKey)
      (default 0 (GetFreeBlockCount (mark_ignoring_errors (foldl mark_ignoring_errors m
         ((λ a, sn_CIDR (sn_Spec a)) <$> allocs)) cidr) !! sizeKey)))) acc l)); [|by apply Hgen].
  induction l as [|x l IH]; intros acc Hacc; [done|]. cbn [foldl]. apply IH. by apply quiet_bind.
Qed.

(** Quiet calls of the reconciler other than the retry counter. *)
Lemma emit_calls E claim k t r m : calls_in E (allocator_call claim) (do_call (CEvent k t r m)).
Proof. done. Qed.

Lemma recordAllocationError_calls E claim c t : calls_in E (allocator_call claim) (recordAllocationError c t).
Proof. unfold recordAllocationError, metric_op. repeat calls_step. done. Qed.

Lemma recordAllocSuccess_calls E claim c t : calls_in E (allocator_call claim) (recordAllocSuccess c t).
Proof. unfold recordAllocSuccess, metric_op. by apply calls_in_call. Qed.

Lemma update_free_metrics_calls E claim pool allocs cidr :
  calls_in E (allocator_call claim) (update_free_metrics pool allocs cidr).
Proof.
  unfold update_free_metrics. destruct (NewCIDRMap _) as [m|]; [|done].
  apply calls_in_bind; [done|]. intros order. set (f := λ p sizeKey, _).
  assert (Hgen : forall l acc, calls_in E (allocator_call claim) acc ->
    calls_in E (allocator_call claim) (foldl f acc l)); [|by apply Hgen].
  induction l as [|x l IH]; intros acc Hacc; [done|]. cbn [foldl]. apply IH. by apply calls_in_bind.
Qed.

(** What holds before the final status update. *)
Definition before_update (claim : SubnetClaim) (pre : list event) : Prop :=
  Forall (λ e, allocator_call claim (ev_call e)) pre /\ (length (submissions pre) <= 50)%nat.

(** A quiet step keeps it. *)
Lemma quiet_step E claim (p : prog unit) (f : unit -> prog (Result * option error)) pre Q :
  quiet_prog p -> calls_in E (allocator_call claim) p -> before_update claim pre ->
  (forall pre', before_update claim pre' -> (forall e, e ∈ pre -> e ∈ pre') -> wp E (f tt) pre' Q) ->
  wp E (p ≫= f) pre Q.
Proof.
  intros Hq Hc [Hpre Hlen] Hf. apply wp_bind. eapply wp_mono.
  - apply (wp_calls_in E (allocator_call claim)); [done|].
    instantiate (1 := λ tr' _, exists ext1, tr' = pre ++ ext1 /\ Forall quiet ext1).
    apply wp_quiet; [done|]. eauto.
  - cbn. intros tr1 [] ((ext1 & -> & Hq1) & ext1' & E1 & Hc1). apply app_inv_head in E1 as <-.
    destruct (quiet_silent ext1 Hq1) as [Hs1 _].
    apply Hf; [|set_solver]. split; [by apply Forall_app|]. by rewrite submissions_app, Hs1, app_nil_r.
Qed.

(** The final status update. *)
Lemma finish_wp E claim phase cidr message pre :
  before_update claim pre -> phase <> ClaimPending ->
  (phase = ClaimBound ->
    (cl_Phase (cl_Status claim) = ClaimBound /\ cidr = cl_AllocatedCIDR (cl_Status claim)) \/
    acquired claim pre cidr) ->
  wp E (updateClaimStatus claim phase cidr message) pre (λ tr r, reconcile_post claim tr r.1).
Proof.
  intros [Hpre Hlen] Hphase Hacq. eapply wp_mono; [apply updateClaimStatus_wp|].
  intros tr2 r (ext2 & -> & Hw & _ & Hr).
  eapply reconcile_post_update; [done|done|exact Hw| |done].
  rewrite Hr, (bool_decide_eq_false_2 (phase = _)) by done. rewrite andb_false_r. by left.
Qed.

(** The retry loop returns in its first iteration: [allocateCIDR] never
    returns a conflict. *)
Lemma process_loop_wp n claim pool allocs pre :
  claim_pools claim pool -> Forall (λ e, allocator_call claim (ev_call e)) pre -> submissions pre = [] ->
  (exists o cont, Ev (CListSubnets o) (Ok (allocs, cont)) ∈ pre) ->
  wp (pool_reads (claim_pools claim)) (process_loop (S n) 0 claim pool allocs) pre
    (λ tr r, reconcile_post claim tr r.1).
Proof.
  intros HP Hpre Hs (o & cont & Hlist). cbn [process_loop]. apply wp_bind, wp_call. intros [] _ _.
  apply wp_bind, wp_ret, wp_bind. eapply wp_mono; [apply (allocateCIDR_wp _ _ _ (claim_pools claim)); auto|].
  intros tr [pool' r] (ext & -> & Hc & Hlen & Hres). cbn [snd] in Hres.
  set (pre2 := (pre ++ [Ev (CSleep 30) tt]) ++ ext) in *.
  assert (Hpre2 : before_update claim pre2).
  { split; [|unfold pre2; by rewrite !submissions_app, Hs].
    apply Forall_app. split; [|done]. apply Forall_app. split; [done|]. by apply Forall_singleton. }
  destruct r as [[b cidr]|e].
  - destruct Hres as [-> Hacq].
    assert (Hacq2 : acquired claim pre2 cidr).
    { destruct Hacq as [(a & Ha & Hcl & _ & Hci)|Hob].
      - right. right. exists o, allocs, cont, a. split_and!; try done. unfold pre2. set_solver.
      - left. by apply obtained_app_r. }
    apply (quiet_step _ claim); [auto with plex|apply recordAllocSuccess_calls|done|]. intros pre3 Hpre3 Hsub3.
    apply (quiet_step _ claim); [auto with plex|done|done|]. intros pre4 Hpre4 Hsub4.
    apply (quiet_step _ claim); [apply update_free_metrics_quiet|apply update_free_metrics_calls|done|].
    intros pre5 Hpre5 Hsub5. apply finish_wp; [done|done|]. intros _. right.
    eapply acquired_mono; [|exact Hacq2]. auto.
  - rewrite Hres. cbn [andb]. rewrite andb_false_r.
    destruct (IsExhaustedError e); (apply (quiet_step _ claim); [auto with plex|done|done|]);
      intros pre3 Hpre3 _;
      (apply (quiet_step _ claim); [auto with plex|apply recordAllocationError_calls|done|]);
      intros pre4 Hpre4 _; by apply finish_wp.
Qed.

Lemma process_valid_wp claim pool pre :
  claim_pools claim pool -> Forall (λ e, allocator_call claim (ev_call e)) pre -> submissions pre = [] ->
  wp (pool_reads (claim_pools claim)) (process_valid claim pool) pre (λ tr r, reconcile_post claim tr r.1).
Proof.
  intros HP Hpre Hs. unfold process_valid. apply wp_bind, wp_call. intros g _ _.
  set (pre2 := pre ++ [_]).
  assert (Hpre2 : Forall (λ e, allocator_call claim (ev_call e)) pre2).
  { apply Forall_app. split; [done|]. by apply Forall_singleton. }
  assert (Hs2 : submissions pre2 = []) by (unfold pre2; by rewrite submissions_app, Hs).
  assert (Hb2 : before_update claim pre2) by (split; [done|rewrite Hs2; cbn; lia]).
  destruct g as [s|e].
  - case_bool_decide as Hpool; (apply (quiet_step _ claim); [auto with plex|done|done|]);
      intros pre3 Hpre3 Hsub; apply finish_wp; try done.
    intros _. right. right. left. exists s. split_and!; [|done|done].
    apply Hsub. unfold pre2. rewrite elem_of_app. right. by apply list_elem_of_singleton.
  - destruct (IsNotFound e); cbn [negb]; [|apply wp_ret, reconcile_post_return; [apply Hb2..|by left]].
    apply wp_bind, wp_call. intros l _ _.
    assert (Hpre3 : Forall (λ e, allocator_call claim (ev_call e)) (pre2 ++ [Ev (CListSubnets (claim_list_options claim)) l])).
    { apply Forall_app. split; [done|]. by apply Forall_singleton. }
    assert (Hs3 : submissions (pre2 ++ [Ev (CListSubnets (claim_list_options claim)) l]) = [])
      by (by rewrite submissions_app, Hs2).
    destruct l as [[items cont]|e2].
    + apply process_loop_wp; [done|done|done|]. exists (claim_list_options claim), cont.
      rewrite elem_of_app. right. by apply list_elem_of_singleton.
    + apply wp_ret, reconcile_post_return; [done|rewrite Hs3; cbn; lia|by left].
Qed.

Lemma validateClaim_pools claim pool : validateClaim claim pool = None -> claim_pools claim pool.
Proof.
  unfold validateClaim, claim_pools. rewrite !guard_none. intros (_ & _ & Hv) Hreq.
  rewrite bool_decide_eq_false_2 in Hv by done. by repeat case_match.
Qed.

Lemma processClaim_wp claim :
  wp (pool_reads (claim_pools claim)) (processClaimReconciliation claim) []
    (λ tr r, reconcile_post claim tr r.1).
Proof.
  assert (Hnil : before_update claim []) by (split; [constructor|cbn; lia]).
  unfold processClaimReconciliation.
  destruct (bool_decide (cl_Phase (cl_Status claim) = ClaimBound)) eqn:HB; cbn [andb].
  1: destruct (bool_decide (cl_AllocatedCIDR (cl_Status claim) <> "")) eqn:HC; cbn [andb].
  1: { destruct (cl_ObservedGeneration (cl_Status claim) =? Generation (cl_meta claim)); cbn [negb].
       - apply wp_ret, reconcile_post_return; [apply Hnil..|by left].
       - apply finish_wp; [done|done|]. intros _. left. by apply bool_decide_eq_true in HB. }
  all: apply wp_bind, wp_call; intros p _ HE; cbn [app] in *; destruct p as [pool|e].
  1, 3: (destruct (validateClaim claim pool) as [err|] eqn:V;
    [|apply process_valid_wp; [by apply validateClaim_pools|by apply Forall_singleton|done]]);
    (apply (quiet_step _ claim); [auto with plex|done|split; [by apply Forall_singleton|cbn; lia]|]);
    intros pre3 Hpre3 _;
    (apply (quiet_step _ claim); [auto with plex|apply recordAllocationError_calls|done|]);
    intros pre4 Hpre4 _; by apply finish_wp.
  all: assert (Hb : before_update claim [Ev (CGetPool (mkKey (Namespace (cl_meta claim))
    (cl_PoolRef (cl_Spec claim)))) (Err e)]) by (split; [by apply Forall_singleton|cbn; lia]);
    destruct (IsNotFound e); [|apply wp_ret, reconcile_post_return; [apply Hb..|by left]];
    destruct (_ || _); [by apply finish_wp|apply wp_ret, reconcile_post_return; [apply Hb..|by right]].
Qed.
End Proofs.

(** * Calls of the reconciliation

    For a set of calls that contains the reads of the claim's own objects, the
    quiet calls, and the updates of claims just read to a status that is not
    Bound or Bound with a good CIDR, and that allows the calls of
    [allocateCIDR], given properties of pools, lists and results that the
    reads establish. *)
Section Calls.
Context `{ApiErrors, ControllerUtil, RetryLaws, ConditionUtil}.
Context (E : env) (K : call -> Prop) (claim : SubnetClaim).
Context (OK : SubnetPool -> Prop) (LIST : list Subnet -> Prop) (RES : result (bool * string) -> Prop)
  (GOOD : string -> Prop).

Definition cluster_key : NamespacedName := mkKey (Namespace (cl_meta claim)) (cl_ClusterID (cl_Spec claim)).
Definition pool_key : NamespacedName := mkKey (Namespace (cl_meta claim)) (cl_PoolRef (cl_Spec claim)).

Definition basic_call (c : call) : Prop :=
  match c with
  | CGetClaim k => k = object_key (cl_meta claim)
  | CGetPool k => k = pool_key
  | CGetSubnet k => k = cluster_key
  | CListSubnets o => o = claim_list_options claim
  | _ => quiet_c c
  end.

Record claim_safe : Prop := {
  cs_basic c : basic_call c -> K c;
  cs_update latest st :
    E (CGetClaim (object_key (cl_meta claim))) (Ok latest) ->
    (cl_Phase st = ClaimBound -> GOOD (cl_AllocatedCIDR st)) ->
    K (CStatusUpdateClaim (mkSubnetClaim (cl_meta latest) (cl_Spec latest) st));
  cs_own : cl_Phase (cl_Status claim) = ClaimBound -> GOOD (cl_AllocatedCIDR (cl_Status claim));
  cs_pool p : E (CGetPool pool_key) (Ok p) -> OK p;
  cs_list items cont : E (CListSubnets (claim_list_options claim)) (Ok (items, cont)) -> LIST items;
  cs_named s : E (CGetSubnet cluster_key) (Ok s) ->
    sn_PoolRef (sn_Spec s) = cl_PoolRef (cl_Spec claim) -> GOOD (sn_CIDR (sn_Spec s));
  cs_result b cidr : RES (Ok (b, cidr)) -> GOOD cidr;
  cs_conflict e s : RES (Err e) -> IsConflictError e = true -> E (CGetSubnet cluster_key) (Ok s) ->
    GOOD (sn_CIDR (sn_Spec s));
  cs_allocate pool allocs : OK pool -> LIST allocs ->
    safe E K (allocateCIDR claim pool allocs) (λ r, OK r.1 /\ RES r.2)
}.

Hypothesis safety : claim_safe.

Lemma quiet_K (p : prog unit) : quiet_prog p -> calls_in E K p.
Proof. apply quiet_calls_in. intros c Hc. apply (cs_basic safety). by destruct c. Qed.

(** A quiet step before the rest. *)
Lemma quiet_first {A} (p : prog unit) (f : unit -> prog A) :
  quiet_prog p -> calls_in E K (f tt) -> calls_in E K (p ≫= f).
Proof. intros Hp Hf. apply calls_in_bind; [by apply quiet_K|]. by intros []. Qed.

Lemma updateClaimStatus_calls phase cidr message :
  (phase = ClaimBound -> GOOD cidr) -> calls_in E K (updateClaimStatus claim phase cidr message).
Proof.
  intros Hg. unfold updateClaimStatus. destruct (_ && _); [done|]. apply calls_in_bind; [|repeat calls_step].
  generalize 4%nat as n, 0 as i, (@None error) as last. induction n as [|n IH]; intros i last; [done|].
  cbn [not_found_loop]. apply calls_in_bind; [destruct (0 <? i); [by apply calls_in_call, (cs_basic safety)|done]|].
  intros []. apply calls_in_bind; [|intros [[] [e|]]; cbn [snd]; [destruct (_ && _)|]; done].
  apply OnError_calls; [intros ms; by apply (cs_basic safety)|]. intros []. unfold write_claim_status.
  apply safe_bind, safe_call; [by apply (cs_basic safety)|]. intros g _ HE. destruct g as [latest|e]; [|done].
  apply safe_bind, safe_call; [by apply (cs_basic safety)|]. intros now _ _.
  apply safe_bind, safe_call; [by apply (cs_update safety)|]. by intros [].
Qed.

Lemma process_loop_calls n retry pool allocs :
  OK pool -> LIST allocs -> calls_in E K (process_loop n retry claim pool allocs).
Proof.
  revert retry pool allocs. induction n as [|n IH]; intros retry pool allocs HP HL; cbn [process_loop].
  { do 2 (apply quiet_first; [auto with plex|]). by apply updateClaimStatus_calls. }
  apply quiet_first; [done|]. apply safe_bind.
  assert (Hlist : safe E K
    (if 0 <? retry then
       r ← do_call (CListSubnets (claim_list_options claim));
       match r with Ok (items, _) => mret (Ok items) | Err err => mret (Err err) end
     else mret (Ok allocs)) (λ r, match r with Ok l => LIST l | Err _ => True end)).
  { destruct (0 <? retry); [|done]. apply safe_bind, safe_call; [by apply (cs_basic safety)|].
    intros [[items cont]|e] _ HE; [|done]. by eapply (cs_list safety). }
  eapply safe_mono; [exact Hlist|]. intros [allocs'|e] HL'; [|done].
  apply safe_bind. eapply safe_mono; [by apply (cs_allocate safety)|]. intros [pool' r] [HP' HR]. cbn [fst snd] in *.
  match goal with |- safe E K ?p _ => change (calls_in E K p) end.
  destruct r as [[[] cidr]|e].
  - do 3 (apply quiet_first; [(apply update_free_metrics_quiet || auto with plex)|]).
    apply updateClaimStatus_calls. intros _. by eapply (cs_result safety).
  - by apply IH.
  - destruct (IsExhaustedError e); [|destruct (IsConflictError e && _) eqn:Hc].
    + do 2 (apply quiet_first; [auto with plex|]). by apply updateClaimStatus_calls.
    + apply calls_in_bind; [by apply calls_in_call, (cs_basic safety)|]. intros j.
      do 2 (apply quiet_first; [auto with plex|]).
      apply safe_bind, safe_call; [by apply (cs_basic safety)|]. apply andb_true_iff in Hc as [Hc _].
      intros [s|e2] _ HE; [apply updateClaimStatus_calls; intros _; by eapply (cs_conflict safety)|by apply IH].
    + do 2 (apply quiet_first; [auto with plex|]). destruct ((retry =? _) && _); [done|]. by apply updateClaimStatus_calls.
Qed.

Lemma processClaim_calls : calls_in E K (processClaimReconciliation claim).
Proof.
  unfold processClaimReconciliation. destruct (_ && _ && _); [done|].
  destruct (bool_decide (_ = ClaimBound) && _) eqn:Hb.
  { apply andb_true_iff in Hb as [Hb%bool_decide_eq_true _]. destruct (negb _); [|done].
    apply updateClaimStatus_calls. intros _. by apply (cs_own safety). }
  clear Hb. apply safe_bind, safe_call; [by apply (cs_basic safety)|]. intros p _ HE.
  match goal with |- safe E K ?p _ => change (calls_in E K p) end.
  destruct p as [pool|e]; [|repeat calls_step; by apply updateClaimStatus_calls].
  destruct (validateClaim claim pool) as [err|].
  { do 2 (apply quiet_first; [auto with plex|]). by apply updateClaimStatus_calls. }
  unfold process_valid. apply safe_bind, safe_call; [by apply (cs_basic safety)|]. intros g _ HS.
  match goal with |- safe E K ?p _ => change (calls_in E K p) end. destruct g as [s|e].
  - case_bool_decide as Hp; (apply quiet_first; [auto with plex|]); apply updateClaimStatus_calls; [done|].
    intros _. apply (cs_named safety); [done|]. by destruct (decide (sn_PoolRef (sn_Spec s) = cl_PoolRef (cl_Spec claim))).
  - destruct (negb _); [done|]. apply safe_bind, safe_call; [by apply (cs_basic safety)|]. intros l _ HL.
    match goal with |- safe E K ?p _ => change (calls_in E K p) end. destruct l as [[items cont]|e2]; [|done].
    apply process_loop_calls; [by apply (cs_pool safety)|by eapply (cs_list safety)].
Qed.
End Calls.

(** When nothing is asked of pools, lists, results or CIDRs. *)
Lemma claim_safe_plain `{ApiErrors, ControllerUtil} E (K : call -> Prop) claim :
  (forall c, basic_call claim c -> K c) -> (forall o, K (CStatusUpdateClaim o)) ->
  (forall pool allocs, calls_in E K (allocateCIDR claim pool allocs)) ->
  claim_safe E K claim (λ _, True) (λ _, True) (λ _, True) (λ _, True).
Proof. intros Hb Hu Ha. constructor; try done. intros pool allocs _ _. eapply safe_mono; [apply Ha|done]. Qed.

(** * Properties *)

Section Theorems.
Context `{ApiErrorLaws, ControllerUtilLaws, RetryLaws, ConditionUtil}.

(** C8. Every run of [processClaimReconciliation], whatever the API server
    answers (with parsable pools if the claim requests a CIDR), marks the
    claim Bound only with the CIDR it already had or with one it acquired: of
    a Subnet it created or read back for the cluster, of the Subnet named
    after the cluster in the claim's pool, or of a listed Subnet of the
    cluster.  It submits at most 50 Subnets, all well formed, and does not
    panic. *)
Theorem processClaim_bound_sound claim :
  wp (pool_reads (claim_pools claim)) (processClaimReconciliation claim) [] (λ tr r,
    Forall (bound_sound claim tr) (status_updates tr) /\
    (length (submissions tr) <= 50)%nat /\ Forall (well_submitted claim) (submissions tr)).
Proof. eapply wp_mono; [apply processClaim_wp|]. by intros tr r (? & ? & ? & _). Qed.

End Theorems.

Section processClaim_runs.
Import ByReason OwnerRef FixedDelay ReplaceCondition.

Definition sample_store : store :=
  mkStore {[object_key (sn_meta sample_subnet) := sample_subnet]}
    {[object_key (pl_meta sample_pool) := sample_pool]}
    {[object_key (cl_meta sample_claim) := sample_claim]} ∅.

Lemma processClaim_bound_sound_witness :
  exists a s' tr, exec (serve_pool sample_pool) (processClaimReconciliation sample_claim) sample_store []
      = (Some a, s', tr) /\
    a = (no_requeue, None) /\ Forall (bound_sound sample_claim tr) (status_updates tr) /\
    cl_AllocatedCIDR <$> (cl_Status <$> status_updates tr) = ["10.0.0.64/26"].
Proof.
  destruct (wp_exec (serve_pool sample_pool) (pool_reads (claim_pools sample_claim))
    (processClaimReconciliation sample_claim) sample_store [] _ (serve_pool_legal sample_pool)
    ltac:(intros []; try (intros s; exact I); intros s Hr; vm_compute; reflexivity)
    (processClaim_bound_sound sample_claim)) as (a & s' & tr & Hrun & Hb & _).
  exists a, s', tr. split; [exact Hrun|].
  assert (E : (λ x, (x.1.1, cl_AllocatedCIDR <$> (cl_Status <$> status_updates x.2)))
    (exec (serve_pool sample_pool) (processClaimReconciliation sample_claim) sample_store [])
    = (Some (no_requeue, None), ["10.0.0.64/26"])) by (vm_compute; reflexivity).
  rewrite Hrun in E. injection E as -> Hc. exact (conj eq_refl (conj Hb Hc)).
Defined.

End processClaim_runs.

Section Bound.
Context `{ApiErrors, ControllerUtil, Retry, ConditionUtil}.

(** A Bound claim with a CIDR and an empty message is never touched again:
    the reconciliation makes no call at all.  In particular the observed
    generation is not brought up to date when the claim's generation changes,
    although there is a branch for it. *)
Theorem bound_claim_untouched claim :
  cl_Phase (cl_Status claim) = ClaimBound -> cl_AllocatedCIDR (cl_Status claim) <> "" ->
  cl_Message (cl_Status claim) = "" ->
  processClaimReconciliation claim = Ret (no_requeue, None).
Proof.
  intros HB HC HM. unfold processClaimReconciliation. rewrite !bool_decide_eq_true_2 by done. cbn [andb].
  destruct (_ =? _); cbn [negb]; [done|]. unfold updateClaimStatus.
  by rewrite !bool_decide_eq_true_2 by done.
Qed.
End Bound.

Section bound_claim_untouched_run.
Import ByReason OwnerRef FixedDelay ReplaceCondition.

Lemma bound_claim_untouched_witness :
  processClaimReconciliation
    (mkSubnetClaim (mkObjectMeta "claim" "" "ns" "u" 2 ∅ [] [] None)
       (mkSubnetClaimSpec "pool" "cluster-a" 0 "") (mkSubnetClaimStatus 1 ClaimBound "10.0.0.64/26" "" []))
  = Ret (no_requeue, None).
Proof. apply bound_claim_untouched; [reflexivity|discriminate|reflexivity]. Defined.
End bound_claim_untouched_run.

(** [applyCommonMetadata] adds the IPAM label (keeping a value it already
    has) and the finalizer exactly once, changes nothing else, and is
    idempotent. *)
Theorem applyCommonMetadata_spec m :
  let m' := applyCommonMetadata m in
  Labels m' !! IPAMLabel = Some (default "true" (Labels m !! IPAMLabel)) /\
  (forall k, k <> IPAMLabel -> Labels m' !! k = Labels m !! k) /\
  IPAMFinalizer ∈ Finalizers m' /\ (forall f, f ∈ Finalizers m -> f ∈ Finalizers m') /\
  (forall f, f <> IPAMFinalizer -> f ∈ Finalizers m' -> f ∈ Finalizers m) /\
  object_key m' = object_key m /\ OwnerReferences m' = OwnerReferences m /\
  applyCommonMetadata m' = m'.
Proof.
  cbv zeta. unfold applyCommonMetadata. destruct m as [n gn ns uid g labels fins owners del]. cbn.
  destruct (labels !! IPAMLabel) as [v|] eqn:L; cbn; case_bool_decide as F; cbn;
    rewrite ?L, ?lookup_insert_eq; cbn.
  - rewrite bool_decide_eq_true_2 by done. split_and!; auto.
  - rewrite bool_decide_eq_true_2 by set_solver. split_and!; auto; set_solver.
  - rewrite bool_decide_eq_true_2 by done. split_and!; auto. intros k Hk. by rewrite lookup_insert_ne.
  - rewrite bool_decide_eq_true_2 by set_solver. split_and!; auto; try set_solver.
    intros k Hk. by rewrite lookup_insert_ne.
Qed.
