(* ===== verification/Cluster.v ===== *)
(** Concurrent reconciliations.  Any number of claim reconciliations run
    interleaved against one API server, each call a step; reads may be stale,
    the answer to a create that took effect may be lost, objects may be deleted and their status changed by others in between.
    The only thing the server guarantees is that a create of a taken name
    fails.  The theorems are invariants of the reachable clusters. *)

From stdpp Require Import relations.
From S2P Require Import Prelude GoNet NetUtil Bitmap ApiTypes Effects InMemory Metrics Names Select.
From S2P Require Import Allocator ClaimStatus ClaimReconciler.

(** * The transition system *)

Definition thread : Type := prog (Result * option error).

Record cluster : Type := mkCluster {
  cs_subnets : gmap NamespacedName Subnet;
  cs_threads : list thread
}.

(** The Subnet [x] is created, as [y], under a free name. *)
Definition stores (x y : Subnet) (st st' : gmap NamespacedName Subnet) : Prop :=
  st !! object_key (sn_meta x) = None /\ object_key (sn_meta y) = object_key (sn_meta x) /\
  sn_Spec y = sn_Spec x /\ st' = <[object_key (sn_meta x) := y]> st.

(** The effect of a call and its response on the stored Subnets: a create
    succeeds only under a free name, storing the submitted spec; one that
    reports an error may have stored the Subnet all the same, when the answer
    was lost on the way. *)
Definition api_effect (c : call) : resp c -> gmap NamespacedName Subnet -> gmap NamespacedName Subnet -> Prop :=
  match c with
  | CCreateSubnet x => λ r st st',
      match r with
      | Ok y => stores x y st st'
      | Err _ => st' = st \/ exists y, stores x y st st'
      end
  | _ => λ _ st st', st' = st
  end.

Lemma create_effect x r st st' :
  api_effect (CCreateSubnet x) r st st' -> st' = st \/ exists y, stores x y st st'.
Proof. destruct r as [y|e]; [|done]. right. by exists y. Qed.

Section System.
(** The reconciliations that may start, and the contract of the responses. *)
Context (starts : thread -> Prop) (E : env).

Inductive step : cluster -> cluster -> Prop :=
| step_start st ts p :
    starts p -> step (mkCluster st ts) (mkCluster st (ts ++ [p]))
| step_call st st' ts i c k r :
    ts !! i = Some (Vis c k) -> legal c r -> E c r -> api_effect c r st st' ->
    step (mkCluster st ts) (mkCluster st' (<[i := k r]> ts))
| step_delete st ts key :
    step (mkCluster st ts) (mkCluster (delete key st) ts)
| step_status st ts key y y' :
    st !! key = Some y -> object_key (sn_meta y') = object_key (sn_meta y) -> sn_Spec y' = sn_Spec y ->
    step (mkCluster st ts) (mkCluster (<[key := y']> st) ts).

Definition reachable (cl : cluster) : Prop := rtc step (mkCluster ∅ []) cl.

(** A property of Subnets that depends on name, namespace and spec only. *)
Context (P : Subnet -> Prop).
Hypothesis P_stable : forall y y',
  object_key (sn_meta y') = object_key (sn_meta y) -> sn_Spec y' = sn_Spec y -> P y -> P y'.

(** Only Subnets with the property are submitted. *)
Definition submits (c : call) : Prop := match c with CCreateSubnet s => P s | _ => True end.
Hypothesis starts_submit : forall p, starts p -> calls_in E submits p.

Definition cluster_inv (cl : cluster) : Prop :=
  (forall k s, cs_subnets cl !! k = Some s -> object_key (sn_meta s) = k /\ P s) /\
  Forall (calls_in E submits) (cs_threads cl).

Lemma cluster_inv_step cl cl' : step cl cl' -> cluster_inv cl -> cluster_inv cl'.
Proof.
  intros Hstep [Hst Hts]. destruct Hstep as [st ts p Hp|st st' ts i c k r Hi Hl HE Hapi|st ts key|st ts key y y' Hy Hk Hs];
    cbn in *; (split; cbn).
  - done.
  - apply Forall_app. split; [done|]. apply Forall_singleton. auto.
  - pose proof (Forall_lookup_1 _ _ _ _ Hts Hi) as [Hc _]. destruct c; cbn in Hapi; try (rewrite Hapi; exact Hst).
    apply create_effect in Hapi as [->|(y & Hfree & Hkey & Hspec & ->)]; [exact Hst|].
    intros k' s [[<- <-]|[Hne Hk']]%lookup_insert_Some; [|auto]. split; [done|]. by apply (P_stable o).
  - apply Forall_insert; [done|]. pose proof (Forall_lookup_1 _ _ _ _ Hts Hi) as [_ Hk]. by apply Hk.
  - intros k s [_ Hk]%lookup_delete_Some. auto.
  - done.
  - destruct (Hst key y Hy) as [Hky Hy']. intros k s [[<- <-]|[Hne Hk']]%lookup_insert_Some; [|auto].
    split; [congruence|]. by apply (P_stable y).
  - done.
Qed.

Lemma cluster_inv_reachable cl : reachable cl -> cluster_inv cl.
Proof.
  intros Hr. unfold reachable in Hr.
  assert (Hinit : cluster_inv (mkCluster ∅ [])) by (split; [intros k s Hk; cbn in Hk; by rewrite lookup_empty in Hk|constructor]).
  induction Hr as [cl|cl1 cl2 cl3 Hs _ IH]; [done|]. apply IH. by eapply cluster_inv_step.
Qed.
End System.

(** * Sequential executions are runs of the system *)

(** A server for one pool and one claim over the stored Subnets; [stale], if
    given, is what a listing returns instead of the current Subnets. *)
Definition serve_cluster (pool : SubnetPool) (claim : SubnetClaim) (stale : option (list Subnet)) (c : call)
    : gmap NamespacedName Subnet -> resp c * gmap NamespacedName Subnet :=
  match c with
  | CGetSubnet k => λ st, (lookup_obj st k, st)
  | CGetPool k => λ st, (if bool_decide (object_key (pl_meta pool) = k) then Ok pool else notFound, st)
  | CGetClaim _ => λ st, (Ok claim, st)
  | CGetPoolClaim _ => λ st, (notFound, st)
  | CListSubnets _ => λ st, (Ok (default ((map_to_list st).*2) stale, ""), st)
  | CListClaims _ => λ st, (notFound, st)
  | CListPools _ => λ st, (notFound, st)
  | CCreateSubnet x => λ st, create_obj st (object_key (sn_meta x)) x
  | CCreateClaim _ => λ st, (notFound, st)
  | CCreatePool _ => λ st, (notFound, st)
  | CStatusUpdateClaim x => λ st, (Ok x, st)
  | CStatusUpdatePoolClaim x => λ st, (Ok x, st)
  | CStatusPatchSubnet _ _ => λ st, (notFound, st)
  | CStatusPatchPool _ _ => λ st, (notFound, st)
  | CEvent _ _ _ _ => λ st, (tt, st)
  | CMetric _ => λ st, (tt, st)
  | CPoolGauge _ _ _ => λ st, (tt, st)
  | CSleep _ => λ st, (tt, st)
  | CNow => λ st, (0, st)
  | CRandIntn _ => λ st, (0, st)
  | CMapRange keys => λ st, (elements keys, st)
  end.

Lemma serve_cluster_legal pool claim stale c st : legal c (serve_cluster pool claim stale c st).1.
Proof. destruct c; cbn; try done; repeat case_match; done. Qed.

Lemma serve_cluster_effect pool claim stale c st :
  api_effect c (serve_cluster pool claim stale c st).1 st (serve_cluster pool claim stale c st).2.
Proof.
  destruct c; try done. cbn. unfold create_obj. destruct (st !! _) eqn:E; [by left|done].
Qed.

Lemma exec_steps starts E (h : forall c, gmap NamespacedName Subnet -> resp c * gmap NamespacedName Subnet)
    (p : thread) st tr a st' tr' ts i :
  (forall c s, legal c (h c s).1) -> (forall c s, E c (h c s).1) ->
  (forall c s, api_effect c (h c s).1 s (h c s).2) ->
  exec h p st tr = (Some a, st', tr') -> ts !! i = Some p ->
  rtc (step starts E) (mkCluster st ts) (mkCluster st' (<[i := Ret a]> ts)).
Proof.
  intros Hl HE Hapi. revert st tr ts. induction p as [b|c k IH|m]; intros st tr ts Hrun Hi; cbn in Hrun; [| |done].
  - simplify_eq. rewrite list_insert_id by done. apply rtc_refl.
  - specialize (Hl c st). specialize (HE c st). specialize (Hapi c st).
    destruct (h c st) as [r st1]. cbn in *.
    eapply rtc_l; [by eapply step_call|].
    apply IH with (ts := <[i := k r]> ts) in Hrun.
    + by rewrite list_insert_insert_eq in Hrun.
    + apply list_lookup_insert_eq. by eapply lookup_lt_Some.
Qed.

(** Start a reconciliation and run it to its end. *)
Lemma run_thread starts E h (p : thread) st ts a st' tr' :
  (forall c s, legal c (h c s).1) -> (forall c s, E c (h c s).1) ->
  (forall c s, api_effect c (h c s).1 s (h c s).2) ->
  starts p -> exec h p st [] = (Some a, st', tr') ->
  rtc (step starts E) (mkCluster st ts) (mkCluster st' (ts ++ [Ret a])).
Proof.
  intros Hl HE Hapi Hp Hrun. eapply rtc_l; [by apply step_start|].
  replace (ts ++ [Ret a]) with (<[length ts := Ret a]> (ts ++ [p])).
  - eapply exec_steps; [done..|]. by apply list_lookup_middle.
  - rewrite <-(Nat.add_0_r (length ts)). by rewrite insert_app_r.
Qed.

(** * Named Subnets *)

(** The name of the object encodes its pool and CIDR. *)
Definition well_named (s : Subnet) : Prop :=
  Name (sn_meta s) = EncodeAllocationName (sn_PoolRef (sn_Spec s)) (sn_CIDR (sn_Spec s)).

Lemma well_named_stable y y' :
  object_key (sn_meta y') = object_key (sn_meta y) -> sn_Spec y' = sn_Spec y -> well_named y -> well_named y'.
Proof. unfold object_key, well_named. by intros [= _ ->] ->. Qed.

Section Named.
Context `{ApiErrorLaws, ControllerUtilLaws, RetryLaws, ConditionUtil}.

(** Reconciliations of arbitrary claims. *)
Definition any_claim (p : thread) : Prop := exists claim, p = processClaimReconciliation claim.

Lemma any_claim_submits p : any_claim p -> calls_in any (submits well_named) p.
Proof.
  intros [claim ->]. eapply processClaim_calls, claim_safe_plain.
  - intros c Hc. by destruct c.
  - done.
  - intros pool allocs. eapply (calls_in_mono any (allocator_call claim)); [done| |apply allocateCIDR_calls].
    intros c Hc. destruct c; try done. by destruct Hc as (_ & ? & _).
Qed.
End Named.

(** * Pools with one block size *)

(** The text of block [i] of a pool, as [AllocateNextAvailable] builds it. *)
Definition block_at (c : CIDRMap) (size i : Z) : string :=
  IP_String4 (rev (add_offset (rev (baseIP c)) (i * 2 ^ (32 - size)))) +:+ "/" +:+ pretty size.

Lemma findAvailableCIDR_block poolCIDR size used t :
  findAvailableCIDR poolCIDR size used = Ok t ->
  exists c i, NewCIDRMap poolCIDR = Ok c /\ 16 <= size <= 28 /\
    0 <= i < pow2_int (size - prefixLen c) /\ t = block_at c size i.
Proof.
  unfold findAvailableCIDR. destruct (NewCIDRMap poolCIDR) as [c|] eqn:HN; [|done].
  destruct (mark_ignoring_wf used c (NewCIDRMap_wf _ _ HN)) as [Hw Hp].
  pose proof (mark_ignoring_base used c) as Hb. set (m := foldl mark_ignoring_errors c used) in *.
  unfold AllocateNextAvailable. pose proof (wfm_sizes _ Hw) as [Emin Emax]. rewrite Emin, Emax.
  destruct ((size <? 16) || (28 <? size)) eqn:Hs; [done|].
  apply orb_false_iff in Hs as [Hs1%Z.ltb_ge Hs2%Z.ltb_ge].
  destruct (List.find _ _) as [i|] eqn:F; [|done].
  destruct (MarkAllocated m _) as [m'|]; [|done]. intros [= <-].
  apply List.find_some in F as [Hi _]. rewrite <-list_elem_of_In, elem_of_seqZ in Hi.
  exists c, i. rewrite <-Hp. split_and!; [done|lia|lia|lia|lia|].
  unfold block_at. rewrite Hb, pow2_int_eq by lia. done.
Qed.

(** Blocks of one size that overlap are the same block. *)
Lemma block_at_overlap c size i j :
  wf_map c -> 16 <= size <= 28 -> 0 <= i < pow2_int (size - prefixLen c) ->
  0 <= j < pow2_int (size - prefixLen c) ->
  CIDROverlaps (block_at c size i) (block_at c size j) = true -> i = j.
Proof.
  intros Hc Hs Hi Hj HO.
  destruct (block_text c size i Hc Hs Hi) as (ip & n & P & H4 & Ho & Hlo).
  destruct (block_text c size j Hc Hs Hj) as (ip' & n' & P' & H4' & Ho' & Hlo').
  apply (CIDROverlaps_nets _ _ _ _ _ _ P P') in HO as (_ & _ & H1 & H2).
  apply ParseCIDR_wf in P, P'. unfold net_hi in *. rewrite net_size_v4, Ho in H2 by done.
  rewrite net_size_v4, Ho' in H1 by done. pose proof (pow2_gt0 (32 - size) ltac:(lia)). nia.
Qed.

Section Uniform.
Context `{ApiErrorLaws, ControllerUtilLaws, RetryLaws, ConditionUtil}.
(** The CIDR, the default block size and the block size in use of each pool. *)
Context (pool_cidr : NamespacedName -> string) (pool_default pool_block_size : NamespacedName -> Z).

Definition stable_pool (p : SubnetPool) : Prop :=
  pl_CIDR (pl_Spec p) = pool_cidr (object_key (pl_meta p)) /\
  pl_DefaultBlockSize (pl_Spec p) = pool_default (object_key (pl_meta p)).

(** Contract: a pool read returns the pool asked for, with these constants. *)
Definition stable_pools : env := λ c,
  match c with
  | CGetPool k => λ r, match r with Ok p => object_key (pl_meta p) = k /\ stable_pool p | Err _ => True end
  | _ => λ _, True
  end.

(** A claim without requested CIDR whose size is the pool's. *)
Definition uniform_claim (claim : SubnetClaim) : Prop :=
  cl_RequestedCIDR (cl_Spec claim) = "" /\
  forall p, stable_pool p -> effectiveBlockSize claim p = pool_block_size (object_key (pl_meta p)).

Definition uniform_thread (p : thread) : Prop :=
  exists claim, uniform_claim claim /\ p = processClaimReconciliation claim.

Definition subnet_pool_key (s : Subnet) : NamespacedName :=
  mkKey (Namespace (sn_meta s)) (sn_PoolRef (sn_Spec s)).

(** A well-named Subnet whose CIDR is a block of the pool's size. *)
Definition uniform_subnet (s : Subnet) : Prop :=
  well_named s /\ exists c i,
    NewCIDRMap (pool_cidr (subnet_pool_key s)) = Ok c /\
    16 <= pool_block_size (subnet_pool_key s) <= 28 /\
    0 <= i < pow2_int (pool_block_size (subnet_pool_key s) - prefixLen c) /\
    sn_CIDR (sn_Spec s) = block_at c (pool_block_size (subnet_pool_key s)) i.

Lemma uniform_subnet_stable y y' :
  object_key (sn_meta y') = object_key (sn_meta y) -> sn_Spec y' = sn_Spec y ->
  uniform_subnet y -> uniform_subnet y'.
Proof.
  intros Hk Hs [Hn Hb]. split; [by eapply well_named_stable|].
  assert (subnet_pool_key y' = subnet_pool_key y) as ->; [|by rewrite Hs].
  unfold subnet_pool_key, object_key in *. rewrite Hs. by injection Hk as -> _.
Qed.

Lemma uniform_overlap s s' :
  uniform_subnet s -> uniform_subnet s' -> subnet_pool_key s = subnet_pool_key s' ->
  CIDROverlaps (sn_CIDR (sn_Spec s)) (sn_CIDR (sn_Spec s')) = true ->
  object_key (sn_meta s) = object_key (sn_meta s').
Proof.
  intros [Hn (c & i & HN & Hs & Hi & Ei)] [Hn' (c' & j & HN' & Hs' & Hj & Ej)] Hkey HO.
  rewrite <-Hkey in HN', Hs', Hj, Ej. rewrite HN in HN'. injection HN' as <-. rewrite Ei, Ej in HO.
  apply block_at_overlap in HO as ->; [|by eapply NewCIDRMap_wf|done..].
  unfold subnet_pool_key in Hkey. injection Hkey as Hns Hpool.
  unfold object_key. by rewrite Hns, Hn, Hn', Hpool, Ei, Ej.
Qed.

(** An attempt on a stable pool submits only uniform Subnets. *)
Lemma uniform_attempt claim pool used allocs :
  uniform_claim claim -> Namespace (pl_meta pool) = Namespace (cl_meta claim) /\ stable_pool pool ->
  calls_in stable_pools (submits uniform_subnet) (attempt claim pool used allocs).
Proof.
  intros [Hdyn Huni] [Hns Hst]. unfold attempt, selectCandidateCIDR. rewrite Hdyn.
  rewrite bool_decide_eq_false_2 by (intros H'; by apply H'). apply safe_bind.
  apply safe_bind, safe_call; [done|]. intros order _ _. rewrite Huni by done.
  destruct (findAvailableCIDR _ _ order) as [t|e] eqn:F; [|done]. apply safe_ret.
  apply findAvailableCIDR_block in F as (c & i & HN & Hs & Hi & ->).
  destruct Hst as [Hcidr _]. rewrite Hcidr in HN.
  apply calls_in_bind; [|intros [[[] ?]|e]; [done|done|by destruct (IsConflictError e)]].
  unfold createAllocation. set (meta := new_meta _ _ _ _).
  destruct (SetControllerReference _ _ meta) as [meta'|err] eqn:SCR; [|done].
  apply SetControllerReference_frame in SCR as (refs & ->). set (s := mkSubnet _ _ _).
  assert (Hs' : uniform_subnet s).
  { split; [done|]. exists c, i. assert (subnet_pool_key s = object_key (pl_meta pool)) as ->; [|done].
    unfold subnet_pool_key, object_key. cbn. by rewrite Hns. }
  unfold recordCreateMetrics, metric_op. repeat calls_step; done.
Qed.

(** The submissions of a uniform claim. *)
Definition uniform_pool (claim : SubnetClaim) (p : SubnetPool) : Prop :=
  Namespace (pl_meta p) = Namespace (cl_meta claim) /\ stable_pool p.

Lemma uniform_allocate claim pool allocs :
  uniform_claim claim -> uniform_pool claim pool ->
  safe stable_pools (submits uniform_subnet) (allocateCIDR claim pool allocs) (λ r, uniform_pool claim r.1 /\ True).
Proof.
  intros Huni Hp. apply (allocateCIDR_safe _ _ _ (uniform_pool claim) (λ _, True) (λ _, True)); [|..|done|done].
  - constructor; try done; [by intros []|].
    intros q p [Hns _] [Hk Hst]. unfold object_key in Hk. injection Hk as Hk _. by split; [rewrite Hk|].
  - intros q used l Hq _. eapply safe_mono; [by apply uniform_attempt|]. by intros [].
Qed.

Lemma uniform_thread_submits p : uniform_thread p -> calls_in stable_pools (submits uniform_subnet) p.
Proof.
  intros (claim & Huni & ->).
  apply (processClaim_calls _ _ claim (uniform_pool claim) (λ _, True) (λ _, True) (λ _, True)).
  constructor; try done.
  - intros c Hc. by destruct c.
  - intros q [Hk Hst]. split; [|done]. unfold object_key in Hk. by injection Hk as -> _.
  - intros pool allocs Hp _. by apply uniform_allocate.
Qed.
End Uniform.

(** * Properties *)

Section Theorems.
Context `{ApiErrorLaws, ControllerUtilLaws, RetryLaws, ConditionUtil}.

(** C12. With any number of concurrent reconciliations of arbitrary claims, stale
    reads, failures, deletions and status changes, the cluster never holds two
    Subnets of one namespace with the same pool and the same CIDR. *)
Theorem cluster_pool_cidr_unique cl k1 k2 s1 s2 :
  reachable any_claim any cl ->
  cs_subnets cl !! k1 = Some s1 -> cs_subnets cl !! k2 = Some s2 ->
  Namespace (sn_meta s1) = Namespace (sn_meta s2) ->
  sn_PoolRef (sn_Spec s1) = sn_PoolRef (sn_Spec s2) -> sn_CIDR (sn_Spec s1) = sn_CIDR (sn_Spec s2) ->
  k1 = k2.
Proof.
  intros Hr L1 L2 Hns Hp Hc.
  destruct (cluster_inv_reachable any_claim any well_named well_named_stable any_claim_submits cl Hr) as [Hinv _].
  destruct (Hinv _ _ L1) as [<- Hn1], (Hinv _ _ L2) as [<- Hn2]. unfold well_named in *.
  unfold object_key. by rewrite Hns, Hn1, Hn2, Hp, Hc.
Qed.

End Theorems.

Section cluster_runs.
Import ByReason OwnerRef FixedDelay ReplaceCondition.

Definition sized_claim (name cluster : string) (size : Z) : SubnetClaim :=
  mkSubnetClaim (new_meta name "" "ns" ∅) (mkSubnetClaimSpec "pool" cluster size "")
    (mkSubnetClaimStatus 0 "" "" "" []).

(** The Subnets stored after a claim of the given size is reconciled. *)
Definition reconciled (name cluster : string) (size : Z) (stale : option (list Subnet))
    (st : gmap NamespacedName Subnet) : option (Result * option error) * gmap NamespacedName Subnet * list event :=
  exec (serve_cluster sample_pool (sized_claim name cluster size) stale)
    (processClaimReconciliation (sized_claim name cluster size)) st [].

Lemma reconciled_steps name cluster size stale st ts a st' tr' :
  reconciled name cluster size stale st = (Some a, st', tr') ->
  rtc (step any_claim any) (mkCluster st ts) (mkCluster st' (ts ++ [Ret a])).
Proof.
  intros Hrun. eapply run_thread; [apply serve_cluster_legal|done|apply serve_cluster_effect| |exact Hrun].
  by eexists.
Qed.

Lemma cluster_pool_cidr_unique_witness :
  exists cl k s, reachable any_claim any cl /\ cs_subnets cl !! k = Some s /\ k = k.
Proof.
  destruct (reconciled "a" "cluster-a" 26 None ∅) as [[[a|] st] tr] eqn:E; cycle 1.
  { assert (H : (reconciled "a" "cluster-a" 26 None ∅).1.1 = Some (no_requeue, None))
      by (vm_compute; reflexivity). rewrite E in H. discriminate H. }
  pose (k := mkKey "ns" "pool-10-0-0-0-26").
  assert (Hr : reachable any_claim any (mkCluster st [Ret a])) by exact (reconciled_steps _ _ _ _ _ [] _ _ _ E).
  assert (Hk : is_Some ((reconciled "a" "cluster-a" 26 None ∅).1.2 !! k)) by (vm_compute; eexists; reflexivity).
  rewrite E in Hk. cbn [fst snd] in Hk. destruct Hk as [s Hs]. exists (mkCluster st [Ret a]), k, s.
  exact (conj Hr (conj Hs (cluster_pool_cidr_unique _ k k s s Hr Hs Hs eq_refl eq_refl eq_refl))).
Defined.

(** C37. Blocks of different sizes may overlap: of two reconciliations that both
    list the allocations before either has created its Subnet, one takes
    10.0.0.0/26 and the other 10.0.0.0/25; their names differ, so both creates
    succeed. *)
Theorem cluster_mixed_sizes_overlap :
  exists cl k1 k2 s1 s2, reachable any_claim any cl /\
    cs_subnets cl !! k1 = Some s1 /\ cs_subnets cl !! k2 = Some s2 /\ k1 <> k2 /\
    Namespace (sn_meta s1) = Namespace (sn_meta s2) /\
    sn_PoolRef (sn_Spec s1) = sn_PoolRef (sn_Spec s2) /\
    CIDROverlaps (sn_CIDR (sn_Spec s1)) (sn_CIDR (sn_Spec s2)) = true.
Proof.
  destruct (reconciled "a" "cluster-a" 26 None ∅) as [[[a|] st] tr] eqn:E; cycle 1.
  { assert (H : (reconciled "a" "cluster-a" 26 None ∅).1.1 = Some (no_requeue, None))
      by (vm_compute; reflexivity). rewrite E in H. discriminate H. }
  assert (Hst : st = (reconciled "a" "cluster-a" 26 None ∅).1.2) by by rewrite E.
  destruct (reconciled "b" "cluster-b" 25 (Some []) st) as [[[b|] st2] tr2] eqn:E2; cycle 1.
  { assert (H : (reconciled "b" "cluster-b" 25 (Some []) (reconciled "a" "cluster-a" 26 None ∅).1.2).1.1
      = Some (no_requeue, None)) by (vm_compute; reflexivity). rewrite <-Hst, E2 in H. discriminate H. }
  pose proof (reconciled_steps _ _ _ _ _ [] _ _ _ E) as R1.
  pose proof (reconciled_steps _ _ _ _ _ [Ret a] _ _ _ E2) as R2.
  assert (Hst2 : st2 = (reconciled "b" "cluster-b" 25 (Some []) st).1.2) by by rewrite E2.
  exists (mkCluster st2 [Ret a; Ret b]), (mkKey "ns" "pool-10-0-0-0-26"), (mkKey "ns" "pool-10-0-0-0-25").
  rewrite Hst2, Hst. do 2 eexists. split; [|split; [vm_compute; reflexivity|split; [vm_compute; reflexivity|]]].
  - rewrite <-Hst, <-Hst2. unfold reachable. etransitivity; [exact R1|exact R2].
  - split; [done|]. split; [reflexivity|]. split; [reflexivity|vm_compute; reflexivity].
Qed.

End cluster_runs.
