(* ===== verification/Refinement.v ===== *)
(** The contract of the allocator and its implementation.  The specification
    is a small transition system over the ownership of single addresses: a
    free range of a pool is granted to an owner, or a range of one owner is
    released.  The cluster of [Cluster.v], with its concurrent
    reconciliations, stale reads and failing calls, is shown to implement it
    by a simulation. *)

From stdpp Require Import relations.
From S2P Require Import Prelude GoNet NetUtil Bitmap ApiTypes Effects InMemory Names Allocator.
From S2P Require Import ClaimStatus ClaimReconciler Cluster.

(** * Specification *)

(** The owner of each address of each pool that has one. *)
Notation ownership := (gmap (NamespacedName * Z) string).

Section Spec.
(** The addresses of a pool. *)
Context (in_range : NamespacedName -> Z -> Prop).

Definition grant (A : ownership) (pool : NamespacedName) (lo n : Z) (owner : string) : ownership :=
  foldr (λ a, <[(pool, a) := owner]>) A (seqZ lo n).

Definition release (A : ownership) (pool : NamespacedName) (lo n : Z) : ownership :=
  foldr (λ a, delete (pool, a)) A (seqZ lo n).

Inductive ipam_step : ownership -> ownership -> Prop :=
| ipam_grant A pool lo n owner :
    0 < n ->
    (forall a, lo <= a < lo + n -> in_range pool a /\ A !! (pool, a) = None) ->
    ipam_step A (grant A pool lo n owner)
| ipam_release A pool lo n owner :
    0 < n ->
    (forall a, lo <= a < lo + n -> A !! (pool, a) = Some owner) ->
    ipam_step A (release A pool lo n).
End Spec.

Lemma lookup_grant A pool lo n owner q a o :
  grant A pool lo n owner !! (q, a) = Some o <->
  (q = pool /\ lo <= a < lo + n /\ o = owner) \/ (~ (q = pool /\ lo <= a < lo + n) /\ A !! (q, a) = Some o).
Proof.
  assert (Hgen : forall l, foldr (λ a, <[(pool, a) := owner]>) A l !! (q, a) = Some o <->
    (q = pool /\ a ∈ l /\ o = owner) \/ (~ (q = pool /\ a ∈ l) /\ A !! (q, a) = Some o)).
  { induction l as [|x l IH]; cbn [foldr]; [rewrite elem_of_nil; naive_solver|].
    rewrite lookup_insert_Some, IH, elem_of_cons. destruct (decide (q = pool)), (decide (x = a)); naive_solver. }
  unfold grant. rewrite Hgen, elem_of_seqZ. naive_solver lia.
Qed.

Lemma lookup_release A pool lo n q a o :
  release A pool lo n !! (q, a) = Some o <-> ~ (q = pool /\ lo <= a < lo + n) /\ A !! (q, a) = Some o.
Proof.
  assert (Hgen : forall l, foldr (λ a, delete (pool, a)) A l !! (q, a) = Some o <->
    ~ (q = pool /\ a ∈ l) /\ A !! (q, a) = Some o).
  { induction l as [|x l IH]; cbn [foldr]; [rewrite elem_of_nil; naive_solver|].
    rewrite lookup_delete_Some, IH, elem_of_cons. destruct (decide (q = pool)), (decide (x = a)); naive_solver. }
  unfold release. rewrite Hgen, elem_of_seqZ. naive_solver lia.
Qed.

(** * The relation *)

(** First address and number of addresses of a Subnet. *)
Definition subnet_block (s : Subnet) : option (Z * Z) :=
  match ParseCIDR (sn_CIDR (sn_Spec s)) with Ok (_, n) => Some (net_lo n, net_size n) | Err _ => None end.

(** The address belongs to the Subnet, in its pool. *)
Definition holds (s : Subnet) (pool : NamespacedName) (a : Z) : Prop :=
  subnet_pool_key s = pool /\ exists lo n, subnet_block s = Some (lo, n) /\ lo <= a < lo + n.

(** An address is owned exactly by the cluster of a stored Subnet that holds it. *)
Definition implements (cl : cluster) (A : ownership) : Prop :=
  forall pool a o, A !! (pool, a) = Some o <->
    exists k s, cs_subnets cl !! k = Some s /\ holds s pool a /\ sn_ClusterID (sn_Spec s) = o.

(** The addresses of the pool's CIDR. *)
Definition cidr_range (pool_cidr : NamespacedName -> string) (pool : NamespacedName) (a : Z) : Prop :=
  exists ip n, ParseCIDR (pool_cidr pool) = Ok (ip, n) /\ net_lo n <= a <= net_hi n.

Lemma holds_stable s s' pool a :
  object_key (sn_meta s') = object_key (sn_meta s) -> sn_Spec s' = sn_Spec s -> holds s' pool a <-> holds s pool a.
Proof.
  intros [= Hns _] Hspec. unfold holds, subnet_block, subnet_pool_key. by rewrite Hns, Hspec.
Qed.

Section Blocks.
Context (pool_cidr : NamespacedName -> string) (pool_block_size : NamespacedName -> Z).
Notation uniform := (uniform_subnet pool_cidr pool_block_size).

(** The block of a uniform Subnet by its number in the pool. *)
Lemma uniform_block s :
  uniform s -> exists c i, NewCIDRMap (pool_cidr (subnet_pool_key s)) = Ok c /\
    let n := 2 ^ (32 - pool_block_size (subnet_pool_key s)) in
    0 < n /\ subnet_block s = Some (base c + i * n, n) /\
    sn_CIDR (sn_Spec s) = block_at c (pool_block_size (subnet_pool_key s)) i /\
    forall a, base c + i * n <= a < base c + i * n + n -> cidr_range pool_cidr (subnet_pool_key s) a.
Proof.
  intros [_ (c & i & HN & Hs & Hi & Hc)]. exists c, i. split; [done|]. intros n.
  pose proof (NewCIDRMap_wf _ _ HN) as Hw. destruct (total_blocks c _ i Hw Hs Hi) as (_ & H0 & Hfit).
  destruct (block_text c _ i Hw Hs Hi) as (ip & net & P & H4 & Ho & Hlo).
  pose proof (pow2_gt0 (32 - pool_block_size (subnet_pool_key s)) ltac:(lia)) as Hpos.
  split_and!; [done| |done|].
  - unfold subnet_block. rewrite Hc. unfold block_at. rewrite P, Hlo. f_equal. f_equal.
    apply ParseCIDR_wf in P. by rewrite net_size_v4, Ho by done.
  - intros a Ha. apply NewCIDRMap_ok in HN as (ip' & net' & P' & H4' & Ho' & ->).
    exists ip', net'. split; [done|]. apply ParseCIDR_wf in P' as Hw'. unfold net_hi.
    rewrite net_size_v4 by done. unfold base, pool_size in *. cbn in *. unfold net_lo. rewrite canon_4 by done.
    fold n in H0, Hfit. lia.
Qed.

(** Uniform Subnets of one pool that hold one address are the same object. *)
Lemma uniform_holds_inj s s' pool a :
  uniform s -> uniform s' -> holds s pool a -> holds s' pool a ->
  object_key (sn_meta s) = object_key (sn_meta s').
Proof.
  intros Hu Hu' [Hk (lo & n & Hb & Ha)] [Hk' (lo' & n' & Hb' & Ha')].
  destruct (uniform_block s Hu) as (c & i & HN & Hpos & Hb2 & Hc & _).
  destruct (uniform_block s' Hu') as (c' & j & HN' & _ & Hb2' & Hc' & _).
  rewrite Hk in *. rewrite Hk' in *. rewrite HN in HN'. injection HN' as <-.
  rewrite Hb in Hb2. injection Hb2 as -> ->. rewrite Hb' in Hb2'. injection Hb2' as -> ->.
  assert (i = j) as <- by nia. destruct Hu as [Hn _], Hu' as [Hn' _]. unfold well_named, object_key in *.
  rewrite Hn, Hn', Hc, Hc'. unfold subnet_pool_key in *. congruence.
Qed.
End Blocks.

(** * Simulation *)

Section Simulation.
Context `{ApiErrorLaws, ControllerUtilLaws, RetryLaws, ConditionUtil}.
Context (pool_cidr : NamespacedName -> string) (pool_default pool_block_size : NamespacedName -> Z).
Notation uniform := (uniform_subnet pool_cidr pool_block_size).
Notation inv := (cluster_inv (stable_pools pool_cidr pool_default) uniform).
Notation impl_step :=
  (step (uniform_thread pool_cidr pool_default pool_block_size) (stable_pools pool_cidr pool_default)).
Notation spec_step := (ipam_step (cidr_range pool_cidr)).

Lemma implements_frame cl cl' A :
  (forall pool a o,
    (exists k s, cs_subnets cl' !! k = Some s /\ holds s pool a /\ sn_ClusterID (sn_Spec s) = o) <->
    (exists k s, cs_subnets cl !! k = Some s /\ holds s pool a /\ sn_ClusterID (sn_Spec s) = o)) ->
  implements cl A -> implements cl' A.
Proof. intros Hf HA pool a o. by rewrite Hf. Qed.

(** A Subnet stored under a free name is a grant of its block. *)
Lemma create_simulates st ts ts' A y :
  (forall k s, st !! k = Some s -> object_key (sn_meta s) = k /\ uniform s) ->
  st !! object_key (sn_meta y) = None -> uniform y -> implements (mkCluster st ts) A ->
  exists A', implements (mkCluster (<[object_key (sn_meta y) := y]> st) ts') A' /\ spec_step A A'.
Proof.
  intros Hst Hfree Hy HA.
  destruct (uniform_block pool_cidr pool_block_size y Hy) as (c & i & HN & Hpos & Hb & Hc & Hr).
  set (n := 2 ^ _) in *. set (lo := base c + i * n) in *. set (pool := subnet_pool_key y) in *.
  assert (Hh : forall q a, holds y q a <-> q = pool /\ lo <= a < lo + n).
  { intros q a. unfold holds. rewrite Hb. naive_solver. }
  assert (Hno : forall k s q a, st !! k = Some s -> holds s q a -> ~ holds y q a).
  { intros k s q a Hk Hs Hy'. destruct (Hst _ _ Hk) as [Hks Hu].
    assert (object_key (sn_meta s) = object_key (sn_meta y)) by by eapply uniform_holds_inj. congruence. }
  exists (grant A pool lo n (sn_ClusterID (sn_Spec y))). split.
  - intros q a o. rewrite lookup_grant, <-Hh. cbn [cs_subnets]. unfold implements in HA. rewrite HA. cbn [cs_subnets].
    split.
    + intros [(-> & Ha & ->)|(Hn & k & s & Hk & Hs & <-)].
      * exists (object_key (sn_meta y)), y. rewrite lookup_insert_eq. split_and!; [done| |done]. by apply Hh.
      * exists k, s. rewrite lookup_insert_ne by congruence. done.
    + intros (k & s & [[<- <-]|[Hne Hk]]%lookup_insert_Some & Hs & <-).
      * left. apply Hh in Hs as [-> Hs]. done.
      * right. split; [by eapply Hno|]. eauto 10.
  - apply ipam_grant; [done|]. intros a Ha. split; [by apply Hr|].
    destruct (A !! (pool, a)) as [o|] eqn:E; [|done]. exfalso.
    apply HA in E as (k & s & Hk & Hs & _). eapply (Hno k s); [done|done|]. by apply Hh.
Qed.

(** A deleted Subnet is a release of its block. *)
Lemma delete_simulates st ts A key y :
  (forall k s, st !! k = Some s -> object_key (sn_meta s) = k /\ uniform s) ->
  st !! key = Some y -> implements (mkCluster st ts) A ->
  exists A', implements (mkCluster (delete key st) ts) A' /\ spec_step A A'.
Proof.
  intros Hst Hk HA. destruct (Hst _ _ Hk) as [Hky Hy].
  destruct (uniform_block pool_cidr pool_block_size y Hy) as (c & i & HN & Hpos & Hb & Hc & Hr).
  set (n := 2 ^ _) in *. set (lo := base c + i * n) in *. set (pool := subnet_pool_key y) in *.
  assert (Hh : forall q a, holds y q a <-> q = pool /\ lo <= a < lo + n).
  { intros q a. unfold holds. rewrite Hb. naive_solver. }
  exists (release A pool lo n). split.
  - intros q a o. rewrite lookup_release, <-Hh. unfold implements in HA. rewrite HA. cbn [cs_subnets]. split.
    + intros (Hn & k & s & Hs & Hhs & <-). exists k, s. rewrite lookup_delete_ne by congruence. done.
    + intros (k & s & [Hne Hs]%lookup_delete_Some & Hhs & <-). split; [|eauto 10].
      intros Hhy. destruct (Hst _ _ Hs) as [Hks Hu].
      assert (object_key (sn_meta s) = object_key (sn_meta y)) by by eapply uniform_holds_inj. congruence.
  - apply (ipam_release _ A pool lo n (sn_ClusterID (sn_Spec y))); [done|]. intros a Ha.
    apply HA. exists key, y. split_and!; [done| |done]. by apply Hh.
Qed.

Lemma implements_step cl cl' A :
  inv cl -> impl_step cl cl' -> implements cl A ->
  exists A', implements cl' A' /\ (A' = A \/ spec_step A A').
Proof.
  intros [Hst Hts] Hstep HA.
  destruct Hstep as [st ts p Hp|st st' ts i c k r Hi Hl HE Hapi|st ts key|st ts key y y' Hy Hk Hs].
  - exists A. by split; [|left].
  - assert (Hsame : st' = st -> exists A', implements (mkCluster st' (<[i := k r]> ts)) A' /\ (A' = A \/ spec_step A A')).
    { intros ->. exists A. by split; [|left]. }
    destruct c; try (by apply Hsame). apply create_effect in Hapi as [Heq|(y & Hfree & Hkey & Hspec & ->)]; [by apply Hsame|].
    pose proof (Forall_lookup_1 _ _ _ _ Hts Hi) as [Hc _]. cbn in Hc.
    assert (Hu : uniform y) by by eapply uniform_subnet_stable.
    rewrite <-Hkey in Hfree |- *.
    destruct (create_simulates st ts (<[i := k r]> ts) A y Hst Hfree Hu HA) as (A' & ? & ?). eauto.
  - destruct (st !! key) as [y|] eqn:E.
    + destruct (delete_simulates st ts A key y Hst E HA) as (A' & ? & ?). eauto.
    + rewrite delete_id by done. exists A. by split; [|left].
  - exists A. split; [|by left]. eapply implements_frame; [|exact HA]. intros pool a o. cbn [cs_subnets]. split.
    + intros (k & s & [[<- <-]|[Hne Hks]]%lookup_insert_Some & Hh & <-); [|eauto].
      exists key, y. rewrite <-Hs. split_and!; [done| |done]. by eapply holds_stable.
    + intros (k & s & Hks & Hh & <-). destruct (decide (k = key)) as [->|Hne].
      * rewrite Hy in Hks. injection Hks as <-. exists key, y'. rewrite lookup_insert_eq, Hs.
        split_and!; [done| |done]. by eapply holds_stable.
      * exists k, s. by rewrite lookup_insert_ne.
Qed.

End Simulation.

Section Refinement_run.
Import ByReason OwnerRef FixedDelay ReplaceCondition.

(** One claim on a /24 pool with blocks of /26. *)
Lemma refinement_run :
  exists cl s, reachable (uniform_thread (λ _, "10.0.0.0/24") (λ _, 26) (λ _, 26))
      (stable_pools (λ _, "10.0.0.0/24") (λ _, 26)) cl /\
    cs_subnets cl !! mkKey "ns" "pool-10-0-0-0-26" = Some s /\
    subnet_pool_key s = mkKey "ns" "pool" /\ subnet_block s = Some (167772160, 64) /\
    sn_ClusterID (sn_Spec s) = "cluster-a".
Proof.
  destruct (reconciled "a" "cluster-a" 26 None ∅) as [[[a|] st] tr] eqn:E; cycle 1.
  { assert (H : (reconciled "a" "cluster-a" 26 None ∅).1.1 = Some (no_requeue, None))
      by (vm_compute; reflexivity). rewrite E in H. discriminate H. }
  assert (Hk : (λ s, (subnet_pool_key s, subnet_block s, sn_ClusterID (sn_Spec s))) <$>
      (reconciled "a" "cluster-a" 26 None ∅).1.2 !! mkKey "ns" "pool-10-0-0-0-26" =
      Some (mkKey "ns" "pool", Some (167772160, 64), "cluster-a")) by (vm_compute; reflexivity).
  rewrite E in Hk. cbn [fst snd] in Hk. apply fmap_Some in Hk as (s & Hs & Hv).
  exists (mkCluster st ([] ++ [Ret a])), s.
  split; [|exact (conj Hs (conj (eq_sym (f_equal (λ t, t.1.1) Hv))
    (conj (eq_sym (f_equal (λ t, t.1.2) Hv)) (eq_sym (f_equal snd Hv)))))].
  eapply run_thread; [apply (serve_cluster_legal sample_pool (sized_claim "a" "cluster-a" 26) None)| |
    apply serve_cluster_effect| |exact E].
  - intros c s'. destruct c; try exact I. cbn. case_bool_decide as Hd; [|exact I]. split; [exact Hd|split; reflexivity].
  - exists (sized_claim "a" "cluster-a" 26). split; [split; [reflexivity|]|reflexivity]. intros p _. reflexivity.
Qed.

End Refinement_run.
