(* ===== verification/Progress.v ===== *)
(** Progress of the claim controller: against an API server that answers from
    its state and does not fail, a valid claim on a pool with a free block is
    bound by one reconciliation. *)

From S2P Require Import Prelude GoNet NetUtil Bitmap ApiTypes Effects InMemory Metrics Names Select Allocator.
From S2P Require Import ClaimStatus ClaimReconciler.
Import ByReason OwnerRef FixedDelay ReplaceCondition.

(** * Runs of the parts *)

(** Quiet calls leave the store alone. *)
Lemma exec_quiet {A} (p : prog A) s tr :
  quiet_prog p -> exists a ext, exec serve p s tr = (Some a, s, tr ++ ext).
Proof.
  revert tr. induction p as [a|c k IH|m]; intros tr Hp; cbn in *; [|destruct Hp as [Hc Hk]|done].
  - exists a, []. by rewrite app_nil_r.
  - assert (Hs : (serve c s).2 = s) by (by destruct c).
    destruct (serve c s) as [r s'] eqn:E. cbn in Hs. subst s'.
    destruct (IH r (tr ++ [Ev c r]) (Hk r)) as (a & ext & ->). exists a. eexists. by rewrite <-app_assoc.
Qed.

(** Skip a quiet statement. *)
Lemma exec_quiet_then {B} (p : prog unit) (f : unit -> prog B) s tr :
  quiet_prog p -> exists tr', exec serve (p ≫= f) s tr = exec serve (f tt) s tr'.
Proof.
  intros Hp. rewrite exec_bind. destruct (exec_quiet p s tr Hp) as ([] & ext & ->). eauto.
Qed.

(** A read and the update that follows succeed at once. *)
Lemma exec_write_status s key phase cidr message claim tr :
  st_claims s !! key = Some claim -> object_key (cl_meta claim) = key ->
  exists tr', exec serve (RetryOnConflict claimStatusBackoff (write_claim_status key phase cidr message) tt) s tr =
    (Some (tt, None),
     mkStore (st_subnets s) (st_pools s) (<[key := with_claim_status claim phase cidr message 0]> (st_claims s))
       (st_poolclaims s), tr').
Proof.
  intros Hc Hk. unfold RetryOnConflict, OnError, FixedDelay.retry.
  cbn [bo_Steps claimStatusBackoff Nat.sub FixedDelay.loop]. rewrite exec_bind. unfold write_claim_status.
  exec_step. cbn [serve fst snd]. unfold lookup_obj. rewrite Hc. exec_step. cbn [serve fst snd].
  exec_step. cbn [serve fst snd]. unfold update_obj. cbn [with_claim_status cl_meta]. rewrite Hk, Hc.
  cbn [fst snd]. rewrite exec_ret. cbn [fst snd]. rewrite exec_ret. by eexists.
Qed.

(** Setting the status of a claim whose status differs. *)
Lemma exec_updateClaimStatus s claim cidr tr :
  st_claims s !! object_key (cl_meta claim) = Some claim ->
  status_unchanged claim ClaimBound cidr "" = false ->
  exists tr', exec serve (updateClaimStatus claim ClaimBound cidr "") s tr =
    (Some (no_requeue, None),
     mkStore (st_subnets s) (st_pools s)
       (<[object_key (cl_meta claim) := with_claim_status claim ClaimBound cidr "" 0]> (st_claims s))
       (st_poolclaims s), tr').
Proof.
  intros Hc Hu. unfold updateClaimStatus. fold (status_unchanged claim ClaimBound cidr "").
  rewrite Hu, exec_bind. cbn [not_found_loop]. rewrite exec_bind.
  replace (0 <? 0) with false by done. rewrite exec_ret, exec_bind.
  destruct (exec_write_status s (object_key (cl_meta claim)) ClaimBound cidr "" claim tr) as (tr' & ->); [done..|].
  cbn [snd]. rewrite exec_ret. by eexists.
Qed.

(** The Subnet created for the claim. *)
Definition new_subnet (claim : SubnetClaim) (pool : SubnetPool) (cidr : string) : Subnet :=
  let meta := new_meta (EncodeAllocationName (Name (pl_meta pool)) cidr) "" (Namespace (cl_meta claim)) ∅ in
  mkSubnet
    (mkObjectMeta (Name meta) (GenerateName meta) (Namespace meta) (UID meta) (Generation meta) (Labels meta)
       (Finalizers meta)
       (OwnerReferences meta ++ [mkOwnerReference "SubnetClaim" (Name (cl_meta claim)) (UID (cl_meta claim)) true])
       (DeletionTimestamp meta))
    (allocation_spec claim pool cidr) (mkSubnetStatus "" None).

Definition with_subnet (s : store) (x : Subnet) : store :=
  mkStore (<[object_key (sn_meta x) := x]> (st_subnets s)) (st_pools s) (st_claims s) (st_poolclaims s).

(** The allocations the controller lists for the claim. *)
Definition listed (s : store) (claim : SubnetClaim) : list Subnet :=
  select_subnets (claim_list_options claim) (st_subnets s).

Section Allocate.
Context (s : store) (claim : SubnetClaim) (pool : SubnetPool) (cidr : string).
Hypothesis no_request : cl_RequestedCIDR (cl_Spec claim) = "".
Hypothesis new_cluster : find_by_cluster claim pool (listed s claim) = None.
Hypothesis free_block : findAvailableCIDR (pl_CIDR (pl_Spec pool)) (effectiveBlockSize claim pool)
  (elements (mark_used ∅ (listed s claim))) = Ok cidr.
Hypothesis free_name : st_subnets s !! object_key (sn_meta (new_subnet claim pool cidr)) = None.

Lemma exec_createAllocation tr :
  exists tr', exec serve (createAllocation claim pool cidr (EncodeAllocationName (Name (pl_meta pool)) cidr)) s tr =
    (Some (Ok (true, cidr)), with_subnet s (new_subnet claim pool cidr), tr').
Proof.
  unfold createAllocation. cbn [SetControllerReference controller_util].
  exec_step. cbn [serve fst snd]. fold (new_subnet claim pool cidr). unfold create_obj. rewrite free_name.
  cbn [fst snd]. edestruct @exec_quiet_then as (tr' & ->); [apply quiet_recordCreateMetrics|].
  rewrite exec_ret. by eexists.
Qed.

Lemma exec_attempt tr :
  exists tr', exec serve (attempt claim pool (mark_used ∅ (listed s claim)) (listed s claim)) s tr =
    (Some (inl (Ok (true, cidr))), with_subnet s (new_subnet claim pool cidr), tr').
Proof.
  unfold attempt. rewrite exec_bind. unfold selectCandidateCIDR. rewrite no_request, bool_decide_eq_false_2 by naive_solver.
  exec_step. cbn [serve fst snd]. rewrite free_block, exec_ret, exec_bind.
  edestruct exec_createAllocation as (tr' & ->). rewrite exec_ret. by eexists.
Qed.

Lemma exec_allocateCIDR tr :
  exists tr', exec serve (allocateCIDR claim pool (listed s claim)) s tr =
    (Some (pool, Ok (true, cidr)), with_subnet s (new_subnet claim pool cidr), tr').
Proof.
  unfold allocateCIDR. rewrite new_cluster, exec_bind. unfold AllocationMaxRetries. cbn [allocation_loop].
  replace (0 <? 0) with false by done. rewrite exec_bind, exec_ret, exec_bind.
  edestruct exec_attempt as (tr' & ->). rewrite exec_ret.
  edestruct @exec_quiet_then as (tr'' & ->); [apply quiet_recordLatency|]. rewrite exec_ret. by eexists.
Qed.
End Allocate.

(** * Binding a claim *)

(** A claim that can be served: stored, not bound, valid for its pool, without
    a requested CIDR and without a Subnet of its cluster; selection finds a
    block whose name is free. *)
Record servable (s : store) (req : NamespacedName) (claim : SubnetClaim) (pool : SubnetPool) (cidr : string)
    : Prop := {
  sv_claim : st_claims s !! req = Some claim;
  sv_key : object_key (cl_meta claim) = req;
  sv_open : cl_Phase (cl_Status claim) <> ClaimBound;
  sv_pool : st_pools s !! mkKey (Namespace (cl_meta claim)) (cl_PoolRef (cl_Spec claim)) = Some pool;
  sv_valid : validateClaim claim pool = None;
  sv_no_request : cl_RequestedCIDR (cl_Spec claim) = "";
  sv_no_cluster_subnet : st_subnets s !! mkKey (Namespace (cl_meta claim)) (cl_ClusterID (cl_Spec claim)) = None;
  sv_new_cluster : find_by_cluster claim pool (listed s claim) = None;
  sv_free_block : findAvailableCIDR (pl_CIDR (pl_Spec pool)) (effectiveBlockSize claim pool)
    (elements (mark_used ∅ (listed s claim))) = Ok cidr;
  sv_free_name : st_subnets s !! object_key (sn_meta (new_subnet claim pool cidr)) = None
}.

(** The store afterwards. *)
Definition bound_store (s : store) (claim : SubnetClaim) (pool : SubnetPool) (cidr : string) : store :=
  mkStore (<[object_key (sn_meta (new_subnet claim pool cidr)) := new_subnet claim pool cidr]> (st_subnets s))
    (st_pools s) (<[object_key (cl_meta claim) := with_claim_status claim ClaimBound cidr "" 0]> (st_claims s))
    (st_poolclaims s).

(** Step 5 of the reconciliation: the first iteration succeeds. *)
Lemma exec_process_loop n s req claim pool cidr tr :
  servable s req claim pool cidr ->
  exists tr', exec serve (process_loop (S n) 0 claim pool (listed s claim)) s tr =
    (Some (no_requeue, None), bound_store s claim pool cidr, tr').
Proof.
  intros Hs. cbn [process_loop]. exec_step. cbn [serve fst snd].
  replace (0 <? 0) with false by done. rewrite exec_bind, exec_ret, exec_bind.
  edestruct (exec_allocateCIDR s claim pool cidr) as (tr1 & ->); [apply Hs..|].
  edestruct @exec_quiet_then as (tr2 & ->); [apply quiet_recordAllocSuccess|].
  edestruct @exec_quiet_then as (tr3 & ->); [apply quiet_event|].
  edestruct @exec_quiet_then as (tr4 & ->); [apply update_free_metrics_quiet|].
  edestruct (exec_updateClaimStatus (with_subnet s (new_subnet claim pool cidr)) claim cidr) as (tr5 & ->).
  - cbn. rewrite (sv_key _ _ _ _ _ Hs). apply Hs.
  - unfold status_unchanged. rewrite bool_decide_eq_false_2; [done|]. apply Hs.
  - by eexists.
Qed.

(** A selected block is never the empty text. *)
Lemma findAvailableCIDR_nonempty poolCIDR size used cidr :
  findAvailableCIDR poolCIDR size used = Ok cidr -> cidr <> "".
Proof.
  unfold findAvailableCIDR, AllocateNextAvailable. intros Hf ->. repeat case_match; simplify_eq/=.
  all: match goal with H : _ = "" |- _ => by destruct (IP_String4 _) in H end.
Qed.

(** One reconciliation of a servable claim. *)
Lemma servable_run s req claim pool cidr :
  servable s req claim pool cidr ->
  exists tr, exec serve (Reconcile req) s [] = (Some (no_requeue, None), bound_store s claim pool cidr, tr).
Proof.
  intros Hs. pose proof (findAvailableCIDR_nonempty _ _ _ _ (sv_free_block _ _ _ _ _ Hs)) as Hne.
  pose proof (sv_key _ _ _ _ _ Hs) as Hk. unfold Reconcile.
  exec_step. cbn [serve fst snd]. unfold lookup_obj at 1. rewrite (sv_claim _ _ _ _ _ Hs).
  unfold processClaimReconciliation at 1. rewrite bool_decide_eq_false_2 by apply Hs. cbn [andb].
  exec_step. cbn [serve fst snd]. unfold lookup_obj at 1. rewrite (sv_pool _ _ _ _ _ Hs), (sv_valid _ _ _ _ _ Hs).
  unfold process_valid. exec_step. cbn [serve fst snd]. unfold lookup_obj at 1.
  rewrite (sv_no_cluster_subnet _ _ _ _ _ Hs). unfold notFound. cbn [IsNotFound api_errors].
  rewrite bool_decide_eq_true_2 by done. cbn [negb]. exec_step. cbn [serve fst snd]. fold (listed s claim). change MaxRetries with (S 64).
  edestruct (exec_process_loop 64 s req claim pool cidr) as (tr & ->); [done|]. by eexists.
Qed.

(** C9. A servable claim is served: one reconciliation succeeds, creates exactly
    the Subnet of the selected block for the claim's pool and cluster, owned
    by the claim, and marks the claim Bound with that CIDR for its current
    generation; nothing else changes, and a second reconciliation makes no
    change at all. *)
Theorem servable_claim_is_bound s req claim pool cidr :
  servable s req claim pool cidr ->
  let s' := bound_store s claim pool cidr in
  exists tr tr', exec serve (Reconcile req) s [] = (Some (no_requeue, None), s', tr) /\
    exec serve (Reconcile req) s' [] = (Some (no_requeue, None), s', tr').
Proof.
  intros Hs s'. pose proof (findAvailableCIDR_nonempty _ _ _ _ (sv_free_block _ _ _ _ _ Hs)) as Hne.
  pose proof (sv_key _ _ _ _ _ Hs) as Hk. destruct (servable_run s req claim pool cidr Hs) as (tr & ->).
  unfold Reconcile.
  exec_step. cbn [serve fst snd]. unfold lookup_obj, s', bound_store. cbn [st_claims].
  rewrite Hk, lookup_insert_eq. unfold processClaimReconciliation.
  cbn [with_claim_status cl_Status cl_Phase cl_AllocatedCIDR cl_ObservedGeneration cl_meta].
  rewrite bool_decide_eq_true_2, bool_decide_eq_true_2, Z.eqb_refl by done. cbn [andb]. rewrite exec_ret. by do 2 eexists.
Qed.

Lemma servable_claim_is_bound_witness :
  let s := mkStore {[object_key (sn_meta sample_subnet) := sample_subnet]}
    {[object_key (pl_meta sample_pool) := sample_pool]} {[object_key (cl_meta sample_claim) := sample_claim]} ∅ in
  exists tr, exec serve (Reconcile (object_key (cl_meta sample_claim))) s [] =
    (Some (no_requeue, None), bound_store s sample_claim sample_pool "10.0.0.64/26", tr).
Proof.
  intros s. destruct (servable_claim_is_bound s (object_key (cl_meta sample_claim)) sample_claim sample_pool
    "10.0.0.64/26") as (tr & tr' & Hx & _); [|by exists tr].
  constructor; try (vm_compute; reflexivity). vm_compute. intros [=].
Defined.
