(* ===== verification/Predicates.v ===== *)
(** [internal/controller/predicates.go] and the watch events the controllers
    filter: which events of an object lead to a reconciliation. *)

From S2P Require Import Prelude ApiTypes.

(** * Objects and events *)

(** [client.Object]: the kinds of objects the controllers watch. *)
Inductive Object : Type :=
| OSubnet (o : Subnet)
| OPool (o : SubnetPool)
| OClaim (o : SubnetClaim)
| OPoolClaim (o : SubnetPoolClaim).

Definition GetMeta (o : Object) : ObjectMeta :=
  match o with
  | OSubnet o => sn_meta o | OPool o => pl_meta o | OClaim o => cl_meta o | OPoolClaim o => pc_meta o
  end.

Definition GetGeneration (o : Object) : Z := Generation (GetMeta o).

(** [event.CreateEvent], [DeleteEvent], [UpdateEvent] and [GenericEvent]. *)
Inductive watch_event : Type :=
| CreateEvent (o : Object)
| DeleteEvent (o : Object)
| UpdateEvent (old new : Object)
| GenericEvent (o : Object).

(** [predicate.Funcs] with its four functions set. *)
Record Funcs : Type := mkFuncs {
  CreateFunc : Object -> bool;
  DeleteFunc : Object -> bool;
  UpdateFunc : Object -> Object -> bool;
  GenericFunc : Object -> bool
}.

Definition passes (p : Funcs) (e : watch_event) : bool :=
  match e with
  | CreateEvent o => CreateFunc p o
  | DeleteEvent o => DeleteFunc p o
  | UpdateEvent old new => UpdateFunc p old new
  | GenericEvent o => GenericFunc p o
  end.

(** * The predicates *)

Definition SubnetEvents : Funcs := mkFuncs
  (λ _, true) (λ _, true) (λ old new, negb (GetGeneration old =? GetGeneration new)) (λ _, true).

Definition DeletionOnly : Funcs := mkFuncs (λ _, false) (λ _, true) (λ _ _, false) (λ _, false).

Definition PoolStatusPred : Funcs := mkFuncs
  (λ _, true) (λ _, true) (λ old new, negb (GetGeneration old =? GetGeneration new)) (λ _, true).

Definition ParentLabel : string := "plexaubnet.io/parent".

(** The value a Go map lookup with a second result gives: the zero value when
    the key is absent. *)
Definition label_value (m : gmap string string) (k : string) : string := default "" (m !! k).

Definition childPoolPredicate : Funcs := mkFuncs
  (λ o, match o with
        | OPool p => bool_decide (is_Some (Labels (pl_meta p) !! ParentLabel))
        | _ => false
        end)
  (λ _, true)
  (λ old new,
     match old, new with
     | OPool oldPool, OPool newPool =>
         let oldHasParent := bool_decide (is_Some (Labels (pl_meta oldPool) !! ParentLabel)) in
         let newHasParent := bool_decide (is_Some (Labels (pl_meta newPool) !! ParentLabel)) in
         let oldParent := label_value (Labels (pl_meta oldPool)) ParentLabel in
         let newParent := label_value (Labels (pl_meta newPool)) ParentLabel in
         let parentChanged := xorb oldHasParent newHasParent || negb (bool_decide (oldParent = newParent)) in
         let cidrChanged := negb (bool_decide (pl_CIDR (pl_Spec oldPool) = pl_CIDR (pl_Spec newPool))) in
         let deletionMarked := bool_decide (DeletionTimestamp (pl_meta oldPool) = None) &&
                               bool_decide (DeletionTimestamp (pl_meta newPool) <> None) in
         parentChanged || cidrChanged || deletionMarked
     | _, _ => false
     end)
  (λ _, false).

(** * What they filter *)

(** A status update as the API server stores it: status differs, spec and
    metadata, the generation in particular, do not. *)
Definition status_only (old new : Object) : Prop :=
  match old, new with
  | OSubnet o, OSubnet n => sn_meta o = sn_meta n /\ sn_Spec o = sn_Spec n
  | OPool o, OPool n => pl_meta o = pl_meta n /\ pl_Spec o = pl_Spec n
  | OClaim o, OClaim n => cl_meta o = cl_meta n /\ cl_Spec o = cl_Spec n
  | OPoolClaim o, OPoolClaim n => pc_meta o = pc_meta n /\ pc_Spec o = pc_Spec n
  | _, _ => False
  end.

(** Status updates, the controllers' own writes, never pass a filter: no
    reconciliation is triggered by a write of a status. *)
Theorem status_updates_filtered old new :
  status_only old new ->
  passes SubnetEvents (UpdateEvent old new) = false /\
  passes PoolStatusPred (UpdateEvent old new) = false /\
  passes DeletionOnly (UpdateEvent old new) = false /\
  passes childPoolPredicate (UpdateEvent old new) = false.
Proof.
  intros Hs.
  assert (Hm : GetMeta old = GetMeta new) by (destruct old, new; cbn in *; tauto).
  cbn. unfold GetGeneration. rewrite Hm, Z.eqb_refl. split_and!; [done..|].
  destruct old as [|o| |], new as [|n| |]; try done. cbn in Hs, Hm. destruct Hs as [_ Hsp].
  rewrite Hm, Hsp, xorb_nilpotent, !bool_decide_true by done. cbn.
  by destruct (DeletionTimestamp (pl_meta n)).
Qed.

Definition sample_pool_object (labels : gmap string string) (cidr : string) (st : SubnetPoolStatus) : Object :=
  OPool (mkSubnetPool (new_meta "pool" "" "ns" labels) (mkSubnetPoolSpec cidr 24 0 0 "") st).

Lemma status_updates_filtered_witness :
  passes PoolStatusPred (UpdateEvent (sample_pool_object ∅ "10.0.0.0/16" empty_pool_status)
    (sample_pool_object ∅ "10.0.0.0/16" (mkSubnetPoolStatus 0 1 ∅ ∅ []))) = false.
Proof.
  apply (status_updates_filtered (sample_pool_object ∅ "10.0.0.0/16" empty_pool_status)
    (sample_pool_object ∅ "10.0.0.0/16" (mkSubnetPoolStatus 0 1 ∅ ∅ []))).
  split; reflexivity.
Defined.

(** The events of child pools that reach the parent: deletion, creation of a
    labelled pool, and updates that change the parent label, the CIDR or start
    a deletion; nothing else. *)
Theorem childPoolPredicate_spec e :
  passes childPoolPredicate e = true <->
  match e with
  | DeleteEvent _ => True
  | CreateEvent o => exists p, o = OPool p /\ ParentLabel ∈ dom (Labels (pl_meta p))
  | UpdateEvent old new => exists p q, old = OPool p /\ new = OPool q /\
      (Labels (pl_meta p) !! ParentLabel <> Labels (pl_meta q) !! ParentLabel \/
       pl_CIDR (pl_Spec p) <> pl_CIDR (pl_Spec q) \/
       (DeletionTimestamp (pl_meta p) = None /\ DeletionTimestamp (pl_meta q) <> None))
  | GenericEvent _ => False
  end.
Proof.
  destruct e as [o|o|old new|o]; cbn; [|tauto| |split; done].
  - destruct o as [|p| |]; try (split; [done|intros (? & [=] & _)]).
    rewrite bool_decide_eq_true, <-elem_of_dom. naive_solver.
  - destruct old as [|p| |], new as [|q| |]; try (split; [done|intros (? & ? & ? & ? & _); congruence]).
    assert (Hp : xorb (bool_decide (is_Some (Labels (pl_meta p) !! ParentLabel)))
        (bool_decide (is_Some (Labels (pl_meta q) !! ParentLabel))) ||
        negb (bool_decide (label_value (Labels (pl_meta p)) ParentLabel =
          label_value (Labels (pl_meta q)) ParentLabel)) = true <->
      Labels (pl_meta p) !! ParentLabel <> Labels (pl_meta q) !! ParentLabel).
    { unfold label_value. destruct (Labels (pl_meta p) !! ParentLabel) as [a|],
        (Labels (pl_meta q) !! ParentLabel) as [b|]; cbn; try case_bool_decide; naive_solver. }
    rewrite !orb_true_iff in *. rewrite Hp, andb_true_iff, !negb_true_iff, bool_decide_eq_false,
      !bool_decide_eq_true. naive_solver.
Qed.
