(* ===== verification/SubnetStatus.v ===== *)
(** [internal/controller/statusutil]: update of a Subnet's status by a merge
    patch against the object just read, retried on conflicts. *)

From S2P Require Import Prelude ApiTypes Effects InMemory Metrics.

(** * Model *)

(** Comparison of two optional times and two phases. *)
Definition equalSubnetStatus (old new : SubnetStatus) : bool :=
  if negb (bool_decide (sn_Phase old = sn_Phase new)) then false
  else match sn_AllocatedAt old, sn_AllocatedAt new with
       | None, Some _ | Some _, None => false
       | Some t, Some t' => t =? t'
       | None, None => true
       end.

(** Counter and latency of one outcome. *)
Definition record_status_update (outcome : string) : prog unit :=
  metric_op (MInc "aquanaut_ipam_subnet_status_update_total" [outcome]) ≫= λ _,
  metric_op (MObserve "aquanaut_ipam_subnet_status_update_latency_seconds" [outcome]).

Definition with_subnet_status (s : Subnet) (st : SubnetStatus) : Subnet :=
  mkSubnet (sn_meta s) (sn_Spec s) st.

Definition subnetPatchBackoff : Backoff := mkBackoff 6 50 20 1.

Section Model.
Context `{ApiErrors, Retry}.

(** One attempt; the state is the number of attempts so far. *)
Definition patch_attempt (key : NamespacedName) (mutate : SubnetStatus -> prog SubnetStatus)
    (retryCount : Z) : prog (Z * option error) :=
  let retryCount := retryCount + 1 in
  g ← do_call (CGetSubnet key);
  match g with
  | Err err =>
      if IsNotFound err
      then record_status_update "skipped_deleted" ≫= λ _, mret (retryCount, None)
      else mret (retryCount, Some err)
  | Ok baseForMerge =>
      let oldStatus := sn_Status baseForMerge in
      newStatus ← mutate oldStatus;
      let currentSubnet := with_subnet_status baseForMerge newStatus in
      if bool_decide (DeletionTimestamp (sn_meta currentSubnet) <> None)
      then record_status_update "skipped_deleting" ≫= λ _, mret (retryCount, None)
      else if equalSubnetStatus oldStatus newStatus
      then record_status_update "unchanged" ≫= λ _, mret (retryCount, None)
      else
        p ← do_call (CStatusPatchSubnet baseForMerge currentSubnet);
        match p with
        | Err err =>
            if IsNotFound err
            then record_status_update "skipped_deleted" ≫= λ _, mret (retryCount, None)
            else mret (retryCount, Some err)
        | Ok _ => record_status_update "success" ≫= λ _, mret (retryCount, None)
        end
  end.

Definition PatchSubnetStatus (sub : Subnet) (mutate : SubnetStatus -> prog SubnetStatus)
    : prog (option error) :=
  r ← OnError subnetPatchBackoff IsConflict (patch_attempt (object_key (sn_meta sub)) mutate) 0;
  let '(retryCount, finalError) := r in
  let actualRetries := retryCount - 1 in
  (if 0 <? actualRetries then metric_op (MInc "aquanaut_ipam_subnet_status_retry_total" [pretty actualRetries])
   else mret tt) ≫= λ _,
  match finalError with
  | Some err => record_status_update "error" ≫= λ _, mret (Some err)
  | None => mret None
  end.
End Model.

(** * Observations *)

(** The pair of Subnets a status patch is made of. *)
Definition patch (e : event) : option (Subnet * Subnet) :=
  match ev_call e with CStatusPatchSubnet old new => Some (old, new) | _ => None end.

Definition patches (tr : list event) : list (Subnet * Subnet) := omap patch tr.

(** A patch changes the status only, of an object that is not being deleted,
    in the way the relation allows. *)
Definition status_patch (M : SubnetStatus -> SubnetStatus -> Prop) (p : Subnet * Subnet) : Prop :=
  sn_meta p.2 = sn_meta p.1 /\ sn_Spec p.2 = sn_Spec p.1 /\ DeletionTimestamp (sn_meta p.1) = None /\
  sn_Status p.2 <> sn_Status p.1 /\ M (sn_Status p.1) (sn_Status p.2).

(** Why an attempt ends without error: the patch was accepted, the Subnet is
    gone or being deleted, or there is nothing to change. *)
Definition settled `{ApiErrors} (M : SubnetStatus -> SubnetStatus -> Prop) (tr : list event) : Prop :=
  (exists old new s, Ev (CStatusPatchSubnet old new) (Ok s) ∈ tr) \/
  (exists k e, Ev (CGetSubnet k) (Err e) ∈ tr /\ IsNotFound e = true) \/
  (exists old new e, Ev (CStatusPatchSubnet old new) (Err e) ∈ tr /\ IsNotFound e = true) \/
  (exists k s, Ev (CGetSubnet k) (Ok s) ∈ tr /\
    (DeletionTimestamp (sn_meta s) <> None \/ M (sn_Status s) (sn_Status s))).

Lemma patches_app tr1 tr2 : patches (tr1 ++ tr2) = patches tr1 ++ patches tr2.
Proof. apply omap_app. Qed.

Lemma patches_quiet ext : Forall quiet ext -> patches ext = [].
Proof.
  induction 1 as [|[c r] ext Hq _ IH]; [done|]. unfold patches in *. cbn [omap list_omap].
  rewrite IH. unfold patch, quiet in *. cbn in *. by destruct c.
Qed.

Lemma settled_mono `{ApiErrors} M tr tr' : (forall e, e ∈ tr -> e ∈ tr') -> settled M tr -> settled M tr'.
Proof.
  intros Hs [(o & n & s & ?)|[(k & e & ? & ?)|[(o & n & e & ? & ?)|(k & s & ? & ?)]]].
  - left. eauto 10.
  - right. left. eauto 10.
  - right. right. left. eauto 10.
  - right. right. right. eauto 10.
Qed.

Lemma equalSubnetStatus_eq old new : equalSubnetStatus old new = true <-> old = new.
Proof.
  destruct old as [p a], new as [p' a']. unfold equalSubnetStatus. cbn.
  case_bool_decide; cbn; [subst|split; [done|naive_solver]].
  destruct a as [t|], a' as [t'|]; rewrite ?Z.eqb_eq; naive_solver.
Qed.

Section Proofs.
Context `{ApiErrors, RetryLaws}.
Context (mutate : SubnetStatus -> prog SubnetStatus) (M : SubnetStatus -> SubnetStatus -> Prop).
(** The callback makes quiet calls only and changes the status as [M] says. *)
Hypothesis mutate_wp : forall E st tr,
  wp E (mutate st) tr (λ tr' st', (exists ext, tr' = tr ++ ext /\ Forall quiet ext) /\ M st st').

(** Summary of a piece of the trace with at most [n] patches. *)
Definition patched (n : nat) (ext : list event) : Prop :=
  (length (patches ext) <= n)%nat /\ Forall (status_patch M) (patches ext).

Lemma patched_app n m ext1 ext2 : patched n ext1 -> patched m ext2 -> patched (n + m) (ext1 ++ ext2).
Proof.
  intros [? ?] [? ?]. unfold patched. rewrite patches_app, length_app. split; [lia|]. by apply Forall_app.
Qed.

(** An attempt that only reads and records. *)
Lemma patched_none ext : patches ext = [] -> patched 1 ext.
Proof. intros E. unfold patched. rewrite E. split; [cbn; lia|constructor]. Qed.

Definition attempt_post (tr : list event) (r : option error) (tr' : list event) : Prop :=
  exists ext, tr' = tr ++ ext /\ patched 1 ext /\ (r = None -> settled M ext) /\
    (forall e, r = Some e -> IsNotFound e = false).

(** Recording an outcome and returning success. *)
Lemma outcome_wp E (outcome : string) (n : Z) tr ext :
  patched 1 ext -> settled M ext ->
  wp E (record_status_update outcome ≫= λ _, mret (n, @None error)) (tr ++ ext)
    (λ tr' r, attempt_post tr r.2 tr').
Proof.
  intros Hp Hs. apply wp_bind, wp_quiet; [unfold record_status_update; solve_quiet|].
  intros q [] Hq. apply wp_ret. exists (ext ++ q). rewrite app_assoc. split_and!; [done| | |done].
  - unfold patched. rewrite patches_app, (patches_quiet q Hq), app_nil_r. exact Hp.
  - intros _. eapply settled_mono; [|exact Hs]. set_solver.
Qed.

Lemma patch_attempt_wp E key n tr :
  wp E (patch_attempt key mutate n) tr (λ tr' r, attempt_post tr r.2 tr').
Proof.
  unfold patch_attempt. apply wp_bind, wp_call. intros g _ _. destruct g as [s|e]; cycle 1.
  { destruct (IsNotFound e) eqn:Hnf.
    - apply outcome_wp; [by apply patched_none|]. right. left. exists key, e. set_solver.
    - apply wp_ret. eexists. split_and!; [done|by apply patched_none|done|by intros ? [= <-]]. }
  apply wp_bind. eapply wp_mono; [apply mutate_wp|].
  intros tr1 st' [(q & -> & Hq) HM]. rewrite <-app_assoc.
  set (ext := [Ev (CGetSubnet key) (Ok s)] ++ q).
  assert (Hext : patches ext = []) by (unfold ext; by rewrite patches_app, (patches_quiet q Hq)).
  assert (Hget : Ev (CGetSubnet key) (Ok s) ∈ ext) by (unfold ext; set_solver).
  case_bool_decide as Hdel; [|destruct (equalSubnetStatus (sn_Status s) st') eqn:Heq].
  - apply outcome_wp; [by apply patched_none|]. right. right. right. exists key, s. auto.
  - apply equalSubnetStatus_eq in Heq as <-.
    apply outcome_wp; [by apply patched_none|]. right. right. right. exists key, s. auto.
  - assert (Hne : st' <> sn_Status s).
    { intros ->. by rewrite (proj2 (equalSubnetStatus_eq _ _) eq_refl) in Heq. }
    apply wp_bind, wp_call. intros p _ _. rewrite <-app_assoc.
    set (pe := Ev (CStatusPatchSubnet s _) p).
    assert (Hp : patched 1 (ext ++ [pe])).
    { unfold patched. rewrite patches_app, Hext. split; [cbn; lia|]. apply Forall_singleton.
      by split_and!. }
    assert (Hin : pe ∈ ext ++ [pe]) by (rewrite elem_of_app; right; by apply list_elem_of_singleton).
    destruct p as [s'|e]; [|destruct (IsNotFound e) eqn:Hnf].
    + apply outcome_wp; [done|]. left. eauto.
    + apply outcome_wp; [done|]. right. right. left. eauto 10.
    + apply wp_ret. eexists. split_and!; [done|exact Hp|done|by intros ? [= <-]].
Qed.

(** The retry loop. *)
Lemma patch_retry_wp E key tr :
  wp E (OnError subnetPatchBackoff IsConflict (patch_attempt key mutate) 0) tr (λ tr' r,
    exists ext, tr' = tr ++ ext /\ patched 6 ext /\ (r.2 = None -> settled M ext) /\
      (forall e, r.2 = Some e -> IsNotFound e = false)).
Proof.
  apply (OnError_wp E subnetPatchBackoff IsConflict _ (λ i _ tr', exists ext, tr' = tr ++ ext /\ patched i ext)).
  - cbn. lia.
  - intros i _ tr' ms (ext & -> & Hp). exists (ext ++ [Ev (CSleep ms) tt]). rewrite app_assoc.
    split; [done|]. unfold patched in *. by rewrite patches_app, app_nil_r.
  - intros i n tr' Hi (ext & -> & Hp). eapply wp_mono; [apply patch_attempt_wp|].
    intros tr'' r (ext2 & -> & Hp2 & Hs2 & Hn2). pose proof (patched_app _ _ _ _ Hp Hp2) as Hp12.
    assert (Hfin : exists ext0, (tr ++ ext) ++ ext2 = tr ++ ext0 /\ patched 6 ext0 /\
        (r.2 = None -> settled M ext0) /\ (forall e, r.2 = Some e -> IsNotFound e = false)).
    { exists (ext ++ ext2). rewrite app_assoc. cbn in Hi. split_and!; [done| | |done].
      - destruct Hp12. split; [lia|done].
      - intros Hn. eapply settled_mono; [|by apply Hs2]. set_solver. }
    destruct r as [n' [e|]]; cbn [fst snd] in *; [|exact Hfin].
    destruct (IsConflict e && (i + 1 <? bo_Steps subnetPatchBackoff)%nat); [|exact Hfin].
    exists (ext ++ ext2). by rewrite app_assoc.
  - exists []. rewrite app_nil_r. split; [done|]. split; [cbn; lia|constructor].
Qed.

(** Recording the number of retries and a final error. *)
Lemma patch_tail_wp E (n : Z) (fin : option error) tr Q :
  (forall q, Forall quiet q -> Q (tr ++ q) fin) ->
  wp E ((if 0 <? n then metric_op (MInc "aquanaut_ipam_subnet_status_retry_total" [pretty n]) else mret tt)
    ≫= λ _, match fin with
      | Some err => record_status_update "error" ≫= λ _, mret (Some err)
      | None => mret None
      end) tr Q.
Proof.
  intros HQ. apply wp_bind, wp_quiet; [by destruct (0 <? n)|]. intros q [] Hq.
  destruct fin as [e|]; [|by apply wp_ret, HQ].
  apply wp_bind, wp_quiet; [unfold record_status_update; solve_quiet|]. intros q' [] Hq'.
  apply wp_ret. rewrite <-app_assoc. apply HQ. by apply Forall_app.
Qed.

Lemma PatchSubnetStatus_wp E sub tr :
  wp E (PatchSubnetStatus sub mutate) tr (λ tr' r, exists ext, tr' = tr ++ ext /\
    patched 6 ext /\ (r = None -> settled M ext) /\ (forall e, r = Some e -> IsNotFound e = false)).
Proof.
  unfold PatchSubnetStatus. apply wp_bind. eapply wp_mono; [apply patch_retry_wp|].
  intros tr' [n fin] (ext & -> & Hp & Hs & Hn). apply patch_tail_wp. intros q Hq.
  exists (ext ++ q). rewrite app_assoc. split_and!; [done| | |done].
  - unfold patched. rewrite patches_app, (patches_quiet q Hq), app_nil_r. exact Hp.
  - intros E'. eapply settled_mono; [|by apply Hs]. set_solver.
Qed.

(** C29. Every run of [PatchSubnetStatus] whose callback makes no API call and
    changes the status as [M] says: at most six patches are submitted, each
    changes the status of an object that is not being deleted, and only the
    status, to a different one that the callback made of it; success is
    reported only when a patch was accepted, the Subnet is gone or being
    deleted, or the callback left its status as it was; a "not found" error
    is never reported. *)
Theorem PatchSubnetStatus_patches E sub :
  wp E (PatchSubnetStatus sub mutate) [] (λ tr r,
    (length (patches tr) <= 6)%nat /\ Forall (status_patch M) (patches tr) /\
    (r = None -> settled M tr) /\ (forall e, r = Some e -> IsNotFound e = false)).
Proof.
  eapply wp_mono; [apply PatchSubnetStatus_wp|]. intros tr r (ext & -> & [? ?] & ? & ?). by split_and!.
Qed.
End Proofs.

Section PatchSubnetStatus_patches_run.
Import ByReason FixedDelay.

Lemma PatchSubnetStatus_patches_witness :
  exists a s' tr, exec serve
      (PatchSubnetStatus sample_subnet (λ st, mret (mkSubnetStatus SubnetPhaseFailed (sn_AllocatedAt st))))
      (mkStore {[object_key (sn_meta sample_subnet) := sample_subnet]} ∅ ∅ ∅) [] = (Some a, s', tr) /\
    (length (patches tr) <= 6)%nat.
Proof.
  edestruct (wp_exec serve any (PatchSubnetStatus sample_subnet
      (λ st, mret (mkSubnetStatus SubnetPhaseFailed (sn_AllocatedAt st))))) as (a & s' & tr & Hx & HQ).
  - apply serve_legal.
  - done.
  - apply (PatchSubnetStatus_patches _ (λ st st', sn_AllocatedAt st' = sn_AllocatedAt st)).
    intros E st tr. apply wp_ret. split; [|done]. exists []. by rewrite app_nil_r.
  - exists a, s', tr. split; [exact Hx|]. apply HQ.
Defined.
End PatchSubnetStatus_patches_run.
