(* ===== verification/SubnetController.v ===== *)
(** [internal/controller/subnet_controller.go]: the controller that sets the
    phase of a Subnet, and the mappings from watch events to requests. *)

From S2P Require Import Prelude ApiTypes Predicates Effects InMemory Metrics Allocator ClaimStatus SubnetStatus.

(** * Model *)

Section Model.
Context `{ApiErrors, Retry}.

(** The callback of [updateSubnetPhase]. *)
Definition set_phase (phase : string) (status : SubnetStatus) : prog SubnetStatus :=
  let status :=
    if negb (bool_decide (sn_Phase status = phase))
    then mkSubnetStatus phase (sn_AllocatedAt status) else status in
  if bool_decide (phase = SubnetPhaseAllocated) && bool_decide (sn_AllocatedAt status = None)
  then now ← do_call CNow; mret (mkSubnetStatus (sn_Phase status) (Some now))
  else mret status.

Definition updateSubnetPhase (subnet : Subnet) (phase : string) : prog (option error) :=
  PatchSubnetStatus subnet (set_phase phase).

Definition updateSubnetStatus (subnet : Subnet) (phase : string) : prog (option error) :=
  updateSubnetPhase subnet phase.

(** What follows the phase check. *)
Definition check_parent (allocation : Subnet) : prog (Result * option error) :=
  if bool_decide (sn_PoolRef (sn_Spec allocation) = "")
  then updateSubnetPhase allocation SubnetPhaseFailed ≫= λ _, mret (no_requeue, None)
  else
    g ← do_call (CGetPool (mkKey (Namespace (sn_meta allocation)) (sn_PoolRef (sn_Spec allocation))));
    match g with
    | Err err => updateSubnetPhase allocation SubnetPhaseFailed ≫= λ _, mret (no_requeue, Some err)
    | Ok _ => mret (no_requeue, None)
    end.

Definition Reconcile (req : NamespacedName) : prog (Result * option error) :=
  g ← do_call (CGetSubnet req);
  match g with
  | Err err => if IsNotFound err then mret (no_requeue, None) else mret (no_requeue, Some err)
  | Ok allocation =>
      if bool_decide (sn_Phase (sn_Status allocation) = "") then
        u ← updateSubnetPhase allocation SubnetPhaseAllocated;
        match u with
        | Some err => if IsNotFound err then mret (no_requeue, None) else mret (no_requeue, Some err)
        | None => check_parent allocation
        end
      else check_parent allocation
  end.

(** ** Mappings of the watches *)

Definition enqueueParentPool (ns name : string) : list NamespacedName := [mkKey ns name].

(** The label of the requeue counter. *)
Definition subnet_event_type (s : Subnet) : string :=
  if bool_decide (DeletionTimestamp (sn_meta s) <> None) then "delete"
  else if Generation (sn_meta s) =? 1 then "create" else "update".

Definition mapSubnetToParentPool (obj : Object) : prog (list NamespacedName) :=
  match obj with
  | OSubnet subnet =>
      if bool_decide (sn_PoolRef (sn_Spec subnet) = "") then mret []
      else RecordParentPoolRequeue (subnet_event_type subnet) ≫= λ _,
           mret (enqueueParentPool (Namespace (sn_meta subnet)) (sn_PoolRef (sn_Spec subnet)))
  | _ => mret []
  end.

(** The function of the watch on pools. *)
Definition mapPoolToSubnets (obj : Object) : prog (list NamespacedName) :=
  match obj with
  | OPool pool =>
      l ← do_call (CListSubnets (mkListOptions (Namespace (pl_meta pool)) [(PoolRefField, Name (pl_meta pool))] 0 ""));
      match l with
      | Err _ => mret []
      | Ok (items, _) => mret ((λ alloc, mkKey (Namespace (sn_meta alloc)) (Name (sn_meta alloc))) <$> items)
      end
  | _ => mret []
  end.
End Model.

(** * What the controller writes *)

(** The change [set_phase] makes: the phase is set, the time of allocation is
    filled in once and never changed. *)
Definition phase_change (phase : string) (st st' : SubnetStatus) : Prop :=
  sn_Phase st' = phase /\
  match sn_AllocatedAt st with
  | Some t => sn_AllocatedAt st' = Some t
  | None => sn_AllocatedAt st' <> None <-> phase = SubnetPhaseAllocated
  end.

(** Calls of the controller: reads, patches of a Subnet's status, and calls
    that leave the objects alone. *)
Definition subnet_call (c : call) : Prop :=
  match c with CGetSubnet _ | CGetPool _ | CStatusPatchSubnet _ _ => True | c => quiet_c c end.

Lemma set_phase_wp E phase st tr :
  wp E (set_phase phase st) tr (λ tr' st',
    (exists ext, tr' = tr ++ ext /\ Forall quiet ext) /\ phase_change phase st st').
Proof.
  assert (Hnil : exists ext, tr = tr ++ ext /\ Forall quiet ext).
  { exists []. by rewrite app_nil_r. }
  destruct st as [ph [t|]]; unfold set_phase, phase_change; cbn [sn_Phase sn_AllocatedAt];
    destruct (bool_decide (ph = phase)) eqn:Ep; cbn [negb sn_Phase sn_AllocatedAt];
    try (apply bool_decide_eq_true in Ep as ->);
    destruct (bool_decide (phase = SubnetPhaseAllocated)) eqn:Ea; cbn;
    rewrite ?bool_decide_eq_true, ?bool_decide_eq_false in Ea; try (by split_and!);
    intros r _ _; (split; [by exists [Ev CNow r]; split; [|apply Forall_singleton]|done]).
Qed.

Section Proofs.
Context `{ApiErrors, RetryLaws}.

Lemma record_status_update_quiet outcome : quiet_prog (record_status_update outcome).
Proof. unfold record_status_update. solve_quiet. Qed.

Lemma updateSubnetPhase_calls E subnet phase : calls_in E subnet_call (updateSubnetPhase subnet phase).
Proof.
  assert (Hq : forall A (p : prog A), quiet_prog p -> calls_in E subnet_call p).
  { intros A p. apply quiet_calls_in. by intros []. }
  assert (Hr : forall o A (a : A), calls_in E subnet_call (record_status_update o ≫= λ _, mret a)).
  { intros o A a. apply Hq, quiet_bind; [apply record_status_update_quiet|done]. }
  unfold updateSubnetPhase, PatchSubnetStatus. apply calls_in_bind.
  - apply OnError_calls; [done|]. intros n. unfold patch_attempt.
    repeat first [apply Hr | calls_step]; try done. apply Hq. unfold set_phase.
    destruct (_ && _); solve_quiet.
  - intros [n [e|]]; apply calls_in_bind; try (by destruct (_ <? _)); intros []; [apply Hr|done].
Qed.

Lemma Reconcile_calls E req : calls_in E subnet_call (Reconcile req).
Proof.
  unfold Reconcile, check_parent. repeat first [apply updateSubnetPhase_calls | calls_step]; done.
Qed.

(** Summary of a piece of trace with at most [n] patches, each one of the two
    changes of phase. *)
Definition phased (n : nat) (ext : list event) : Prop :=
  (length (patches ext) <= n)%nat /\
  Forall (λ p, status_patch (phase_change SubnetPhaseAllocated) p \/
               status_patch (phase_change SubnetPhaseFailed) p) (patches ext).

Lemma phased_app n m ext1 ext2 : phased n ext1 -> phased m ext2 -> phased (n + m) (ext1 ++ ext2).
Proof.
  intros [? ?] [? ?]. unfold phased. rewrite patches_app, length_app. split; [lia|]. by apply Forall_app.
Qed.

Lemma updateSubnetPhase_wp E subnet phase tr :
  phase = SubnetPhaseAllocated \/ phase = SubnetPhaseFailed ->
  wp E (updateSubnetPhase subnet phase) tr (λ tr' r, exists ext, tr' = tr ++ ext /\ phased 6 ext /\
    (r = None -> settled (phase_change phase) ext) /\ (forall e, r = Some e -> IsNotFound e = false)).
Proof.
  intros Hph. eapply wp_mono.
  { apply (PatchSubnetStatus_wp (set_phase phase) (phase_change phase)). intros E' st tr'. apply set_phase_wp. }
  intros tr' r (ext & -> & [Hl Hf] & Hr). exists ext. split; [done|]. split; [split; [done|]|exact Hr].
  eapply Forall_impl; [exact Hf|]. intros p. destruct Hph as [-> | ->]; auto.
Qed.

(** The outcome of the parent check. *)
Definition parent_checked (s : Subnet) (r : Result * option error) (ext : list event) : Prop :=
  if bool_decide (sn_PoolRef (sn_Spec s) = "") then r.2 = None
  else exists g, Ev (CGetPool (mkKey (Namespace (sn_meta s)) (sn_PoolRef (sn_Spec s)))) g ∈ ext /\
    r.2 = match g with Ok _ => None | Err e => Some e end.

Lemma check_parent_wp E s tr :
  wp E (check_parent s) tr (λ tr' r, exists ext, tr' = tr ++ ext /\ phased 6 ext /\
    r.1 = no_requeue /\ parent_checked s r ext).
Proof.
  unfold check_parent, parent_checked. case_bool_decide as Hp.
  - apply wp_bind. eapply wp_mono; [apply updateSubnetPhase_wp; auto|]. intros tr' r (ext & -> & Hph & _).
    apply wp_ret. exists ext. by split_and!.
  - apply wp_bind, wp_call. intros g _ _. destruct g as [p|e].
    + apply wp_ret. eexists. split; [done|]. split; [|split; [done|]].
      * split; [cbn; lia|constructor].
      * exists (Ok p). split; [set_solver|done].
    + apply wp_bind. eapply wp_mono; [apply updateSubnetPhase_wp; auto|]. intros tr' r (ext & -> & Hph & _).
      apply wp_ret. rewrite <-app_assoc. eexists. split; [done|]. split; [exact Hph|]. split; [done|].
      exists (Err e). split; [set_solver|done].
Qed.

Lemma parent_checked_mono s r (ext ext' : list event) :
  (forall e, e ∈ ext -> e ∈ ext') -> parent_checked s r ext -> parent_checked s r ext'.
Proof. intros Hs. unfold parent_checked. case_bool_decide; [done|]. naive_solver. Qed.

Lemma phased_le n m ext : (n <= m)%nat -> phased n ext -> phased m ext.
Proof. intros ? [? ?]. split; [lia|done]. Qed.

(** The outcome of a reconciliation: an unreadable Subnet is reported unless
    it is gone; otherwise success means that an empty phase was settled and,
    unless setting the phase failed, the result is that of the parent check. *)
Definition subnet_outcome (req : NamespacedName) (tr : list event) (r : Result * option error) : Prop :=
  exists g, Ev (CGetSubnet req) g ∈ tr /\
    match g with
    | Err e => r.2 = (if IsNotFound e then None else Some e)
    | Ok s =>
        (sn_Phase (sn_Status s) = "" -> r.2 = None -> settled (phase_change SubnetPhaseAllocated) tr) /\
        (sn_Phase (sn_Status s) <> "" \/ r.2 = None -> parent_checked s r tr)
    end.

Lemma Reconcile_wp E req :
  wp E (Reconcile req) [] (λ tr r, r.1 = no_requeue /\ phased 12 tr /\ subnet_outcome req tr r).
Proof.
  unfold Reconcile. apply wp_bind, wp_call. intros g _ _.
  assert (Hget : phased 0 [Ev (CGetSubnet req) g]) by (split; [cbn; lia|constructor]).
  destruct g as [s|e]; cycle 1.
  { destruct (IsNotFound e) eqn:Hn; apply wp_ret;
      (split; [done|]; split; [apply (phased_le 0); [lia|done]|exists (Err e); rewrite Hn; split; [set_solver|done]]). }
  case_bool_decide as Hph.
  - apply wp_bind. eapply wp_mono; [apply updateSubnetPhase_wp; auto|].
    intros tr1 u (ext & -> & Hp1 & Hs1 & Hn1). pose proof (phased_app _ _ _ _ Hget Hp1) as Hp01.
    destruct u as [e|].
    + rewrite (Hn1 e) by done. apply wp_ret. split; [done|]. split; [apply (phased_le (0 + 6)); [lia|done]|].
      exists (Ok s). split; [set_solver|]. split; [done|]. by intros [?|?].
    + eapply wp_mono; [apply check_parent_wp|]. intros tr2 r (ext2 & -> & Hp2 & Hr & Hpc).
      split; [done|]. split; [by apply (phased_app 6 6)|]. exists (Ok s). split; [set_solver|]. split.
      * intros _ _. eapply settled_mono; [|by apply Hs1]. set_solver.
      * intros _. eapply parent_checked_mono; [|exact Hpc]. set_solver.
  - eapply wp_mono; [apply check_parent_wp|]. intros tr2 r (ext2 & -> & Hp2 & Hr & Hpc).
    split; [done|]. split; [apply (phased_le (0 + 6)), phased_app; [lia|done|done]|].
    exists (Ok s). split; [set_solver|]. split; [done|]. intros _.
    eapply parent_checked_mono; [|exact Hpc]. set_solver.
Qed.

End Proofs.

Section Reconcile_subnet_run.
Import ByReason FixedDelay.

Definition sample_store (pools : gmap NamespacedName SubnetPool) : store :=
  mkStore {[object_key (sn_meta sample_subnet) := sample_subnet]} pools ∅ ∅.


(** A Subnet whose pool does not exist goes from no phase to Allocated and
    then to Failed, keeping its time of allocation, in one reconciliation. *)
Example sample_orphan :
  st_subnets (exec serve (Reconcile (object_key (sn_meta sample_subnet))) (sample_store ∅) []).1.2 !!
    object_key (sn_meta sample_subnet) =
  Some (with_subnet_status sample_subnet (mkSubnetStatus SubnetPhaseFailed (Some 0))).
Proof. vm_compute. reflexivity. Qed.
End Reconcile_subnet_run.
