(* ===== verification/Pager.v ===== *)
(** [internal/controller/pager.go]: all Subnets of a pool, page by page.  The
    source's loop has no bound of its own: it ends when the server stops
    giving continue tokens.  The model takes the number of pages it may fetch;
    a run that needs more is cut off as [out_of_pages], a [Panic], so every
    statement by [wp] includes that the loop ended. *)

From S2P Require Import Prelude ApiTypes Effects InMemory Metrics Allocator.

(** * Model *)

Definition PageSize : Z := 1000.

Definition out_of_pages {A} : prog A := Panic "page bound exceeded".

Definition page_options (pool : SubnetPool) (continueOption : string) : ListOptions :=
  mkListOptions (Namespace (pl_meta pool)) [("spec.poolRef", Name (pl_meta pool))] PageSize continueOption.

(** The loop; [continueOption] is empty on the first page, when the option is
    not set. *)
Fixpoint list_pages (fuel : nat) (pool : SubnetPool) (continueOption : string) (allSubnets : list Subnet)
    : prog (result (list Subnet)) :=
  match fuel with
  | O => out_of_pages
  | S fuel' =>
      l ← do_call (CListSubnets (page_options pool continueOption));
      match l with
      | Err err => mret (Err err)
      | Ok (items, continue) =>
          let allSubnets := allSubnets ++ items in
          metric_op (MInc "subnet_list_pages_total" []) ≫= λ _,
          if bool_decide (continue = "")
          then metric_op (MInc "subnet_list_continue_skipped_total" []) ≫= λ _, mret (Ok allSubnets)
          else list_pages fuel' pool continue allSubnets
      end
  end.

Definition listSubnetsPaged (fuel : nat) (pool : SubnetPool) : prog (result (list Subnet)) :=
  list_pages fuel pool "" [].

(** * Pages of a snapshot *)

(** [page tok] is the server's answer to the continue token [tok]: items and
    the next token, empty at the end.  [pages n tok all]: following the tokens
    from [tok] gives [all] in [n] pages. *)
Inductive pages (page : string -> list Subnet * string) : nat -> string -> list Subnet -> Prop :=
| pages_last tok items : page tok = (items, "") -> pages page 1 tok items
| pages_more n tok items next rest :
    page tok = (items, next) -> next <> "" -> pages page n next rest ->
    pages page (S n) tok (items ++ rest).

(** The contract of a server that serves [page] or fails. *)
Definition paging_env (page : string -> list Subnet * string) : env :=
  λ c, match c with
       | CListSubnets o => λ r, r = Ok (page (lo_Continue o)) \/ exists e, r = Err e
       | _ => λ _, True
       end.

Definition list_call (e : event) : option (ListOptions * result (list Subnet * string)) :=
  match e with Ev (CListSubnets o) r => Some (o, r) | _ => None end.

Definition list_calls (tr : list event) := omap list_call tr.

(** Calls of the pager. *)
Definition pager_event (pool : SubnetPool) (e : event) : Prop :=
  match ev_call e with
  | CListSubnets o => exists tok, o = page_options pool tok
  | CMetric _ => True
  | _ => False
  end.

Lemma list_pages_wp page n tok all :
  pages page n tok all -> forall fuel pool acc tr, (n <= fuel)%nat ->
  wp (paging_env page) (list_pages fuel pool tok acc) tr (λ tr' r, exists ext, tr' = tr ++ ext /\
    Forall (pager_event pool) ext /\ (length (list_calls ext) <= n)%nat /\
    (r = Ok (acc ++ all) \/ exists e o, r = Err e /\ Ev (CListSubnets o) (Err e) ∈ ext)).
Proof.
  induction 1 as [tok items Hp|n tok items next rest Hp Hn Hrest IH]; intros fuel pool acc tr Hf;
    (destruct fuel as [|fuel]; [lia|]); cbn [list_pages]; apply wp_bind, wp_call; intros r _ Hr;
    cbn in Hr; rewrite Hp in Hr; destruct Hr as [->|[e ->]].
  2,4: apply wp_ret; eexists; split; [done|]; split;
    [apply Forall_singleton; by eexists|]; (split; [cbn; lia|]); right; exists e; eexists; split; [done|by apply list_elem_of_singleton].
  - apply wp_bind, wp_call. intros [] _ _. rewrite bool_decide_eq_true_2 by done.
    apply wp_bind, wp_call. intros [] _ _. apply wp_ret. rewrite <-!app_assoc. eexists. split; [done|].
    split; [by repeat (apply Forall_cons; split; [by try eexists|])|]. split; [cbn; lia|by left].
  - apply wp_bind, wp_call. intros [] _ _. rewrite bool_decide_eq_false_2 by done.
    eapply wp_mono; [apply IH; lia|]. intros tr' r (ext & -> & He & Hl & Hr). rewrite <-!app_assoc.
    eexists. split; [done|]. split; [|split].
    + repeat (apply Forall_cons; split; [by try eexists|]). done.
    + cbn. unfold list_calls in Hl. lia.
    + rewrite <-app_assoc in Hr. destruct Hr as [->|(e & o & -> & Hin)]; [by left|].
      right. exists e, o. split; [done|]. set_solver.
Qed.

(** C31. The pager terminates and is complete: against a server whose tokens page
    through [all] in [n] pages, with the bound at least [n], every run ends
    after at most [n] list calls, all with the pool's name and namespace, and
    returns exactly [all] in order, or an error one of the calls returned. *)
Theorem listSubnetsPaged_complete page n all fuel pool :
  pages page n "" all -> (n <= fuel)%nat ->
  wp (paging_env page) (listSubnetsPaged fuel pool) [] (λ tr r,
    Forall (pager_event pool) tr /\ (length (list_calls tr) <= n)%nat /\
    (r = Ok all \/ exists e o, r = Err e /\ Ev (CListSubnets o) (Err e) ∈ tr)).
Proof.
  intros Hp Hf. eapply wp_mono; [by apply list_pages_wp|]. intros tr r (ext & -> & ? & ? & ?). by split_and!.
Qed.

(** * A server with pages of a given size *)

(** Tokens in unary: the number of pages already served. *)
Fixpoint token (i : nat) : string := match i with O => "" | S i => String "+"%char (token i) end.

(** A page of at most [size] items, with a token when items remain. *)
Definition sized_page (size : nat) (all : list Subnet) (tok : string) : list Subnet * string :=
  let rest := drop (String.length tok * size) all in
  (take size rest, if bool_decide (drop size rest = []) then "" else token (S (String.length tok))).

Lemma token_length i : String.length (token i) = i.
Proof. induction i as [|i IH]; cbn; [done|]. by rewrite IH. Qed.

Lemma sized_pages size all :
  (0 < size)%nat -> forall k i rest, (length rest <= k)%nat -> drop (i * size) all = rest ->
  exists n, (n <= S k)%nat /\ pages (sized_page size all) n (token i) rest.
Proof.
  intros Hs. induction k as [k IH] using lt_wf_ind. intros i rest Hk Hrest.
  destruct (decide (drop size rest = [])) as [E|E].
  - exists 1%nat. split; [lia|]. rewrite <-(take_drop size rest), E, app_nil_r. apply pages_last.
    unfold sized_page. rewrite token_length, Hrest, bool_decide_eq_true_2 by done. done.
  - assert (Hlen : (size < length rest)%nat).
    { destruct (decide (length rest <= size)%nat); [|lia]. rewrite drop_ge in E by done. done. }
    destruct (IH (k - size)%nat ltac:(lia) (S i) (drop size rest)) as (n & Hn & Hp).
    + rewrite length_drop. lia.
    + rewrite <-Hrest, drop_drop. f_equal. lia.
    + exists (S n). split; [lia|]. rewrite <-(take_drop size rest) at 1. apply (pages_more _ n _ _ (token (S i))); [|done|exact Hp].
      unfold sized_page. rewrite token_length, Hrest, bool_decide_eq_false_2 by done. done.
Qed.

(** Whatever the page size, as many pages as there are Subnets, and one, are
    enough. *)
Corollary listSubnetsPaged_sized size all pool :
  (0 < size)%nat ->
  wp (paging_env (sized_page size all)) (listSubnetsPaged (S (length all)) pool) [] (λ tr r,
    r = Ok all \/ exists e o, r = Err e /\ Ev (CListSubnets o) (Err e) ∈ tr).
Proof.
  intros Hs. destruct (sized_pages size all Hs (length all) 0 all) as (n & Hn & Hp); [done|done|].
  eapply wp_mono; [by apply (list_pages_wp _ n _ all)|]. by intros tr r (ext & -> & _ & _ & ?).
Qed.

Lemma listSubnetsPaged_complete_witness :
  wp (paging_env (sized_page 1 [sample_subnet; sample_subnet])) (listSubnetsPaged 2 sample_pool) []
    (λ tr r, Forall (pager_event sample_pool) tr /\ (length (list_calls tr) <= 2)%nat /\
      (r = Ok [sample_subnet; sample_subnet] \/
       exists e o, r = Err e /\ Ev (CListSubnets o) (Err e) ∈ tr)).
Proof.
  apply (listSubnetsPaged_complete (sized_page 1 [sample_subnet; sample_subnet]) 2
    [sample_subnet; sample_subnet] 2 sample_pool); [|lia].
  apply (pages_more _ 1 "" [sample_subnet] "+" [sample_subnet]); [reflexivity|done|].
  apply pages_last. reflexivity.
Defined.

(** The contract of a reader that honours the limit of a list call but gives
    no continue token, as the cache behind a manager's client does: the first
    [lo_Limit] items. *)
Definition truncating_env (all : list Subnet) : env :=
  λ c, match c with
       | CListSubnets o => λ r, r = Ok (take (Z.to_nat (lo_Limit o)) all, "")
       | _ => λ _, True
       end.

(** Against such a reader the pager returns the first 1000 Subnets of the
    pool only, without an error. *)
Theorem listSubnetsPaged_truncated all fuel pool :
  (1 <= fuel)%nat ->
  wp (truncating_env all) (listSubnetsPaged fuel pool) [] (λ _ r, r = Ok (take 1000 all)).
Proof.
  intros Hf. destruct fuel as [|fuel]; [lia|]. unfold listSubnetsPaged. cbn [list_pages].
  apply wp_bind, wp_call. intros r _ ->. apply wp_bind, wp_call. intros [] _ _.
  rewrite bool_decide_eq_true_2 by done. apply wp_bind, wp_call. intros [] _ _. by apply wp_ret.
Qed.

Lemma listSubnetsPaged_truncated_witness :
  wp (truncating_env (replicate 1001 sample_subnet)) (listSubnetsPaged 1 sample_pool) []
    (λ _ r, r = Ok (replicate 1000 sample_subnet)).
Proof.
  eapply wp_mono; [apply (listSubnetsPaged_truncated (replicate 1001 sample_subnet) 1 sample_pool); lia|].
  intros tr r ->. reflexivity.
Defined.
