(* ===== verification/PoolStatus.v ===== *)
(** [internal/controller/poolstatus_controller.go]: the controller that keeps
    a SubnetPool's status up to date with the Subnets that refer to it. *)

From S2P Require Import Prelude GoNet ApiTypes Predicates StatusCalc MergePatch Effects InMemory Metrics Allocator.
From S2P Require Import ClaimStatus Pager.

(** * Model *)

(** [manualSubnetScan] of the production build. *)
Definition manualSubnetScan (pool : SubnetPool) : prog Z := mret 0.

(** The status made of a calculation: the other fields keep their zero
    values. *)
Definition calculated_status (r : CalculateResult) : SubnetPoolStatus :=
  mkSubnetPoolStatus 0 (AllocatedCount r) (FreeCountBySize r) (AllocatedCIDRs r) [].

Definition with_pool_status (p : SubnetPool) (st : SubnetPoolStatus) : SubnetPool :=
  mkSubnetPool (pl_meta p) (pl_Spec p) st.

Definition poolStatusBackoff : Backoff := mkBackoff 5 50 20 1.

Section Model.
Context `{ApiErrors, Retry}.

(** One attempt of the retry; it captures the pool variable, overwritten by
    every read, and the number of conflicts. *)
Definition patch_pool_status (req : NamespacedName) (newStatus : SubnetPoolStatus)
    (captured : SubnetPool * Z) : prog ((SubnetPool * Z) * option error) :=
  let '(pool, retryCount) := captured in
  g ← do_call (CGetPool req);
  match g with
  | Err err => if IsNotFound err then mret ((pool, retryCount), None) else mret ((pool, retryCount), Some err)
  | Ok pool =>
      if bool_decide (DeletionTimestamp (pl_meta pool) <> None) then mret ((pool, retryCount), None)
      else
        let patched := with_pool_status pool newStatus in
        p ← do_call (CStatusPatchPool pool patched);
        match p with
        | Ok stored => mret ((stored, retryCount), None)
        | Err err =>
            if IsNotFound err then mret ((patched, retryCount), None)
            else if IsConflict err
            then recordPoolStatusRetry (Name (pl_meta patched)) (retryCount + 1) ≫= λ _,
                 mret ((patched, retryCount + 1), Some err)
            else mret ((patched, retryCount), Some err)
        end
  end.

(** [fuel] bounds the pages of the listing. *)
Definition Reconcile (fuel : nat) (req : NamespacedName) : prog (Result * option error) :=
  g ← do_call (CGetPool req);
  match g with
  | Err err => if IsNotFound err then mret (no_requeue, None) else mret (no_requeue, Some err)
  | Ok pool =>
      manualSubnetScan pool ≫= λ _,
      l ← listSubnetsPaged fuel pool;
      match l with
      | Err err => mret (no_requeue, Some err)
      | Ok allSubnets =>
          match Calculate (pl_CIDR (pl_Spec pool)) allSubnets [] with
          | (_, Some err) => mret (no_requeue, Some err)
          | (calcResult, None) =>
              let newStatus := calculated_status calcResult in
              if negb (bool_decide (pl_Status pool = newStatus)) then
                r ← RetryOnConflict poolStatusBackoff (patch_pool_status req newStatus) (pool, 0);
                let '((pool, _), err) := r in
                match err with
                | Some err =>
                    recordPoolStatusUpdate (Name (pl_meta pool)) "failure" ≫= λ _, mret (no_requeue, Some err)
                | None => recordPoolStatusUpdate (Name (pl_meta pool)) "success" ≫= λ _, mret (no_requeue, None)
                end
              else mret (no_requeue, None)
          end
      end
  end.
End Model.

(** ** Mappings of the watches *)

Definition mapAllocToPool (obj : Object) : list NamespacedName :=
  match obj with
  | OSubnet allocation =>
      if bool_decide (sn_PoolRef (sn_Spec allocation) = "") then []
      else
        let ns := Namespace (sn_meta allocation) in
        let ns := if bool_decide (ns = "") then Namespace (sn_meta allocation) else ns in
        if bool_decide (ns = "") then [] else [mkKey ns (sn_PoolRef (sn_Spec allocation))]
  | _ => []
  end.

Definition mapChildToParent (obj : Object) : list NamespacedName :=
  match obj with
  | OPool childPool =>
      match Labels (pl_meta childPool) !! ParentLabel with
      | None => []
      | Some parentName =>
          if bool_decide (parentName = "") then []
          else
            let ns := Namespace (pl_meta childPool) in
            let ns := if bool_decide (ns = "") then Namespace (pl_meta childPool) else ns in
            if bool_decide (ns = "") then [] else [mkKey ns parentName]
      end
  | _ => []
  end.

(** * What the controller writes *)

Definition pool_patch (e : event) : option (SubnetPool * SubnetPool) :=
  match ev_call e with CStatusPatchPool old new => Some (old, new) | _ => None end.

Definition pool_patches (tr : list event) : list (SubnetPool * SubnetPool) := omap pool_patch tr.

Lemma pool_patches_app tr1 tr2 : pool_patches (tr1 ++ tr2) = pool_patches tr1 ++ pool_patches tr2.
Proof. apply omap_app. Qed.

Lemma pool_patches_quiet ext : Forall quiet ext -> pool_patches ext = [].
Proof.
  induction 1 as [|[c r] ext Hq _ IH]; [done|]. unfold pool_patches in *. cbn [omap list_omap].
  rewrite IH. unfold pool_patch, quiet in *. cbn in *. by destruct c.
Qed.

Lemma pool_patches_pager pool ext : Forall (pager_event pool) ext -> pool_patches ext = [].
Proof.
  induction 1 as [|[c r] ext Hq _ IH]; [done|]. unfold pool_patches in *. cbn [omap list_omap].
  rewrite IH. unfold pool_patch, pager_event in *. cbn in *. by destruct c.
Qed.

(** Calls of the controller. *)
Definition pool_call (c : call) : Prop :=
  match c with CGetPool _ | CListSubnets _ | CStatusPatchPool _ _ => True | c => quiet_c c end.

(** A patch sets the status, and only the status, of a pool that is not being
    deleted. *)
Definition sets_status (st : SubnetPoolStatus) (p : SubnetPool * SubnetPool) : Prop :=
  p.2 = with_pool_status p.1 st /\ DeletionTimestamp (pl_meta p.1) = None.

(** Why an update ends without an error: the patch was accepted, or the pool
    is gone or being deleted. *)
Definition pool_settled `{ApiErrors} (tr : list event) : Prop :=
  (exists old new p, Ev (CStatusPatchPool old new) (Ok p) ∈ tr) \/
  (exists k e, Ev (CGetPool k) (Err e) ∈ tr /\ IsNotFound e = true) \/
  (exists old new e, Ev (CStatusPatchPool old new) (Err e) ∈ tr /\ IsNotFound e = true) \/
  (exists k p, Ev (CGetPool k) (Ok p) ∈ tr /\ DeletionTimestamp (pl_meta p) <> None).

Lemma pool_settled_mono `{ApiErrors} tr tr' : (forall e, e ∈ tr -> e ∈ tr') -> pool_settled tr -> pool_settled tr'.
Proof.
  intros Hs [(o & n & p & ?)|[(k & e & ? & ?)|[(o & n & e & ? & ?)|(k & p & ? & ?)]]].
  - left. eauto 10.
  - right. left. eauto 10.
  - right. right. left. eauto 10.
  - right. right. right. eauto 10.
Qed.

Section Proofs.
Context `{ApiErrors, RetryLaws}.

Lemma Reconcile_pool_calls E fuel req : calls_in E pool_call (Reconcile fuel req).
Proof.
  assert (Hq : forall A (p : prog A), quiet_prog p -> calls_in E pool_call p).
  { intros A p. apply quiet_calls_in. by intros []. }
  assert (Hl : forall pool tok acc, calls_in E pool_call (list_pages fuel pool tok acc)).
  { induction fuel as [|fuel IH]; intros pool tok acc; cbn [list_pages]; [done|].
    repeat first [apply IH | calls_step]; done. }
  unfold Reconcile, listSubnetsPaged.
  repeat first [apply Hl | apply Hq; solve [auto with plex] | calls_step]; try done.
  apply OnError_calls; [done|]. intros [p n]. unfold patch_pool_status.
  repeat first [apply Hq; solve [auto with plex] | calls_step]; done.
Qed.

Section Update.
Context (req : NamespacedName) (st : SubnetPoolStatus).

(** Summary of a piece of trace with at most [n] patches to the status. *)
Definition updates (n : nat) (ext : list event) : Prop :=
  (length (pool_patches ext) <= n)%nat /\ Forall (sets_status st) (pool_patches ext).

Lemma updates_app n m ext1 ext2 : updates n ext1 -> updates m ext2 -> updates (n + m) (ext1 ++ ext2).
Proof.
  intros [? ?] [? ?]. unfold updates. rewrite pool_patches_app, length_app. split; [lia|]. by apply Forall_app.
Qed.

Lemma updates_none n ext : pool_patches ext = [] -> updates n ext.
Proof. intros E. unfold updates. rewrite E. split; [cbn; lia|constructor]. Qed.

Lemma updates_le n m ext : (n <= m)%nat -> updates n ext -> updates m ext.
Proof. intros ? [? ?]. split; [lia|done]. Qed.

Lemma patch_pool_status_wp E captured tr :
  wp E (patch_pool_status req st captured) tr (λ tr' r, exists ext, tr' = tr ++ ext /\ updates 1 ext /\
    (r.2 = None -> pool_settled ext)).
Proof.
  destruct captured as [pool n]. unfold patch_pool_status. apply wp_bind, wp_call. intros g _ _.
  destruct g as [p|e]; cycle 1.
  { destruct (IsNotFound e) eqn:Hn; apply wp_ret; eexists; (split; [done|]);
      (split; [by apply updates_none|]); [|done]. intros _. right. left. exists req, e. set_solver. }
  case_bool_decide as Hd.
  { apply wp_ret. eexists. split; [done|]. split; [by apply updates_none|]. intros _.
    right. right. right. exists req, p. set_solver. }
  apply wp_bind, wp_call. intros r _ _. rewrite <-app_assoc.
  set (pe := Ev (CStatusPatchPool p _) r). set (ext := [_] ++ [pe]).
  assert (Hu : updates 1 ext).
  { split; [cbn; lia|]. apply Forall_singleton. split; [done|]. done. }
  assert (Hin : pe ∈ ext) by (unfold ext; rewrite elem_of_app; right; by apply list_elem_of_singleton).
  destruct r as [stored|e]; [|destruct (IsNotFound e) eqn:Hn; [|destruct (IsConflict e)]].
  - apply wp_ret. exists ext. split; [done|]. split; [done|]. intros _. left. eauto.
  - apply wp_ret. exists ext. split; [done|]. split; [done|]. intros _. right. right. left. eauto 10.
  - apply wp_bind, wp_quiet; [auto with plex|]. intros q [] Hq. apply wp_ret. exists (ext ++ q).
    rewrite app_assoc. split; [done|]. split; [|done].
    unfold updates. rewrite pool_patches_app, (pool_patches_quiet q Hq), app_nil_r. exact Hu.
  - apply wp_ret. exists ext. split; [done|]. by split.
Qed.

Lemma pool_retry_wp E captured tr :
  wp E (RetryOnConflict poolStatusBackoff (patch_pool_status req st) captured) tr (λ tr' r,
    exists ext, tr' = tr ++ ext /\ updates 5 ext /\ (r.2 = None -> pool_settled ext)).
Proof.
  unfold RetryOnConflict. apply (OnError_wp E poolStatusBackoff IsConflict _
    (λ i _ tr', exists ext, tr' = tr ++ ext /\ updates i ext)).
  - cbn. lia.
  - intros i _ tr' ms (ext & -> & Hp). exists (ext ++ [Ev (CSleep ms) tt]). rewrite app_assoc.
    split; [done|]. unfold updates in *. by rewrite pool_patches_app, app_nil_r.
  - intros i c tr' Hi (ext & -> & Hp). eapply wp_mono; [apply patch_pool_status_wp|].
    intros tr'' r (ext2 & -> & Hp2 & Hs2). pose proof (updates_app _ _ _ _ Hp Hp2) as Hp12. cbn in Hi.
    assert (Hfin : exists ext0, (tr ++ ext) ++ ext2 = tr ++ ext0 /\ updates 5 ext0 /\
        (r.2 = None -> pool_settled ext0)).
    { exists (ext ++ ext2). rewrite app_assoc. split; [done|]. split; [apply (updates_le (i + 1)); [lia|done]|].
      intros Hn. eapply pool_settled_mono; [|by apply Hs2]. set_solver. }
    destruct r as [c' [e|]]; cbn [fst snd] in *; [|exact Hfin].
    destruct (IsConflict e && (i + 1 <? bo_Steps poolStatusBackoff)%nat); [|exact Hfin].
    exists (ext ++ ext2). by rewrite app_assoc.
  - exists []. rewrite app_nil_r. split; [done|]. by apply updates_none.
Qed.
End Update.

(** The pool read first, and the status calculated for it from [all]. *)
Definition calculated (req : NamespacedName) (all : list Subnet) (tr : list event) (st : SubnetPoolStatus) : Prop :=
  exists p res, Ev (CGetPool req) (Ok p) ∈ tr /\ Calculate (pl_CIDR (pl_Spec p)) all [] = (res, None) /\
    st = calculated_status res.

(** What a run of the controller did: nothing but reads and patches of the
    pool's status to the calculated one, at most five; without an error, the
    pool has that status, or is gone or being deleted. *)
Definition pool_outcome (req : NamespacedName) (all : list Subnet) (tr : list event)
    (r : Result * option error) : Prop :=
  r.1 = no_requeue /\ (length (pool_patches tr) <= 5)%nat /\
  Forall (λ p, exists st, calculated req all tr st /\ sets_status st p) (pool_patches tr) /\
  (r.2 = None -> pool_settled tr \/
    exists p, Ev (CGetPool req) (Ok p) ∈ tr /\ calculated req all tr (pl_Status p)).

(** A run without a patch. *)
Lemma pool_outcome_quiet req all tr (e : option error) :
  pool_patches tr = [] ->
  (e = None -> pool_settled tr \/ exists p, Ev (CGetPool req) (Ok p) ∈ tr /\ calculated req all tr (pl_Status p)) ->
  pool_outcome req all tr (no_requeue, e).
Proof. intros Hp He. unfold pool_outcome. rewrite Hp. split_and!; [done|cbn; lia|constructor|done]. Qed.

(** The update of a changed status and the metrics after it. *)
Lemma pool_update_wp E req all pool st tr :
  pool_patches tr = [] -> calculated req all tr st ->
  wp E (r ← RetryOnConflict poolStatusBackoff (patch_pool_status req st) (pool, 0);
        let '((pool, _), err) := r in
        match err with
        | Some err =>
            recordPoolStatusUpdate (Name (pl_meta pool)) "failure" ≫= λ _, mret (no_requeue, Some err)
        | None => recordPoolStatusUpdate (Name (pl_meta pool)) "success" ≫= λ _, mret (no_requeue, None)
        end) tr (pool_outcome req all).
Proof.
  intros Hp (p & res & Hin & Hc & Hst). apply wp_bind. eapply wp_mono; [apply pool_retry_wp|].
  intros tr' [[pool' n] err] (ext & -> & [Hl Hf] & Hs). cbn [snd] in Hs.
  assert (Hfin : forall q, Forall quiet q -> pool_outcome req all ((tr ++ ext) ++ q) (no_requeue, err)).
  { intros q Hq. unfold pool_outcome. rewrite !pool_patches_app, Hp, (pool_patches_quiet q Hq), app_nil_r.
    split_and!; [done|done| |].
    - eapply Forall_impl; [exact Hf|]. intros pp Hpp. exists st. split; [|done].
      exists p, res. split; [set_solver|done].
    - intros E'. left. eapply pool_settled_mono; [|by apply Hs]. set_solver. }
  destruct err; apply wp_bind, wp_quiet; auto with plex; intros q [] Hq; by apply wp_ret, Hfin.
Qed.

Lemma Reconcile_pool_wp page n all fuel req :
  pages page n "" all -> (n <= fuel)%nat ->
  wp (paging_env page) (Reconcile fuel req) [] (pool_outcome req all).
Proof.
  intros Hpg Hf. unfold Reconcile. apply wp_bind, wp_call. intros g _ _. destruct g as [p|e]; cycle 1.
  { destruct (IsNotFound e) eqn:Hn; apply wp_ret, pool_outcome_quiet; try done. intros _. left.
    right. left. exists req, e. set_solver. }
  apply wp_bind, wp_ret, wp_bind.
  eapply wp_mono; [by apply (list_pages_wp page n "" all Hpg)|]. intros tr l (ext & -> & Hev & _ & Hl).
  assert (Hnil : pool_patches ([Ev (CGetPool req) (Ok p)] ++ ext) = []).
  { by rewrite pool_patches_app, (pool_patches_pager _ _ Hev). }
  assert (Hin : Ev (CGetPool req) (Ok p) ∈ [Ev (CGetPool req) (Ok p)] ++ ext) by set_solver.
  destruct Hl as [->|(e & o & -> & _)]; [|apply wp_ret; by apply pool_outcome_quiet].
  cbn [app]. destruct (Calculate (pl_CIDR (pl_Spec p)) all []) as [res [e|]] eqn:Hc;
    [apply wp_ret; by apply pool_outcome_quiet|].
  assert (Hcalc : calculated req all ([Ev (CGetPool req) (Ok p)] ++ ext) (calculated_status res)).
  { exists p, res. by split_and!. }
  case_bool_decide as Heq; cbn [negb].
  - apply wp_ret, pool_outcome_quiet; [done|]. intros _. right. exists p. split; [done|]. by rewrite Heq.
  - by apply pool_update_wp.
Qed.

(** C10. Every run of the pool status controller against a server whose list calls
    page through the Subnets [all] of the pool: it ends; it reads, and writes
    only the status of the pool, at most five times, to the status calculated
    from the pool's CIDR and exactly the Subnets [all]; without an error, a
    patch was accepted, the pool already had that status, or it is gone or
    being deleted. *)
Theorem Reconcile_pool page n all fuel req :
  pages page n "" all -> (n <= fuel)%nat ->
  wp (paging_env page) (Reconcile fuel req) [] (λ tr r,
    Forall (λ e, pool_call (ev_call e)) tr /\ pool_outcome req all tr r).
Proof.
  intros Hp Hf. eapply wp_mono.
  { apply (wp_calls_in _ pool_call); [apply Reconcile_pool_calls|by apply (Reconcile_pool_wp page n all)]. }
  intros tr r [? (ext & -> & ?)]. by split.
Qed.
End Proofs.

(** * Runs against the in-memory server *)

Section Runs.
Import ByReason FixedDelay.

(** The in-memory server with a fixed list of Subnets. *)
Definition serve_list (all : list Subnet) (c : call) : store -> resp c * store :=
  match c with
  | CListSubnets o => λ s, (Ok (all, ""), s)
  | c => serve c
  end.

Lemma serve_list_legal all c s : legal c (serve_list all c s).1.
Proof. destruct c; try apply serve_legal. done. Qed.

Lemma Reconcile_pool_witness :
  exists a s' tr, exec (serve_list [sample_subnet]) (Reconcile 1 (object_key (pl_meta sample_pool)))
      (mkStore ∅ {[object_key (pl_meta sample_pool) := sample_pool]} ∅ ∅) [] = (Some a, s', tr) /\
    pool_outcome (object_key (pl_meta sample_pool)) [sample_subnet] tr a.
Proof.
  edestruct (wp_exec (serve_list [sample_subnet]) (paging_env (λ _, ([sample_subnet], "")))
    (Reconcile 1 (object_key (pl_meta sample_pool)))) as (a & s' & tr & Hx & HQ).
  - apply serve_list_legal.
  - intros [] s; try exact I. by left.
  - apply (Reconcile_pool (λ _, ([sample_subnet], "")) 1 [sample_subnet] 1); [|lia].
    apply pages_last. reflexivity.
  - exists a, s', tr. split; [exact Hx|]. apply HQ.
Defined.

(** The Subnets the server lists for the pool. *)
Definition pool_subnets (s : store) (p : SubnetPool) : list Subnet :=
  select_subnets (page_options p "") (st_subnets s).

(** The store after the status was set. *)
Definition store_status (s : store) (req : NamespacedName) (p : SubnetPool) (st : SubnetPoolStatus) : store :=
  mkStore (st_subnets s) (<[req := with_pool_status p st]> (st_pools s)) (st_claims s) (st_poolclaims s).

(** One list call fetches them all. *)
Lemma exec_listSubnetsPaged s p tr :
  exists tr', exec serve (listSubnetsPaged 1 p) s tr = (Some (Ok (pool_subnets s p)), s, tr ++ tr') /\
    pool_patches tr' = [].
Proof.
  unfold listSubnetsPaged. cbn [list_pages]. exec_step. cbn [serve fst snd].
  unfold metric_op. exec_step. cbn [serve fst snd]. rewrite bool_decide_eq_true_2 by done.
  exec_step. rewrite exec_ret. cbn [serve fst snd]. rewrite <-!app_assoc. eexists. split; reflexivity.
Qed.

(** The update succeeds at the first attempt. *)
Lemma exec_update s req p pool st tr :
  st_pools s !! req = Some p -> object_key (pl_meta p) = req -> DeletionTimestamp (pl_meta p) = None ->
  exists tr', exec serve (RetryOnConflict poolStatusBackoff (patch_pool_status req st) (pool, 0)) s tr =
    (Some ((with_pool_status p st, 0), None), store_status s req p st, tr').
Proof.
  intros Hp Hk Hd. unfold RetryOnConflict, OnError, FixedDelay.retry. cbn [bo_Steps poolStatusBackoff Nat.sub loop].
  rewrite exec_bind. unfold patch_pool_status. exec_step. cbn [serve fst snd].
  unfold lookup_obj. rewrite Hp, Hd, bool_decide_eq_false_2 by naive_solver.
  exec_step. cbn [serve fst snd]. unfold patch_obj. cbn [with_pool_status pl_meta].
  rewrite Hk, Hp. rewrite (patch_pool_fresh p st : patch_pool p (with_pool_status p st) p = _). cbn [fst snd]. rewrite exec_ret. cbn [fst snd]. rewrite exec_ret. by eexists.
Qed.

(** A reconciliation when the pool is there: it leaves the pool with the
    calculated status; it patches only if the status differs. *)
Lemma exec_Reconcile s req p res :
  st_pools s !! req = Some p -> object_key (pl_meta p) = req -> DeletionTimestamp (pl_meta p) = None ->
  Calculate (pl_CIDR (pl_Spec p)) (pool_subnets s p) [] = (res, None) ->
  exists tr, exec serve (Reconcile 1 req) s [] =
      (Some (no_requeue, None),
       if bool_decide (pl_Status p = calculated_status res) then s
       else store_status s req p (calculated_status res), tr) /\
    (pl_Status p = calculated_status res -> pool_patches tr = []).
Proof.
  intros Hp Hk Hd Hc. unfold Reconcile. exec_step. cbn [serve fst snd]. unfold lookup_obj. rewrite Hp.
  rewrite exec_bind. unfold manualSubnetScan. rewrite exec_ret, exec_bind.
  destruct (exec_listSubnetsPaged s p ([] ++ [Ev (CGetPool req) (Ok p)])) as (tr1 & -> & Htr1). rewrite Hc.
  case_bool_decide as E; cbn [negb].
  - rewrite exec_ret. eexists. split; [done|]. intros _. by rewrite pool_patches_app, Htr1.
  - rewrite exec_bind. edestruct exec_update as (tr2 & ->); [done..|]. cbn. by eexists.
Qed.

(** C26. Convergence: on a server that answers from its state, one reconciliation
    of a pool that is not being deleted succeeds and leaves it with the status
    calculated from its Subnets, changing nothing else; a second one succeeds
    without a patch. *)
Theorem Reconcile_converges s req p res :
  st_pools s !! req = Some p -> object_key (pl_meta p) = req -> DeletionTimestamp (pl_meta p) = None ->
  Calculate (pl_CIDR (pl_Spec p)) (pool_subnets s p) [] = (res, None) ->
  let s' := store_status s req p (calculated_status res) in
  exists tr tr', exec serve (Reconcile 1 req) s [] = (Some (no_requeue, None), s', tr) /\
    exec serve (Reconcile 1 req) s' [] = (Some (no_requeue, None), s', tr') /\ pool_patches tr' = [].
Proof.
  intros Hp Hk Hd Hc s'. destruct (exec_Reconcile s req p res Hp Hk Hd Hc) as (tr & Hx & _).
  destruct (exec_Reconcile s' req (with_pool_status p (calculated_status res)) res) as (tr' & Hx' & Htr');
    [cbn; by rewrite lookup_insert_eq|done..|].
  exists tr, tr'. split_and!; [|rewrite Hx'; by case_bool_decide|by apply Htr'].
  rewrite Hx. clear Hx Hx' Htr'. case_bool_decide as E; [|done]. f_equal. f_equal.
  unfold s', store_status. rewrite <-E. destruct s as [sn pl cl pc], p as [m sp st]. cbn in *. by rewrite insert_id.
Qed.

Lemma Reconcile_converges_witness :
  let s := mkStore {[object_key (sn_meta sample_subnet) := sample_subnet]}
    {[object_key (pl_meta sample_pool) := sample_pool]} ∅ ∅ in
  exists tr tr' s', exec serve (Reconcile 1 (object_key (pl_meta sample_pool))) s [] =
      (Some (no_requeue, None), s', tr) /\
    exec serve (Reconcile 1 (object_key (pl_meta sample_pool))) s' [] = (Some (no_requeue, None), s', tr') /\
    pool_patches tr' = [] /\ (pl_AllocatedCount ∘ pl_Status) <$> (st_pools s' !! object_key (pl_meta sample_pool)) = Some 1.
Proof.
  intros s. destruct (Reconcile_converges s (object_key (pl_meta sample_pool)) sample_pool
    (Calculate "10.0.0.0/24" [sample_subnet] []).1) as (tr & tr' & H1 & H2 & H3).
  1-4: vm_compute; reflexivity.
  exists tr, tr'. eexists. split; [exact H1|]. split; [exact H2|]. split; [exact H3|]. vm_compute. reflexivity.
Defined.
End Runs.
