(* ===== verification/PoolClaim.v ===== *)
(** [internal/controller/poolclaim_controller.go]: a SubnetPoolClaim is served
    by an internal SubnetClaim and, once that is bound, by a child SubnetPool
    with the allocated CIDR. *)

From S2P Require Import Prelude ApiTypes Predicates Effects InMemory Metrics ClaimStatus ClaimReconciler.

(** * Model *)

(** [retry.DefaultRetry] of client-go, documented as five steps. *)
Class RetryDefaults : Type := { DefaultRetry : Backoff }.
Class RetryDefaultsLaws `{RetryDefaults} : Prop := { DefaultRetry_steps : bo_Steps DefaultRetry = 5%nat }.

Module FiveSteps.
#[export] Instance retry_defaults : RetryDefaults := { DefaultRetry := mkBackoff 5 10 10 1 }.
#[export] Instance retry_defaults_laws : RetryDefaultsLaws.
Proof. by constructor. Qed.
End FiveSteps.

Definition requeue_now : Result := mkResult true 0.
Definition PoolClaimRequeueMs : Z := 5000.

Definition isOwnedBy (obj owner : ObjectMeta) : bool :=
  existsb (λ ref, bool_decide (or_UID ref = UID owner)) (OwnerReferences obj).

(** [client.InNamespace], the only option of the lists. *)
Definition same_namespace (poolClaim : SubnetPoolClaim) : ListOptions :=
  mkListOptions (Namespace (pc_meta poolClaim)) [] 0 "".

Section Model.
Context `{ApiErrors, Retry, RetryDefaults, ControllerUtil}.

Definition getOwnedSubnetClaims (poolClaim : SubnetPoolClaim) : prog (result (list SubnetClaim)) :=
  l ← do_call (CListClaims (same_namespace poolClaim));
  match l with
  | Err err => mret (Err err)
  | Ok (items, _) => mret (Ok (filter (λ claim, isOwnedBy (cl_meta claim) (pc_meta poolClaim) = true) items))
  end.

Definition getOwnedSubnetPools (poolClaim : SubnetPoolClaim) : prog (result (list SubnetPool)) :=
  l ← do_call (CListPools (same_namespace poolClaim));
  match l with
  | Err err => mret (Err err)
  | Ok (items, _) => mret (Ok (filter (λ pool, isOwnedBy (pl_meta pool) (pc_meta poolClaim) = true) items))
  end.

Definition setReferenceError (err : error) : error := EWrap "failed to set controller reference: " err.

(** The internal SubnetClaim before its owner is set. *)
Definition internal_claim (poolClaim : SubnetPoolClaim) : SubnetClaim :=
  mkSubnetClaim (new_meta "" (Name (pc_meta poolClaim) +:+ "-") (Namespace (pc_meta poolClaim)) ∅)
    (mkSubnetClaimSpec (pc_ParentPoolRef (pc_Spec poolClaim)) (UID (pc_meta poolClaim))
       (pc_DesiredBlockSize (pc_Spec poolClaim)) "")
    (mkSubnetClaimStatus 0 "" "" "" []).

Definition createInternalSubnetClaim (poolClaim : SubnetPoolClaim) : prog (result SubnetClaim) :=
  let claim := internal_claim poolClaim in
  match SetControllerReference "SubnetPoolClaim" (pc_meta poolClaim) (cl_meta claim) with
  | Err err => mret (Err (setReferenceError err))
  | Ok meta =>
      c ← do_call (CCreateClaim (mkSubnetClaim meta (cl_Spec claim) (cl_Status claim)));
      match c with
      | Err err => mret (Err err)
      | Ok created => mret (Ok created)
      end
  end.

(** The child pool before its owner is set. *)
Definition child_pool (poolClaim : SubnetPoolClaim) (allocatedCIDR : string) : SubnetPool :=
  mkSubnetPool
    (new_meta "" (Name (pc_meta poolClaim) +:+ "-") (Namespace (pc_meta poolClaim))
       (<[IPAMLabel := "true"]> {[ParentLabel := pc_ParentPoolRef (pc_Spec poolClaim)]}))
    (mkSubnetPoolSpec allocatedCIDR 0 0 0 "") empty_pool_status.

Definition createChildPool (poolClaim : SubnetPoolClaim) (allocatedCIDR : string) : prog (result SubnetPool) :=
  let childPool := child_pool poolClaim allocatedCIDR in
  match SetControllerReference "SubnetPoolClaim" (pc_meta poolClaim) (pl_meta childPool) with
  | Err err => mret (Err (setReferenceError err))
  | Ok meta =>
      c ← do_call (CCreatePool (mkSubnetPool meta (pl_Spec childPool) (pl_Status childPool)));
      match c with
      | Err err => mret (Err err)
      | Ok created => mret (Ok created)
      end
  end.

(** The claim to write back: the one just read with new status fields. *)
Definition with_poolclaim_status (latest : SubnetPoolClaim) (boundPoolName phase message : string)
    : SubnetPoolClaim :=
  mkSubnetPoolClaim (pc_meta latest) (pc_Spec latest)
    (mkSubnetPoolClaimStatus (Generation (pc_meta latest)) phase boundPoolName message
       (pc_Conditions (pc_Status latest))).

Definition write_poolclaim_status (key : NamespacedName) (boundPoolName phase message : string)
    (_ : unit) : prog (unit * option error) :=
  g ← do_call (CGetPoolClaim key);
  match g with
  | Err err => mret (tt, Some err)
  | Ok latest =>
      u ← do_call (CStatusUpdatePoolClaim (with_poolclaim_status latest boundPoolName phase message));
      match u with
      | Err err => mret (tt, Some err)
      | Ok _ => mret (tt, None)
      end
  end.

Definition updatePoolClaimStatus (poolClaim : SubnetPoolClaim) (boundPoolName phase message : string)
    : prog (option error) :=
  r ← RetryOnConflict DefaultRetry
        (write_poolclaim_status (object_key (pc_meta poolClaim)) boundPoolName phase message) tt;
  mret r.2.

(** Update the status and report the result. *)
Definition report (poolClaim : SubnetPoolClaim) (boundPoolName phase message : string)
    : prog (Result * option error) :=
  u ← updatePoolClaimStatus poolClaim boundPoolName phase message;
  match u with
  | Some err => mret (requeue_after PoolClaimRequeueMs, Some err)
  | None => mret (no_requeue, None)
  end.

Definition reconcileErrorClaim (poolClaim : SubnetPoolClaim) (claim : SubnetClaim)
    : prog (Result * option error) :=
  report poolClaim "" PoolClaimError (cl_Message (cl_Status claim)).

Definition reconcileBoundClaim (poolClaim : SubnetPoolClaim) (claim : SubnetClaim)
    : prog (Result * option error) :=
  ps ← getOwnedSubnetPools poolClaim;
  match ps with
  | Err err => mret (no_requeue, Some err)
  | Ok [] =>
      c ← createChildPool poolClaim (cl_AllocatedCIDR (cl_Status claim));
      match c with
      | Err err => mret (requeue_after PoolClaimRequeueMs, Some err)
      | Ok childPool => report poolClaim (Name (pl_meta childPool)) PoolClaimBound ""
      end
  | Ok (childPool :: _) => report poolClaim (Name (pl_meta childPool)) PoolClaimBound ""
  end.

Definition reconcilePendingClaim (poolClaim : SubnetPoolClaim) : prog (Result * option error) :=
  cs ← getOwnedSubnetClaims poolClaim;
  match cs with
  | Err err => mret (no_requeue, Some err)
  | Ok [] =>
      c ← createInternalSubnetClaim poolClaim;
      match c with
      | Err err => mret (requeue_after PoolClaimRequeueMs, Some err)
      | Ok _ => mret (requeue_now, None)
      end
  | Ok (claim :: _) =>
      let phase := cl_Phase (cl_Status claim) in
      if bool_decide (phase = ClaimPending) then mret (requeue_after PoolClaimRequeueMs, None)
      else if bool_decide (phase = ClaimBound) then
        if bool_decide (cl_AllocatedCIDR (cl_Status claim) = "")
        then mret (requeue_after PoolClaimRequeueMs, None)
        else reconcileBoundClaim poolClaim claim
      else if bool_decide (phase = ClaimError) then reconcileErrorClaim poolClaim claim
      else mret (requeue_after PoolClaimRequeueMs, None)
  end.

Definition Reconcile (req : NamespacedName) : prog (Result * option error) :=
  g ← do_call (CGetPoolClaim req);
  match g with
  | Err err => if IsNotFound err then mret (no_requeue, None) else mret (no_requeue, Some err)
  | Ok poolClaim =>
      let st := pc_Status poolClaim in
      if bool_decide (DeletionTimestamp (pc_meta poolClaim) <> None) then mret (no_requeue, None)
      else if (pc_ObservedGeneration st =? Generation (pc_meta poolClaim)) &&
              bool_decide (pc_Phase st = PoolClaimBound)
      then mret (no_requeue, None)
      else if bool_decide (pc_Phase st = "") || bool_decide (pc_Phase st = PoolClaimPending)
      then reconcilePendingClaim poolClaim
      else if bool_decide (pc_Phase st = PoolClaimBound) then mret (no_requeue, None)
      else if bool_decide (pc_Phase st = PoolClaimError) then
        if negb (pc_ObservedGeneration st =? Generation (pc_meta poolClaim))
        then reconcilePendingClaim poolClaim
        else mret (no_requeue, None)
      else mret (no_requeue, None)
  end.
End Model.

(** * What the controller writes *)

(** Objects written, in order. *)
Inductive write : Type :=
| WClaim (o : SubnetClaim)
| WPool (o : SubnetPool)
| WStatus (o : SubnetPoolClaim).

Definition write_of (e : event) : option write :=
  match ev_call e with
  | CCreateClaim o => Some (WClaim o)
  | CCreatePool o => Some (WPool o)
  | CStatusUpdatePoolClaim o => Some (WStatus o)
  | _ => None
  end.

Definition writes_of (tr : list event) : list write := omap write_of tr.

Lemma writes_of_app tr1 tr2 : writes_of (tr1 ++ tr2) = writes_of tr1 ++ writes_of tr2.
Proof. apply omap_app. Qed.

(** Calls of the controller. *)
Definition poolclaim_call (c : call) : Prop :=
  match c with
  | CGetPoolClaim _ | CListClaims _ | CListPools _ | CCreateClaim _ | CCreatePool _
  | CStatusUpdatePoolClaim _ => True
  | c => quiet_c c
  end.

(** The claim has work to do: not being deleted, and no phase, Pending, or an
    Error of an older generation. *)
Definition actionable (pc : SubnetPoolClaim) : Prop :=
  DeletionTimestamp (pc_meta pc) = None /\
  (pc_Phase (pc_Status pc) = "" \/ pc_Phase (pc_Status pc) = PoolClaimPending \/
   pc_Phase (pc_Status pc) = PoolClaimError /\
   pc_ObservedGeneration (pc_Status pc) <> Generation (pc_meta pc)).

#[export] Instance actionable_dec pc : Decision (actionable pc).
Proof. unfold actionable. apply _. Defined.

(** A status written: the given fields, and the generation it was read with. *)
Definition status_written (name phase message : string) (w : write) : Prop :=
  exists o, w = WStatus o /\ pc_BoundPoolName (pc_Status o) = name /\ pc_Phase (pc_Status o) = phase /\
    pc_Message (pc_Status o) = message /\ pc_ObservedGeneration (pc_Status o) = Generation (pc_meta o).

(** A write of this status was accepted. *)
Definition status_accepted (tr : list event) : Prop :=
  exists o o', Ev (CStatusUpdatePoolClaim o) (Ok o') ∈ tr.

(** The owned objects of a list call in the trace. *)
Definition owned_claims (pc : SubnetPoolClaim) (tr : list event) (l : list SubnetClaim) : Prop :=
  exists items next, Ev (CListClaims (same_namespace pc)) (Ok (items, next)) ∈ tr /\
    l = filter (λ c, isOwnedBy (cl_meta c) (pc_meta pc) = true) items.

Definition owned_pools (pc : SubnetPoolClaim) (tr : list event) (l : list SubnetPool) : Prop :=
  exists items next, Ev (CListPools (same_namespace pc)) (Ok (items, next)) ∈ tr /\
    l = filter (λ c, isOwnedBy (pl_meta c) (pc_meta pc) = true) items.

(** The reported updates: at most five of one status, accepted on success. *)
Definition reported (name phase message : string) (ws : list write) (tr : list event)
    (r : Result * option error) : Prop :=
  (length ws <= 5)%nat /\ Forall (status_written name phase message) ws /\
  match r.2 with
  | None => status_accepted tr /\ r.1 = no_requeue
  | Some _ => r.1 = requeue_after PoolClaimRequeueMs
  end.

(** What a run on the claim [pc] did. *)
Inductive outcome (pc : SubnetPoolClaim) (tr : list event) : Result * option error -> Prop :=
| read_only r : writes_of tr = [] -> r.2 = None -> r.1 <> requeue_now -> outcome pc tr r
| failed r e : writes_of tr = [] -> r.2 = Some e -> outcome pc tr r
| claim_requested meta (c : result SubnetClaim) :
    owned_claims pc tr [] ->
    Name meta = "" -> Namespace meta = Namespace (pc_meta pc) ->
    writes_of tr = [WClaim (mkSubnetClaim meta (cl_Spec (internal_claim pc)) (cl_Status (internal_claim pc)))] ->
    outcome pc tr (match c with Ok _ => (requeue_now, None)
                   | Err e => (requeue_after PoolClaimRequeueMs, Some e) end)
| child_refused claim rest meta e :
    owned_claims pc tr (claim :: rest) -> cl_Phase (cl_Status claim) = ClaimBound ->
    cl_AllocatedCIDR (cl_Status claim) <> "" -> owned_pools pc tr [] ->
    writes_of tr = [WPool (mkSubnetPool meta (mkSubnetPoolSpec (cl_AllocatedCIDR (cl_Status claim)) 0 0 0 "")
      empty_pool_status)] ->
    outcome pc tr (requeue_after PoolClaimRequeueMs, Some e)
| child_created claim rest meta created ws r :
    owned_claims pc tr (claim :: rest) -> cl_Phase (cl_Status claim) = ClaimBound ->
    cl_AllocatedCIDR (cl_Status claim) <> "" -> owned_pools pc tr [] ->
    Labels meta !! ParentLabel = Some (pc_ParentPoolRef (pc_Spec pc)) ->
    let o := mkSubnetPool meta (mkSubnetPoolSpec (cl_AllocatedCIDR (cl_Status claim)) 0 0 0 "") empty_pool_status in
    Ev (CCreatePool o) (Ok created) ∈ tr ->
    writes_of tr = WPool o :: ws -> reported (Name (pl_meta created)) PoolClaimBound "" ws tr r ->
    outcome pc tr r
| child_found claim rest child others ws r :
    owned_claims pc tr (claim :: rest) -> cl_Phase (cl_Status claim) = ClaimBound ->
    cl_AllocatedCIDR (cl_Status claim) <> "" -> owned_pools pc tr (child :: others) ->
    writes_of tr = ws -> reported (Name (pl_meta child)) PoolClaimBound "" ws tr r ->
    outcome pc tr r
| claim_error claim rest ws r :
    owned_claims pc tr (claim :: rest) -> cl_Phase (cl_Status claim) = ClaimError ->
    writes_of tr = ws -> reported "" PoolClaimError (cl_Message (cl_Status claim)) ws tr r ->
    outcome pc tr r.

Section Proofs.
Context `{ApiErrors, RetryLaws, RetryDefaultsLaws, ControllerUtilLaws}.

Section Status.
Context (name phase message : string).

(** Summary of a piece of trace with at most [n] writes of the status. *)
Definition status_writes (n : nat) (ext : list event) : Prop :=
  (length (writes_of ext) <= n)%nat /\ Forall (status_written name phase message) (writes_of ext).

Lemma status_writes_app n m ext1 ext2 :
  status_writes n ext1 -> status_writes m ext2 -> status_writes (n + m) (ext1 ++ ext2).
Proof.
  intros [? ?] [? ?]. unfold status_writes. rewrite writes_of_app, length_app. split; [lia|]. by apply Forall_app.
Qed.

Lemma write_poolclaim_status_wp E key tr :
  wp E (write_poolclaim_status key name phase message tt) tr (λ tr' r, exists ext, tr' = tr ++ ext /\
    status_writes 1 ext /\ (r.2 = None -> status_accepted ext)).
Proof.
  unfold write_poolclaim_status. apply wp_bind, wp_call. intros g _ _. destruct g as [latest|e].
  - apply wp_bind, wp_call. intros u _ _. rewrite <-app_assoc. set (o := with_poolclaim_status _ _ _ _) in *.
    assert (Hw : status_writes 1 ([Ev (CGetPoolClaim key) (Ok latest)] ++ [Ev (CStatusUpdatePoolClaim o) u])).
    { split; [cbn; lia|]. apply Forall_singleton. by exists o. }
    destruct u as [o'|e]; apply wp_ret; eexists; (split; [done|]); (split; [exact Hw|]); [|done].
    intros _. exists o, o'. set_solver.
  - apply wp_ret. eexists. split; [done|]. split; [|done]. split; [cbn; lia|constructor].
Qed.

Lemma status_retry_wp E key tr :
  wp E (RetryOnConflict DefaultRetry (write_poolclaim_status key name phase message) tt) tr (λ tr' r,
    exists ext, tr' = tr ++ ext /\ status_writes 5 ext /\ (r.2 = None -> status_accepted ext)).
Proof.
  unfold RetryOnConflict. apply (OnError_wp E DefaultRetry IsConflict _
    (λ i _ tr', exists ext, tr' = tr ++ ext /\ status_writes i ext)); rewrite ?DefaultRetry_steps.
  - lia.
  - intros i _ tr' ms (ext & -> & Hp). exists (ext ++ [Ev (CSleep ms) tt]). rewrite app_assoc.
    split; [done|]. unfold status_writes in *. by rewrite writes_of_app, app_nil_r.
  - intros i [] tr' Hi (ext & -> & Hp). eapply wp_mono; [apply write_poolclaim_status_wp|].
    intros tr'' r (ext2 & -> & Hp2 & Hs2). pose proof (status_writes_app _ _ _ _ Hp Hp2) as Hp12.
    assert (Hfin : exists ext0, (tr ++ ext) ++ ext2 = tr ++ ext0 /\ status_writes 5 ext0 /\
        (r.2 = None -> status_accepted ext0)).
    { exists (ext ++ ext2). rewrite app_assoc. split; [done|]. split; [destruct Hp12; split; [lia|done]|].
      intros Hn. destruct (Hs2 Hn) as (o & o' & ?). exists o, o'. set_solver. }
    destruct r as [[] [e|]]; cbn [fst snd] in *; [|exact Hfin].
    destruct (_ && _); [|exact Hfin]. exists (ext ++ ext2). by rewrite app_assoc.
  - exists []. rewrite app_nil_r. split; [done|]. split; [cbn; lia|constructor].
Qed.

(** Reporting a status. *)
Lemma report_wp E pc tr :
  wp E (report pc name phase message) tr (λ tr' r, exists ext, tr' = tr ++ ext /\
    reported name phase message (writes_of ext) tr' r).
Proof.
  unfold report, updatePoolClaimStatus. apply wp_bind, wp_bind.
  eapply wp_mono; [apply status_retry_wp|]. intros tr' [[] u] (ext & -> & [Hl Hf] & Hs). apply wp_ret.
  cbn [snd] in *. destruct u as [e|]; apply wp_ret; exists ext; (split; [done|]); (split_and!; [done|done|]).
  - done.
  - cbn. split; [|done]. destruct Hs as (o & o' & ?); [done|]. exists o, o'. set_solver.
Qed.
End Status.

(** Reads of the pool claim and of the lists write nothing. *)
Lemma bound_wp E pc claim rest tr :
  writes_of tr = [] -> owned_claims pc tr (claim :: rest) -> cl_Phase (cl_Status claim) = ClaimBound ->
  cl_AllocatedCIDR (cl_Status claim) <> "" ->
  wp E (reconcileBoundClaim pc claim) tr (outcome pc).
Proof.
  intros Htr Hc Hb Ha. unfold reconcileBoundClaim, getOwnedSubnetPools. apply wp_bind, wp_bind, wp_call.
  intros l _ _. destruct l as [[items next]|e]; apply wp_ret; [|apply wp_ret; by eapply failed; [rewrite writes_of_app, Htr|]].
  assert (Hp : forall ext, owned_pools pc (tr ++ [Ev (CListPools (same_namespace pc)) (Ok (items, next))] ++ ext)
    (filter (λ p, isOwnedBy (pl_meta p) (pc_meta pc) = true) items)).
  { intros ext. exists items, next. split; [set_solver|done]. }
  assert (Hc' : forall ext, owned_claims pc (tr ++ ext) (claim :: rest)).
  { intros ext. destruct Hc as (it & nx & ? & ?). exists it, nx. split; [set_solver|done]. }
  destruct (filter _ items) as [|child others].
  - apply wp_bind. unfold createChildPool.
    destruct (SetControllerReference _ _ _) as [meta|e] eqn:Href; cycle 1.
    { apply wp_ret, wp_ret. eapply failed; [by rewrite writes_of_app, Htr|done]. }
    apply SetControllerReference_frame in Href as (refs & ->).
    apply wp_bind, wp_call. intros c _ _. destruct c as [created|e]; apply wp_ret; rewrite <-app_assoc.
    + eapply wp_mono; [apply report_wp|]. intros tr' r (ext & -> & Hr). rewrite <-!app_assoc in *.
      eapply (child_created _ _ claim rest); [apply Hc'|done|done|apply Hp| | |rewrite !writes_of_app, Htr; done|exact Hr].
      * cbn [Labels new_meta child_pool pl_meta]. by rewrite lookup_insert_ne, lookup_singleton_eq by done.
      * set_solver.
    + apply wp_ret. eapply child_refused; [apply Hc'|done|done|apply Hp|]. by rewrite !writes_of_app, Htr.
  - eapply wp_mono; [apply report_wp|]. intros tr' r (ext & -> & Hr). rewrite <-app_assoc in *.
    eapply child_found; [apply Hc'|done|done|apply Hp| |exact Hr]. by rewrite !writes_of_app, Htr.
Qed.

Lemma pending_wp E pc tr :
  writes_of tr = [] -> wp E (reconcilePendingClaim pc) tr (outcome pc).
Proof.
  intros Htr. unfold reconcilePendingClaim, getOwnedSubnetClaims. apply wp_bind, wp_bind, wp_call.
  intros l _ _. destruct l as [[items next]|e]; apply wp_ret; [|apply wp_ret; by eapply failed; [rewrite writes_of_app, Htr|]].
  assert (Hc : forall ext, owned_claims pc (tr ++ [Ev (CListClaims (same_namespace pc)) (Ok (items, next))] ++ ext)
    (filter (λ p, isOwnedBy (cl_meta p) (pc_meta pc) = true) items)).
  { intros ext. exists items, next. split; [set_solver|done]. }
  assert (Hw : forall o r, writes_of (tr ++ [Ev (CListClaims o) r]) = []).
  { intros o r. by rewrite writes_of_app, Htr. }
  destruct (filter _ items) as [|claim rest].
  - apply wp_bind. unfold createInternalSubnetClaim.
    destruct (SetControllerReference _ _ _) as [meta|e] eqn:Href; cycle 1.
    { apply wp_ret, wp_ret. by eapply failed. }
    apply SetControllerReference_frame in Href as (refs & ->).
    apply wp_bind, wp_call. intros c _ _. rewrite <-app_assoc.
    pose proof (λ c', claim_requested pc (tr ++ [Ev (CListClaims (same_namespace pc)) (Ok (items, next))] ++ [Ev (CCreateClaim _) c])
      (mkObjectMeta _ _ _ _ _ _ _ refs _) c' (Hc _) eq_refl eq_refl ltac:(by rewrite !writes_of_app, Htr)) as Ho.
    destruct c as [created|e]; apply wp_ret, wp_ret; [apply (Ho (Ok created))|apply (Ho (Err e))].
  - pose proof (Hc []) as Hc0. rewrite app_nil_r in Hc0.
    case_bool_decide; [apply wp_ret; by apply read_only|].
    case_bool_decide; [case_bool_decide; [apply wp_ret; by apply read_only|by eapply bound_wp]|].
    case_bool_decide; [|apply wp_ret; by apply read_only].
    eapply wp_mono; [apply report_wp|]. intros tr' r (ext & -> & Hr). rewrite <-app_assoc in *.
    eapply claim_error; [apply Hc|done| |exact Hr]. by rewrite !writes_of_app, Htr.
Qed.

Lemma Reconcile_poolclaim_calls E req : calls_in E poolclaim_call (Reconcile req).
Proof.
  assert (Hr : forall pc n p m, calls_in E poolclaim_call (report pc n p m)).
  { intros pc n p m. unfold report, updatePoolClaimStatus. repeat calls_step; try done.
    apply OnError_calls; [done|]. intros []. unfold write_poolclaim_status. repeat calls_step; done. }
  assert (Hb : forall pc c, calls_in E poolclaim_call (reconcileBoundClaim pc c)).
  { intros pc c. unfold reconcileBoundClaim, getOwnedSubnetPools, createChildPool.
    repeat first [apply Hr | calls_step]; done. }
  assert (Hp : forall pc, calls_in E poolclaim_call (reconcilePendingClaim pc)).
  { intros pc. unfold reconcilePendingClaim, getOwnedSubnetClaims, createInternalSubnetClaim, reconcileErrorClaim.
    cbv zeta. repeat first [exact I | calls_step | apply Hr | apply Hb]; done. }
  unfold Reconcile. cbv zeta. repeat first [exact I | calls_step | apply Hp]; done.
Qed.

(** The run for what the first read returned. *)
Definition poolclaim_outcome (req : NamespacedName) (tr : list event) (r : Result * option error) : Prop :=
  exists g, Ev (CGetPoolClaim req) g ∈ tr /\
    match g with
    | Err e => writes_of tr = [] /\ r = (no_requeue, if IsNotFound e then None else Some e)
    | Ok pc => (actionable pc /\ outcome pc tr r) \/
               (~ actionable pc /\ writes_of tr = [] /\ r = (no_requeue, None))
    end.

(** The guards and the switch over the phase select the actionable claims. *)
Lemma dispatch pc :
  (let st := pc_Status pc in
   if bool_decide (DeletionTimestamp (pc_meta pc) <> None) then mret (no_requeue, None)
   else if (pc_ObservedGeneration st =? Generation (pc_meta pc)) && bool_decide (pc_Phase st = PoolClaimBound)
   then mret (no_requeue, None)
   else if bool_decide (pc_Phase st = "") || bool_decide (pc_Phase st = PoolClaimPending)
   then reconcilePendingClaim pc
   else if bool_decide (pc_Phase st = PoolClaimBound) then mret (no_requeue, None)
   else if bool_decide (pc_Phase st = PoolClaimError) then
     if negb (pc_ObservedGeneration st =? Generation (pc_meta pc))
     then reconcilePendingClaim pc else mret (no_requeue, None)
   else mret (no_requeue, None)) =
  if bool_decide (actionable pc) then reconcilePendingClaim pc else mret (no_requeue, None).
Proof.
  cbv zeta. generalize (reconcilePendingClaim pc) as X. intros X.
  destruct (bool_decide (actionable pc)) eqn:Ea;
    [apply bool_decide_eq_true in Ea|apply bool_decide_eq_false in Ea];
    unfold actionable, PoolClaimBound, PoolClaimPending, PoolClaimError in *;
    destruct (Z.eqb_spec (pc_ObservedGeneration (pc_Status pc)) (Generation (pc_meta pc))) as [Hg|Hg];
    repeat case_bool_decide; cbn [andb orb negb]; try done; exfalso; intuition congruence.
Qed.

Lemma Reconcile_poolclaim_wp E req : wp E (Reconcile req) [] (poolclaim_outcome req).
Proof.
  unfold Reconcile. apply wp_bind. cbn [wp do_call]. intros g _ _.
  assert (Hev : forall tr' r, (exists ext, tr' = [Ev (CGetPoolClaim req) g] ++ ext) ->
    match g with
    | Err e => writes_of tr' = [] /\ r = (no_requeue, if IsNotFound e then None else Some e)
    | Ok pc => (actionable pc /\ outcome pc tr' r) \/ (~ actionable pc /\ writes_of tr' = [] /\ r = (no_requeue, None))
    end -> poolclaim_outcome req tr' r).
  { intros tr' r (ext & ->) Ho. exists g. split; [set_solver|done]. }
  assert (Hx : exists ext, [] ++ [Ev (CGetPoolClaim req) g] = [Ev (CGetPoolClaim req) g] ++ ext).
  { by exists []. }
  destruct g as [pc|e]; cycle 1.
  { destruct (IsNotFound e) eqn:Hn; apply wp_ret, Hev; try done; by rewrite ?Hn. }
  assert (Hidle : ~ actionable pc -> poolclaim_outcome req [Ev (CGetPoolClaim req) (Ok pc)] (no_requeue, None)).
  { intros Hna. apply Hev; [done|]. by right. }
  assert (Hgo : actionable pc -> wp E (reconcilePendingClaim pc) ([] ++ [Ev (CGetPoolClaim req) (Ok pc)])
    (poolclaim_outcome req)).
  { intros Ha. eapply wp_mono; [apply wp_extends, pending_wp; done|].
    intros tr' r [Hext Ho]. apply Hev; [exact Hext|]. by left. }
  rewrite dispatch. case_bool_decide; [by apply Hgo|by apply wp_ret, Hidle].
Qed.

(** C13. Every run of the pool claim controller, in any environment: it writes
    nothing unless the claim read is actionable; then it creates at most one
    object, the internal claim when none is owned, or a child pool with the
    CIDR of the owned Bound claim when no pool is owned; a status is written at
    most five times, all the same: Bound with the name of the owned or created
    pool, or Error with the claim's message; success means that an update was
    accepted, and Bound is never reported without a child pool. *)
Theorem Reconcile_poolclaim E req :
  wp E (Reconcile req) [] (λ tr r,
    Forall (λ e, poolclaim_call (ev_call e)) tr /\ poolclaim_outcome req tr r).
Proof.
  eapply wp_mono.
  { apply (wp_calls_in E poolclaim_call); [apply Reconcile_poolclaim_calls|apply Reconcile_poolclaim_wp]. }
  intros tr r [? (ext & -> & ?)]. by split.
Qed.
End Proofs.

Section Reconcile_poolclaim_run.
Import ByReason FixedDelay FiveSteps OwnerRef.

Definition sample_poolclaim : SubnetPoolClaim :=
  mkSubnetPoolClaim (mkObjectMeta "pc" "" "ns" "uid-1" 1 ∅ [] [] None) (mkSubnetPoolClaimSpec "pool" 26)
    (mkSubnetPoolClaimStatus 0 "" "" "" []).

(** The internal claim of the sample, bound. *)
Definition sample_owned_claim : SubnetClaim :=
  mkSubnetClaim (mkObjectMeta "pc-x" "pc-" "ns" "uid-2" 1 ∅ []
      [mkOwnerReference "SubnetPoolClaim" "pc" "uid-1" true] None)
    (cl_Spec (internal_claim sample_poolclaim)) (mkSubnetClaimStatus 1 ClaimBound "10.0.0.0/26" "" []).

Definition sample_poolclaim_store : store :=
  mkStore ∅ ∅ {[mkKey "ns" "pc-x" := sample_owned_claim]} {[mkKey "ns" "pc" := sample_poolclaim]}.

Lemma Reconcile_poolclaim_witness :
  exists a s' tr, exec serve (Reconcile (mkKey "ns" "pc")) sample_poolclaim_store [] = (Some a, s', tr) /\
    poolclaim_outcome (mkKey "ns" "pc") tr a.
Proof.
  destruct (wp_exec serve any (Reconcile (mkKey "ns" "pc")) sample_poolclaim_store [] _
    serve_legal (λ _ _, I) (Reconcile_poolclaim any _)) as (a & s' & tr & Hx & _ & Ho).
  exists a, s', tr. split; [exact Hx|exact Ho].
Defined.

(** On this store the run creates the child pool and reports Bound. *)
Example sample_poolclaim_bound :
  (λ pc, (pc_Phase (pc_Status pc), pc_ObservedGeneration (pc_Status pc))) <$>
    (st_poolclaims (exec serve (Reconcile (mkKey "ns" "pc")) sample_poolclaim_store []).1.2 !! mkKey "ns" "pc") =
  Some (PoolClaimBound, 1).
Proof. vm_compute. reflexivity. Qed.
End Reconcile_poolclaim_run.
