(* ===== verification/PoolClaimProgress.v ===== *)
(** The pool claim controller and the claim controller together: a pool claim
    is turned into an internal claim, the internal claim into a Subnet, and
    the pool claim into a child pool with the Subnet's CIDR.  The server of
    [InMemory.v] is extended by generated names. *)

From S2P Require Import Prelude GoNet NetUtil Bitmap ApiTypes Effects InMemory Metrics Names Select Allocator.
From S2P Require Import ClaimStatus ClaimReconciler Progress Predicates PoolClaim.
Import ByReason OwnerRef FixedDelay ReplaceCondition FiveSteps.

(** * A server that generates names *)

Section Server.
(** The name for a prefix, different from the names in use. *)
Context (gen : string -> gset string -> string).

Definition serve_gen (c : call) : store -> resp c * store :=
  match c with
  | CCreateClaim x => λ s,
      serve (CCreateClaim (mkSubnetClaim (named gen (st_claims s) (cl_meta x)) (cl_Spec x) (cl_Status x))) s
  | CCreatePool x => λ s,
      serve (CCreatePool (mkSubnetPool (named gen (st_pools s) (pl_meta x)) (pl_Spec x) (pl_Status x))) s
  | c => serve c
  end.

(** Calls that the extension leaves alone. *)
Definition plain_call (c : call) : Prop :=
  match c with CCreateClaim _ | CCreatePool _ => False | _ => True end.

Lemma exec_serve_gen {A} (p : prog A) s tr :
  calls_in any plain_call p -> exec serve_gen p s tr = exec serve p s tr.
Proof.
  revert s tr. induction p as [a|c k IH|m]; intros s tr Hp; [done| |done]. destruct Hp as [Hc Hk]. cbn [exec].
  replace (serve_gen c s) with (serve c s) by by destruct c.
  pose proof (serve_legal c s) as Hl. destruct (serve c s) as [r s1]. apply IH. by apply Hk.
Qed.

Lemma claim_Reconcile_plain req : calls_in any plain_call (ClaimReconciler.Reconcile req).
Proof.
  unfold ClaimReconciler.Reconcile. apply calls_in_bind; [done|]. intros [claim|e]; [|done].
  eapply processClaim_calls, claim_safe_plain; [intros c Hc; by destruct c|done|].
  intros pool allocs. eapply (calls_in_mono any (allocator_call claim)); [done| |apply allocateCIDR_calls].
  intros c Hc. by destruct c.
Qed.
End Server.

(** * Owned objects in a list *)

Lemma filter_none {A} (P : A -> Prop) `{forall x, Decision (P x)} (m : gmap NamespacedName A) :
  (forall k x, m !! k = Some x -> ~ P x) -> filter P ((map_to_list m).*2) = [].
Proof.
  intros Hm. assert (Hall : Forall (λ x, ~ P x) ((map_to_list m).*2)).
  { apply Forall_forall. intros x ([k y] & -> & Hx)%list_elem_of_fmap. apply elem_of_map_to_list in Hx. by eapply Hm. }
  induction Hall as [|x l Hx _ IH]; [done|]. by rewrite filter_cons_False.
Qed.

(** A list with one object of interest. *)
Lemma filter_single {A} (P : A -> Prop) `{forall x, Decision (P x)} (m : gmap NamespacedName A) k a :
  m !! k = None -> P a -> (forall k' x, m !! k' = Some x -> ~ P x) ->
  filter P ((map_to_list (<[k := a]> m)).*2) = [a].
Proof.
  intros Hk Ha Hm.
  assert (Hp : filter P ((map_to_list (<[k := a]> m)).*2) ≡ₚ [a]).
  { rewrite map_to_list_insert by done. rewrite fmap_cons, filter_cons_True by done.
    by rewrite (filter_none P m Hm). }
  by apply Permutation_singleton_r in Hp.
Qed.

(** * The objects on the way *)

Definition owned_by (pc : SubnetPoolClaim) (m : ObjectMeta) : ObjectMeta :=
  mkObjectMeta (Name m) (GenerateName m) (Namespace m) (UID m) (Generation m) (Labels m) (Finalizers m)
    (OwnerReferences m ++ [mkOwnerReference "SubnetPoolClaim" (Name (pc_meta pc)) (UID (pc_meta pc)) true])
    (DeletionTimestamp m).

Definition served_claim (pc : SubnetPoolClaim) (name : string) : SubnetClaim :=
  mkSubnetClaim (with_name (owned_by pc (cl_meta (internal_claim pc))) name) (cl_Spec (internal_claim pc))
    (cl_Status (internal_claim pc)).

Definition served_pool (pc : SubnetPoolClaim) (cidr name : string) : SubnetPool :=
  mkSubnetPool (with_name (owned_by pc (pl_meta (child_pool pc cidr))) name) (pl_Spec (child_pool pc cidr))
    (pl_Status (child_pool pc cidr)).

Definition with_claim (s : store) (x : SubnetClaim) : store :=
  mkStore (st_subnets s) (st_pools s) (<[object_key (cl_meta x) := x]> (st_claims s)) (st_poolclaims s).

(** The child pool is stored and the pool claim is Bound to it. *)
Definition with_child (s : store) (pc : SubnetPoolClaim) (child : SubnetPool) : store :=
  mkStore (st_subnets s) (<[object_key (pl_meta child) := child]> (st_pools s)) (st_claims s)
    (<[object_key (pc_meta pc) := with_poolclaim_status pc (Name (pl_meta child)) PoolClaimBound ""]> (st_poolclaims s)).

(** A new pool claim: stored, without a phase, not being deleted, and owner of
    no claim and no pool. *)
Record new_poolclaim (s : store) (req : NamespacedName) (pc : SubnetPoolClaim) : Prop := {
  np_stored : st_poolclaims s !! req = Some pc;
  np_key : object_key (pc_meta pc) = req;
  np_phase : pc_Phase (pc_Status pc) = "";
  np_live : DeletionTimestamp (pc_meta pc) = None;
  np_no_claim k c : st_claims s !! k = Some c -> isOwnedBy (cl_meta c) (pc_meta pc) = false;
  np_no_pool k p : st_pools s !! k = Some p -> isOwnedBy (pl_meta p) (pc_meta pc) = false
}.

Lemma isOwnedBy_owned pc m n : isOwnedBy (with_name (owned_by pc m) n) (pc_meta pc) = true.
Proof.
  unfold isOwnedBy. cbn. rewrite existsb_app. cbn. rewrite bool_decide_eq_true_2 by done. by rewrite orb_true_r.
Qed.

Section Runs.
Context (gen : string -> gset string -> string).
Hypothesis gen_fresh : forall g X, gen g X ∉ X.

Lemma gen_free {A} (m : gmap NamespacedName A) g ns : m !! mkKey ns (gen g (used_names m)) = None.
Proof.
  apply not_elem_of_dom. intros Hd. apply (gen_fresh g (used_names m)). apply elem_of_map.
  by exists (mkKey ns (gen g (used_names m))).
Qed.

Definition claim_name (s : store) (pc : SubnetPoolClaim) : string :=
  gen (Name (pc_meta pc) +:+ "-") (used_names (st_claims s)).
Definition pool_name (s : store) (pc : SubnetPoolClaim) : string :=
  gen (Name (pc_meta pc) +:+ "-") (used_names (st_pools s)).

Lemma named_new {A} (m : gmap NamespacedName A) meta :
  Name meta = "" -> named gen m meta = with_name meta (gen (GenerateName meta) (used_names m)).
Proof. intros Hn. unfold named. by rewrite bool_decide_eq_true_2. Qed.

Lemma create_claim s pc :
  serve_gen gen (CCreateClaim (mkSubnetClaim (owned_by pc (cl_meta (internal_claim pc))) (cl_Spec (internal_claim pc))
    (cl_Status (internal_claim pc)))) s =
  (Ok (served_claim pc (claim_name s pc)), with_claim s (served_claim pc (claim_name s pc))).
Proof.
  cbn [serve_gen serve cl_meta cl_Spec cl_Status]. unfold create_obj. rewrite named_new by done.
  unfold object_key at 1. cbn [with_name Name Namespace]. by rewrite gen_free.
Qed.

Lemma create_pool s pc cidr :
  serve_gen gen (CCreatePool (mkSubnetPool (owned_by pc (pl_meta (child_pool pc cidr))) (pl_Spec (child_pool pc cidr))
    (pl_Status (child_pool pc cidr)))) s =
  (Ok (served_pool pc cidr (pool_name s pc)),
   mkStore (st_subnets s) (<[object_key (pl_meta (served_pool pc cidr (pool_name s pc))) :=
     served_pool pc cidr (pool_name s pc)]> (st_pools s)) (st_claims s) (st_poolclaims s)).
Proof.
  cbn [serve_gen serve pl_meta pl_Spec pl_Status]. unfold create_obj. rewrite named_new by done.
  unfold object_key at 1. cbn [with_name Name Namespace]. by rewrite gen_free.
Qed.

(** The first reconciliation requests the internal claim. *)
Lemma first_run s req pc :
  new_poolclaim s req pc ->
  exists tr, exec (serve_gen gen) (PoolClaim.Reconcile req) s [] =
    (Some (requeue_now, None), with_claim s (served_claim pc (claim_name s pc)), tr).
Proof.
  intros Hn. unfold PoolClaim.Reconcile. exec_step. cbn [serve_gen serve fst snd]. unfold lookup_obj at 1.
  rewrite (np_stored _ _ _ Hn), (np_live _ _ _ Hn), (np_phase _ _ _ Hn).
  change (bool_decide (@None Z <> None)) with false. change (bool_decide ("" = PoolClaimBound)) with false.
  rewrite andb_false_r. change (bool_decide ("" = "")) with true. cbn [orb]. cbv iota.
  unfold reconcilePendingClaim, getOwnedSubnetClaims. rewrite exec_bind. exec_step. cbn [serve_gen serve fst snd].
  rewrite exec_ret, list_filter_filter, filter_none; cycle 1.
  { intros k c Hc [Ho _]. rewrite (np_no_claim _ _ _ Hn k c Hc) in Ho. done. }
  unfold createInternalSubnetClaim. cbn [SetControllerReference controller_util]. rewrite exec_bind.
  match goal with |- context [do_call (CCreateClaim ?x)] =>
    change x with (mkSubnetClaim (owned_by pc (cl_meta (internal_claim pc))) (cl_Spec (internal_claim pc))
      (cl_Status (internal_claim pc))) end.
  exec_step. rewrite (create_claim s pc). cbn [fst snd]. rewrite !exec_ret. by eexists.
Qed.

(** The claim in between. *)
Lemma second_run s req claim pool cidr :
  servable s req claim pool cidr ->
  exists tr, exec (serve_gen gen) (ClaimReconciler.Reconcile req) s [] =
    (Some (no_requeue, None), bound_store s claim pool cidr, tr).
Proof.
  intros Hs. rewrite exec_serve_gen by apply claim_Reconcile_plain. by apply servable_run.
Qed.

(** Reading and writing the status of the pool claim succeed at once. *)
Lemma exec_report s pc name tr :
  st_poolclaims s !! object_key (pc_meta pc) = Some pc ->
  exists tr', exec (serve_gen gen) (report pc name PoolClaimBound "") s tr =
    (Some (no_requeue, None),
     mkStore (st_subnets s) (st_pools s) (st_claims s)
       (<[object_key (pc_meta pc) := with_poolclaim_status pc name PoolClaimBound ""]> (st_poolclaims s)), tr').
Proof.
  intros Hp. unfold report, updatePoolClaimStatus, RetryOnConflict, OnError, FixedDelay.retry, DefaultRetry, retry_defaults.
  cbn [bo_Steps Nat.sub FixedDelay.loop]. rewrite !exec_bind. unfold write_poolclaim_status.
  exec_step. cbn [serve_gen serve fst snd]. unfold lookup_obj. rewrite Hp. exec_step. cbn [serve_gen serve fst snd].
  unfold update_obj. cbn [with_poolclaim_status pc_meta]. rewrite Hp. cbn [fst snd]. rewrite !exec_ret. cbn [fst snd].
  rewrite !exec_ret. by eexists.
Qed.

(** The pool claim has no phase yet and owns one claim, which is Bound. *)
Record claim_ready (s : store) (req : NamespacedName) (pc : SubnetPoolClaim) (c : SubnetClaim) (cidr : string) : Prop := {
  cr_stored : st_poolclaims s !! req = Some pc;
  cr_key : object_key (pc_meta pc) = req;
  cr_phase : pc_Phase (pc_Status pc) = "";
  cr_live : DeletionTimestamp (pc_meta pc) = None;
  cr_claims : exists m k, st_claims s = <[k := c]> m /\ m !! k = None /\
    forall k' c', m !! k' = Some c' -> isOwnedBy (cl_meta c') (pc_meta pc) = false;
  cr_owned : isOwnedBy (cl_meta c) (pc_meta pc) = true;
  cr_namespace : Namespace (cl_meta c) = Namespace (pc_meta pc);
  cr_bound : cl_Phase (cl_Status c) = ClaimBound;
  cr_cidr : cl_AllocatedCIDR (cl_Status c) = cidr;
  cr_nonempty : cidr <> ""
}.

(** The reconciliation that finds the internal claim bound goes on with the
    child pool. *)
Lemma ready_run s req pc c cidr :
  claim_ready s req pc c cidr ->
  exists tr, exec (serve_gen gen) (PoolClaim.Reconcile req) s [] = exec (serve_gen gen) (reconcileBoundClaim pc c) s tr.
Proof.
  intros [Hst Hkey Hph Hlive (m & k & Hm & Hk & Hother) Hown Hns Hbound Hcidr Hne].
  unfold PoolClaim.Reconcile. exec_step. cbn [serve_gen serve fst snd]. unfold lookup_obj at 1.
  rewrite Hst, Hlive, Hph.
  change (bool_decide (@None Z <> None)) with false. change (bool_decide ("" = PoolClaimBound)) with false.
  rewrite andb_false_r. change (bool_decide ("" = "")) with true. cbn [orb]. cbv iota.
  unfold reconcilePendingClaim, getOwnedSubnetClaims. rewrite exec_bind. exec_step. cbn [serve_gen serve fst snd].
  rewrite exec_ret, list_filter_filter, Hm, (filter_single _ m k c Hk); cycle 1.
  { by split. }
  { intros k' c' Hc' [Ho _]. by rewrite (Hother k' c' Hc') in Ho. }
  rewrite Hbound. change (bool_decide (ClaimBound = ClaimPending)) with false.
  change (bool_decide (ClaimBound = ClaimBound)) with true. cbv iota.
  rewrite bool_decide_eq_false_2 by (by rewrite Hcidr). cbv iota. by eexists.
Qed.

(** Without a child pool, one is created and reported. *)
Lemma third_run s req pc c cidr :
  claim_ready s req pc c cidr ->
  (forall k p, st_pools s !! k = Some p -> isOwnedBy (pl_meta p) (pc_meta pc) = false) ->
  exists tr, exec (serve_gen gen) (PoolClaim.Reconcile req) s [] =
    (Some (no_requeue, None), with_child s pc (served_pool pc cidr (pool_name s pc)), tr).
Proof.
  intros Hr Hpools. destruct (ready_run s req pc c cidr Hr) as (tr & ->).
  unfold reconcileBoundClaim, getOwnedSubnetPools. rewrite exec_bind. exec_step. cbn [serve_gen serve fst snd].
  rewrite exec_ret, list_filter_filter, filter_none; cycle 1.
  { intros k' p Hp [Ho _]. by rewrite (Hpools k' p Hp) in Ho. }
  unfold createChildPool. cbn [SetControllerReference controller_util]. rewrite exec_bind, (cr_cidr _ _ _ _ _ Hr).
  match goal with |- context [do_call (CCreatePool ?x)] =>
    change x with (mkSubnetPool (owned_by pc (pl_meta (child_pool pc cidr))) (pl_Spec (child_pool pc cidr))
      (pl_Status (child_pool pc cidr))) end.
  exec_step. rewrite (create_pool s pc cidr). cbn [fst snd]. rewrite exec_ret.
  set (s1 := mkStore _ _ _ _).
  match goal with |- context [exec _ (report _ _ _ _) _ ?t] =>
    destruct (exec_report s1 pc (Name (pl_meta (served_pool pc cidr (pool_name s pc)))) t) as (tr2 & ->) end.
  { unfold s1. cbn [st_poolclaims]. rewrite (cr_key _ _ _ _ _ Hr). apply Hr. }
  by eexists.
Qed.

(** With a child pool stored, it is reported and nothing is created. *)
Lemma recovery_run s req pc c cidr m k child :
  claim_ready s req pc c cidr ->
  st_pools s = <[k := child]> m -> m !! k = None ->
  isOwnedBy (pl_meta child) (pc_meta pc) = true -> Namespace (pl_meta child) = Namespace (pc_meta pc) ->
  (forall k' p, m !! k' = Some p -> isOwnedBy (pl_meta p) (pc_meta pc) = false) ->
  exists tr, exec (serve_gen gen) (PoolClaim.Reconcile req) s [] =
    (Some (no_requeue, None),
     mkStore (st_subnets s) (st_pools s) (st_claims s)
       (<[req := with_poolclaim_status pc (Name (pl_meta child)) PoolClaimBound ""]> (st_poolclaims s)), tr).
Proof.
  intros Hr Hm Hk Hown Hns Hother. destruct (ready_run s req pc c cidr Hr) as (tr & ->).
  unfold reconcileBoundClaim, getOwnedSubnetPools. rewrite exec_bind. exec_step. cbn [serve_gen serve fst snd].
  rewrite exec_ret, list_filter_filter, Hm, (filter_single _ m k child Hk); cycle 1.
  { by split. }
  { intros k' p Hp [Ho _]. by rewrite (Hother k' p Hp) in Ho. }
  pose proof (cr_key _ _ _ _ _ Hr) as Hkey.
  match goal with |- context [exec _ (report _ _ _ _) _ ?t] =>
    destruct (exec_report s pc (Name (pl_meta child)) t) as (tr2 & ->) end.
  { rewrite Hkey. apply Hr. }
  rewrite Hkey, Hm. by eexists.
Qed.

(** The child pool is stored, and its report was lost. *)
Definition unreported (s : store) (child : SubnetPool) : store :=
  mkStore (st_subnets s) (<[object_key (pl_meta child) := child]> (st_pools s)) (st_claims s) (st_poolclaims s).

(** After the internal claim is bound, and whether or not the child pool is
    stored already, the pool claim is ready. *)
Lemma bound_store_ready s req pc pool cidr :
  new_poolclaim s req pc -> cidr <> "" ->
  let claim := served_claim pc (claim_name s pc) in
  claim_ready (bound_store (with_claim s claim) claim pool cidr) req pc (with_claim_status claim ClaimBound cidr "" 0) cidr.
Proof.
  intros Hn Hne claim. constructor; try done; try apply Hn; [|apply isOwnedBy_owned].
  exists (st_claims s), (object_key (cl_meta claim)). split; [|split].
  - unfold bound_store, with_claim. cbn [st_claims]. by rewrite insert_insert_eq.
  - apply gen_free.
  - apply Hn.
Qed.

(** C18. A new pool claim on a parent pool with a free block: its first
    reconciliation requests an internal claim, the claim's reconciliation
    takes the block, and the next reconciliation of the pool claim creates
    the child pool with exactly that CIDR, labelled with its parent and owned
    by the pool claim, and reports it as Bound; after that the pool claim is
    left alone.  When the process stops between the creation of the child
    pool and its report, the next reconciliation reaches the same store: it
    reports that pool and creates no second one.  Names are the ones the
    server generates. *)
Theorem pool_claim_served s req pc pool cidr :
  new_poolclaim s req pc ->
  let claim := served_claim pc (claim_name s pc) in
  let s1 := with_claim s claim in
  servable s1 (object_key (cl_meta claim)) claim pool cidr ->
  let s2 := bound_store s1 claim pool cidr in
  let child := served_pool pc cidr (pool_name s2 pc) in
  let s3 := with_child s2 pc child in
  exists tr1 tr2 tr3 tr4 tr5,
    exec (serve_gen gen) (PoolClaim.Reconcile req) s [] = (Some (requeue_now, None), s1, tr1) /\
    exec (serve_gen gen) (ClaimReconciler.Reconcile (object_key (cl_meta claim))) s1 [] = (Some (no_requeue, None), s2, tr2) /\
    exec (serve_gen gen) (PoolClaim.Reconcile req) s2 [] = (Some (no_requeue, None), s3, tr3) /\
    exec (serve_gen gen) (PoolClaim.Reconcile req) s3 [] = (Some (no_requeue, None), s3, tr4) /\
    exec (serve_gen gen) (PoolClaim.Reconcile req) (unreported s2 child) [] = (Some (no_requeue, None), s3, tr5) /\
    pl_CIDR (pl_Spec child) = cidr /\ Labels (pl_meta child) !! ParentLabel = Some (pc_ParentPoolRef (pc_Spec pc)) /\
    isOwnedBy (pl_meta child) (pc_meta pc) = true.
Proof.
  intros Hn claim s1 Hsv s2 child s3. pose proof (np_key _ _ _ Hn) as Hk.
  destruct (first_run s req pc Hn) as (tr1 & R1). destruct (second_run s1 _ claim pool cidr Hsv) as (tr2 & R2).
  pose proof (bound_store_ready s req pc pool cidr Hn
    (findAvailableCIDR_nonempty _ _ _ _ (sv_free_block _ _ _ _ _ Hsv))) as Hready.
  destruct (third_run _ _ _ _ _ Hready) as (tr3 & R3); [apply Hn|].
  destruct (recovery_run (unreported s2 child) req pc (with_claim_status claim ClaimBound cidr "" 0) cidr
    (st_pools s2) (object_key (pl_meta child)) child) as (tr5 & R5); try done; try apply gen_free; try apply isOwnedBy_owned.
  { destruct Hready. by constructor. }
  { apply Hn. }
  assert (R4 : exists tr4, exec (serve_gen gen) (PoolClaim.Reconcile req) s3 [] = (Some (no_requeue, None), s3, tr4)).
  { unfold PoolClaim.Reconcile. exec_step. cbn [serve_gen serve fst snd]. unfold lookup_obj at 1, s3, with_child.
    cbn [st_poolclaims]. rewrite Hk, lookup_insert_eq. cbn [with_poolclaim_status pc_meta pc_Status pc_Phase pc_ObservedGeneration].
    rewrite (np_live _ _ _ Hn). change (bool_decide (@None Z <> None)) with false. rewrite Z.eqb_refl.
    change (bool_decide (PoolClaimBound = PoolClaimBound)) with true. cbn [andb]. rewrite exec_ret. by eexists. }
  destruct R4 as (tr4 & R4). exists tr1, tr2, tr3, tr4, tr5.
  split; [exact R1|]. split; [exact R2|]. split; [exact R3|]. split; [exact R4|].
  split; [rewrite R5; unfold s3, with_child, unreported; by rewrite Hk|].
  split; [done|]. split; [|apply isOwnedBy_owned].
  change (Labels (pl_meta child)) with
    (<[IPAMLabel := "true"]> {[ParentLabel := pc_ParentPoolRef (pc_Spec pc)]} : gmap string string).
  rewrite lookup_insert_ne by done. apply lookup_singleton_eq.
Qed.
End Runs.

(** * A run *)

Definition sample_poolclaim : SubnetPoolClaim :=
  mkSubnetPoolClaim (mkObjectMeta "pc" "" "ns" "uid" 1 ∅ [] [] None) (mkSubnetPoolClaimSpec "pool" 28)
    (mkSubnetPoolClaimStatus 0 "" "" "" []).

Definition parent_store : store :=
  mkStore ∅ {[mkKey "ns" "pool" := sample_pool]} ∅
    {[mkKey "ns" "pc" := sample_poolclaim]}.

Lemma pool_claim_served_witness :
  let pc := sample_poolclaim in
  let claim := served_claim pc "pc-0" in
  let s2 := bound_store (with_claim parent_store claim) claim sample_pool "10.0.0.0/28" in
  exists tr3, exec (serve_gen long_name) (PoolClaim.Reconcile (mkKey "ns" "pc")) s2 [] =
    (Some (no_requeue, None), with_child s2 pc (served_pool pc "10.0.0.0/28" "pc-00000"), tr3).
Proof.
  intros pc claim s2.
  destruct (pool_claim_served long_name long_name_fresh parent_store (mkKey "ns" "pc") pc sample_pool "10.0.0.0/28")
    as (tr1 & tr2 & tr3 & tr4 & tr5 & _ & _ & R3 & _).
  - constructor; try (vm_compute; reflexivity).
    + intros k c Hc. vm_compute in Hc. discriminate Hc.
    + intros k p Hp. unfold parent_store in Hp. cbn [st_pools] in Hp. apply lookup_singleton_Some in Hp as [_ <-]. vm_compute. reflexivity.
  - constructor; try (vm_compute; reflexivity). vm_compute. intros [=].
  - exists tr3. exact R3.
Defined.

(** * A cache that lags behind *)

(** Lists are answered from an older state, everything else from the current
    one, as a client with a cache does between a write and its watch event. *)
Definition serve_lag (old : store) (c : call) : store -> resp c * store :=
  match c with
  | CListClaims o => λ s, ((serve (CListClaims o) old).1, s)
  | CListPools o => λ s, ((serve (CListPools o) old).1, s)
  | c => serve_gen long_name c
  end.

(** C22. The pool claim is requeued at once after it has requested its internal
    claim; when the list it then reads does not show the claim yet, it
    requests a second one: the names are generated, so nothing collides, and
    the pool claim owns two claims with the same contents. *)
Theorem stale_list_duplicates_claim :
  let run s := exec (serve_lag parent_store) (PoolClaim.Reconcile (mkKey "ns" "pc")) s [] in
  (run parent_store).1.1 = Some (requeue_now, None) /\
  exists n1 n2, n1 <> n2 /\
    st_claims (run (run parent_store).1.2).1.2 !! mkKey "ns" n1 = Some (served_claim sample_poolclaim n1) /\
    st_claims (run (run parent_store).1.2).1.2 !! mkKey "ns" n2 = Some (served_claim sample_poolclaim n2) /\
    isOwnedBy (cl_meta (served_claim sample_poolclaim n1)) (pc_meta sample_poolclaim) = true /\
    isOwnedBy (cl_meta (served_claim sample_poolclaim n2)) (pc_meta sample_poolclaim) = true.
Proof.
  intros run. split; [vm_compute; reflexivity|].
  exists "pc-0", "pc-00000". split; [intros [=]|].
  split; [vm_compute; reflexivity|]. split; [vm_compute; reflexivity|].
  split; apply isOwnedBy_owned.
Qed.
