(* ===== verification/System.v ===== *)
(** The four controllers together.  Any number of their reconciliations run
    interleaved against one API server whose reads may be stale, each read
    differently, and whose answers may be lost, while users create, edit and
    delete objects.  The theorems trace what the controllers report back to
    objects that really existed. *)

From stdpp Require Import relations.
From S2P Require Import Prelude GoNet NetUtil Bitmap ApiTypes StatusCalc MergePatch Effects InMemory Metrics Names.
From S2P Require Import Select Allocator History.
From S2P Require Import ClaimStatus ClaimReconciler Predicates SubnetStatus SubnetController Pager PoolStatus PoolClaim.

(** * The transition system *)

(** A reconciliation of one of the controllers. *)
Inductive origin : Type :=
| RunClaim (req : NamespacedName)
| RunSubnet (req : NamespacedName)
| RunPool (fuel : nat) (req : NamespacedName)
| RunPoolClaim (req : NamespacedName).

(** What users do: they create and edit objects (never their status, nor the
    owner references) and delete them. *)
Definition owners_kept {A} (meta : A -> ObjectMeta) (old : option A) (x : A) : Prop :=
  OwnerReferences (meta x) = match old with Some y => OwnerReferences (meta y) | None => [] end.

Inductive user_step (s : store) : store -> Prop :=
| user_subnet x :
    valid_cidr (sn_CIDR (sn_Spec x)) ->
    user_step s (set_subnets s (<[object_key (sn_meta x) := x]> (st_subnets s)))
| user_pool x :
    valid_cidr (pl_CIDR (pl_Spec x)) -> owners_kept pl_meta (st_pools s !! object_key (pl_meta x)) x ->
    pl_Status x = match st_pools s !! object_key (pl_meta x) with
                  | Some cur => pl_Status cur
                  | None => empty_pool_status
                  end ->
    user_step s (set_pools s (<[object_key (pl_meta x) := x]> (st_pools s)))
| user_claim x :
    owners_kept cl_meta (st_claims s !! object_key (cl_meta x)) x ->
    match st_claims s !! object_key (cl_meta x) with
    | Some cur => cl_Status x = cl_Status cur
    | None => cl_Phase (cl_Status x) <> ClaimBound
    end ->
    user_step s (set_claims s (<[object_key (cl_meta x) := x]> (st_claims s)))
| user_poolclaim x :
    match st_poolclaims s !! object_key (pc_meta x) with
    | Some cur => pc_Status x = pc_Status cur
    | None => pc_Phase (pc_Status x) <> PoolClaimBound
    end ->
    user_step s (set_poolclaims s (<[object_key (pc_meta x) := x]> (st_poolclaims s)))
| delete_subnet k : user_step s (set_subnets s (delete k (st_subnets s)))
| delete_pool k : user_step s (set_pools s (delete k (st_pools s)))
| delete_claim k : user_step s (set_claims s (delete k (st_claims s)))
| delete_poolclaim k : user_step s (set_poolclaims s (delete k (st_poolclaims s))).

(** A reconciliation in progress: where it came from, the calls so far and
    the rest. *)
Record task : Type := mkTask {
  tk_origin : origin;
  tk_trace : list event;
  tk_rest : prog (Result * option error)
}.

Record system : Type := mkSystem {
  sy_now : store;
  sy_before : history;
  sy_tasks : list task
}.

Definition past (sy : system) : history := sy_now sy :: sy_before sy.

Section System.
Context `{ApiErrors, ControllerUtil, Retry, RetryDefaults, ConditionUtil}.

Definition start (o : origin) : prog (Result * option error) :=
  match o with
  | RunClaim req => ClaimReconciler.Reconcile req
  | RunSubnet req => SubnetController.Reconcile req
  | RunPool fuel req => PoolStatus.Reconcile fuel req
  | RunPoolClaim req => PoolClaim.Reconcile req
  end.

Inductive sys_step : system -> system -> Prop :=
| sys_start now before ts o :
    sys_step (mkSystem now before ts) (mkSystem now before (ts ++ [mkTask o [] (start o)]))
| sys_call now now' before ts i o tr c k r :
    ts !! i = Some (mkTask o tr (Vis c k)) -> legal c r ->
    now' = now \/ effect c now now' -> genuine (now' :: now :: before) c r ->
    sys_step (mkSystem now before ts)
      (mkSystem now' (now :: before) (<[i := mkTask o (tr ++ [Ev c r]) (k r)]> ts))
| sys_user now now' before ts :
    user_step now now' -> sys_step (mkSystem now before ts) (mkSystem now' (now :: before) ts).

Definition sys_reachable (sy : system) : Prop := rtc sys_step (mkSystem empty_store [] []) sy.
End System.

(** * Provenance *)

(** The Subnet is one that serves a claim with this spec: it has the CIDR, is
    for the claim's cluster or named after it, and belongs to the claim's pool
    by its reference or by its name. *)
Definition backs (c : SubnetClaim) (cidr : string) (s : Subnet) : Prop :=
  sn_CIDR (sn_Spec s) = cidr /\ Namespace (sn_meta s) = Namespace (cl_meta c) /\
  (sn_ClusterID (sn_Spec s) = cl_ClusterID (cl_Spec c) \/ Name (sn_meta s) = cl_ClusterID (cl_Spec c)) /\
  (sn_PoolRef (sn_Spec s) = cl_PoolRef (cl_Spec c) \/
   exists cidr', Name (sn_meta s) = EncodeAllocationName (cl_PoolRef (cl_Spec c)) cidr').

(** A Subnet existed that serves (a version of) the claim under the key. *)
Definition backed (h : history) (k : NamespacedName) (cidr : string) : Prop :=
  exists c ks s, ever st_claims h k c /\ ever st_subnets h ks s /\ backs c cidr s.

(** A pool claim existed of which the claim's spec is the internal claim. *)
Definition requested_by (h : history) (ns : string) (spec : SubnetClaimSpec) (ref : OwnerReference) : Prop :=
  exists k pc, ever st_poolclaims h k pc /\ or_UID ref = UID (pc_meta pc) /\ Namespace (pc_meta pc) = ns /\
    spec = cl_Spec (internal_claim pc).

(** A pool claim existed, and a Bound claim that it owns, from which the pool
    has its CIDR and its parent label. *)
Definition delegated_by (h : history) (ns : string) (p : SubnetPool) (ref : OwnerReference) : Prop :=
  exists k pc kc c, ever st_poolclaims h k pc /\ or_UID ref = UID (pc_meta pc) /\ Namespace (pc_meta pc) = ns /\
    Labels (pl_meta p) !! ParentLabel = Some (pc_ParentPoolRef (pc_Spec pc)) /\
    ever st_claims h kc c /\ isOwnedBy (cl_meta c) (pc_meta pc) = true /\ key_Namespace kc = ns /\
    cl_Phase (cl_Status c) = ClaimBound /\ cl_AllocatedCIDR (cl_Status c) = pl_CIDR (pl_Spec p).

(** A pool of this name existed that (a version of) the pool claim owns. *)
Definition bound_to (h : history) (k : NamespacedName) (name : string) : Prop :=
  exists p pc, ever st_pools h (mkKey (key_Namespace k) name) p /\ ever st_poolclaims h k pc /\
    isOwnedBy (pl_meta p) (pc_meta pc) = true.

(** A Subnet of the pool existed with this CIDR and cluster. *)
Definition entry_known (h : history) (k : NamespacedName) (cidr cluster : string) : Prop :=
  exists ks s, ever st_subnets h ks s /\ Namespace (sn_meta s) = key_Namespace k /\
    sn_PoolRef (sn_Spec s) = key_Name k /\ sn_CIDR (sn_Spec s) = cidr /\ sn_ClusterID (sn_Spec s) = cluster.

(** ** The invariant *)

Definition good_subnet (k : NamespacedName) (s : Subnet) : Prop :=
  object_key (sn_meta s) = k /\ valid_cidr (sn_CIDR (sn_Spec s)).

Definition good_claim (h : history) (k : NamespacedName) (c : SubnetClaim) : Prop :=
  object_key (cl_meta c) = k /\
  (cl_Phase (cl_Status c) = ClaimBound -> backed h k (cl_AllocatedCIDR (cl_Status c))) /\
  (forall ref, ref ∈ OwnerReferences (cl_meta c) ->
    exists c0, ever st_claims h k c0 /\ requested_by h (key_Namespace k) (cl_Spec c0) ref).

Definition good_pool (h : history) (k : NamespacedName) (p : SubnetPool) : Prop :=
  object_key (pl_meta p) = k /\ valid_cidr (pl_CIDR (pl_Spec p)) /\
  (forall ref, ref ∈ OwnerReferences (pl_meta p) ->
    exists p0, ever st_pools h k p0 /\ delegated_by h (key_Namespace k) p0 ref) /\
  (forall cidr cluster, pl_AllocatedCIDRs (pl_Status p) !! cidr = Some cluster -> entry_known h k cidr cluster).

Definition good_poolclaim (h : history) (k : NamespacedName) (pc : SubnetPoolClaim) : Prop :=
  object_key (pc_meta pc) = k /\
  (pc_Phase (pc_Status pc) = PoolClaimBound -> bound_to h k (pc_BoundPoolName (pc_Status pc))).

Record good_store (h : history) (s : store) : Prop := {
  gs_subnets : map_Forall good_subnet (st_subnets s);
  gs_pools : map_Forall (good_pool h) (st_pools s);
  gs_claims : map_Forall (good_claim h) (st_claims s);
  gs_poolclaims : map_Forall (good_poolclaim h) (st_poolclaims s)
}.

Definition good_history (h : history) : Prop := forall s, s ∈ h -> good_store h s.

(** The calls that keep it. *)
Definition allowed (h : history) (c : call) : Prop :=
  match c with
  | CStatusUpdateClaim x => cl_Phase (cl_Status x) = ClaimBound ->
      backed h (object_key (cl_meta x)) (cl_AllocatedCIDR (cl_Status x))
  | CStatusUpdatePoolClaim x => pc_Phase (pc_Status x) = PoolClaimBound ->
      bound_to h (object_key (pc_meta x)) (pc_BoundPoolName (pc_Status x))
  | CCreateClaim x => forall ref, ref ∈ OwnerReferences (cl_meta x) ->
      requested_by h (Namespace (cl_meta x)) (cl_Spec x) ref
  | CCreatePool x => forall ref, ref ∈ OwnerReferences (pl_meta x) ->
      delegated_by h (Namespace (pl_meta x)) x ref
  | CStatusPatchPool _ new => forall cidr cluster, pl_AllocatedCIDRs (pl_Status new) !! cidr = Some cluster ->
      entry_known h (object_key (pl_meta new)) cidr cluster
  | _ => True
  end.

(** ** It is kept by the server and the users *)

Section Kept.
Context (s : store) (h : history).
Local Hint Resolve ever_cons : core.

Lemma good_claim_cons k c : good_claim h k c -> good_claim (s :: h) k c.
Proof.
  intros (Hk & Hb & Ho). split; [done|]. split.
  - intros Hph. destruct (Hb Hph) as (c0 & ks & x & ? & ? & ?). exists c0, ks, x. auto.
  - intros ref Href. destruct (Ho ref Href) as (c0 & ? & kp & pc & ? & ?). exists c0. split; [auto|]. exists kp, pc. auto.
Qed.

Lemma entry_known_cons k cidr cluster : entry_known h k cidr cluster -> entry_known (s :: h) k cidr cluster.
Proof. intros (ks & x & ? & ?). exists ks, x. auto. Qed.

Lemma good_pool_cons k p : good_pool h k p -> good_pool (s :: h) k p.
Proof.
  intros (Hk & Hv & Ho & He). split; [done|]. split; [done|]. split.
  - intros ref Href. destruct (Ho ref Href) as (p0 & ? & kp & pc & kc & c & ?). destruct_and!.
    exists p0. split; [auto|]. exists kp, pc, kc, c. auto 20.
  - intros cidr cluster Hc. by apply entry_known_cons, He.
Qed.

Lemma good_poolclaim_cons k pc : good_poolclaim h k pc -> good_poolclaim (s :: h) k pc.
Proof.
  intros (Hk & Hb). split; [done|]. intros Hph. destruct (Hb Hph) as (p & pc0 & ? & ? & ?). exists p, pc0. auto.
Qed.

Lemma good_store_cons s' : good_store h s' -> good_store (s :: h) s'.
Proof.
  intros [? ? ? ?]. constructor; [done|..]; (eapply map_Forall_impl; [done|]).
  - apply good_pool_cons.
  - apply good_claim_cons.
  - apply good_poolclaim_cons.
Qed.
End Kept.

Lemma good_history_cons h s' : good_history h -> good_store (s' :: h) s' -> good_history (s' :: h).
Proof. intros Hh Hs s [->|Hin]%elem_of_cons; [done|]. by apply good_store_cons, Hh. Qed.

Section Put.
Context (h : history) (s : store).
Hypothesis good : good_store h s.

Lemma put_subnet k x (s' := set_subnets s (<[k := x]> (st_subnets s))) :
  good_subnet k x -> good_store (s' :: h) s'.
Proof.
  intros Hx. destruct (good_store_cons s' h s good) as [? ? ? ?]. constructor; [|done..]. by apply map_Forall_insert_2.
Qed.

Lemma put_pool k x (s' := set_pools s (<[k := x]> (st_pools s))) :
  good_pool (s' :: h) k x -> good_store (s' :: h) s'.
Proof.
  intros Hx. destruct (good_store_cons s' h s good) as [? ? ? ?].
  constructor; [done| |done..]. by apply map_Forall_insert_2.
Qed.

Lemma put_claim k x (s' := set_claims s (<[k := x]> (st_claims s))) :
  good_claim (s' :: h) k x -> good_store (s' :: h) s'.
Proof.
  intros Hx. destruct (good_store_cons s' h s good) as [? ? ? ?].
  constructor; [done|done| |done]. by apply map_Forall_insert_2.
Qed.

Lemma put_poolclaim k x (s' := set_poolclaims s (<[k := x]> (st_poolclaims s))) :
  good_poolclaim (s' :: h) k x -> good_store (s' :: h) s'.
Proof.
  intros Hx. destruct (good_store_cons s' h s good) as [? ? ? ?].
  constructor; [done..|]. by apply map_Forall_insert_2.
Qed.

(** An accepted write of an allowed call. *)
Lemma effect_good c s' : allowed h c -> effect c s s' -> good_store (s' :: h) s'.
Proof.
  destruct good as [Gs Gp Gc Gq]. intros Ha He. destruct c; try done; cbn in He, Ha.
  - destruct He as (y & (_ & _ & _ & Hv) & _ & ->). by apply put_subnet.
  - destruct He as (y & (Hm & Hsp & Hst) & _ & ->). apply put_claim. set (s' := set_claims _ _).
    destruct Hm as (Hns & _ & _ & Ho & _). split; [done|]. rewrite Hst, Ho. split; [done|].
    intros ref Href. exists y. split; [apply ever_now; cbn; by rewrite lookup_insert_eq|].
    destruct (Ha ref Href) as (kp & pc & ? & ? & ? & ?). exists kp, pc. rewrite Hsp. cbn. rewrite Hns.
    split_and!; auto with plex.
  - destruct He as (y & (Hm & Hsp & Hst & Hv) & _ & ->). apply put_pool. set (s' := set_pools _ _).
    destruct Hm as (Hns & _ & Hl & Ho & _). split; [done|]. split; [done|]. rewrite Ho, Hst. split; [|done].
    intros ref Href. exists y. split; [apply ever_now; cbn; by rewrite lookup_insert_eq|].
    destruct (Ha ref Href) as (kp & pc & kc & c & ?). destruct_and!. exists kp, pc, kc, c. rewrite Hsp, Hl. cbn.
    rewrite Hns. split_and!; auto with plex.
  - destruct He as (cur & Hcur & Hm & Hsp & ->). apply put_claim.
    set (s' := set_claims _ _).
    destruct (good_claim_cons s' h _ _ (Gc _ _ Hcur)) as (_ & _ & Ho').
    split; [done|]. split; [|intros ref Href; apply Ho'; by rewrite <-Hm].
    intros Hb. destruct (Ha Hb) as (c0 & ks & x & ? & ? & ?). exists c0, ks, x. auto with plex.
  - destruct He as (cur & Hcur & Hm & Hsp & ->). apply put_poolclaim. split; [done|].
    intros Hb. destruct (Ha Hb) as (p & pc0 & ? & ? & ?). exists p, pc0. auto with plex.
  - destruct He as (cur & Hcur & ->). apply put_subnet. by destruct (Gs _ _ Hcur).
  - destruct He as (cur & Hcur & ->). apply put_pool. set (s' := set_pools _ _).
    destruct (good_pool_cons s' h _ _ (Gp _ _ Hcur)) as (Hk & Hv & Ho & Hen). split_and!; [done|done|done|].
    intros cidr cluster [Hnew|Hold]%merge_map_provenance; [by apply entry_known_cons, Ha|by apply Hen].
Qed.

(** A step of a user. *)
Lemma user_good s' : user_step s s' -> good_store (s' :: h) s'.
Proof.
  destruct good as [Gs Gp Gc Gq]. intros Hu. destruct Hu as [x Hv|x Hv Ho Hst|x Ho Hst|x Hst|k|k|k|k].
  - by apply put_subnet.
  - apply put_pool. split; [done|]. split; [done|]. rewrite Ho, Hst.
    destruct (st_pools s !! object_key (pl_meta x)) as [cur|] eqn:Hcur.
    + by apply good_pool_cons, (Gp _ _ Hcur).
    + split; [by intros ref ?%not_elem_of_nil|done].
  - apply put_claim. split; [done|]. rewrite Ho.
    destruct (st_claims s !! object_key (cl_meta x)) as [cur|] eqn:Hcur.
    + rewrite Hst. by apply good_claim_cons, (Gc _ _ Hcur).
    + split; [done|]. by intros ref ?%not_elem_of_nil.
  - apply put_poolclaim. split; [done|].
    destruct (st_poolclaims s !! object_key (pc_meta x)) as [cur|] eqn:Hcur; [|done].
    rewrite Hst. by apply good_poolclaim_cons, (Gq _ _ Hcur).
  - destruct (good_store_cons (set_subnets s (delete k (st_subnets s))) h s good) as [? ? ? ?].
    constructor; [|done..]. by apply map_Forall_delete.
  - destruct (good_store_cons (set_pools s (delete k (st_pools s))) h s good) as [? ? ? ?].
    constructor; [done| |done..]. by apply map_Forall_delete.
  - destruct (good_store_cons (set_claims s (delete k (st_claims s))) h s good) as [? ? ? ?].
    constructor; [done|done| |done]. by apply map_Forall_delete.
  - destruct (good_store_cons (set_poolclaims s (delete k (st_poolclaims s))) h s good) as [? ? ? ?].
    constructor; [done..|]. by apply map_Forall_delete.
Qed.
End Put.

(** ** It is kept by the controllers *)

Section Controllers.
Context `{ApiErrorLaws, ControllerUtilLaws, RetryLaws, RetryDefaults, ConditionUtil}.
Context (h : history).
Hypothesis good : good_history h.

Lemma ever_subnet_good k x : ever st_subnets h k x -> good_subnet k x.
Proof. intros (s & Hs & Hx). by apply (gs_subnets h s (good s Hs)). Qed.
Lemma ever_pool_good k x : ever st_pools h k x -> good_pool h k x.
Proof. intros (s & Hs & Hx). by apply (gs_pools h s (good s Hs)). Qed.
Lemma ever_claim_good k x : ever st_claims h k x -> good_claim h k x.
Proof. intros (s & Hs & Hx). by apply (gs_claims h s (good s Hs)). Qed.
Lemma ever_poolclaim_good k x : ever st_poolclaims h k x -> good_poolclaim h k x.
Proof. intros (s & Hs & Hx). by apply (gs_poolclaims h s (good s Hs)). Qed.

Lemma quiet_then {A B} (p : prog A) (f : A -> prog B) R :
  quiet_prog p -> (forall a, safe (genuine h) (allowed h) (f a) R) -> safe (genuine h) (allowed h) (p ≫= f) R.
Proof.
  intros Hp Hf. apply safe_bind. eapply safe_mono; [apply quiet_calls_in; [|exact Hp]|intros a _; apply Hf].
  intros c Hc. by destruct c.
Qed.

(** *** The claim controller *)

Section Claim.
Context (claim : SubnetClaim).
Hypothesis claim_seen : ever st_claims h (object_key (cl_meta claim)) claim.

Definition own_pool (p : SubnetPool) : Prop := object_key (pl_meta p) = pool_key claim.

Definition own_subnets (l : list Subnet) : Prop :=
  Forall (λ a, ever st_subnets h (object_key (sn_meta a)) a /\ Namespace (sn_meta a) = Namespace (cl_meta claim) /\
    sn_PoolRef (sn_Spec a) = cl_PoolRef (cl_Spec claim)) l.

Definition good_cidr (cidr : string) : Prop := backed h (object_key (cl_meta claim)) cidr.

Definition good_result (r : result (bool * string)) : Prop :=
  match r with Ok (_, cidr) => good_cidr cidr | Err e => IsConflictError e = false end.

(** A Subnet that existed and serves the claim. *)
Lemma good_cidr_intro ks s : ever st_subnets h ks s -> backs claim (sn_CIDR (sn_Spec s)) s ->
  good_cidr (sn_CIDR (sn_Spec s)).
Proof. intros Hs Hb. by exists claim, ks, s. Qed.

Lemma own_subnets_listed items cont :
  listed st_subnets sn_meta (selected (claim_list_options claim)) h (claim_list_options claim) (Ok (items, cont)) ->
  own_subnets items.
Proof.
  intros Hl. eapply Forall_impl; [exact Hl|]. cbn. intros a (Ha & Hn & [Hf _]%Forall_cons_1).
  split_and!; [done|done|]. symmetry. by apply Hf.
Qed.

Lemma create_safe pool cidr :
  own_pool pool ->
  safe (genuine h) (allowed h) (createAllocation claim pool cidr (EncodeAllocationName (Name (pl_meta pool)) cidr))
    (λ r, forall b c, r = Ok (b, c) -> good_cidr c).
Proof.
  intros Hp. unfold own_pool, object_key, pool_key in Hp. injection Hp as _ Hname.
  unfold createAllocation. set (meta := new_meta _ _ _ _).
  destruct (SetControllerReference _ _ meta) as [meta'|err] eqn:SCR; [|done].
  apply SetControllerReference_frame in SCR as (refs & ->).
  apply safe_bind, safe_call; [done|]. intros [s'|e] _ HE.
  - apply quiet_then; [auto with plex|]. intros _ b c [= <- <-]. destruct HE as [Hs' (Hm & Hsp & _)].
    destruct Hm as [Hns _]. replace cidr with (sn_CIDR (sn_Spec s')) by by rewrite Hsp.
    eapply good_cidr_intro; [exact Hs'|]. unfold backs. rewrite Hsp, Hns. cbn. auto.
  - destruct (IsAlreadyExists e); (apply quiet_then; [auto with plex|]); intros _; [|done].
    apply safe_bind, safe_call; [done|]. intros [s|e2] _ HG; [case_bool_decide as Hcl|]; apply safe_ret; try done.
    intros b c [= <- <-]. pose proof (ever_subnet_good _ _ HG) as [Hk _]. unfold object_key in Hk. injection Hk as Hns Hn.
    eapply good_cidr_intro; [exact HG|]. unfold backs. rewrite Hname in Hn. eauto 10.
Qed.

Lemma attempt_safe pool used allocs :
  own_pool pool ->
  safe (genuine h) (allowed h) (attempt claim pool used allocs)
    (λ r, match r with inl r => good_result r | inr _ => True end).
Proof.
  intros Hp. unfold attempt. apply safe_bind.
  assert (Hsel : safe (genuine h) (allowed h) (selectCandidateCIDR claim pool used allocs)
    (λ r, match r with Ok _ => True | Err e => IsConflictError e = false end)).
  { unfold selectCandidateCIDR. case_bool_decide.
    - destruct (validateRequestedCIDR _ _ allocs) as [[t|e]|] eqn:V; [done| |done].
      by eapply validate_error_no_conflict.
    - apply safe_bind, safe_call; [done|]. intros order _ _.
      destruct (findAvailableCIDR _ _ _); [done|]. apply selection_error_no_conflict. }
  eapply safe_mono; [exact Hsel|]. intros [cidr|e] He; [|done].
  apply safe_bind. eapply safe_mono; [by apply create_safe|]. intros [[[] c]|e] Hr; [by eapply Hr|done|].
  destruct (IsConflictError e) eqn:Hc; done.
Qed.

Lemma claim_allocate_safe pool allocs :
  own_pool pool -> own_subnets allocs ->
  safe (genuine h) (allowed h) (allocateCIDR claim pool allocs) (λ r, own_pool r.1 /\ good_result r.2).
Proof.
  apply (allocateCIDR_safe _ _ _ own_pool own_subnets good_result); [|intros q used l Hq _; by apply attempt_safe].
  constructor.
  - intros c Hc. by destruct c.
  - done.
  - intros q p Hq HE. unfold own_pool in *. rewrite <-Hq. by apply (ever_pool_good _ _ HE).
  - intros q items cont Hq HE. unfold own_pool, object_key, pool_key in Hq. injection Hq as Hns Hn.
    rewrite Hns, Hn in HE. by apply (own_subnets_listed items cont).
  - intros q e m _ HE. cbn. by rewrite IsAlreadyExists_wrap.
  - intros m. apply IsAlreadyExists_plain.
  - intros q l a Hq Hl [Hin%list_elem_of_In Hb]%List.find_some. bool_prop.
    pose proof (proj1 (Forall_forall _ _) Hl a Hin) as (Ha & Hns & Hpr). eapply good_cidr_intro; [exact Ha|].
    unfold backs. auto.
Qed.

Lemma claim_calls_allowed : calls_in (genuine h) (allowed h) (processClaimReconciliation claim).
Proof.
  apply (processClaim_calls _ _ claim own_pool own_subnets good_result good_cidr). constructor.
  - intros c Hc. by destruct c.
  - intros latest st HE Hst. cbn. apply ever_claim_good in HE as (Hk & _). rewrite Hk. exact Hst.
  - apply ever_claim_good in claim_seen as (_ & Hb & _). exact Hb.
  - intros p HE. by apply (ever_pool_good _ _ HE).
  - intros items cont. apply own_subnets_listed.
  - intros s HE Hpr. pose proof (ever_subnet_good _ _ HE) as [Hk _]. unfold object_key in Hk. injection Hk as Hns Hn.
    eapply good_cidr_intro; [exact HE|]. unfold backs. auto.
  - done.
  - intros e s HR Hc. cbn in HR. congruence.
  - apply claim_allocate_safe.
Qed.
End Claim.

Lemma claim_Reconcile_allowed req : calls_in (genuine h) (allowed h) (ClaimReconciler.Reconcile req).
Proof.
  unfold ClaimReconciler.Reconcile. apply safe_bind, safe_call; [done|]. intros g _ HE.
  match goal with |- safe ?E ?K ?p _ => change (calls_in E K p) end. destruct g as [claim|e]; [|done].
  apply claim_calls_allowed. by destruct (ever_claim_good _ _ HE) as [-> _].
Qed.

(** *** The pool claim controller *)

Section PoolClaim.
Context (pc : SubnetPoolClaim).
Hypothesis pc_seen : ever st_poolclaims h (object_key (pc_meta pc)) pc.

(** Status updates of the claim just read. *)
Lemma report_allowed name phase message :
  (phase = PoolClaimBound -> bound_to h (object_key (pc_meta pc)) name) ->
  calls_in (genuine h) (allowed h) (report pc name phase message).
Proof.
  intros Hb. unfold report, updatePoolClaimStatus. apply calls_in_bind; [|by repeat calls_step].
  apply calls_in_bind; [|by repeat calls_step]. apply OnError_calls; [done|]. intros [].
  unfold write_poolclaim_status. apply safe_bind, safe_call; [done|]. intros [latest|e] _ HE; [|done].
  apply safe_bind, safe_call; [|by intros []]. cbn. apply ever_poolclaim_good in HE as [-> _]. exact Hb.
Qed.

(** The new references of a created object name the pool claim. *)
Lemma references_name_owner kind m m' :
  SetControllerReference kind (pc_meta pc) m = Ok m' -> OwnerReferences m = [] ->
  isOwnedBy m' (pc_meta pc) = true /\ forall ref, ref ∈ OwnerReferences m' -> or_UID ref = UID (pc_meta pc).
Proof.
  intros [(ref & Hin & Hu) Hall]%SetControllerReference_owner Hm. split.
  - unfold isOwnedBy. apply existsb_exists. exists ref. rewrite <-list_elem_of_In.
    split; [done|]. by apply bool_decide_eq_true.
  - intros ref' [Hin'|Hu']%Hall; [|done]. rewrite Hm in Hin'. by apply not_elem_of_nil in Hin'.
Qed.

Lemma pending_allowed : calls_in (genuine h) (allowed h) (reconcilePendingClaim pc).
Proof.
  unfold reconcilePendingClaim, getOwnedSubnetClaims. apply safe_bind, safe_bind, safe_call; [done|].
  intros [[items next]|e] _ HE; apply safe_ret; [|done].
  destruct (filter _ items) as [|claim rest] eqn:F.
  - unfold createInternalSubnetClaim. apply safe_bind.
    destruct (SetControllerReference _ _ _) as [meta|e] eqn:Href; [|done].
    destruct (references_name_owner _ _ _ Href eq_refl) as [_ Hrefs].
    apply SetControllerReference_frame in Href as (refs & ->).
    apply safe_bind, safe_call; [|by intros []]. intros ref Hr. exists (object_key (pc_meta pc)), pc.
    split_and!; [done|by apply Hrefs|done|done].
  - assert (Hc : claim ∈ filter (λ c, isOwnedBy (cl_meta c) (pc_meta pc) = true) items) by (rewrite F; set_solver).
    apply list_elem_of_filter in Hc as [Hown Hin]. pose proof (proj1 (Forall_forall _ _) HE claim Hin) as (Hc & Hns & _).
    match goal with |- safe ?E ?K ?p _ => change (calls_in E K p) end.
    case_bool_decide; [done|]. case_bool_decide as Hb; cycle 1.
    { case_bool_decide; [by apply report_allowed|done]. }
    case_bool_decide; [done|]. unfold reconcileBoundClaim, getOwnedSubnetPools.
    apply safe_bind, safe_bind, safe_call; [done|]. intros [[pools next2]|e] _ HP; apply safe_ret; [|done].
    destruct (filter _ pools) as [|child others] eqn:FP.
    + unfold createChildPool. apply safe_bind. destruct (SetControllerReference _ _ _) as [meta|e] eqn:Href; [|done].
      destruct (references_name_owner _ _ _ Href eq_refl) as [Ho Hrefs].
      apply SetControllerReference_frame in Href as (refs & ->). apply safe_bind, safe_call.
      * intros ref Hr. exists (object_key (pc_meta pc)), pc, (object_key (cl_meta claim)), claim.
        split_and!; try done. by apply Hrefs.
      * intros [created|e] _ HC; apply safe_ret; [|done]. destruct HC as [HC (Hm & _)].
        destruct Hm as (Hns' & _ & _ & Href & _). apply report_allowed. intros _. exists created, pc.
        split_and!; [|done|unfold isOwnedBy in *; by rewrite Href]. cbn in Hns' |- *. rewrite <-Hns'. exact HC.
    + apply report_allowed. intros _.
      assert (Hp : child ∈ filter (λ p, isOwnedBy (pl_meta p) (pc_meta pc) = true) pools) by (rewrite FP; set_solver).
      apply list_elem_of_filter in Hp as [Hown' Hin']. pose proof (proj1 (Forall_forall _ _) HP child Hin') as (Hp & Hns' & _).
      exists child, pc. split_and!; [|done|done]. cbn in Hns' |- *. rewrite <-Hns'. exact Hp.
Qed.
End PoolClaim.

Lemma poolclaim_Reconcile_allowed req : calls_in (genuine h) (allowed h) (PoolClaim.Reconcile req).
Proof.
  unfold PoolClaim.Reconcile. apply safe_bind, safe_call; [done|]. intros g _ HE.
  match goal with |- safe ?E ?K ?p _ => change (calls_in E K p) end. destruct g as [pc|e]; [|by destruct (IsNotFound e)].
  rewrite dispatch. case_bool_decide; [|done]. apply pending_allowed.
  by destruct (ever_poolclaim_good _ _ HE) as [-> _].
Qed.

(** *** The pool status controller *)

Section Pool.
Context (req : NamespacedName).

Definition pool_subnets_seen (l : list Subnet) : Prop :=
  Forall (λ a, (exists k, ever st_subnets h k a) /\ Namespace (sn_meta a) = key_Namespace req /\
    sn_PoolRef (sn_Spec a) = key_Name req) l.

Lemma list_pages_safe fuel pool tok acc :
  object_key (pl_meta pool) = req -> pool_subnets_seen acc ->
  safe (genuine h) (allowed h) (list_pages fuel pool tok acc)
    (λ r, match r with Ok l => pool_subnets_seen l | Err _ => True end).
Proof.
  intros Hk. revert tok acc. induction fuel as [|fuel IH]; intros tok acc Hacc; cbn [list_pages]; [done|].
  apply safe_bind, safe_call; [done|]. intros [[items next]|e] _ HE; [|done].
  assert (Hall : pool_subnets_seen (acc ++ items)).
  { apply Forall_app. split; [done|]. eapply Forall_impl; [exact HE|]. cbn.
    intros a (Ha & Hns & [Hf _]%Forall_cons_1). rewrite <-Hk. cbn.
    split_and!; [by eexists|done|]. symmetry. by apply Hf. }
  apply quiet_then; [done|]. intros _. case_bool_decide; [|by apply IH]. by apply quiet_then.
Qed.

(** The entries of a calculated status are those of the Subnets listed. *)
Lemma calculated_entries cidr all res cluster_cidr cluster :
  pool_subnets_seen all -> Calculate cidr all [] = (res, None) ->
  pl_AllocatedCIDRs (calculated_status res) !! cluster_cidr = Some cluster ->
  entry_known h req cluster_cidr cluster.
Proof.
  intros Hall Hc. unfold Calculate in Hc. destruct (ParseCIDR cidr) as [[ip n]|]; [|done].
  destruct (Mask_Size _) as [ones bits]. injection Hc as <-. cbn. rewrite fold_allocations.
  destruct (last _) as [a|] eqn:L; [|done]. intros [= <-].
  apply last_Some_elem_of, list_elem_of_filter in L as [Hci Hin].
  pose proof (proj1 (Forall_forall _ _) Hall a Hin) as ((k & Ha) & Hns & Hpr). by exists k, a.
Qed.

Lemma pool_Reconcile_allowed fuel : calls_in (genuine h) (allowed h) (PoolStatus.Reconcile fuel req).
Proof.
  unfold PoolStatus.Reconcile. apply safe_bind, safe_call; [done|].
  intros [pool|e] _ HE; [|by destruct (IsNotFound e)]. apply quiet_then; [done|]. intros _. apply safe_bind.
  destruct (ever_pool_good _ _ HE) as (Hk & _).
  eapply safe_mono; [by apply list_pages_safe; [|constructor]|]. intros [all|e] Hall; [|done].
  destruct (Calculate _ all []) as [res [e|]] eqn:Hc; [done|]. destruct (negb _); [|done].
  match goal with |- safe ?E ?K ?p _ => change (calls_in E K p) end. apply calls_in_bind.
  - apply OnError_calls; [done|]. intros [p n]. unfold patch_pool_status.
    apply safe_bind, safe_call; [done|]. intros [p'|e] _ HP; [|by destruct (IsNotFound e)].
    case_bool_decide; [done|]. apply safe_bind, safe_call.
    + intros c cluster. cbn [with_pool_status pl_Status pl_meta].
      destruct (ever_pool_good _ _ HP) as (-> & _). by eapply calculated_entries.
    + intros [p2|e] _ _; [done|]. destruct (IsNotFound e); [done|]. destruct (IsConflict e); [|done].
      apply quiet_then; [auto with plex|done].
  - intros [[p n] [e|]]; apply calls_in_bind; try done; apply quiet_calls_in; auto with plex; by intros [].
Qed.
End Pool.

(** *** All of them *)

Lemma start_allowed o : calls_in (genuine h) (allowed h) (start o).
Proof.
  destruct o as [req|req|fuel req|req]; cbn [start].
  - apply claim_Reconcile_allowed.
  - eapply (calls_in_mono (genuine h) subnet_call); [done| |apply SubnetController.Reconcile_calls]. by intros [].
  - apply pool_Reconcile_allowed.
  - apply poolclaim_Reconcile_allowed.
Qed.
End Controllers.

(** ** It holds in every reachable system *)

Section Reachable.
Context `{ApiErrorLaws, ControllerUtilLaws, RetryLaws, RetryDefaultsLaws, ConditionUtil}.

Definition task_ok (h : history) (t : task) : Prop :=
  residual (start (tk_origin t)) (tk_trace t) (tk_rest t) /\ Forall (genuine_event h) (tk_trace t).

Definition sys_inv (sy : system) : Prop := good_history (past sy) /\ Forall (task_ok (past sy)) (sy_tasks sy).

Lemma task_ok_cons s h t : task_ok h t -> task_ok (s :: h) t.
Proof. intros [Hr Ht]. split; [done|]. by apply genuine_events_cons. Qed.

Lemma sys_inv_step sy sy' : sys_step sy sy' -> sys_inv sy -> sys_inv sy'.
Proof.
  intros Hs [Hg Ht]. destruct Hs as [now before ts o|now now' before ts i o tr c k r Hi Hl He Hr|now now' before ts Hu];
    unfold sys_inv, past in *; cbn [sy_now sy_before sy_tasks] in *.
  - split; [done|]. apply Forall_app. split; [done|]. apply Forall_singleton. split; [constructor|constructor].
  - assert (Hnow : good_store (now :: before) now) by (apply Hg; by apply elem_of_cons; left).
    pose proof (Forall_lookup_1 _ _ _ _ Ht Hi) as [Hres Htr]. cbn in Hres, Htr. split.
    + apply good_history_cons; [done|]. destruct He as [->|He]; [by apply good_store_cons|].
      eapply effect_good; [done| |exact He].
      by destruct (residual_calls _ _ _ _ _ (start_allowed _ Hg o) Hres Htr).
    + apply Forall_insert; [eapply Forall_impl; [exact Ht|]; intros t; apply task_ok_cons|].
      split; [by constructor|]. cbn. apply Forall_app. split; [by apply genuine_events_cons|].
      by apply Forall_singleton.
  - assert (Hnow : good_store (now :: before) now) by (apply Hg; by apply elem_of_cons; left). split.
    + apply good_history_cons; [done|]. by apply (user_good _ now).
    + eapply Forall_impl; [exact Ht|]. intros t. apply task_ok_cons.
Qed.

Lemma sys_inv_reachable sy : sys_reachable sy -> sys_inv sy.
Proof.
  intros Hr. unfold sys_reachable in Hr.
  assert (Hinit : sys_inv (mkSystem empty_store [] [])).
  { split; [|constructor]. intros s ->%list_elem_of_singleton. constructor; apply map_Forall_empty. }
  induction Hr as [|x y z Hs _ IH]; [done|]. apply IH. by eapply sys_inv_step.
Qed.

(** ** Panics *)

(** Pools read are valid, so the claim controller cannot dereference nil. *)
Lemma claim_no_panic h req : good_history h -> wp (genuine h) (ClaimReconciler.Reconcile req) [] (λ _ _, True).
Proof.
  intros Hg. unfold ClaimReconciler.Reconcile. apply wp_bind, wp_call. intros g _ _.
  destruct g as [claim|e]; [|by apply wp_ret]. apply (wp_any_trace _ _ []).
  eapply wp_mono; [|done]. eapply (wp_env (pool_reads (claim_pools claim))); [|apply processClaim_wp].
  intros c r Hc. destruct c; try done. cbn in *. destruct r as [p|e]; [|done]. intros _.
  by destruct (ever_pool_good _ Hg _ _ Hc) as (_ & ? & _).
Qed.

(** *** Theorems *)


(** C19. In every reachable system, each entry of the status of a pool names the
    CIDR and the cluster of a Subnet of that pool that existed; merge patches
    from stale objects included. *)
Theorem pool_status_known sy k p cidr cluster :
  sys_reachable sy -> st_pools (sy_now sy) !! k = Some p -> pl_AllocatedCIDRs (pl_Status p) !! cidr = Some cluster ->
  exists ks s, ever st_subnets (past sy) ks s /\ Namespace (sn_meta s) = key_Namespace k /\
    sn_PoolRef (sn_Spec s) = key_Name k /\ sn_CIDR (sn_Spec s) = cidr /\ sn_ClusterID (sn_Spec s) = cluster.
Proof.
  intros Hr Hp He. destruct (sys_inv_reachable sy Hr) as [Hg _].
  by apply (ever_pool_good _ Hg k p (ever_now _ _ _ _ _ Hp)).
Qed.

(** C20. No reachable system has a reconciliation of a claim, a Subnet or a pool
    claim that has panicked. *)
Theorem controllers_never_panic sy t m :
  sys_reachable sy -> t ∈ sy_tasks sy -> tk_rest t = Panic m ->
  exists fuel req, tk_origin t = RunPool fuel req.
Proof.
  intros Hr Hin Hp. destruct (sys_inv_reachable sy Hr) as [Hg Ht].
  pose proof (proj1 (Forall_forall _ _) Ht t Hin) as [Hres Htr]. rewrite Hp in Hres.
  assert (Hno : forall Q, wp (genuine (past sy)) (start (tk_origin t)) [] Q -> False).
  { intros Q Hw. exact (residual_wp _ _ _ _ Q Hw Hres Htr). }
  destruct (tk_origin t) as [req|req|fuel req|req]; [exfalso..|by exists fuel, req|exfalso]; eapply Hno.
  - by apply claim_no_panic.
  - apply SubnetController.Reconcile_wp.
  - apply Reconcile_poolclaim_wp.
Qed.

(** ** Delegation *)

(** Specs of claims and pool claims were never edited, and no name of a claim
    was used again for another one. *)
Record specs_stable (h : history) : Prop := {
  ss_claims k c c' : ever st_claims h k c -> ever st_claims h k c' -> cl_Spec c = cl_Spec c';
  ss_poolclaims k k' pc pc' : ever st_poolclaims h k pc -> ever st_poolclaims h k' pc' ->
    UID (pc_meta pc) = UID (pc_meta pc') -> pc_Spec pc = pc_Spec pc'
}.

(** The block of the pool was allocated, as a Subnet of the parent pool, for
    the pool claim. *)
Definition delegated_block (pc : SubnetPoolClaim) (p : SubnetPool) (s : Subnet) : Prop :=
  Labels (pl_meta p) !! ParentLabel = Some (pc_ParentPoolRef (pc_Spec pc)) /\
  pl_CIDR (pl_Spec p) = sn_CIDR (sn_Spec s) /\ Namespace (sn_meta s) = Namespace (pc_meta pc) /\
  (sn_ClusterID (sn_Spec s) = UID (pc_meta pc) \/ Name (sn_meta s) = UID (pc_meta pc)) /\
  (sn_PoolRef (sn_Spec s) = pc_ParentPoolRef (pc_Spec pc) \/
   exists cidr, Name (sn_meta s) = EncodeAllocationName (pc_ParentPoolRef (pc_Spec pc)) cidr).

Lemma isOwnedBy_ref m owner :
  isOwnedBy m owner = true -> exists ref, ref ∈ OwnerReferences m /\ or_UID ref = UID owner.
Proof.
  unfold isOwnedBy. intros (ref & Hin & Hu)%existsb_exists. exists ref. rewrite list_elem_of_In.
  split; [done|]. by apply bool_decide_eq_true in Hu.
Qed.

(** A claim that a pool claim owns serves the pool claim's UID and parent. *)
Lemma owned_claim_spec h k c pc kp :
  good_history h -> specs_stable h -> ever st_claims h k c -> ever st_poolclaims h kp pc ->
  isOwnedBy (cl_meta c) (pc_meta pc) = true ->
  forall c0, ever st_claims h k c0 ->
    cl_ClusterID (cl_Spec c0) = UID (pc_meta pc) /\ cl_PoolRef (cl_Spec c0) = pc_ParentPoolRef (pc_Spec pc).
Proof.
  intros Hg Hst Hc Hpc (ref & Hin & Hu)%isOwnedBy_ref c0 Hc0.
  destruct (ever_claim_good _ Hg _ _ Hc) as (_ & _ & Ho).
  destruct (Ho ref Hin) as (c1 & Hc1 & k2 & pc2 & Hpc2 & Hu2 & _ & Hsp).
  rewrite (ss_claims h Hst _ _ _ Hc0 Hc1), Hsp. cbn. assert (HU : UID (pc_meta pc2) = UID (pc_meta pc)) by congruence.
  split; [done|]. by rewrite (ss_poolclaims h Hst _ _ _ _ Hpc2 Hpc HU).
Qed.

End Reachable.

(** * Runs *)

Section Runs.
Import ByReason OwnerRef FixedDelay ReplaceCondition FiveSteps Current.

(** A server over the present state and the history, and what makes its
    executions runs of the system; [I] is what it relies on of its state. *)
Definition server : Type := forall c : call, store * history -> resp c * (store * history).

Definition keeps (I : store * history -> Prop) (srv : server) : Prop := forall c now before, I (now, before) ->
  let '(r, st') := srv c (now, before) in
  I st' /\ st'.2 = now :: before /\ legal c r /\ (st'.1 = now \/ effect c now st'.1) /\
  genuine (st'.1 :: now :: before) c r.

Lemma exec_sys_steps I srv o (p : prog (Result * option error)) now before tr a st' tr' ts i :
  keeps I srv -> I (now, before) ->
  exec srv p (now, before) tr = (Some a, st', tr') -> ts !! i = Some (mkTask o tr p) ->
  rtc sys_step (mkSystem now before ts) (mkSystem st'.1 st'.2 (<[i := mkTask o tr' (Ret a)]> ts)).
Proof.
  intros Hk. revert now before tr ts.
  induction p as [b|c k IH|m]; intros now before tr ts HI Hrun Hi; cbn in Hrun; [| |done].
  - simplify_eq. cbn. rewrite list_insert_id by done. apply rtc_refl.
  - pose proof (Hk c now before HI) as Hg.
    destruct (srv c (now, before)) as [r [now' before']]. destruct Hg as (HI' & Hb & Hl & He & Hr). cbn in Hb, He, Hr. subst.
    eapply rtc_l; [by eapply sys_call|].
    apply IH with (ts := <[i := mkTask o (tr ++ [Ev c r]) (k r)]> ts) in Hrun; [|done|].
    + by rewrite list_insert_insert_eq in Hrun.
    + apply list_lookup_insert_eq. by eapply lookup_lt_Some.
Qed.

(** A reconciliation from start to end. *)
Definition run_on (srv : server) (o : origin) (st : store * history) : store * history :=
  (exec srv (start o) st []).1.2.

Definition returns_on (srv : server) (o : origin) (st : store * history) : bool :=
  match (exec srv (start o) st []).1.1 with Some _ => true | None => false end.

(** The server that answers from the present state. *)
Definition serve_hist : server := λ c st, let '(r, s') := serve_now c st.1 in (r, (s', st.1 :: st.2)).

Lemma serve_hist_keeps : keeps (λ _, True) serve_hist.
Proof.
  intros c now before _. unfold serve_hist. cbn [fst snd]. pose proof (serve_now_genuine c now before) as Hg.
  destruct (serve_now c now) as [r now']. by destruct Hg as (? & ? & ?).
Qed.

Definition run (o : origin) (st : store * history) : store * history := run_on serve_hist o st.

(** The state is that of a reachable system. *)
Definition reached (st : store * history) : Prop := exists ts, sys_reachable (mkSystem st.1 st.2 ts).

Lemma reached_empty : reached (empty_store, []).
Proof. exists []. apply rtc_refl. Qed.

Lemma reached_user st s' : user_step st.1 s' -> reached st -> reached (s', st.1 :: st.2).
Proof. intros Hu [ts Hr]. exists ts. eapply rtc_r; [exact Hr|]. by apply sys_user. Qed.

Lemma reached_run_on I srv o st : keeps I srv -> I st -> returns_on srv o st = true -> reached st -> reached (run_on srv o st).
Proof.
  intros Hk HI Hret [ts Hr]. unfold returns_on, run_on in *.
  destruct (exec srv (start o) st []) as [[[a|] st'] tr'] eqn:E; [|done]. destruct st as [now before].
  exists (<[length ts := mkTask o tr' (Ret a)]> (ts ++ [mkTask o [] (start o)])).
  unfold sys_reachable in *. etrans; [eapply rtc_r; [exact Hr|apply sys_start]|].
  eapply (exec_sys_steps I); [done|done|exact E|]. by apply list_lookup_middle.
Qed.

Lemma reached_run o st : returns_on serve_hist o st = true -> reached st -> reached (run o st).
Proof. by apply (reached_run_on (λ _, True)); [apply serve_hist_keeps|]. Qed.

(** One spec for all claims and one for all pool claims. *)
Definition one_spec (sp : SubnetClaimSpec) (psp : SubnetPoolClaimSpec) (s : store) : Prop :=
  map_Forall (λ _ c, cl_Spec c = sp) (st_claims s) /\ map_Forall (λ _ pc, pc_Spec pc = psp) (st_poolclaims s).

#[local] Instance one_spec_dec sp psp s : Decision (one_spec sp psp s).
Proof. unfold one_spec. apply _. Defined.

Lemma specs_stable_one sp psp h : Forall (one_spec sp psp) h -> specs_stable h.
Proof.
  intros Hh. rewrite Forall_forall in Hh. constructor.
  - intros k c c' (s & Hs & Hc) (s' & Hs' & Hc'). destruct (Hh s Hs) as [H1 _], (Hh s' Hs') as [H2 _].
    by rewrite (H1 _ _ Hc), (H2 _ _ Hc').
  - intros k k' c c' (s & Hs & Hc) (s' & Hs' & Hc') _. destruct (Hh s Hs) as [_ H1], (Hh s' Hs') as [_ H2].
    by rewrite (H1 _ _ Hc), (H2 _ _ Hc').
Qed.

(** A user creates a pool and a pool claim; the pool claim is reconciled, then
    its internal claim, then the pool claim again. *)
Definition user_pool_claim : SubnetPoolClaim :=
  mkSubnetPoolClaim (mkObjectMeta "pc" "" "ns" "uid-pc" 1 ∅ [] [] None) (mkSubnetPoolClaimSpec "pool" 28)
    (mkSubnetPoolClaimStatus 0 "" "" "" []).

Definition with_user_pool : store := set_pools empty_store (<[mkKey "ns" "pool" := sample_pool]> ∅).
Definition with_user_poolclaim : store := set_poolclaims with_user_pool (<[mkKey "ns" "pc" := user_pool_claim]> ∅).
Definition user_state : store * history := (with_user_poolclaim, [with_user_pool; empty_store]).

Definition claim_requested : store * history := run (RunPoolClaim (mkKey "ns" "pc")) user_state.
Definition claim_bound : store * history := run (RunClaim (mkKey "ns" "pc-0")) claim_requested.
Definition pool_delegated : store * history := run (RunPoolClaim (mkKey "ns" "pc")) claim_bound.

Lemma pool_delegated_reached : reached claim_bound /\ reached pool_delegated.
Proof.
  assert (H0 : reached user_state).
  { apply (reached_user (with_user_pool, [empty_store])).
    - apply (user_poolclaim with_user_pool user_pool_claim). vm_compute. intros [=].
    - apply (reached_user (empty_store, [])); [|apply reached_empty].
      apply (user_pool empty_store sample_pool); vm_compute; reflexivity. }
  assert (H1 : reached claim_requested) by (apply reached_run; [vm_compute; reflexivity|exact H0]).
  assert (H2 : reached claim_bound) by (apply reached_run; [vm_compute; reflexivity|exact H1]).
  split; [exact H2|]. apply reached_run; [vm_compute; reflexivity|exact H2].
Qed.


Lemma pool_status_known_witness : exists ks s,
  ever st_subnets (past (mkSystem (run (RunPool 2 (mkKey "ns" "pool")) claim_bound).1
    (run (RunPool 2 (mkKey "ns" "pool")) claim_bound).2 [])) ks s /\ sn_ClusterID (sn_Spec s) = "uid-pc".
Proof.
  destruct (reached_run (RunPool 2 (mkKey "ns" "pool")) claim_bound) as [ts Hr];
    [vm_compute; reflexivity|apply pool_delegated_reached|].
  assert (Hp : (λ p, pl_AllocatedCIDRs (pl_Status p) !! "10.0.0.0/28") <$>
    (st_pools (run (RunPool 2 (mkKey "ns" "pool")) claim_bound).1 !! mkKey "ns" "pool") = Some (Some "uid-pc"))
    by (vm_compute; reflexivity).
  apply fmap_Some in Hp as (p & Hp & He). symmetry in He.
  destruct (pool_status_known (mkSystem (run (RunPool 2 (mkKey "ns" "pool")) claim_bound).1
    (run (RunPool 2 (mkKey "ns" "pool")) claim_bound).2 ts) _ _ _ _ Hr Hp He) as (ks & s & Hs & _ & _ & _ & Hcl).
  exists ks, s. exact (conj Hs Hcl).
Defined.


(** A pool reconciliation without fuel for its first page counts as a panic. *)
Lemma controllers_never_panic_witness : exists sy t m,
  sys_reachable sy /\ t ∈ sy_tasks sy /\ tk_rest t = Panic m /\ exists fuel req, tk_origin t = RunPool fuel req.
Proof.
  destruct (reached_user (empty_store, []) (set_pools empty_store (<[mkKey "ns" "pool" := sample_pool]> ∅)))
    as [ts Hr]; [apply (user_pool empty_store sample_pool); vm_compute; reflexivity|apply reached_empty|].
  cbn [fst snd] in Hr. set (s1 := set_pools _ _) in *. set (req := mkKey "ns" "pool").
  pose (t0 := mkTask (RunPool 0 req) [] (start (RunPool 0 req))).
  pose (t := mkTask (RunPool 0 req) [Ev (CGetPool req) (Ok sample_pool)] (Panic "page bound exceeded")).
  assert (Hreach : sys_reachable (mkSystem s1 [s1; empty_store] (<[length ts := t]> (ts ++ [t0])))).
  { eapply rtc_r; [eapply rtc_r; [exact Hr|apply (sys_start s1 [empty_store] ts (RunPool 0 req))]|].
    refine (sys_call s1 s1 [empty_store] (ts ++ [t0]) (length ts) (RunPool 0 req) [] (CGetPool req)
      ltac:(let p := eval hnf in (start (RunPool 0 req)) in match p with Vis _ ?k => exact k end) (Ok sample_pool) _ _ _ _);
      [by apply list_lookup_middle|exact I|by left|].
    apply ever_now. vm_compute. reflexivity. }
  exists (mkSystem s1 [s1; empty_store] (<[length ts := t]> (ts ++ [t0]))), t. eexists.
  assert (Hin : t ∈ <[length ts := t]> (ts ++ [t0])).
  { apply (list_elem_of_lookup_2 _ (length ts)). apply list_lookup_insert_eq. rewrite length_app. cbn. lia. }
  split; [exact Hreach|]. split; [exact Hin|]. split; [reflexivity|].
  exact (controllers_never_panic _ t _ Hreach Hin eq_refl).
Defined.
End Runs.
