(* ===== verification/Collectors.v ===== *)
(** The Prometheus collectors of [internal/controller/metrics.go] and
    [internal/controller/statusutil/metrics.go]: their declarations, their
    registration, and the typing of every metric operation of the controllers
    against the declarations. *)

From S2P Require Import Prelude ApiTypes Predicates Effects InMemory Metrics Allocator ClaimStatus ClaimReconciler.
From S2P Require Import SubnetStatus SubnetController Pager PoolStatus PoolClaim.

(** * Declarations *)

(** The constructors [NewCounter], [NewCounterVec], [NewGaugeVec] and
    [NewHistogramVec]; buckets are upper bounds in milliseconds. *)
Inductive collector_kind : Type :=
| Counter
| CounterVec (labels : list string)
| GaugeVec (labels : list string)
| HistogramVec (buckets : list Z) (labels : list string).

Record collector : Type := mkCollector { co_name : string; co_kind : collector_kind }.

Definition label_names (c : collector) : list string :=
  match co_kind c with
  | Counter => [] | CounterVec l | GaugeVec l | HistogramVec _ l => l
  end.

Definition poolFreeGauge : collector := mkCollector "aquanaut_subnet_pool_free_blocks" (GaugeVec ["pool"; "size"]).
Definition allocationTotal : collector :=
  mkCollector "aquanaut_subnet_alloc_total" (CounterVec ["pool"; "size"; "result"]).
Definition freeBlocks : collector := mkCollector "aquanaut_subnet_free" (GaugeVec ["pool"; "size"]).
Definition retryTotal : collector :=
  mkCollector "aquanaut_subnet_alloc_retry_total" (CounterVec ["pool"; "retries"]).
Definition allocLatency : collector :=
  mkCollector "aquanaut_subnet_alloc_latency_seconds" (HistogramVec [5; 10; 25; 50; 100; 250; 500; 1000] ["result"]).
Definition lockAcquireTotal : collector :=
  mkCollector "aquanaut_ipam_claim_lock_acquire_total" (CounterVec ["result"]).
Definition lockLatency : collector :=
  mkCollector "aquanaut_ipam_claim_lock_latency_seconds" (HistogramVec [1; 5; 10; 25; 50; 100; 250; 500] ["result"]).
Definition staleLockCleanupTotal : collector := mkCollector "aquanaut_ipam_claim_lock_stale_cleanup_total" Counter.
Definition allocationCreateTotal : collector :=
  mkCollector "aquanaut_ipam_allocation_create_total" (CounterVec ["result"]).
Definition allocationCreateLatency : collector :=
  mkCollector "aquanaut_ipam_allocation_create_latency_seconds"
    (HistogramVec [1; 5; 10; 25; 50; 100; 250; 500] ["result"]).
Definition poolStatusUpdateTotal : collector :=
  mkCollector "aquanaut_ipam_pool_status_update_total" (CounterVec ["pool"; "result"]).
Definition poolStatusUpdateLatency : collector :=
  mkCollector "aquanaut_ipam_pool_status_update_latency_seconds"
    (HistogramVec [1; 5; 10; 25; 50; 100; 250; 500; 1000] ["result"]).
Definition poolStatusRetryTotal : collector :=
  mkCollector "aquanaut_ipam_pool_status_retry_total" (CounterVec ["pool"; "retries"]).
Definition SubnetListPagesTotal : collector := mkCollector "subnet_list_pages_total" Counter.
Definition SubnetListContinueSkippedTotal : collector := mkCollector "subnet_list_continue_skipped_total" Counter.
Definition parentPoolRequeueTotal : collector :=
  mkCollector "subnetpool_parent_requeue_total" (CounterVec ["event_type"]).
Definition parentPoolReconcileDuration : collector :=
  mkCollector "subnetpool_parent_reconcile_duration_seconds"
    (HistogramVec [1; 5; 10; 25; 50; 100; 250; 500; 1000] ["result"]).

Definition SubnetStatusUpdateTotal : collector :=
  mkCollector "aquanaut_ipam_subnet_status_update_total" (CounterVec ["result"]).
Definition SubnetStatusUpdateLatency : collector :=
  mkCollector "aquanaut_ipam_subnet_status_update_latency_seconds"
    (HistogramVec [1; 5; 10; 25; 50; 100; 250; 500; 1000] ["result"]).
Definition SubnetStatusRetryTotal : collector :=
  mkCollector "aquanaut_ipam_subnet_status_retry_total" (CounterVec ["retries"]).

(** * Registration *)

(** [metrics.Registry]: [Register] reports an error and the new state. *)
Class CollectorRegistry (R : Type) : Type := {
  described : R -> string -> option collector;
  RegisterCollector : R -> collector -> R * option error
}.

(** Documented behaviour: a collector whose name is not taken is added; one
    whose name is taken is refused, and nothing changes. *)
Class CollectorRegistryLaws (R : Type) `{CollectorRegistry R} : Prop := {
  Register_fresh r c : described r (co_name c) = None ->
    (RegisterCollector r c).2 = None /\
    forall n, described (RegisterCollector r c).1 n = if decide (n = co_name c) then Some c else described r n;
  Register_taken r c : described r (co_name c) <> None ->
    (RegisterCollector r c).2 <> None /\ (RegisterCollector r c).1 = r
}.

Module NameMap.
#[export] Instance collector_registry : CollectorRegistry (gmap string collector) := {
  described r n := r !! n;
  RegisterCollector r c :=
    match r !! co_name c with
    | Some _ => (r, Some (EPlain "duplicate metrics collector registration attempted"))
    | None => (<[co_name c := c]> r, None)
    end
}.

#[export] Instance collector_registry_laws : CollectorRegistryLaws (gmap string collector).
Proof.
  constructor; intros r c; cbn; destruct (r !! co_name c); try done. intros _. split; [done|].
  intros n. cbn. case_decide; subst; [by rewrite lookup_insert_eq|by rewrite lookup_insert_ne].
Qed.
End NameMap.

Section Register.
Context {R : Type} `{CollectorRegistry R}.

(** The error of the registration is dropped. *)
Definition registerOrGet (r : R) (c : collector) : R := (RegisterCollector r c).1.

(** [init] of [statusutil/metrics.go] and of [metrics.go]; an imported package
    is initialised first. *)
Definition statusutil_init (r : R) : R :=
  foldl registerOrGet r [SubnetStatusUpdateTotal; SubnetStatusUpdateLatency; SubnetStatusRetryTotal].

Definition init (r : R) : R :=
  foldl registerOrGet r
    [poolFreeGauge; allocationTotal; freeBlocks; retryTotal; allocLatency; lockAcquireTotal; lockLatency;
     staleLockCleanupTotal; allocationCreateTotal; allocationCreateLatency; poolStatusUpdateTotal;
     poolStatusUpdateLatency; poolStatusRetryTotal; parentPoolRequeueTotal; parentPoolReconcileDuration;
     SubnetListPagesTotal; SubnetListContinueSkippedTotal].
End Register.

(** * Typing *)

(** All collectors, in the order of their registration. *)
Definition collectors : list collector :=
  [SubnetStatusUpdateTotal; SubnetStatusUpdateLatency; SubnetStatusRetryTotal;
   poolFreeGauge; allocationTotal; freeBlocks; retryTotal; allocLatency; lockAcquireTotal; lockLatency;
   staleLockCleanupTotal; allocationCreateTotal; allocationCreateLatency; poolStatusUpdateTotal;
   poolStatusUpdateLatency; poolStatusRetryTotal; parentPoolRequeueTotal; parentPoolReconcileDuration;
   SubnetListPagesTotal; SubnetListContinueSkippedTotal].

Fixpoint increasing (l : list Z) : bool :=
  match l with x :: ((y :: _) as l') => (x <? y) && increasing l' | _ => true end.

(** What the library requires of a declaration, and panics without: distinct
    label names, increasing buckets, and no label [le] on a histogram. *)
Definition declaration_ok (c : collector) : bool :=
  bool_decide (NoDup (label_names c)) &&
  match co_kind c with
  | HistogramVec buckets labels => increasing buckets && bool_decide ("le" ∉ labels)
  | _ => true
  end.

Definition metric_name (m : metric) : string :=
  match m with MInc n _ | MAdd n _ _ | MSet n _ _ | MObserve n _ => n end.

Definition metric_labels (m : metric) : list string :=
  match m with MInc _ l | MAdd _ l _ | MSet _ l _ | MObserve _ l => l end.

(** The operation exists on the collector ([Add] on a counter only upwards),
    and there are as many label values as label names, or [WithLabelValues] panics. *)
Definition fits (m : metric) (c : collector) : bool :=
  match m, co_kind c with
  | MInc _ _, (Counter | CounterVec _ | GaugeVec _) => true
  | MAdd _ _ v, (Counter | CounterVec _) => 0 <=? v
  | MAdd _ _ _, GaugeVec _ | MSet _ _ _, GaugeVec _ | MObserve _ _, HistogramVec _ _ => true
  | _, _ => false
  end && (length (metric_labels m) =? length (label_names c))%nat.

Definition lookup_collector (n : string) : option collector :=
  list_find (λ c, co_name c = n) collectors ≫= λ p, Some p.2.

Definition metric_ok (m : metric) : bool :=
  match lookup_collector (metric_name m) with Some c => fits m c | None => false end.

(** A call whose metric operation, if it is one, fits a collector described by
    the registry. *)
Definition typed_call {R} `{CollectorRegistry R} (r : R) (c : call) : Prop :=
  match c with
  | CMetric m => exists col, described r (metric_name m) = Some col /\ declaration_ok col = true /\ fits m col = true
  | _ => True
  end.

(** The same against the list of declarations. *)
Definition declared_call (c : call) : Prop := match c with CMetric m => metric_ok m = true | _ => True end.

(** ** Registration describes the declarations *)

Section Registration.
Context {R : Type} `{CollectorRegistryLaws R}.

Lemma register_all (l : list collector) (r : R) :
  NoDup (co_name <$> l) -> (forall c, c ∈ l -> described r (co_name c) = None) ->
  (forall c, c ∈ l -> described (foldl registerOrGet r l) (co_name c) = Some c) /\
  (forall n, n ∉ co_name <$> l -> described (foldl registerOrGet r l) n = described r n).
Proof.
  revert r. induction l as [|c l IH]; intros r Hnd Hfresh; cbn [foldl]; [split; [set_solver|done]|].
  apply NoDup_cons in Hnd as [Hc Hnd].
  destruct (Register_fresh r c) as [_ Hd]; [apply Hfresh; set_solver|].
  change (registerOrGet r c) with (RegisterCollector r c).1.
  destruct (IH (RegisterCollector r c).1) as [Hin Hout]; [done| |].
  { intros c' Hc'. rewrite Hd, decide_False; [apply Hfresh; set_solver|].
    intros Heq. apply Hc. rewrite <-Heq. by apply list_elem_of_fmap_2. }
  split.
  - intros c' [->|Hc']%elem_of_cons; [|auto]. rewrite Hout, Hd, decide_True by done. done.
  - intros n Hn. cbn in Hn. apply not_elem_of_cons in Hn as [Hn1 Hn2]. rewrite Hout, Hd, decide_False by done. done.
Qed.

Lemma collectors_nodup : NoDup (co_name <$> collectors).
Proof. refine (bool_decide_eq_true_1 _ _); vm_compute; reflexivity. Qed.

Lemma init_describes (r : R) c :
  (forall c, c ∈ collectors -> described r (co_name c) = None) ->
  c ∈ collectors -> described (init (statusutil_init r)) (co_name c) = Some c.
Proof.
  intros Hf Hc. replace (init (statusutil_init r)) with (foldl registerOrGet r collectors) by done.
  by apply register_all; [apply collectors_nodup| |].
Qed.

Lemma metric_ok_described (r : R) m :
  (forall c, c ∈ collectors -> described r (co_name c) = None) ->
  metric_ok m = true -> typed_call (init (statusutil_init r)) (CMetric m).
Proof.
  intros Hf. unfold metric_ok, lookup_collector.
  destruct (list_find _ collectors) as [[i c]|] eqn:Hl; cbn; [|done]. intros Hm.
  apply list_find_Some in Hl as (Hi & Hn & _). apply list_elem_of_lookup_2 in Hi as Hc.
  exists c. split_and!; [rewrite <-Hn; by apply init_describes| |done].
  assert (Hall : Forall (λ c, declaration_ok c = true) collectors).
  { refine (bool_decide_eq_true_1 _ _); vm_compute; reflexivity. }
  by apply (proj1 (Forall_forall _ _) Hall).
Qed.
End Registration.

(** ** The metric operations of the controllers *)

(** Handlers are decomposed into calls; what is left of a call is an
    operation on the list of declarations. *)
Ltac declared := repeat first [ eassumption | solve [eauto with declared nocore] | calls_step ]; try done.

Create HintDb declared.

Section Declared.
Context `{ApiErrors, ControllerUtil, RetryLaws, ConditionUtil, RetryDefaults}.
Context (E : env).
Notation ok p := (calls_in E declared_call p).

Lemma ok_recordAllocSuccess claim cidr : ok (recordAllocSuccess claim cidr).
Proof. by apply calls_in_call. Qed.
Lemma ok_recordRetry n : ok (recordRetry n).
Proof. by apply calls_in_call. Qed.
Lemma ok_recordLatency : ok recordLatency.
Proof. by apply calls_in_call. Qed.
Lemma ok_recordAllocationError claim t : ok (recordAllocationError claim t).
Proof. by apply calls_in_call. Qed.
Lemma ok_recordCreateMetrics t : ok (recordCreateMetrics t).
Proof. unfold recordCreateMetrics, metric_op. declared. Qed.
Lemma ok_recordPoolStatusUpdate p t : ok (recordPoolStatusUpdate p t).
Proof. unfold recordPoolStatusUpdate, metric_op. declared. Qed.
Lemma ok_recordPoolStatusRetry p n : ok (recordPoolStatusRetry p n).
Proof. by apply calls_in_call. Qed.
Lemma ok_RecordParentPoolRequeue t : ok (RecordParentPoolRequeue t).
Proof. by apply calls_in_call. Qed.
Lemma ok_RecordParentPoolReconcileDuration t : ok (RecordParentPoolReconcileDuration t).
Proof. by apply calls_in_call. Qed.
Lemma ok_record_status_update t : ok (record_status_update t).
Proof. unfold record_status_update, metric_op. declared. Qed.

(** A loop over the keys of a map. *)
Lemma ok_foldl {A} (f : prog unit -> A -> prog unit) (l : list A) p :
  ok p -> (forall p x, ok p -> ok (f p x)) -> ok (foldl f p l).
Proof. revert p. induction l as [|x l IH]; intros p Hp Hf; [done|]. cbn. apply IH; auto. Qed.

Lemma ok_updateFreeBlockMetrics pool cidr m : ok (updateFreeBlockMetrics pool cidr m).
Proof. unfold updateFreeBlockMetrics. declared. apply ok_foldl; [done|]. unfold metric_op. declared. Qed.

Lemma ok_update_free_metrics pool allocs cidr : ok (update_free_metrics pool allocs cidr).
Proof. unfold update_free_metrics. declared. apply ok_foldl; [done|]. declared. Qed.
End Declared.

#[export] Hint Resolve ok_recordAllocSuccess ok_recordRetry ok_recordLatency ok_recordAllocationError
  ok_recordCreateMetrics ok_recordPoolStatusUpdate ok_recordPoolStatusRetry ok_RecordParentPoolRequeue
  ok_record_status_update ok_update_free_metrics : declared.

Section Handlers.
Context `{ApiErrors, ControllerUtil, RetryLaws, ConditionUtil, RetryDefaults}.
Context (E : env).
Notation ok p := (calls_in E declared_call p).

Lemma ok_allocateCIDR claim pool init : ok (allocateCIDR claim pool init).
Proof.
  assert (Hloop : forall n retry pool used ex, ok (allocation_loop n retry claim pool used ex)).
  { induction n as [|n IH]; intros; cbn [allocation_loop]; [done|].
    unfold before_retry, refreshAllocationList, calculateBackoffWithJitter, Intn, attempt, selectCandidateCIDR, createAllocation.
    declared. }
  unfold allocateCIDR. declared.
Qed.

Lemma ok_updateClaimStatus claim phase cidr message : ok (updateClaimStatus claim phase cidr message).
Proof.
  assert (Hloop : forall n i key last, ok (not_found_loop n i key phase cidr message last)).
  { induction n as [|n IH]; intros; cbn [not_found_loop]; [done|]. declared.
    apply OnError_calls; [done|]. intros []. unfold write_claim_status. declared. }
  unfold updateClaimStatus. declared.
Qed.
End Handlers.

#[export] Hint Resolve ok_allocateCIDR ok_updateClaimStatus : declared.

Section Reconcilers.
Context `{ApiErrors, ControllerUtil, RetryLaws, ConditionUtil, RetryDefaults}.
Context (E : env).
Notation ok p := (calls_in E declared_call p).

Lemma ok_claim_Reconcile req : ok (ClaimReconciler.Reconcile req).
Proof.
  assert (Hloop : forall n retry claim pool allocs, ok (process_loop n retry claim pool allocs)).
  { induction n as [|n IH]; intros; cbn [process_loop];
      unfold EmitAllocationConflict, EmitAllocationSuccess, EmitPoolExhausted, EmitValidationFailed, Intn; declared. }
  unfold ClaimReconciler.Reconcile, processClaimReconciliation, process_valid, EmitAllocationConflict,
    EmitAllocationSuccess, EmitValidationFailed.
  declared.
Qed.

Lemma ok_updateSubnetPhase s phase : ok (updateSubnetPhase s phase).
Proof.
  unfold updateSubnetPhase, PatchSubnetStatus. declared.
  apply OnError_calls; [done|]. intros n. unfold patch_attempt, set_phase. declared.
Qed.
Hint Resolve ok_updateSubnetPhase : declared.

Lemma ok_subnet_Reconcile req : ok (SubnetController.Reconcile req).
Proof. unfold SubnetController.Reconcile, check_parent. declared. Qed.

Lemma ok_pool_Reconcile fuel req : ok (PoolStatus.Reconcile fuel req).
Proof.
  assert (Hloop : forall n pool tok acc, ok (list_pages n pool tok acc)).
  { induction n as [|n IH]; intros; cbn [list_pages]; unfold metric_op; declared. }
  unfold PoolStatus.Reconcile, listSubnetsPaged, manualSubnetScan. declared.
  apply OnError_calls; [done|]. intros [p n]. unfold patch_pool_status. declared.
Qed.

Lemma ok_poolclaim_Reconcile req : ok (PoolClaim.Reconcile req).
Proof.
  assert (Hu : forall pc n p m, ok (report pc n p m)).
  { intros. unfold report, updatePoolClaimStatus. declared. apply OnError_calls; [done|]. intros [].
    unfold write_poolclaim_status. declared. }
  unfold PoolClaim.Reconcile, reconcilePendingClaim, reconcileBoundClaim, reconcileErrorClaim, getOwnedSubnetClaims,
    getOwnedSubnetPools, createInternalSubnetClaim, createChildPool.
  declared.
Qed.
End Reconcilers.

(** * Property *)

Section Typed.
Context `{ApiErrors, ControllerUtil, RetryLaws, ConditionUtil, RetryDefaults}.
Context {R : Type} `{CollectorRegistryLaws R}.

(** C15. The metric operations of the four reconcilers, of the mapping functions
    and of the recording functions without a caller are well typed: each one
    names a collector that the two [init] functions have registered, whose
    declaration the library accepts, with an operation it has and with as
    many label values as it has label names, so that no recording panics. *)
Theorem metrics_well_typed E (r : R) :
  (forall c, c ∈ collectors -> described r (co_name c) = None) ->
  let typed {A} (p : prog A) := calls_in E (typed_call (init (statusutil_init r))) p in
  (forall req, typed (ClaimReconciler.Reconcile req)) /\
  (forall req, typed (SubnetController.Reconcile req)) /\
  (forall fuel req, typed (PoolStatus.Reconcile fuel req)) /\
  (forall req, typed (PoolClaim.Reconcile req)) /\
  (forall obj, typed (mapSubnetToParentPool obj)) /\
  (forall obj, typed (mapPoolToSubnets obj)) /\
  (forall result, typed (RecordParentPoolReconcileDuration result)) /\
  (forall pool cidr m, typed (updateFreeBlockMetrics pool cidr m)).
Proof.
  intros Hf typed.
  assert (Hd : forall A (p : prog A), calls_in E declared_call p -> typed A p).
  { intros A p. apply calls_in_mono; [done|]. intros [] Hc; try done. by apply metric_ok_described. }
  split_and!; intros; apply Hd.
  - apply ok_claim_Reconcile.
  - apply ok_subnet_Reconcile.
  - apply ok_pool_Reconcile.
  - apply ok_poolclaim_Reconcile.
  - unfold mapSubnetToParentPool. declared.
  - unfold mapPoolToSubnets. declared.
  - apply ok_RecordParentPoolReconcileDuration.
  - apply ok_updateFreeBlockMetrics.
Qed.
End Typed.

Section Collector_runs.
Import ByReason OwnerRef FixedDelay ReplaceCondition FiveSteps NameMap.

Lemma metrics_well_typed_witness :
  calls_in any (typed_call (init (statusutil_init (∅ : gmap string collector))))
    (ClaimReconciler.Reconcile (mkKey "ns" "claim")).
Proof. apply (metrics_well_typed any (∅ : gmap string collector)). intros c _. apply lookup_empty. Defined.
End Collector_runs.
