(* ===== verification/Gauges.v ===== *)
(** [internal/controller/metrics_static.go], [recordPoolMetrics] of
    [metrics.go] and [pool_gauge_watcher.go]: the registry of free-block gauges
    and what of it is exported.  A section of code under the mutex is one
    atomic step. *)

From S2P Require Import Prelude GoFloat ApiTypes StatusCalc Predicates.

(** * The Prometheus registry *)

(** A gauge of the static family is identified by its constant labels, pool
    and size; [R] is the state of the registry, [nat] the identity of a gauge
    object. *)
Class PromRegistry (R : Type) : Type := {
  registered : R -> string * string -> option nat;
  Register : R -> string * string -> nat -> R;
  Unregister : R -> string * string -> R
}.

(** Documented behaviour: registering a collector whose descriptor is taken
    fails and changes nothing; unregistering removes the collector with the
    same descriptor. *)
Class PromRegistryLaws (R : Type) `{PromRegistry R} : Prop := {
  registered_Register r k id k' :
    registered (Register r k id) k' =
    if decide (k = k') then Some (default id (registered r k)) else registered r k';
  registered_Unregister r k k' :
    registered (Unregister r k) k' = if decide (k = k') then None else registered r k'
}.

Module MapRegistry.
#[export] Instance prom_registry : PromRegistry (gmap (string * string) nat) := {
  registered r k := r !! k;
  Register r k id := match r !! k with Some _ => r | None => <[k := id]> r end;
  Unregister r k := delete k r
}.

#[export] Instance prom_registry_laws : PromRegistryLaws (gmap (string * string) nat).
Proof.
  constructor; intros; cbn.
  - destruct (r !! k) eqn:E; destruct (decide (k = k')) as [<-|Hne]; cbn; rewrite ?E; try done.
    + by rewrite lookup_insert_eq.
    + by rewrite lookup_insert_ne.
  - destruct (decide (k = k')) as [<-|Hne]; [by rewrite lookup_delete_eq|by rewrite lookup_delete_ne].
Qed.
End MapRegistry.

(** * Model *)

(** [*StaticGauge]: the shared no-op gauge or a gauge object. *)
Inductive StaticGauge : Type :=
| nilSafeGauge
| GaugeAt (id : nat).

#[export] Instance StaticGauge_eq_dec : EqDecision StaticGauge.
Proof. solve_decision. Defined.

(** The registry's map, the Prometheus registry, the values of the gauges, and
    the values set in the two legacy vectors. *)
Record staticGaugeRegistry (R : Type) : Type := mkRegistry {
  poolToGauges : gmap string (gmap string StaticGauge);
  prom : R;
  next_id : nat;
  gauge_values : gmap nat float64;
  poolFreeGauge : gmap (string * string) float64;
  freeBlocks : gmap (string * string) float64
}.
Arguments mkRegistry {_} _ _ _ _ _ _.
Arguments poolToGauges {_} _.
Arguments prom {_} _.
Arguments next_id {_} _.
Arguments gauge_values {_} _.
Arguments poolFreeGauge {_} _.
Arguments freeBlocks {_} _.

Definition commonSizes : list string := ["24"; "28"; "20"].

Definition is_test_pool (poolName : string) : bool := String.prefix "nonexistent-pool-" poolName.

Section Model.
Context {R : Type} `{PromRegistry R}.
Implicit Types st : staticGaugeRegistry R.

Definition set_maps st (m : gmap string (gmap string StaticGauge)) : staticGaugeRegistry R :=
  mkRegistry m (prom st) (next_id st) (gauge_values st) (poolFreeGauge st) (freeBlocks st).

Definition getPoolGauge st (poolName size : string) : option StaticGauge :=
  match poolToGauges st !! poolName with
  | None => None
  | Some gauges => gauges !! size
  end.

(** Store a gauge for a size that has none yet. *)
Definition add_gauge st (poolName size : string) (gauges : gmap string StaticGauge)
    : StaticGauge * staticGaugeRegistry R :=
  if negb (bool_decide (size ∈ commonSizes))
  then (nilSafeGauge, set_maps st (<[poolName := <[size := nilSafeGauge]> gauges]> (poolToGauges st)))
  else
    let id := next_id st in
    (GaugeAt id,
     mkRegistry (<[poolName := <[size := GaugeAt id]> gauges]> (poolToGauges st))
       (Register (prom st) (poolName, size) id) (S id)
       (<[id := float_of_Z 0]> (gauge_values st)) (poolFreeGauge st) (freeBlocks st)).

(** The section under the write lock. *)
Definition register_locked st (poolName size : string) : StaticGauge * staticGaugeRegistry R :=
  match poolToGauges st !! poolName with
  | Some gauges =>
      match gauges !! size with
      | Some gauge => (gauge, st)
      | None => add_gauge st poolName size gauges
      end
  | None => add_gauge st poolName size ∅
  end.

(** The read lock saw the state [seen]; the write lock is taken at [st]. *)
Definition registerPoolGaugeForSize (seen st : staticGaugeRegistry R) (poolName size : string)
    : StaticGauge * staticGaugeRegistry R :=
  if is_test_pool poolName then (nilSafeGauge, st)
  else match getPoolGauge seen poolName size with
       | Some gauge => (gauge, st)
       | None => register_locked st poolName size
       end.

(** [metrics.Registry.Unregister(gauge.free)]; the no-op gauge is never
    registered. *)
Definition unregister_gauge (poolName : string) (p : R) (sg : string * StaticGauge) : R :=
  match sg.2 with
  | nilSafeGauge => p
  | GaugeAt _ => Unregister p (poolName, sg.1)
  end.

Definition unregisterPoolGauges st (poolName : string) : staticGaugeRegistry R :=
  match poolToGauges st !! poolName with
  | None => st
  | Some gauges =>
      mkRegistry (delete poolName (poolToGauges st))
        (foldl (unregister_gauge poolName) (prom st) (map_to_list gauges))
        (next_id st) (gauge_values st) (poolFreeGauge st) (freeBlocks st)
  end.

Definition ensurePoolGauge st (pool size : string) : StaticGauge * staticGaugeRegistry R :=
  match getPoolGauge st pool size with
  | Some gauge => (gauge, st)
  | None =>
      if is_test_pool pool then (nilSafeGauge, st)
      else registerPoolGaugeForSize st st pool size
  end.

(** The map of a pool is created if absent. *)
Definition init_pool st (poolName : string) : staticGaugeRegistry R :=
  match poolToGauges st !! poolName with
  | Some _ => st
  | None => set_maps st (<[poolName := ∅]> (poolToGauges st))
  end.

(** [order] is the order in which the map of common sizes is ranged over. *)
Definition RegisterPoolGauges (order : list string) st (poolName : string) : staticGaugeRegistry R :=
  let st := init_pool st poolName in
  let st := (registerPoolGaugeForSize st st poolName "24").2 in
  foldl (λ st size, if negb (bool_decide (size = "24"))
                    then (registerPoolGaugeForSize st st poolName size).2 else st) st order.

Definition UnregisterPoolGauges st (poolName : string) : staticGaugeRegistry R :=
  unregisterPoolGauges st poolName.

(** [g.free.Set(v)]; the no-op gauge is not exported, its value is not kept. *)
Definition set_gauge st (g : StaticGauge) (v : float64) : staticGaugeRegistry R :=
  match g with
  | nilSafeGauge => st
  | GaugeAt id => mkRegistry (poolToGauges st) (prom st) (next_id st) (<[id := v]> (gauge_values st))
                    (poolFreeGauge st) (freeBlocks st)
  end.

Definition recordPoolMetrics (useLegacyVec : bool) st (pool : SubnetPool) (sizeKey : string) (free : Z)
    : staticGaugeRegistry R :=
  let numericSizeKey := trim_slash sizeKey in
  let name := Name (pl_meta pool) in
  if useLegacyVec then
    mkRegistry (poolToGauges st) (prom st) (next_id st) (gauge_values st)
      (<[(name, numericSizeKey) := float_of_Z free]> (poolFreeGauge st))
      (<[(name, numericSizeKey) := float_of_Z free]> (<[(name, sizeKey) := float_of_Z free]> (freeBlocks st)))
  else
    let '(g, st) := ensurePoolGauge st name numericSizeKey in
    set_gauge st g (float_of_Z free).

(** ** The event handler, as a predicate with effects *)

Definition PoolGaugePredicate (order : list string) (e : watch_event) st : bool * staticGaugeRegistry R :=
  match e with
  | CreateEvent (OPool pool) => (false, RegisterPoolGauges order st (Name (pl_meta pool)))
  | DeleteEvent (OPool pool) => (false, UnregisterPoolGauges st (Name (pl_meta pool)))
  | _ => (false, st)
  end.

(** Gauges of the pools of a list; the list's error is only logged. *)
Definition RegisterAllPoolGauges (order : list string) st (pools : result (list SubnetPool))
    : staticGaugeRegistry R :=
  match pools with
  | Err _ => st
  | Ok items => foldl (λ st pool, RegisterPoolGauges order st (Name (pl_meta pool))) st items
  end.
End Model.

(** * Invariant *)

Section Invariant.
Context {R : Type} `{PromRegistryLaws R}.
Implicit Types st : staticGaugeRegistry R.

(** The gauges exported are exactly the objects of the map, each under its
    pool and size; common sizes have an object of their own, the others the
    no-op gauge. *)
Record wf st : Prop := {
  wf_exported p s id : getPoolGauge st p s = Some (GaugeAt id) <-> registered (prom st) (p, s) = Some id;
  wf_live p s id : getPoolGauge st p s = Some (GaugeAt id) ->
    (id < next_id st)%nat /\ s ∈ commonSizes /\ is_Some (gauge_values st !! id);
  wf_noop p s : getPoolGauge st p s = Some nilSafeGauge -> s ∉ commonSizes;
  wf_unique p s p' s' id : getPoolGauge st p s = Some (GaugeAt id) ->
    getPoolGauge st p' s' = Some (GaugeAt id) -> (p, s) = (p', s')
}.

(** The atomic steps of the goroutines. *)
Inductive gauge_step st : staticGaugeRegistry R -> Prop :=
| step_init p : gauge_step st (init_pool st p)
| step_register p s : gauge_step st (register_locked st p s).2
| step_unregister p : gauge_step st (unregisterPoolGauges st p)
| step_set g v : gauge_step st (set_gauge st g v)
| step_legacy pool k v : gauge_step st (recordPoolMetrics true st pool k v).

Definition gauge_steps : staticGaugeRegistry R -> staticGaugeRegistry R -> Prop := rtc gauge_step.

Lemma getPoolGauge_insert st p gs (pr : R) n v pf fb p' s' :
  getPoolGauge (mkRegistry (<[p := gs]> (poolToGauges st)) pr n v pf fb) p' s' =
  if decide (p = p') then gs !! s' else getPoolGauge st p' s'.
Proof.
  unfold getPoolGauge. cbn. destruct (decide (p = p')) as [<-|Hne].
  - by rewrite lookup_insert_eq.
  - by rewrite lookup_insert_ne.
Qed.

(** Lookup after a gauge was added. *)
Lemma getPoolGauge_add st p s gauges p' s' :
  gauges = default ∅ (poolToGauges st !! p) ->
  getPoolGauge (add_gauge st p s gauges).2 p' s' =
  if decide ((p, s) = (p', s'))
  then Some (if bool_decide (s ∈ commonSizes) then GaugeAt (next_id st) else nilSafeGauge)
  else getPoolGauge st p' s'.
Proof.
  intros ->. unfold add_gauge. destruct (bool_decide (s ∈ commonSizes)); cbn [negb snd]; unfold set_maps;
    rewrite getPoolGauge_insert; destruct (decide (p = p')) as [<-|Hp].
  2,4: rewrite decide_False by congruence; done.
  all: destruct (decide (s = s')) as [<-|Hs]; [by rewrite decide_True, lookup_insert_eq by done|];
    rewrite decide_False, lookup_insert_ne by congruence; unfold getPoolGauge;
    by destruct (poolToGauges st !! p).
Qed.

Lemma add_gauge_wf st p s gauges :
  wf st -> gauges = default ∅ (poolToGauges st !! p) -> getPoolGauge st p s = None ->
  wf (add_gauge st p s gauges).2.
Proof.
  intros Hwf Hg Hn.
  assert (Hnr : registered (prom st) (p, s) = None).
  { destruct (registered (prom st) (p, s)) eqn:E; [|done]. apply (wf_exported _ Hwf) in E. congruence. }
  assert (Hl : forall p' s', getPoolGauge (add_gauge st p s gauges).2 p' s' =
    if decide ((p, s) = (p', s'))
    then Some (if bool_decide (s ∈ commonSizes) then GaugeAt (next_id st) else nilSafeGauge)
    else getPoolGauge st p' s').
  { intros. by apply getPoolGauge_add. }
  unfold add_gauge in *. destruct (bool_decide (s ∈ commonSizes)) eqn:Ec; cbn [negb snd] in *;
    [apply bool_decide_eq_true in Ec|apply bool_decide_eq_false in Ec];
    (constructor; intros p' s'; cbn [prom next_id gauge_values set_maps]; rewrite ?Hl).
  - intros id. rewrite registered_Register, Hnr. cbn [default].
    destruct (decide ((p, s) = (p', s'))); [split; congruence|apply (wf_exported _ Hwf)].
  - intros id. destruct (decide ((p, s) = (p', s'))) as [[= <- <-]|Hne].
    + intros [= <-]. split_and!; [lia|done|by rewrite lookup_insert_eq].
    + intros (? & ? & [v Hv])%(wf_live _ Hwf). split_and!; [lia|done|]. rewrite lookup_insert_ne by lia. by exists v.
  - destruct (decide ((p, s) = (p', s'))); [done|]. apply (wf_noop _ Hwf).
  - intros p2 s2 id. rewrite Hl.
    destruct (decide ((p, s) = (p', s'))) as [?|?], (decide ((p, s) = (p2, s2))) as [?|?]; try congruence.
    + intros [= <-] (? & _ & _)%(wf_live _ Hwf). lia.
    + intros (? & _ & _)%(wf_live _ Hwf) [= <-]. lia.
    + apply (wf_unique _ Hwf).
  - intros id. destruct (decide ((p, s) = (p', s'))) as [[= <- <-]|Hne]; [|apply (wf_exported _ Hwf)].
    rewrite Hnr. split; congruence.
  - intros id. destruct (decide ((p, s) = (p', s'))) as [?|?]; [congruence|apply (wf_live _ Hwf)].
  - destruct (decide ((p, s) = (p', s'))) as [[= <- <-]|Hne]; [done|]. apply (wf_noop _ Hwf).
  - intros p2 s2 id. rewrite Hl.
    destruct (decide ((p, s) = (p', s'))) as [?|?], (decide ((p, s) = (p2, s2))) as [?|?]; try congruence.
    apply (wf_unique _ Hwf).
Qed.

(** Unregistering the gauges of a pool. *)
Lemma fold_unregister p (l : list (string * StaticGauge)) (r : R) k :
  registered (foldl (unregister_gauge p) r l) k =
  if bool_decide (k.1 = p /\ Exists (λ sg, sg.1 = k.2 /\ sg.2 <> nilSafeGauge) l) then None else registered r k.
Proof.
  revert r. induction l as [|[s g] l IH]; intros r; cbn [foldl].
  { rewrite bool_decide_eq_false_2; [done|]. intros [_ ?%Exists_nil]. done. }
  rewrite IH. unfold unregister_gauge. cbn [fst snd]. destruct k as [p' s']. cbn [fst snd].
  destruct g as [|id].
  - assert (Hiff : Exists (λ sg : string * StaticGauge, sg.1 = s' /\ sg.2 <> nilSafeGauge) ((s, nilSafeGauge) :: l) <->
      Exists (λ sg : string * StaticGauge, sg.1 = s' /\ sg.2 <> nilSafeGauge) l).
    { rewrite Exists_cons. naive_solver. }
    by rewrite (bool_decide_ext _ _ (and_iff_compat_l (p' = p) Hiff)).
  - rewrite registered_Unregister. destruct (decide ((p, s) = (p', s'))) as [[= <- <-]|Hne].
    + rewrite (bool_decide_eq_true_2 (p = p /\ Exists _ ((s, GaugeAt id) :: l))).
      * by destruct (bool_decide _).
      * split; [done|]. by apply Exists_cons; left.
    + assert (Hiff : (p' = p /\ Exists (λ sg : string * StaticGauge, sg.1 = s' /\ sg.2 <> nilSafeGauge) ((s, GaugeAt id) :: l)) <->
        (p' = p /\ Exists (λ sg : string * StaticGauge, sg.1 = s' /\ sg.2 <> nilSafeGauge) l)).
      { rewrite Exists_cons. naive_solver. }
      by rewrite (bool_decide_ext _ _ Hiff).
Qed.

(** After the gauges of a pool were unregistered, the pool has none, and the
    others are as before. *)
Lemma getPoolGauge_unregister st p p' s' :
  getPoolGauge (unregisterPoolGauges st p) p' s' = if decide (p = p') then None else getPoolGauge st p' s'.
Proof.
  unfold unregisterPoolGauges, getPoolGauge. destruct (poolToGauges st !! p) as [gs|] eqn:E; cbn.
  - destruct (decide (p = p')) as [<-|Hne]; [by rewrite lookup_delete_eq|by rewrite lookup_delete_ne].
  - destruct (decide (p = p')) as [<-|Hne]; [by rewrite E|done].
Qed.

Lemma registered_unregister st p k :
  wf st -> registered (prom (unregisterPoolGauges st p)) k = if decide (p = k.1) then None else registered (prom st) k.
Proof.
  intros Hwf. destruct k as [p' s']. cbn [fst].
  assert (Hnone : getPoolGauge st p s' = None \/ getPoolGauge st p s' = Some nilSafeGauge ->
    registered (prom st) (p, s') = None).
  { intros Hg. destruct (registered (prom st) (p, s')) eqn:E; [|done]. apply (wf_exported _ Hwf) in E.
    destruct Hg; congruence. }
  unfold unregisterPoolGauges. destruct (poolToGauges st !! p) as [gs|] eqn:E; cbn [prom].
  - rewrite fold_unregister. cbn [fst snd]. case_bool_decide as Hb.
    + destruct Hb as [-> _]. by rewrite decide_True.
    + destruct (decide (p = p')) as [<-|Hne]; [|done]. apply Hnone. unfold getPoolGauge. rewrite E.
      destruct (gs !! s') as [[|id]|] eqn:Es; [by right| |by left]. exfalso. apply Hb. split; [done|].
      apply Exists_exists. exists (s', GaugeAt id). split; [by apply elem_of_map_to_list|done].
  - destruct (decide (p = p')) as [<-|Hne]; [|done]. apply Hnone. left. unfold getPoolGauge. by rewrite E.
Qed.

Lemma unregister_wf st p : wf st -> wf (unregisterPoolGauges st p).
Proof.
  intros Hwf. assert (Hf : next_id (unregisterPoolGauges st p) = next_id st /\
    gauge_values (unregisterPoolGauges st p) = gauge_values st).
  { unfold unregisterPoolGauges. by destruct (poolToGauges st !! p). }
  destruct Hf as [Hid Hv]. constructor; intros p' s'; rewrite ?Hid, ?Hv, ?getPoolGauge_unregister.
  - intros id. rewrite registered_unregister by done. cbn [fst].
    destruct (decide (p = p')); [split; congruence|apply (wf_exported _ Hwf)].
  - intros id. destruct (decide (p = p')); [congruence|apply (wf_live _ Hwf)].
  - destruct (decide (p = p')); [congruence|apply (wf_noop _ Hwf)].
  - intros p2 s2 id. rewrite getPoolGauge_unregister.
    destruct (decide (p = p')), (decide (p = p2)); try congruence. apply (wf_unique _ Hwf).
Qed.

(** Steps that leave the gauges of the map and the registry alone. *)
Lemma wf_frame st st' :
  wf st -> (forall p s, getPoolGauge st' p s = getPoolGauge st p s) -> prom st' = prom st ->
  next_id st' = next_id st -> (forall id, is_Some (gauge_values st !! id) -> is_Some (gauge_values st' !! id)) ->
  wf st'.
Proof.
  intros Hwf Hg Hp Hn Hv. constructor; intros p s; rewrite ?Hp, ?Hn, ?Hg.
  - intros id. apply (wf_exported _ Hwf).
  - intros id (? & ? & ?)%(wf_live _ Hwf). auto.
  - apply (wf_noop _ Hwf).
  - intros p' s' id. rewrite Hg. apply (wf_unique _ Hwf).
Qed.

Lemma getPoolGauge_init st p p' s' : getPoolGauge (init_pool st p) p' s' = getPoolGauge st p' s'.
Proof.
  unfold init_pool. destruct (poolToGauges st !! p) eqn:E; [done|]. unfold set_maps.
  rewrite getPoolGauge_insert. destruct (decide (p = p')) as [<-|]; [|done].
  unfold getPoolGauge. by rewrite E, lookup_empty.
Qed.

Lemma set_gauge_wf st g v : wf st -> wf (set_gauge st g v).
Proof.
  intros Hwf. destruct g as [|i]; [done|]. apply (wf_frame st); [done..|]. intros id Hs. cbn.
  destruct (decide (i = id)) as [<-|]; [by rewrite lookup_insert_eq|by rewrite lookup_insert_ne].
Qed.

(** The locked section returns the gauge present, or adds one. *)
Lemma register_locked_cases st p s :
  register_locked st p s =
  match getPoolGauge st p s with
  | Some g => (g, st)
  | None => add_gauge st p s (default ∅ (poolToGauges st !! p))
  end.
Proof.
  unfold register_locked, getPoolGauge. destruct (poolToGauges st !! p) as [gs|]; [|done].
  by destruct (gs !! s).
Qed.

Lemma register_locked_wf st p s : wf st -> wf (register_locked st p s).2.
Proof.
  intros Hwf. rewrite register_locked_cases. destruct (getPoolGauge st p s) eqn:E; [done|]. by apply add_gauge_wf.
Qed.

Lemma gauge_step_wf st st' : wf st -> gauge_step st st' -> wf st'.
Proof.
  intros Hwf [p|p s|p|g v|pool k v].
  - unfold init_pool. destruct (poolToGauges st !! p) eqn:E; [done|].
    apply (wf_frame st); [done| |done..]. intros p' s'. rewrite <-(getPoolGauge_init st p). unfold init_pool.
    by rewrite E.
  - by apply register_locked_wf.
  - by apply unregister_wf.
  - by apply set_gauge_wf.
  - by apply (wf_frame st).
Qed.

(** [newStaticGaugeRegistry] over a Prometheus registry. *)
Definition newStaticGaugeRegistry (r : R) : staticGaugeRegistry R := mkRegistry ∅ r 0 ∅ ∅ ∅.

(** C32. Whatever the interleaving of registrations, removals and updates by any
    number of goroutines, the gauges exported are exactly those of the
    registry's map, each under its own pool and size. *)
Theorem gauge_registry_invariant (r : R) st :
  (forall k, registered r k = None) -> gauge_steps (newStaticGaugeRegistry r) st -> wf st.
Proof.
  intros Hr Hs. assert (H0' : wf (newStaticGaugeRegistry r)).
  { constructor; intros p s; unfold getPoolGauge; cbn; try done. intros id. by rewrite Hr. }
  induction Hs as [st|st1 st2 st3 H12 _ IH]; [done|]. apply IH. by eapply gauge_step_wf.
Qed.

(** The check before the write lock is only an optimisation: if no gauge seen
    under the read lock was removed before the write lock, registering gives
    what it would give without it; registering again returns the same gauge
    and changes nothing. *)
Theorem register_double_check seen st p s :
  is_test_pool p = false ->
  (forall g, getPoolGauge seen p s = Some g -> getPoolGauge st p s = Some g) ->
  let '(g, st') := registerPoolGaugeForSize seen st p s in
  (g, st') = register_locked st p s /\ getPoolGauge st' p s = Some g /\
  registerPoolGaugeForSize st' st' p s = (g, st').
Proof.
  intros Ht Hseen. unfold registerPoolGaugeForSize. rewrite Ht, register_locked_cases.
  assert (Hadd : forall gs, gs = default ∅ (poolToGauges st !! p) ->
    let '(g, st') := add_gauge st p s gs in getPoolGauge st' p s = Some g).
  { intros gs Hgs. pose proof (getPoolGauge_add st p s gs p s Hgs) as E. rewrite decide_True in E by done.
    unfold add_gauge in *. by destruct (bool_decide (s ∈ commonSizes)). }
  destruct (getPoolGauge seen p s) as [g|] eqn:E.
  - rewrite (Hseen g) by done. by split_and!.
  - destruct (getPoolGauge st p s) as [g|] eqn:E'; [by rewrite E'|].
    specialize (Hadd _ eq_refl). destruct (add_gauge st p s _) as [g st']. by rewrite Hadd.
Qed.

(** The value exported for a pool and size. *)
Definition exported st (k : string * string) : option float64 :=
  match registered (prom st) k with Some id => gauge_values st !! id | None => None end.

(** What [ensurePoolGauge] leaves exported: the others as before. *)
Lemma ensure_exported st p s g st' :
  wf st -> is_test_pool p = false -> ensurePoolGauge st p s = (g, st') ->
  wf st' /\ getPoolGauge st' p s = Some g /\ (forall k, k <> (p, s) -> exported st' k = exported st k).
Proof.
  intros Hwf Ht. unfold ensurePoolGauge, registerPoolGaugeForSize. rewrite Ht.
  destruct (getPoolGauge st p s) as [g0|] eqn:E; [by intros [= <- <-]|].
  rewrite register_locked_cases, E. set (gs := default ∅ _). intros Ha.
  assert (Hwf' : wf st') by (replace st' with (add_gauge st p s gs).2 by (by rewrite Ha); by apply add_gauge_wf).
  pose proof (getPoolGauge_add st p s gs p s eq_refl) as Hl. rewrite Ha, decide_True in Hl by done. cbn in Hl.
  assert (Hg : g = if bool_decide (s ∈ commonSizes) then GaugeAt (next_id st) else nilSafeGauge).
  { unfold add_gauge in Ha. by destruct (bool_decide (s ∈ commonSizes)); simplify_eq/=. }
  split; [done|]. split; [by rewrite Hl, Hg|]. intros [p' s'] Hk. unfold add_gauge in Ha.
  destruct (bool_decide (s ∈ commonSizes)); cbn [negb] in Ha; injection Ha as <- <-; [|done].
  unfold exported. cbn [prom gauge_values]. rewrite registered_Register, decide_False by congruence.
  destruct (registered (prom st) (p', s')) as [id|] eqn:Er; [|done].
  apply (wf_exported _ Hwf), (wf_live _ Hwf) in Er as (? & _ & _). by rewrite lookup_insert_ne by lia.
Qed.

(** Recording a free count: under a common size exactly the exported value of
    that pool and size changes, to the count; under any other size no
    exported value changes. *)
Theorem recordPoolMetrics_exports st pool sizeKey free :
  wf st -> is_test_pool (Name (pl_meta pool)) = false ->
  let st' := recordPoolMetrics false st pool sizeKey free in
  let size := trim_slash sizeKey in
  wf st' /\
  (size ∈ commonSizes -> exported st' (Name (pl_meta pool), size) = Some (float_of_Z free)) /\
  (size ∉ commonSizes -> exported st' (Name (pl_meta pool), size) = None) /\
  (forall k, k <> (Name (pl_meta pool), size) -> exported st' k = exported st k).
Proof.
  intros Hwf Ht. cbv zeta. unfold recordPoolMetrics. set (p := Name (pl_meta pool)) in *. set (s := trim_slash sizeKey).
  destruct (ensurePoolGauge st p s) as [g st1] eqn:E.
  destruct (ensure_exported st p s g st1 Hwf Ht E) as (Hwf1 & Hg & Hother).
  destruct g as [|id]; cbn [set_gauge].
  - pose proof (wf_noop _ Hwf1 _ _ Hg) as Hnc. split_and!; [done|done| |done]. intros _. unfold exported.
    destruct (registered (prom st1) (p, s)) as [id|] eqn:Er; [|done].
    apply (wf_exported _ Hwf1) in Er. congruence.
  - pose proof (wf_live _ Hwf1 _ _ _ Hg) as (_ & Hc & _). split_and!; [by apply (set_gauge_wf _ (GaugeAt id))| |done|].
    + intros _. unfold exported. cbn [prom gauge_values].
      rewrite (proj1 (wf_exported _ Hwf1 _ _ _) Hg). by rewrite lookup_insert_eq.
    + intros k Hk. rewrite <-Hother by done. unfold exported. cbn [prom gauge_values].
      destruct (registered (prom st1) k) as [id'|] eqn:Er; [|done]. destruct k as [p' s'].
      apply (wf_exported _ Hwf1) in Er. rewrite lookup_insert_ne; [done|]. intros ->.
      pose proof (wf_unique _ Hwf1 _ _ _ _ _ Hg Er). congruence.
Qed.

(** Registering keeps every value already exported. *)
Definition extends (p : string) st st' : Prop :=
  wf st' /\ (forall k v, exported st k = Some v -> exported st' k = Some v) /\
  (forall k, k.1 <> p -> exported st' k = exported st k).

Lemma extends_trans p st1 st2 st3 : extends p st1 st2 -> extends p st2 st3 -> extends p st1 st3.
Proof.
  intros (_ & Hm1 & Ho1) (Hwf & Hm2 & Ho2). split_and!; [done|auto|]. intros k Hk. rewrite Ho2, Ho1 by done. done.
Qed.

Lemma wf_exported_common st p s : wf st -> is_Some (getPoolGauge st p s) -> s ∈ commonSizes -> is_Some (exported st (p, s)).
Proof.
  intros Hwf [[|id] Hg] Hs; [by apply (wf_noop _ Hwf) in Hg|]. unfold exported.
  rewrite (proj1 (wf_exported _ Hwf _ _ _) Hg). by apply (wf_live _ Hwf) in Hg as (_ & _ & ?).
Qed.

Lemma register_extends st p s :
  wf st -> is_test_pool p = false ->
  extends p st (registerPoolGaugeForSize st st p s).2 /\
  is_Some (getPoolGauge (registerPoolGaugeForSize st st p s).2 p s).
Proof.
  intros Hwf Ht. assert (He : registerPoolGaugeForSize st st p s = ensurePoolGauge st p s).
  { unfold ensurePoolGauge, registerPoolGaugeForSize. rewrite Ht. by destruct (getPoolGauge st p s). }
  rewrite He. destruct (ensurePoolGauge st p s) as [g st'] eqn:E. cbn [snd].
  destruct (ensure_exported st p s g st' Hwf Ht E) as (Hwf' & Hg & Ho). split; [|by exists g]. split_and!; [done| |].
  - intros k v Hv. destruct (decide (k = (p, s))) as [->|Hne]; [|by rewrite Ho].
    assert (Hs : is_Some (getPoolGauge st p s)).
    { unfold exported in Hv. destruct (registered (prom st) (p, s)) as [id|] eqn:Er; [|done].
      apply (wf_exported _ Hwf) in Er. by exists (GaugeAt id). }
    destruct Hs as [g0 Hg0]. unfold ensurePoolGauge in E. rewrite Hg0 in E. by injection E as _ <-.
  - intros k Hk. apply Ho. intros ->. done.
Qed.

(** Registering the sizes of a list in turn. *)
Lemma register_sizes_extends st p (l : list string) :
  wf st -> is_test_pool p = false ->
  let st' := foldl (λ st size, if negb (bool_decide (size = "24"))
                      then (registerPoolGaugeForSize st st p size).2 else st) st l in
  extends p st st' /\ (forall s, s ∈ l -> s <> "24" -> s ∈ commonSizes -> is_Some (exported st' (p, s))).
Proof.
  intros Hwf Ht. cbv zeta. revert st Hwf. induction l as [|s l IH]; intros st Hwf; cbn [foldl].
  { split; [by split_and!|]. intros s Hs. by apply not_elem_of_nil in Hs. }
  case_bool_decide as E; cbn [negb].
  - destruct (IH st Hwf) as [He Hs]. split; [done|]. intros s' [->|?]%elem_of_cons ? ?; [done|auto].
  - destruct (register_extends st p s Hwf Ht) as [He1 Hg].
    pose proof He1 as (Hwf1 & _ & _). destruct (IH _ Hwf1) as [He2 Hs]. split; [by eapply extends_trans|].
    intros s' [->|?]%elem_of_cons ? Hc; [|auto]. destruct (wf_exported_common _ _ _ Hwf1 Hg Hc) as [v Hv].
    destruct He2 as (_ & Hm & _). exists v. by apply Hm.
Qed.

(** The life of a pool's gauges: when the pool appears, in whatever order the
    common sizes are visited, a gauge is exported for each, and all other
    exported values stay; when it is deleted, none of its gauges is exported
    any more and those of other pools stay. *)
Theorem pool_gauges_lifecycle order st p :
  wf st -> is_test_pool p = false -> order ≡ₚ commonSizes ->
  let st1 := RegisterPoolGauges order st p in
  let st2 := UnregisterPoolGauges st1 p in
  extends p st st1 /\ (forall s, s ∈ commonSizes -> is_Some (exported st1 (p, s))) /\
  wf st2 /\ (forall s, exported st2 (p, s) = None) /\ (forall k, k.1 <> p -> exported st2 k = exported st k).
Proof.
  intros Hwf Ht Ho. cbv zeta. unfold RegisterPoolGauges, UnregisterPoolGauges. set (st0 := init_pool st p).
  assert (Hwf0 : wf st0) by (eapply gauge_step_wf; [exact Hwf|constructor]).
  assert (He0 : extends p st st0).
  { split; [done|]. assert (Hx : forall k, exported st0 k = exported st k).
    { intros k. unfold st0, init_pool. by destruct (poolToGauges st !! p). }
    split; intros k; rewrite Hx; done. }
  destruct (register_extends st0 p "24" Hwf0 Ht) as [He1 Hg1]. set (st24 := (registerPoolGaugeForSize _ _ _ _).2) in *.
  pose proof He1 as (Hwf1 & _ & _). destruct (register_sizes_extends st24 p order Hwf1 Ht) as [He2 Hs2].
  set (st1 := foldl _ st24 order) in *. pose proof He2 as (Hwf2 & Hm2 & _).
  assert (He : extends p st st1) by (eapply extends_trans; [exact He0|by eapply extends_trans]).
  split_and!; [apply He..| |by apply unregister_wf| |].
  - intros s Hs. destruct (decide (s = "24")) as [->|Hne].
    + destruct (wf_exported_common _ _ _ Hwf1 Hg1 Hs) as [v Hv]. exists v. by apply Hm2.
    + apply Hs2; [by rewrite Ho|done..].
  - intros s. unfold exported. rewrite registered_unregister by done. by rewrite decide_True.
  - intros k Hk. rewrite <-(proj2 (proj2 He) k Hk). unfold exported. rewrite registered_unregister, decide_False by done.
    unfold unregisterPoolGauges. by destruct (poolToGauges st1 !! p).
Qed.
End Invariant.

(** * Witnesses *)

Section Gauge_runs.
Import MapRegistry.

Definition empty_registry : staticGaugeRegistry (gmap (string * string) nat) := newStaticGaugeRegistry ∅.

Lemma empty_registry_wf : wf empty_registry.
Proof. constructor; intros p s; unfold getPoolGauge; cbn; done. Qed.

Lemma gauge_registry_invariant_witness :
  wf (register_locked (init_pool empty_registry "pool") "pool" "24").2.
Proof.
  apply (gauge_registry_invariant (∅ : gmap (string * string) nat)); [done|].
  eapply rtc_l; [apply (step_init _ "pool")|]. eapply rtc_l; [apply (step_register _ "pool" "24")|]. apply rtc_refl.
Defined.

Lemma register_double_check_witness :
  let '(g, st') := registerPoolGaugeForSize empty_registry empty_registry "pool" "24" in
  (g, st') = register_locked empty_registry "pool" "24" /\ getPoolGauge st' "pool" "24" = Some g /\
  registerPoolGaugeForSize st' st' "pool" "24" = (g, st').
Proof. apply (register_double_check empty_registry empty_registry "pool" "24"); [reflexivity|done]. Defined.

Definition pool_named (ns name : string) : SubnetPool :=
  mkSubnetPool (new_meta name "" ns ∅) (mkSubnetPoolSpec "10.0.0.0/16" 24 0 0 "") empty_pool_status.

Lemma recordPoolMetrics_exports_witness :
  exported (recordPoolMetrics false empty_registry (pool_named "ns" "pool") "/24" 7) ("pool", "24") = Some (float_of_Z 7).
Proof.
  apply (recordPoolMetrics_exports empty_registry (pool_named "ns" "pool") "/24" 7);
    [apply empty_registry_wf|reflexivity|]. apply elem_of_cons. left. reflexivity.
Defined.

Lemma pool_gauges_lifecycle_witness :
  exported (UnregisterPoolGauges (RegisterPoolGauges commonSizes empty_registry "pool") "pool") ("pool", "28") = None.
Proof.
  apply (pool_gauges_lifecycle commonSizes empty_registry "pool"); [apply empty_registry_wf|reflexivity|reflexivity].
Defined.

(** Gauges are keyed by the name of the pool without its namespace: deleting
    one of two pools of the same name stops the export of the other's value. *)
Theorem same_name_pools_share_gauges :
  let recorded := recordPoolMetrics false (RegisterPoolGauges commonSizes empty_registry "pool")
    (pool_named "ns-a" "pool") "24" 5 in
  exported recorded ("pool", "24") = Some (float_of_Z 5) /\
  exported (PoolGaugePredicate commonSizes (DeleteEvent (OPool (pool_named "ns-b" "pool"))) recorded).2
    ("pool", "24") = None.
Proof. vm_compute. split; reflexivity. Qed.
End Gauge_runs.
