(* ===== verification/Watches.v ===== *)
(** The watches of the pool status controller ([setupPoolStatusBuilder] of
    [internal/controller/poolstatus_controller.go]): which watch events lead
    to a reconciliation of which pool. *)

From S2P Require Import Prelude ApiTypes Predicates Effects InMemory StatusCalc GoFloat Gauges Metrics.
From S2P Require Import SubnetController PoolStatus.

(** * The parts of controller-runtime it uses *)

(** A predicate that may act on the gauges. *)
Definition predicate (R : Type) : Type :=
  watch_event -> staticGaugeRegistry R -> bool * staticGaugeRegistry R.

(** [predicate.Funcs] has no effect. *)
Definition pure_predicate {R} (p : Funcs) : predicate R := λ e st, (passes p e, st).

Definition objects (e : watch_event) : list Object :=
  match e with
  | CreateEvent o | DeleteEvent o | GenericEvent o => [o]
  | UpdateEvent old new => [old; new]
  end.

(** [predicate.And] and the two event handlers. *)
Class ControllerRuntime (R : Type) : Type := {
  And : list (predicate R) -> predicate R;
  EnqueueRequestForObject : watch_event -> list NamespacedName;
  EnqueueRequestsFromMapFunc : (Object -> list NamespacedName) -> watch_event -> list NamespacedName
}.

(** Documented behaviour: the conjunction holds only if every predicate does;
    requests are those of the objects of the event, both on an update. *)
Class ControllerRuntimeLaws (R : Type) `{ControllerRuntime R} : Prop := {
  And_true ps e st : (And ps e st).1 = true -> Forall (λ p, exists st', (p e st').1 = true) ps;
  EnqueueRequestForObject_spec e k :
    k ∈ EnqueueRequestForObject e <-> exists o, o ∈ objects e /\ k = object_key (GetMeta o);
  EnqueueRequestsFromMapFunc_spec f e k :
    k ∈ EnqueueRequestsFromMapFunc f e <-> exists o, o ∈ objects e /\ k ∈ f o
}.

(** An instance: predicates are evaluated in order until one fails. *)
Module InOrder.
Fixpoint all {R} (ps : list (predicate R)) (e : watch_event) (st : staticGaugeRegistry R)
    : bool * staticGaugeRegistry R :=
  match ps with
  | [] => (true, st)
  | p :: ps => let '(b, st) := p e st in if b then all ps e st else (false, st)
  end.

#[export] Instance runtime R : ControllerRuntime R := {
  And := all;
  EnqueueRequestForObject e := (λ o, object_key (GetMeta o)) <$> objects e;
  EnqueueRequestsFromMapFunc f e := objects e ≫= f
}.

#[export] Instance runtime_laws R : ControllerRuntimeLaws R.
Proof.
  constructor.
  - intros ps e. induction ps as [|p ps IH]; intros st; cbn; [constructor|].
    destruct (p e st) as [[] st'] eqn:E; [|done]. intros Ha. constructor; [by exists st; rewrite E|by eapply IH].
  - intros e k. cbn. rewrite list_elem_of_fmap. naive_solver.
  - intros f e k. cbn. rewrite list_elem_of_bind. naive_solver.
Qed.
End InOrder.

(** * Model *)

Section Model.
Context {R : Type} `{PromRegistry R, ControllerRuntime R}.

(** The predicate of [For]; [order] is the order of the common sizes. *)
Definition for_predicate (order : list string) : predicate R :=
  And [pure_predicate PoolStatusPred; PoolGaugePredicate order].

(** Requests of one event, by the kind of its objects. *)
Definition setupPoolStatusBuilder (order : list string) (e : watch_event) (st : staticGaugeRegistry R)
    : list NamespacedName * staticGaugeRegistry R :=
  match objects e with
  | OPool _ :: _ =>
      let '(ok, st) := for_predicate order e st in
      ((if ok then EnqueueRequestForObject e else []) ++
       (if passes childPoolPredicate e then EnqueueRequestsFromMapFunc mapChildToParent e else []), st)
  | OSubnet _ :: _ => (EnqueueRequestsFromMapFunc mapAllocToPool e, st)
  | _ => ([], st)
  end.
End Model.

(** * What is reconciled *)

(** The pool a Subnet refers to. *)
Definition pool_of_subnet (s : Subnet) (k : NamespacedName) : Prop :=
  sn_PoolRef (sn_Spec s) <> "" /\ Namespace (sn_meta s) <> "" /\
  k = mkKey (Namespace (sn_meta s)) (sn_PoolRef (sn_Spec s)).

(** The pool another one names as its parent. *)
Definition parent_of_pool (p : SubnetPool) (k : NamespacedName) : Prop :=
  exists parent, Labels (pl_meta p) !! ParentLabel = Some parent /\ parent <> "" /\
    Namespace (pl_meta p) <> "" /\ k = mkKey (Namespace (pl_meta p)) parent.

Lemma mapAllocToPool_spec o k : k ∈ mapAllocToPool o <-> exists s, o = OSubnet s /\ pool_of_subnet s k.
Proof.
  unfold pool_of_subnet, mapAllocToPool.
  destruct o as [s|p|c|c]; try (split; [by intros ?%not_elem_of_nil|by intros (? & [=] & _)]).
  repeat case_bool_decide; rewrite ?list_elem_of_singleton, ?elem_of_nil; naive_solver.
Qed.

Lemma mapChildToParent_spec o k : k ∈ mapChildToParent o <-> exists p, o = OPool p /\ parent_of_pool p k.
Proof.
  unfold parent_of_pool, mapChildToParent.
  destruct o as [s|p|c|c]; try (split; [by intros ?%not_elem_of_nil|by intros (? & [=] & _)]).
  destruct (Labels (pl_meta p) !! ParentLabel) as [parent|] eqn:E; [|rewrite elem_of_nil; naive_solver].
  repeat case_bool_decide; rewrite ?list_elem_of_singleton, ?elem_of_nil; naive_solver.
Qed.

Section Proofs.
Context {R : Type} `{PromRegistry R, ControllerRuntimeLaws R}.

(** The gauge handler never passes an event on. *)
Lemma for_predicate_false order e (st : staticGaugeRegistry R) : (for_predicate order e st).1 = false.
Proof.
  destruct (for_predicate order e st).1 eqn:E; [|done]. apply And_true in E.
  apply Forall_cons_1 in E as [_ [[st' Hg] _]%Forall_cons_1].
  by destruct e as [[]|[]| |].
Qed.


(** A pool created without a parent label, or updated in its spec, leads to no
    reconciliation of the pool: [For] is filtered by a conjunction with the
    gauge handler, which refuses every event. *)
Theorem new_pool_not_reconciled order pool (st : staticGaugeRegistry R) :
  Labels (pl_meta pool) !! ParentLabel = None ->
  (setupPoolStatusBuilder order (CreateEvent (OPool pool)) st).1 = [].
Proof.
  intros Hl. unfold setupPoolStatusBuilder. cbn [objects].
  pose proof (for_predicate_false order (CreateEvent (OPool pool)) st) as Hf.
  destruct (for_predicate order (CreateEvent (OPool pool)) st) as [ok st']. cbn [fst] in Hf. subst ok.
  cbn -[bool_decide]. rewrite Hl. by rewrite bool_decide_eq_false_2 by (by intros [? ?]).
Qed.
End Proofs.

(** The mapping of the Subnet controller's watch asks for the same pool. *)
Theorem mappers_agree E obj :
  Namespace (GetMeta obj) <> "" ->
  wp E (mapSubnetToParentPool obj) [] (λ tr r, Forall quiet tr /\ r = mapAllocToPool obj).
Proof.
  intros Hns. destruct obj as [s|p|c|c]; try (by apply wp_ret). unfold mapSubnetToParentPool, mapAllocToPool.
  cbn in Hns. rewrite !(bool_decide_eq_false_2 (Namespace (sn_meta s) = "")) by done.
  case_bool_decide; [by apply wp_ret|]. cbn. intros [] _ _. split; [by apply Forall_singleton|done].
Qed.

Section Watch_runs.
Import MapRegistry InOrder.


Lemma new_pool_not_reconciled_witness :
  (setupPoolStatusBuilder commonSizes (CreateEvent (OPool (pool_named "ns" "pool"))) empty_registry).1 = [].
Proof. apply (new_pool_not_reconciled commonSizes (pool_named "ns" "pool") empty_registry). reflexivity. Defined.

Lemma mappers_agree_witness :
  wp any (mapSubnetToParentPool (OSubnet sample_subnet)) [] (λ tr r, Forall quiet tr /\ r = [mkKey "ns" "pool"]).
Proof. apply (mappers_agree any (OSubnet sample_subnet)). done. Defined.
End Watch_runs.
