(* ===== verification/Config.v ===== *)
(** [internal/config/types.go]: the settings of the controller, their defaults
    and how a file overrides them. *)

From Stdlib Require Import SpecFloat.
From S2P Require Import Prelude GoNet Bitmap GoFloat GoJson.

(** * Data *)

Record BackoffConfig : Type := mkBackoffConfig { Steps : Z; InitialMs : Z; Factor : float64; Jitter : float64 }.

Record UpdatePoolStatusConfig : Type := mkUpdatePoolStatusConfig {
  cfg_Backoff : BackoffConfig;
  AsyncTimeoutSec : Z
}.

Record IPAMConfig : Type := mkIPAMConfig { UpdatePoolStatus : UpdatePoolStatusConfig; EnablePoolClaim : bool }.

(** [wait.Backoff] with its duration in nanoseconds. *)
Record WaitBackoff : Type := mkWaitBackoff {
  wb_Steps : Z; wb_Duration : Z; wb_Factor : float64; wb_Jitter : float64
}.

(** Two's complement of 64 bits. *)
Definition int64_wrap (z : Z) : Z := (z + 2 ^ 63) mod 2 ^ 64 - 2 ^ 63.

Definition Millisecond : Z := 1000000.

(** [time.Duration(c.InitialMs) * time.Millisecond] is a product of [int64]. *)
Definition ToWaitBackoff (c : BackoffConfig) : WaitBackoff :=
  mkWaitBackoff (Steps c) (int64_wrap (InitialMs c * Millisecond)) (Factor c) (Jitter c).

(** 2.0 and the binary64 nearest to 0.2. *)
Definition DefaultIPAMConfig : IPAMConfig :=
  mkIPAMConfig (mkUpdatePoolStatusConfig
    (mkBackoffConfig 10 10 (float_of_Z 2) (S754_finite false 7205759403792794 (-55))) 3) false.

(** * Loading *)

Definition store_backoff : BackoffConfig -> json -> BackoffConfig * option error :=
  store_struct ["steps"; "initialMs"; "factor"; "jitter"] (λ i c j,
    match i with
    | 0%nat => let '(v, e) := store_int (Steps c) j in (mkBackoffConfig v (InitialMs c) (Factor c) (Jitter c), e)
    | 1%nat => let '(v, e) := store_int (InitialMs c) j in (mkBackoffConfig (Steps c) v (Factor c) (Jitter c), e)
    | 2%nat => let '(v, e) := store_float (Factor c) j in (mkBackoffConfig (Steps c) (InitialMs c) v (Jitter c), e)
    | _ => let '(v, e) := store_float (Jitter c) j in (mkBackoffConfig (Steps c) (InitialMs c) (Factor c) v, e)
    end).

Definition store_update : UpdatePoolStatusConfig -> json -> UpdatePoolStatusConfig * option error :=
  store_struct ["backoff"; "asyncTimeoutSec"] (λ i c j,
    match i with
    | 0%nat => let '(v, e) := store_backoff (cfg_Backoff c) j in (mkUpdatePoolStatusConfig v (AsyncTimeoutSec c), e)
    | _ => let '(v, e) := store_int (AsyncTimeoutSec c) j in (mkUpdatePoolStatusConfig (cfg_Backoff c) v, e)
    end).

Definition store_config : IPAMConfig -> json -> IPAMConfig * option error :=
  store_struct ["updatePoolStatus"; "enablePoolClaim"] (λ i c j,
    match i with
    | 0%nat => let '(v, e) := store_update (UpdatePoolStatus c) j in (mkIPAMConfig v (EnablePoolClaim c), e)
    | _ => let '(v, e) := store_bool (EnablePoolClaim c) j in (mkIPAMConfig (UpdatePoolStatus c) v, e)
    end).

Definition syntaxError : error := EPlain "json: syntax error".

(** [json.Unmarshal(data, config)]: the text is checked before anything is
    stored. *)
Definition Unmarshal (data : string) (config : IPAMConfig) : IPAMConfig * option error :=
  match parse_json data with
  | None => (config, Some syntaxError)
  | Some j => store_config config j
  end.

(** [data] is the result of [os.ReadFile(path)]. *)
Definition LoadFromFile (data : result string) : result IPAMConfig :=
  match data with
  | Err err => Err err
  | Ok data =>
      let config := DefaultIPAMConfig in
      match Unmarshal data config with
      | (_, Some err) => Err err
      | (config, None) => Ok config
      end
  end.

(** * Properties *)

(** The initial delay of the backoff is exact, and of the sign of the setting,
    for up to 9223372036854 milliseconds (292 years) either way; beyond that
    the product of 64-bit integers wraps around. *)
Theorem ToWaitBackoff_exact c :
  int64_range (InitialMs c) = true ->
  - 2 ^ 63 <= wb_Duration (ToWaitBackoff c) < 2 ^ 63 /\
  (wb_Duration (ToWaitBackoff c) = InitialMs c * Millisecond <-> - 9223372036854 <= InitialMs c <= 9223372036854) /\
  wb_Steps (ToWaitBackoff c) = Steps c /\ wb_Factor (ToWaitBackoff c) = Factor c /\ wb_Jitter (ToWaitBackoff c) = Jitter c.
Proof.
  destruct c as [st ms f j]. unfold int64_range, ToWaitBackoff, int64_wrap, Millisecond.
  cbn [InitialMs wb_Duration wb_Steps wb_Factor wb_Jitter Steps Factor Jitter]. intros [Hlo%Z.leb_le Hhi%Z.ltb_lt]%andb_true_iff.
  change (2 ^ 63) with 9223372036854775808 in *. change (2 ^ 64) with 18446744073709551616 in *.
  pose proof (Z.mod_pos_bound (ms * 1000000 + 9223372036854775808) 18446744073709551616 eq_refl) as Hm.
  split; [lia|]. split; [|auto]. split; [intros Heq; lia|]. intros Hb. rewrite Z.mod_small by lia. lia.
Qed.

Lemma ToWaitBackoff_exact_witness :
  wb_Duration (ToWaitBackoff (cfg_Backoff (UpdatePoolStatus DefaultIPAMConfig))) = 10 * Millisecond.
Proof. apply (ToWaitBackoff_exact (cfg_Backoff (UpdatePoolStatus DefaultIPAMConfig))); [reflexivity|cbn; lia]. Defined.

(** A store leaves alone what the members do not name. *)
Lemma store_struct_other {A B} names store (get : A -> B) (cur : A) ms :
  (forall i c j, i ∈ omap (λ m : string * json, field_of names m.1) ms -> get (store i c j).1 = get c) ->
  get (store_struct names store cur (JObj ms)).1 = get cur.
Proof.
  cbn [store_struct]. generalize (@None error) as e. revert cur.
  induction ms as [|m ms IH]; intros cur e Hs; [done|]. cbn [foldl]. cbn in Hs.
  destruct (field_of names m.1) as [i|] eqn:Ef; [|by apply IH].
  cbn [fst snd]. pose proof (Hs i cur m.2 ltac:(set_solver)) as Hi.
  destruct (store i cur m.2) as [a e'] eqn:Es. rewrite IH; [by rewrite <-Hi|]. intros i' c j Hi'. apply Hs. set_solver.
Qed.

(** Settings that a file does not mention, under any spelling of their names,
    keep their defaults: the pool claim controller stays disabled, the
    settings of the status updates are the built-in ones. *)
Theorem LoadFromFile_keeps_defaults data ms c :
  parse_json data = Some (JObj ms) -> LoadFromFile (Ok data) = Ok c ->
  ((forall m, m ∈ ms -> foldName m.1 <> foldName "enablePoolClaim") -> EnablePoolClaim c = false) /\
  ((forall m, m ∈ ms -> foldName m.1 <> foldName "updatePoolStatus") ->
     UpdatePoolStatus c = UpdatePoolStatus DefaultIPAMConfig).
Proof.
  intros Hp. unfold LoadFromFile, Unmarshal. rewrite Hp.
  destruct (store_config DefaultIPAMConfig (JObj ms)) as [c' [e|]] eqn:Es; [done|]. intros [= ->].
  assert (Hc : c = (store_config DefaultIPAMConfig (JObj ms)).1) by by rewrite Es.
  split; intros Hm; rewrite Hc; unfold store_config.
  - rewrite (store_struct_other _ _ EnablePoolClaim); [done|]. intros i c0 j (m & Hin & Hi)%list_elem_of_omap.
    apply field_of_Some in Hi as (n & Hn & Hk).
    destruct i as [|[|]]; [by destruct (store_update _ j)|injection Hn as <-|done]. by apply Hm in Hin.
  - rewrite (store_struct_other _ _ UpdatePoolStatus); [done|]. intros i c0 j (m & Hin & Hi)%list_elem_of_omap.
    apply field_of_Some in Hi as (n & Hn & Hk).
    destruct i as [|[|]]; [injection Hn as <-; by apply Hm in Hin|by destruct (store_bool _ j)|done].
Qed.
