(* ===== verification/Setup.v ===== *)
(** Start-up: [cmd/main.go], the field indexes ([init_index.go]) and the
    registration of the controllers ([RegisterControllers] and the
    [SetupWithManager] methods).  Start-up is a sequence of library calls,
    most of which may fail and end the process. *)

From S2P Require Import Prelude Bitmap ApiTypes Predicates Config Allocator.

(** * Declarations of controllers *)

Inductive kind : Type := KSubnet | KSubnetClaim | KSubnetPool | KSubnetPoolClaim.

(** The predicates the builders attach: [predicate.GenerationChangedPredicate]
    and those of the repository. *)
Inductive filter_name : Type :=
| FGenerationChanged | FSubnetEvents | FPoolStatusPred | FPoolGauge | FChildPool
| FAnd (l : list filter_name).

(** The mapping functions of [handler.EnqueueRequestsFromMapFunc]. *)
Inductive mapper : Type :=
| MSubnetToParentPool | MPoolToSubnets | MAllocToPool | MChildToParent.

Inductive source : Type :=
| For (k : kind) (preds : list filter_name)
| Owns (k : kind)
| Watches (k : kind) (m : mapper) (preds : list filter_name).

(** What is given to the builder; without [Named] the library derives a name
    from the kind of [For].  Delays of the rate limiter in seconds. *)
Record controller : Type := mkController {
  ct_Name : option string;
  ct_Sources : list source;
  ct_EventFilter : list filter_name;
  ct_MaxConcurrentReconciles : Z;
  ct_RateLimiter : Z * Z
}.

Definition MaxConcurrentReconciles : Z := 1.

(** * Start-up calls *)

Inductive tls_option : Type := disableHTTP2 | GetCertificate (certPath certName certKey : string).

(** A slice: its backing array, length and capacity. *)
Record slice : Type := mkSlice { sl_array : nat; sl_len : nat; sl_cap : nat }.

Record manager_options : Type := mkManagerOptions {
  mo_MetricsBindAddress : string;
  mo_SecureServing : bool;
  mo_FilterProvider : bool;
  mo_MetricsTLSOpts : slice;
  mo_WebhookTLSOpts : slice;
  mo_HealthProbeBindAddress : string;
  mo_PprofBindAddress : string;
  mo_LeaderElection : bool;
  mo_LeaderElectionID : string
}.

(** [None] is nil; a certificate watcher is known by what it was made of, the
    paths joined by the call; the manager is started with the options its two
    servers then find in their slices. *)
Inductive boot_call : Type :=
| BNewCertWatcher (certPath certName certKey : string)
| BGetConfig
| BGetenv (name : string)
| BNewManager (o : manager_options)
| BIndexField (k : kind) (field : string) (extract : Object -> result (list string))
| BReadFile (path : string)
| BListPools
| BComplete (c : controller)
| BAdd (certPath certName certKey : string)
| BAddHealthzCheck
| BAddReadyzCheck
| BStart (webhookTLS metricsTLS : list tls_option).

Definition boot_resp (c : boot_call) : Type :=
  match c with
  | BGetenv _ => string
  | BReadFile _ => result string
  | BListPools => result (list SubnetPool)
  | _ => option error
  end.

Inductive boot (A : Type) : Type :=
| BRet (a : A)
| BVis (c : boot_call) (k : boot_resp c -> boot A)
| Exit (code : Z).
Arguments BRet {_} _.
Arguments BVis {_} _ _.
Arguments Exit {_} _.

Fixpoint boot_bind_ {A B} (f : A -> boot B) (p : boot A) : boot B :=
  match p with
  | BRet a => f a
  | BVis c k => BVis c (λ r, boot_bind_ f (k r))
  | Exit code => Exit code
  end.

#[export] Instance boot_ret : MRet boot := @BRet.
#[export] Instance boot_bind : MBind boot := λ A B f p, boot_bind_ f p.

Definition perform (c : boot_call) : boot (boot_resp c) := BVis c BRet.

(** * Field indexes *)

Definition ParentPoolLabelIndex : string := "metadata.labels[plexaubnet.io/parent]".

(** The type assertion of the first two functions panics on another kind. *)
Definition wrong_type : error := EPlain "interface conversion".

Definition subnet_pool_ref (o : Object) : result (list string) :=
  match o with OSubnet s => Ok [sn_PoolRef (sn_Spec s)] | _ => Err wrong_type end.

Definition claim_pool_ref (o : Object) : result (list string) :=
  match o with OClaim c => Ok [cl_PoolRef (cl_Spec c)] | _ => Err wrong_type end.

Definition pool_parent_label (o : Object) : result (list string) :=
  match o with
  | OPool p => match Labels (pl_meta p) !! ParentLabel with Some parent => Ok [parent] | None => Ok [] end
  | _ => Ok []
  end.

(** The common error handler. *)
Definition handle (err : option error) : option error :=
  match err with
  | None => None
  | Some e => if str_contains (Error e) "already exists" || str_contains (Error e) "indexer conflict"
              then None else Some e
  end.

Definition SetupFieldIndexes : boot (option error) :=
  e1 ← perform (BIndexField KSubnet PoolRefField subnet_pool_ref);
  match handle e1 with
  | Some err => mret (Some err)
  | None =>
      e2 ← perform (BIndexField KSubnetClaim PoolRefField claim_pool_ref);
      match handle e2 with
      | Some err => mret (Some err)
      | None =>
          e3 ← perform (BIndexField KSubnetPool ParentPoolLabelIndex pool_parent_label);
          match handle e3 with
          | Some err => mret (Some err)
          | None => mret None
          end
      end
  end.

(** * Controllers *)

Definition rate_limiter : Z * Z := (5, 300).

(** [SetupWithManager] of the claim, the Subnet and the pool claim controller,
    by the controller name of the reconciler (empty in production). *)
Definition claim_controller (ControllerName : string) : controller :=
  let name := if bool_decide (ControllerName = "") then "subnetclaim" else ControllerName in
  mkController (Some name) [For KSubnetClaim []; Owns KSubnet] [FGenerationChanged] MaxConcurrentReconciles rate_limiter.

Definition subnet_controller (ControllerName : string) : controller :=
  let name := if bool_decide (ControllerName <> "") then ControllerName else "subnet-controller" in
  mkController (Some name)
    [For KSubnet []; Watches KSubnet MSubnetToParentPool []; Watches KSubnetPool MPoolToSubnets []]
    [FSubnetEvents] MaxConcurrentReconciles rate_limiter.

Definition poolclaim_controller : controller :=
  mkController None [For KSubnetPoolClaim []; Owns KSubnetClaim; Owns KSubnetPool] [FGenerationChanged]
    MaxConcurrentReconciles rate_limiter.

(** [setupPoolStatusBuilder] *)
Definition poolstatus_controller (controllerName : string) : controller :=
  mkController (Some controllerName)
    [For KSubnetPool [FAnd [FPoolStatusPred; FPoolGauge]]; Watches KSubnet MAllocToPool [];
     Watches KSubnetPool MChildToParent [FChildPool]]
    [] MaxConcurrentReconciles rate_limiter.

(** [SetupWithManager] of the pool status controller: the gauges of existing
    pools, the builder, and a second one under another name on a conflict. *)
Definition setup_poolstatus (ControllerName : string) : boot (option error) :=
  perform BListPools ≫= λ _,
  let controllerName := if bool_decide (ControllerName <> "") then ControllerName else "poolstatus-controller" in
  e ← perform (BComplete (poolstatus_controller controllerName));
  match e with
  | Some err =>
      if str_contains (Error err) "indexer conflict" || str_contains (Error err) "controller name conflict" then
        let fallbackName := controllerName +:+ "-fallback" in
        e ← perform (BComplete (poolstatus_controller fallbackName));
        match e with Some err => mret (Some err) | None => mret None end
      else mret (Some err)
  | None => mret None
  end.

(** The reconciler of claims, without the handles of the libraries. *)
Record CIDRAllocatorReconciler : Type := mkCIDRAllocatorReconciler { Config : IPAMConfig; ControllerName : string }.

Definition NewCIDRAllocatorReconciler (ipamConfig : IPAMConfig) (controllerName : list string) : CIDRAllocatorReconciler :=
  let name := match controllerName with n :: _ => n | [] => "" end in
  mkCIDRAllocatorReconciler ipamConfig name.

Definition RegisterControllers (ipamConfig : IPAMConfig) : boot (option error) :=
  e ← perform (BComplete (claim_controller (ControllerName (NewCIDRAllocatorReconciler ipamConfig []))));
  match e with
  | Some err => mret (Some err)
  | None =>
      e ← perform (BComplete (subnet_controller ""));
      match e with
      | Some err => mret (Some err)
      | None =>
          e ← (if EnablePoolClaim ipamConfig then perform (BComplete poolclaim_controller) else mret None);
          match e with
          | Some err => mret (Some err)
          | None =>
              e ← setup_poolstatus "";
              match e with Some err => mret (Some err) | None => mret None end
          end
      end
  end.

(** * The main function *)

(** The command line, with the defaults of [flag.StringVar] and [BoolVar]. *)
Record Flags : Type := mkFlags {
  metricsAddr : string; probeAddr : string; pprofAddr : string;
  enableLeaderElection : bool; secureMetrics : bool;
  webhookCertPath : string; webhookCertName : string; webhookCertKey : string;
  metricsCertPath : string; metricsCertName : string; metricsCertKey : string;
  enableHTTP2 : bool; ipamConfigPath : string; enablePoolClaim : bool
}.

Definition default_flags : Flags :=
  mkFlags "0" ":8081" ":6060" false true "" "tls.crt" "tls.key" "" "tls.crt" "tls.key" false "" true.

(** Backing arrays by number; array 0 is the one of the nil slice. *)
Definition arrays : Type := list (list tls_option).

Definition nil_slice : slice := mkSlice 0 0 0.

Definition slice_value (m : arrays) (s : slice) : list tls_option := take (sl_len s) (m !!! sl_array s).

Section Main.
(** The capacity that [append] allocates for a slice of the given length. *)
Context (grow : nat -> nat).

(** [append(s, x)]: in place when the capacity allows, otherwise into a new
    array. *)
Definition append (m : arrays) (s : slice) (x : tls_option) : arrays * slice :=
  if (sl_len s <? sl_cap s)%nat
  then (<[sl_array s := take (sl_len s) (m !!! sl_array s) ++ [x] ++ drop (S (sl_len s)) (m !!! sl_array s)]> m,
        mkSlice (sl_array s) (S (sl_len s)) (sl_cap s))
  else (m ++ [slice_value m s ++ [x]], mkSlice (length m) (S (sl_len s)) (grow (S (sl_len s)))).

(** A certificate watcher for a path that is set, and its option appended. *)
Definition cert_option (m : arrays) (opts : slice) (certPath certName certKey : string) : boot (arrays * slice) :=
  if bool_decide (certPath <> "") then
    e ← perform (BNewCertWatcher certPath certName certKey);
    match e with
    | Some _ => Exit 1
    | None => mret (append m opts (GetCertificate certPath certName certKey))
    end
  else mret (m, opts).

(** A step whose error ends the process. *)
Definition must (p : boot (option error)) : boot unit :=
  e ← p; match e with Some _ => Exit 1 | None => mret tt end.

(** A watcher that exists is run by the manager. *)
Definition add_watcher (certPath certName certKey : string) : boot unit :=
  if bool_decide (certPath <> "") then must (perform (BAdd certPath certName certKey)) else mret tt.

(** From the environment variable to the end. *)
Definition start_manager (f : Flags) (m : arrays) (webhookTLSOpts metricsTLSOpts : slice) : boot unit :=
  pprof ← perform (BGetenv "PPROF_ENABLE");
  let pprofAddr := if bool_decide (pprof = "false") then "" else pprofAddr f in
  must (perform (BNewManager (mkManagerOptions (metricsAddr f) (secureMetrics f) (secureMetrics f)
    metricsTLSOpts webhookTLSOpts (probeAddr f) pprofAddr (enableLeaderElection f) "5fd876f2.plexaubnet.io"))) ≫= λ _,
  must SetupFieldIndexes ≫= λ _,
  ipamConfig ← (if bool_decide (ipamConfigPath f <> "") then
                  data ← perform (BReadFile (ipamConfigPath f));
                  match LoadFromFile data with Err _ => Exit 1 | Ok c => mret c end
                else mret DefaultIPAMConfig);
  let ipamConfig := mkIPAMConfig (UpdatePoolStatus ipamConfig) (enablePoolClaim f) in
  must (RegisterControllers ipamConfig) ≫= λ _,
  add_watcher (metricsCertPath f) (metricsCertName f) (metricsCertKey f) ≫= λ _,
  add_watcher (webhookCertPath f) (webhookCertName f) (webhookCertKey f) ≫= λ _,
  must (perform BAddHealthzCheck) ≫= λ _,
  must (perform BAddReadyzCheck) ≫= λ _,
  must (perform (BStart (slice_value m webhookTLSOpts) (slice_value m metricsTLSOpts))).

Definition main (f : Flags) : boot unit :=
  let '(m, tlsOpts) := if negb (enableHTTP2 f) then append [[]] nil_slice disableHTTP2 else ([[]], nil_slice) in
  '(m, webhookTLSOpts) ← cert_option m tlsOpts (webhookCertPath f) (webhookCertName f) (webhookCertKey f);
  '(m, metricsTLSOpts) ← cert_option m tlsOpts (metricsCertPath f) (metricsCertName f) (metricsCertKey f);
  must (perform BGetConfig) ≫= λ _,
  start_manager f m webhookTLSOpts metricsTLSOpts.
End Main.

(** * Runs *)

Record boot_event : Type := BEv { be_call : boot_call; be_resp : boot_resp be_call }.

(** Every run ends, with a value or an exit code, as [Q] says. *)
Fixpoint every {A} (p : boot A) (tr : list boot_event) (Q : list boot_event -> A + Z -> Prop) : Prop :=
  match p with
  | BRet a => Q tr (inl a)
  | BVis c k => forall r, every (k r) (tr ++ [BEv c r]) Q
  | Exit code => Q tr (inr code)
  end.

Lemma every_bind {A B} (p : boot A) (f : A -> boot B) tr Q :
  every p tr (λ tr' o, match o with inl a => every (f a) tr' Q | inr code => Q tr' (inr code) end) ->
  every (p ≫= f) tr Q.
Proof.
  revert tr. induction p as [a|c k IH|code]; intros tr Hp; cbn in *; [done| |done]. intros r. apply IH, Hp.
Qed.

Lemma every_mono {A} (p : boot A) tr (Q Q' : list boot_event -> A + Z -> Prop) :
  every p tr Q -> (forall tr' o, Q tr' o -> Q' tr' o) -> every p tr Q'.
Proof.
  intros Hp HQ. revert tr Hp. induction p as [a|c k IH|code]; intros tr Hp; cbn in *; eauto.
Qed.

(** The conflict that leads to a second attempt. *)
Definition name_conflict (e : error) : bool :=
  str_contains (Error e) "indexer conflict" || str_contains (Error e) "controller name conflict".

(** A response that ends the process. *)
Definition fatal (e : boot_event) : bool :=
  match e with
  | BEv (BGetenv _) _ | BEv BListPools _ => false
  | BEv (BReadFile _) r => negb (is_ok (LoadFromFile r))
  | BEv (BIndexField _ _ _) r => bool_decide (handle r <> None)
  | BEv (BComplete c) (Some e) =>
      negb (bool_decide (ct_Name c = Some "poolstatus-controller") && name_conflict e)
  | BEv (BComplete _) None => false
  | BEv (BNewCertWatcher _ _ _) r | BEv BGetConfig r | BEv (BNewManager _) r | BEv (BAdd _ _ _) r
  | BEv BAddHealthzCheck r | BEv BAddReadyzCheck r | BEv (BStart _ _) r => bool_decide (r <> None)
  end.

Definition starts (e : boot_event) : bool := match be_call e with BStart _ _ => true | _ => false end.

(** Goes on, and does not yet start the manager. *)
Definition fine (e : boot_event) : Prop := fatal e = false /\ starts e = false.

(** Controllers completed, and indexes asked for, in order. *)
Definition completed (tr : list boot_event) : list controller :=
  omap (λ e, match e with BEv (BComplete c) None => Some c | _ => None end) tr.
Definition indexed (tr : list boot_event) : list (kind * string) :=
  omap (λ e, match be_call e with BIndexField k f _ => Some (k, f) | _ => None end) tr.

Definition stopped (tr : list boot_event) (o : Z) : Prop :=
  o = 1 /\ exists tr0 e, tr = tr0 ++ [e] /\ Forall fine tr0 /\ fatal e = true.

(** A part of the start-up, with values that report an error: from a trace
    without a fatal response it goes on, with what [post] says of its own
    calls, or it exits or reports an error right after a fatal response. *)
Definition part {A} (bad : A -> bool) (p : boot A) (post : list boot_event -> A -> Prop) : Prop :=
  forall tr, Forall fine tr ->
    every p tr (λ tr' o, match o with
                         | inl a => if bad a then stopped tr' 1
                                    else exists ext, tr' = tr ++ ext /\ Forall fine ext /\ post ext a
                         | inr code => stopped tr' code
                         end).

Definition never {A} (_ : A) : bool := false.
Definition failed (e : option error) : bool := match e with Some _ => true | None => false end.

(** What follows an error passes it on. *)
Definition passes_on {A} (bad : A -> bool) (p : boot A) : Prop :=
  p = Exit 1 \/ exists a, p = BRet a /\ bad a = true.

Lemma part_ret {A} (bad : A -> bool) a (post : list boot_event -> A -> Prop) :
  bad a = false -> post [] a -> part bad (mret a) post.
Proof. intros Hb Hp tr Htr. cbn. rewrite Hb. exists []. rewrite app_nil_r. by split_and!. Qed.

Lemma part_bind {A B} (bad : A -> bool) (bad' : B -> bool) (p : boot A) (f : A -> boot B) post post' :
  part bad p post -> (forall a, bad a = true -> passes_on bad' (f a)) ->
  (forall ext a, bad a = false -> post ext a -> part bad' (f a) (λ ext' b, post' (ext ++ ext') b)) ->
  part bad' (p ≫= f) post'.
Proof.
  intros Hp Hbad Hf tr Htr. apply every_bind. eapply every_mono; [by apply Hp|].
  intros tr' [a|code]; [|done]. destruct (bad a) eqn:Eb.
  - intros Hs. destruct (Hbad a Eb) as [->|(b & -> & Hb)]; cbn; [done|by rewrite Hb].
  - intros (ext & -> & Hext & Ha).
    eapply every_mono; [apply (Hf ext a Eb Ha); by apply Forall_app|]. intros tr' [b|code]; [|done].
    destruct (bad' b); [done|]. intros (ext' & -> & Hext' & Hb). exists (ext ++ ext'). rewrite app_assoc.
    split_and!; [done|by apply Forall_app|done].
Qed.

Lemma part_call {A} (bad : A -> bool) c (k : boot_resp c -> boot A) (post : list boot_event -> A -> Prop) :
  (forall r, starts (BEv c r) = false) ->
  (forall r, fatal (BEv c r) = true -> passes_on bad (k r)) ->
  (forall r, fatal (BEv c r) = false -> part bad (k r) (λ ext a, post (BEv c r :: ext) a)) ->
  part bad (perform c ≫= k) post.
Proof.
  intros Hs Hf Hk tr Htr. cbn. intros r. destruct (fatal (BEv c r)) eqn:E.
  - assert (Hst : stopped (tr ++ [BEv c r]) 1) by (split; [done|]; by exists tr, (BEv c r)).
    destruct (Hf r E) as [->|(a & -> & Ha)]; cbn; [done|by rewrite Ha].
  - eapply every_mono; [apply (Hk r E); apply Forall_app; split; [done|apply Forall_singleton; by split]|].
    intros tr' [a|code]; [|done]. destruct (bad a); [done|].
    intros (ext & -> & Hext & Ha). exists (BEv c r :: ext). rewrite <-app_assoc.
    split_and!; [done| |done]. constructor; [by split|done].
Qed.

Lemma part_mono {A} (bad : A -> bool) (p : boot A) post post' :
  part bad p post -> (forall ext a, post ext a -> post' ext a) -> part bad p post'.
Proof.
  intros Hp Hq tr Htr. eapply every_mono; [by apply Hp|]. intros tr' [a|code]; [|done].
  destruct (bad a); [done|]. naive_solver.
Qed.

Lemma part_must p post : part failed p (λ ext _, post ext tt) -> part never (must p) post.
Proof.
  intros Hp. eapply part_bind; [exact Hp| |].
  - intros [e|]; [by left|done].
  - intros ext [e|] Hb Hx; [done|]. apply part_ret; [done|]. by rewrite app_nil_r.
Qed.


(** * The parts *)

(** Decide the response of the first call of a part. *)
Ltac boot_step :=
  apply part_call; [by intros ?| |]; (let r := fresh "r" in let H := fresh "Hr" in intros r H).

(** Names of the indexes. *)
Definition index_names : list (kind * string) :=
  [(KSubnet, PoolRefField); (KSubnetClaim, PoolRefField); (KSubnetPool, ParentPoolLabelIndex)].

Lemma SetupFieldIndexes_part :
  part failed SetupFieldIndexes (λ ext _, completed ext = [] /\ indexed ext = index_names).
Proof.
  assert (Hh : forall (o : option error), bool_decide (handle o <> None) = true -> exists e, handle o = Some e).
  { intros o Ho%bool_decide_eq_true. destruct (handle o); [eauto|done]. }
  assert (Hn : forall (o : option error), bool_decide (handle o <> None) = false -> handle o = None).
  { intros o Ho%bool_decide_eq_false. destruct (handle o); [exfalso; by apply Ho|done]. }
  unfold SetupFieldIndexes.
  boot_step; [destruct (Hh r Hr) as [e ->]; right; eauto|]. rewrite (Hn r Hr).
  boot_step; [destruct (Hh r0 Hr0) as [e ->]; right; eauto|]. rewrite (Hn r0 Hr0).
  boot_step; [destruct (Hh r1 Hr1) as [e ->]; right; eauto|]. rewrite (Hn r1 Hr1).
  by apply part_ret.
Qed.

Lemma cert_option_part grow m opts p n k :
  part never (cert_option grow m opts p n k)
    (λ ext r, completed ext = [] /\ indexed ext = [] /\
              r = if bool_decide (p <> "") then append grow m opts (GetCertificate p n k) else (m, opts)).
Proof.
  unfold cert_option. case_bool_decide; [|by apply part_ret].
  boot_step; destruct r as [e|]; try done; [by left|]. by apply part_ret.
Qed.

Lemma add_watcher_part p n k :
  part never (add_watcher p n k) (λ ext _, completed ext = [] /\ indexed ext = []).
Proof.
  unfold add_watcher. case_bool_decide; [|by apply part_ret]. apply part_must.
  replace (perform (BAdd p n k)) with (perform (BAdd p n k) ≫= λ r, mret r) by done.
  boot_step; destruct r as [e|]; try done; [right; eauto|]. by apply part_ret.
Qed.

(** The controllers of a configuration; the last one under either name. *)
Definition controllers (poolClaim : bool) (last : string) : list controller :=
  [claim_controller ""; subnet_controller ""] ++ (if poolClaim then [poolclaim_controller] else []) ++
  [poolstatus_controller last].

Lemma setup_poolstatus_part :
  part failed (setup_poolstatus "") (λ ext _, indexed ext = [] /\
    exists name, completed ext = [poolstatus_controller name] /\
      (name = "poolstatus-controller" \/ name = "poolstatus-controller-fallback")).
Proof.
  unfold setup_poolstatus. boot_step; [done|].
  change (bool_decide ("" <> "")) with false. cbv beta iota zeta.
  boot_step.
  - destruct r0 as [e|]; [|done]. cbn -[str_contains] in Hr0. apply negb_true_iff in Hr0. unfold name_conflict in Hr0.
    change (bool_decide (Some "poolstatus-controller" = Some "poolstatus-controller")) with true in Hr0.
    cbn [andb] in Hr0. rewrite Hr0. right; eauto.
  - destruct r0 as [e|]; cbn -[str_contains] in Hr0.
    + apply negb_false_iff in Hr0. apply andb_true_iff in Hr0 as [_ Hc]. unfold name_conflict in Hc. rewrite Hc.
      boot_step; destruct r0 as [e'|]; try done; [right; eauto|]. apply part_ret; [done|]. eauto.
    + apply part_ret; [done|]. eauto.
Qed.

Lemma completed_app tr1 tr2 : completed (tr1 ++ tr2) = completed tr1 ++ completed tr2.
Proof. apply omap_app. Qed.
Lemma indexed_app tr1 tr2 : indexed (tr1 ++ tr2) = indexed tr1 ++ indexed tr2.
Proof. apply omap_app. Qed.

Lemma RegisterControllers_part c :
  part failed (RegisterControllers c) (λ ext _, indexed ext = [] /\
    exists last, completed ext = controllers (EnablePoolClaim c) last /\
      (last = "poolstatus-controller" \/ last = "poolstatus-controller-fallback")).
Proof.
  unfold RegisterControllers. cbn [ControllerName NewCIDRAllocatorReconciler].
  boot_step; destruct r as [e|]; try done; [right; eauto|].
  boot_step; destruct r as [e|]; try done; [right; eauto|].
  apply (part_bind failed _ _ _ (λ ext _, indexed ext = [] /\
    completed ext = if EnablePoolClaim c then [poolclaim_controller] else [])).
  - destruct (EnablePoolClaim c); [|by apply part_ret].
    replace (perform (BComplete poolclaim_controller)) with (perform (BComplete poolclaim_controller) ≫= λ r, mret r) by done.
    boot_step; destruct r as [e|]; try done; [right; eauto|]. by apply part_ret.
  - intros [e|]; [right; eauto|done].
  - intros ext [e|] Hb [Hi Hc]; [done|]. eapply part_bind; [apply setup_poolstatus_part| |].
    + intros [e|]; [right; eauto|done].
    + intros ext' [e|] Hb' (Hi' & last & Hc' & Hl); [done|]. apply part_ret; [done|].
      rewrite app_nil_r. cbn. fold (completed (ext ++ ext')) (indexed (ext ++ ext')).
      rewrite completed_app, indexed_app, Hi, Hi', Hc, Hc'. split; [done|]. exists last. by destruct (EnablePoolClaim c).
Qed.

(** The options of a server with its own certificate. *)
Definition own_tls (f : Flags) (p n k : string) : list tls_option :=
  (if enableHTTP2 f then [] else [disableHTTP2]) ++ (if bool_decide (p <> "") then [GetCertificate p n k] else []).

Definition webhook_tls (f : Flags) : list tls_option := own_tls f (webhookCertPath f) (webhookCertName f) (webhookCertKey f).
Definition metrics_tls (f : Flags) : list tls_option := own_tls f (metricsCertPath f) (metricsCertName f) (metricsCertKey f).

(** The slices after both appends. *)
Definition tls_slices (grow : nat -> nat) (f : Flags) : arrays * slice * slice :=
  let '(m, o) := if negb (enableHTTP2 f) then append grow [[]] nil_slice disableHTTP2 else ([[]], nil_slice) in
  let '(m, w) := if bool_decide (webhookCertPath f <> "")
                 then append grow m o (GetCertificate (webhookCertPath f) (webhookCertName f) (webhookCertKey f)) else (m, o) in
  let '(m, t) := if bool_decide (metricsCertPath f <> "")
                 then append grow m o (GetCertificate (metricsCertPath f) (metricsCertName f) (metricsCertKey f)) else (m, o) in
  (m, w, t).

(** With the capacity that fits one option exactly, the servers' slices do not
    share the slot after the common prefix. *)
Lemma tls_slices_own grow f :
  grow 1%nat = 1%nat -> let '(m, w, t) := tls_slices grow f in
  slice_value m w = webhook_tls f /\ slice_value m t = metrics_tls f.
Proof.
  intros Hg. unfold tls_slices, webhook_tls, metrics_tls, own_tls.
  destruct (enableHTTP2 f); cbn [negb]; unfold append; cbn -[bool_decide]; rewrite ?Hg; cbn -[bool_decide];
    destruct (bool_decide (webhookCertPath f <> "")), (bool_decide (metricsCertPath f <> "")); done.
Qed.

(** The capacity matters: with room for a second option both servers append to
    the same slot, and the webhook server would present the certificate of
    the metrics server. *)
Theorem spare_capacity_mixes_certificates grow f :
  (2 <= grow 1)%nat -> enableHTTP2 f = false -> webhookCertPath f <> "" -> metricsCertPath f <> "" ->
  let '(m, w, t) := tls_slices grow f in
  slice_value m w = [disableHTTP2; GetCertificate (metricsCertPath f) (metricsCertName f) (metricsCertKey f)].
Proof.
  intros Hg H2 Hw Hm. unfold tls_slices. rewrite H2, (bool_decide_eq_true_2 _ Hw), (bool_decide_eq_true_2 _ Hm).
  unfold append. cbn. by destruct (grow 1%nat) as [|[|n]]; try lia.
Qed.

(** A piece of the trace without a completed controller or an index. *)
Definition same_obs (ext : list boot_event) : Prop := completed ext = [] /\ indexed ext = [].

(** A checked call without a bearing on controllers and indexes. *)
Ltac must_call c :=
  apply part_must; replace (perform c) with (perform c ≫= λ r, mret r) by done;
  boot_step; match goal with r : boot_resp _ |- _ => destruct r as [?|]; try done end;
  [right; eauto|]; by apply part_ret.

Lemma GetConfig_part : part never (must (perform BGetConfig)) (λ ext _, same_obs ext).
Proof. must_call BGetConfig. Qed.
Lemma NewManager_part o : part never (must (perform (BNewManager o))) (λ ext _, same_obs ext).
Proof. must_call (BNewManager o). Qed.
Lemma Healthz_part : part never (must (perform BAddHealthzCheck)) (λ ext _, same_obs ext).
Proof. must_call BAddHealthzCheck. Qed.
Lemma Readyz_part : part never (must (perform BAddReadyzCheck)) (λ ext _, same_obs ext).
Proof. must_call BAddReadyzCheck. Qed.

Lemma load_part f :
  part never (if bool_decide (ipamConfigPath f <> "") then
                data ← perform (BReadFile (ipamConfigPath f));
                match LoadFromFile data with Err _ => Exit 1 | Ok c => mret c end
              else mret DefaultIPAMConfig) (λ ext _, same_obs ext).
Proof.
  case_bool_decide; [|by apply part_ret]. boot_step; cbn [fatal] in *;
    match goal with H : negb (is_ok ?x) = _ |- _ => destruct x; try done end; [by left|]. by apply part_ret.
Qed.

(** The last call, and what the whole start-up promises. *)
Definition started (grow : nat -> nat) (f : Flags) (tr : list boot_event) : Prop :=
  exists tr0 w t, tr = tr0 ++ [BEv (BStart w t) None] /\ Forall fine tr0 /\
    indexed tr0 = index_names /\
    (exists last, completed tr0 = controllers (enablePoolClaim f) last /\
       (last = "poolstatus-controller" \/ last = "poolstatus-controller-fallback")) /\
    (grow 1%nat = 1%nat -> w = webhook_tls f /\ t = metrics_tls f).

Lemma every_part {A B} (p : boot A) (f : A -> boot B) post tr (Q : list boot_event -> B + Z -> Prop) :
  part never p post -> (forall tr' code, stopped tr' code -> Q tr' (inr code)) -> Forall fine tr ->
  (forall ext a, post ext a -> Forall fine (tr ++ ext) -> every (f a) (tr ++ ext) Q) -> every (p ≫= f) tr Q.
Proof.
  intros Hp Hs Htr Hf. apply every_bind. eapply every_mono; [by apply Hp|].
  intros tr' [a|code]; [|auto]. cbn. intros (ext & -> & Hext & Ha). apply Hf; [done|]. by apply Forall_app.
Qed.

