(* ===== verification/Scheme.v ===== *)
(** Registration of the API types: the group version and the scheme builder
    of [api/v1alpha1/groupversion_info.go], the [init] functions of the four
    type files, [init] of [cmd/main.go] and [NewTestScheme] of
    [internal/controller/test_helpers.go].  The scheme and its builder belong
    to libraries, and are a class with the documented laws. *)

From S2P Require Import Prelude ApiTypes Setup Effects.

(** * The libraries *)

Record GroupVersion : Type := mkGroupVersion { Group : string; Version : string }.

#[export] Instance GroupVersion_eq_dec : EqDecision GroupVersion.
Proof. solve_decision. Defined.

#[export] Instance kind_eq_dec : EqDecision kind.
Proof. solve_decision. Defined.

(** The Go type of a registered object: a kind or the list of that kind. *)
Inductive api_object : Type := Item (k : kind) | ListOf (k : kind).

#[export] Instance api_object_eq_dec : EqDecision api_object.
Proof. solve_decision. Defined.

(** [scheme.Builder] of controller-runtime, [runtime.Scheme] of apimachinery
    and the scheme package of client-go. *)
Class SchemeLib (builder scheme : Type) : Type := {
  NewBuilder : GroupVersion -> builder;
  Register : builder -> list api_object -> builder;
  Builder_AddToScheme : builder -> scheme -> scheme * option error;
  NewScheme : scheme;
  clientgo_AddToScheme : scheme -> scheme * option error;
  Recognizes : scheme -> GroupVersion -> api_object -> bool
}.

(** The builder collects what it is given and adds all of it, under its group
    version, to a scheme, which loses nothing; neither does a scheme to which
    client-go adds its types. *)
Class SchemeLaws (builder scheme : Type) `{SchemeLib builder scheme} : Type := {
  collected : builder -> GroupVersion * list api_object;
  collected_new gv : collected (NewBuilder gv) = (gv, []);
  collected_register b l : collected (Register b l) = ((collected b).1, (collected b).2 ++ l);
  add_known b s s' o :
    Builder_AddToScheme b s = (s', None) -> o ∈ (collected b).2 -> Recognizes s' (collected b).1 o = true;
  add_keeps b s s' gv o :
    Builder_AddToScheme b s = (s', None) -> Recognizes s gv o = true -> Recognizes s' gv o = true;
  clientgo_keeps s s' gv o :
    clientgo_AddToScheme s = (s', None) -> Recognizes s gv o = true -> Recognizes s' gv o = true
}.

(** * The repository *)

Definition groupVersion : GroupVersion := mkGroupVersion "plexaubnet.io" "v1alpha1".

Section Registration.
Context {builder scheme : Type} `{SchemeLib builder scheme}.

(** The initial value of the package variable, a pointer. *)
Definition newSchemeBuilder : builder := NewBuilder groupVersion.

Definition init_subnet (b : builder) : builder := Register b [Item KSubnet; ListOf KSubnet].
Definition init_claim (b : builder) : builder := Register b [Item KSubnetClaim; ListOf KSubnetClaim].
Definition init_pool (b : builder) : builder := Register b [Item KSubnetPool; ListOf KSubnetPool].
Definition init_poolclaim (b : builder) : builder := Register b [Item KSubnetPoolClaim; ListOf KSubnetPoolClaim].

(** After the [init] functions of the package, in the order of the files. *)
Definition SchemeBuilder : builder := init_poolclaim (init_pool (init_claim (init_subnet newSchemeBuilder))).

(** The method value is bound to the pointer, so a call made after the [init]
    functions sees what they registered. *)
Definition AddToScheme (s : scheme) : scheme * option error := Builder_AddToScheme SchemeBuilder s.

(** [utilruntime.Must] panics with the error. *)
Definition Must (r : scheme * option error) : result scheme :=
  match r with (s, None) => Ok s | (_, Some e) => Err e end.

(** [init] of [cmd/main.go] on the global scheme. *)
Definition main_init (s : scheme) : result scheme :=
  match Must (clientgo_AddToScheme s) with
  | Err e => Err e
  | Ok s => match Must (AddToScheme s) with
            | Err e => Err e
            | Ok s => Ok s
            end
  end.

Definition NewTestScheme : result scheme :=
  let s := NewScheme in
  match Must (clientgo_AddToScheme s) with
  | Err e => Err e
  | Ok s => match Must (AddToScheme s) with
            | Err e => Err e
            | Ok s => Ok s
            end
  end.

(** The Go type the client looks up in the scheme for a call. *)
Definition call_object (c : call) : option api_object :=
  match c with
  | CGetSubnet _ | CCreateSubnet _ | CStatusPatchSubnet _ _ => Some (Item KSubnet)
  | CGetPool _ | CCreatePool _ | CStatusPatchPool _ _ => Some (Item KSubnetPool)
  | CGetClaim _ | CCreateClaim _ | CStatusUpdateClaim _ => Some (Item KSubnetClaim)
  | CGetPoolClaim _ | CStatusUpdatePoolClaim _ => Some (Item KSubnetPoolClaim)
  | CListSubnets _ => Some (ListOf KSubnet)
  | CListClaims _ => Some (ListOf KSubnetClaim)
  | CListPools _ => Some (ListOf KSubnetPool)
  | _ => None
  end.

Context `{!SchemeLaws builder scheme}.

Lemma collected_SchemeBuilder :
  collected SchemeBuilder =
    (groupVersion, [Item KSubnet; ListOf KSubnet; Item KSubnetClaim; ListOf KSubnetClaim;
                    Item KSubnetPool; ListOf KSubnetPool; Item KSubnetPoolClaim; ListOf KSubnetPoolClaim]).
Proof.
  unfold SchemeBuilder, init_poolclaim, init_pool, init_claim, init_subnet, newSchemeBuilder.
  by rewrite !collected_register, collected_new.
Qed.

Lemma AddToScheme_knows s s' o : AddToScheme s = (s', None) -> Recognizes s' groupVersion o = true.
Proof.
  intros Ha. pose proof collected_SchemeBuilder as Hc.
  replace groupVersion with (collected SchemeBuilder).1 by (by rewrite Hc).
  apply (add_known _ s); [exact Ha|]. rewrite Hc. cbn [snd]. destruct o as [[]|[]]; set_solver.
Qed.

(** If the process gets past its [init] functions, the scheme knows every
    kind the controllers watch and own, with its list, and every object the
    reconcilers pass to the client, and still knows what it knew; the scheme
    of the tests does so too. *)
Theorem scheme_complete s s' :
  main_init s = Ok s' ->
  (forall c, c ∈ controllers true "poolstatus-controller" -> forall src, src ∈ ct_Sources c ->
     let k := match src with For k _ | Owns k | Watches k _ _ => k end in
     Recognizes s' groupVersion (Item k) = true /\ Recognizes s' groupVersion (ListOf k) = true) /\
  (forall c o, call_object c = Some o -> Recognizes s' groupVersion o = true) /\
  (forall gv o, Recognizes s gv o = true -> Recognizes s' gv o = true) /\
  NewTestScheme = main_init NewScheme.
Proof.
  unfold main_init. destruct (clientgo_AddToScheme s) as [s1 [e1|]] eqn:E1; [done|].
  cbn [Must]. destruct (AddToScheme s1) as [s2 [e2|]] eqn:E2; [done|]. intros [= <-].
  pose proof (λ o, AddToScheme_knows s1 s2 o E2) as Hk.
  split_and!; [auto|auto| |done].
  intros gv o Ho. by eapply add_keeps, clientgo_keeps.
Qed.
End Registration.

(** * A scheme *)

(** Builder and scheme as the lists of what they hold; client-go's own types
    are not among the kinds here. *)
#[local] Instance list_scheme : SchemeLib (GroupVersion * list api_object) (list (GroupVersion * api_object)) := {
  NewBuilder gv := (gv, []);
  Register b l := (b.1, b.2 ++ l);
  Builder_AddToScheme b s := (s ++ map (pair b.1) b.2, None);
  NewScheme := [];
  clientgo_AddToScheme s := (s, None);
  Recognizes s gv o := bool_decide ((gv, o) ∈ s)
}.

#[local] Instance list_scheme_laws : SchemeLaws (GroupVersion * list api_object) (list (GroupVersion * api_object)).
Proof.
  refine {| collected := λ b, b |}; try done; cbn.
  - intros b s s' o [= <-] Ho. apply bool_decide_eq_true, elem_of_app. right. by apply list_elem_of_fmap_2.
  - intros b s s' gv o [= <-] Ho%bool_decide_eq_true. apply bool_decide_eq_true, elem_of_app. by left.
  - by intros s s' gv o [= <-].
Defined.

Definition sample_scheme : list (GroupVersion * api_object) :=
  map (pair groupVersion) [Item KSubnet; ListOf KSubnet; Item KSubnetClaim; ListOf KSubnetClaim;
                           Item KSubnetPool; ListOf KSubnetPool; Item KSubnetPoolClaim; ListOf KSubnetPoolClaim].

Lemma scheme_complete_witness :
  main_init [] = Ok sample_scheme /\ Recognizes sample_scheme groupVersion (ListOf KSubnet) = true.
Proof.
  assert (H : main_init [] = Ok sample_scheme) by reflexivity. split; [exact H|].
  exact (proj1 (proj2 (scheme_complete [] sample_scheme H)) (CListSubnets (mkListOptions "" [] 0 "")) _ eq_refl).
Defined.
