(* ===== verification/DebugScan.v ===== *)
(** [internal/controller/manual_scan_debug.go]: the check of the pool reference
    index that the debug build runs before every calculation of a pool's
    status, and the agreement of the index with it. *)

From S2P Require Import Prelude ApiTypes Predicates Effects InMemory Allocator ClaimStatus Pager PoolStatus Config Setup.

(** * Model *)

(** All Subnets of the namespace are listed without the index; the matches
    are counted.  An error of the list is logged and counts as none. *)
Definition manualSubnetScan_debug (pool : SubnetPool) : prog Z :=
  l ← do_call (CListSubnets (mkListOptions (Namespace (pl_meta pool)) [] 0 ""));
  match l with
  | Err _ => mret 0
  | Ok (items, _) =>
      mret (foldl (λ manualMatchCount subnet,
        if bool_decide (sn_PoolRef (sn_Spec subnet) = Name (pl_meta pool)) then manualMatchCount + 1
        else manualMatchCount) 0 items)
  end.

(** * The index *)

(** What a cache with the registered index functions returns for a field
    selector: the objects for which the function gives the value. *)
Definition indexed_list (extract : Object -> result (list string)) (v : string) (all : list Subnet) : list Subnet :=
  filter (λ s, match extract (OSubnet s) with Ok vs => bool_decide (v ∈ vs) | Err _ => false end = true) all.

Lemma count_matches (P : Subnet -> bool) (l : list Subnet) n :
  foldl (λ c s, if P s then c + 1 else c) n l = n + Z.of_nat (length (filter (λ s, P s = true) l)).
Proof.
  revert n. induction l as [|s l IH]; intros n; cbn [foldl]; [rewrite filter_nil; cbn; lia|].
  rewrite IH, filter_cons. destruct (P s) eqn:E.
  - rewrite decide_True by done. cbn. lia.
  - rewrite decide_False by congruence. lia.
Qed.

(** The debug count is the number of Subnets that the index registered at
    start-up returns for the pool, whatever Subnets the namespace holds: the
    scan and the list the status is calculated from can only disagree when
    the two reads see different states. *)
Theorem debug_scan_agrees_with_index pool items next :
  wp (λ c, match c with CListSubnets _ => λ r, r = Ok (items, next) | _ => λ _, True end)
    (manualSubnetScan_debug pool) []
    (λ tr n, n = Z.of_nat (length (indexed_list subnet_pool_ref (Name (pl_meta pool)) items)) /\
             Forall (λ e, match ev_call e with
                          | CListSubnets o => lo_Fields o = [] /\ lo_Namespace o = Namespace (pl_meta pool)
                          | _ => False end) tr).
Proof.
  cbn. intros r _ ->. cbn. split; [|by apply Forall_singleton]. rewrite count_matches, Z.add_0_l. f_equal. f_equal.
  unfold indexed_list. apply list_filter_iff. intros s. cbn.
  rewrite !bool_decide_eq_true, list_elem_of_singleton. naive_solver.
Qed.
