(* ===== verification/Events.v ===== *)
(** From watch events to reconciliations, for the four controllers as they are
    declared at start-up ([Setup.v]): which request an event leads to, and
    what follows for the interplay of the controllers. *)

From S2P Require Import Prelude ApiTypes Predicates Effects InMemory StatusCalc GoFloat Gauges Metrics Allocator.
From S2P Require Import ClaimStatus ClaimReconciler SubnetController PoolStatus PoolClaim Watches Config Setup.

(** * The parts of controller-runtime *)

Definition kind_of (o : Object) : kind :=
  match o with
  | OSubnet _ => KSubnet | OPool _ => KSubnetPool | OClaim _ => KSubnetClaim | OPoolClaim _ => KSubnetPoolClaim
  end.

#[export] Instance kind_eq_dec : EqDecision kind.
Proof. solve_decision. Defined.

Definition kind_name (k : kind) : string :=
  match k with
  | KSubnet => "Subnet" | KSubnetClaim => "SubnetClaim" | KSubnetPool => "SubnetPool"
  | KSubnetPoolClaim => "SubnetPoolClaim"
  end.

(** [metav1.GetControllerOf] *)
Definition controller_of (m : ObjectMeta) : option OwnerReference :=
  snd <$> list_find (λ r, or_Controller r = true) (OwnerReferences m).

Class EventHandlers : Type := {
  GenerationChanged : watch_event -> bool;
  request_for_object : watch_event -> list NamespacedName;
  request_for_owner : kind -> watch_event -> list NamespacedName;
  requests_from_map : (Object -> prog (list NamespacedName)) -> watch_event -> prog (list NamespacedName)
}.

(** Documented behaviour: the predicate refuses updates that keep the
    generation; the handlers ask for the objects of the event, for their
    controlling owners of the given kind, or for what the function returns
    for them. *)
Class EventHandlersLaws `{EventHandlers} : Prop := {
  GenerationChanged_spec e :
    GenerationChanged e = match e with UpdateEvent o n => negb (GetGeneration o =? GetGeneration n) | _ => true end;
  request_for_object_spec e k :
    k ∈ request_for_object e <-> exists o, o ∈ objects e /\ k = object_key (GetMeta o);
  request_for_owner_spec kd e k :
    k ∈ request_for_owner kd e <-> exists o ref, o ∈ objects e /\ controller_of (GetMeta o) = Some ref /\
      or_Kind ref = kind_name kd /\ k = mkKey (Namespace (GetMeta o)) (or_Name ref)
}.

(** * Interpretation of the declarations *)

Section Model.
Context `{EventHandlers}.

(** The gauge handler, a predicate with effects, refuses every event. *)
Fixpoint filter_passes (f : filter_name) (e : watch_event) : bool :=
  match f with
  | FGenerationChanged => GenerationChanged e
  | FSubnetEvents => passes SubnetEvents e
  | FPoolStatusPred => passes PoolStatusPred e
  | FPoolGauge => false
  | FChildPool => passes childPoolPredicate e
  | FAnd l => forallb (λ f, filter_passes f e) l
  end.

Definition run_mapper (m : mapper) (o : Object) : prog (list NamespacedName) :=
  match m with
  | MSubnetToParentPool => mapSubnetToParentPool o
  | MPoolToSubnets => mapPoolToSubnets o
  | MAllocToPool => mret (mapAllocToPool o)
  | MChildToParent => mret (mapChildToParent o)
  end.

(** The requests of one source; [owner] is the kind of [For]. *)
Definition source_requests (owner : kind) (s : source) (e : watch_event) : prog (list NamespacedName) :=
  let of_kind k := forallb (λ o, bool_decide (kind_of o = k)) (objects e) in
  match s with
  | For k preds => if of_kind k && forallb (λ f, filter_passes f e) preds then mret (request_for_object e) else mret []
  | Owns k => if of_kind k then mret (request_for_owner owner e) else mret []
  | Watches k m preds =>
      if of_kind k && forallb (λ f, filter_passes f e) preds then requests_from_map (run_mapper m) e else mret []
  end.

Definition reconciled_kind (c : controller) : kind :=
  match ct_Sources c with For k _ :: _ => k | _ => KSubnet end.

(** The filters of [WithEventFilter] apply to every source. *)
Definition enqueued (c : controller) (e : watch_event) : prog (list NamespacedName) :=
  if forallb (λ f, filter_passes f e) (ct_EventFilter c) then
    rs ← foldr (λ s p, r ← source_requests (reconciled_kind c) s e; rs ← p; mret (r ++ rs)) (mret []) (ct_Sources c);
    mret rs
  else mret [].
End Model.

(** An instance of the handlers. *)
Module PlainHandlers.
#[export] Instance handlers : EventHandlers := {
  GenerationChanged e := match e with UpdateEvent o n => negb (GetGeneration o =? GetGeneration n) | _ => true end;
  request_for_object e := (λ o, object_key (GetMeta o)) <$> objects e;
  request_for_owner kd e := objects e ≫= λ o,
    match controller_of (GetMeta o) with
    | Some ref => if bool_decide (or_Kind ref = kind_name kd) then [mkKey (Namespace (GetMeta o)) (or_Name ref)] else []
    | None => []
    end;
  requests_from_map f e := foldr (λ o p, r ← f o; rs ← p; mret (r ++ rs)) (mret []) (objects e)
}.

#[export] Instance handlers_laws : EventHandlersLaws.
Proof.
  constructor.
  - done.
  - intros e k. cbn. rewrite list_elem_of_fmap. naive_solver.
  - intros kd e k. cbn. rewrite list_elem_of_bind. split.
    + intros (o & Hk & Ho). destruct (controller_of (GetMeta o)) as [ref|] eqn:E; [|by apply elem_of_nil in Hk].
      case_bool_decide; [|by apply elem_of_nil in Hk]. apply list_elem_of_singleton in Hk. eauto 10.
    + intros (o & ref & Ho & Hr & Hk & ->). exists o. rewrite Hr, bool_decide_eq_true_2 by done. set_solver.
Qed.
End PlainHandlers.

(** * Which events lead to which requests *)

(** An event that is not an update of the same generation. *)
Definition changes (e : watch_event) : Prop :=
  match e with UpdateEvent o n => GetGeneration o <> GetGeneration n | _ => True end.

(** The event is about objects of one kind. *)
Definition about (e : watch_event) (kd : kind) : Prop := forall o, o ∈ objects e -> kind_of o = kd.

Definition asks_object (e : watch_event) (k : NamespacedName) : Prop :=
  exists o, o ∈ objects e /\ k = object_key (GetMeta o).

Definition asks_owner (owner : kind) (e : watch_event) (k : NamespacedName) : Prop :=
  exists o ref, o ∈ objects e /\ controller_of (GetMeta o) = Some ref /\ or_Kind ref = kind_name owner /\
    k = mkKey (Namespace (GetMeta o)) (or_Name ref).

Section Proofs.
Context `{EventHandlersLaws}.

Lemma GenerationChanged_true e : GenerationChanged e = true <-> changes e.
Proof.
  rewrite GenerationChanged_spec. destruct e; cbn; try done. rewrite negb_true_iff, Z.eqb_neq. done.
Qed.

Lemma of_kind_spec e kd k :
  about e kd -> forallb (λ o, bool_decide (kind_of o = k)) (objects e) = bool_decide (kd = k).
Proof.
  intros Ha. assert (Hne : exists o l, objects e = o :: l) by (destruct e; cbn; eauto).
  destruct Hne as (o & l & Ho). apply eq_true_iff_eq. rewrite forallb_forall, bool_decide_eq_true. split.
  - intros Hk. specialize (Hk o). rewrite bool_decide_eq_true, Ho in Hk. rewrite <-(Ha o) by (rewrite Ho; set_solver).
    apply Hk. by left.
  - intros -> x Hx%list_elem_of_In. apply bool_decide_eq_true. by apply Ha.
Qed.

(** A controller that watches its own kind and owned kinds, filtered by
    generation. *)
Lemma owned_requests_gen c kd owned e kd' :
  ct_Sources c = For kd [] :: (Owns <$> owned) -> ct_EventFilter c = [FGenerationChanged] -> about e kd' ->
  exists rs, enqueued c e = mret rs /\
    forall k, k ∈ rs <-> changes e /\ ((kd' = kd /\ asks_object e k) \/ (kd' ∈ owned /\ asks_owner kd e k)).
Proof.
  intros Hs Hf Ha. unfold enqueued. rewrite Hf. cbn [forallb filter_passes]. rewrite andb_true_r.
  destruct (GenerationChanged e) eqn:Eg; cycle 1.
  { exists []. split; [done|]. intros k. rewrite elem_of_nil. split; [done|]. intros [Hc%GenerationChanged_true _]. congruence. }
  apply GenerationChanged_true in Eg. unfold reconciled_kind. rewrite Hs. cbn [foldr].
  assert (Ho : forall owned, exists rs, foldr (λ s p, r ← source_requests kd s e; rs ← p; mret (r ++ rs)) (mret [])
      (Owns <$> owned) = mret rs /\ forall k, k ∈ rs <-> kd' ∈ owned /\ asks_owner kd e k).
  { clear Hs. induction owned0 as [|ow l IH]; [exists []; split; [done|set_solver]|]. destruct IH as (rs & Hrs & Hk).
    cbn [fmap list_fmap foldr]. rewrite Hrs. cbn [source_requests]. rewrite (of_kind_spec e kd') by done.
    case_bool_decide as Hd; eexists; (split; [reflexivity|]); intros k; rewrite elem_of_app, Hk, ?elem_of_nil,
      ?request_for_owner_spec, elem_of_cons; unfold asks_owner; naive_solver. }
  destruct (Ho owned) as (rs & -> & Hk). cbn [source_requests forallb]. rewrite (of_kind_spec e kd') by done.
  rewrite andb_true_r.
  case_bool_decide as Hd; eexists; (split; [reflexivity|]); intros k;
    rewrite elem_of_app, Hk, ?elem_of_nil, ?request_for_object_spec; unfold asks_object; naive_solver.
Qed.

(** The claim controller and the pool claim controller, as declared at
    start-up: an event asks for the object itself when it is of the
    controller's kind, and for the controlling owner when the object is of a
    kind the controller owns; updates that leave the generation alone ask for
    nothing. *)
Theorem owned_requests c e kd :
  c ∈ [claim_controller ""; poolclaim_controller] -> about e kd ->
  exists rs, enqueued c e = mret rs /\
    forall k, k ∈ rs <-> changes e /\
      ((kd = reconciled_kind c /\ asks_object e k) \/ (Owns kd ∈ ct_Sources c /\ asks_owner (reconciled_kind c) e k)).
Proof.
  assert (Hown : forall l kd0, Owns kd ∈ For kd0 [] :: (Owns <$> l) <-> kd ∈ l).
  { intros l kd0. rewrite elem_of_cons, list_elem_of_fmap. naive_solver. }
  intros [->|[->|[]%elem_of_nil]%elem_of_cons]%elem_of_cons Ha.
  - destruct (owned_requests_gen (claim_controller "") KSubnetClaim [KSubnet] e kd) as (rs & He & Hk); [done..|].
    exists rs. split; [done|]. intros k. rewrite Hk. cbn [reconciled_kind claim_controller ct_Sources]. by rewrite <-(Hown [KSubnet] KSubnetClaim).
  - destruct (owned_requests_gen poolclaim_controller KSubnetPoolClaim [KSubnetClaim; KSubnetPool] e kd) as (rs & He & Hk); [done..|].
    exists rs. split; [done|]. intros k. rewrite Hk. cbn [reconciled_kind poolclaim_controller ct_Sources].
    by rewrite <-(Hown [KSubnetClaim; KSubnetPool] KSubnetPoolClaim).
Qed.

(** A write of a status is no reason to reconcile anything: not for the claim,
    the Subnet or the pool claim controller. *)
Lemma status_update_ignored c old new :
  c ∈ [claim_controller ""; subnet_controller ""; poolclaim_controller] -> status_only old new ->
  enqueued c (UpdateEvent old new) = mret [].
Proof.
  intros Hc Hs. assert (Hg : GetGeneration old = GetGeneration new).
  { unfold GetGeneration. destruct old, new; cbn in *; try done; by destruct Hs as [-> _]. }
  assert (Hgc : GenerationChanged (UpdateEvent old new) = false).
  { rewrite GenerationChanged_spec, Hg, Z.eqb_refl. done. }
  unfold enqueued. assert (Hf : forallb (λ f, filter_passes f (UpdateEvent old new)) (ct_EventFilter c) = false).
  { apply elem_of_cons in Hc as [->|[->|[->|[]%elem_of_nil]%elem_of_cons]%elem_of_cons];
      cbn [ct_EventFilter claim_controller subnet_controller poolclaim_controller forallb filter_passes].
    - by rewrite Hgc.
    - unfold passes, SubnetEvents. cbn [UpdateFunc]. by rewrite Hg, Z.eqb_refl.
    - by rewrite Hgc. }
  by rewrite Hf.
Qed.
End Proofs.

(** * Waiting for an internal claim *)

(** A claim of which the pool claim controller can make nothing yet. *)
Definition undecided (c : SubnetClaim) : Prop :=
  let st := cl_Status c in
  (cl_Phase st <> ClaimBound /\ cl_Phase st <> ClaimError) \/ (cl_Phase st = ClaimBound /\ cl_AllocatedCIDR st = "").

(** The server returns this pool claim and these claims. *)
Definition pending_env (pc : SubnetPoolClaim) (items : list SubnetClaim) : env := λ c,
  match c with
  | CGetPoolClaim _ => λ r, r = Ok pc
  | CListClaims _ => λ r, exists next, r = Ok (items, next)
  | _ => λ _, True
  end.

Section Polling.
Context `{EventHandlersLaws}.
Context `{ApiErrors, Retry, RetryDefaults, ControllerUtil}.

(** While the internal claim of a pool claim is undecided, the pool claim is
    reconciled again after five seconds, without an error and without a
    write.  This is what makes progress: the status write that decides the
    internal claim does not by itself lead to a reconciliation of the pool
    claim, because the events of owned claims are filtered by generation. *)
Theorem internal_claim_polled req pc items claim rest :
  actionable pc -> undecided claim ->
  filter (λ c, isOwnedBy (cl_meta c) (pc_meta pc) = true) items = claim :: rest ->
  wp (pending_env pc items) (PoolClaim.Reconcile req) []
    (λ tr r, r = (requeue_after PoolClaimRequeueMs, None) /\ writes_of tr = []) /\
  forall decided, cl_meta decided = cl_meta claim -> cl_Spec decided = cl_Spec claim ->
    enqueued poolclaim_controller (UpdateEvent (OClaim claim) (OClaim decided)) = mret [].
Proof.
  intros [Hdel Hph] Hund Hown. split; cycle 1.
  { intros decided Hm Hs. apply status_update_ignored; [by repeat constructor|]. cbn. by split. }
  assert (Hpend : wp (pending_env pc items) (reconcilePendingClaim pc) [Ev (CGetPoolClaim req) (Ok pc)]
    (λ tr r, r = (requeue_after PoolClaimRequeueMs, None) /\ writes_of tr = [])).
  { unfold reconcilePendingClaim, getOwnedSubnetClaims. cbn. intros r _ (next & ->). cbn -[bool_decide].
    rewrite Hown. cbn -[bool_decide]. destruct Hund as [[Hb He]|[Hb Hc]].
    - case_bool_decide; [done|]. rewrite (bool_decide_eq_false_2 _ Hb), (bool_decide_eq_false_2 _ He). done.
    - rewrite Hb, Hc. done. }
  unfold PoolClaim.Reconcile. cbn -[bool_decide reconcilePendingClaim]. intros r _ ->. cbn -[bool_decide reconcilePendingClaim].
  rewrite Hdel. change (bool_decide (@None Z <> None)) with false. cbn [negb].
  assert (Hnb : bool_decide (pc_Phase (pc_Status pc) = PoolClaimBound) = false).
  { apply bool_decide_eq_false. destruct Hph as [->|[->|[-> _]]]; done. }
  rewrite Hnb, andb_false_r. destruct Hph as [->|[->|[-> Hg]]].
  - exact Hpend.
  - exact Hpend.
  - change (bool_decide (PoolClaimError = "") || bool_decide (PoolClaimError = PoolClaimPending)) with false.
    change (bool_decide (PoolClaimError = PoolClaimError)) with true. cbv iota.
    rewrite (proj2 (Z.eqb_neq _ _) Hg). exact Hpend.
Qed.
End Polling.

(** * A deleted Subnet *)

Section Event_runs.
Import ByReason OwnerRef FixedDelay ReplaceCondition FiveSteps PlainHandlers.

Lemma owned_requests_witness :
  exists rs, enqueued (claim_controller "") (DeleteEvent (OSubnet (mkSubnet
      (mkObjectMeta "s" "" "ns" "" 1 ∅ [] [mkOwnerReference "SubnetClaim" "claim" "" true] None)
      (sn_Spec sample_subnet) (sn_Status sample_subnet)))) = mret rs /\ mkKey "ns" "claim" ∈ rs.
Proof.
  destruct (owned_requests (claim_controller "") (DeleteEvent (OSubnet (mkSubnet
      (mkObjectMeta "s" "" "ns" "" 1 ∅ [] [mkOwnerReference "SubnetClaim" "claim" "" true] None)
      (sn_Spec sample_subnet) (sn_Status sample_subnet)))) KSubnet) as (rs & He & Hk).
  - apply elem_of_cons. left. reflexivity.
  - intros o Ho. apply list_elem_of_singleton in Ho as ->. reflexivity.
  - exists rs. split; [exact He|]. apply Hk. split; [exact I|]. right.
    split; [apply elem_of_cons; right; apply elem_of_cons; left; reflexivity|].
    do 2 eexists. split; [apply elem_of_cons; left; reflexivity|]. split; [vm_compute; reflexivity|]. split; reflexivity.
Defined.

Definition waiting_claim : SubnetClaim :=
  mkSubnetClaim (mkObjectMeta "pc-x" "" "ns" "" 1 ∅ [] [mkOwnerReference "SubnetPoolClaim" "pc" "uid" true] None)
    (mkSubnetClaimSpec "pool" "uid" 28 "") (mkSubnetClaimStatus 0 "" "" "" []).
Definition waiting_pc : SubnetPoolClaim :=
  mkSubnetPoolClaim (mkObjectMeta "pc" "" "ns" "uid" 1 ∅ [] [] None) (mkSubnetPoolClaimSpec "pool" 28)
    (mkSubnetPoolClaimStatus 0 "" "" "" []).

Lemma internal_claim_polled_witness :
  wp (pending_env waiting_pc [waiting_claim]) (PoolClaim.Reconcile (mkKey "ns" "pc")) []
    (λ tr r, r = (requeue_after PoolClaimRequeueMs, None) /\ writes_of tr = []).
Proof.
  refine (proj1 (internal_claim_polled (mkKey "ns" "pc") waiting_pc [waiting_claim] waiting_claim [] _ _ _)).
  - split; [reflexivity|]. left. reflexivity.
  - left. split; vm_compute; intros [=].
  - vm_compute. reflexivity.
Defined.

(** One reconciliation of a claim against the in-memory server. *)
Definition after_reconcile (s : store) (k : NamespacedName) : store :=
  (exec serve (ClaimReconciler.Reconcile k) s []).1.2.

Definition claim_named (name cluster : string) : SubnetClaim :=
  mkSubnetClaim (new_meta name "" "ns" ∅) (mkSubnetClaimSpec "pool" cluster 26 "") (mkSubnetClaimStatus 0 "" "" "" []).

Definition two_claims : store :=
  mkStore ∅ {[mkKey "ns" "pool" := sample_pool]}
    (<[mkKey "ns" "a" := claim_named "a" "cluster-a"]> {[mkKey "ns" "b" := claim_named "b" "cluster-b"]}) ∅.

Definition without_subnet (s : store) (k : NamespacedName) : store :=
  mkStore (delete k (st_subnets s)) (st_pools s) (st_claims s) (st_poolclaims s).

Definition claim_state (s : store) (k : NamespacedName) : option (string * string * string) :=
  (λ c, (cl_ClusterID (cl_Spec c), cl_Phase (cl_Status c), cl_AllocatedCIDR (cl_Status c))) <$> st_claims s !! k.

(** C21. A Subnet that is deleted while its claim is Bound: the deletion event does
    ask for the claim, but a Bound claim is not looked at any further, so it
    stays Bound to a CIDR that is free again; the next claim is given the
    same CIDR, and two claims of different clusters are Bound to one block. *)
Theorem deleted_subnet_reassigned :
  let s1 := after_reconcile two_claims (mkKey "ns" "a") in
  let s2 := without_subnet s1 (mkKey "ns" "pool-10-0-0-0-26") in
  let s3 := after_reconcile s2 (mkKey "ns" "a") in
  let s4 := after_reconcile s3 (mkKey "ns" "b") in
  (exists subnet, st_subnets s1 !! mkKey "ns" "pool-10-0-0-0-26" = Some subnet /\
     enqueued (claim_controller "") (DeleteEvent (OSubnet subnet)) = mret [mkKey "ns" "a"]) /\
  claim_state s3 (mkKey "ns" "a") = claim_state s2 (mkKey "ns" "a") /\
  claim_state s4 (mkKey "ns" "a") = Some ("cluster-a", ClaimBound, "10.0.0.0/26") /\
  claim_state s4 (mkKey "ns" "b") = Some ("cluster-b", ClaimBound, "10.0.0.0/26").
Proof.
  intros s1 s2 s3 s4. split.
  - eexists. split; [vm_compute; reflexivity|]. vm_compute. reflexivity.
  - repeat match goal with |- _ /\ _ => split end; vm_compute; reflexivity.
Qed.
End Event_runs.
