(* ===== verification/StaleReads.v ===== *)
(** Runs of the four controllers in which a cache lags behind or a user edits
    a spec: what the code does not guarantee.  Every state shown is reached by
    the system of [System.v]. *)

From S2P Require Import Prelude ApiTypes Predicates MergePatch Effects InMemory GoFloat Metrics Gauges History.
From S2P Require Import ClaimStatus PoolClaim PoolStatus SubnetController System Watches.
Import ByReason OwnerRef FixedDelay ReplaceCondition FiveSteps Current MapRegistry InOrder.

(** * A cache that lags behind *)

(** Single objects are read from an old state; the clock is given. *)
Definition serve_lagging (old : store) (clock : Z) : server := λ c,
  match c with
  | CGetSubnet k => λ st, (lookup_obj (st_subnets old) k, (st.1, st.1 :: st.2))
  | CGetPool k => λ st, (lookup_obj (st_pools old) k, (st.1, st.1 :: st.2))
  | CNow => λ st, (clock, (st.1, st.1 :: st.2))
  | c => serve_hist c
  end.

Lemma old_got {A} (f : store -> gmap NamespacedName A) old h k : old ∈ h -> got f h k (lookup_obj (f old) k).
Proof. intros Ho. unfold lookup_obj. destruct (f old !! k) as [x|] eqn:E; [|done]. by exists old. Qed.

Lemma serve_lagging_keeps old clock : keeps (λ st, old ∈ st.1 :: st.2) (serve_lagging old clock).
Proof.
  intros c now before Ho. cbn [fst snd] in Ho.
  assert (Ho' : forall s, old ∈ s :: now :: before) by (intros s; by apply elem_of_cons; right).
  destruct c.
  1-2: cbn; split_and!; [apply Ho'|done|done|by left|apply old_got, Ho'].
  all: match goal with |- context [serve_lagging _ _ ?c] =>
    pose proof (serve_hist_keeps c now before I) as Hg;
    try change (serve_lagging old clock c (now, before)) with (serve_hist c (now, before)) end.
  17: cbn; by split_and!; [apply Ho'| | |left|].
  all: destruct (serve_hist _ _) as [r [s' b']]; destruct Hg as (_ & Hb & ? & ? & ?); cbn in *; subst; by split_and!.
Qed.

Lemma reached_lagging i old clock o st :
  (st.1 :: st.2) !! i = Some old -> returns_on (serve_lagging old clock) o st = true -> reached st ->
  reached (run_on (serve_lagging old clock) o st).
Proof.
  intros Ho%list_elem_of_lookup_2. by apply (reached_run_on (λ st, old ∈ st.1 :: st.2)); [apply serve_lagging_keeps|].
Qed.

(** The state after a step of a user. *)
Definition by_user (f : store -> store) (st : store * history) : store * history := (f st.1, st.1 :: st.2).

Lemma reached_by_user f st : user_step st.1 (f st.1) -> reached st -> reached (by_user f st).
Proof. apply reached_user. Qed.

(** ** The status of a pool *)

Definition subnet_of (name cidr cluster : string) : Subnet :=
  mkSubnet (new_meta name "" "ns" ∅) (mkSubnetSpec "pool" cidr cluster (mkClaimReference "" "")) (mkSubnetStatus "" None).

Definition add_pool (s : store) : store := set_pools s (<[mkKey "ns" "pool" := sample_pool]> (st_pools s)).
Definition add_subnet (name cidr cluster : string) (s : store) : store :=
  set_subnets s (<[mkKey "ns" name := subnet_of name cidr cluster]> (st_subnets s)).
Definition remove_subnet (name : string) (s : store) : store :=
  set_subnets s (delete (mkKey "ns" name) (st_subnets s)).

Definition with_a : store * history :=
  by_user (add_subnet "a" "10.0.0.0/26" "cluster-a") (by_user add_pool (empty_store, [])).
(** The pool counts Subnet [a]; then [a] is replaced by [b]. *)
Definition a_counted : store * history := run (RunPool 2 (mkKey "ns" "pool")) with_a.
Definition b_for_a : store * history :=
  by_user (add_subnet "b" "10.0.0.64/26" "cluster-b") (by_user (remove_subnet "a") a_counted).
(** The pool is read as it was before [a] was counted. *)
Definition mixed : store * history := run_on (serve_lagging with_a.1 0) (RunPool 2 (mkKey "ns" "pool")) b_for_a.
Definition repaired : store * history := run (RunPool 2 (mkKey "ns" "pool")) mixed.

Definition pool_state (st : store * history) : option (Z * list (string * string)) :=
  (λ p, (pl_AllocatedCount (pl_Status p), map_to_list (pl_AllocatedCIDRs (pl_Status p)))) <$>
    (st_pools st.1 !! mkKey "ns" "pool").

(** The requests that the change of the pool between two states leads to. *)
Definition pool_requests (st st' : store * history) : option (list NamespacedName) :=
  p ← st_pools st.1 !! mkKey "ns" "pool"; q ← st_pools st'.1 !! mkKey "ns" "pool";
  Some (setupPoolStatusBuilder commonSizes (UpdateEvent (OPool p) (OPool q)) empty_registry).1.

Lemma with_a_reached : reached with_a.
Proof.
  apply reached_by_user; [by apply (user_subnet _ (subnet_of "a" "10.0.0.0/26" "cluster-a"))|].
  apply reached_by_user; [by apply (user_pool empty_store sample_pool)|apply reached_empty].
Qed.

Lemma mixed_reached : reached mixed /\ reached repaired.
Proof.
  assert (H1 : reached b_for_a).
  { apply reached_by_user; [by apply (user_subnet _ (subnet_of "b" "10.0.0.64/26" "cluster-b"))|].
    apply reached_by_user; [apply delete_subnet|]. apply reached_run; [vm_compute; reflexivity|apply with_a_reached]. }
  assert (H2 : reached mixed) by (apply (reached_lagging 10); [reflexivity|vm_compute; reflexivity|exact H1]).
  split; [exact H2|]. apply reached_run; [vm_compute; reflexivity|exact H2].
Qed.

(** C23. A merge patch from a stale pool mixes two statuses: a state is reached in
    which the pool counts one allocation and lists two, one of a Subnet that
    is gone.  The write leads to no reconciliation; the next one, whenever it
    comes, repairs the status. *)
Theorem stale_patch_mixes_status :
  reached mixed /\ st_subnets mixed.1 !! mkKey "ns" "a" = None /\
  pool_state mixed = Some (1, [("10.0.0.64/26", "cluster-b"); ("10.0.0.0/26", "cluster-a")]) /\
  pool_requests b_for_a mixed = Some [] /\
  reached repaired /\ pool_state repaired = Some (1, [("10.0.0.64/26", "cluster-b")]).
Proof.
  destruct mixed_reached as [H1 H2]. split; [exact H1|]. split; [vm_compute; reflexivity|].
  split; [vm_compute; reflexivity|]. split; [vm_compute; reflexivity|]. split; [exact H2|vm_compute; reflexivity].
Qed.

(** ** The time of allocation *)

Definition allocated_first : store * history := run_on (serve_lagging with_a.1 100) (RunSubnet (mkKey "ns" "a")) with_a.
Definition allocated_again : store * history :=
  run_on (serve_lagging with_a.1 200) (RunSubnet (mkKey "ns" "a")) allocated_first.

Definition time_of (st : store * history) : option (option Z) :=
  (λ s, sn_AllocatedAt (sn_Status s)) <$> (st_subnets st.1 !! mkKey "ns" "a").

(** C25. Read from a lagging cache, a Subnet still seems to have no phase, and its
    time of allocation is overwritten. *)
Theorem stale_read_moves_allocation_time :
  reached allocated_first /\ time_of allocated_first = Some (Some 100) /\
  reached allocated_again /\ time_of allocated_again = Some (Some 200).
Proof.
  assert (H1 : reached allocated_first)
    by (apply (reached_lagging 0); [reflexivity|vm_compute; reflexivity|apply with_a_reached]).
  split; [exact H1|]. split; [vm_compute; reflexivity|]. split; [|vm_compute; reflexivity].
  apply (reached_lagging (length allocated_first.2 - 2)); [reflexivity|vm_compute; reflexivity|exact H1].
Qed.

(** * An edited spec *)

(** The parent of the pool claim is changed after its internal claim was
    bound. *)
Definition edit_parent (s : store) : store :=
  set_poolclaims s (<[mkKey "ns" "pc" :=
    mkSubnetPoolClaim (mkObjectMeta "pc" "" "ns" "uid-pc" 2 ∅ [] [] None) (mkSubnetPoolClaimSpec "other" 28)
      (mkSubnetPoolClaimStatus 0 "" "" "" [])]> (st_poolclaims s)).

Definition edited : store * history := by_user edit_parent claim_bound.
Definition mislabelled : store * history := run (RunPoolClaim (mkKey "ns" "pc")) edited.

(** Pool references of all Subnets that ever existed. *)
Definition pools_used (st : store * history) : gset string :=
  list_to_set ((st.1 :: st.2) ≫= λ s, (λ x, sn_PoolRef (sn_Spec x.2)) <$> map_to_list (st_subnets s)).

(** C24. The child pool is labelled with the new parent, but its block is one of
    the old parent: no Subnet ever belonged to the pool that the label names. *)
Theorem edited_parent_mislabels :
  reached mislabelled /\
  (λ pc, (pc_Phase (pc_Status pc), pc_BoundPoolName (pc_Status pc))) <$>
    (st_poolclaims mislabelled.1 !! mkKey "ns" "pc") = Some (PoolClaimBound, "pc-00000") /\
  (λ p, (Labels (pl_meta p) !! ParentLabel, pl_CIDR (pl_Spec p))) <$>
    (st_pools mislabelled.1 !! mkKey "ns" "pc-00000") = Some (Some "other", "10.0.0.0/28") /\
  "other" ∉ pools_used mislabelled.
Proof.
  split; [|split; [vm_compute; reflexivity|split; [vm_compute; reflexivity|]]].
  - apply reached_run; [vm_compute; reflexivity|]. apply reached_by_user; [|apply pool_delegated_reached].
    refine (user_poolclaim claim_bound.1 (mkSubnetPoolClaim (mkObjectMeta "pc" "" "ns" "uid-pc" 2 ∅ [] [] None)
      (mkSubnetPoolClaimSpec "other" 28) (mkSubnetPoolClaimStatus 0 "" "" "" [])) _). vm_compute. reflexivity.
  - apply (bool_decide_unpack _). vm_compute. exact I.
Qed.
