(* ===== verification/EnvTest.v ===== *)
(** The set-up of the test environment ([internal/testutils/envtest_setup.go]):
    the version of the Kubernetes binaries to use, and the [init] function
    that finds or downloads them and announces their directory.  The operating
    system is a sequence of calls with every response possible; what the
    functions print is left out. *)

From S2P Require Import Prelude Bitmap.

(** * Standard library *)

(** The encodings of the code points with Unicode's White_Space property. *)
Definition bytes_text (l : list nat) : string := foldr (λ n s, String (ascii_of_nat n) s) EmptyString l.

Definition white_space : list string :=
  map bytes_text
    ([[9]; [10]; [11]; [12]; [13]; [32]; [194; 133]; [194; 160]; [225; 154; 128]]%nat ++
     map (λ n, [226; 128; n]%nat) (seq 128 11) ++
     [[226; 128; 168]; [226; 128; 169]; [226; 128; 175]; [226; 129; 159]; [227; 128; 128]])%nat.

(** [strip p s]: [s] without the prefix [p]. *)
Fixpoint strip (p s : string) : option string :=
  match p, s with
  | EmptyString, _ => Some s
  | String a p', String b s' => if bool_decide (a = b) then strip p' s' else None
  | _, _ => None
  end.

Fixpoint strip_any (ps : list string) (s : string) : option string :=
  match ps with
  | [] => None
  | p :: ps => match strip p s with Some t => Some t | None => strip_any ps s end
  end.

(** Removes words from the left as long as it can; each has a byte at least. *)
Fixpoint strip_all (ps : list string) (fuel : nat) (s : string) : string :=
  match fuel with
  | O => s
  | S fuel => match strip_any ps s with Some t => strip_all ps fuel t | None => s end
  end.

(** [strings.TrimSpace] *)
Definition TrimSpace (s : string) : string :=
  let s := strip_all white_space (String.length s) s in
  String.rev (strip_all (map String.rev white_space) (String.length s) (String.rev s)).

(** [filepath.Clean] where the separator is a slash: the elements of the path
    kept so far, last first. *)
Definition clean_step (rooted : bool) (kept : list string) (e : string) : list string :=
  if bool_decide (e = "" \/ e = ".") then kept
  else if bool_decide (e = "..") then
    match kept with
    | x :: rest => if bool_decide (x = "..") then e :: kept else rest
    | [] => if rooted then [] else [e]
    end
  else e :: kept.

Definition Clean (p : string) : string :=
  let rooted := String.prefix "/" p in
  let kept := reverse (foldl (clean_step rooted) [] (str_split "/" p)) in
  let out := (if rooted then "/" else "") +:+ String.concat "/" kept in
  if bool_decide (out = "") then "." else out.

(** [filepath.Join] there. *)
Fixpoint unix_Join (elem : list string) : string :=
  match elem with
  | [] => ""
  | e :: rest => if bool_decide (e <> "") then Clean (String.concat "/" elem) else unix_Join rest
  end.

(** [runtime.GOOS], [os.TempDir()] and [filepath.Join] of a platform. *)
Record platform : Type := mkPlatform {
  GOOS : string;
  TempDir : string;
  Join : list string -> string
}.

(** * Calls of the operating system *)

(** A command returns what it wrote to its two outputs, and its error. *)
Inductive sys_call : Type :=
| Getenv (name : string)
| MkdirAll (path : string)
| Stat (path : string)
| Command (args : list string)
| Setenv (name value : string).

Definition sys_resp (c : sys_call) : Type :=
  match c with
  | Getenv _ => string
  | Command _ => string * string * option error
  | _ => option error
  end.

Inductive script (A : Type) : Type :=
| SRet (a : A)
| SVis (c : sys_call) (k : sys_resp c -> script A)
| SPanic (e : error).
Arguments SRet {_} _.
Arguments SVis {_} _ _.
Arguments SPanic {_} _.

Fixpoint script_bind_ {A B} (f : A -> script B) (p : script A) : script B :=
  match p with
  | SRet a => f a
  | SVis c k => SVis c (λ r, script_bind_ f (k r))
  | SPanic e => SPanic e
  end.

#[export] Instance script_ret : MRet script := @SRet.
#[export] Instance script_bind : MBind script := λ A B f p, script_bind_ f p.

Definition sys (c : sys_call) : script (sys_resp c) := SVis c SRet.

(** * The repository *)

(** The version for the value of [ENVTEST_K8S_VERSION]. *)
Definition k8s_version (version : string) : string :=
  if bool_decide (version = "") then "1.32.0"
  else if negb (str_contains version ".") then version +:+ ".0"
  else let parts := str_split "." version in
       if bool_decide (length parts = 2%nat) then version +:+ ".0" else version.

Definition getK8sVersion : script string :=
  version ← sys (Getenv "ENVTEST_K8S_VERSION"); mret (k8s_version version).

Section Platform.
Context (os : platform).

Definition BinaryAssetsDir : string := Join os [TempDir os; ".cache"; "kubebuilder-envtest"].

(** The binary looked for in a directory, in [init] and in
    [validateAndSetEnvPath]. *)
Definition etcd_path (dir : string) : string :=
  let etcdPath := Join os [dir; "etcd"] in
  if bool_decide (GOOS os = "windows") then etcdPath +:+ ".exe" else etcdPath.

Definition set_assets (path : string) : script unit :=
  e ← sys (Setenv "KUBEBUILDER_ASSETS" path);
  match e with
  | Some err => SPanic (EWrap ("failed to set KUBEBUILDER_ASSETS: " +:+ Error err) err)
  | None => mret tt
  end.

Definition validateAndSetEnvPath (path : string) : script unit :=
  if bool_decide (path = "") then SPanic (EPlain "empty path received from setup-envtest")
  else
    e ← sys (Stat (etcd_path path));
    match e with
    | Some err =>
        SPanic (EWrap ("etcd binary not found at expected path " +:+ etcd_path path +:+ ": " +:+ Error err) err)
    | None => set_assets path
    end.

Definition setup_envtest : list string := ["go"; "run"; "sigs.k8s.io/controller-runtime/tools/setup-envtest@latest"].

Definition newline : string := bytes_text [10%nat].

Definition download (k8sVersion : string) : script unit :=
  '(stdout, _, e) ← sys (Command (setup_envtest ++ ["use"; k8sVersion; "-p"; "path"; "--bin-dir"; BinaryAssetsDir]));
  match e with
  | Some err =>
      '(stdout, stderr, e) ← sys (Command (setup_envtest ++ ["use"; "-i"; "--use-env"; "-p"; "path"; "--bin-dir"; BinaryAssetsDir]));
      match e with
      | Some _ =>
          SPanic (EWrap ("failed to download envtest binaries: " +:+ Error err +:+ newline +:+ "Stdout: " +:+ stdout +:+
                         newline +:+ "Stderr: " +:+ stderr) err)
      | None => validateAndSetEnvPath (TrimSpace stdout)
      end
  | None => validateAndSetEnvPath (TrimSpace stdout)
  end.

Definition init : script unit :=
  v ← sys (Getenv "KUBEBUILDER_ASSETS");
  if bool_decide (v <> "") then _ ← sys (Getenv "KUBEBUILDER_ASSETS"); mret tt
  else
    e ← sys (MkdirAll BinaryAssetsDir);
    match e with
    | Some err => SPanic (EWrap ("failed to create envtest directory: " +:+ Error err) err)
    | None =>
        e ← sys (Stat (etcd_path BinaryAssetsDir));
        match e with
        | None => set_assets BinaryAssetsDir
        | Some _ => k8sVersion ← getK8sVersion; download k8sVersion
        end
    end.

(** * Every run *)

Record sys_event : Type := SEv { se_call : sys_call; se_resp : sys_resp se_call }.

(** What holds of the calls and of the outcome, a value or a panic, of every
    run after the calls [tr]. *)
Fixpoint all_runs {A} (p : script A) (tr : list sys_event) (Q : list sys_event -> A + error -> Prop) : Prop :=
  match p with
  | SRet a => Q tr (inl a)
  | SVis c k => forall r, all_runs (k r) (tr ++ [SEv c r]) Q
  | SPanic e => Q tr (inr e)
  end.

(** The directory was announced right after its binary was seen. *)
Definition announced (tr : list sys_event) (path : string) : Prop :=
  exists tr0, tr = tr0 ++ [SEv (Stat (etcd_path path)) None; SEv (Setenv "KUBEBUILDER_ASSETS" path) None].

(** The directory of a run that had to look for one: the default one, or the
    one that the last command printed. *)
Definition found (tr : list sys_event) (path : string) : Prop :=
  path = BinaryAssetsDir \/
  path <> "" /\ exists args stdout stderr, path = TrimSpace stdout /\ SEv (Command args) (stdout, stderr, None) ∈ tr.

(** The last response explains the panic. *)
Definition explained (tr : list sys_event) : Prop :=
  exists tr0 ev, tr = tr0 ++ [ev] /\
    match ev with
    | SEv (Command _) (stdout, _, e) => e <> None \/ TrimSpace stdout = ""
    | SEv (Getenv _) _ => False
    | SEv (MkdirAll _) e | SEv (Stat _) e | SEv (Setenv _ _) e => e <> None
    end.

Definition ready (tr : list sys_event) (o : unit + error) : Prop :=
  match o with
  | inl _ => (exists v w, v <> "" /\ tr = [SEv (Getenv "KUBEBUILDER_ASSETS") v; SEv (Getenv "KUBEBUILDER_ASSETS") w]) \/
             exists path, announced tr path /\ found tr path
  | inr _ => explained tr
  end.

Lemma set_assets_ready path tr :
  found (tr ++ [SEv (Stat (etcd_path path)) None]) path ->
  all_runs (set_assets path) (tr ++ [SEv (Stat (etcd_path path)) None]) ready.
Proof.
  intros Hf [err|]; cbn; [by eexists _, _|]. right. exists path. split.
  - exists tr. by rewrite <-app_assoc.
  - destruct Hf as [->|(Hp & a & o & e & Ho & Hin)]; [by left|]. right. split; [done|].
    exists a, o, e. split; [done|]. apply elem_of_app. by left.
Qed.

Lemma validateAndSetEnvPath_ready tr args stdout stderr :
  let tr := tr ++ [SEv (Command args) (stdout, stderr, None)] in
  all_runs (validateAndSetEnvPath (TrimSpace stdout)) tr ready.
Proof.
  intros tr'. unfold validateAndSetEnvPath. case_bool_decide as Hp.
  { cbn. eexists _, _. split; [reflexivity|]. by right. }
  intros [err|]; [by eexists _, _|]. apply set_assets_ready. right. split; [done|].
  exists args, stdout, stderr. split; [done|]. unfold tr'. set_solver.
Qed.

(** The set-up either leaves an announced directory as it is, or ends with the
    directory announced whose [etcd] it has just seen, which is the default
    one or the one the tool printed, or it panics right after a failed call
    or an empty answer; it never returns without a directory. *)
Theorem init_ready : all_runs init [] ready.
Proof.
  unfold init, getK8sVersion, download. cbn [all_runs mbind script_bind script_bind_ sys app]. intros v. case_bool_decide as Hv.
  { intros w. left. by exists v, w. }
  intros [err|]; [by eexists _, _|]. intros [err|]; cbn [app script_bind_].
  - intros version [[out err1] [e1|]]; [|apply validateAndSetEnvPath_ready].
    intros [[out2 err2] [e2|]]; [|apply validateAndSetEnvPath_ready].
    eexists [_; _; _; _; _], _. split; [reflexivity|]. by left.
  - apply (set_assets_ready _ [_; _]). by left.
Qed.
End Platform.

(** * Versions *)

Definition dots (s : string) : nat := length (str_split "." s) - 1.

Lemma str_split_length sep s : (1 <= length (str_split sep s))%nat.
Proof. induction s as [|c s IH]; cbn; [lia|]. case_bool_decide; cbn; [lia|]. destruct (str_split sep s); cbn in *; lia. Qed.

Lemma dots_contains s : str_contains s "." = negb (bool_decide (dots s = 0%nat)).
Proof.
  unfold dots. induction s as [|c s IH]; [done|]. cbn [str_contains str_split]. rewrite IH.
  pose proof (str_split_length "." s) as Hl. cbn [String.prefix].
  destruct (ascii_dec "." c) as [<-|Hc].
  - rewrite (bool_decide_eq_true_2 ("."%char = "."%char)) by done. cbn [length].
    rewrite (bool_decide_eq_false_2 (S _ - 1 = 0)%nat) by lia. by destruct s.
  - rewrite (bool_decide_eq_false_2 (c = _)) by congruence. cbn [orb].
    destruct (str_split "." s) as [|p ps] eqn:E; cbn [length] in *; [lia|done].
Qed.

(** Versions with up to one dot get a zero component; others are kept. *)
Lemma k8s_version_cases v :
  v <> "" -> k8s_version v = if (dots v <=? 1)%nat then v +:+ ".0" else v.
Proof.
  intros Hv. unfold k8s_version. rewrite bool_decide_eq_false_2 by done.
  rewrite dots_contains, negb_involutive. pose proof (str_split_length "." v) as Hl. unfold dots.
  repeat case_bool_decide; destruct (Nat.leb_spec (length (str_split "." v) - 1) 1); try done; lia.
Qed.

(** A bare major version does not become major.minor.0. *)
Lemma major_version_incomplete : k8s_version "1" = "1.0" /\ k8s_version "1.32" = "1.32.0" /\ k8s_version "1.32.1" = "1.32.1".
Proof. by vm_compute. Qed.

(** * Concrete runs *)

Definition linux : platform := mkPlatform "linux" "/tmp" unix_Join.

Lemma linux_paths :
  BinaryAssetsDir linux = "/tmp/.cache/kubebuilder-envtest" /\
  etcd_path linux (TrimSpace (" /opt/k8s/../bin" +:+ newline)) = "/opt/bin/etcd".
Proof. by vm_compute. Qed.

(** A machine: its variables, its files and what a command does. *)
Record machine : Type := mkMachine { variables : gmap string string; files : gset string }.

Section Machine.
Context (tool : list string -> machine -> (string * string * option error) * machine).

Definition answer (c : sys_call) (m : machine) : sys_resp c * machine :=
  match c with
  | Getenv n => (default "" (variables m !! n), m)
  | MkdirAll p => (None, mkMachine (variables m) ({[p]} ∪ files m))
  | Stat p => (if bool_decide (p ∈ files m) then None else Some (EPlain "no such file"), m)
  | Command args => tool args m
  | Setenv n v => (None, mkMachine (<[n := v]> (variables m)) (files m))
  end.

Fixpoint run_script {A} (p : script A) (m : machine) : (A + error) * machine :=
  match p with
  | SRet a => (inl a, m)
  | SVis c k => let '(r, m) := answer c m in run_script (k r) m
  | SPanic e => (inr e, m)
  end.

Lemma run_script_bind {A B} (p : script A) (f : A -> script B) m :
  run_script (p ≫= f) m =
    match run_script p m with (inl a, m') => run_script (f a) m' | (inr e, m') => (inr e, m') end.
Proof.
  revert m. induction p as [a|c k IH|e]; intros m; [done| |done]. cbn [mbind script_bind script_bind_ run_script].
  destruct (answer c m) as [r m']. apply IH.
Qed.

(** A directory is announced in the machine. *)
Definition assets (m : machine) : Prop :=
  exists path, variables m !! "KUBEBUILDER_ASSETS" = Some path /\ path <> "".

Lemma set_assets_run path m m' : path <> "" -> run_script (set_assets path) m = (inl tt, m') -> assets m'.
Proof. intros Hp [= <-]. exists path. cbn [variables]. by rewrite lookup_insert_eq. Qed.

Lemma validateAndSetEnvPath_run os path m m' :
  run_script (validateAndSetEnvPath os path) m = (inl tt, m') -> assets m'.
Proof.
  unfold validateAndSetEnvPath. case_bool_decide as Hp; [done|]. rewrite run_script_bind. cbn [run_script sys answer].
  case_bool_decide; [|done]. by apply set_assets_run.
Qed.

Lemma assets_kept os m : assets m -> run_script (init os) m = (inl tt, m).
Proof.
  intros (path & Hv & Hp). unfold init. rewrite run_script_bind. cbn [run_script sys answer]. rewrite Hv. cbn [default].
  by rewrite bool_decide_eq_true_2.
Qed.

(** A second set-up in the same process finds the directory of the first and
    changes nothing. *)
Theorem init_again os m m' :
  BinaryAssetsDir os <> "" -> run_script (init os) m = (inl tt, m') ->
  assets m' /\ run_script (init os) m' = (inl tt, m').
Proof.
  intros Hd Hrun. assert (Ha : assets m'); [|split; [done|by apply assets_kept]].
  revert Hrun. unfold init. rewrite run_script_bind. cbn [run_script sys answer]. case_bool_decide as Hv.
  - intros [= <-]. destruct (variables m !! _) as [path|] eqn:E; [|done]. by exists path.
  - rewrite run_script_bind. cbn [run_script sys answer]. rewrite run_script_bind. cbn [run_script sys answer].
    case_bool_decide; [by apply set_assets_run|]. unfold getK8sVersion, download.
    rewrite !run_script_bind. cbn [run_script sys answer mret script_ret].
    rewrite run_script_bind. cbn [run_script sys answer]. destruct (tool _ _) as [[[out err1] [e1|]] m1];
      [|apply validateAndSetEnvPath_run].
    rewrite run_script_bind. cbn [run_script sys answer]. destruct (tool _ m1) as [[[out2 err2] [e2|]] m2];
      [done|apply validateAndSetEnvPath_run].
Qed.
End Machine.

(** A tool that installs the binary and prints its directory on a line. *)
Definition sample_tool (args : list string) (m : machine) : (string * string * option error) * machine :=
  (("/tmp/k8s" +:+ newline, "", None), mkMachine (variables m) ({["/tmp/k8s/etcd"]} ∪ files m)).

Lemma init_again_witness :
  let m' := (run_script sample_tool (init linux) (mkMachine ∅ ∅)).2 in
  variables m' !! "KUBEBUILDER_ASSETS" = Some "/tmp/k8s" /\ run_script sample_tool (init linux) m' = (inl tt, m').
Proof.
  intros m'. split; [vm_compute; reflexivity|].
  apply (init_again sample_tool linux (mkMachine ∅ ∅) m'); [vm_compute; intros [=]|vm_compute; reflexivity].
Defined.
